(* ===== verification/_CoqProject ===== *)
-Q . S2P
Prelude.v
Sds.v
Absl.v
StringSet.v
IoBuf.v
MemcacheParser.v
Crc32.v
RaftTypes.v
RaftCodec.v
RpcPayload.v
LogStorage.v
CommandLog.v
Json.v
SegmentLog.v
WalRecovery.v
FileLog.v
RaftStorage.v
CommandEncoder.v
Aof.v
SnapshotTransfer.v
ApplyProgress.v
ElectionTimer.v
StateMachine.v
DbSlice.v
ReplyBuilder.v
ConnContext.v
Connection.v
CommandStream.v
RedisParser.v
ConnectionInv.v
KvStateMachine.v
ServerSnapshot.v
RaftNode.v
Replication.v
HardState.v
Recovery.v
Cluster.v
FollowerLog.v
LeaderCommit.v
SoloLeader.v
Convergence.v
Transport.v
Concurrency.v
GroupCommit.v
Engine.v
GroupRecovery.v
Registry.v
DebugCmd.v
Service.v
SnapshotFiber.v
Startup.v
Serving.v
Durability.v
Limits.v
Memcache.v
