(* ===== verification/Prelude.v ===== *)
(** * MaxRedis in Rocq

    A verification of the MaxRedis server (src/server): a Redis-compatible
    key-value server that replicates its writes with Raft.  This file is the root
    of the development and the prelude of the others.

    ** The program and the files

    A client's bytes take this way through the program, and back:

    - a connection (service/dragonfly_connection.cc) reads into a buffer
      (helio/base/io_buf.cc), parses commands out of it and queues them
      (protocol/conn_context.cc).  [IoBuf], [Connection], [CommandStream],
      [ConnectionInv], [ConnContext]; inline commands are split by [Sds]; the
      memcached protocol is [MemcacheParser] and [Memcache];
    - the service (service/main_service.cc) looks a command up in its table
      (command_registry.cc) and runs its handler.  [Service], [Registry],
      [DebugCmd]; start-up is [Startup], the periodic snapshot (snapshot_fiber.cc)
      [SnapshotFiber];
    - a write goes through the engine (raft/raft_engine.cc) to the Raft node
      (raft/raft_node.cc), which appends it to its log, replicates, commits and
      applies it.  [Engine]; [RaftNode] has the roles, elections and handlers,
      [Replication] the leader's side, [GroupCommit] the batching of concurrent
      submissions;
    - the log is in memory (raft/command_log.cc, [CommandLog]) or in segment files
      (segment_log_storage.cc, wal_writer.cc, [SegmentLog], [WalRecovery]), behind
      one interface (log_storage.h, [LogStorage]); the file log before the
      segmented one (file_log_storage.cc) is [FileLog].  Entries are encoded by
      [CommandEncoder]; records carry a checksum, [Crc32];
    - committed entries reach the key-value state machine
      (state_machine/kv_state_machine.cc, [StateMachine], [KvStateMachine]), which
      spreads the keys over shards (storage/db_slice.cc, [DbSlice]);
    - replies are serialized by protocol/reply_builder.cc ([ReplyBuilder]).

    Nodes exchange RPCs (raft_types.h and the rpc headers, [RaftTypes]) that are
    framed and serialized by raft_codec.cc ([RaftCodec], [RpcPayload]) and carried
    by tcp_transport.cc or local_transport.cc ([Transport]).  Elections are timed
    by election_timer.cc ([ElectionTimer]).  What survives a crash: term and vote
    (raft_storage.cc, [RaftStorage]), apply progress (apply_progress.cc,
    [ApplyProgress]), the segment files, snapshots and their transfer
    (snapshot_*.cc, raft_group.cc, [Recovery], [SnapshotTransfer]), for all the
    groups of a process (raft_group_manager.cc, [GroupRecovery]), with the small
    JSON reader of [Json]; and, without Raft storage, the append-only file
    ([Aof]) and snapshot.bin ([ServerSnapshot]).

    Two libraries of the repository stand beside the server: a RESP parser
    (protocol/redis_parser.cc, [RedisParser]), which a connection constructs but
    does not call, and a hash set of strings (string_set/string_set.cc,
    [StringSet]).

    A file holds the state of its component as records, with the source's field
    names behind a prefix, one definition per function of the source, and what is
    proved of it.  [HardState], [Cluster], [FollowerLog], [LeaderCommit],
    [SoloLeader] and [Convergence] are theorems about [RaftNode] and
    [Replication]; [Concurrency] models two lock-free protocols; [Serving],
    [Durability] and [Limits] are about the server as a whole.

    ** How the code is modelled

    Integers are [Z], wrapped to their width ([u32], [u64]) where the code can
    overflow; bytes and strings are lists of [Z]; maps and sets are [gmap] and
    [gset]; null pointers and failures are [None].  A method is a function from
    the state to the new state and the result.  The clock, random numbers and the
    answers of other nodes are arguments.  A method of the Raft node that
    releases its mutex is split there: [Op_begin] and [Op_finish] are its locked
    phases.  Threads that share words without a lock are step relations
    ([ConnContext], [ElectionTimer], [Concurrency], [GroupCommit],
    [SnapshotFiber], [Cluster]).

    Interfaces between components are classes: [LogStorage] with its contract
    [LogStorageSpec], met by both logs and used by everything about the node;
    [StateMachine] and [KvStore], through which the node and the service reach the
    shards; [InputSource], which the parser reads; [RpcHandlers], which the
    transports call.  Code that is not in the repository is a parameter with its
    documented laws: protobuf ([ProtobufLaws]), abseil's number parser
    ([AbslSpec]), the hash function and the capacity of strings ([KvLib]); a
    concrete instance of each is used in the witnesses.

    Loops whose recursion is not structural take fuel.  It is computed from the
    input where the model calls them (the length of the input for parsers and
    readers, the distance to the commit index for the apply loop), or it is the
    source's own bound (8 rounds of [ReplicateLog], 16 of [CoordinatorCommit]);
    the theorems are about the results, so that running out of fuel would
    contradict them.

    ** What is proved

    - Agreement: no term has two leaders, under lost, repeated and reordered
      messages and crashes ([Cluster.election_safety]); the hard state behind it
      ([HardState]); what AppendEntries does to a log ([FollowerLog]); that a
      leader brings any follower's log to its own in a bounded number of rounds
      ([Convergence.replication_terminates]); when it commits ([LeaderCommit]).
    - The server is a map: every request on a node that leads alone is answered
      as by one map with expiry times ([Serving.server_is_a_map]), on any number
      of shards ([KvStateMachine.sharding_transparent]); every submission is
      committed and applied ([SoloLeader.submissions_complete]), alone or in a
      batch with others ([GroupCommit]).
    - Durability: restart from the append-only file
      ([Durability.classic_restart]), from the segment files
      ([WalRecovery.wal_recovery]), from snapshots ([Recovery.snapshot_recovery],
      [ServerSnapshot]), and of the hard state ([RaftStorage]); recovery finds
      every group on disk ([GroupRecovery.recover_finds_groups]).
    - Input and output: parsing does not depend on how the input is cut
      ([Connection.ParseRedis_chunks]) and inverts the encoding
      ([CommandStream.pipeline_parsed]), for the parser of the protocol library too
      ([RedisParser.parser_streams]), which on any input ends, stays within it and
      keeps no pointer into it ([RedisParser.parser_bounded]); replies keep their order and are never
      missed ([ReplyBuilder], [ConnContext]).
    - Wire: an RPC over TCP is a call of the handler
      ([Transport.tcp_refines_local]); corrupted frames are rejected
      ([RaftCodec.ParseRpcFrame_rejects_burst]).
    - Containers: the string set is a set, through displacement, chains and growth
      ([StringSet.string_set_refines]); the file log returns what was appended
      ([FileLog.file_log_reads_back]).
    - Teardown: a drained node is not entered
      ([Concurrency.drained_node_not_entered]).
    - Where the code does something else than it means to, the theorem says what
      it does ([Limits], and the last sections of the files above).

    ** Not modelled

    The fibers, sockets, TLS and logging of helio; process start-up and flag
    parsing other than --raft_peers; memory statistics; I/O errors other than a
    cut file (a write, rename or fsync that fails).  Memory orders: the step
    relations are sequentially consistent.  Membership changes are modelled in
    the node ([RaftNode]) but not in [Cluster], whose theorem is for a fixed
    membership.  The shard set (engine_shard_set.cc) only hands tasks to the queues
    of helio's threads; the model runs the tasks of a shard in order.  The driver
    fibers of a Raft group (SnapshotLoop, the flusher) only repeat calls that are
    modelled.  Of the string set the counters of memory and link cells are left
    out; its Erase and Scan are disabled in the source. *)

From stdpp Require Export base tactics numbers option list gmap fin_sets strings relations sorting.
From Stdlib Require Import Ascii.

Open Scope Z_scope.

(** ** Record update *)

(** [Eta R] rebuilds a record from its projections; the setter of a field is
    derived from it by abstracting the projection. *)
Class Eta (R : Type) := eta_expand : R → R.

Class Setter {R E : Type} (proj : R → E) := setter : (E → E) → R → R.

Definition set {R E : Type} (proj : R → E) {S : Setter proj} (f : E → E) (r : R) : R := S f r.
Arguments set {R E} proj {S} f r /.

Ltac derive_setter :=
  lazymatch goal with
  | |- @Setter ?R ?E ?proj =>
      let e := constr:(_ : Eta R) in
      let e := eval hnf in (@eta_expand R e) in
      lazymatch eval pattern proj in e with
      | ?u _ =>
          let s := eval cbv beta in (fun (f : E → E) => u (fun r => f (proj r))) in
          exact s
      end
  end.

#[export] Hint Extern 1 (Setter _) => derive_setter : typeclass_instances.

Declare Scope dfly_scope.
Delimit Scope dfly_scope with dfly.
Notation "x <| proj ::= f |>" := (set proj f x)
  (at level 1, proj at level 99, f at level 99, left associativity) : dfly_scope.
Notation "x <| proj := v |>" := (set proj (fun _ => v) x)
  (at level 1, proj at level 99, v at level 99, left associativity) : dfly_scope.
Open Scope dfly_scope.

(** ** Automation *)

(** [dfly] holds the resolution lemmas the components share; [dfly_simpl] the
    rewrite rules that normalise byte strings and machine integers. *)
Create HintDb dfly discriminated.
Create Rewrite HintDb dfly_simpl.

(** Splits every boolean test and [decide] of the goal or of a hypothesis, and
    turns the outcome into the proposition it decides. *)
Ltac bool_norm :=
  repeat match goal with
  | H : (_ && _)%bool = true |- _ => apply andb_true_iff in H; destruct H
  | H : (_ || _)%bool = false |- _ => apply orb_false_iff in H; destruct H
  | H : (_ <? _) = true |- _ => apply Z.ltb_lt in H
  | H : (_ <? _) = false |- _ => apply Z.ltb_ge in H
  | H : (_ <=? _) = true |- _ => apply Z.leb_le in H
  | H : (_ <=? _) = false |- _ => apply Z.leb_gt in H
  | H : (_ =? _) = true |- _ => apply Z.eqb_eq in H
  | H : (_ =? _) = false |- _ => apply Z.eqb_neq in H
  | H : negb _ = true |- _ => apply negb_true_iff in H
  | H : negb _ = false |- _ => apply negb_false_iff in H
  | H : bool_decide _ = true |- _ => apply bool_decide_eq_true in H
  | H : bool_decide _ = false |- _ => apply bool_decide_eq_false in H
  end.

(** Case analysis on the scrutinees of the goal, outermost first, keeping the
    equations. *)
Ltac split_match :=
  repeat (case_match; simplify_eq/=; bool_norm).

(** Evaluates a closed side condition. *)
Ltac by_compute := vm_compute; first [reflexivity | congruence | intuition congruence].

(** Evaluates a closed decidable proposition. *)
Ltac by_decide := apply (bool_decide_unpack _); vm_compute; exact I.

(** ** Machine integers *)

(** Unsigned wrap-around of a [w]-bit C++ integer. *)
Definition wrapu (w : Z) (z : Z) : Z := z mod 2 ^ w.
Abbreviation u8 := (wrapu 8).
Abbreviation u16 := (wrapu 16).
Abbreviation u32 := (wrapu 32).
Abbreviation u64 := (wrapu 64).

Definition U32_MAX : Z := 4294967295.
Definition U64_MAX : Z := 18446744073709551615.

Lemma wrapu_small w z : 0 ≤ z < 2 ^ w → wrapu w z = z.
Proof. apply Z.mod_small. Qed.

Lemma wrapu_range w z : 0 ≤ w → 0 ≤ wrapu w z < 2 ^ w.
Proof. intros. apply Z.mod_pos_bound, Z.pow_pos_nonneg; lia. Qed.

Lemma u64_small z : 0 ≤ z ≤ U64_MAX → u64 z = z.
Proof. unfold U64_MAX. intros. apply wrapu_small. lia. Qed.

Lemma u32_small z : 0 ≤ z ≤ U32_MAX → u32 z = z.
Proof. unfold U32_MAX. intros. apply wrapu_small. lia. Qed.

Lemma u64_range z : 0 ≤ u64 z ≤ U64_MAX.
Proof. pose proof (wrapu_range 64 z ltac:(lia)). unfold U64_MAX. lia. Qed.

Lemma u32_range z : 0 ≤ u32 z ≤ U32_MAX.
Proof. pose proof (wrapu_range 32 z ltac:(lia)). unfold U32_MAX. lia. Qed.

#[export] Hint Resolve u64_range u32_range : dfly.

(** Removes the wrap-arounds whose argument is provably in range. *)
Ltac unwrap :=
  repeat first [rewrite u64_small in * by (unfold U64_MAX in *; lia)
               |rewrite u32_small in * by (unfold U32_MAX in *; lia)].

(** ** Bit fields *)

Lemma bits_range n z : 0 ≤ n → 0 ≤ z → (∀ i, n ≤ i → Z.testbit z i = false) → z < 2 ^ n.
Proof.
  intros Hn Hz H. destruct (decide (z = 0)) as [->|]; [lia|].
  apply Z.log2_lt_pow2; [lia|]. destruct (decide (Z.log2 z < n)); [done|].
  pose proof (Z.bit_log2 z ltac:(lia)). rewrite H in *; [done|lia].
Qed.

Lemma range_bits n z i : 0 ≤ z < 2 ^ n → n ≤ i → Z.testbit z i = false.
Proof.
  intros [Hz Hlt] Hi. destruct (decide (z = 0)) as [->|]; [apply Z.bits_0|].
  apply Z.bits_above_log2; [done|]. apply Z.log2_lt_pow2 in Hlt; lia.
Qed.

Lemma lxor_range n x y : 0 ≤ n → 0 ≤ x < 2 ^ n → 0 ≤ y < 2 ^ n → 0 ≤ Z.lxor x y < 2 ^ n.
Proof.
  intros Hn Hx Hy. assert (0 ≤ Z.lxor x y) by (apply Z.lxor_nonneg; lia).
  split; [done|]. apply bits_range; [done..|].
  intros i Hi. by rewrite Z.lxor_spec, (range_bits n x), (range_bits n y).
Qed.

Lemma land_shiftl_low n a b : 0 ≤ n → 0 ≤ a < 2 ^ n → Z.land a (Z.shiftl b n) = 0.
Proof.
  intros Hn Ha. apply Z.bits_inj'. intros i Hi. rewrite Z.land_spec, Z.bits_0.
  destruct (decide (i < n)).
  - rewrite Z.shiftl_spec_low by lia. apply andb_false_r.
  - rewrite (range_bits n a i) by lia. done.
Qed.

Lemma lor_shiftl n a b : 0 ≤ n → 0 ≤ a < 2 ^ n → Z.lor a (Z.shiftl b n) = a + b * 2 ^ n.
Proof.
  intros Hn Ha. pose proof (land_shiftl_low n a b Hn Ha) as H0.
  rewrite <-Z.lxor_lor, <-Z.add_nocarry_lxor by done. by rewrite Z.shiftl_mul_pow2.
Qed.

(** ** Byte strings *)

(** [std::string] and [std::string_view] are lists of bytes, each byte a [Z]
    in [0, 256). *)
Abbreviation bytes := (list Z).

Definition str (s : string) : bytes :=
  (λ a, Z.of_N (N_of_ascii a)) <$> String.list_ascii_of_string s.

Definition zlen {A} (l : list A) : Z := Z.of_nat (length l).

(** [s[i]] for an index the caller has checked. *)
Definition byte_at (s : bytes) (i : Z) : Z := default 0 (s !! Z.to_nat i).

Definition substr (s : bytes) (pos n : Z) : bytes :=
  take (Z.to_nat n) (drop (Z.to_nat pos) s).

Fixpoint find_nat (pat s : bytes) : option nat :=
  if bool_decide (pat `prefix_of` s) then Some 0%nat
  else match s with
       | [] => None
       | _ :: s' => S <$> find_nat pat s'
       end.

(** [s.find(pat, pos)]; [None] is [npos]. *)
Definition find_from (pat s : bytes) (pos : Z) : option Z :=
  (λ i, pos + Z.of_nat i) <$> find_nat pat (drop (Z.to_nat pos) s).

Definition CRLF : bytes := [13; 10].

Definition is_digit (c : Z) : bool := (48 <=? c) && (c <=? 57).

(** Every element fits in a byte. *)
Definition is_bytes (s : bytes) : Prop := Forall (λ c, 0 ≤ c < 256) s.

#[export] Instance is_bytes_dec s : Decision (is_bytes s).
Proof. unfold is_bytes. apply _. Defined.

(** ** Decimal text *)

Fixpoint dec_aux (fuel : nat) (n : Z) (acc : bytes) : bytes :=
  match fuel with
  | O => acc
  | S fuel' =>
      let acc := (48 + n mod 10) :: acc in
      if n <? 10 then acc else dec_aux fuel' (n / 10) acc
  end.

(** [std::to_string] of an unsigned 64-bit value, which has at most 20 digits. *)
Definition to_string (n : Z) : bytes := dec_aux 20 n [].

(** The value of a run of digits, most significant first. *)
Definition dec_val (s : bytes) (acc : Z) : Z := fold_left (λ v c, v * 10 + (c - 48)) s acc.

Fixpoint take_while (f : Z → bool) (s : bytes) : bytes :=
  match s with
  | c :: s' => if f c then c :: take_while f s' else []
  | [] => []
  end.

Fixpoint drop_while (f : Z → bool) (s : bytes) : bytes :=
  match s with
  | c :: s' => if f c then drop_while f s' else s
  | [] => []
  end.

(** C's [isspace] in the default locale. *)
Definition is_space (c : Z) : bool := (c =? 32) || ((9 <=? c) && (c <=? 13)).

(** The common part of the C number parsers in base 10: leading blanks, a sign,
    digits.  [None] when there is no digit; otherwise whether the sign was
    negative, and the magnitude. *)
Definition scan_decimal (s : bytes) : option (bool * Z) :=
  let s := drop_while is_space s in
  let '(neg, s) := match s with
                   | c :: s' => if c =? 45 then (true, s')
                                else if c =? 43 then (false, s') else (false, s)
                   | [] => (false, s)
                   end in
  match take_while is_digit s with
  | [] => None
  | ds => Some (neg, dec_val ds 0)
  end.

(** [strtoull(s, &end, 10)]: [None] when no digit was consumed ([end == s]).
    The value saturates at [ULLONG_MAX] and a minus sign negates modulo 2^64. *)
Definition strtoull (s : bytes) : option Z :=
  '(neg, v) ← scan_decimal s;
  Some (if U64_MAX <? v then U64_MAX else if (neg : bool) then u64 (- v) else v).

(** The text at [end], when a digit was consumed. *)
Definition strtoull_end (s : bytes) : bytes :=
  let s := drop_while is_space s in
  drop_while is_digit
    match s with
    | c :: s' => if (c =? 45) || (c =? 43) then s' else s
    | [] => s
    end.

(** [std::stoull]; [None] when it throws (no digits, or out of range). *)
Definition stoull (s : bytes) : option Z :=
  '(neg, v) ← scan_decimal s;
  if U64_MAX <? v then None else Some (if (neg : bool) then u64 (- v) else v).

(** ** Little-endian integers in memory *)

Fixpoint le_bytes (n : nat) (v : Z) : bytes :=
  match n with
  | O => []
  | S n' => (v mod 256) :: le_bytes n' (v / 256)
  end.

Fixpoint le_val (s : bytes) : Z :=
  match s with
  | [] => 0
  | c :: s' => c + 256 * le_val s'
  end.

(** ** Lemmas on byte strings *)

Lemma zlen_nonneg {A} (l : list A) : 0 ≤ zlen l.
Proof. unfold zlen. lia. Qed.

Lemma zlen_nil {A} : zlen (@nil A) = 0.
Proof. done. Qed.

Lemma zlen_cons {A} (x : A) l : zlen (x :: l) = 1 + zlen l.
Proof. unfold zlen. rewrite length_cons. lia. Qed.

Lemma zlen_app {A} (l k : list A) : zlen (l ++ k) = zlen l + zlen k.
Proof. unfold zlen. rewrite length_app. lia. Qed.

Lemma zlen_take {A} (l : list A) n : 0 ≤ n ≤ zlen l → zlen (take (Z.to_nat n) l) = n.
Proof. unfold zlen. rewrite length_take. lia. Qed.

Lemma zlen_drop {A} (l : list A) n : 0 ≤ n ≤ zlen l → zlen (drop (Z.to_nat n) l) = zlen l - n.
Proof. unfold zlen. rewrite length_drop. lia. Qed.

Lemma to_nat_zlen {A} (l : list A) : Z.to_nat (zlen l) = length l.
Proof. unfold zlen. lia. Qed.

#[export] Hint Resolve zlen_nonneg : dfly.
#[export] Hint Rewrite @zlen_nil @zlen_cons @zlen_app @to_nat_zlen : dfly_simpl.

(** Positions that are the length of a known prefix: the accessors reduce to
    the suffix. *)
Section prefix_access.
Implicit Types p s k : bytes.

Lemma drop_zlen_app p s : drop (Z.to_nat (zlen p)) (p ++ s) = s.
Proof. rewrite to_nat_zlen. apply drop_app_length. Qed.

Lemma byte_at_app p c s : byte_at (p ++ c :: s) (zlen p) = c.
Proof. unfold byte_at. rewrite to_nat_zlen, list_lookup_middle; done. Qed.

Lemma byte_at_app_at p s i : zlen p ≤ i → byte_at (p ++ s) i = byte_at s (i - zlen p).
Proof.
  unfold byte_at, zlen. intros. rewrite lookup_app_r by lia. do 2 f_equal. lia.
Qed.

Lemma substr_app p s k : substr (p ++ s ++ k) (zlen p) (zlen s) = s.
Proof. unfold substr. rewrite drop_zlen_app, to_nat_zlen. apply take_app_length. Qed.

Lemma substr_0_app s k : substr (s ++ k) 0 (zlen s) = s.
Proof. exact (substr_app [] s k). Qed.

Lemma find_from_app pat p s :
  find_from pat (p ++ s) (zlen p) = (λ i, zlen p + Z.of_nat i) <$> find_nat pat s.
Proof. unfold find_from. rewrite drop_zlen_app. done. Qed.

(** The first occurrence of a separator whose first byte does not occur in
    the text before it. *)
Lemma find_nat_first c pat p s :
  Forall (λ x, x ≠ c) p → find_nat (c :: pat) (p ++ (c :: pat) ++ s) = Some (length p).
Proof.
  induction 1 as [|x p Hx _ IH].
  - simpl app. cbn [find_nat]. rewrite bool_decide_true; [done|]. by exists s.
  - cbn [find_nat app]. rewrite bool_decide_false.
    + simpl in IH. by rewrite IH.
    + intros [k Hk]. simplify_eq/=.
Qed.

Lemma find_from_first c pat p q s :
  Forall (λ x, x ≠ c) q →
  find_from (c :: pat) (p ++ q ++ (c :: pat) ++ s) (zlen p) = Some (zlen p + zlen q).
Proof. intros. by rewrite find_from_app, find_nat_first. Qed.

Lemma find_nat_none c pat p : Forall (λ x, x ≠ c) p → find_nat (c :: pat) p = None.
Proof.
  induction 1 as [|x p Hx _ IH]; cbn [find_nat].
  - rewrite bool_decide_false; [done|]. by intros [? ?].
  - rewrite bool_decide_false; [by rewrite IH|]. intros [? ?]. by simplify_eq/=.
Qed.
End prefix_access.

(** ** Decimal round trip *)

Lemma dec_aux_app fuel n acc : dec_aux fuel n acc = dec_aux fuel n [] ++ acc.
Proof.
  revert n acc. induction fuel as [|fuel IH]; intros n acc; simpl; [done|].
  case_match; [done|]. rewrite IH, (IH _ [_]), <-app_assoc. done.
Qed.

Lemma dec_val_app s t v : dec_val (s ++ t) v = dec_val t (dec_val s v).
Proof. apply fold_left_app. Qed.

Lemma dec_aux_val fuel n :
  0 ≤ n < 10 ^ Z.of_nat fuel → dec_val (dec_aux fuel n []) 0 = n.
Proof.
  revert n. induction fuel as [|fuel IH]; intros n Hn; [simpl in *; lia|].
  simpl. case_match eqn:E; bool_norm; [cbn; rewrite Z.mod_small; lia|].
  rewrite dec_aux_app, dec_val_app, IH.
  - unfold dec_val. simpl. pose proof (Z.div_mod n 10). lia.
  - rewrite Nat2Z.inj_succ, Z.pow_succ_r in Hn by lia.
    split; [apply Z.div_pos; lia|]. apply Z.div_lt_upper_bound; lia.
Qed.

Lemma dec_aux_digits fuel n acc :
  0 ≤ n → Forall (λ c, 48 ≤ c ≤ 57) acc → Forall (λ c, 48 ≤ c ≤ 57) (dec_aux fuel n acc).
Proof.
  revert n acc. induction fuel as [|fuel IH]; intros n acc Hn Hacc; simpl; [done|].
  assert (48 ≤ 48 + n mod 10 ≤ 57) by (pose proof (Z.mod_pos_bound n 10); lia).
  case_match; [by constructor|]. apply IH; [apply Z.div_pos; lia | by constructor].
Qed.

Lemma to_string_val n : 0 ≤ n ≤ U64_MAX → dec_val (to_string n) 0 = n.
Proof. unfold U64_MAX. intros. apply dec_aux_val. lia. Qed.

Lemma to_string_digits n : 0 ≤ n → Forall (λ c, 48 ≤ c ≤ 57) (to_string n).
Proof. intros. apply dec_aux_digits; [done | constructor]. Qed.

Lemma dec_aux_cons fuel n acc : ∃ c s, dec_aux (S fuel) n acc = c :: s.
Proof.
  cbn [dec_aux]. case_match; [eauto|]. rewrite dec_aux_app.
  destruct (dec_aux _ _ []); simpl; eauto.
Qed.

Lemma to_string_cons n : ∃ c s, to_string n = c :: s.
Proof. apply dec_aux_cons. Qed.

Lemma to_string_ne n c : 0 ≤ n → c < 48 ∨ 57 < c → Forall (λ x, x ≠ c) (to_string n).
Proof.
  intros Hn Hc. eapply Forall_impl; [by apply to_string_digits|]. simpl. lia.
Qed.

#[export] Hint Resolve to_string_digits to_string_ne : dfly.

Lemma drop_while_le f s : (length (drop_while f s) ≤ length s)%nat.
Proof. induction s as [|c s IH]; simpl; [done|]. case_match; simpl; lia. Qed.

Lemma drop_while_head f s c s' : drop_while f s = c :: s' → f c = false.
Proof. induction s as [|a s IH]; simpl; [done|]. destruct (f a) eqn:E; [done|]. by intros [= -> ->]. Qed.

Lemma drop_while_app f s t : Forall (λ c, f c = true) s → drop_while f (s ++ t) = drop_while f t.
Proof. induction 1 as [|c s Hc _ IH]; simpl; [done|]. by rewrite Hc. Qed.

Lemma take_while_drop_while f s : take_while f s ++ drop_while f s = s.
Proof. induction s as [|c s IH]; [done|]. cbn. destruct (f c); [cbn; by rewrite IH|done]. Qed.

Lemma drop_while_nil f s : drop_while f s = [] → Forall (fun c => f c = true) s.
Proof. induction s as [|c s IH]; [done|]. cbn. destruct (f c) eqn:E; [|done]. intros H. constructor; auto. Qed.

Lemma take_while_app f s t :
  Forall (λ c, f c = true) s → take_while f (s ++ t) = s ++ take_while f t.
Proof. induction 1 as [|c s Hc _ IH]; simpl; [done|]. by rewrite Hc, IH. Qed.

Lemma scan_decimal_digits ds t :
  ds ≠ [] → Forall (λ c, 48 ≤ c ≤ 57) ds → take_while is_digit t = [] →
  scan_decimal (ds ++ t) = Some (false, dec_val ds 0).
Proof.
  intros Hne Hd Ht. assert (Forall (λ c, is_digit c = true) ds) as Hf.
  { eapply Forall_impl; [done|]. unfold is_digit. simpl. lia. }
  pose proof (take_while_app is_digit _ t Hf) as Htw. rewrite Ht, app_nil_r in Htw.
  destruct ds as [|c s]; [done|]. inversion Hd as [|? ? Hc _]; subst.
  assert (drop_while is_space ((c :: s) ++ t) = (c :: s) ++ t) as Hsp.
  { simpl. replace (is_space c) with false; [done|]. unfold is_space. lia. }
  unfold scan_decimal. rewrite Hsp. simpl app. cbv beta iota zeta.
  rewrite (proj2 (Z.eqb_neq c 45)), (proj2 (Z.eqb_neq c 43)) by lia.
  simpl app in Htw. by rewrite Htw.
Qed.

Lemma scan_decimal_to_string n t :
  0 ≤ n ≤ U64_MAX → take_while is_digit t = [] →
  scan_decimal (to_string n ++ t) = Some (false, n).
Proof.
  intros Hn Ht. destruct (to_string_cons n) as (c & s & E).
  rewrite scan_decimal_digits, to_string_val; [done|done|by rewrite E| |done].
  apply to_string_digits. lia.
Qed.

Lemma strtoull_to_string n t :
  0 ≤ n ≤ U64_MAX → take_while is_digit t = [] → strtoull (to_string n ++ t) = Some n.
Proof.
  intros Hn Ht. unfold strtoull. rewrite scan_decimal_to_string by done. cbn.
  by rewrite (proj2 (Z.ltb_ge _ _)) by lia.
Qed.

Lemma stoull_to_string n : 0 ≤ n ≤ U64_MAX → stoull (to_string n) = Some n.
Proof.
  intros Hn. unfold stoull. rewrite <-(app_nil_r (to_string n)), scan_decimal_to_string by done. cbn.
  by rewrite (proj2 (Z.ltb_ge _ _)) by lia.
Qed.

(** ** Little-endian round trip *)

Lemma length_le_bytes n v : length (le_bytes n v) = n.
Proof. revert v. induction n as [|n IH]; intros v; simpl; [done|]. by rewrite IH. Qed.

Lemma zlen_le_bytes n v : zlen (le_bytes n v) = Z.of_nat n.
Proof. unfold zlen. by rewrite length_le_bytes. Qed.

Lemma le_val_bytes n v : le_val (le_bytes n v) = v mod 256 ^ Z.of_nat n.
Proof.
  revert v. induction n as [|n IH]; intros v; cbn [le_bytes le_val].
  - by rewrite Z.mod_1_r.
  - rewrite IH, Nat2Z.inj_succ, Z.pow_succ_r by lia.
    rewrite Z.rem_mul_r by lia. done.
Qed.

Lemma le_val_bytes_small n v : 0 ≤ v < 256 ^ Z.of_nat n → le_val (le_bytes n v) = v.
Proof. intros. rewrite le_val_bytes. by apply Z.mod_small. Qed.

Lemma le_bytes_is_bytes n v : is_bytes (le_bytes n v).
Proof.
  revert v. induction n as [|n IH]; intros v; simpl; [constructor|].
  constructor; [by apply Z.mod_pos_bound | apply IH].
Qed.

#[export] Hint Rewrite length_le_bytes zlen_le_bytes : dfly_simpl.

Lemma is_bytes_app s t : is_bytes s → is_bytes t → is_bytes (s ++ t).
Proof. apply Forall_app_2. Qed.

Lemma is_bytes_cons c s : 0 ≤ c < 256 → is_bytes s → is_bytes (c :: s).
Proof. by constructor. Qed.

Lemma is_bytes_nil : is_bytes [].
Proof. constructor. Qed.

Lemma is_bytes_substr s pos n : is_bytes s → is_bytes (substr s pos n).
Proof. intros. by apply Forall_take, Forall_drop. Qed.

Lemma str_is_bytes s : is_bytes (str s).
Proof.
  unfold is_bytes, str. apply Forall_forall. intros c (a & -> & _)%list_elem_of_fmap.
  pose proof (N_ascii_bounded a). lia.
Qed.

#[export] Hint Resolve length_le_bytes zlen_le_bytes le_bytes_is_bytes is_bytes_app is_bytes_cons is_bytes_nil
  is_bytes_substr str_is_bytes : dfly.
