(* ===== verification/Sds.v ===== *)
(** The functions of the simple dynamic string library that the connections use:
    splitting a line into arguments, the quoted form of a string, upper case.
    Theorems: splitting terminates for every line, a carriage return at the end
    of a line is invisible to it, and it inverts the quoting. *)
From stdpp Require Import base list strings.
From S2P Require Import Prelude.

Open Scope Z_scope.

Definition isxdigit (c : Z) : bool :=
  is_digit c || ((65 <=? c) && (c <=? 70)) || ((97 <=? c) && (c <=? 102)).

Definition isprint (c : Z) : bool := (32 <=? c) && (c <=? 126).

Definition toupper (c : Z) : Z := if (97 <=? c) && (c <=? 122) then c - 32 else c.

Definition sdstoupper (s : bytes) : bytes := toupper <$> s.

Definition hex_digit_to_int (c : Z) : Z :=
  if is_digit c then c - 48
  else if (97 <=? c) && (c <=? 102) then c - 87
  else if (65 <=? c) && (c <=? 70) then c - 55
  else 0.

(** The escapes of a double-quoted argument that stand for another character. *)
Definition unescape (c : Z) : Z :=
  if c =? 110 then 10 else if c =? 114 then 13 else if c =? 116 then 9
  else if c =? 98 then 8 else if c =? 97 then 7 else c.

(** The local flags [inq] and [insq] of [sdssplitargs], which are never both
    set. *)
Inductive Quoting : Type := Plain | InQuotes | InSingleQuotes.

(** [*(p + 1) && !isspace( *(p + 1))] *)
Definition not_blank (p : bytes) : bool :=
  match p with c :: _ => negb (is_space c) | [] => false end.

(** The inner loop of [sdssplitargs]: the rest of the token [current], and what
    follows it.  The end of the list is the terminating NUL; [None] is the jump
    to [err]. *)
Fixpoint get_token (q : Quoting) (p current : bytes) : option (bytes * bytes) :=
  match q, p with
  | InQuotes, [] => None
  | InQuotes, c :: p1 =>
      if c =? 92 then
        match p1 with
        | [] => get_token InQuotes p1 (current ++ [c])
        | x :: p2 =>
            match p2 with
            | h :: (l :: p4) as p3 =>
                if (x =? 120) && isxdigit h && isxdigit l then
                  get_token InQuotes p4 (current ++ [hex_digit_to_int h * 16 + hex_digit_to_int l])
                else get_token InQuotes p2 (current ++ [unescape x])
            | _ => get_token InQuotes p2 (current ++ [unescape x])
            end
        end
      else if c =? 34 then if not_blank p1 then None else Some (current, p1)
      else get_token InQuotes p1 (current ++ [c])
  | InSingleQuotes, [] => None
  | InSingleQuotes, c :: p1 =>
      if c =? 39 then if not_blank p1 then None else Some (current, p1)
      else match p1 with
           | x :: p2 =>
               if (c =? 92) && (x =? 39) then get_token InSingleQuotes p2 (current ++ [39])
               else get_token InSingleQuotes p1 (current ++ [c])
           | [] => get_token InSingleQuotes p1 (current ++ [c])
           end
  | Plain, [] => Some (current, [])
  | Plain, c :: p1 =>
      if (c =? 32) || (c =? 10) || (c =? 13) || (c =? 9) then Some (current, p1)
      else if c =? 34 then get_token InQuotes p1 current
      else if c =? 39 then get_token InSingleQuotes p1 current
      else get_token Plain p1 (current ++ [c])
  end.

(** The outer loop: skip blanks, take a token.  Each turn consumes a character,
    so the length of the line bounds the turns. *)
Fixpoint split_args (turns : nat) (p : bytes) (vector : list bytes) : option (list bytes) :=
  match drop_while is_space p with
  | [] => Some vector
  | p =>
      match turns, get_token Plain p [] with
      | S turns, Some (current, p) => split_args turns p (vector ++ [current])
      | _, _ => None
      end
  end.

(** What [c_str()] shows of a string: the characters before the first NUL. *)
Definition c_str (s : bytes) : bytes := take_while (λ c, negb (c =? 0)) s.

Definition sdssplitargs (line : bytes) : option (list bytes) :=
  split_args (length (c_str line)) (c_str line) [].

Definition hex_digit (d : Z) : Z := if d <? 10 then 48 + d else 87 + d.

(** The escaped form of one character. *)
Definition repr_char (c : Z) : bytes :=
  if (c =? 92) || (c =? 34) then [92; c]
  else if c =? 10 then [92; 110]
  else if c =? 13 then [92; 114]
  else if c =? 9 then [92; 116]
  else if c =? 7 then [92; 97]
  else if c =? 8 then [92; 98]
  else if isprint c then [c]
  else [92; 120; hex_digit (c / 16); hex_digit (c mod 16)].

Definition sdscatrepr (s p : bytes) : bytes :=
  s ++ [34] ++ (p ≫= repr_char) ++ [34].

(** ** Splitting terminates *)

Definition token_len (q : Quoting) (p : bytes) : Prop :=
  ∀ current t rest, get_token q p current = Some (t, rest) → (length rest ≤ length p)%nat.

Lemma get_token_unfold q p current :
  get_token q p current =
  match q, p with
  | InQuotes, [] => None
  | InQuotes, c :: p1 =>
      if c =? 92 then
        match p1 with
        | [] => get_token InQuotes p1 (current ++ [c])
        | x :: p2 =>
            match p2 with
            | h :: (l :: p4) as p3 =>
                if (x =? 120) && isxdigit h && isxdigit l then
                  get_token InQuotes p4 (current ++ [hex_digit_to_int h * 16 + hex_digit_to_int l])
                else get_token InQuotes p2 (current ++ [unescape x])
            | _ => get_token InQuotes p2 (current ++ [unescape x])
            end
        end
      else if c =? 34 then if not_blank p1 then None else Some (current, p1)
      else get_token InQuotes p1 (current ++ [c])
  | InSingleQuotes, [] => None
  | InSingleQuotes, c :: p1 =>
      if c =? 39 then if not_blank p1 then None else Some (current, p1)
      else match p1 with
           | x :: p2 =>
               if (c =? 92) && (x =? 39) then get_token InSingleQuotes p2 (current ++ [39])
               else get_token InSingleQuotes p1 (current ++ [c])
           | [] => get_token InSingleQuotes p1 (current ++ [c])
           end
  | Plain, [] => Some (current, [])
  | Plain, c :: p1 =>
      if (c =? 32) || (c =? 10) || (c =? 13) || (c =? 9) then Some (current, p1)
      else if c =? 34 then get_token InQuotes p1 current
      else if c =? 39 then get_token InSingleQuotes p1 current
      else get_token Plain p1 (current ++ [c])
  end.
Proof. by destruct q, p. Qed.

Lemma get_token_le q p : token_len q p.
Proof.
  enough (∀ n, (∀ p, (length p ≤ n)%nat → ∀ q, token_len q p)) as H by exact (H _ _ (le_n _) q).
  clear. induction n as [|n IH]; intros p Hp q current t rest Ht.
  { destruct p; [|simpl in Hp; lia]. destruct q; simpl in Ht; by simplify_eq. }
  assert (∀ q p' cur, (length p' ≤ n)%nat → get_token q p' cur = Some (t, rest) →
            (length rest ≤ length p')%nat) as Hrec by (intros; by eapply IH).
  rewrite get_token_unfold in Ht.
  repeat case_match; simplify_eq; cbn [length] in *; try lia;
    apply Hrec in Ht; cbn [length] in *; lia.
Qed.

(** A token that starts at a character that is not a blank consumes it. *)
Lemma get_token_lt c p t rest :
  is_space c = false → get_token Plain (c :: p) [] = Some (t, rest) → (length rest ≤ length p)%nat.
Proof.
  intros Hc. rewrite get_token_unfold. unfold is_space in Hc.
  destruct ((c =? 32) || (c =? 10) || (c =? 13) || (c =? 9)) eqn:E; [bool_norm; lia|].
  repeat case_match; intros H'; by apply get_token_le in H'.
Qed.

(** More turns than characters change nothing. *)
Lemma split_args_turns n p vector :
  (length p ≤ n)%nat → split_args n p vector = split_args (length p) p vector.
Proof.
  enough (∀ k n p vector, (length p ≤ k)%nat → (length p ≤ n)%nat →
            split_args n p vector = split_args (length p) p vector) by eauto.
  clear. induction k as [|k IH]; intros n p vector Hk Hn.
  { destruct p; [|simpl in Hk; lia]. by destruct n. }
  pose proof (drop_while_le is_space p) as Hle.
  destruct p as [|a p]; [by destruct n|]. destruct n as [|n]; [simpl in Hn; lia|].
  change (split_args (length (a :: p))) with (split_args (S (length p))). cbn [split_args].
  destruct (drop_while is_space (a :: p)) as [|c p'] eqn:E; [done|].
  destruct (get_token Plain (c :: p') []) as [[t rest]|] eqn:Et; [|done].
  apply get_token_lt in Et; [|by eapply drop_while_head]. simpl in *.
  rewrite (IH n), (IH (length p)); [done|lia..].
Qed.

(** ** A carriage return at the end of the line *)

Lemma not_blank_cr p : not_blank (p ++ [13]) = not_blank p.
Proof. by destruct p. Qed.

Lemma drop_while_cr p :
  drop_while is_space (p ++ [13]) =
  match drop_while is_space p with [] => [] | c :: p' => (c :: p') ++ [13] end.
Proof. induction p as [|c p IH]; [done|]. simpl. by destruct (is_space c). Qed.

(** What a carriage return behind the line does to the next token. *)
Definition cr_token (r : option (bytes * bytes)) : option (bytes * bytes) → Prop :=
  λ r', match r with
        | Some (t, rest) => r' = Some (t, rest ++ [13]) ∨ rest = [] ∧ r' = Some (t, [])
        | None => r' = None
        end.

Lemma get_token_cr q p current : cr_token (get_token q p current) (get_token q (p ++ [13]) current).
Proof.
  enough (∀ n p, (length p ≤ n)%nat → ∀ q current,
            cr_token (get_token q p current) (get_token q (p ++ [13]) current)) as H by exact (H _ p (le_n _) q current).
  clear. induction n as [|n IH]; intros p Hp q current.
  { destruct p; [|simpl in Hp; lia]. destruct q; simpl; auto. }
  destruct p as [|c p1]; [destruct q; simpl; auto|].
  cbn [length] in Hp. rewrite (get_token_unfold q (c :: p1)), (get_token_unfold q ((c :: p1) ++ [13])).
  cbn [app]. rewrite !not_blank_cr.
  destruct q.
  - repeat case_match; simpl; auto; apply IH; lia.
  - destruct (c =? 92).
    + destruct p1 as [|x [|h [|l p4]]]; simpl app;
        [by repeat (rewrite get_token_unfold; simpl) | by repeat (rewrite get_token_unfold; simpl) | | ].
      * cbv iota. change (isxdigit 13) with false. rewrite andb_false_r. apply (IH [h]). simpl in *. lia.
      * cbv iota. case_match; [apply IH | apply (IH (h :: l :: p4))]; simpl in *; lia.
    + repeat case_match; simpl; auto. apply IH; lia.
  - destruct (c =? 39); [by case_match; simpl; auto|].
    destruct p1 as [|x p2]; simpl app.
    + cbv iota. change (13 =? 39) with false. rewrite andb_false_r. by repeat (rewrite get_token_unfold; simpl).
    + cbv iota. case_match; [apply IH | apply (IH (x :: p2))]; simpl in *; lia.
Qed.

Lemma split_args_cr n p vector :
  (length p ≤ n)%nat → split_args n (p ++ [13]) vector = split_args n p vector.
Proof.
  revert p vector. induction n as [|n IH]; intros p vector Hn.
  { destruct p; [done|simpl in Hn; lia]. }
  pose proof (drop_while_le is_space p) as Hle.
  cbn [split_args]. rewrite drop_while_cr.
  destruct (drop_while is_space p) as [|c p'] eqn:E; [done|]. cbn [app].
  change (c :: p' ++ [13]) with ((c :: p') ++ [13]).
  pose proof (get_token_cr Plain (c :: p') []) as Hcr.
  destruct (get_token Plain (c :: p') []) as [[t rest]|] eqn:Et; cbn [cr_token] in Hcr; [|by rewrite Hcr].
  apply get_token_lt in Et; [|by eapply drop_while_head]. simpl in Hle.
  destruct Hcr as [->|[-> ->]]; [apply IH; lia|done].
Qed.

Lemma c_str_app_nonul s t : c_str s = s → c_str (s ++ t) = s ++ c_str t.
Proof.
  unfold c_str. induction s as [|c s IH]; simpl; [done|].
  destruct (negb (c =? 0)); [|done]. intros [= H]. by rewrite IH.
Qed.

Lemma c_str_nul s t : c_str s ≠ s → c_str (s ++ t) = c_str s.
Proof.
  unfold c_str. induction s as [|c s IH]; simpl; [done|].
  destruct (negb (c =? 0)); [|done]. intros H. f_equal. apply IH. congruence.
Qed.

Lemma sdssplitargs_cr s : sdssplitargs (s ++ [13]) = sdssplitargs s.
Proof.
  unfold sdssplitargs. destruct (decide (c_str s = s)) as [E|E]; [|by rewrite c_str_nul].
  rewrite c_str_app_nonul, E by done. change (c_str [13]) with [13].
  rewrite split_args_cr by (rewrite length_app; lia). apply split_args_turns. rewrite length_app. lia.
Qed.

(** The terminating NUL that the connection adds is the end of the line. *)
Lemma sdssplitargs_nul s : sdssplitargs (s ++ [0]) = sdssplitargs s.
Proof.
  unfold sdssplitargs. destruct (decide (c_str s = s)) as [E|E]; [|by rewrite c_str_nul].
  rewrite c_str_app_nonul by done. by rewrite app_nil_r, E.
Qed.

(** ** Quoted arguments *)

Lemma hex_digit_ok d :
  0 ≤ d < 16 → isxdigit (hex_digit d) = true ∧ hex_digit_to_int (hex_digit d) = d.
Proof.
  intros Hd. assert (d ∈ seqZ 0 16) as Hin by (apply elem_of_seqZ; lia).
  revert d Hd Hin. enough (Forall (λ d, isxdigit (hex_digit d) = true ∧ hex_digit_to_int (hex_digit d) = d)
    (seqZ 0 16)) as H by (intros d _; by rewrite Forall_forall in H; apply H).
  by_decide.
Qed.

Lemma get_token_escape x p current :
  x ≠ 120 → get_token InQuotes (92 :: x :: p) current = get_token InQuotes p (current ++ [unescape x]).
Proof.
  intros Hx. rewrite get_token_unfold. cbv iota. change (92 =? 92) with true. cbv iota.
  rewrite (proj2 (Z.eqb_neq x 120)) by done. by destruct p as [|h [|l p]].
Qed.

(** One escaped character inside quotes is read back as that character. *)
Lemma get_token_repr c p current :
  0 ≤ c < 256 → get_token InQuotes (repr_char c ++ p) current = get_token InQuotes p (current ++ [c]).
Proof.
  intros Hc. unfold repr_char.
  destruct ((c =? 92) || (c =? 34)) eqn:E1.
  { cbn [app]. apply orb_true_iff in E1 as [E1%Z.eqb_eq|E1%Z.eqb_eq]; subst c; by rewrite get_token_escape. }
  destruct (Z.eqb_spec c 10); [subst; cbn [app]; by rewrite (get_token_escape 110)|].
  destruct (Z.eqb_spec c 13); [subst; cbn [app]; by rewrite (get_token_escape 114)|].
  destruct (Z.eqb_spec c 9); [subst; cbn [app]; by rewrite (get_token_escape 116)|].
  destruct (Z.eqb_spec c 7); [subst; cbn [app]; by rewrite (get_token_escape 97)|].
  destruct (Z.eqb_spec c 8); [subst; cbn [app]; by rewrite (get_token_escape 98)|].
  apply orb_false_iff in E1 as [E1 E1'].
  destruct (isprint c); cbn [app]; rewrite get_token_unfold; cbv iota.
  { by rewrite E1, E1'. }
  change (92 =? 92) with true. change (120 =? 120) with true. cbv iota.
  destruct (hex_digit_ok (c / 16)) as [-> ->]; [split; [apply Z.div_pos|apply Z.div_lt_upper_bound]; lia|].
  destruct (hex_digit_ok (c mod 16)) as [-> ->]; [apply Z.mod_pos_bound; lia|].
  cbn [andb]. do 3 f_equal. pose proof (Z.div_mod c 16). lia.
Qed.

Lemma get_token_quoted s p current :
  is_bytes s → not_blank p = false →
  get_token InQuotes ((s ≫= repr_char) ++ 34 :: p) current = Some (current ++ s, p).
Proof.
  intros Hs Hp. revert current. induction Hs as [|c s Hc Hs IH]; intros current.
  { cbn [mbind list_bind app]. rewrite get_token_unfold. cbv iota.
    change (34 =? 92) with false. change (34 =? 34) with true. cbv iota. by rewrite Hp, app_nil_r. }
  change ((c :: s) ≫= repr_char) with (repr_char c ++ (s ≫= repr_char)).
  by rewrite <-app_assoc, get_token_repr, IH, <-app_assoc.
Qed.

(** Arguments quoted with [sdscatrepr], separated by spaces. *)
Definition quote_line (args : list bytes) : bytes :=
  args ≫= λ a, sdscatrepr [32] a.

Lemma c_str_id s : Forall (λ c, c ≠ 0) s → c_str s = s.
Proof.
  unfold c_str. induction 1 as [|c s Hc _ IH]; [done|]. simpl.
  rewrite (proj2 (Z.eqb_neq c 0)) by done. simpl. by rewrite IH.
Qed.

Lemma repr_char_nonul c : 0 ≤ c < 256 → Forall (λ x, x ≠ 0) (repr_char c).
Proof.
  intros Hc. pose proof (Z.div_pos c 16 ltac:(lia) ltac:(lia)). pose proof (Z.mod_pos_bound c 16 ltac:(lia)).
  unfold repr_char, isprint, hex_digit. repeat case_match; bool_norm; repeat constructor; lia.
Qed.

Lemma quote_line_nonul args : Forall is_bytes args → Forall (λ c, c ≠ 0) (quote_line args).
Proof.
  unfold quote_line, sdscatrepr. induction 1 as [|a args Ha _ IH]; cbn [mbind list_bind]; [constructor|].
  rewrite Forall_app; split; [|exact IH]. cbn [app]. repeat constructor; [done..|].
  rewrite Forall_app; split; [|by repeat constructor].
  induction Ha as [|c a Hc _ IH']; cbn [mbind list_bind]; [constructor|].
  rewrite Forall_app; split; [by apply repr_char_nonul|done].
Qed.

Lemma split_args_quoted args n vector :
  Forall is_bytes args → (length args ≤ n)%nat → split_args n (quote_line args) vector = Some (vector ++ args).
Proof.
  intros Hargs. revert n vector. induction Hargs as [|a args Ha Hargs IH]; intros n vector Hn.
  { destruct n; cbn [split_args quote_line mbind list_bind drop_while]; by rewrite app_nil_r. }
  destruct n as [|n]; [simpl in Hn; lia|]. simpl in Hn.
  change (quote_line (a :: args)) with (sdscatrepr [32] a ++ quote_line args).
  unfold sdscatrepr. rewrite <-!app_assoc. cbn [app split_args drop_while].
  change (is_space 32) with true. change (is_space 34) with false. cbv iota.
  rewrite get_token_unfold. cbv iota.
  change ((34 =? 32) || (34 =? 10) || (34 =? 13) || (34 =? 9)) with false. change (34 =? 34) with true. cbv iota.
  rewrite get_token_quoted; [|done|by destruct args].
  rewrite IH by lia. by rewrite <-app_assoc.
Qed.

(** Splitting gives back the arguments that were quoted, of any bytes. *)
Lemma sdssplitargs_quoted args : Forall is_bytes args → sdssplitargs (quote_line args) = Some args.
Proof.
  intros Hargs. unfold sdssplitargs. rewrite c_str_id by by apply quote_line_nonul.
  rewrite split_args_quoted; [done..|].
  clear. induction args as [|a args IH]; [done|].
  change (quote_line (a :: args)) with (sdscatrepr [32] a ++ quote_line args).
  rewrite length_app. simpl in *. lia.
Qed.
