(* ===== verification/Absl.v ===== *)
(** The number parser of abseil, as the class of what the server relies on, with
    a decimal parser that satisfies it. *)
From stdpp Require Import base list strings.
From S2P Require Import Prelude.

Open Scope Z_scope.

Definition INT32_MAX : Z := 2147483647.
Definition INT32_MIN : Z := -2147483648.
Definition INT64_MAX : Z := 9223372036854775807.
Definition INT64_MIN : Z := -9223372036854775808.

(** [absl::SimpleAtoi] into an integer type with values from [lo] to [hi]. *)
Class Absl := SimpleAtoi : ∀ lo hi : Z, bytes → option Z.

Abbreviation atoi32 := (SimpleAtoi INT32_MIN INT32_MAX).
Abbreviation atoi64 := (SimpleAtoi INT64_MIN INT64_MAX).
Abbreviation atou32 := (SimpleAtoi 0 U32_MAX).
Abbreviation atou64 := (SimpleAtoi 0 U64_MAX).

(** Documented behaviour: the decimal text of a value in range gives that value;
    a result is in range; a text without a digit is no number. *)
Class AbslSpec (lib : Absl) : Prop := {
  atoi_to_string lo hi n : 0 ≤ n ≤ U64_MAX → lo ≤ n ≤ hi → SimpleAtoi lo hi (to_string n) = Some n;
  atoi_range lo hi s n : SimpleAtoi lo hi s = Some n → lo ≤ n ≤ hi;
  atoi_no_digit lo hi s : Forall (λ c, is_digit c = false) s → SimpleAtoi lo hi s = None
}.

(** ** A decimal parser *)

Definition strip (s : bytes) : bytes :=
  reverse (drop_while is_space (reverse (drop_while is_space s))).

Definition decimal_atoi : Absl := fun lo hi s =>
  let '(neg, ds) := match strip s with
                    | c :: ds => if c =? 45 then (true, ds) else if c =? 43 then (false, ds) else (false, c :: ds)
                    | [] => (false, [])
                    end in
  if bool_decide (ds = []) || negb (forallb is_digit ds) then None
  else
    let v := if neg : bool then - dec_val ds 0 else dec_val ds 0 in
    if (lo <=? v) && (v <=? hi) then Some v else None.

Lemma drop_while_not f s : Forall (λ c, f c = false) s → drop_while f s = s.
Proof. destruct 1 as [|c s Hc]; [done|]. simpl. by rewrite Hc. Qed.

Lemma strip_digits s : Forall (λ c, 48 ≤ c ≤ 57) s → strip s = s.
Proof.
  intros Hs. unfold strip.
  assert (Forall (λ c, is_space c = false) s) as Hf.
  { eapply Forall_impl; [exact Hs|]. intros c Hc. unfold is_space. simpl in Hc |- *.
    rewrite (proj2 (Z.eqb_neq c 32)) by lia. rewrite (proj2 (Z.leb_gt c 13)) by lia. apply andb_false_r. }
  rewrite !drop_while_not; [by rewrite reverse_involutive|done|].
  by rewrite drop_while_not, Forall_reverse by done.
Qed.

Lemma drop_while_suffix f s : Forall (λ c, is_digit c = false) s → Forall (λ c, is_digit c = false) (drop_while f s).
Proof. induction 1 as [|c s Hc Hs IH]; simpl; [done|]. case_match; auto. Qed.

#[export] Instance decimal_atoi_spec : AbslSpec decimal_atoi.
Proof.
  split.
  - intros lo hi n Hn Hr. unfold SimpleAtoi, decimal_atoi.
    pose proof (to_string_digits n ltac:(lia)) as Hd. rewrite strip_digits by done.
    assert (forallb is_digit (to_string n) = true) as Hall.
    { apply forallb_forall. intros c Hc%list_elem_of_In. rewrite Forall_forall in Hd. apply Hd in Hc.
      unfold is_digit. apply andb_true_iff. lia. }
    pose proof (to_string_val n Hn) as Hv.
    destruct (to_string_cons n) as (c & ds & E). rewrite E in *.
    apply Forall_cons_1 in Hd as [Hc _]. rewrite (proj2 (Z.eqb_neq c 45)), (proj2 (Z.eqb_neq c 43)) by lia.
    rewrite bool_decide_false, Hall by done. cbn [orb negb]. rewrite Hv.
    by rewrite (proj2 (Z.leb_le lo n)), (proj2 (Z.leb_le n hi)) by lia.
  - intros lo hi s n. unfold SimpleAtoi, decimal_atoi. repeat case_match; simplify_eq; intros;
      simplify_eq; bool_norm; lia.
  - intros lo hi s Hs. unfold SimpleAtoi, decimal_atoi.
    assert (Forall (λ c, is_digit c = false) (strip s)) as Hst.
    { unfold strip. apply Forall_reverse, drop_while_suffix, Forall_reverse, drop_while_suffix, Hs. }
    destruct (strip s) as [|c ds]; [done|]. inversion Hst as [|? ? Hc Hds]; subst.
    assert (∀ l, Forall (λ c, is_digit c = false) l → bool_decide (l = []) || negb (forallb is_digit l) = true) as H.
    { intros l Hl. destruct Hl as [|a l Ha]; [done|]. simpl. by rewrite Ha. }
    repeat case_match; simplify_eq; rewrite ?H in *; try done; by constructor.
Qed.
