(* ===== verification/StringSet.v ===== *)
(** * The string set (src/string_set/string_set.h, string_set.cc)

    A hash set in which a bucket holds a string or a chain of strings, and in
    which a string may also be stored in the bucket next to its own, if that is
    empty ("displaced").  A bucket is its chain, the entry of the bucket array
    first, and the displaced bit of that entry; who is a link cell and who is not
    follows from the position in the chain.  The counters of used memory and of
    buckets are left out.  [HashCode] is [absl::Hash].

    Theorem: with every hash function, through displacement, chaining and growth,
    [Add] and [FindAround] are insertion and membership of a set. *)

From S2P Require Import Prelude.

Definition kMinSizeShift : Z := 2.
Definition kMinSize : nat := 4.

Record Bucket : Type := mkBucket {
  bk_displaced : bool;
  bk_chain : list bytes
}.

Definition empty_bucket : Bucket := mkBucket false [].

#[export] Instance Bucket_eq_dec : EqDecision Bucket.
Proof. solve_decision. Defined.

Record StringSet : Type := mkStringSet {
  ss_entries : list Bucket;
  ss_size : Z;
  ss_capacity_log : Z
}.
#[export] Instance StringSet_eta : Eta StringSet := fun s =>
  mkStringSet (ss_entries s) (ss_size s) (ss_capacity_log s).

Definition StringSet_new : StringSet := mkStringSet [] 0 0.

(** [CanSetFlat], with [kAllowDisplacements]. *)
Definition CanSetFlat (offs : Z) : bool := offs <? 2.

(** The bucket at an offset of [bid]. *)
Definition at_offset (bid : nat) (offs : Z) : nat := Z.to_nat (Z.of_nat bid + offs).

Definition IsEmpty (es : list Bucket) (i : nat) : bool :=
  match es !! i with Some b => bool_decide (bk_chain b = []) | None => false end.

Definition FindEmptyAround (es : list Bucket) (bid : nat) : Z :=
  if IsEmpty es bid then 0
  else if (bid + 1 <? length es)%nat && IsEmpty es (bid + 1) then 1
  else if negb (bid =? 0)%nat && IsEmpty es (bid - 1) then -1
  else 2.

(** [SuperPtr::Compare]: the first string of the bucket. *)
Definition Compare (es : list Bucket) (i : nat) (str : bytes) : bool :=
  match es !! i with Some b => bool_decide (head (bk_chain b) = Some str) | None => false end.

Definition FindAround (es : list Bucket) (str : bytes) (bid : nat) : Z :=
  if match es !! bid with Some b => bool_decide (str ∈ bk_chain b) | None => false end then 0
  else if negb (bid =? 0)%nat && Compare es (bid - 1) str then -1
  else if (bid + 1 <? length es)%nat && Compare es (bid + 1) str then 1
  else 2.

(** [iterator::SeekNonEmpty]: the bucket that an iterator at [bucket_id] stops at,
    and whether it has an entry; [fuel] is the number of buckets that are left. *)
Fixpoint seek_loop (fuel : nat) (es : list Bucket) (bucket_id : nat) : nat * bool :=
  match fuel with
  | O => (bucket_id, false)
  | S fuel' => if negb (IsEmpty es bucket_id) then (bucket_id, true) else seek_loop fuel' es (S bucket_id)
  end.

Definition SeekNonEmpty (es : list Bucket) (bucket_id : nat) : nat * bool :=
  seek_loop (length es - bucket_id) es bucket_id.

Section string_set.
Context (HashCode : bytes → Z).

Definition BucketId (capacity_log : Z) (str : bytes) : nat :=
  Z.to_nat (u32 (Z.shiftr (HashCode str) (64 - capacity_log))).

(** [Link]; [is_link] says whether [ptr] is a link cell.  [None] when a bucket
    that should hold a string does not.  A displaced entry that is replaced is
    linked to its own bucket. *)
Fixpoint Link (fuel : nat) (capacity_log : Z) (es : list Bucket) (str : bytes) (is_link : bool) (bid : nat)
    : option (list Bucket) :=
  match fuel with
  | O => None
  | S fuel' =>
      match es !! bid with
      | Some (mkBucket displaced (root :: rest)) =>
          if negb is_link && displaced then
            Link fuel' capacity_log (<[bid := mkBucket false (str :: rest)]> es) root false (BucketId capacity_log root)
          else Some (<[bid := mkBucket displaced (root :: str :: rest)]> es)
      | _ => None
      end
  end.

(** A bound for the wave of replacements: every one of them clears a displaced
    bit. *)
Definition link_fuel (es : list Bucket) : nat := S (length es).

(** The inner loop of [Grow] on bucket [i]: the strings of its chain that stay
    ([kept]) and those still to be looked at.  [*current = next] removes a string
    from the chain as it was; were the bucket changed by the placement of the
    string, the change would be lost ([None]). *)
Fixpoint grow_chain (capacity_log : Z) (i : nat) (es : list Bucket) (kept todo : list bytes) : option (list Bucket) :=
  match todo with
  | [] => Some es
  | str :: rest =>
      let bid := BucketId capacity_log str in
      if (bid =? i)%nat then
        grow_chain capacity_log i (<[i := mkBucket false (kept ++ str :: rest)]> es) (kept ++ [str]) rest
      else
        let offs := FindEmptyAround es bid in
        es' ← if CanSetFlat offs
              then Some (<[at_offset bid offs := mkBucket (negb (offs =? 0)) [str]]> es)
              else Link (link_fuel es) capacity_log es str (negb (bool_decide (rest = []))) bid;
        if bool_decide (es' !! i = es !! i)
        then grow_chain capacity_log i (<[i := mkBucket false (kept ++ rest)]> es') kept rest
        else None
  end.

(** The outer loop, for the buckets below [k], from the last to the first. *)
Fixpoint grow_buckets (capacity_log : Z) (k : nat) (es : list Bucket) : option (list Bucket) :=
  match k with
  | O => Some es
  | S i =>
      es ← grow_chain capacity_log i es [] (from_option bk_chain [] (es !! i));
      grow_buckets capacity_log i es
  end.

Definition Grow (s : StringSet) : option StringSet :=
  let prev_sz := length (ss_entries s) in
  let log := ss_capacity_log s + 1 in
  es ← grow_buckets log prev_sz (ss_entries s ++ replicate prev_sz empty_bucket);
  Some (s <| ss_entries := es |> <| ss_capacity_log := log |>).

(** The end of [Add]: the bucket of the string is taken, and so are its
    neighbours. *)
Definition add_to_chain (s : StringSet) (str : bytes) : option StringSet :=
  let log := ss_capacity_log s in
  let bid := BucketId log str in
  match ss_entries s !! bid with
  | Some (mkBucket displaced (head :: rest)) =>
      if displaced then
        es ← Link (link_fuel (ss_entries s)) log (ss_entries s) head false (BucketId log head);
        (* [dest] is read again *)
        dest ← es !! bid;
        Some (s <| ss_entries := <[bid := mkBucket false (str :: tail (bk_chain dest))]> es |>)
      else Some (s <| ss_entries ::= <[bid := mkBucket false (str :: head :: rest)]> |>)
  | _ => None
  end.

(** The loop of [Add]; [rounds] are left. *)
Fixpoint add_loop (rounds : nat) (s : StringSet) (str : bytes) : option StringSet :=
  match rounds with
  | O => add_to_chain s str
  | S rounds' =>
      let bid := BucketId (ss_capacity_log s) str in
      let offs := FindEmptyAround (ss_entries s) bid in
      if CanSetFlat offs then
        Some (s <| ss_entries ::= <[at_offset bid offs := mkBucket (negb (offs =? 0)) [str]]> |>)
      else if ss_size s <? zlen (ss_entries s) then add_to_chain s str
      else s ← Grow s; add_loop rounds' s str
  end.

(** [Add]: whether the string is new.  [None] is an access past the end of the
    bucket array. *)
Definition Add (s : StringSet) (str : bytes) : option (StringSet * bool) :=
  if bool_decide (ss_entries s = []) then
    let es := replicate kMinSize empty_bucket in
    Some (mkStringSet (<[BucketId kMinSizeShift str := mkBucket false [str]]> es) (u32 (ss_size s + 1)) kMinSizeShift,
          true)
  else
    let bid := BucketId (ss_capacity_log s) str in
    if (length (ss_entries s) <=? bid)%nat then None
    else if FindAround (ss_entries s) str bid <? 2 then Some (s, false)
    else
      s ← add_loop 2 (s <| ss_size := u32 (ss_size s + 1) |>) str;
      Some (s, true).

Definition BucketDepth (s : StringSet) (bid : nat) : nat :=
  length (from_option bk_chain [] (ss_entries s !! bid)).

(** [absl::bit_width] and [absl::bit_ceil]. *)
Definition bit_width (x : Z) : Z := if x <=? 0 then 0 else Z.log2 x + 1.
Definition bit_ceil (x : Z) : Z := if x <=? 1 then 1 else 2 ^ bit_width (x - 1).

(** [Reserve]; [entries_.reserve] leaves the number of buckets alone. *)
Definition Reserve (s : StringSet) (sz : Z) : StringSet :=
  s <| ss_capacity_log := bit_width (bit_ceil (Z.min sz (Z.of_nat kMinSize))) |>.

(** A sequence of [Add]s, with what each returned. *)
Fixpoint AddAll (s : StringSet) (strs : list bytes) : option (StringSet * list bool) :=
  match strs with
  | [] => Some (s, [])
  | str :: rest =>
      '(s, b) ← Add s str;
      '(s, bs) ← AddAll s rest;
      Some (s, b :: bs)
  end.

End string_set.

(** ** The invariant of the bucket array *)

(** All the strings of the set. *)
Definition elems (es : list Bucket) : list bytes := concat (bk_chain <$> es).

Definition occupied (es : list Bucket) (i : nat) : Prop := ∃ b, es !! i = Some b ∧ bk_chain b ≠ [].

Definition near (h i : nat) : Prop := h = i ∨ h = S i ∨ i = S h.

Definition displaced_count (es : list Bucket) : nat := length (filter (fun b => bk_displaced b = true) es).

Definition used (es : list Bucket) : nat := length (filter (fun b => bk_chain b ≠ []) es).

Section invariant.
Context (home : bytes → nat).

(** The entry of a bucket belongs there or next to it, as its bit says; the rest
    of the chain belongs there. *)
Definition bucket_ok (i : nat) (b : Bucket) : Prop :=
  match bk_chain b with
  | [] => bk_displaced b = false
  | r :: rest =>
      near (home r) i ∧ bk_displaced b = bool_decide (home r ≠ i) ∧ Forall (fun y => home y = i) rest
  end.

(** The entry of bucket [i] is displaced from bucket [j]. *)
Definition points (es : list Bucket) (i j : nat) : Prop :=
  ∃ b r rest, es !! i = Some b ∧ bk_chain b = r :: rest ∧ home r = j ∧ i ≠ j.

(** The buckets of a region [P] are in order: a displaced entry's own bucket is in
    the region and taken, and no two buckets hold each other's string. *)
Record region_ok (P : nat → Prop) (es : list Bucket) : Prop := {
  rg_bucket i b : P i → es !! i = Some b → bucket_ok i b;
  rg_home i j : P i → points es i j → P j ∧ occupied es j;
  rg_mutual i j : P i → points es i j → points es j i → False
}.

Lemma elems_insert es i b b' : es !! i = Some b →
  bk_chain b ++ elems (<[i := b']> es) ≡ₚ bk_chain b' ++ elems es.
Proof.
  intros Hi. unfold elems.
  assert (Hlt : (i < length es)%nat) by eauto using lookup_lt_Some.
  rewrite (insert_take_drop es i b' Hlt).
  rewrite <- (take_drop_middle es i b Hi) at 3.
  rewrite !fmap_app, !fmap_cons, !concat_app. cbn [concat].
  rewrite (Permutation_app_swap_app (concat (bk_chain <$> take i es)) (bk_chain b')).
  rewrite (Permutation_app_swap_app (concat (bk_chain <$> take i es)) (bk_chain b)).
  by rewrite Permutation_app_swap_app.
Qed.

Lemma chain_elems es i d r rest x d' c' :
  es !! i = Some (mkBucket d (r :: rest)) → c' = r :: x :: rest ∨ c' = x :: r :: rest →
  elems (<[i := mkBucket d' c']> es) ≡ₚ x :: elems es.
Proof.
  intros Hi Hc. pose proof (elems_insert es i _ (mkBucket d' c') Hi) as Hel. cbn [bk_chain] in Hel.
  apply (Permutation_app_inv_l (r :: rest)). rewrite Hel.
  destruct Hc as [-> | ->]; cbn [app].
  - rewrite (Permutation_middle rest). done.
  - rewrite (Permutation_swap r x), (Permutation_middle rest). done.
Qed.

Lemma elem_of_elems es x : x ∈ elems es ↔ ∃ i b, es !! i = Some b ∧ x ∈ bk_chain b.
Proof.
  unfold elems. rewrite list_elem_of_In, in_concat. split.
  - intros (c & Hc%list_elem_of_In & Hx%list_elem_of_In).
    apply list_elem_of_fmap in Hc as (b & -> & [i Hi]%list_elem_of_lookup). eauto.
  - intros (i & b & Hi & Hx). exists (bk_chain b). rewrite <- !list_elem_of_In. split; [|done].
    apply list_elem_of_fmap. eauto using list_elem_of_lookup_2.
Qed.

Lemma displaced_count_le es : (displaced_count es ≤ length es)%nat.
Proof. apply length_filter. Qed.

Lemma displaced_count_insert es i b b' : es !! i = Some b → bk_displaced b = true → bk_displaced b' = false →
  S (displaced_count (<[i := b']> es)) = displaced_count es.
Proof.
  intros Hi Hb Hb'. unfold displaced_count.
  assert (Hlt : (i < length es)%nat) by eauto using lookup_lt_Some.
  rewrite (insert_take_drop es i b' Hlt).
  rewrite <- (take_drop_middle es i b Hi) at 3.
  rewrite !filter_app, !filter_cons, !length_app, decide_False by congruence.
  rewrite decide_True by done. cbn [length]. lia.
Qed.

Lemma used_le es : (used es ≤ length es)%nat.
Proof. apply length_filter. Qed.

Lemma used_occupied es i : occupied es i → (1 ≤ used es)%nat.
Proof.
  intros (b & Hb & Hne). unfold used. rewrite <- (take_drop_middle es i b Hb).
  rewrite filter_app, filter_cons, decide_True, length_app by done. cbn [length]. lia.
Qed.

Lemma used_insert es i b b' : es !! i = Some b → bk_chain b = [] → bk_chain b' ≠ [] →
  used (<[i := b']> es) = S (used es).
Proof.
  intros Hi Hb Hb'. unfold used.
  assert (Hlt : (i < length es)%nat) by eauto using lookup_lt_Some.
  rewrite (insert_take_drop es i b' Hlt).
  rewrite <- (take_drop_middle es i b Hi) at 3.
  rewrite !filter_app, !filter_cons, !length_app, decide_True by done.
  rewrite decide_False by (intros Hn; by apply Hn). cbn [length]. lia.
Qed.

Lemma occupied_lt es i : occupied es i → (i < length es)%nat.
Proof. intros (b & Hb & _). eauto using lookup_lt_Some. Qed.

Lemma occupied_insert es i b' j : bk_chain b' ≠ [] → occupied es j → occupied (<[i := b']> es) j.
Proof.
  intros Hb' Hj. pose proof (occupied_lt _ _ Hj) as Hlt. destruct Hj as (b & Hb & Hne).
  destruct (decide (i = j)) as [->|Hij].
  - exists b'. by rewrite list_lookup_insert_eq.
  - exists b. by rewrite list_lookup_insert_ne.
Qed.

Lemma points_insert_ne es i b' k j : k ≠ i → points (<[i := b']> es) k j ↔ points es k j.
Proof. intros Hk. unfold points. by rewrite list_lookup_insert_ne by done. Qed.

Lemma points_insert_eq es i b' j : (i < length es)%nat → points (<[i := b']> es) i j →
  ∃ r rest, bk_chain b' = r :: rest ∧ home r = j ∧ i ≠ j.
Proof.
  intros Hi (b & r & rest & Hb & Hc & Hj & Hne). rewrite list_lookup_insert_eq in Hb by done.
  simplify_eq. eauto.
Qed.

(** A bucket of the region gets new contents. *)
Lemma region_insert P es i b' :
  region_ok P es → (i < length es)%nat → bk_chain b' ≠ [] → (P i → bucket_ok i b') →
  (∀ r rest, P i → bk_chain b' = r :: rest → home r ≠ i →
     P (home r) ∧ occupied es (home r) ∧ ¬ points es (home r) i) →
  region_ok P (<[i := b']> es).
Proof.
  intros H Hi Hne Hok Hhead. split.
  - intros k b Hk. destruct (decide (k = i)) as [->|Hki].
    + rewrite list_lookup_insert_eq by done. intros [= <-]. auto.
    + rewrite list_lookup_insert_ne by done. apply (rg_bucket _ _ H); done.
  - intros k j Hk Hp. destruct (decide (k = i)) as [->|Hki].
    + destruct (points_insert_eq _ _ _ _ Hi Hp) as (r & rest & Hc & <- & Hij).
      destruct (Hhead r rest) as (?&?&_); auto using occupied_insert.
    + apply points_insert_ne in Hp; [|done].
      destruct (rg_home _ _ H k j Hk Hp). auto using occupied_insert.
  - intros k j Hk Hkj Hjk. destruct (decide (k = i)) as [->|Hki].
    + destruct (points_insert_eq _ _ _ _ Hi Hkj) as (r & rest & Hc & <- & Hij).
      destruct (Hhead r rest) as (_&_&Hn); auto. apply Hn. by apply points_insert_ne in Hjk.
    + apply points_insert_ne in Hkj; [|done]. destruct (decide (j = i)) as [->|Hji].
      * destruct (points_insert_eq _ _ _ _ Hi Hjk) as (r & rest & Hc & <- & Hij).
        destruct (rg_home _ _ H _ _ Hk Hkj) as [HP _].
        destruct (Hhead r rest) as (_&_&Hn); auto.
      * apply points_insert_ne in Hjk; [|done]. by apply (rg_mutual _ _ H k j).
Qed.

(** A bucket outside of the region may change at will. *)
Lemma region_outside P es i b' : region_ok P es → ¬ P i → region_ok P (<[i := b']> es).
Proof.
  intros H Hi. assert (Hne : ∀ k, P k → k ≠ i) by (intros k Hk ->; done).
  assert (Hp : ∀ k j, P k → points (<[i := b']> es) k j → points es k j).
  { intros k j Hk. apply points_insert_ne. auto. }
  split.
  - intros k b Hk. rewrite list_lookup_insert_ne by (apply not_eq_sym; auto). by apply (rg_bucket _ _ H).
  - intros k j Hk Hkj. destruct (rg_home _ _ H k j Hk) as [HP (b & Hb & Hc)]; [auto|].
    split; [done|]. exists b. by rewrite list_lookup_insert_ne by (apply not_eq_sym; auto).
  - intros k j Hk Hkj Hjk. destruct (rg_home _ _ H k j Hk) as [HP _]; [auto|].
    apply (rg_mutual _ _ H k j); auto.
Qed.

End invariant.

(** ** Link *)

Section link.
Context (HashCode : bytes → Z) (log : Z).
Let home := BucketId HashCode log.

(** What placing a string in the region [P] keeps and adds. *)
Record placed (P : nat → Prop) (x : bytes) (es es' : list Bucket) : Prop := {
  pl_region : region_ok home P es';
  pl_outside j : ¬ P j → es' !! j = es !! j;
  pl_length : length es' = length es;
  pl_elems : elems es' ≡ₚ x :: elems es;
  pl_occupied j : occupied es j → occupied es' j
}.

Lemma insert_placed P es i d r rest x d' c' :
  region_ok home P (<[i := mkBucket d' c']> es) → P i → es !! i = Some (mkBucket d (r :: rest)) →
  c' = r :: x :: rest ∨ c' = x :: r :: rest →
  placed P x es (<[i := mkBucket d' c']> es).
Proof.
  intros Hreg HP Hi Hc. split; [done|..].
  - intros j Hj. rewrite list_lookup_insert_ne; [done|by intros <-].
  - apply length_insert.
  - by eapply chain_elems.
  - intros j Hj. apply occupied_insert; [|done]. by destruct Hc as [-> | ->].
Qed.

(** A string linked to its own bucket is added, and the wave of replacements
    stays inside of the region and ends. *)
Lemma Link_ok fuel P es x is_link :
  region_ok home P es → P (home x) → occupied es (home x) → (displaced_count es < fuel)%nat →
  ∃ es', Link HashCode fuel log es x is_link (home x) = Some es' ∧ placed P x es es'.
Proof.
  revert es x is_link. induction fuel as [|fuel IH]; [lia|]. intros es x is_link H HP Hocc Hfuel.
  pose proof (occupied_lt _ _ Hocc) as Hlt.
  destruct Hocc as ([d c] & Hb & Hne). cbn [Link]. fold (home x). rewrite Hb.
  destruct c as [|r rest]; [done|].
  destruct (rg_bucket _ _ _ H _ _ HP Hb) as (Hnear & Hd & Htail). cbn [bk_displaced bk_chain] in *.
  destruct (negb is_link && d) eqn:Hcase.
  - apply andb_prop in Hcase as [_ ->]. symmetry in Hd. apply bool_decide_eq_true in Hd.
    assert (Hp : points home es (home x) (home r)) by (do 3 eexists; eauto).
    destruct (rg_home _ _ _ H _ _ HP Hp) as [HPr Hoccr].
    set (es1 := <[home x := mkBucket false (x :: rest)]> es).
    assert (Hc : displaced_count es = S (displaced_count es1)).
    { symmetry. by eapply displaced_count_insert. }
    destruct (IH es1 r false) as (es' & HL & Hpl); [|done|by apply occupied_insert|lia|].
    { apply region_insert; [done|done|done| |].
      - intros _. split; [by left|]. cbn. by rewrite bool_decide_eq_false_2 by auto.
      - intros r' rest' _ [= <- <-]. done. }
    exists es'. split; [exact HL|]. destruct Hpl as [Hreg Hout Hlen Hel Ho]. split; [done|..].
    + intros j Hj. rewrite Hout by done. apply list_lookup_insert_ne. by intros <-.
    + rewrite Hlen. apply length_insert.
    + rewrite Hel. apply (Permutation_app_inv_l rest). cbn.
      rewrite <- !Permutation_middle.
      exact (elems_insert es _ _ (mkBucket false (x :: rest)) Hb).
    + intros j Hj. apply Ho. by apply occupied_insert.
  - eexists. split; [done|]. eapply insert_placed; [|done|done|by left].
    apply region_insert; [done|done|done| |].
    + intros _. split; [done|]. cbn. split; [done|]. by constructor.
    + intros r' rest' _ [= <- <-] Hr.
      assert (Hp : points home es (home x) (home r)) by (do 3 eexists; eauto).
      destruct (rg_home _ _ _ H _ _ HP Hp). split_and!; [done|done|].
      intros Hp'. by apply (rg_mutual _ _ _ H _ _ HP Hp).
Qed.

Lemma IsEmpty_occupied es i : (i < length es)%nat → IsEmpty es i = false ↔ occupied es i.
Proof.
  intros [b Hb]%lookup_lt_is_Some. unfold IsEmpty, occupied. rewrite Hb, bool_decide_eq_false.
  split; [eauto|]. by intros (b' & [= <-] & Hne).
Qed.

(** The empty bucket that is found next to a bucket. *)
Lemma FindEmptyAround_spec es bid : (bid < length es)%nat →
  (∃ offs i b, FindEmptyAround es bid = offs ∧ offs < 2 ∧ at_offset bid offs = i ∧ near bid i ∧
     es !! i = Some b ∧ bk_chain b = [] ∧ negb (offs =? 0) = bool_decide (bid ≠ i) ∧ (bid ≠ i → occupied es bid)) ∨
  (FindEmptyAround es bid = 2 ∧ occupied es bid).
Proof.
  intros Hlt. unfold FindEmptyAround.
  assert (Hsome : ∀ i, IsEmpty es i = true → ∃ b, es !! i = Some b ∧ bk_chain b = []).
  { intros i. unfold IsEmpty. destruct (es !! i) as [b|]; [|done]. rewrite bool_decide_eq_true. eauto. }
  destruct (IsEmpty es bid) eqn:H0.
  { left. destruct (Hsome _ H0) as (b & ? & ?). exists 0, bid, b. unfold at_offset, near.
    rewrite bool_decide_eq_false_2 by auto. split_and!; try done; lia. }
  assert (Hocc : occupied es bid) by by apply IsEmpty_occupied.
  destruct ((bid + 1 <? length es)%nat && IsEmpty es (bid + 1)) eqn:H1.
  { left. apply andb_prop in H1 as [_ H1]. destruct (Hsome _ H1) as (b & ? & ?).
    exists 1, (bid + 1)%nat, b. unfold at_offset, near.
    rewrite bool_decide_eq_true_2 by lia. split_and!; try done; lia. }
  destruct (negb (bid =? 0)%nat && IsEmpty es (bid - 1)) eqn:H2; [|by right].
  left. apply andb_prop in H2 as [Hz%negb_true_iff%Nat.eqb_neq H2]. destruct (Hsome _ H2) as (b & ? & ?).
  exists (-1), (bid - 1)%nat, b. unfold at_offset, near.
  rewrite bool_decide_eq_true_2 by lia. split_and!; try done; lia.
Qed.

(** A string put into an empty bucket next to its own. *)
Lemma flat_placed P es i b x :
  region_ok home P es → P i → P (home x) → es !! i = Some b → bk_chain b = [] → near (home x) i →
  (home x ≠ i → occupied es (home x)) →
  placed P x es (<[i := mkBucket (bool_decide (home x ≠ i)) [x]]> es).
Proof.
  intros H HP HPx Hi Hb Hnear Hocc. split.
  - apply region_insert; [done|by eapply lookup_lt_Some|done| |].
    + intros _. split; [done|]. split; [done|constructor].
    + intros r rest _ [= <- <-] Hx. split_and!; [done|by apply Hocc|].
      intros Hp. destruct (rg_home _ _ _ H _ _ HPx Hp) as [_ (b' & Hb' & Hne)].
      simplify_eq.
  - intros j Hj. rewrite list_lookup_insert_ne; [done|by intros <-].
  - apply length_insert.
  - pose proof (elems_insert es i _ (mkBucket (bool_decide (home x ≠ i)) [x]) Hi) as Hel.
    by rewrite Hb in Hel.
  - intros j Hj. by apply occupied_insert.
Qed.

End link.

(** ** Grow *)

Section grow.
Context (HashCode : bytes → Z) (log : Z).
Let old := BucketId HashCode log.
Let new := BucketId HashCode (log + 1).
Context (Hhalf : ∀ x, old x = (new x / 2)%nat).

(** In the middle of a growth: the buckets below [k] are as they were in the old
    table, those from [m] on are in order for the new one. *)
Record growing (k m : nat) (es : list Bucket) : Prop := {
  gr_new : region_ok new (fun j => m ≤ j)%nat es;
  gr_bound x : (new x < length es)%nat;
  gr_old j b : (j < k)%nat → es !! j = Some b → bucket_ok old j b;
  gr_home j h : (h < j < k)%nat → points old es j h → occupied es h;
  gr_mutual j h : (h < j < k)%nat → points old es j h → points old es h j → False
}.

Lemma occupied_lookup es es' j : es' !! j = es !! j → occupied es j → occupied es' j.
Proof. unfold occupied. by intros ->. Qed.

Lemma points_lookup f es es' j h : es' !! j = es !! j → points f es' j h → points f es j h.
Proof. unfold points. by intros ->. Qed.

Lemma growing_outside k m es es' :
  growing k m es → region_ok new (fun j => m ≤ j)%nat es' → length es' = length es →
  (∀ j, (j < k)%nat → es' !! j = es !! j) → growing k m es'.
Proof.
  intros H Hreg Hlen Hout. split; [done|..].
  - intros x. rewrite Hlen. apply (gr_bound _ _ _ H).
  - intros j b Hj. rewrite Hout by done. by apply (gr_old _ _ _ H).
  - intros j h Hj Hp. apply (occupied_lookup es); [apply Hout; lia|].
    apply (gr_home _ _ _ H j h Hj). apply (points_lookup _ es es'); [apply Hout; lia|done].
  - intros j h Hj Hp Hp'. apply (gr_mutual _ _ _ H j h Hj).
    + apply (points_lookup _ es es'); [apply Hout; lia|done].
    + apply (points_lookup _ es es'); [apply Hout; lia|done].
Qed.

Lemma growing_set i es b' : growing i (S i) es → growing i (S i) (<[i := b']> es).
Proof.
  intros H. apply (growing_outside _ _ es); [done| |apply length_insert|].
  - apply region_outside; [apply (gr_new _ _ _ H)|lia].
  - intros j Hj. apply list_lookup_insert_ne. lia.
Qed.

(** A string of bucket [i] that has not been looked at: if it belongs to the bucket
    below, that one is taken, and not by a string of bucket [i]. *)
Definition waits (i : nat) (es : list Bucket) (y : bytes) : Prop :=
  near (old y) i ∧ ((old y < i)%nat → occupied es (old y) ∧ ¬ points old es (old y) i).

Lemma waits_change i es es' y :
  (∀ h, (h < i)%nat → occupied es h → occupied es' h) →
  (∀ h, (h < i)%nat → points old es' h i → points old es h i) →
  waits i es y → waits i es' y.
Proof.
  intros Ho Hp [Hn Hw]. split; [done|]. intros Hlt. destruct (Hw Hlt) as [Hocc Hnp].
  split; [by apply Ho|]. intros Hq. by apply Hnp, Hp.
Qed.

(** What the placement of a string of bucket [i] keeps. *)
Record moved (i : nat) (x : bytes) (es es' : list Bucket) : Prop := {
  mv_growing : growing i (S i) es';
  mv_self : es' !! i = es !! i;
  mv_length : length es' = length es;
  mv_elems : elems es' ≡ₚ x :: elems es;
  mv_waits y : waits i es y → waits i es' y
}.

Lemma placed_moved i x es es' :
  growing i (S i) es → placed HashCode (log + 1) (fun j => S i ≤ j)%nat x es es' → moved i x es es'.
Proof.
  intros H [Hreg Hout Hlen Hel Hocc].
  assert (Hlow : ∀ j, (j < S i)%nat → es' !! j = es !! j) by (intros j Hj; apply Hout; lia).
  split; [|apply Hlow; lia|done|done|].
  - apply (growing_outside _ _ es); [done|done|done|]. intros j Hj. apply Hlow. lia.
  - intros y. apply waits_change.
    + intros h _. apply Hocc.
    + intros h Hh. apply points_lookup, Hlow. lia.
Qed.

(** The placement of a string that leaves bucket [i]. *)
Definition place (i : nat) (es : list Bucket) (x : bytes) (is_link : bool) : option (list Bucket) :=
  let offs := FindEmptyAround es (new x) in
  if CanSetFlat offs
  then Some (<[at_offset (new x) offs := mkBucket (negb (offs =? 0)) [x]]> es)
  else Link HashCode (link_fuel es) (log + 1) es x is_link (new x).

(** Upwards: into an empty bucket above [i], or into the chain of its own. *)
Lemma place_up i es x is_link :
  growing i (S i) es → occupied es i → (i < new x)%nat →
  ∃ es', place i es x is_link = Some es' ∧ moved i x es es'.
Proof.
  intros H Hi Hx. unfold place.
  destruct (FindEmptyAround_spec es (new x)) as [(offs & e & b & -> & Ho & He & Hnear & Hb & Hc & Hd & Hocc)|[-> Hocc]].
  { apply (gr_bound _ _ _ H). }
  - assert (Hei : e ≠ i). { intros ->. destruct Hi as (b' & Hb' & Hne). simplify_eq. }
    unfold CanSetFlat. rewrite (proj2 (Z.ltb_lt _ _) Ho), He, Hd.
    eexists. split; [done|]. apply placed_moved; [done|].
    assert (Hie : (S i ≤ e)%nat) by (unfold near in Hnear; lia).
    eapply flat_placed; [apply (gr_new _ _ _ H)|exact Hie|exact Hx|done..].
  - change (CanSetFlat 2) with false. cbv iota.
    destruct (Link_ok HashCode (log + 1) (link_fuel es) (fun j => S i ≤ j)%nat es x is_link) as (es' & HL & Hpl);
      [apply (gr_new _ _ _ H)|done|done| |].
    + pose proof (displaced_count_le es). unfold link_fuel. lia.
    + exists es'. split; [exact HL|]. by apply placed_moved.
Qed.

(** Downwards: only from bucket 1 to bucket 0, whose chain it joins. *)
Lemma place_down es x is_link :
  growing 1 2 es → occupied es 1 → waits 1 es x → new x = 0%nat →
  ∃ es', place 1 es x is_link = Some es' ∧ moved 1 x es es'.
Proof.
  intros H H1 [_ Hw] Hx. pose proof (Hhalf x) as Hold. rewrite Hx in Hold. cbn in Hold.
  rewrite Hold in Hw. destruct Hw as [H0 Hnp]; [lia|].
  unfold place. rewrite Hx.
  destruct (FindEmptyAround_spec es 0) as [(offs & e & b & _ & _ & _ & Hnear & Hb & Hc & _)|[-> _]].
  { by apply occupied_lt. }
  { exfalso. destruct H0 as (b0 & Hb0 & Hn0), H1 as (b1 & Hb1 & Hn1).
    unfold near in Hnear. assert (e = 0 ∨ e = 1)%nat as [-> | ->] by lia; simplify_eq. }
  change (CanSetFlat 2) with false. cbv iota. unfold link_fuel. cbn [Link].
  destruct H0 as ([d c] & Hb0 & Hne). rewrite Hb0. destruct c as [|r rest]; [done|].
  destruct (gr_old _ _ _ H 0 _ ltac:(lia) Hb0) as (Hnear & Hd & Htail). cbn [bk_displaced] in Hd.
  assert (Hr : old r = 0%nat).
  { unfold near in Hnear. destruct (decide (old r = 1%nat)) as [Hr|]; [|lia].
    destruct Hnp. do 3 eexists. split_and!; [done|done|done|lia]. }
  rewrite bool_decide_eq_false_2 in Hd by auto. subst d. rewrite andb_false_r.
  pose proof (lookup_lt_Some _ _ _ Hb0) as Hlt.
  assert (Hhead : ∀ h, points old (<[0%nat := mkBucket false (r :: x :: rest)]> es) 0 h → False).
  { intros h Hp. destruct (points_insert_eq _ _ _ _ _ Hlt Hp) as (r' & rest' & [= <- <-] & ? & ?). lia. }
  eexists. split; [done|]. split.
  - split.
    + apply region_outside; [apply (gr_new _ _ _ H)|lia].
    + intros y. rewrite length_insert. apply (gr_bound _ _ _ H).
    + intros j b Hj. replace j with 0%nat by lia. rewrite list_lookup_insert_eq by done. intros [= <-].
      split; [done|]. cbn. rewrite bool_decide_eq_false_2 by auto. split; [done|]. by constructor.
    + intros j h Hj. lia.
    + intros j h Hj. lia.
  - by rewrite list_lookup_insert_ne by lia.
  - apply length_insert.
  - eapply chain_elems; [done|by left].
  - intros y. apply waits_change.
    + intros h _. by apply occupied_insert.
    + intros h Hh Hp. replace h with 0%nat in Hp by lia. by apply Hhead in Hp.
Qed.

Lemma place_ok i es x is_link :
  growing i (S i) es → occupied es i → waits i es x → new x ≠ i →
  ∃ es', place i es x is_link = Some es' ∧ moved i x es es'.
Proof.
  intros H Hi Hw Hx. destruct (decide (i < new x)%nat) as [Hup|Hdown].
  { by apply place_up. }
  pose proof (proj1 Hw) as Hn. unfold near in Hn. rewrite Hhalf in Hn.
  pose proof (Nat.div_mod_eq (new x) 2). pose proof (Nat.mod_upper_bound (new x) 2 ltac:(lia)).
  assert (i = 1%nat) as -> by lia. apply place_down; [done|done|done|lia].
Qed.

Lemma region_extend i es b :
  region_ok new (fun j => S i ≤ j)%nat es → es !! i = Some b → bk_displaced b = false →
  Forall (fun y => new y = i) (bk_chain b) → region_ok new (fun j => i ≤ j)%nat es.
Proof.
  intros H Hi Hd Hall.
  assert (Hself : ∀ h, points new es i h → False).
  { intros h (b' & r & rest & Hb' & Hc & Hr & Hne). simplify_eq. rewrite Hc in Hall. by inversion Hall. }
  assert (Hup : ∀ j h, (i ≤ j)%nat → points new es j h → (S i ≤ j)%nat).
  { intros j h Hj Hp. destruct (decide (j = i)) as [->|]; [by apply Hself in Hp|lia]. }
  split.
  - intros j b' Hj Hb'. destruct (decide (j = i)) as [->|]; [|apply (rg_bucket _ _ _ H); [lia|done]].
    simplify_eq. unfold bucket_ok. destruct (bk_chain b) as [|r rest] eqn:Hc; [done|].
    inversion_clear Hall as [|? ? Hr Hrest]. split; [by left|].
    by rewrite bool_decide_eq_false_2 by auto.
  - intros j h Hj Hp. destruct (rg_home _ _ _ H j h (Hup _ _ Hj Hp) Hp). split; [lia|done].
  - intros j h Hj Hp. apply (rg_mutual _ _ _ H j h (Hup _ _ Hj Hp) Hp).
Qed.

(** The state of the inner loop. *)
Record scanning (i : nat) (kept todo : list bytes) (es : list Bucket) : Prop := {
  sc_growing : growing i (S i) es;
  sc_bucket : ∃ b, es !! i = Some b ∧ bk_chain b = kept ++ todo ∧ (todo = [] → bk_displaced b = false);
  sc_kept : Forall (fun y => new y = i) kept;
  sc_todo : Forall (waits i es) todo
}.

Lemma scanning_set i kept todo es c :
  growing i (S i) es → (i < length es)%nat → Forall (fun y => new y = i) kept → Forall (waits i es) todo →
  c = kept ++ todo → scanning i kept todo (<[i := mkBucket false c]> es).
Proof.
  intros H Hi Hkept Htodo ->. split; [by apply growing_set| |done|].
  - eexists. by rewrite list_lookup_insert_eq by done.
  - apply (Forall_impl _ _ _ Htodo). intros y. apply waits_change.
    + intros h Hh (b & Hb & Hc). exists b. by rewrite list_lookup_insert_ne by lia.
    + intros h Hh Hp. by apply points_insert_ne in Hp; [|lia].
Qed.

Lemma grow_chain_ok i todo : ∀ kept es, scanning i kept todo es →
  ∃ es', grow_chain HashCode (log + 1) i es kept todo = Some es' ∧
    growing i i es' ∧ length es' = length es ∧ elems es' ≡ₚ elems es.
Proof.
  induction todo as [|x rest IH]; intros kept es [H (b & Hb & Hc & Hd) Hkept Htodo].
  { exists es. split_and!; [done| |done|done]. destruct H as [Hn Hbd Ho Hh Hm]. split; [|done..].
    rewrite app_nil_r in Hc. eapply region_extend; [done|done|by apply Hd|by rewrite Hc]. }
  pose proof (lookup_lt_Some _ _ _ Hb) as Hlt. inversion_clear Htodo as [|? ? Hw Hrest].
  cbn [grow_chain]. fold (new x). destruct (Nat.eqb_spec (new x) i) as [Hx|Hx].
  - destruct (IH (kept ++ [x]) (<[i := mkBucket false (kept ++ x :: rest)]> es)) as (es' & -> & Hg & Hlen & Hel).
    { apply scanning_set; [done|done| |done|by rewrite <- app_assoc].
      apply Forall_app. split; [done|by constructor]. }
    exists es'. split_and!; [done|done|by rewrite Hlen, length_insert|].
    rewrite Hel. apply (Permutation_app_inv_l (kept ++ x :: rest)).
    pose proof (elems_insert es i b (mkBucket false (kept ++ x :: rest)) Hb) as Hp. by rewrite Hc in Hp.
  - destruct (place_ok i es x (negb (bool_decide (rest = [])))) as (es1 & Hpl & [Hg Hself Hl He Hwt]); [done| |done|done|].
    { exists b. rewrite Hc. split; [done|]. by destruct kept. }
    unfold place in Hpl. rewrite Hpl. cbn [mbind option_bind]. rewrite bool_decide_eq_true_2 by done.
    destruct (IH kept (<[i := mkBucket false (kept ++ rest)]> es1)) as (es' & -> & Hg' & Hlen & Hel).
    { apply scanning_set; [done|by rewrite Hl|done| |done]. by apply (Forall_impl _ _ _ Hrest). }
    exists es'. split_and!; [done|done|by rewrite Hlen, length_insert, Hl|].
    rewrite Hel. rewrite <- Hself in Hb.
    pose proof (elems_insert es1 i b (mkBucket false (kept ++ rest)) Hb) as Hp. cbn [bk_chain] in Hp.
    rewrite Hc, He in Hp. apply (Permutation_app_inv_l (kept ++ x :: rest)). rewrite Hp.
    rewrite <- !Permutation_middle. done.
Qed.

Lemma growing_scanning i es : growing (S i) (S i) es → (i < length es)%nat →
  scanning i [] (from_option bk_chain [] (es !! i)) es.
Proof.
  intros H [b Hb]%lookup_lt_is_Some. rewrite Hb. cbn [from_option].
  pose proof (gr_old _ _ _ H i b ltac:(lia) Hb) as Hok. split; [| |done|].
  - destruct H as [Hn Hbd Ho Hh Hm]. split; [done|done|..]; intros j h Hj;
      [apply Ho|apply Hh|apply Hm]; lia.
  - exists b. split_and!; [done|done|]. intros Hc. unfold bucket_ok in Hok. by rewrite Hc in Hok.
  - unfold bucket_ok in Hok. destruct (bk_chain b) as [|r rest] eqn:Hc; [constructor|].
    destruct Hok as (Hnear & _ & Htail). constructor.
    + split; [done|]. intros Hlt.
      assert (Hp : points old es i (old r)) by (do 3 eexists; split_and!; [done|done|done|lia]).
      split; [apply (gr_home _ _ _ H i); [lia|done]|].
      intros Hp'. apply (gr_mutual _ _ _ H i (old r)); [lia|done|done].
    + apply (Forall_impl _ _ _ Htail). intros y Hy. unfold waits, near. rewrite Hy. split; [by left|lia].
Qed.

Lemma grow_buckets_ok k : ∀ es, growing k k es → (k ≤ length es)%nat →
  ∃ es', grow_buckets HashCode (log + 1) k es = Some es' ∧
    growing 0 0 es' ∧ length es' = length es ∧ elems es' ≡ₚ elems es.
Proof.
  induction k as [|i IH]; intros es H Hk; [eauto|]. cbn [grow_buckets].
  destruct (grow_chain_ok i _ [] es (growing_scanning i es H ltac:(lia))) as (es1 & -> & Hg & Hlen & Hel).
  cbn [mbind option_bind]. destruct (IH es1 Hg ltac:(lia)) as (es' & -> & Hg' & Hlen' & Hel').
  exists es'. split_and!; [done|done|lia|by rewrite Hel'].
Qed.

(** The doubled table, before any string has moved. *)
Lemma growing_start es : region_ok old (fun _ => True) es → (∀ x, (new x < 2 * length es)%nat) →
  growing (length es) (length es) (es ++ replicate (length es) empty_bucket).
Proof.
  intros H Hbd. set (n := length es).
  assert (Hlow : ∀ j, (j < n)%nat → (es ++ replicate n empty_bucket) !! j = es !! j)
    by (intros j Hj; by apply lookup_app_l).
  assert (Hhigh : ∀ j b, (n ≤ j)%nat → (es ++ replicate n empty_bucket) !! j = Some b → b = empty_bucket).
  { intros j b Hj. rewrite lookup_app_r by done. intros [-> _]%lookup_replicate. done. }
  assert (Hnone : ∀ j h, (n ≤ j)%nat → points new (es ++ replicate n empty_bucket) j h → False).
  { intros j h Hj (b & r & rest & ->%Hhigh & Hc & _); done. }
  assert (Hpt : ∀ j h, (j < n)%nat → points old (es ++ replicate n empty_bucket) j h → points old es j h).
  { intros j h Hj. by apply points_lookup, Hlow. }
  split.
  - split; [|naive_solver..]. by intros j b Hj ->%Hhigh.
  - intros x. rewrite length_app, length_replicate. specialize (Hbd x). unfold n. lia.
  - intros j b Hj. rewrite Hlow by done. by apply (rg_bucket _ _ _ H).
  - intros j h Hj Hp%Hpt; [|lia]. destruct (rg_home _ _ _ H j h I Hp) as [_ Ho].
    by apply (occupied_lookup es); [apply Hlow; lia|].
  - intros j h Hj Hp%Hpt Hp'%Hpt; [|lia..]. by apply (rg_mutual _ _ _ H j h).
Qed.

End grow.

(** ** Add *)

Section add.
Context (HashCode : bytes → Z).
Context (HashCode_u64 : ∀ x, 0 ≤ HashCode x ≤ U64_MAX).

(** The region of all buckets. *)
Definition all (_ : nat) : Prop := True.

Lemma BucketId_small log x : 0 ≤ log ≤ 32 →
  BucketId HashCode log x = Z.to_nat (Z.shiftr (HashCode x) (64 - log)) ∧
  0 ≤ Z.shiftr (HashCode x) (64 - log) < 2 ^ log.
Proof.
  intros Hlog. pose proof (HashCode_u64 x) as Hx. unfold U64_MAX in Hx.
  assert (Hr : 0 ≤ Z.shiftr (HashCode x) (64 - log) < 2 ^ log).
  { rewrite Z.shiftr_div_pow2 by lia. split; [apply Z.div_pos; lia|].
    apply Z.div_lt_upper_bound; [lia|]. rewrite <- Z.pow_add_r by lia.
    replace (64 - log + log) with 64 by lia. change (2 ^ 64) with 18446744073709551616. lia. }
  split; [|done]. unfold BucketId. rewrite u32_small; [done|].
  assert (2 ^ log ≤ 2 ^ 32) by (apply Z.pow_le_mono_r; lia).
  change (2 ^ 32) with 4294967296 in *. unfold U32_MAX. lia.
Qed.

Lemma BucketId_lt log x (es : list Bucket) : 0 ≤ log ≤ 32 → zlen es = 2 ^ log →
  (BucketId HashCode log x < length es)%nat.
Proof. intros Hlog Hlen. destruct (BucketId_small log x Hlog) as [-> ?]. unfold zlen in Hlen. lia. Qed.

Lemma BucketId_half log x : 0 ≤ log < 32 →
  BucketId HashCode log x = (BucketId HashCode (log + 1) x / 2)%nat.
Proof.
  intros Hlog. destruct (BucketId_small log x) as [-> _]; [lia|].
  destruct (BucketId_small (log + 1) x) as [-> ?]; [lia|].
  replace (64 - log) with (64 - (log + 1) + 1) by lia.
  rewrite <- Z.shiftr_shiftr by lia. rewrite (Z.shiftr_div_pow2 _ 1) by lia.
  change (2 ^ 1) with 2. rewrite Z2Nat.inj_div by lia. done.
Qed.

(** The invariant of the table: its buckets are in order, its size is a power of
    two and follows the number of strings, and there are fewer chained strings than
    buckets. *)
Record table_ok (s : StringSet) : Prop := {
  tb_region : region_ok (BucketId HashCode (ss_capacity_log s)) all (ss_entries s);
  tb_log : 2 ≤ ss_capacity_log s ≤ 31;
  tb_length : zlen (ss_entries s) = 2 ^ ss_capacity_log s;
  tb_grown : zlen (ss_entries s) ≤ Z.max 4 (2 * ss_size s);
  tb_room : (length (elems (ss_entries s)) + 2 ≤ length (ss_entries s) + used (ss_entries s))%nat
}.

Lemma table_lt s x : table_ok s → (BucketId HashCode (ss_capacity_log s) x < length (ss_entries s))%nat.
Proof. intros [_ Hlog Hlen _ _]. apply BucketId_lt; [lia|done]. Qed.

Lemma Compare_spec es i x : Compare es i x = true ↔ ∃ b rest, es !! i = Some b ∧ bk_chain b = x :: rest.
Proof.
  unfold Compare. destruct (es !! i) as [b|]; [|split; [done|by intros (b & rest & ? & _)]].
  rewrite bool_decide_eq_true. split.
  - intros Hh. exists b, (tail (bk_chain b)). split; [done|].
    destruct (bk_chain b) as [|r rest]; [done|]. by injection Hh as ->.
  - by intros (b' & rest & [= <-] & ->).
Qed.

(** Where a string of the table is. *)
Lemma elems_where home es x : region_ok home all es → x ∈ elems es →
  (∃ b, es !! home x = Some b ∧ x ∈ bk_chain b) ∨
  (∃ i, (i < length es)%nat ∧ (home x = S i ∨ i = S (home x)) ∧ Compare es i x = true).
Proof.
  intros H (i & b & Hi & Hx)%elem_of_elems.
  pose proof (rg_bucket _ _ _ H i b I Hi) as Hok. unfold bucket_ok in Hok.
  destruct (bk_chain b) as [|r rest] eqn:Hc; [by apply not_elem_of_nil in Hx|].
  destruct Hok as (Hnear & _ & Htail). rewrite Forall_forall in Htail.
  apply elem_of_cons in Hx as [<-|Hx].
  - destruct Hnear as [->|Hnear]; [left; exists b; rewrite Hc; split; [done|by left]|].
    right. exists i. split_and!; [by eapply lookup_lt_Some|done|]. apply Compare_spec. eauto.
  - left. rewrite (Htail x Hx). exists b. rewrite Hc. split; [done|by right].
Qed.

(** A string is found exactly if it is there. *)
Lemma FindAround_spec home es x : region_ok home all es →
  (FindAround es x (home x) <? 2) = bool_decide (x ∈ elems es).
Proof.
  intros H. unfold FindAround.
  assert (Hcmp : ∀ i, Compare es i x = true → x ∈ elems es).
  { intros i (b & rest & Hb & Hc)%Compare_spec. apply elem_of_elems. exists i, b. rewrite Hc.
    split; [done|by left]. }
  destruct (match es !! home x with Some b => bool_decide (x ∈ bk_chain b) | None => false end) eqn:H0.
  { rewrite bool_decide_eq_true_2; [done|]. apply elem_of_elems.
    destruct (es !! home x) as [b|] eqn:Hb; [|done]. apply bool_decide_eq_true in H0. eauto. }
  destruct (negb _ && _) eqn:H1.
  { apply andb_prop in H1 as [_ H1]. by rewrite bool_decide_eq_true_2 by eauto. }
  destruct (_ && _) eqn:H2 in |- *.
  { apply andb_prop in H2 as [_ H2]. by rewrite bool_decide_eq_true_2 by eauto. }
  symmetry. apply bool_decide_eq_false.
  intros [(b & Hb & Hx)|(i & Hi & Hn & Hc)]%(elems_where home); [| |done].
  - rewrite Hb in H0. by apply bool_decide_eq_false in H0.
  - destruct Hn as [Hn| ->].
    + rewrite Hn in H1. replace (S i - 1)%nat with i in H1 by lia. by rewrite Hc in H1.
    + rewrite Nat.add_1_r in H2. rewrite Hc, (proj2 (Nat.ltb_lt _ _) Hi) in H2. done.
Qed.

(** On one side of a displaced entry, towards its own bucket, no string belongs to
    the entry's bucket. *)
Lemma region_side home es b nb P :
  region_ok home all es → points home es b nb → P nb →
  (∀ j h, P j → near h j → h ≠ b → P h) →
  (∀ j, P j → j ≠ nb → ¬ near b j) →
  region_ok home P es.
Proof.
  intros H Hp HP Hstep Hfar. split.
  - intros j c _. by apply (rg_bucket _ _ _ H j c I).
  - intros j h Hj Hjh. destruct (rg_home _ _ _ H j h I Hjh) as [_ Hocc]. split; [|done].
    assert (Hn : near h j).
    { destruct Hjh as (c & r & rest & Hc & Hr & <- & _).
      pose proof (rg_bucket _ _ _ H j c I Hc) as Hok. unfold bucket_ok in Hok. rewrite Hr in Hok. apply Hok. }
    apply (Hstep j); [done|done|]. intros ->. destruct (decide (j = nb)) as [->|Hne].
    + by apply (rg_mutual _ _ _ H b nb I).
    + by apply (Hfar j).
  - intros j h _. by apply (rg_mutual _ _ _ H j h I).
Qed.

(** A displaced entry linked to its own bucket leaves the bucket it is in alone. *)
Lemma Link_displaced log es b d v rest :
  region_ok (BucketId HashCode log) all es → es !! b = Some (mkBucket d (v :: rest)) → BucketId HashCode log v ≠ b →
  ∃ es', Link HashCode (link_fuel es) log es v false (BucketId HashCode log v) = Some es' ∧
    placed HashCode log all v es es' ∧ es' !! b = es !! b.
Proof.
  intros H Hb Hv. set (nb := BucketId HashCode log v) in *.
  assert (Hp : points (BucketId HashCode log) es b nb) by (do 3 eexists; split_and!; [done|done|done|auto]).
  destruct (rg_home _ _ _ H b nb I Hp) as [_ Hocc].
  assert (Hfuel : (displaced_count es < link_fuel es)%nat)
    by (pose proof (displaced_count_le es); unfold link_fuel; lia).
  destruct (Link_ok HashCode log (link_fuel es) all es v false H I Hocc Hfuel) as (es' & HL & Hpl).
  exists es'. split_and!; [exact HL|done|].
  assert (Hside : ∀ P, region_ok (BucketId HashCode log) P es → P nb → ¬ P b → es' !! b = es !! b).
  { intros P HPr HPn HPb.
    destruct (Link_ok HashCode log (link_fuel es) P es v false HPr HPn Hocc Hfuel) as (es2 & HL2 & Hpl2).
    rewrite HL in HL2. injection HL2 as <-. by apply (pl_outside _ _ _ _ _ _ Hpl2). }
  destruct (rg_bucket _ _ _ H b _ I Hb) as ([?|[Hn|Hn]] & _); [done|..].
  - apply (Hside (fun j => b < j)%nat); [|lia|lia]. fold nb in Hn.
    eapply region_side; [done|done|lia|unfold near; lia|unfold near; lia].
  - apply (Hside (fun j => j < b)%nat); [|lia|lia]. fold nb in Hn.
    eapply region_side; [done|done|lia|unfold near; lia|unfold near; lia].
Qed.

(** A string is added to the table. *)
Record added (x : bytes) (s s' : StringSet) : Prop := {
  ad_table : table_ok s';
  ad_elems : elems (ss_entries s') ≡ₚ x :: elems (ss_entries s);
  ad_size : ss_size s' = ss_size s
}.

Lemma placed_added x s es : table_ok s → placed HashCode (ss_capacity_log s) all x (ss_entries s) es →
  (length (elems (ss_entries s)) + 3 ≤ length es + used es)%nat →
  added x s (s <| ss_entries := es |>).
Proof.
  intros [_ Hlog Hlen Hgr _] [Hreg _ Hl Hel _] Hroom. unfold zlen in *.
  split; [|done|done]. split; cbn; unfold zlen; [done|done|by rewrite Hl|by rewrite Hl|].
  change (length (elems es) + 2 ≤ length es + used es)%nat. rewrite Hel. cbn [length]. lia.
Qed.

(** A bucket whose strings all belong there, the first of them the new one. *)
Lemma region_own home es x c : region_ok home all es → (home x < length es)%nat → Forall (fun y => home y = home x) c →
  region_ok home all (<[home x := mkBucket false (x :: c)]> es).
Proof.
  intros He Hl Hc. apply region_insert; [done|done|done| |].
  - intros _. split; [by left|]. cbn. by rewrite bool_decide_eq_false_2 by auto.
  - intros r rest _ [= <- <-]. done.
Qed.

Lemma add_to_chain_placed s x : table_ok s → occupied (ss_entries s) (BucketId HashCode (ss_capacity_log s) x) →
  ∃ es, add_to_chain HashCode s x = Some (s <| ss_entries := es |>) ∧
    placed HashCode (ss_capacity_log s) all x (ss_entries s) es.
Proof.
  intros H Hocc. unfold add_to_chain. pose proof (tb_region _ H) as Hreg. pose proof (table_lt s x H) as Hlt.
  destruct Hocc as ([d c] & Hb & Hne). rewrite Hb. destruct c as [|v rest]; [done|].
  destruct (rg_bucket _ _ _ Hreg _ _ I Hb) as (_ & Hd & Htail). cbn [bk_displaced bk_chain] in Hd, Htail.
  destruct d.
  - symmetry in Hd. apply bool_decide_eq_true in Hd.
    destruct (Link_displaced _ _ _ _ _ _ Hreg Hb Hd) as (es & -> & [Hr _ Hl Hel Ho] & Hself).
    cbn [mbind option_bind]. rewrite Hself, Hb. cbn [mbind option_bind bk_chain tail].
    eexists. split; [done|]. split.
    + apply region_own; [done|by rewrite Hl|done].
    + intros j Hj. by destruct Hj.
    + by rewrite length_insert.
    + rewrite <- Hself in Hb. pose proof (elems_insert es _ _ (mkBucket false (x :: rest)) Hb) as Hp.
      cbn [bk_chain] in Hp. apply (Permutation_app_inv_l (v :: rest)). rewrite Hp, Hel. cbn.
      rewrite <- !Permutation_middle. apply perm_swap.
    + intros j Hj. apply occupied_insert; [done|by apply Ho].
  - symmetry in Hd. apply bool_decide_eq_false in Hd. apply dec_stable in Hd.
    eexists. split; [done|]. eapply insert_placed; [|done|done|by right].
    apply region_own; [done|done|by constructor].
Qed.

Lemma Grow_ok s : table_ok s → zlen (ss_entries s) ≤ ss_size s ≤ 2 ^ 30 →
  ∃ s', Grow HashCode s = Some s' ∧ table_ok s' ∧ elems (ss_entries s') ≡ₚ elems (ss_entries s) ∧
    ss_size s' = ss_size s ∧ zlen (elems (ss_entries s)) + 2 ≤ zlen (ss_entries s').
Proof.
  intros [Hreg Hlog Hlen Hgr Hroom] Hsz. unfold Grow.
  assert (ss_capacity_log s ≤ 30) by (apply (Z.pow_le_mono_r_iff 2); lia).
  assert (Hpow : 2 ^ (ss_capacity_log s + 1) = 2 * 2 ^ ss_capacity_log s) by (rewrite Z.pow_add_r; lia).
  assert (Hbd : ∀ x, (BucketId HashCode (ss_capacity_log s + 1) x < 2 * length (ss_entries s))%nat).
  { intros x. destruct (BucketId_small (ss_capacity_log s + 1) x) as [-> ?]; [lia|]. unfold zlen in *. lia. }
  assert (Hhalf : ∀ x, BucketId HashCode (ss_capacity_log s) x = (BucketId HashCode (ss_capacity_log s + 1) x / 2)%nat)
    by (intros x; apply BucketId_half; lia).
  destruct (grow_buckets_ok HashCode (ss_capacity_log s) Hhalf
              (length (ss_entries s)) _ (growing_start _ _ _ Hreg Hbd)) as (es & -> & Hg & Hl & Hel).
  { rewrite length_app. lia. }
  rewrite length_app, length_replicate in Hl. pose proof (used_le (ss_entries s)).
  assert (Hz : zlen es = 2 ^ (ss_capacity_log s + 1)) by (unfold zlen in *; lia).
  assert (Hel' : elems es ≡ₚ elems (ss_entries s)).
  { rewrite Hel. unfold elems. rewrite fmap_app, concat_app, fmap_replicate.
    replace (concat (replicate _ _)) with (@nil bytes); [by rewrite app_nil_r|].
    clear. induction (length (ss_entries s)); [done|]. by cbn. }
  eexists. split; [done|]. split_and!; [|exact Hel'|done|cbn; unfold zlen in *; lia].
  split; cbn; [|lia|done|lia|rewrite Hel'; lia]. destruct Hg as [[Hb Hh Hm] _ _ _ _].
  split.
  - intros i b _. apply Hb, Nat.le_0_l.
  - intros i j _ Hp. split; [done|]. by apply (Hh i j); [apply Nat.le_0_l|].
  - intros i j _. apply Hm, Nat.le_0_l.
Qed.

(** One round of the loop of [Add]; the growth and what follows it are a hypothesis. *)
Lemma add_round_ok rounds s x : table_ok s → ss_size s = zlen (elems (ss_entries s)) + 1 →
  (zlen (ss_entries s) ≤ ss_size s →
     ∃ s', (s1 ← Grow HashCode s; add_loop HashCode rounds s1 x) = Some s' ∧ added x s s') →
  ∃ s', add_loop HashCode (S rounds) s x = Some s' ∧ added x s s'.
Proof.
  intros H Hsz Hgrow. cbn [add_loop]. pose proof (table_lt s x H) as Hlt.
  destruct (FindEmptyAround_spec _ _ Hlt) as [(offs & e & b & -> & Ho & -> & Hnear & Hb & Hc & -> & Hocc)|[-> Hocc]].
  - unfold CanSetFlat. rewrite (proj2 (Z.ltb_lt _ _) Ho). eexists. split; [done|].
    apply placed_added; [done|by eapply flat_placed; [apply (tb_region _ H)|..]|].
    rewrite (used_insert _ _ _ _ Hb Hc), length_insert by done. pose proof (tb_room _ H). lia.
  - change (CanSetFlat 2) with false. cbv iota. destruct (Z.ltb_spec (ss_size s) (zlen (ss_entries s))).
    + destruct (add_to_chain_placed s x H Hocc) as (es & -> & Hpl). eexists. split; [done|].
      apply placed_added; [done|done|]. pose proof (used_occupied _ _ (pl_occupied _ _ _ _ _ _ Hpl _ Hocc)).
      rewrite (pl_length _ _ _ _ _ _ Hpl). unfold zlen in *. lia.
    + by apply Hgrow.
Qed.

Lemma add_loop_ok s x : table_ok s → ss_size s = zlen (elems (ss_entries s)) + 1 → ss_size s ≤ 2 ^ 30 →
  ∃ s', add_loop HashCode 2 s x = Some s' ∧ added x s s'.
Proof.
  intros H Hsz Hmax. apply add_round_ok; [done|done|]. intros Hfull.
  destruct (Grow_ok s H) as (s1 & -> & H1 & Hel & Hs1 & Hlen); [lia|]. cbn [mbind option_bind].
  assert (Hz : zlen (elems (ss_entries s1)) = zlen (elems (ss_entries s))) by (unfold zlen; by rewrite Hel).
  destruct (add_round_ok 0 s1 x H1) as (s' & -> & [Htab Hel' Hs']); [lia|lia|].
  exists s'. split; [done|]. split; [done|by rewrite Hel', Hel|lia].
Qed.

(** The table holds the set [X]. *)
Definition set_rep (s : StringSet) (X : gset bytes) : Prop :=
  ss_size s = Z.of_nat (size X) ∧
  ((ss_entries s = [] ∧ X = ∅) ∨ (table_ok s ∧ elems (ss_entries s) ≡ₚ elements X)).

Lemma set_rep_added X x s s' :
  added x s s' → elems (ss_entries s) ≡ₚ elements X → x ∉ X → ss_size s = Z.of_nat (size X) + 1 →
  set_rep s' ({[x]} ∪ X).
Proof.
  intros [Htab Hel Hs'] Hx Hnew Hsz. split.
  - rewrite Hs', Hsz, size_union, size_singleton by set_solver. lia.
  - right. split; [done|]. by rewrite Hel, elements_union_singleton, Hx.
Qed.

Lemma region_empty home n : region_ok home all (replicate n empty_bucket).
Proof.
  assert (Hp : ∀ i j, points home (replicate n empty_bucket) i j → False).
  { intros i j (b & r & rest & [-> _]%lookup_replicate & ? & _). done. }
  split; [by intros i b _ [-> _]%lookup_replicate|intros i j _ []%Hp..].
Qed.

Lemma Add_first s x : ss_entries s = [] → ss_size s = 0 →
  ∃ s', Add HashCode s x = Some (s', true) ∧ set_rep s' {[x]}.
Proof.
  intros Hnil Hsz. unfold Add. rewrite bool_decide_eq_true_2 by done. eexists. split; [done|].
  set (es0 := replicate kMinSize empty_bucket).
  assert (Hlt : (BucketId HashCode kMinSizeShift x < length es0)%nat) by (apply BucketId_lt; [done|by vm_compute]).
  destruct (lookup_lt_is_Some_2 _ _ Hlt) as [b Hb]. pose proof Hb as [-> _]%lookup_replicate.
  assert (Hd : bool_decide (BucketId HashCode kMinSizeShift x ≠ BucketId HashCode kMinSizeShift x) = false)
    by (apply bool_decide_eq_false; auto).
  destruct (flat_placed HashCode kMinSizeShift all es0 _ _ x (region_empty _ _) I I Hb eq_refl) as [Hreg _ Hl Hel _];
    [by left|done|].
  rewrite Hd in Hreg, Hl, Hel. rewrite Hsz, u32_small by done. split; cbn [ss_size ss_entries].
  { by rewrite size_singleton. }
  right. split; [|rewrite elements_singleton; exact Hel]. split; cbn [ss_entries ss_size ss_capacity_log].
  - exact Hreg.
  - done.
  - unfold zlen. by rewrite Hl.
  - unfold zlen. by rewrite Hl.
  - rewrite Hel, Hl. rewrite (used_insert _ _ _ _ Hb) by done. cbn. lia.
Qed.

(** [Add] is insertion, and says whether the string is new. *)
Lemma Add_ok s X x : set_rep s X → Z.of_nat (size X) < 2 ^ 30 →
  ∃ s', Add HashCode s x = Some (s', bool_decide (x ∉ X)) ∧ set_rep s' ({[x]} ∪ X).
Proof.
  intros [Hsz [[Hnil ->]|[H Hel]]] Hmax.
  { destruct (Add_first s x Hnil) as (s' & -> & Hrep); [by rewrite Hsz, size_empty|].
    exists s'. rewrite bool_decide_eq_true_2 by set_solver. by rewrite (right_id_L ∅ (∪)). }
  unfold Add. pose proof (table_lt s x H) as Hlt. rewrite bool_decide_eq_false_2.
  2: { intros Hn. rewrite Hn in Hlt. cbn in Hlt. lia. }
  rewrite (proj2 (Nat.leb_gt _ _) Hlt), (FindAround_spec _ _ _ (tb_region _ H)).
  assert (Hin : x ∈ elems (ss_entries s) ↔ x ∈ X) by (rewrite Hel; apply elem_of_elements).
  destruct (decide (x ∈ X)) as [HX|HX].
  - rewrite bool_decide_eq_true_2 by by apply Hin. exists s. rewrite bool_decide_eq_false_2 by auto.
    split; [done|]. replace ({[x]} ∪ X) with X by set_solver. by split; [|right].
  - rewrite bool_decide_eq_false_2 by by rewrite Hin. rewrite bool_decide_eq_true_2 by done.
    rewrite u32_small by (unfold U32_MAX; lia).
    assert (He : zlen (elems (ss_entries s)) = Z.of_nat (size X)) by (unfold zlen; by rewrite Hel).
    change (s <| ss_size := ss_size s + 1 |>)
      with (mkStringSet (ss_entries s) (ss_size s + 1) (ss_capacity_log s)).
    destruct (add_loop_ok (mkStringSet (ss_entries s) (ss_size s + 1) (ss_capacity_log s)) x) as (s' & -> & Had).
    + destruct H as [Hreg Hlog Hlen Hgr Hroom].
      split; cbn [ss_entries ss_size ss_capacity_log]; [done|done|done|lia|done].
    + cbn [ss_entries ss_size]. lia.
    + cbn [ss_size]. lia.
    + exists s'. split; [done|]. eapply set_rep_added; [done|done|done|cbn [ss_size]; lia].
Qed.

End add.

(** ** The set *)

(** What a set answers to a sequence of insertions. *)
Fixpoint set_answers (X : gset bytes) (strs : list bytes) : list bool :=
  match strs with
  | [] => []
  | x :: rest => bool_decide (x ∉ X) :: set_answers ({[x]} ∪ X) rest
  end.

Lemma AddAll_ok HashCode (HashCode_u64 : ∀ x, 0 ≤ HashCode x ≤ U64_MAX) strs : ∀ s X,
  set_rep HashCode s X → Z.of_nat (size X) + zlen strs ≤ 2 ^ 30 →
  ∃ s', AddAll HashCode s strs = Some (s', set_answers X strs) ∧ set_rep HashCode s' (list_to_set strs ∪ X).
Proof.
  induction strs as [|x rest IH]; intros s X H Hmax.
  { exists s. split; [done|]. by rewrite list_to_set_nil, (left_id_L ∅ (∪)). }
  unfold zlen in Hmax. cbn [length] in Hmax. cbn [AddAll].
  destruct (Add_ok HashCode HashCode_u64 s X x H) as (s1 & -> & H1); [lia|]. cbn [mbind option_bind].
  assert (size ({[x]} ∪ X) ≤ S (size X))%nat.
  { rewrite size_union_alt, size_singleton.
    pose proof (subseteq_size (X ∖ {[x]}) X ltac:(set_solver)). lia. }
  destruct (IH s1 ({[x]} ∪ X) H1) as (s' & -> & H'); [unfold zlen; lia|]. exists s'. split; [done|].
  replace (list_to_set (x :: rest) ∪ X) with (list_to_set rest ∪ ({[x]} ∪ X)); [done|].
  by rewrite list_to_set_cons, (assoc_L (∪)), (comm_L (∪) _ {[x]}).
Qed.

(** C9. With every hash function, any sequence of additions is a sequence of
    insertions into a set: every [Add] says whether the string is new, the size is
    the number of different strings, and afterwards exactly the strings that were
    added are found.  No displacement, chaining or growth loses a string, the wave
    of replacements in [Link] ends, and no access is out of range. *)
Theorem string_set_refines (HashCode : bytes → Z) (strs : list bytes) :
  (∀ x, 0 ≤ HashCode x ≤ U64_MAX) → strs ≠ [] → zlen strs ≤ 2 ^ 30 →
  ∃ s, AddAll HashCode StringSet_new strs = Some (s, set_answers ∅ strs) ∧
    ss_size s = Z.of_nat (size (list_to_set strs : gset bytes)) ∧
    ∀ x, (FindAround (ss_entries s) x (BucketId HashCode (ss_capacity_log s) x) <? 2) = bool_decide (x ∈ strs).
Proof.
  intros Hu Hne Hmax.
  destruct (AddAll_ok HashCode Hu strs StringSet_new ∅) as (s & Hadd & Hrep); [by split; [|left]|done|].
  rewrite (right_id_L ∅ (∪)) in Hrep. exists s. destruct Hrep as [Hsz [[_ Hnil]|[Htab Hel]]].
  { destruct strs as [|y rest]; [done|]. exfalso. apply (not_elem_of_empty (C := gset bytes) y).
    rewrite <- Hnil. apply elem_of_list_to_set. by left. }
  split_and!; [done|done|]. intros x. rewrite (FindAround_spec _ _ _ (tb_region _ _ Htab)).
  apply bool_decide_ext. by rewrite Hel, elem_of_elements, elem_of_list_to_set.
Qed.

(** A hash function of one byte: its value in the top bits. *)
Definition byte_hash (x : bytes) : Z := Z.shiftl (Z.land (default 0 (head x)) 255) 56.

Lemma byte_hash_u64 x : 0 ≤ byte_hash x ≤ U64_MAX.
Proof.
  unfold byte_hash. set (z := Z.land _ _).
  assert (0 ≤ z < 256) by (unfold z; rewrite (Z.land_ones _ 8) by lia; apply Z.mod_pos_bound; lia).
  rewrite Z.shiftl_mul_pow2 by lia. change (2 ^ 56) with 72057594037927936. unfold U64_MAX. lia.
Qed.

(** Strings that meet in one bucket, are displaced, chained and moved by two
    growths. *)
Definition example_strs : list bytes :=
  [[0]; [10]; [1]; [11]; [200]; [1]; [2]; [3]; [64]; [65]; [66; 1]; [70]; [4]; [66; 1]].

Lemma string_set_refines_witness :
  zlen example_strs ≤ 2 ^ 30 ∧
  ∃ s, AddAll byte_hash StringSet_new example_strs = Some (s, set_answers ∅ example_strs) ∧
    ss_size s = Z.of_nat (size (list_to_set example_strs : gset bytes)).
Proof.
  split; [done|].
  destruct (string_set_refines byte_hash example_strs byte_hash_u64) as (s & H & Hs & _); [done|done|].
  exists s. split; [exact H|exact Hs].
Defined.

(** [Reserve] on a set that has its four buckets changes the number of bits of the
    bucket index and not the number of buckets: the bucket of a string whose hash has
    the top bit set is past the end of the array. *)
Theorem Reserve_out_of_range (n : Z) : 4 ≤ n →
  ∃ s, Add byte_hash StringSet_new [0] = Some (s, true) ∧ Add byte_hash (Reserve s n) [200] = None.
Proof.
  intros Hn. eexists. split; [vm_compute; reflexivity|].
  unfold Reserve. rewrite Z.min_r by (unfold kMinSize; lia). by vm_compute.
Qed.

(** An iterator stops at the first bucket from its own that has a string, and at the
    end if there is none. *)
Theorem SeekNonEmpty_spec es bucket_id :
  let '(i, found) := SeekNonEmpty es bucket_id in
  (∀ j, (bucket_id ≤ j < i)%nat → ¬ occupied es j) ∧
  (if found then occupied es i else (length es ≤ i)%nat).
Proof.
  unfold SeekNonEmpty. remember (length es - bucket_id)%nat as fuel eqn:Hf.
  induction fuel as [|fuel IH] in bucket_id, Hf |- *; cbn [seek_loop]; [split; intros; lia|].
  destruct (lookup_lt_is_Some_2 es bucket_id ltac:(lia)) as [b Hb].
  unfold IsEmpty. rewrite Hb. case_bool_decide as Hc; cbn [negb].
  - specialize (IH (S bucket_id) ltac:(lia)). destruct (seek_loop fuel es (S bucket_id)) as [i found].
    destruct IH as [Hno Hi]. split; [|done].
    intros j Hj. destruct (decide (j = bucket_id)) as [->|]; [|apply Hno; lia].
    intros (b' & Hb' & Hne). congruence.
  - split; [intros; lia|]. by exists b.
Qed.
