(* ===== verification/MemcacheParser.v ===== *)
(** The memcached text protocol (memcache_parser.cc): command lines.  The value
    blob of a store command is left to the caller.  Theorems: a command line is
    parsed to the command it was made from, for every kind of command; what is
    consumed is a line of the input, or nothing. *)
From stdpp Require Import base list strings.
From S2P Require Import Prelude Absl.

Open Scope Z_scope.

Inductive CmdType : Type :=
  | MC_INVALID
  | MC_SET | MC_ADD | MC_REPLACE | MC_APPEND | MC_PREPEND | MC_CAS
  | MC_GET | MC_GETS | MC_GAT | MC_GATS
  | MC_DELETE | MC_INCR | MC_DECR.
#[export] Instance CmdType_eq_dec : EqDecision CmdType.
Proof. solve_decision. Defined.

Record MCCommand : Type := mkMCCommand {
  mc_type : CmdType;
  mc_key : bytes;
  keys_ext : list bytes;
  cas_unique : Z;
  expire_ts : Z;
  bytes_len : Z;
  mc_flags : Z;
  no_reply : bool
}.
#[export] Instance MCCommand_eta : Eta MCCommand := fun m =>
  mkMCCommand (mc_type m) (mc_key m) (keys_ext m) (cas_unique m) (expire_ts m) (bytes_len m) (mc_flags m) (no_reply m).

Definition MCCommand_new : MCCommand := mkMCCommand MC_INVALID [] [] 0 0 0 0 false.

Inductive MCResult : Type := MC_OK | INPUT_PENDING | UNKNOWN_CMD | MC_BAD_INT | PARSE_ERROR.

Definition IsStoreCmd (t : CmdType) : bool :=
  match t with MC_SET | MC_ADD | MC_REPLACE | MC_APPEND | MC_PREPEND | MC_CAS => true | _ => false end.

Definition cmd_map : list (bytes * CmdType) :=
  [(str "set", MC_SET); (str "add", MC_ADD); (str "replace", MC_REPLACE); (str "append", MC_APPEND);
   (str "prepend", MC_PREPEND); (str "cas", MC_CAS); (str "get", MC_GET); (str "gets", MC_GETS);
   (str "gat", MC_GAT); (str "gats", MC_GATS)].

Definition From_token (token : bytes) : CmdType :=
  match list_find (λ p, p.1 = token) cmd_map with
  | Some (_, (_, t)) => t
  | None => MC_INVALID
  end.

Section parser.
Context {absl : Absl}.

(** [tokens[i]]; the array has eight entries, those not filled are empty. *)
Definition token (tokens : list bytes) (i : nat) : bytes := default [] (tokens !! i).

Definition ParseStore (tokens : list bytes) (res : MCCommand) : MCResult * MCCommand :=
  let num_tokens := zlen tokens in
  let cas := bool_decide (mc_type res = MC_CAS) in
  if cas && (num_tokens <=? 3) then (PARSE_ERROR, res)
  else
    let opt_pos := if cas then 4 else 3 in
    match atou32 (token tokens 0) with
    | None => (MC_BAD_INT, res)
    | Some flags =>
        match atou32 (token tokens 1) with
        | None => (MC_BAD_INT, res)
        | Some ts =>
            let res := res <| expire_ts := ts |> in
            match atou32 (token tokens 2) with
            | None => (MC_BAD_INT, res)
            | Some len =>
                let res := res <| bytes_len := len |> in
                if 0xFFFF <? flags then (MC_BAD_INT, res)
                else
                  let finish res :=
                    let res := res <| mc_flags := flags |> in
                    if num_tokens =? opt_pos + 1 then
                      if bool_decide (token tokens (Z.to_nat opt_pos) = str "noreply")
                      then (MC_OK, res <| no_reply := true |>) else (PARSE_ERROR, res)
                    else if opt_pos + 1 <? num_tokens then (PARSE_ERROR, res)
                    else (MC_OK, res) in
                  if cas then
                    match atou64 (token tokens 3) with
                    | None => (MC_BAD_INT, res)
                    | Some unique => finish (res <| cas_unique := unique |>)
                    end
                  else finish res
            end
        end
    end.

Definition ParseRetrieve (tokens : list bytes) (res : MCCommand) : MCResult * MCCommand :=
  let keys (res : MCCommand) (key_pos : nat) :=
    (MC_OK, res <| mc_key := token tokens key_pos |> <| keys_ext ::= λ l, l ++ drop (S key_pos) tokens |>) in
  if bool_decide (mc_type res = MC_GAT ∨ mc_type res = MC_GATS) then
    match atou32 (token tokens 0) with
    | None => (MC_BAD_INT, res)
    | Some ts => keys (res <| expire_ts := ts |>) 1%nat
    end
  else keys res 0%nat.

(** The loop that cuts the line at spaces and carriage returns; it stops after
    the eighth token.  The second component is the rest of the line then. *)
Fixpoint mc_tokens (s word : bytes) (tokens : list bytes) : list bytes * bytes :=
  match s with
  | [] => (tokens, [])
  | c :: s =>
      if (c =? 32) || (c =? 13) then
        if bool_decide (word = []) then mc_tokens s [] tokens
        else
          let tokens := tokens ++ [word] in
          if bool_decide (length tokens = 8%nat) then (tokens, s) else mc_tokens s [] tokens
      else mc_tokens s (word ++ [c]) tokens
  end.

(** The result, [*consumed] and [*res]. *)
Definition MemcacheParser_Parse (s : bytes) (res : MCCommand) : MCResult * Z * MCCommand :=
  match find_from [10] s 0 with
  | None => (if 300 <? zlen s then PARSE_ERROR else INPUT_PENDING, 0, res)
  | Some pos =>
      if (pos =? 0) || negb (byte_at s (pos - 1) =? 13) then (PARSE_ERROR, 0, res)
      else
        let consumed := pos + 1 in
        let line := drop_while (λ c, c =? 32) (take (Z.to_nat pos) s) in
        let '(tokens, rest) := mc_tokens line [] [] in
        match tokens with
        | [] => (PARSE_ERROR, consumed, res)
        | name :: args =>
            if negb (forallb (λ c, c =? 32) (removelast rest)) then (PARSE_ERROR, consumed, res)
            else
              let res := res <| mc_type := From_token name |> in
              if bool_decide (mc_type res = MC_INVALID) then (UNKNOWN_CMD, consumed, res)
              else if IsStoreCmd (mc_type res) then
                if (zlen tokens <? 5) || (250 <? zlen (token tokens 1)) then (PARSE_ERROR, consumed, res)
                else
                  let '(r, res) := ParseStore (drop 2 tokens) (res <| mc_key := token tokens 1 |>) in
                  (r, consumed, res)
              else
                let '(r, res) := ParseRetrieve args res in (r, consumed, res)
        end
  end.
End parser.

(** ** Command lines *)

Definition type_name (t : CmdType) : bytes :=
  match list_find (λ p, p.2 = t) cmd_map with Some (_, (n, _)) => n | None => [] end.

(** What a client sends for a command, as the protocol defines it. *)
Definition command_tokens (m : MCCommand) : list bytes :=
  type_name (mc_type m) ::
  if IsStoreCmd (mc_type m) then
    [mc_key m; to_string (mc_flags m); to_string (expire_ts m); to_string (bytes_len m)] ++
    (if decide (mc_type m = MC_CAS) then [to_string (cas_unique m)] else []) ++
    (if no_reply m then [str "noreply"] else [])
  else
    (if decide (mc_type m = MC_GAT ∨ mc_type m = MC_GATS) then [to_string (expire_ts m)] else []) ++
    mc_key m :: keys_ext m.

Definition join (tokens : list bytes) : bytes :=
  match tokens with [] => [] | t :: ts => t ++ (ts ≫= λ t, 32 :: t) end.

Definition command_line (m : MCCommand) : bytes := join (command_tokens m) ++ CRLF.

Definition word_ok (w : bytes) : Prop := w ≠ [] ∧ Forall (λ c, c ≠ 32 ∧ c ≠ 13 ∧ c ≠ 10) w.

(** The fields that the protocol has for the type of the command, in range; the
    others as in a new command. *)
Definition command_wf (m : MCCommand) : Prop :=
  word_ok (mc_key m) ∧ Forall word_ok (keys_ext m) ∧ (length (command_tokens m) ≤ 8)%nat ∧
  if IsStoreCmd (mc_type m) then
    zlen (mc_key m) ≤ 250 ∧ 0 ≤ mc_flags m ≤ 0xFFFF ∧ 0 ≤ expire_ts m ≤ U32_MAX ∧ 0 ≤ bytes_len m ≤ U32_MAX ∧
    (if decide (mc_type m = MC_CAS) then 0 ≤ cas_unique m ≤ U64_MAX else cas_unique m = 0) ∧ keys_ext m = []
  else
    type_name (mc_type m) ≠ [] ∧ bytes_len m = 0 ∧ mc_flags m = 0 ∧ cas_unique m = 0 ∧
    no_reply m = false ∧
    (if decide (mc_type m = MC_GAT ∨ mc_type m = MC_GATS) then 0 ≤ expire_ts m ≤ U32_MAX else expire_ts m = 0).

Lemma mc_tokens_word w s word tokens :
  Forall (λ c, c ≠ 32 ∧ c ≠ 13 ∧ c ≠ 10) w → mc_tokens (w ++ s) word tokens = mc_tokens s (word ++ w) tokens.
Proof.
  intros Hw. revert word. induction Hw as [|c w (H1 & H2 & _) Hw IH]; intros word; [by rewrite app_nil_r|].
  cbn [app mc_tokens]. rewrite (proj2 (Z.eqb_neq c 32)), (proj2 (Z.eqb_neq c 13)) by done. cbn [orb].
  by rewrite IH, <-app_assoc.
Qed.

(** The words of a line with at most eight of them. *)
Lemma mc_tokens_join ts done w :
  word_ok w → Forall word_ok ts → (length done + S (length ts) ≤ 8)%nat →
  mc_tokens ((w ++ (ts ≫= λ t, 32 :: t)) ++ [13]) [] done = (done ++ w :: ts, []).
Proof.
  intros Hw Hts. revert done w Hw. induction Hts as [|t ts Ht Hts IH]; intros done w [Hne Hw] Hlen.
  - cbn [mbind list_bind]. rewrite app_nil_r, mc_tokens_word by done. cbn [mc_tokens app Z.eqb Pos.eqb orb].
    rewrite bool_decide_false by done. cbv zeta. by case_bool_decide.
  - change ((t :: ts) ≫= λ t, 32 :: t) with ((32 :: t) ++ (ts ≫= λ t, 32 :: t)).
    rewrite <-!app_assoc, mc_tokens_word by done. cbn [mc_tokens app Z.eqb Pos.eqb orb].
    rewrite bool_decide_false by done. cbv zeta. simpl in Hlen.
    rewrite bool_decide_false by (rewrite length_app; simpl; lia). specialize (IH (done ++ [w]) t Ht).
    rewrite length_app, <-!app_assoc in IH. simpl in IH. rewrite IH by lia. done.
Qed.

Lemma word_no_lf w : word_ok w → Forall (λ c, c ≠ 10) w.
Proof. intros [_ Hw]. eapply Forall_impl; [exact Hw|]. by intros c (_ & _ & ?). Qed.

Lemma join_no_lf ts : Forall word_ok ts → Forall (λ c, c ≠ 10) (join ts).
Proof.
  destruct 1 as [|t ts Ht Hts]; [constructor|]. cbn [join]. apply Forall_app. split; [by apply word_no_lf|].
  induction Hts as [|u ts Hu Hts IH]; [constructor|]. cbn [mbind list_bind]. apply Forall_app.
  split; [|done]. constructor; [done|]. by apply word_no_lf.
Qed.

Lemma digits_word n : 0 ≤ n → word_ok (to_string n).
Proof.
  intros Hn. split; [by destruct (to_string_cons n) as (? & ? & ->)|].
  eapply Forall_impl; [by apply to_string_digits|]. simpl. lia.
Qed.

(** What [MemcacheParser_Parse] does with a line of words. *)
Lemma Parse_line {absl : Absl} name args rest res :
  word_ok name → Forall word_ok args → (S (length args) ≤ 8)%nat →
  From_token name ≠ MC_INVALID →
  (IsStoreCmd (From_token name) = true → (4 ≤ length args)%nat ∧ zlen (token args 0) ≤ 250) →
  MemcacheParser_Parse ((join (name :: args) ++ CRLF) ++ rest) res =
  let res := res <| mc_type := From_token name |> in
  let '(r, res) := if IsStoreCmd (From_token name) then ParseStore (tail args) (res <| mc_key := token args 0 |>)
                   else ParseRetrieve args res in
  (r, zlen (join (name :: args) ++ CRLF), res).
Proof.
  intros Hn Ha Hl Ht Hs. unfold MemcacheParser_Parse. set (l := join (name :: args)).
  assert (Forall (λ c, c ≠ 10) l) as Hlf by (apply join_no_lf; by constructor).
  assert (find_from [10] ((l ++ CRLF) ++ rest) 0 = Some (zlen l + 1)) as ->.
  { pose proof (find_from_first 10 [] [] (l ++ [13]) rest) as H. rewrite <-app_assoc, zlen_app in H.
    rewrite <-app_assoc. apply H. apply Forall_app. split; [done|by repeat constructor]. }
  pose proof (zlen_nonneg l). rewrite (proj2 (Z.eqb_neq (zlen l + 1) 0)) by lia.
  replace (zlen l + 1 - 1) with (zlen l) by lia. rewrite <-app_assoc. change (CRLF ++ rest) with (13 :: 10 :: rest).
  rewrite byte_at_app. cbn [Z.eqb Pos.eqb negb orb].
  assert (take (Z.to_nat (zlen l + 1)) (l ++ 13 :: 10 :: rest) = l ++ [13]) as ->.
  { rewrite Z2Nat.inj_add, to_nat_zlen by lia. by rewrite take_app_add. }
  assert (drop_while (λ c, c =? 32) (l ++ [13]) = l ++ [13]) as ->.
  { unfold l. destruct Hn as [Hne Hw]. destruct name as [|c name]; [done|]. apply Forall_cons_1 in Hw as [(Hc & _) _].
    simpl. by rewrite (proj2 (Z.eqb_neq c 32)). }
  unfold l at 1. cbn [join]. rewrite (mc_tokens_join args [] name Hn Ha Hl). cbn [app removelast forallb negb].
  cbv zeta. change (mc_type (res <| mc_type := ?t |>)) with t. rewrite bool_decide_false by done.
  rewrite zlen_app. change (zlen CRLF) with 2. replace (zlen l + 1 + 1) with (zlen l + 2) by lia.
  destruct (IsStoreCmd (From_token name)); [|done].
  destruct (Hs eq_refl) as [H4 H250]. change (token (name :: args) 1) with (token args 0).
  rewrite (proj2 (Z.ltb_ge _ _)) by (rewrite zlen_cons; unfold zlen; lia). rewrite (proj2 (Z.ltb_ge _ _)) by lia.
  cbn [orb]. by destruct args.
Qed.

Lemma type_name_ok t :
  type_name t ≠ [] → From_token (type_name t) = t ∧ word_ok (type_name t).
Proof.
  destruct t; intros H; try done; (split; [by vm_compute|]); (split; [done|]); by_decide.
Qed.

Section roundtrip.
Context {absl : Absl} {absl_spec : AbslSpec absl}.

Lemma atou32_to_string n : 0 ≤ n ≤ U32_MAX → atou32 (to_string n) = Some n.
Proof. intros Hn. apply atoi_to_string; unfold U32_MAX, U64_MAX in *; lia. Qed.

Lemma token_0 a (l : list bytes) : token (a :: l) 0 = a.
Proof. done. Qed.

Lemma token_S a (l : list bytes) i : token (a :: l) (S i) = token l i.
Proof. done. Qed.

Lemma ParseStore_tokens m res :
  command_wf m → IsStoreCmd (mc_type m) = true → mc_type res = mc_type m → no_reply res = false →
  ParseStore (drop 2 (command_tokens m)) res =
  (MC_OK, mkMCCommand (mc_type m) (mc_key res) (keys_ext res)
            (if decide (mc_type m = MC_CAS) then cas_unique m else cas_unique res)
            (expire_ts m) (bytes_len m) (mc_flags m) (no_reply m)).
Proof.
  intros (_ & _ & _ & Hwf) Hst Ht Hnr. rewrite Hst in Hwf. destruct Hwf as (_ & Hf & He & Hb & Hc & _).
  unfold command_tokens. rewrite Hst. unfold ParseStore. rewrite Ht. cbn [app drop].
  rewrite !token_S, !token_0.
  rewrite !atou32_to_string by (unfold U32_MAX in *; lia). cbv zeta.
  rewrite (proj2 (Z.ltb_ge 0xFFFF (mc_flags m))) by lia.
  destruct (decide (mc_type m = MC_CAS)) as [Ec|Ec].
  - rewrite (bool_decide_true (mc_type m = MC_CAS)) by done. cbn [app]. rewrite ?token_0.
    rewrite atoi_to_string by lia.
    destruct (no_reply m) eqn:En; cbn -[str]; rewrite ?bool_decide_true by done; by rewrite <-Ht, ?Hnr.
  - rewrite (bool_decide_false (mc_type m = MC_CAS)) by done.
    destruct (no_reply m) eqn:En; cbn -[str]; rewrite ?bool_decide_true by done; by rewrite <-Ht, ?Hnr.
Qed.

Lemma command_tokens_words m : command_wf m → type_name (mc_type m) ≠ [] → Forall word_ok (command_tokens m).
Proof.
  intros (Hk & Hx & _ & Hwf) Hn. unfold command_tokens. constructor; [by apply type_name_ok|].
  destruct (IsStoreCmd (mc_type m)).
  - destruct Hwf as (_ & Hf & He & Hb & Hc & _).
    rewrite !Forall_app, !Forall_cons, Forall_nil. split_and!; try done; try (apply digits_word; lia).
    + case_decide; [apply Forall_singleton, digits_word; lia|constructor].
    + destruct (no_reply m); [|constructor]. apply Forall_singleton. unfold word_ok. by_decide.
  - destruct Hwf as (_ & _ & _ & _ & _ & He). apply Forall_app. split; [|by constructor].
    case_decide; [apply Forall_singleton, digits_word; lia|constructor].
Qed.

Lemma Parse_command_line m rest :
  command_wf m →
  MemcacheParser_Parse (command_line m ++ rest) MCCommand_new = (MC_OK, zlen (command_line m), m).
Proof.
  intros Hwf. pose proof Hwf as (Hk & Hx & Hlen & Hf).
  assert (type_name (mc_type m) ≠ []) as Hn.
  { destruct (IsStoreCmd (mc_type m)) eqn:E; [by destruct (mc_type m)|]. destruct Hf as [Hin _].
    exact Hin. }
  destruct (type_name_ok _ Hn) as [Ht Hw]. pose proof (command_tokens_words m Hwf Hn) as Hws.
  unfold command_line. unfold command_tokens in *. set (args := if IsStoreCmd (mc_type m) then _ else _) in *.
  apply Forall_cons_1 in Hws as [_ Hargs]. rewrite Parse_line; [|done|done|done| |].
  2: { rewrite Ht. intros E. by rewrite E in Hn. }
  2: { rewrite Ht. intros E. unfold args. rewrite E. rewrite E in Hf. rewrite length_app. simpl. split; [lia|apply Hf]. }
  rewrite Ht. cbv zeta. destruct (IsStoreCmd (mc_type m)) eqn:E.
  - pose proof (ParseStore_tokens m (MCCommand_new <| mc_type := mc_type m |> <| mc_key := mc_key m |>) Hwf E ltac:(done) ltac:(done)) as Hp.
    unfold command_tokens in Hp. rewrite E in Hp. fold args in Hp.
    change (token args 0) with (mc_key m). change (tail args) with (drop 2 (type_name (mc_type m) :: args)).
    rewrite Hp. destruct Hf as (_ & _ & _ & _ & Hc & Hxk). f_equal. destruct m; simpl in *; subst.
    by case_decide; subst.
  - unfold ParseRetrieve. change (mc_type (_ <| mc_type := ?t |>)) with t.
    destruct Hf as (_ & H1 & H2 & H3 & H4 & H5). unfold args.
    destruct (decide (mc_type m = MC_GAT ∨ mc_type m = MC_GATS)) as [Hg|Hg].
    + rewrite bool_decide_true by done. cbn [app]. rewrite token_0, atou32_to_string by done.
      destruct m; simpl in *; subst. done.
    + rewrite bool_decide_false by done. destruct m; simpl in *; subst. done.
Qed.

End roundtrip.

Section examples.
#[local] Existing Instance decimal_atoi.

Definition example_cas : MCCommand := mkMCCommand MC_CAS (str "key") [] 99 3600 5 7 true.

End examples.
