(* ===== verification/Crc32.v ===== *)
(** * CRC32C (src/server/raft/crc32.h)

    The table-driven [ComputeCrc32] that protects WAL records and RPC frames,
    its equivalence with the bitwise CRC-32C definition, and what it detects:
    every corruption confined to four consecutive bytes changes the checksum. *)

From S2P Require Import Prelude.

Definition kTable : list Z :=
  [
   0x00000000; 0xF26B8303; 0xE13B70F7; 0x1350F3F4; 0xC79A971F; 0x35F1141C;
   0x26A1E7E8; 0xD4CA64EB; 0x8AD958CF; 0x78B2DBCC; 0x6BE22838; 0x9989AB3B;
   0x4D43CFD0; 0xBF284CD3; 0xAC78BF27; 0x5E133C24; 0x105EC76F; 0xE235446C;
   0xF165B798; 0x030E349B; 0xD7C45070; 0x25AFD373; 0x36FF2087; 0xC494A384;
   0x9A879FA0; 0x68EC1CA3; 0x7BBCEF57; 0x89D76C54; 0x5D1D08BF; 0xAF768BBC;
   0xBC267848; 0x4E4DFB4B; 0x20BD8EDE; 0xD2D60DDD; 0xC186FE29; 0x33ED7D2A;
   0xE72719C1; 0x154C9AC2; 0x061C6936; 0xF477EA35; 0xAA64D611; 0x580F5512;
   0x4B5FA6E6; 0xB93425E5; 0x6DFE410E; 0x9F95C20D; 0x8CC531F9; 0x7EAEB2FA;
   0x30E349B1; 0xC288CAB2; 0xD1D83946; 0x23B3BA45; 0xF779DEAE; 0x05125DAD;
   0x1642AE59; 0xE4292D5A; 0xBA3A117E; 0x4851927D; 0x5B016189; 0xA96AE28A;
   0x7DA08661; 0x8FCB0562; 0x9C9BF696; 0x6EF07595; 0x417B1DBC; 0xB3109EBF;
   0xA0406D4B; 0x522BEE48; 0x86E18AA3; 0x748A09A0; 0x67DAFA54; 0x95B17957;
   0xCBA24573; 0x39C9C670; 0x2A993584; 0xD8F2B687; 0x0C38D26C; 0xFE53516F;
   0xED03A29B; 0x1F682198; 0x5125DAD3; 0xA34E59D0; 0xB01EAA24; 0x42752927;
   0x96BF4DCC; 0x64D4CECF; 0x77843D3B; 0x85EFBE38; 0xDBFC821C; 0x2997011F;
   0x3AC7F2EB; 0xC8AC71E8; 0x1C661503; 0xEE0D9600; 0xFD5D65F4; 0x0F36E6F7;
   0x61C69362; 0x93AD1061; 0x80FDE395; 0x72966096; 0xA65C047D; 0x5437877E;
   0x4767748A; 0xB50CF789; 0xEB1FCBAD; 0x197448AE; 0x0A24BB5A; 0xF84F3859;
   0x2C855CB2; 0xDEEEDFB1; 0xCDBE2C45; 0x3FD5AF46; 0x7198540D; 0x83F3D70E;
   0x90A324FA; 0x62C8A7F9; 0xB602C312; 0x44694011; 0x5739B3E5; 0xA55230E6;
   0xFB410CC2; 0x092A8FC1; 0x1A7A7C35; 0xE811FF36; 0x3CDB9BDD; 0xCEB018DE;
   0xDDE0EB2A; 0x2F8B6829; 0x82F63B78; 0x709DB87B; 0x63CD4B8F; 0x91A6C88C;
   0x456CAC67; 0xB7072F64; 0xA457DC90; 0x563C5F93; 0x082F63B7; 0xFA44E0B4;
   0xE9141340; 0x1B7F9043; 0xCFB5F4A8; 0x3DDE77AB; 0x2E8E845F; 0xDCE5075C;
   0x92A8FC17; 0x60C37F14; 0x73938CE0; 0x81F80FE3; 0x55326B08; 0xA759E80B;
   0xB4091BFF; 0x466298FC; 0x1871A4D8; 0xEA1A27DB; 0xF94AD42F; 0x0B21572C;
   0xDFEB33C7; 0x2D80B0C4; 0x3ED04330; 0xCCBBC033; 0xA24BB5A6; 0x502036A5;
   0x4370C551; 0xB11B4652; 0x65D122B9; 0x97BAA1BA; 0x84EA524E; 0x7681D14D;
   0x2892ED69; 0xDAF96E6A; 0xC9A99D9E; 0x3BC21E9D; 0xEF087A76; 0x1D63F975;
   0x0E330A81; 0xFC588982; 0xB21572C9; 0x407EF1CA; 0x532E023E; 0xA145813D;
   0x758FE5D6; 0x87E466D5; 0x94B49521; 0x66DF1622; 0x38CC2A06; 0xCAA7A905;
   0xD9F75AF1; 0x2B9CD9F2; 0xFF56BD19; 0x0D3D3E1A; 0x1E6DCDEE; 0xEC064EED;
   0xC38D26C4; 0x31E6A5C7; 0x22B65633; 0xD0DDD530; 0x0417B1DB; 0xF67C32D8;
   0xE52CC12C; 0x1747422F; 0x49547E0B; 0xBB3FFD08; 0xA86F0EFC; 0x5A048DFF;
   0x8ECEE914; 0x7CA56A17; 0x6FF599E3; 0x9D9E1AE0; 0xD3D3E1AB; 0x21B862A8;
   0x32E8915C; 0xC083125F; 0x144976B4; 0xE622F5B7; 0xF5720643; 0x07198540;
   0x590AB964; 0xAB613A67; 0xB831C993; 0x4A5A4A90; 0x9E902E7B; 0x6CFBAD78;
   0x7FAB5E8C; 0x8DC0DD8F; 0xE330A81A; 0x115B2B19; 0x020BD8ED; 0xF0605BEE;
   0x24AA3F05; 0xD6C1BC06; 0xC5914FF2; 0x37FACCF1; 0x69E9F0D5; 0x9B8273D6;
   0x88D28022; 0x7AB90321; 0xAE7367CA; 0x5C18E4C9; 0x4F48173D; 0xBD23943E;
   0xF36E6F75; 0x0105EC76; 0x12551F82; 0xE03E9C81; 0x34F4F86A; 0xC69F7B69;
   0xD5CF889D; 0x27A40B9E; 0x79B737BA; 0x8BDCB4B9; 0x988C474D; 0x6AE7C44E;
   0xBE2DA0A5; 0x4C4623A6; 0x5F16D052; 0xAD7D5351].

Definition not32 (z : Z) : Z := Z.lxor z 0xFFFFFFFF.

(** One iteration of the loop:
    [crc = kTable[(crc ^ *p) & 0xFF] ^ (crc >> 8)]. *)
Definition crc_step (crc c : Z) : Z :=
  Z.lxor (default 0 (kTable !! Z.to_nat (Z.land (Z.lxor crc c) 0xFF))) (Z.shiftr crc 8).

Definition ComputeCrc32 (data : bytes) (crc : Z) : Z :=
  not32 (fold_left crc_step data (not32 crc)).

(** ** The reference: one polynomial division step per bit *)

Definition kPoly : Z := 0x82F63B78.

Definition crc_bit (z : Z) : Z :=
  if Z.odd z then Z.lxor (Z.shiftr z 1) kPoly else Z.shiftr z 1.

Definition crc_bits (n : nat) (z : Z) : Z := Nat.iter n crc_bit z.

Definition crc_byte (crc c : Z) : Z := crc_bits 8 (Z.lxor crc c).

Definition crc32c_bitwise (data : bytes) (crc : Z) : Z :=
  not32 (fold_left crc_byte data (not32 crc)).

(** ** Linearity *)

Lemma crc_bit_lxor x y : crc_bit (Z.lxor x y) = Z.lxor (crc_bit x) (crc_bit y).
Proof.
  unfold crc_bit. rewrite <-!Z.bit0_odd, Z.lxor_spec, Z.shiftr_lxor.
  destruct (Z.testbit x 0), (Z.testbit y 0); cbn [xorb].
  - rewrite !Z.lxor_assoc. f_equal.
    by rewrite (Z.lxor_comm kPoly), Z.lxor_assoc, Z.lxor_nilpotent, Z.lxor_0_r.
  - by rewrite !Z.lxor_assoc, (Z.lxor_comm kPoly).
  - by rewrite Z.lxor_assoc.
  - done.
Qed.

Lemma crc_bits_lxor n x y : crc_bits n (Z.lxor x y) = Z.lxor (crc_bits n x) (crc_bits n y).
Proof. unfold crc_bits. induction n as [|n IH]; simpl; [done|]. by rewrite IH, crc_bit_lxor. Qed.

Lemma crc_bits_add n m z : crc_bits (n + m) z = crc_bits n (crc_bits m z).
Proof. unfold crc_bits. apply Nat.iter_add. Qed.

Lemma crc_bit_shiftl y n : crc_bit (Z.shiftl y (Z.of_nat (S n))) = Z.shiftl y (Z.of_nat n).
Proof.
  unfold crc_bit. rewrite <-Z.bit0_odd, Z.shiftl_spec_low by lia.
  rewrite Z.shiftr_shiftl_l by lia. f_equal. lia.
Qed.

Lemma crc_bits_shiftl n y : crc_bits n (Z.shiftl y (Z.of_nat n)) = y.
Proof.
  induction n as [|n IH]; [apply Z.shiftl_0_r|].
  replace (S n) with (n + 1)%nat at 1 by lia.
  rewrite crc_bits_add. unfold crc_bits at 2. cbn [Nat.iter]. by rewrite crc_bit_shiftl.
Qed.

Lemma crc_bits_0 n : crc_bits n 0 = 0.
Proof. unfold crc_bits. induction n as [|n IH]; simpl; [done|]. by rewrite IH. Qed.

(** ** Table and bitwise definition agree *)

Lemma split_low_byte z : z = Z.lxor (Z.land z 255) (Z.shiftl (Z.shiftr z 8) 8).
Proof.
  apply Z.bits_inj'. intros n Hn.
  rewrite Z.lxor_spec, Z.land_spec. change 255 with (Z.ones 8).
  destruct (decide (n < 8)).
  - rewrite Z.ones_spec_low, Z.shiftl_spec_low by lia. by rewrite andb_true_r, xorb_false_r.
  - rewrite Z.ones_spec_high, Z.shiftl_spec_high, Z.shiftr_spec by lia.
    rewrite andb_false_r. simpl. f_equal. lia.
Qed.

Lemma crc_bits_8 z : crc_bits 8 z = Z.lxor (crc_bits 8 (Z.land z 255)) (Z.shiftr z 8).
Proof. rewrite (split_low_byte z) at 1. by rewrite crc_bits_lxor, (crc_bits_shiftl 8). Qed.

Lemma kTable_bits_all :
  forallb (λ i, bool_decide (kTable !! i = Some (crc_bits 8 (Z.of_nat i)))) (seq 0 256) = true.
Proof. vm_compute. reflexivity. Qed.

Lemma land_255_range z : 0 ≤ Z.land z 255 < 256.
Proof. change 255 with (Z.ones 8). rewrite Z.land_ones by lia. by apply Z.mod_pos_bound. Qed.

Lemma kTable_bits z : default 0 (kTable !! Z.to_nat (Z.land z 255)) = crc_bits 8 (Z.land z 255).
Proof.
  pose proof (land_255_range z) as Hr. pose proof kTable_bits_all as H.
  rewrite forallb_forall in H.
  assert (kTable !! Z.to_nat (Z.land z 255) = Some (crc_bits 8 (Z.land z 255))) as ->; [|done].
  rewrite <-(Z2Nat.id (Z.land z 255)) at 2 by lia.
  apply (bool_decide_eq_true_1 _), H, in_seq. lia.
Qed.

Lemma shiftr_8_lxor_byte z c : 0 ≤ c < 256 → Z.shiftr (Z.lxor z c) 8 = Z.shiftr z 8.
Proof.
  intros. rewrite Z.shiftr_lxor, (Z.shiftr_div_pow2 c) by lia.
  rewrite (Z.div_small c) by (simpl; lia). apply Z.lxor_0_r.
Qed.

Lemma crc_step_byte crc c : 0 ≤ c < 256 → crc_step crc c = crc_byte crc c.
Proof.
  intros. unfold crc_step, crc_byte. rewrite kTable_bits, (crc_bits_8 (Z.lxor crc c)).
  by rewrite shiftr_8_lxor_byte.
Qed.

Lemma crc_fold_byte data crc :
  is_bytes data → fold_left crc_step data crc = fold_left crc_byte data crc.
Proof.
  intros Hd. revert crc. induction Hd as [|c data Hc _ IH]; intros crc; simpl; [done|].
  by rewrite crc_step_byte, IH.
Qed.

(** C29. The table-driven CRC of crc32.h computes the bitwise CRC-32C
    (reflected polynomial 0x82F63B78) of every byte string, from every seed. *)
Theorem ComputeCrc32_bitwise (data : bytes) (crc : Z) :
  is_bytes data → ComputeCrc32 data crc = crc32c_bitwise data crc.
Proof. intros. unfold ComputeCrc32, crc32c_bitwise. by rewrite crc_fold_byte. Qed.

(** The CRC-32C check value of the standard test vector. *)
Lemma ComputeCrc32_bitwise_witness :
  ComputeCrc32 (str "123456789") 0 = crc32c_bitwise (str "123456789") 0 ∧
  crc32c_bitwise (str "123456789") 0 = 0xE3069283.
Proof.
  split; [|vm_compute; reflexivity].
  apply ComputeCrc32_bitwise. by_decide.
Defined.

(** ** Range, chaining *)

Lemma shiftr_1_range z : 0 ≤ z < 2 ^ 32 → 0 ≤ Z.shiftr z 1 < 2 ^ 31.
Proof.
  intros. rewrite Z.shiftr_div_pow2 by lia. change (2 ^ 1) with 2.
  Z.to_euclidean_division_equations. lia.
Qed.

Lemma crc_bit_range z : 0 ≤ z < 2 ^ 32 → 0 ≤ crc_bit z < 2 ^ 32.
Proof.
  intros Hz. unfold crc_bit. pose proof (shiftr_1_range z Hz).
  assert (0 ≤ Z.shiftr z 1 < 2 ^ 32) by lia.
  case_match; [|done]. apply lxor_range; [lia|done|]. unfold kPoly. lia.
Qed.

Lemma crc_bits_range n z : 0 ≤ z < 2 ^ 32 → 0 ≤ crc_bits n z < 2 ^ 32.
Proof. unfold crc_bits. intros. induction n; simpl; [done|]. by apply crc_bit_range. Qed.

Lemma not32_range z : 0 ≤ z < 2 ^ 32 → 0 ≤ not32 z < 2 ^ 32.
Proof. intros. apply lxor_range; lia. Qed.

Lemma not32_involutive z : not32 (not32 z) = z.
Proof. unfold not32. by rewrite Z.lxor_assoc, Z.lxor_nilpotent, Z.lxor_0_r. Qed.

Lemma crc_fold_range data crc :
  is_bytes data → 0 ≤ crc < 2 ^ 32 → 0 ≤ fold_left crc_byte data crc < 2 ^ 32.
Proof.
  intros Hd. revert crc. induction Hd as [|c data Hc _ IH]; intros crc Hr; simpl; [done|].
  apply IH, crc_bits_range, lxor_range; lia.
Qed.

Lemma ComputeCrc32_range data crc :
  is_bytes data → 0 ≤ crc < 2 ^ 32 → 0 ≤ ComputeCrc32 data crc < 2 ^ 32.
Proof.
  intros. unfold ComputeCrc32. rewrite crc_fold_byte by done.
  by apply not32_range, crc_fold_range, not32_range.
Qed.

(** The seed argument chains two buffers. *)
Lemma ComputeCrc32_app a b crc :
  ComputeCrc32 (a ++ b) crc = ComputeCrc32 b (ComputeCrc32 a crc).
Proof. unfold ComputeCrc32. by rewrite fold_left_app, not32_involutive. Qed.

(** ** Error detection *)

Lemma crc_bit_kernel z : 0 ≤ z < 2 ^ 32 → crc_bit z = 0 → z = 0.
Proof.
  intros Hz. unfold crc_bit. pose proof (shiftr_1_range z Hz). destruct (Z.odd z) eqn:Ho.
  - intros E%Z.lxor_eq. unfold kPoly in E. lia.
  - intros E. rewrite <-Z.div2_spec in E. pose proof (Z.div2_odd z) as H2.
    rewrite Ho, E in H2. done.
Qed.

Lemma crc_bits_kernel n z : 0 ≤ z < 2 ^ 32 → crc_bits n z = 0 → z = 0.
Proof.
  intros Hz. induction n as [|n IH]; [done|]. unfold crc_bits. simpl. intros H.
  apply IH, crc_bit_kernel; [by apply crc_bits_range|done].
Qed.

Lemma crc_bits_inj n x y :
  0 ≤ x < 2 ^ 32 → 0 ≤ y < 2 ^ 32 → crc_bits n x = crc_bits n y → x = y.
Proof.
  intros Hx Hy E. apply Z.lxor_eq, (crc_bits_kernel n); [by apply lxor_range|].
  by rewrite crc_bits_lxor, E, Z.lxor_nilpotent.
Qed.

Lemma crc_fold_inj data x y :
  is_bytes data → 0 ≤ x < 2 ^ 32 → 0 ≤ y < 2 ^ 32 →
  fold_left crc_byte data x = fold_left crc_byte data y → x = y.
Proof.
  intros Hd. revert x y. induction Hd as [|c data Hc _ IH]; intros x y Hx Hy; simpl; [done|].
  intros E. apply IH in E; [|by apply crc_bits_range, lxor_range; lia..].
  apply crc_bits_inj in E; [|apply lxor_range; lia..].
  rewrite <-(Z.lxor_0_r x), <-(Z.lxor_0_r y), <-(Z.lxor_nilpotent c), <-!Z.lxor_assoc.
  by rewrite E.
Qed.

Lemma le_val_range w : is_bytes w → 0 ≤ le_val w < 2 ^ (8 * zlen w).
Proof.
  induction 1 as [|c w Hc _ IH]; [by vm_compute|].
  rewrite zlen_cons. cbn [le_val]. replace (8 * (1 + zlen w)) with (8 + 8 * zlen w) by lia.
  rewrite Z.pow_add_r by (unfold zlen; lia). change (2 ^ 8) with 256.
  generalize dependent (2 ^ (8 * zlen w)). intros. lia.
Qed.

(** Feeding a window of bytes into the register is the same as xoring the whole
    little-endian window in first and then shifting it through. *)
Lemma crc_fold_window w x :
  is_bytes w → fold_left crc_byte w x = crc_bits (8 * length w) (Z.lxor x (le_val w)).
Proof.
  intros Hw. revert x. induction Hw as [|c w Hc Hw IH]; intros x.
  - simpl. by rewrite Z.lxor_0_r.
  - cbn [fold_left le_val length]. rewrite IH. unfold crc_byte.
    replace (8 * S (length w))%nat with (8 * length w + 8)%nat by lia.
    rewrite crc_bits_add. f_equal.
    replace (c + 256 * le_val w) with (Z.lxor c (Z.shiftl (le_val w) 8)).
    + by rewrite <-Z.lxor_assoc, (crc_bits_lxor 8 (Z.lxor x c)), (crc_bits_shiftl 8).
    + rewrite <-Z.add_nocarry_lxor by (apply land_shiftl_low; lia).
      rewrite Z.shiftl_mul_pow2 by lia. lia.
Qed.

Lemma le_val_inj w w' :
  is_bytes w → is_bytes w' → length w = length w' → le_val w = le_val w' → w = w'.
Proof.
  intros Hw. revert w'. induction Hw as [|c w Hc _ IH]; intros [|c' w'] Hw' Hl E; try done.
  inversion Hw'; subst. simpl in *. assert (c = c') as -> by lia. f_equal.
  apply IH; [done|lia|lia].
Qed.

Lemma crc_fold_burst p w w' s x :
  is_bytes (p ++ w ++ s) → is_bytes w' → length w = length w' → (length w ≤ 4)%nat →
  0 ≤ x < 2 ^ 32 →
  fold_left crc_byte (p ++ w ++ s) x = fold_left crc_byte (p ++ w' ++ s) x → w = w'.
Proof.
  intros [Hp [Hw Hs]%Forall_app]%Forall_app Hw' Hl H4 Hx E. rewrite !fold_left_app in E.
  pose proof (crc_fold_range p x Hp Hx) as Hr.
  apply crc_fold_inj in E; [|done|by apply crc_fold_range..].
  assert (∀ v, is_bytes v → length v = length w → 0 ≤ le_val v < 2 ^ 32) as Hv.
  { intros v Hv Hlv. pose proof (le_val_range v Hv). unfold zlen in *.
    enough (2 ^ (8 * Z.of_nat (length v)) ≤ 2 ^ 32) by lia. apply Z.pow_le_mono_r; lia. }
  rewrite (crc_fold_window w), (crc_fold_window w'), Hl in E by done.
  apply crc_bits_inj in E; [|by apply lxor_range; [lia|done|apply Hv]..].
  apply le_val_inj; [done..|].
  apply (f_equal (Z.lxor (fold_left crc_byte p x))) in E.
  by rewrite <-!Z.lxor_assoc, Z.lxor_nilpotent, !Z.lxor_0_l in E.
Qed.

Opaque crc_bits.

(** A stored checksum matches exactly when running the register over the data
    and then over the little-endian checksum ends in a fixed residue. *)
Lemma crc_residue data c4 crc :
  is_bytes data → is_bytes c4 → length c4 = 4%nat → 0 ≤ crc < 2 ^ 32 →
  ComputeCrc32 data crc = le_val c4 ↔
  fold_left crc_byte (data ++ c4) (not32 crc) = crc_bits 32 0xFFFFFFFF.
Proof.
  intros Hd Hc Hl Hr. unfold ComputeCrc32. rewrite fold_left_app, crc_fold_byte by done.
  pose proof (crc_fold_range data _ Hd (not32_range _ Hr)) as Hs.
  set (st := fold_left crc_byte data (not32 crc)) in *. clearbody st.
  rewrite crc_fold_window, Hl by done. change (8 * 4)%nat with 32%nat.
  pose proof (le_val_range c4 Hc) as Hv. unfold zlen in Hv. rewrite Hl in Hv.
  change (8 * Z.of_nat 4) with 32 in Hv. unfold not32. split.
  - intros <-. f_equal.
    by rewrite (Z.lxor_comm st 0xFFFFFFFF), (Z.lxor_comm st), Z.lxor_assoc, Z.lxor_nilpotent.
  - intros E. apply (crc_bits_inj 32) in E; [|by apply lxor_range|lia].
    rewrite <-E. by rewrite <-Z.lxor_assoc, Z.lxor_nilpotent.
Qed.

Transparent crc_bits.

(** Two buffers that differ only inside a window of at most four
    consecutive bytes have different checksums: every such corruption of a WAL
    record or of an RPC frame is detected. *)
Theorem ComputeCrc32_detects_burst (p w w' s : bytes) (crc : Z) :
  is_bytes (p ++ w ++ s) → is_bytes w' → length w = length w' → (length w ≤ 4)%nat →
  0 ≤ crc < 2 ^ 32 → w ≠ w' → ComputeCrc32 (p ++ w ++ s) crc ≠ ComputeCrc32 (p ++ w' ++ s) crc.
Proof.
  intros Hb Hw' Hl H4 Hc Hne E. unfold ComputeCrc32 in E.
  apply (f_equal not32) in E. rewrite !not32_involutive in E.
  rewrite !crc_fold_byte in E; [|apply Forall_app in Hb as [? [??]%Forall_app];
    repeat (apply Forall_app; split); done|done].
  apply Hne. eapply crc_fold_burst; [..|done]; try done. by apply not32_range.
Qed.

Lemma ComputeCrc32_detects_burst_witness :
  ComputeCrc32 (str "ab" ++ str "cdef" ++ str "gh") 0 ≠
  ComputeCrc32 (str "ab" ++ str "cXeY" ++ str "gh") 0.
Proof.
  apply ComputeCrc32_detects_burst; by_decide.
Defined.
