(* ===== verification/RaftTypes.v ===== *)
(** * Shared Raft data types

    The structs and enums of src/server/raft/raft_types.h and of the RPC
    headers (vote_rpc.h, heartbeat_rpc.h, append_entries_rpc.h,
    install_snapshot_rpc.h, read_index_rpc.h, timeout_now_rpc.h).  Terms, log
    indices and group ids are [Z] at their C++ width; a field [f] of a struct
    is the projection [<prefix>_f]. *)

From S2P Require Import Prelude.

(** [using NodeId = std::string]. *)
Definition NodeId : Type := bytes.
#[export] Instance NodeId_eq_dec : EqDecision NodeId := list_eq_dec.
#[export] Instance NodeId_countable : Countable NodeId := list_countable.

Inductive RaftRole : Type := Follower | Candidate | Leader.
#[export] Instance RaftRole_eq_dec : EqDecision RaftRole.
Proof. solve_decision. Defined.

Record LogEntry : Type := mkLogEntry {
  le_term : Z;
  le_index : Z;
  le_command : bytes
}.
#[export] Instance LogEntry_eta : Eta LogEntry := fun r =>
  mkLogEntry (le_term r) (le_index r) (le_command r).
#[export] Instance LogEntry_eq_dec : EqDecision LogEntry.
Proof. solve_decision. Defined.

Record VoteRequest : Type := mkVoteRequest {
  vreq_group_id : Z;
  vreq_term : Z;
  vreq_candidate_id : NodeId;
  vreq_last_log_index : Z;
  vreq_last_log_term : Z
}.
#[export] Instance VoteRequest_eta : Eta VoteRequest := fun r =>
  mkVoteRequest (vreq_group_id r) (vreq_term r) (vreq_candidate_id r) (vreq_last_log_index r) (vreq_last_log_term r).
#[export] Instance VoteRequest_eq_dec : EqDecision VoteRequest.
Proof. solve_decision. Defined.

Record VoteResponse : Type := mkVoteResponse {
  vrsp_group_id : Z;
  vrsp_term : Z;
  vrsp_vote_granted : bool
}.
#[export] Instance VoteResponse_eta : Eta VoteResponse := fun r =>
  mkVoteResponse (vrsp_group_id r) (vrsp_term r) (vrsp_vote_granted r).
#[export] Instance VoteResponse_eq_dec : EqDecision VoteResponse.
Proof. solve_decision. Defined.

Record HeartbeatRequest : Type := mkHeartbeatRequest {
  hreq_group_id : Z;
  hreq_term : Z;
  hreq_leader_id : NodeId;
  hreq_leader_commit : Z
}.
#[export] Instance HeartbeatRequest_eta : Eta HeartbeatRequest := fun r =>
  mkHeartbeatRequest (hreq_group_id r) (hreq_term r) (hreq_leader_id r) (hreq_leader_commit r).
#[export] Instance HeartbeatRequest_eq_dec : EqDecision HeartbeatRequest.
Proof. solve_decision. Defined.

Record HeartbeatResponse : Type := mkHeartbeatResponse {
  hrsp_group_id : Z;
  hrsp_term : Z;
  hrsp_success : bool;
  hrsp_last_log_index : Z
}.
#[export] Instance HeartbeatResponse_eta : Eta HeartbeatResponse := fun r =>
  mkHeartbeatResponse (hrsp_group_id r) (hrsp_term r) (hrsp_success r) (hrsp_last_log_index r).
#[export] Instance HeartbeatResponse_eq_dec : EqDecision HeartbeatResponse.
Proof. solve_decision. Defined.

Record AppendEntriesRequest : Type := mkAppendEntriesRequest {
  areq_group_id : Z;
  areq_term : Z;
  areq_leader_id : NodeId;
  areq_prev_log_index : Z;
  areq_prev_log_term : Z;
  areq_entries : list LogEntry;
  areq_leader_commit : Z
}.
#[export] Instance AppendEntriesRequest_eta : Eta AppendEntriesRequest := fun r =>
  mkAppendEntriesRequest (areq_group_id r) (areq_term r) (areq_leader_id r) (areq_prev_log_index r) (areq_prev_log_term r) (areq_entries r) (areq_leader_commit r).
#[export] Instance AppendEntriesRequest_eq_dec : EqDecision AppendEntriesRequest.
Proof. solve_decision. Defined.

Record AppendEntriesResponse : Type := mkAppendEntriesResponse {
  arsp_group_id : Z;
  arsp_term : Z;
  arsp_success : bool;
  arsp_last_log_index : Z
}.
#[export] Instance AppendEntriesResponse_eta : Eta AppendEntriesResponse := fun r =>
  mkAppendEntriesResponse (arsp_group_id r) (arsp_term r) (arsp_success r) (arsp_last_log_index r).
#[export] Instance AppendEntriesResponse_eq_dec : EqDecision AppendEntriesResponse.
Proof. solve_decision. Defined.

Record InstallSnapshotRequest : Type := mkInstallSnapshotRequest {
  sreq_group_id : Z;
  sreq_term : Z;
  sreq_leader_id : NodeId;
  sreq_last_included_index : Z;
  sreq_last_included_term : Z;
  sreq_offset : Z;
  sreq_done : bool;
  sreq_data : bytes
}.
#[export] Instance InstallSnapshotRequest_eta : Eta InstallSnapshotRequest := fun r =>
  mkInstallSnapshotRequest (sreq_group_id r) (sreq_term r) (sreq_leader_id r) (sreq_last_included_index r) (sreq_last_included_term r) (sreq_offset r) (sreq_done r) (sreq_data r).
#[export] Instance InstallSnapshotRequest_eq_dec : EqDecision InstallSnapshotRequest.
Proof. solve_decision. Defined.

Record InstallSnapshotResponse : Type := mkInstallSnapshotResponse {
  srsp_group_id : Z;
  srsp_term : Z;
  srsp_success : bool
}.
#[export] Instance InstallSnapshotResponse_eta : Eta InstallSnapshotResponse := fun r =>
  mkInstallSnapshotResponse (srsp_group_id r) (srsp_term r) (srsp_success r).
#[export] Instance InstallSnapshotResponse_eq_dec : EqDecision InstallSnapshotResponse.
Proof. solve_decision. Defined.

Record ReadIndexRequest : Type := mkReadIndexRequest {
  rreq_group_id : Z;
  rreq_term : Z;
  rreq_leader_id : NodeId;
  rreq_request_id : Z
}.
#[export] Instance ReadIndexRequest_eta : Eta ReadIndexRequest := fun r =>
  mkReadIndexRequest (rreq_group_id r) (rreq_term r) (rreq_leader_id r) (rreq_request_id r).
#[export] Instance ReadIndexRequest_eq_dec : EqDecision ReadIndexRequest.
Proof. solve_decision. Defined.

Record ReadIndexResponse : Type := mkReadIndexResponse {
  rrsp_group_id : Z;
  rrsp_term : Z;
  rrsp_success : bool;
  rrsp_commit_index : Z
}.
#[export] Instance ReadIndexResponse_eta : Eta ReadIndexResponse := fun r =>
  mkReadIndexResponse (rrsp_group_id r) (rrsp_term r) (rrsp_success r) (rrsp_commit_index r).
#[export] Instance ReadIndexResponse_eq_dec : EqDecision ReadIndexResponse.
Proof. solve_decision. Defined.

Record TimeoutNowRequest : Type := mkTimeoutNowRequest {
  treq_group_id : Z;
  treq_term : Z;
  treq_leader_id : NodeId
}.
#[export] Instance TimeoutNowRequest_eta : Eta TimeoutNowRequest := fun r =>
  mkTimeoutNowRequest (treq_group_id r) (treq_term r) (treq_leader_id r).
#[export] Instance TimeoutNowRequest_eq_dec : EqDecision TimeoutNowRequest.
Proof. solve_decision. Defined.

Record TimeoutNowResponse : Type := mkTimeoutNowResponse {
  trsp_group_id : Z;
  trsp_term : Z;
  trsp_accepted : bool
}.
#[export] Instance TimeoutNowResponse_eta : Eta TimeoutNowResponse := fun r =>
  mkTimeoutNowResponse (trsp_group_id r) (trsp_term r) (trsp_accepted r).
#[export] Instance TimeoutNowResponse_eq_dec : EqDecision TimeoutNowResponse.
Proof. solve_decision. Defined.

Record ClusterConfig : Type := mkClusterConfig {
  cc_version : Z;
  cc_voters : gset NodeId;
  cc_learners : gset NodeId
}.
#[export] Instance ClusterConfig_eta : Eta ClusterConfig := fun r =>
  mkClusterConfig (cc_version r) (cc_voters r) (cc_learners r).

Inductive ConfigState : Type := kStable | kJoint.
#[export] Instance ConfigState_eq_dec : EqDecision ConfigState.
Proof. solve_decision. Defined.

Record JointConfig : Type := mkJointConfig {
  jc_old_config : ClusterConfig;
  jc_new_config : ClusterConfig
}.
#[export] Instance JointConfig_eta : Eta JointConfig := fun r =>
  mkJointConfig (jc_old_config r) (jc_new_config r).

Inductive ReadConsistency : Type := kLocal | kLinearizable.

Inductive TransferState : Type := kNone | kRequested | kWaitingCatchUp | kWaitingElection.
#[export] Instance TransferState_eq_dec : EqDecision TransferState.
Proof. solve_decision. Defined.

Record LeaderTransferContext : Type := mkLeaderTransferContext {
  lt_target : NodeId;
  lt_state : TransferState;
  lt_start_ms : Z
}.
#[export] Instance LeaderTransferContext_eta : Eta LeaderTransferContext := fun r =>
  mkLeaderTransferContext (lt_target r) (lt_state r) (lt_start_ms r).

(** [LeaderTransferContext::IsActive]. *)
Definition IsActive (c : LeaderTransferContext) : bool := negb (bool_decide (lt_state c = kNone)).

(** [LeaderTransferContext::Reset]. *)
Definition transfer_Reset (c : LeaderTransferContext) : LeaderTransferContext :=
  mkLeaderTransferContext [] kNone 0.

Record SnapshotAnchor : Type := mkSnapshotAnchor {
  anchor_index : Z;
  anchor_term : Z
}.
#[export] Instance SnapshotAnchor_eta : Eta SnapshotAnchor := fun r =>
  mkSnapshotAnchor (anchor_index r) (anchor_term r).

Definition default_LogEntry : LogEntry := mkLogEntry 0 0 [].
Definition default_anchor : SnapshotAnchor := mkSnapshotAnchor 0 0.
Definition default_ClusterConfig : ClusterConfig := mkClusterConfig 0 ∅ ∅.
