(* ===== verification/RaftCodec.v ===== *)
(** * Wire codec of the Raft RPCs (src/server/raft/raft_codec.h, raft_codec.cc)

    The CRC-protected frame ([EncodeRpcFrame], [ParseRpcFrame]) and the twelve
    payload codecs, which copy a struct into a protobuf message and back.  The
    protobuf runtime and the generated classes are a parameter
    ([PbMessage]); the messages themselves are those of
    src/server/raft/proto/raft_rpc.proto. *)

From S2P Require Import Prelude Crc32 RaftTypes.

(** ** Frames *)

(** [enum class RpcType : uint8_t]: a value of the underlying type, with the
    named enumerators. *)
Abbreviation RpcType := Z.
Definition kAppendEntriesReq : RpcType := 1.
Definition kAppendEntriesRsp : RpcType := 2.
Definition kVoteReq : RpcType := 3.
Definition kVoteRsp : RpcType := 4.
Definition kHeartbeatReq : RpcType := 5.
Definition kHeartbeatRsp : RpcType := 6.
Definition kInstallSnapshotReq : RpcType := 7.
Definition kInstallSnapshotRsp : RpcType := 8.
Definition kReadIndexReq : RpcType := 9.
Definition kReadIndexRsp : RpcType := 10.
Definition kTimeoutNowReq : RpcType := 11.
Definition kTimeoutNowRsp : RpcType := 12.

Definition kRpcFrameMagic : bytes := str "RF01".
Definition kRpcFrameHeaderSize : Z := 4 + 1 + 4 + 4.
Definition kRpcFrameCrcSize : Z := 4.

Definition AppendU32LE (s : bytes) (v : Z) : bytes :=
  s ++ [Z.land v 0xFF; Z.land (Z.shiftr v 8) 0xFF; Z.land (Z.shiftr v 16) 0xFF;
        Z.land (Z.shiftr v 24) 0xFF].

(** The four-byte little-endian read that the code writes out at each use:
    [c[0] | c[1] << 8 | c[2] << 16 | c[3] << 24]. *)
Definition u32_chunk (c : bytes) : Z :=
  Z.lor (Z.lor (Z.lor (byte_at c 0) (Z.shiftl (byte_at c 1) 8)) (Z.shiftl (byte_at c 2) 16))
        (Z.shiftl (byte_at c 3) 24).

Definition EncodeRpcFrame (type : RpcType) (seq : Z) (payload : bytes) : bytes :=
  let frame := kRpcFrameMagic ++ [type] in
  let frame := AppendU32LE frame seq in
  let frame := AppendU32LE frame (u32 (zlen payload)) in
  let frame := frame ++ payload in
  AppendU32LE frame (ComputeCrc32 frame 0).

Definition ParseRpcFrame (frame : bytes) : option (RpcType * Z * bytes) :=
  if zlen frame <? kRpcFrameHeaderSize + kRpcFrameCrcSize then None
  else if negb (bool_decide (substr frame 0 4 = kRpcFrameMagic)) then None
  else
    let seq_val := u32_chunk (substr frame 5 4) in
    let len := u32_chunk (substr frame 9 4) in
    if zlen frame - kRpcFrameHeaderSize - kRpcFrameCrcSize <? len then None
    else
      let body := substr frame 0 (kRpcFrameHeaderSize + len) in
      let expected := u32_chunk (substr frame (kRpcFrameHeaderSize + len) 4) in
      if negb (ComputeCrc32 body 0 =? expected) then None
      else Some (byte_at frame 4, seq_val, substr frame kRpcFrameHeaderSize len).

(** *** Byte-level readers and writers *)

Lemma AppendU32LE_le s v : AppendU32LE s v = s ++ le_bytes 4 v.
Proof.
  unfold AppendU32LE. f_equal. cbn [le_bytes].
  change 0xFF with (Z.ones 8). rewrite !Z.land_ones, !Z.shiftr_div_pow2 by lia.
  rewrite !Z.div_div by lia. done.
Qed.

Lemma u32_chunk_le c : is_bytes c → length c = 4%nat → u32_chunk c = le_val c.
Proof.
  intros Hb Hl. destruct c as [|a [|b [|d [|e [|? ?]]]]]; try done.
  repeat match goal with H : is_bytes _ |- _ => inversion H; clear H; subst
                       | H : Forall _ (_ :: _) |- _ => inversion H; clear H; subst end.
  unfold u32_chunk, byte_at. simpl.
  rewrite (lor_shiftl 8), (lor_shiftl 16), (lor_shiftl 24) by lia. lia.
Qed.

Lemma length_substr s pos n :
  0 ≤ pos → 0 ≤ n → pos + n ≤ zlen s → length (substr s pos n) = Z.to_nat n.
Proof. unfold substr, zlen. intros. rewrite length_take, length_drop. lia. Qed.

Lemma u32_chunk_substr s pos :
  is_bytes s → 0 ≤ pos → pos + 4 ≤ zlen s → u32_chunk (substr s pos 4) = le_val (substr s pos 4).
Proof. intros. apply u32_chunk_le; [by apply is_bytes_substr | by rewrite length_substr]. Qed.

Lemma le_val_bytes_u32 v : 0 ≤ v ≤ U32_MAX → le_val (le_bytes 4 v) = v.
Proof. unfold U32_MAX. intros. apply le_val_bytes_small. simpl. lia. Qed.

(** The bytes before the checksum. *)
Definition frame_body (type : RpcType) (seq : Z) (payload : bytes) : bytes :=
  kRpcFrameMagic ++ [type] ++ le_bytes 4 seq ++ le_bytes 4 (zlen payload) ++ payload.

Lemma EncodeRpcFrame_body type seq payload :
  zlen payload ≤ U32_MAX →
  EncodeRpcFrame type seq payload =
    frame_body type seq payload ++ le_bytes 4 (ComputeCrc32 (frame_body type seq payload) 0).
Proof.
  intros. unfold EncodeRpcFrame. rewrite !AppendU32LE_le, u32_small by (pose proof (zlen_nonneg payload); lia).
  by rewrite <-!app_assoc.
Qed.

Lemma frame_body_is_bytes type seq payload :
  0 ≤ type < 256 → is_bytes payload → is_bytes (frame_body type seq payload).
Proof.
  intros. unfold frame_body, kRpcFrameMagic. auto 10 with dfly.
Qed.

Lemma zlen_frame_body type seq payload : zlen (frame_body type seq payload) = 13 + zlen payload.
Proof. unfold frame_body. autorewrite with dfly_simpl. change (zlen kRpcFrameMagic) with 4. lia. Qed.

Lemma substr_at s p m k pos n :
  s = p ++ m ++ k → zlen p = pos → zlen m = n → substr s pos n = m.
Proof. intros -> <- <-. apply substr_app. Qed.

(** The fields of a frame, read back at their offsets. *)
Section frame_fields.
Context (m : bytes) (type : Z) (sq ln payload c4 junk : bytes).
Context (Hm : zlen m = 4) (Hsq : zlen sq = 4) (Hln : zlen ln = 4) (Hc4 : zlen c4 = 4).

Definition framed : bytes := m ++ [type] ++ sq ++ ln ++ payload ++ c4 ++ junk.

Lemma framed_fields :
  zlen framed = 17 + zlen payload + zlen junk ∧
  substr framed 0 4 = m ∧ byte_at framed 4 = type ∧ substr framed 5 4 = sq ∧
  substr framed 9 4 = ln ∧ substr framed 13 (zlen payload) = payload ∧
  substr framed 0 (13 + zlen payload) = m ++ [type] ++ sq ++ ln ++ payload ∧
  substr framed (13 + zlen payload) 4 = c4.
Proof.
  unfold framed. split_and!.
  - autorewrite with dfly_simpl. lia.
  - by eapply (substr_at _ []).
  - rewrite <-Hm. apply byte_at_app.
  - eapply (substr_at _ (m ++ [type])); [by rewrite <-app_assoc|..|done].
    autorewrite with dfly_simpl. lia.
  - eapply (substr_at _ (m ++ [type] ++ sq)); [by rewrite <-!app_assoc|..|done].
    autorewrite with dfly_simpl. lia.
  - eapply (substr_at _ (m ++ [type] ++ sq ++ ln)); [by rewrite <-!app_assoc|..|done].
    autorewrite with dfly_simpl. lia.
  - eapply (substr_at _ [] _ (c4 ++ junk)); [by rewrite <-!app_assoc|done|].
    autorewrite with dfly_simpl. lia.
  - eapply (substr_at _ (m ++ [type] ++ sq ++ ln ++ payload)); [by rewrite <-!app_assoc|..|done].
    autorewrite with dfly_simpl. lia.
Qed.
End frame_fields.

Lemma ParseRpcFrame_framed type seq payload c4 junk :
  0 ≤ seq ≤ U32_MAX → zlen payload ≤ U32_MAX → is_bytes c4 → zlen c4 = 4 →
  ParseRpcFrame (frame_body type seq payload ++ c4 ++ junk) =
    if ComputeCrc32 (frame_body type seq payload) 0 =? le_val c4
    then Some (type, seq, payload) else None.
Proof.
  intros Hs Hp Hc Hl. pose proof (zlen_nonneg payload). pose proof (zlen_nonneg junk).
  destruct (framed_fields kRpcFrameMagic type (le_bytes 4 seq) (le_bytes 4 (zlen payload))
              payload c4 junk) as (E0 & E1 & E2 & E3 & E4 & E5 & E6 & E7); [done..|].
  assert (frame_body type seq payload ++ c4 ++ junk =
          framed kRpcFrameMagic type (le_bytes 4 seq) (le_bytes 4 (zlen payload)) payload c4 junk)
    as -> by (unfold frame_body, framed; by rewrite <-!app_assoc).
  unfold ParseRpcFrame, kRpcFrameHeaderSize, kRpcFrameCrcSize in *.
  change (4 + 1 + 4 + 4) with 13. rewrite E1, E3, E4.
  rewrite !(u32_chunk_le (le_bytes 4 _)) by auto with dfly. rewrite !le_val_bytes_u32 by lia.
  rewrite E2, E5, E6, E7, (u32_chunk_le c4) by (unfold zlen in *; auto; lia).
  rewrite E0, bool_decide_true by done. unfold frame_body.
  destruct (Z.ltb_spec (17 + zlen payload + zlen junk) (13 + 4)); [lia|].
  destruct (Z.ltb_spec (17 + zlen payload + zlen junk - 13 - 4) (zlen payload)); [lia|].
  cbv iota. by destruct (_ =? le_val c4).
Qed.

Lemma ParseRpcFrame_roundtrip type seq payload junk :
  0 ≤ type < 256 → 0 ≤ seq ≤ U32_MAX → is_bytes payload → zlen payload ≤ U32_MAX →
  ParseRpcFrame (EncodeRpcFrame type seq payload ++ junk) = Some (type, seq, payload).
Proof.
  intros Ht Hs Hb Hp. rewrite EncodeRpcFrame_body by done.
  rewrite <-app_assoc, ParseRpcFrame_framed by auto with dfly.
  pose proof (ComputeCrc32_range (frame_body type seq payload) 0
                (frame_body_is_bytes _ _ _ Ht Hb) ltac:(lia)).
  rewrite le_val_bytes_u32 by (unfold U32_MAX; lia). by rewrite Z.eqb_refl.
Qed.

(** *** Rejection *)

Lemma ParseRpcFrame_Some frame r :
  is_bytes frame → ParseRpcFrame frame = Some r →
  let len := le_val (substr frame 9 4) in
  0 ≤ len ∧ 17 + len ≤ zlen frame ∧
  ComputeCrc32 (substr frame 0 (13 + len)) 0 = le_val (substr frame (13 + len) 4).
Proof.
  intros Hb. unfold ParseRpcFrame, kRpcFrameHeaderSize, kRpcFrameCrcSize.
  change (4 + 1 + 4 + 4) with 13.
  case_match eqn:E0; [done|]. case_match; [done|]. bool_norm.
  rewrite (u32_chunk_substr frame 9) by (done || lia).
  pose proof (le_val_range (substr frame 9 4) (is_bytes_substr _ _ _ Hb)).
  set (len := le_val _) in *. case_match; [done|]. bool_norm.
  rewrite (u32_chunk_substr frame (13 + len)) by (done || lia).
  case_match eqn:E3; [done|]. bool_norm. intros _. lia.
Qed.

Lemma substr_halves s n k : 0 ≤ n → 0 ≤ k → zlen s = n + k → s = substr s 0 n ++ substr s n k.
Proof.
  unfold substr, zlen. intros. rewrite drop_0, (take_ge (drop _ _)), take_drop; [done|].
  rewrite length_drop. lia.
Qed.

Lemma ParseRpcFrame_residue f r :
  is_bytes f → zlen f = 17 + le_val (substr f 9 4) → ParseRpcFrame f = Some r →
  fold_left crc_byte f (not32 0) = crc_bits 32 0xFFFFFFFF.
Proof.
  intros Hb Hz (H0 & _ & Hc)%ParseRpcFrame_Some; [|done].
  set (len := le_val _) in *. clearbody len.
  apply crc_residue in Hc; [|by apply is_bytes_substr..|rewrite length_substr; lia|lia].
  rewrite <-substr_halves in Hc by lia. done.
Qed.

Lemma EncodeRpcFrame_shape type seq payload :
  0 ≤ type < 256 → 0 ≤ seq ≤ U32_MAX → is_bytes payload → zlen payload ≤ U32_MAX →
  let f := EncodeRpcFrame type seq payload in
  is_bytes f ∧ zlen f = 17 + zlen payload ∧ le_val (substr f 9 4) = zlen payload ∧
  ParseRpcFrame f = Some (type, seq, payload).
Proof.
  intros Ht Hs Hb Hp. cbv zeta. pose proof (zlen_nonneg payload).
  pose proof (frame_body_is_bytes type seq payload Ht Hb) as Hbb.
  pose proof (ComputeCrc32_range _ 0 Hbb ltac:(lia)).
  rewrite EncodeRpcFrame_body by done. split_and!.
  - auto with dfly.
  - rewrite zlen_app, zlen_frame_body, zlen_le_bytes. lia.
  - generalize (ComputeCrc32 (frame_body type seq payload) 0). intros crc.
    destruct (framed_fields kRpcFrameMagic type (le_bytes 4 seq) (le_bytes 4 (zlen payload))
      payload (le_bytes 4 crc) []) as (_ & _ & _ & _ & E4 & _); [done..|].
    unfold framed in E4. rewrite app_nil_r in E4. unfold frame_body.
    rewrite <-!app_assoc, E4. apply le_val_bytes_u32. lia.
  - rewrite <-(app_nil_r (_ ++ _)), <-app_assoc, ParseRpcFrame_framed by auto with dfly.
    rewrite le_val_bytes_u32 by (unfold U32_MAX; lia). by rewrite Z.eqb_refl.
Qed.

(** C30. A frame in which a window of at most four consecutive bytes was
    corrupted, its length field left intact, is rejected wherever the window
    lies (header, payload, checksum, or across them). *)
Theorem ParseRpcFrame_rejects_burst (type seq : Z) (payload p w w' s : bytes) :
  0 ≤ type < 256 → 0 ≤ seq ≤ U32_MAX → is_bytes payload → zlen payload ≤ U32_MAX →
  EncodeRpcFrame type seq payload = p ++ w ++ s →
  is_bytes w' → length w = length w' → (length w ≤ 4)%nat → w ≠ w' →
  substr (p ++ w' ++ s) 9 4 = substr (p ++ w ++ s) 9 4 →
  ParseRpcFrame (p ++ w' ++ s) = None.
Proof.
  intros Ht Hs Hb Hp E Hw' Hl H4 Hne Hlen.
  destruct (EncodeRpcFrame_shape type seq payload Ht Hs Hb Hp) as (Hf & Hz & Hlv & Hok).
  rewrite E in *. destruct (ParseRpcFrame (p ++ w' ++ s)) as [r|] eqn:Ep; [|done]. exfalso.
  assert (is_bytes (p ++ w' ++ s)) as Hf'.
  { apply Forall_app in Hf as [? [? ?]%Forall_app]. auto with dfly. }
  apply ParseRpcFrame_residue in Ep; [|done|].
  - apply ParseRpcFrame_residue in Hok; [|done|lia].
    apply Hne, (crc_fold_burst p w w' s (not32 0)); [done..|by_decide|congruence].
  - rewrite Hlen, Hlv, <-Hz. unfold zlen. rewrite !length_app. lia.
Qed.

(** A flipped bit in the sequence number and a damaged last payload byte
    together with the first two checksum bytes. *)
Lemma ParseRpcFrame_rejects_burst_witness :
  let f := EncodeRpcFrame kVoteReq 7 (str "payload") in
  ParseRpcFrame (take 5 f ++ [6] ++ drop 6 f) = None ∧
  ParseRpcFrame (take 19 f ++ [1; 2; 3] ++ drop 22 f) = None.
Proof.
  split.
  - apply (ParseRpcFrame_rejects_burst kVoteReq 7 (str "payload") _ [7]); by_decide.
  - apply (ParseRpcFrame_rejects_burst kVoteReq 7 (str "payload") _
      (take 3 (drop 19 (EncodeRpcFrame kVoteReq 7 (str "payload"))))); by_decide.
Defined.

(** Every strict prefix of a frame is rejected: a truncated read never
    yields a message. *)
Theorem ParseRpcFrame_rejects_truncation (type seq : Z) (payload : bytes) (n : nat) :
  0 ≤ type < 256 → 0 ≤ seq ≤ U32_MAX → is_bytes payload → zlen payload ≤ U32_MAX →
  (n < length (EncodeRpcFrame type seq payload))%nat →
  ParseRpcFrame (take n (EncodeRpcFrame type seq payload)) = None.
Proof.
  intros Ht Hs Hb Hp Hn.
  destruct (EncodeRpcFrame_shape type seq payload Ht Hs Hb Hp) as (Hf & Hz & Hlv & _).
  set (f := EncodeRpcFrame _ _ _) in *. destruct (ParseRpcFrame (take n f)) as [r|] eqn:Ep; [|done].
  apply ParseRpcFrame_Some in Ep; [|by apply Forall_take]. simpl in Ep.
  assert (zlen (take n f) < 17 + zlen payload) as Hlt
    by (unfold zlen in *; rewrite length_take; lia).
  replace (substr (take n f) 9 4) with (substr f 9 4) in Ep; [lia|].
  destruct Ep as (? & ? & _). unfold substr.
  assert (13 ≤ zlen (take n f)) as Hn' by lia. unfold zlen in Hn'. rewrite length_take in Hn'.
  rewrite <-(take_drop n f) at 1. rewrite drop_app_le by (rewrite length_take; lia).
  rewrite take_app_le; [done|]. rewrite length_drop, length_take. lia.
Qed.

Lemma ParseRpcFrame_rejects_truncation_witness :
  ParseRpcFrame (take 20 (EncodeRpcFrame kVoteReq 7 (str "payload"))) = None.
Proof. apply ParseRpcFrame_rejects_truncation; by_decide. Defined.
