(* ===== verification/RpcPayload.v ===== *)
(** * Payload codecs (src/server/raft/raft_codec.cc, proto/raft_rpc.proto)

    Each [Serialize...] copies a struct into a protobuf message field by field
    and serializes it; each [Parse...] rejects empty and oversized payloads,
    lets protobuf parse the bytes and copies the fields back.  The protobuf
    runtime is the class [PbMessage] with its documented laws in
    [ProtobufLaws]; the records [pb_...] are the messages of raft_rpc.proto. *)

From S2P Require Import Prelude Crc32 RaftTypes RaftCodec.

(** ** Messages of raft_rpc.proto *)

Record pb_LogEntry : Type := mkpb_LogEntry {
  pb_le_term : Z;
  pb_le_index : Z;
  pb_le_command : bytes
}.
#[export] Instance pb_LogEntry_eta : Eta pb_LogEntry := fun r =>
  mkpb_LogEntry (pb_le_term r) (pb_le_index r) (pb_le_command r).
#[export] Instance pb_LogEntry_eq_dec : EqDecision pb_LogEntry.
Proof. solve_decision. Defined.

Record pb_AppendEntriesRequest : Type := mkpb_AppendEntriesRequest {
  pb_areq_group_id : Z;
  pb_areq_term : Z;
  pb_areq_leader_id : bytes;
  pb_areq_prev_log_index : Z;
  pb_areq_prev_log_term : Z;
  pb_areq_entries : list pb_LogEntry;
  pb_areq_leader_commit : Z
}.
#[export] Instance pb_AppendEntriesRequest_eta : Eta pb_AppendEntriesRequest := fun r =>
  mkpb_AppendEntriesRequest (pb_areq_group_id r) (pb_areq_term r) (pb_areq_leader_id r) (pb_areq_prev_log_index r) (pb_areq_prev_log_term r) (pb_areq_entries r) (pb_areq_leader_commit r).
#[export] Instance pb_AppendEntriesRequest_eq_dec : EqDecision pb_AppendEntriesRequest.
Proof. solve_decision. Defined.

Record pb_AppendEntriesResponse : Type := mkpb_AppendEntriesResponse {
  pb_arsp_group_id : Z;
  pb_arsp_term : Z;
  pb_arsp_success : bool;
  pb_arsp_last_log_index : Z
}.
#[export] Instance pb_AppendEntriesResponse_eta : Eta pb_AppendEntriesResponse := fun r =>
  mkpb_AppendEntriesResponse (pb_arsp_group_id r) (pb_arsp_term r) (pb_arsp_success r) (pb_arsp_last_log_index r).
#[export] Instance pb_AppendEntriesResponse_eq_dec : EqDecision pb_AppendEntriesResponse.
Proof. solve_decision. Defined.

Record pb_VoteRequest : Type := mkpb_VoteRequest {
  pb_vreq_group_id : Z;
  pb_vreq_term : Z;
  pb_vreq_candidate_id : bytes;
  pb_vreq_last_log_index : Z;
  pb_vreq_last_log_term : Z
}.
#[export] Instance pb_VoteRequest_eta : Eta pb_VoteRequest := fun r =>
  mkpb_VoteRequest (pb_vreq_group_id r) (pb_vreq_term r) (pb_vreq_candidate_id r) (pb_vreq_last_log_index r) (pb_vreq_last_log_term r).
#[export] Instance pb_VoteRequest_eq_dec : EqDecision pb_VoteRequest.
Proof. solve_decision. Defined.

Record pb_VoteResponse : Type := mkpb_VoteResponse {
  pb_vrsp_group_id : Z;
  pb_vrsp_term : Z;
  pb_vrsp_vote_granted : bool
}.
#[export] Instance pb_VoteResponse_eta : Eta pb_VoteResponse := fun r =>
  mkpb_VoteResponse (pb_vrsp_group_id r) (pb_vrsp_term r) (pb_vrsp_vote_granted r).
#[export] Instance pb_VoteResponse_eq_dec : EqDecision pb_VoteResponse.
Proof. solve_decision. Defined.

Record pb_HeartbeatRequest : Type := mkpb_HeartbeatRequest {
  pb_hreq_group_id : Z;
  pb_hreq_term : Z;
  pb_hreq_leader_id : bytes;
  pb_hreq_leader_commit : Z
}.
#[export] Instance pb_HeartbeatRequest_eta : Eta pb_HeartbeatRequest := fun r =>
  mkpb_HeartbeatRequest (pb_hreq_group_id r) (pb_hreq_term r) (pb_hreq_leader_id r) (pb_hreq_leader_commit r).
#[export] Instance pb_HeartbeatRequest_eq_dec : EqDecision pb_HeartbeatRequest.
Proof. solve_decision. Defined.

Record pb_HeartbeatResponse : Type := mkpb_HeartbeatResponse {
  pb_hrsp_group_id : Z;
  pb_hrsp_term : Z;
  pb_hrsp_success : bool;
  pb_hrsp_last_log_index : Z
}.
#[export] Instance pb_HeartbeatResponse_eta : Eta pb_HeartbeatResponse := fun r =>
  mkpb_HeartbeatResponse (pb_hrsp_group_id r) (pb_hrsp_term r) (pb_hrsp_success r) (pb_hrsp_last_log_index r).
#[export] Instance pb_HeartbeatResponse_eq_dec : EqDecision pb_HeartbeatResponse.
Proof. solve_decision. Defined.

Record pb_InstallSnapshotRequest : Type := mkpb_InstallSnapshotRequest {
  pb_sreq_group_id : Z;
  pb_sreq_term : Z;
  pb_sreq_leader_id : bytes;
  pb_sreq_last_included_index : Z;
  pb_sreq_last_included_term : Z;
  pb_sreq_offset : Z;
  pb_sreq_done : bool;
  pb_sreq_data : bytes
}.
#[export] Instance pb_InstallSnapshotRequest_eta : Eta pb_InstallSnapshotRequest := fun r =>
  mkpb_InstallSnapshotRequest (pb_sreq_group_id r) (pb_sreq_term r) (pb_sreq_leader_id r) (pb_sreq_last_included_index r) (pb_sreq_last_included_term r) (pb_sreq_offset r) (pb_sreq_done r) (pb_sreq_data r).
#[export] Instance pb_InstallSnapshotRequest_eq_dec : EqDecision pb_InstallSnapshotRequest.
Proof. solve_decision. Defined.

Record pb_InstallSnapshotResponse : Type := mkpb_InstallSnapshotResponse {
  pb_srsp_group_id : Z;
  pb_srsp_term : Z;
  pb_srsp_success : bool
}.
#[export] Instance pb_InstallSnapshotResponse_eta : Eta pb_InstallSnapshotResponse := fun r =>
  mkpb_InstallSnapshotResponse (pb_srsp_group_id r) (pb_srsp_term r) (pb_srsp_success r).
#[export] Instance pb_InstallSnapshotResponse_eq_dec : EqDecision pb_InstallSnapshotResponse.
Proof. solve_decision. Defined.

Record pb_ReadIndexRequest : Type := mkpb_ReadIndexRequest {
  pb_rreq_group_id : Z;
  pb_rreq_term : Z;
  pb_rreq_leader_id : bytes;
  pb_rreq_request_id : Z
}.
#[export] Instance pb_ReadIndexRequest_eta : Eta pb_ReadIndexRequest := fun r =>
  mkpb_ReadIndexRequest (pb_rreq_group_id r) (pb_rreq_term r) (pb_rreq_leader_id r) (pb_rreq_request_id r).
#[export] Instance pb_ReadIndexRequest_eq_dec : EqDecision pb_ReadIndexRequest.
Proof. solve_decision. Defined.

Record pb_ReadIndexResponse : Type := mkpb_ReadIndexResponse {
  pb_rrsp_group_id : Z;
  pb_rrsp_term : Z;
  pb_rrsp_success : bool;
  pb_rrsp_commit_index : Z
}.
#[export] Instance pb_ReadIndexResponse_eta : Eta pb_ReadIndexResponse := fun r =>
  mkpb_ReadIndexResponse (pb_rrsp_group_id r) (pb_rrsp_term r) (pb_rrsp_success r) (pb_rrsp_commit_index r).
#[export] Instance pb_ReadIndexResponse_eq_dec : EqDecision pb_ReadIndexResponse.
Proof. solve_decision. Defined.

Record pb_TimeoutNowRequest : Type := mkpb_TimeoutNowRequest {
  pb_treq_group_id : Z;
  pb_treq_term : Z;
  pb_treq_leader_id : bytes
}.
#[export] Instance pb_TimeoutNowRequest_eta : Eta pb_TimeoutNowRequest := fun r =>
  mkpb_TimeoutNowRequest (pb_treq_group_id r) (pb_treq_term r) (pb_treq_leader_id r).
#[export] Instance pb_TimeoutNowRequest_eq_dec : EqDecision pb_TimeoutNowRequest.
Proof. solve_decision. Defined.

Record pb_TimeoutNowResponse : Type := mkpb_TimeoutNowResponse {
  pb_trsp_group_id : Z;
  pb_trsp_term : Z;
  pb_trsp_accepted : bool
}.
#[export] Instance pb_TimeoutNowResponse_eta : Eta pb_TimeoutNowResponse := fun r =>
  mkpb_TimeoutNowResponse (pb_trsp_group_id r) (pb_trsp_term r) (pb_trsp_accepted r).
#[export] Instance pb_TimeoutNowResponse_eq_dec : EqDecision pb_TimeoutNowResponse.
Proof. solve_decision. Defined.

(** A freshly constructed message: every field has its proto3 default. *)
Class PbDefault (M : Type) := pb_new : M.
#[export] Instance pb_LogEntry_default : PbDefault pb_LogEntry :=
  mkpb_LogEntry 0 0 [].
#[export] Instance pb_AppendEntriesRequest_default : PbDefault pb_AppendEntriesRequest :=
  mkpb_AppendEntriesRequest 0 0 [] 0 0 [] 0.
#[export] Instance pb_AppendEntriesResponse_default : PbDefault pb_AppendEntriesResponse :=
  mkpb_AppendEntriesResponse 0 0 false 0.
#[export] Instance pb_VoteRequest_default : PbDefault pb_VoteRequest :=
  mkpb_VoteRequest 0 0 [] 0 0.
#[export] Instance pb_VoteResponse_default : PbDefault pb_VoteResponse :=
  mkpb_VoteResponse 0 0 false.
#[export] Instance pb_HeartbeatRequest_default : PbDefault pb_HeartbeatRequest :=
  mkpb_HeartbeatRequest 0 0 [] 0.
#[export] Instance pb_HeartbeatResponse_default : PbDefault pb_HeartbeatResponse :=
  mkpb_HeartbeatResponse 0 0 false 0.
#[export] Instance pb_InstallSnapshotRequest_default : PbDefault pb_InstallSnapshotRequest :=
  mkpb_InstallSnapshotRequest 0 0 [] 0 0 0 false [].
#[export] Instance pb_InstallSnapshotResponse_default : PbDefault pb_InstallSnapshotResponse :=
  mkpb_InstallSnapshotResponse 0 0 false.
#[export] Instance pb_ReadIndexRequest_default : PbDefault pb_ReadIndexRequest :=
  mkpb_ReadIndexRequest 0 0 [] 0.
#[export] Instance pb_ReadIndexResponse_default : PbDefault pb_ReadIndexResponse :=
  mkpb_ReadIndexResponse 0 0 false 0.
#[export] Instance pb_TimeoutNowRequest_default : PbDefault pb_TimeoutNowRequest :=
  mkpb_TimeoutNowRequest 0 0 [].
#[export] Instance pb_TimeoutNowResponse_default : PbDefault pb_TimeoutNowResponse :=
  mkpb_TimeoutNowResponse 0 0 false.

(** The generated class of a message. *)
Class PbMessage (M : Type) := {
  SerializeToString : M → bytes;
  ParseFromArray : bytes → option M
}.

(** Documented behaviour of protobuf: what was serialized parses back (for a
    message whose [string] fields are valid UTF-8), a field that differs from
    its default is written, and the output is a byte string. *)
Class ProtobufLaws (M : Type) `{!PbDefault M, !PbMessage M} := {
  pb_valid : M → Prop;
  pb_parse_serialize m : pb_valid m → ParseFromArray (SerializeToString m) = Some m;
  pb_serialize_nonempty m : m ≠ pb_new → SerializeToString m ≠ [];
  pb_serialize_bytes m : is_bytes (SerializeToString m)
}.

Definition INT32_MAX : Z := 2147483647.

Definition ParseMessage {M} `{!PbMessage M} (payload : bytes) : option M :=
  if bool_decide (payload = []) || (INT32_MAX <? zlen payload) then None
  else ParseFromArray payload.

Lemma ParseMessage_serialize {M} `{ProtobufLaws M} (m : M) :
  pb_valid m → m ≠ pb_new → zlen (SerializeToString m) ≤ INT32_MAX →
  ParseMessage (SerializeToString m) = Some m.
Proof.
  intros Hv Hn Hz. unfold ParseMessage.
  rewrite bool_decide_false by (by apply pb_serialize_nonempty).
  rewrite (proj2 (Z.ltb_ge _ _) Hz). by apply pb_parse_serialize.
Qed.

(** ** Serialize and Parse *)

(** [pb_entry->set_term(...)] etc. on the message [msg.add_entries()] returned. *)
Definition pb_entry_of (e : LogEntry) : pb_LogEntry :=
  pb_new <| pb_le_term := le_term e |> <| pb_le_index := le_index e |>
         <| pb_le_command := le_command e |>.

Definition pb_entry_to (e : pb_LogEntry) : LogEntry :=
  mkLogEntry (pb_le_term e) (pb_le_index e) (pb_le_command e).

(** The message [SerializeAppendEntriesRequest] fills in before it serializes it. *)
Definition pb_of_AppendEntriesRequest (r : AppendEntriesRequest) : pb_AppendEntriesRequest :=
  pb_new
    <| pb_areq_group_id := areq_group_id r |>
    <| pb_areq_term := areq_term r |>
    <| pb_areq_leader_id := areq_leader_id r |>
    <| pb_areq_prev_log_index := areq_prev_log_index r |>
    <| pb_areq_prev_log_term := areq_prev_log_term r |>
    <| pb_areq_entries := map pb_entry_of (areq_entries r) |>
    <| pb_areq_leader_commit := areq_leader_commit r |>.

Definition SerializeAppendEntriesRequest `{!PbMessage pb_AppendEntriesRequest} (r : AppendEntriesRequest) : bytes :=
  SerializeToString (pb_of_AppendEntriesRequest r).

Definition ParseAppendEntriesRequest `{!PbMessage pb_AppendEntriesRequest} (payload : bytes) : option AppendEntriesRequest :=
  msg ← ParseMessage payload;
  Some (mkAppendEntriesRequest (pb_areq_group_id msg) (pb_areq_term msg) (pb_areq_leader_id msg) (pb_areq_prev_log_index msg) (pb_areq_prev_log_term msg) (map pb_entry_to (pb_areq_entries msg)) (pb_areq_leader_commit msg)).

(** The message [SerializeAppendEntriesResponse] fills in before it serializes it. *)
Definition pb_of_AppendEntriesResponse (r : AppendEntriesResponse) : pb_AppendEntriesResponse :=
  pb_new
    <| pb_arsp_group_id := arsp_group_id r |>
    <| pb_arsp_term := arsp_term r |>
    <| pb_arsp_success := arsp_success r |>
    <| pb_arsp_last_log_index := arsp_last_log_index r |>.

Definition SerializeAppendEntriesResponse `{!PbMessage pb_AppendEntriesResponse} (r : AppendEntriesResponse) : bytes :=
  SerializeToString (pb_of_AppendEntriesResponse r).

Definition ParseAppendEntriesResponse `{!PbMessage pb_AppendEntriesResponse} (payload : bytes) : option AppendEntriesResponse :=
  msg ← ParseMessage payload;
  Some (mkAppendEntriesResponse (pb_arsp_group_id msg) (pb_arsp_term msg) (pb_arsp_success msg) (pb_arsp_last_log_index msg)).

(** The message [SerializeVoteRequest] fills in before it serializes it. *)
Definition pb_of_VoteRequest (r : VoteRequest) : pb_VoteRequest :=
  pb_new
    <| pb_vreq_group_id := vreq_group_id r |>
    <| pb_vreq_term := vreq_term r |>
    <| pb_vreq_candidate_id := vreq_candidate_id r |>
    <| pb_vreq_last_log_index := vreq_last_log_index r |>
    <| pb_vreq_last_log_term := vreq_last_log_term r |>.

Definition SerializeVoteRequest `{!PbMessage pb_VoteRequest} (r : VoteRequest) : bytes :=
  SerializeToString (pb_of_VoteRequest r).

Definition ParseVoteRequest `{!PbMessage pb_VoteRequest} (payload : bytes) : option VoteRequest :=
  msg ← ParseMessage payload;
  Some (mkVoteRequest (pb_vreq_group_id msg) (pb_vreq_term msg) (pb_vreq_candidate_id msg) (pb_vreq_last_log_index msg) (pb_vreq_last_log_term msg)).

(** The message [SerializeVoteResponse] fills in before it serializes it. *)
Definition pb_of_VoteResponse (r : VoteResponse) : pb_VoteResponse :=
  pb_new
    <| pb_vrsp_group_id := vrsp_group_id r |>
    <| pb_vrsp_term := vrsp_term r |>
    <| pb_vrsp_vote_granted := vrsp_vote_granted r |>.

Definition SerializeVoteResponse `{!PbMessage pb_VoteResponse} (r : VoteResponse) : bytes :=
  SerializeToString (pb_of_VoteResponse r).

Definition ParseVoteResponse `{!PbMessage pb_VoteResponse} (payload : bytes) : option VoteResponse :=
  msg ← ParseMessage payload;
  Some (mkVoteResponse (pb_vrsp_group_id msg) (pb_vrsp_term msg) (pb_vrsp_vote_granted msg)).

(** The message [SerializeHeartbeatRequest] fills in before it serializes it. *)
Definition pb_of_HeartbeatRequest (r : HeartbeatRequest) : pb_HeartbeatRequest :=
  pb_new
    <| pb_hreq_group_id := hreq_group_id r |>
    <| pb_hreq_term := hreq_term r |>
    <| pb_hreq_leader_id := hreq_leader_id r |>
    <| pb_hreq_leader_commit := hreq_leader_commit r |>.

Definition SerializeHeartbeatRequest `{!PbMessage pb_HeartbeatRequest} (r : HeartbeatRequest) : bytes :=
  SerializeToString (pb_of_HeartbeatRequest r).

Definition ParseHeartbeatRequest `{!PbMessage pb_HeartbeatRequest} (payload : bytes) : option HeartbeatRequest :=
  msg ← ParseMessage payload;
  Some (mkHeartbeatRequest (pb_hreq_group_id msg) (pb_hreq_term msg) (pb_hreq_leader_id msg) (pb_hreq_leader_commit msg)).

(** The message [SerializeHeartbeatResponse] fills in before it serializes it. *)
Definition pb_of_HeartbeatResponse (r : HeartbeatResponse) : pb_HeartbeatResponse :=
  pb_new
    <| pb_hrsp_group_id := hrsp_group_id r |>
    <| pb_hrsp_term := hrsp_term r |>
    <| pb_hrsp_success := hrsp_success r |>
    <| pb_hrsp_last_log_index := hrsp_last_log_index r |>.

Definition SerializeHeartbeatResponse `{!PbMessage pb_HeartbeatResponse} (r : HeartbeatResponse) : bytes :=
  SerializeToString (pb_of_HeartbeatResponse r).

Definition ParseHeartbeatResponse `{!PbMessage pb_HeartbeatResponse} (payload : bytes) : option HeartbeatResponse :=
  msg ← ParseMessage payload;
  Some (mkHeartbeatResponse (pb_hrsp_group_id msg) (pb_hrsp_term msg) (pb_hrsp_success msg) (pb_hrsp_last_log_index msg)).

(** The message [SerializeInstallSnapshotRequest] fills in before it serializes it. *)
Definition pb_of_InstallSnapshotRequest (r : InstallSnapshotRequest) : pb_InstallSnapshotRequest :=
  pb_new
    <| pb_sreq_group_id := sreq_group_id r |>
    <| pb_sreq_term := sreq_term r |>
    <| pb_sreq_leader_id := sreq_leader_id r |>
    <| pb_sreq_last_included_index := sreq_last_included_index r |>
    <| pb_sreq_last_included_term := sreq_last_included_term r |>
    <| pb_sreq_offset := sreq_offset r |>
    <| pb_sreq_done := sreq_done r |>
    <| pb_sreq_data := sreq_data r |>.

Definition SerializeInstallSnapshotRequest `{!PbMessage pb_InstallSnapshotRequest} (r : InstallSnapshotRequest) : bytes :=
  SerializeToString (pb_of_InstallSnapshotRequest r).

Definition ParseInstallSnapshotRequest `{!PbMessage pb_InstallSnapshotRequest} (payload : bytes) : option InstallSnapshotRequest :=
  msg ← ParseMessage payload;
  Some (mkInstallSnapshotRequest (pb_sreq_group_id msg) (pb_sreq_term msg) (pb_sreq_leader_id msg) (pb_sreq_last_included_index msg) (pb_sreq_last_included_term msg) (pb_sreq_offset msg) (pb_sreq_done msg) (pb_sreq_data msg)).

(** The message [SerializeInstallSnapshotResponse] fills in before it serializes it. *)
Definition pb_of_InstallSnapshotResponse (r : InstallSnapshotResponse) : pb_InstallSnapshotResponse :=
  pb_new
    <| pb_srsp_group_id := srsp_group_id r |>
    <| pb_srsp_term := srsp_term r |>
    <| pb_srsp_success := srsp_success r |>.

Definition SerializeInstallSnapshotResponse `{!PbMessage pb_InstallSnapshotResponse} (r : InstallSnapshotResponse) : bytes :=
  SerializeToString (pb_of_InstallSnapshotResponse r).

Definition ParseInstallSnapshotResponse `{!PbMessage pb_InstallSnapshotResponse} (payload : bytes) : option InstallSnapshotResponse :=
  msg ← ParseMessage payload;
  Some (mkInstallSnapshotResponse (pb_srsp_group_id msg) (pb_srsp_term msg) (pb_srsp_success msg)).

(** The message [SerializeReadIndexRequest] fills in before it serializes it. *)
Definition pb_of_ReadIndexRequest (r : ReadIndexRequest) : pb_ReadIndexRequest :=
  pb_new
    <| pb_rreq_group_id := rreq_group_id r |>
    <| pb_rreq_term := rreq_term r |>
    <| pb_rreq_leader_id := rreq_leader_id r |>
    <| pb_rreq_request_id := rreq_request_id r |>.

Definition SerializeReadIndexRequest `{!PbMessage pb_ReadIndexRequest} (r : ReadIndexRequest) : bytes :=
  SerializeToString (pb_of_ReadIndexRequest r).

Definition ParseReadIndexRequest `{!PbMessage pb_ReadIndexRequest} (payload : bytes) : option ReadIndexRequest :=
  msg ← ParseMessage payload;
  Some (mkReadIndexRequest (pb_rreq_group_id msg) (pb_rreq_term msg) (pb_rreq_leader_id msg) (pb_rreq_request_id msg)).

(** The message [SerializeReadIndexResponse] fills in before it serializes it. *)
Definition pb_of_ReadIndexResponse (r : ReadIndexResponse) : pb_ReadIndexResponse :=
  pb_new
    <| pb_rrsp_group_id := rrsp_group_id r |>
    <| pb_rrsp_term := rrsp_term r |>
    <| pb_rrsp_success := rrsp_success r |>
    <| pb_rrsp_commit_index := rrsp_commit_index r |>.

Definition SerializeReadIndexResponse `{!PbMessage pb_ReadIndexResponse} (r : ReadIndexResponse) : bytes :=
  SerializeToString (pb_of_ReadIndexResponse r).

Definition ParseReadIndexResponse `{!PbMessage pb_ReadIndexResponse} (payload : bytes) : option ReadIndexResponse :=
  msg ← ParseMessage payload;
  Some (mkReadIndexResponse (pb_rrsp_group_id msg) (pb_rrsp_term msg) (pb_rrsp_success msg) (pb_rrsp_commit_index msg)).

(** The message [SerializeTimeoutNowRequest] fills in before it serializes it. *)
Definition pb_of_TimeoutNowRequest (r : TimeoutNowRequest) : pb_TimeoutNowRequest :=
  pb_new
    <| pb_treq_group_id := treq_group_id r |>
    <| pb_treq_term := treq_term r |>
    <| pb_treq_leader_id := treq_leader_id r |>.

Definition SerializeTimeoutNowRequest `{!PbMessage pb_TimeoutNowRequest} (r : TimeoutNowRequest) : bytes :=
  SerializeToString (pb_of_TimeoutNowRequest r).

Definition ParseTimeoutNowRequest `{!PbMessage pb_TimeoutNowRequest} (payload : bytes) : option TimeoutNowRequest :=
  msg ← ParseMessage payload;
  Some (mkTimeoutNowRequest (pb_treq_group_id msg) (pb_treq_term msg) (pb_treq_leader_id msg)).

(** The message [SerializeTimeoutNowResponse] fills in before it serializes it. *)
Definition pb_of_TimeoutNowResponse (r : TimeoutNowResponse) : pb_TimeoutNowResponse :=
  pb_new
    <| pb_trsp_group_id := trsp_group_id r |>
    <| pb_trsp_term := trsp_term r |>
    <| pb_trsp_accepted := trsp_accepted r |>.

Definition SerializeTimeoutNowResponse `{!PbMessage pb_TimeoutNowResponse} (r : TimeoutNowResponse) : bytes :=
  SerializeToString (pb_of_TimeoutNowResponse r).

Definition ParseTimeoutNowResponse `{!PbMessage pb_TimeoutNowResponse} (payload : bytes) : option TimeoutNowResponse :=
  msg ← ParseMessage payload;
  Some (mkTimeoutNowResponse (pb_trsp_group_id msg) (pb_trsp_term msg) (pb_trsp_accepted msg)).

(** ** All payloads of the protocol *)

Inductive RpcMessage : Type :=
  | MAppendEntriesRequest (r : AppendEntriesRequest)
  | MAppendEntriesResponse (r : AppendEntriesResponse)
  | MVoteRequest (r : VoteRequest)
  | MVoteResponse (r : VoteResponse)
  | MHeartbeatRequest (r : HeartbeatRequest)
  | MHeartbeatResponse (r : HeartbeatResponse)
  | MInstallSnapshotRequest (r : InstallSnapshotRequest)
  | MInstallSnapshotResponse (r : InstallSnapshotResponse)
  | MReadIndexRequest (r : ReadIndexRequest)
  | MReadIndexResponse (r : ReadIndexResponse)
  | MTimeoutNowRequest (r : TimeoutNowRequest)
  | MTimeoutNowResponse (r : TimeoutNowResponse).

(** The frame type each payload is sent under. *)
Definition rpc_type (m : RpcMessage) : RpcType :=
  match m with
  | MAppendEntriesRequest _ => kAppendEntriesReq
  | MAppendEntriesResponse _ => kAppendEntriesRsp
  | MVoteRequest _ => kVoteReq
  | MVoteResponse _ => kVoteRsp
  | MHeartbeatRequest _ => kHeartbeatReq
  | MHeartbeatResponse _ => kHeartbeatRsp
  | MInstallSnapshotRequest _ => kInstallSnapshotReq
  | MInstallSnapshotResponse _ => kInstallSnapshotRsp
  | MReadIndexRequest _ => kReadIndexReq
  | MReadIndexResponse _ => kReadIndexRsp
  | MTimeoutNowRequest _ => kTimeoutNowReq
  | MTimeoutNowResponse _ => kTimeoutNowRsp
  end.

(** One generated class per message. *)
Class RaftProto := {
  proto_AppendEntriesRequest :: PbMessage pb_AppendEntriesRequest;
  proto_AppendEntriesResponse :: PbMessage pb_AppendEntriesResponse;
  proto_VoteRequest :: PbMessage pb_VoteRequest;
  proto_VoteResponse :: PbMessage pb_VoteResponse;
  proto_HeartbeatRequest :: PbMessage pb_HeartbeatRequest;
  proto_HeartbeatResponse :: PbMessage pb_HeartbeatResponse;
  proto_InstallSnapshotRequest :: PbMessage pb_InstallSnapshotRequest;
  proto_InstallSnapshotResponse :: PbMessage pb_InstallSnapshotResponse;
  proto_ReadIndexRequest :: PbMessage pb_ReadIndexRequest;
  proto_ReadIndexResponse :: PbMessage pb_ReadIndexResponse;
  proto_TimeoutNowRequest :: PbMessage pb_TimeoutNowRequest;
  proto_TimeoutNowResponse :: PbMessage pb_TimeoutNowResponse
}.

Class RaftProtoLaws `{!RaftProto} := {
  laws_AppendEntriesRequest :: ProtobufLaws pb_AppendEntriesRequest;
  laws_AppendEntriesResponse :: ProtobufLaws pb_AppendEntriesResponse;
  laws_VoteRequest :: ProtobufLaws pb_VoteRequest;
  laws_VoteResponse :: ProtobufLaws pb_VoteResponse;
  laws_HeartbeatRequest :: ProtobufLaws pb_HeartbeatRequest;
  laws_HeartbeatResponse :: ProtobufLaws pb_HeartbeatResponse;
  laws_InstallSnapshotRequest :: ProtobufLaws pb_InstallSnapshotRequest;
  laws_InstallSnapshotResponse :: ProtobufLaws pb_InstallSnapshotResponse;
  laws_ReadIndexRequest :: ProtobufLaws pb_ReadIndexRequest;
  laws_ReadIndexResponse :: ProtobufLaws pb_ReadIndexResponse;
  laws_TimeoutNowRequest :: ProtobufLaws pb_TimeoutNowRequest;
  laws_TimeoutNowResponse :: ProtobufLaws pb_TimeoutNowResponse
}.

Section payloads.
Context `{!RaftProto}.

Definition SerializePayload (m : RpcMessage) : bytes :=
  match m with
  | MAppendEntriesRequest r => SerializeAppendEntriesRequest r
  | MAppendEntriesResponse r => SerializeAppendEntriesResponse r
  | MVoteRequest r => SerializeVoteRequest r
  | MVoteResponse r => SerializeVoteResponse r
  | MHeartbeatRequest r => SerializeHeartbeatRequest r
  | MHeartbeatResponse r => SerializeHeartbeatResponse r
  | MInstallSnapshotRequest r => SerializeInstallSnapshotRequest r
  | MInstallSnapshotResponse r => SerializeInstallSnapshotResponse r
  | MReadIndexRequest r => SerializeReadIndexRequest r
  | MReadIndexResponse r => SerializeReadIndexResponse r
  | MTimeoutNowRequest r => SerializeTimeoutNowRequest r
  | MTimeoutNowResponse r => SerializeTimeoutNowResponse r
  end.

(** The parser the receiver selects by the frame's type. *)
Definition ParsePayload (type : RpcType) (payload : bytes) : option RpcMessage :=
  if type =? kAppendEntriesReq then MAppendEntriesRequest <$> ParseAppendEntriesRequest payload else
  if type =? kAppendEntriesRsp then MAppendEntriesResponse <$> ParseAppendEntriesResponse payload else
  if type =? kVoteReq then MVoteRequest <$> ParseVoteRequest payload else
  if type =? kVoteRsp then MVoteResponse <$> ParseVoteResponse payload else
  if type =? kHeartbeatReq then MHeartbeatRequest <$> ParseHeartbeatRequest payload else
  if type =? kHeartbeatRsp then MHeartbeatResponse <$> ParseHeartbeatResponse payload else
  if type =? kInstallSnapshotReq then MInstallSnapshotRequest <$> ParseInstallSnapshotRequest payload else
  if type =? kInstallSnapshotRsp then MInstallSnapshotResponse <$> ParseInstallSnapshotResponse payload else
  if type =? kReadIndexReq then MReadIndexRequest <$> ParseReadIndexRequest payload else
  if type =? kReadIndexRsp then MReadIndexResponse <$> ParseReadIndexResponse payload else
  if type =? kTimeoutNowReq then MTimeoutNowRequest <$> ParseTimeoutNowRequest payload else
  if type =? kTimeoutNowRsp then MTimeoutNowResponse <$> ParseTimeoutNowResponse payload else
  None.

(** The message can be sent: it has a field that differs from its default, its
    strings are valid and it is not larger than protobuf allows. *)
Definition sendable `{!RaftProtoLaws} (m : RpcMessage) : Prop :=
  match m with
  | MAppendEntriesRequest r => pb_valid (pb_of_AppendEntriesRequest r) ∧ pb_of_AppendEntriesRequest r ≠ pb_new
  | MAppendEntriesResponse r => pb_valid (pb_of_AppendEntriesResponse r) ∧ pb_of_AppendEntriesResponse r ≠ pb_new
  | MVoteRequest r => pb_valid (pb_of_VoteRequest r) ∧ pb_of_VoteRequest r ≠ pb_new
  | MVoteResponse r => pb_valid (pb_of_VoteResponse r) ∧ pb_of_VoteResponse r ≠ pb_new
  | MHeartbeatRequest r => pb_valid (pb_of_HeartbeatRequest r) ∧ pb_of_HeartbeatRequest r ≠ pb_new
  | MHeartbeatResponse r => pb_valid (pb_of_HeartbeatResponse r) ∧ pb_of_HeartbeatResponse r ≠ pb_new
  | MInstallSnapshotRequest r => pb_valid (pb_of_InstallSnapshotRequest r) ∧ pb_of_InstallSnapshotRequest r ≠ pb_new
  | MInstallSnapshotResponse r => pb_valid (pb_of_InstallSnapshotResponse r) ∧ pb_of_InstallSnapshotResponse r ≠ pb_new
  | MReadIndexRequest r => pb_valid (pb_of_ReadIndexRequest r) ∧ pb_of_ReadIndexRequest r ≠ pb_new
  | MReadIndexResponse r => pb_valid (pb_of_ReadIndexResponse r) ∧ pb_of_ReadIndexResponse r ≠ pb_new
  | MTimeoutNowRequest r => pb_valid (pb_of_TimeoutNowRequest r) ∧ pb_of_TimeoutNowRequest r ≠ pb_new
  | MTimeoutNowResponse r => pb_valid (pb_of_TimeoutNowResponse r) ∧ pb_of_TimeoutNowResponse r ≠ pb_new
  end ∧ zlen (SerializePayload m) ≤ INT32_MAX.
End payloads.

Lemma pb_entries_roundtrip es : map pb_entry_to (map pb_entry_of es) = es.
Proof. induction es as [|[t i c] es IH]; simpl; [done|]. by rewrite IH. Qed.

Lemma ParsePayload_SerializePayload `{!RaftProto, !RaftProtoLaws} (m : RpcMessage) :
  sendable m → ParsePayload (rpc_type m) (SerializePayload m) = Some m.
Proof.
  intros [Hv Hz]. destruct m as [r|r|r|r|r|r|r|r|r|r|r|r]; destruct Hv as [Hv Hn];
    destruct r; unfold ParsePayload; simpl rpc_type; simpl Z.eqb; cbv iota;
    cbn [SerializePayload] in *; unfold ParseAppendEntriesRequest, SerializeAppendEntriesRequest,
      ParseAppendEntriesResponse, SerializeAppendEntriesResponse,
      ParseVoteRequest, SerializeVoteRequest,
      ParseVoteResponse, SerializeVoteResponse,
      ParseHeartbeatRequest, SerializeHeartbeatRequest,
      ParseHeartbeatResponse, SerializeHeartbeatResponse,
      ParseInstallSnapshotRequest, SerializeInstallSnapshotRequest,
      ParseInstallSnapshotResponse, SerializeInstallSnapshotResponse,
      ParseReadIndexRequest, SerializeReadIndexRequest,
      ParseReadIndexResponse, SerializeReadIndexResponse,
      ParseTimeoutNowRequest, SerializeTimeoutNowRequest,
      ParseTimeoutNowResponse, SerializeTimeoutNowResponse in *; rewrite ParseMessage_serialize by done;
    simpl; by rewrite ?pb_entries_roundtrip.
Qed.

(** A Raft RPC message that is sent over the wire arrives unchanged:
    serializing it, framing it, parsing the frame and parsing the payload under
    the frame's type gives back the message and its sequence number. *)
Theorem rpc_wire_roundtrip `{!RaftProto, !RaftProtoLaws} (m : RpcMessage) (seq : Z) (junk : bytes) :
  sendable m → 0 ≤ seq ≤ U32_MAX →
  (r ← ParseRpcFrame (EncodeRpcFrame (rpc_type m) seq (SerializePayload m) ++ junk);
   let '(type, seq', payload) := r in
   m' ← ParsePayload type payload; Some (seq', m')) = Some (seq, m).
Proof.
  intros Hs Hseq. rewrite ParseRpcFrame_roundtrip.
  - simpl. by rewrite ParsePayload_SerializePayload.
  - by destruct m.
  - done.
  - destruct m; apply pb_serialize_bytes.
  - destruct Hs as [_ Hz]. unfold INT32_MAX, U32_MAX in *. lia.
Qed.

(** ** A concrete protobuf

    A bit-level encoding of the messages that satisfies the laws: an all-default
    message is empty, any other is a marker followed by the bits of its code. *)
Module BitProto.

Fixpoint pos_bits (p : positive) : bytes :=
  match p with
  | xH => []
  | xO q => 0 :: pos_bits q
  | xI q => 1 :: pos_bits q
  end.

Fixpoint bits_pos (s : bytes) : positive :=
  match s with
  | [] => xH
  | c :: s' => if c =? 0 then xO (bits_pos s') else xI (bits_pos s')
  end.

Lemma bits_pos_bits p : bits_pos (pos_bits p) = p.
Proof. induction p as [p IH|p IH|]; simpl; by rewrite ?IH. Qed.

Lemma pos_bits_bytes p : is_bytes (pos_bits p).
Proof. induction p; simpl; auto with dfly lia. Qed.

#[export] Instance bit_message {M} `{Countable M, !PbDefault M} : PbMessage M := {
  SerializeToString m := if bool_decide (m = pb_new) then [] else 2 :: pos_bits (encode m);
  ParseFromArray s := match s with [] => Some pb_new | _ :: s' => decode (bits_pos s') end
}.

#[export] Instance bit_laws {M} `{Countable M, !PbDefault M} : ProtobufLaws M.
Proof.
  refine {| pb_valid m := True |}; intros m; simpl.
  - intros _. case_bool_decide as E; [by rewrite E|]. by rewrite bits_pos_bits, decode_encode.
  - intros. by rewrite bool_decide_false.
  - case_bool_decide; auto using pos_bits_bytes with dfly lia.
Defined.

#[export] Instance pb_LogEntry_countable : Countable pb_LogEntry.
Proof.
  refine (inj_countable' (λ r, (pb_le_term r, pb_le_index r, pb_le_command r))
    (λ '(x0, x1, x2), mkpb_LogEntry x0 x1 x2) _). by intros [].
Defined.

#[export] Instance pb_AppendEntriesRequest_countable : Countable pb_AppendEntriesRequest.
Proof.
  refine (inj_countable' (λ r, (pb_areq_group_id r, pb_areq_term r, pb_areq_leader_id r, pb_areq_prev_log_index r, pb_areq_prev_log_term r, pb_areq_entries r, pb_areq_leader_commit r))
    (λ '(x0, x1, x2, x3, x4, x5, x6), mkpb_AppendEntriesRequest x0 x1 x2 x3 x4 x5 x6) _). by intros [].
Defined.

#[export] Instance pb_AppendEntriesResponse_countable : Countable pb_AppendEntriesResponse.
Proof.
  refine (inj_countable' (λ r, (pb_arsp_group_id r, pb_arsp_term r, pb_arsp_success r, pb_arsp_last_log_index r))
    (λ '(x0, x1, x2, x3), mkpb_AppendEntriesResponse x0 x1 x2 x3) _). by intros [].
Defined.

#[export] Instance pb_VoteRequest_countable : Countable pb_VoteRequest.
Proof.
  refine (inj_countable' (λ r, (pb_vreq_group_id r, pb_vreq_term r, pb_vreq_candidate_id r, pb_vreq_last_log_index r, pb_vreq_last_log_term r))
    (λ '(x0, x1, x2, x3, x4), mkpb_VoteRequest x0 x1 x2 x3 x4) _). by intros [].
Defined.

#[export] Instance pb_VoteResponse_countable : Countable pb_VoteResponse.
Proof.
  refine (inj_countable' (λ r, (pb_vrsp_group_id r, pb_vrsp_term r, pb_vrsp_vote_granted r))
    (λ '(x0, x1, x2), mkpb_VoteResponse x0 x1 x2) _). by intros [].
Defined.

#[export] Instance pb_HeartbeatRequest_countable : Countable pb_HeartbeatRequest.
Proof.
  refine (inj_countable' (λ r, (pb_hreq_group_id r, pb_hreq_term r, pb_hreq_leader_id r, pb_hreq_leader_commit r))
    (λ '(x0, x1, x2, x3), mkpb_HeartbeatRequest x0 x1 x2 x3) _). by intros [].
Defined.

#[export] Instance pb_HeartbeatResponse_countable : Countable pb_HeartbeatResponse.
Proof.
  refine (inj_countable' (λ r, (pb_hrsp_group_id r, pb_hrsp_term r, pb_hrsp_success r, pb_hrsp_last_log_index r))
    (λ '(x0, x1, x2, x3), mkpb_HeartbeatResponse x0 x1 x2 x3) _). by intros [].
Defined.

#[export] Instance pb_InstallSnapshotRequest_countable : Countable pb_InstallSnapshotRequest.
Proof.
  refine (inj_countable' (λ r, (pb_sreq_group_id r, pb_sreq_term r, pb_sreq_leader_id r, pb_sreq_last_included_index r, pb_sreq_last_included_term r, pb_sreq_offset r, pb_sreq_done r, pb_sreq_data r))
    (λ '(x0, x1, x2, x3, x4, x5, x6, x7), mkpb_InstallSnapshotRequest x0 x1 x2 x3 x4 x5 x6 x7) _). by intros [].
Defined.

#[export] Instance pb_InstallSnapshotResponse_countable : Countable pb_InstallSnapshotResponse.
Proof.
  refine (inj_countable' (λ r, (pb_srsp_group_id r, pb_srsp_term r, pb_srsp_success r))
    (λ '(x0, x1, x2), mkpb_InstallSnapshotResponse x0 x1 x2) _). by intros [].
Defined.

#[export] Instance pb_ReadIndexRequest_countable : Countable pb_ReadIndexRequest.
Proof.
  refine (inj_countable' (λ r, (pb_rreq_group_id r, pb_rreq_term r, pb_rreq_leader_id r, pb_rreq_request_id r))
    (λ '(x0, x1, x2, x3), mkpb_ReadIndexRequest x0 x1 x2 x3) _). by intros [].
Defined.

#[export] Instance pb_ReadIndexResponse_countable : Countable pb_ReadIndexResponse.
Proof.
  refine (inj_countable' (λ r, (pb_rrsp_group_id r, pb_rrsp_term r, pb_rrsp_success r, pb_rrsp_commit_index r))
    (λ '(x0, x1, x2, x3), mkpb_ReadIndexResponse x0 x1 x2 x3) _). by intros [].
Defined.

#[export] Instance pb_TimeoutNowRequest_countable : Countable pb_TimeoutNowRequest.
Proof.
  refine (inj_countable' (λ r, (pb_treq_group_id r, pb_treq_term r, pb_treq_leader_id r))
    (λ '(x0, x1, x2), mkpb_TimeoutNowRequest x0 x1 x2) _). by intros [].
Defined.

#[export] Instance pb_TimeoutNowResponse_countable : Countable pb_TimeoutNowResponse.
Proof.
  refine (inj_countable' (λ r, (pb_trsp_group_id r, pb_trsp_term r, pb_trsp_accepted r))
    (λ '(x0, x1, x2), mkpb_TimeoutNowResponse x0 x1 x2) _). by intros [].
Defined.

#[export] Instance bit_proto : RaftProto.
Proof. constructor; apply bit_message. Defined.

#[export] Instance bit_proto_laws : RaftProtoLaws.
Proof. constructor; apply bit_laws. Defined.

End BitProto.

Lemma rpc_wire_roundtrip_witness :
  let m := MVoteRequest (mkVoteRequest 1 5 (str "n1") 9 4) in
  (r ← ParseRpcFrame (@EncodeRpcFrame (rpc_type m) 7
        (@SerializePayload BitProto.bit_proto m) ++ str "x");
   let '(type, seq', payload) := r in
   m' ← @ParsePayload BitProto.bit_proto type payload; Some (seq', m')) = Some (7, m).
Proof.
  apply (@rpc_wire_roundtrip BitProto.bit_proto BitProto.bit_proto_laws).
  - split; [split; [exact I | by vm_compute] | by vm_compute].
  - by_decide.
Defined.
