(* ===== verification/LogStorage.v ===== *)
(** * The log storage interface (src/server/raft/log_storage.h)

    [LogStorage] is the abstract class [ILogStorage]; [LogStorageSpec] is the
    contract its implementations are proved to meet and its clients rely on: a
    representation relation [log_rep] to an abstract log, preserved by the
    operations. *)

From S2P Require Import Prelude RaftTypes.

(** The virtual methods.  A method that changes the storage returns the new
    storage first.  [Append] takes the [flush] flag; [GetRange] takes
    [limit = 0] for "to the end". *)
Class LogStorage (L : Type) := {
  LogSize : L → Z;
  FirstIndex : L → Z;
  LastIndex : L → Z;
  LastTerm : L → Z;
  Get : L → Z → option LogEntry;
  GetTerm : L → Z → Z;
  snapshot_anchor : L → SnapshotAnchor;
  SetSnapshotAnchor : L → Z → Z → L;
  Append : L → LogEntry → bool → L * Z;
  Persist : L → L;
  GetRange : L → Z → Z → list LogEntry;
  TruncateFrom : L → Z → L;
  CompactUpTo : L → Z → L * bool;
  Clear : L → L;
  PruneCompacted : L → L;
  Flush : L → L * bool;
  CompactLogs : L → Z → Z → L
}.

(** ** The abstract log *)

(** Entries [al_base + 1 .. al_base + length al_entries]; what lies at or below
    [al_base] has been compacted away. *)
Record alog : Type := mkAlog {
  al_base : Z;
  al_entries : list LogEntry;
  al_anchor : SnapshotAnchor
}.
#[export] Instance alog_eta : Eta alog := fun a =>
  mkAlog (al_base a) (al_entries a) (al_anchor a).

Definition al_last (a : alog) : Z := al_base a + zlen (al_entries a).

Definition al_last_term (a : alog) : Z :=
  match last (al_entries a) with Some e => le_term e | None => 0 end.

Definition al_get (a : alog) (i : Z) : option LogEntry :=
  if i <=? al_base a then None else al_entries a !! Z.to_nat (i - al_base a - 1).

Definition al_term (a : alog) (i : Z) : Z :=
  if (i =? anchor_index (al_anchor a)) && (0 <? anchor_index (al_anchor a))
  then anchor_term (al_anchor a)
  else match al_get a i with Some e => le_term e | None => 0 end.

Definition al_append (a : alog) (e : LogEntry) : alog :=
  a <| al_entries ::= fun es => es ++ [e <| le_index := al_last a + 1 |>] |>.

Definition al_truncate (a : alog) (n : Z) : alog :=
  a <| al_entries ::= take (Z.to_nat (n - al_base a)) |>.

Definition al_compact (a : alog) (i : Z) : alog :=
  a <| al_entries ::= drop (Z.to_nat (i - al_base a)) |> <| al_base := i |>.

Definition al_range (a : alog) (start limit : Z) : list LogEntry :=
  let es := drop (Z.to_nat (start - al_base a - 1)) (al_entries a) in
  if limit =? 0 then es else take (Z.to_nat limit) es.

(** [LastIndex], [LastTerm] and the next index [Append] assigns are only
    meaningful for a log that is not compacted to nothing: such a log has its
    entries at consecutive indices, and is either never compacted or non-empty. *)
Record al_wf (a : alog) : Prop := {
  al_base_nonneg : 0 ≤ al_base a;
  al_last_bound : al_last a < U64_MAX;
  al_indices i e : al_entries a !! i = Some e → le_index e = al_base a + 1 + Z.of_nat i;
  al_live : al_base a = 0 ∨ al_entries a ≠ []
}.

Lemma al_get_Some a i e : al_get a i = Some e → al_base a < i ≤ al_last a.
Proof.
  unfold al_get, al_last, zlen. case_match; [done|]. bool_norm.
  intros Hlk%lookup_lt_Some. lia.
Qed.

Lemma al_get_is_Some a i : al_base a < i ≤ al_last a → is_Some (al_get a i).
Proof.
  unfold al_get, al_last, zlen. intros. case_match; bool_norm; [lia|].
  apply lookup_lt_is_Some. lia.
Qed.

Lemma al_get_None a i : al_get a i = None ↔ i ≤ al_base a ∨ al_last a < i.
Proof.
  split.
  - intros H. destruct (decide (al_base a < i ≤ al_last a)) as [Hi|]; [|lia].
    apply al_get_is_Some in Hi as [? ?]. congruence.
  - intros H. destruct (al_get a i) eqn:E; [|done]. apply al_get_Some in E. lia.
Qed.

Lemma al_get_index a i e : al_wf a → al_get a i = Some e → le_index e = i.
Proof.
  intros Hwf Hg. pose proof (al_get_Some _ _ _ Hg). unfold al_get in Hg.
  case_match; [done|]. apply (al_indices a Hwf) in Hg. rewrite Hg. lia.
Qed.

Lemma al_last_append a e : al_last (al_append a e) = al_last a + 1.
Proof. unfold al_last. simpl. rewrite zlen_app. unfold zlen. simpl. lia. Qed.

Lemma al_last_truncate a n :
  al_base a ≤ n ≤ al_last a → al_last (al_truncate a n) = n.
Proof.
  unfold al_last. simpl. intros. rewrite zlen_take; [lia|]. unfold zlen in *. lia.
Qed.

Lemma al_last_compact a i : al_base a ≤ i ≤ al_last a → al_last (al_compact a i) = al_last a.
Proof.
  unfold al_last. simpl. intros. rewrite zlen_drop; [lia|]. unfold zlen in *. lia.
Qed.

Lemma al_append_wf a e : al_wf a → al_last a + 1 < U64_MAX → al_wf (al_append a e).
Proof.
  intros [Hb Hl Hi _] Hn. split; simpl; [done|by rewrite al_last_append| |by right; destruct (al_entries a)].
  intros i e' [H|[Hle H]]%lookup_app_Some; [by apply Hi|].
  apply list_lookup_singleton_Some in H as [H <-]. simpl. unfold al_last, zlen. lia.
Qed.

Lemma al_truncate_wf a n : al_wf a → al_base a < n ≤ al_last a → al_wf (al_truncate a n).
Proof.
  intros [Hb Hl Hi Hv] Hn. split; simpl.
  - done.
  - rewrite al_last_truncate; lia.
  - intros i e [H _]%lookup_take_Some. by apply Hi.
  - right. intros E. apply (f_equal length) in E.
    rewrite length_take in E. unfold al_last, zlen in *. simpl in E. lia.
Qed.

Lemma al_compact_wf a i : al_wf a → al_base a ≤ i < al_last a → al_wf (al_compact a i).
Proof.
  intros [Hb Hl Hi Hv] Hn. split; simpl.
  - lia.
  - rewrite al_last_compact; lia.
  - intros j e H. rewrite lookup_drop in H. apply Hi in H. lia.
  - right. intros E. apply (f_equal length) in E.
    rewrite length_drop in E. unfold al_last, zlen in *. simpl in E. lia.
Qed.

#[export] Hint Resolve al_append_wf al_truncate_wf al_compact_wf : dfly.

(** ** The contract *)

(** A log that is emptied may or may not forget its snapshot anchor. *)
Definition kept_anchor (an an' : SnapshotAnchor) : Prop := an' = an ∨ an' = default_anchor.

Lemma kept_anchor_trans an1 an2 an3 : kept_anchor an1 an2 → kept_anchor an2 an3 → kept_anchor an1 an3.
Proof. unfold kept_anchor. intros [->| ->] [->| ->]; auto. Qed.

Class LogStorageSpec (L : Type) `{!LogStorage L} := {
  log_rep : L → alog → Prop;
  rep_wf l a : log_rep l a → al_wf a;
  rep_LogSize l a : log_rep l a → LogSize l = zlen (al_entries a);
  rep_FirstIndex l a : log_rep l a →
    FirstIndex l = if bool_decide (al_entries a = []) then 0 else al_base a + 1;
  rep_LastIndex l a : log_rep l a → LastIndex l = al_last a;
  rep_LastTerm l a : log_rep l a → LastTerm l = al_last_term a;
  rep_Get l a i : log_rep l a → al_base a < i → Get l i = al_get a i;
  rep_GetTerm l a i : log_rep l a → al_base a < i → GetTerm l i = al_term a i;
  rep_GetTerm_0 l a : log_rep l a → GetTerm l 0 = 0;
  rep_anchor l a : log_rep l a → snapshot_anchor l = al_anchor a;
  rep_SetSnapshotAnchor l a i t : log_rep l a →
    log_rep (SetSnapshotAnchor l i t) (a <| al_anchor := mkSnapshotAnchor i t |>);
  rep_Append l a e flush : log_rep l a → al_last a + 1 < U64_MAX →
    log_rep (Append l e flush).1 (al_append a e) ∧ (Append l e flush).2 = al_last a + 1;
  rep_Persist l a : log_rep l a → log_rep (Persist l) a;
  rep_GetRange l a start limit : log_rep l a → al_base a < start ≤ al_last a →
    0 ≤ limit → start + limit ≤ U64_MAX → GetRange l start limit = al_range a start limit;
  rep_GetRange_out l a start limit : log_rep l a → al_last a < start → GetRange l start limit = [];
  rep_TruncateFrom l a n : log_rep l a → al_base a < n ≤ al_last a →
    log_rep (TruncateFrom l n) (al_truncate a n);
  rep_TruncateFrom_0 l a : log_rep l a → al_base a = 0 →
    ∃ anchor, log_rep (TruncateFrom l 0) (mkAlog 0 [] anchor) ∧ kept_anchor (al_anchor a) anchor;
  rep_CompactUpTo l a i : log_rep l a → al_base a < i < al_last a →
    log_rep (CompactUpTo l i).1 (al_compact a i) ∧ (CompactUpTo l i).2 = true;
  rep_Clear l a : log_rep l a → ∃ anchor, log_rep (Clear l) (mkAlog 0 [] anchor);
  rep_Flush l a : log_rep l a → log_rep (Flush l).1 a
}.
