(* ===== verification/CommandLog.v ===== *)
(** * The in-memory log (src/server/raft/command_log.h, command_log.cc)

    [CommandLog] as written, and that it implements the contract of
    [LogStorage]. *)

From S2P Require Import Prelude RaftTypes LogStorage.

(** [entries_[i]] is the entry at index [base_index_ + i]; [entries_[0]] is the
    sentinel. *)
Record CommandLog : Type := mkCommandLog {
  cl_base_index : Z;
  cl_entries : list LogEntry;
  cl_anchor : SnapshotAnchor
}.
#[export] Instance CommandLog_eta : Eta CommandLog := fun l =>
  mkCommandLog (cl_base_index l) (cl_entries l) (cl_anchor l).

Implicit Types l : CommandLog.

(** The constructor. *)
Definition CommandLog_new : CommandLog := mkCommandLog 0 [mkLogEntry 0 0 []] default_anchor.

Definition CommandLog_LastIndex l : Z :=
  if zlen (cl_entries l) <=? 1 then 0 else u64 (cl_base_index l + zlen (cl_entries l) - 1).

Definition CommandLog_FirstIndex l : Z :=
  if zlen (cl_entries l) <=? 1 then 0
  else let first := u64 (cl_base_index l + 1) in
       if first <=? CommandLog_LastIndex l then first else 0.

Definition CommandLog_LogSize l : Z :=
  if zlen (cl_entries l) <=? 1 then 0
  else u64 (CommandLog_LastIndex l - CommandLog_FirstIndex l + 1).

Definition CommandLog_LastTerm l : Z :=
  if zlen (cl_entries l) <=? 1 then 0
  else match last (cl_entries l) with Some e => le_term e | None => 0 end.

Definition CommandLog_Get l (index : Z) : option LogEntry :=
  if (index <? cl_base_index l) || (CommandLog_LastIndex l <? index) then None
  else cl_entries l !! Z.to_nat (index - cl_base_index l).

Definition CommandLog_GetTerm l (index : Z) : Z :=
  if (index =? anchor_index (cl_anchor l)) && (0 <? anchor_index (cl_anchor l))
  then anchor_term (cl_anchor l)
  else match CommandLog_Get l index with Some e => le_term e | None => 0 end.

Definition CommandLog_SetSnapshotAnchor l (index term : Z) : CommandLog :=
  l <| cl_anchor := mkSnapshotAnchor index term |>.

Definition CommandLog_Append l (entry : LogEntry) (flush : bool) : CommandLog * Z :=
  let entry := entry <| le_index := u64 (CommandLog_LastIndex l + 1) |> in
  (l <| cl_entries ::= fun es => es ++ [entry] |>, le_index entry).

Definition CommandLog_GetRange l (start limit : Z) : list LogEntry :=
  if (start <? CommandLog_FirstIndex l) || (CommandLog_LastIndex l <? start) then []
  else
    let physical_start := start - cl_base_index l in
    let size := zlen (cl_entries l) in
    let end_ := if limit =? 0 then size else Z.min size (u64 (physical_start + limit)) in
    take (Z.to_nat (end_ - physical_start)) (drop (Z.to_nat physical_start) (cl_entries l)).

(** [DCHECK_LT(physical, entries_.size())] is compiled out of release builds;
    [resize] then pads with default entries. *)
Definition CommandLog_TruncateFrom l (new_last : Z) : CommandLog :=
  if new_last <=? cl_base_index l
  then l <| cl_entries ::= resize 1 default_LogEntry |>
  else
    let physical := new_last - cl_base_index l in
    l <| cl_entries ::= resize (Z.to_nat (physical + 1)) default_LogEntry |>.

Definition CommandLog_CompactUpTo l (index : Z) : CommandLog * bool :=
  if index <=? cl_base_index l then (l, true)
  else if CommandLog_LastIndex l <=? index
  then (l <| cl_base_index := index |> <| cl_entries ::= resize 1 default_LogEntry |>, true)
  else
    let keep_from := index - cl_base_index l + 1 in
    let es := cl_entries l in
    let es := if keep_from <? zlen es
              then take 1 es ++ drop (Z.to_nat keep_from) es
              else resize 1 default_LogEntry es in
    (l <| cl_entries := es |> <| cl_base_index := index |>, true).

Definition CommandLog_Clear l : CommandLog :=
  l <| cl_base_index := 0 |> <| cl_entries ::= resize 1 default_LogEntry |>.

(** [AppendLog(const std::vector<LogEntry>&)], also [AppendBatch]. *)
Definition CommandLog_AppendLog l (entries : list LogEntry) : CommandLog :=
  fold_left (fun l e =>
    let copy := e <| le_index := u64 (CommandLog_LastIndex l + 1) |> in
    l <| cl_entries ::= fun es => es ++ [copy] |>) entries l.

(** [Persist], [PruneCompacted], [Flush] and [CompactLogs] are the defaults of
    [ILogStorage]. *)
#[export] Instance CommandLog_storage : LogStorage CommandLog := {
  LogSize := CommandLog_LogSize;
  FirstIndex := CommandLog_FirstIndex;
  LastIndex := CommandLog_LastIndex;
  LastTerm := CommandLog_LastTerm;
  Get := CommandLog_Get;
  GetTerm := CommandLog_GetTerm;
  snapshot_anchor := cl_anchor;
  SetSnapshotAnchor := CommandLog_SetSnapshotAnchor;
  Append := CommandLog_Append;
  Persist l := l;
  GetRange := CommandLog_GetRange;
  TruncateFrom := CommandLog_TruncateFrom;
  CompactUpTo := CommandLog_CompactUpTo;
  Clear := CommandLog_Clear;
  PruneCompacted l := l;
  Flush l := (l, true);
  CompactLogs l i t := (CommandLog_CompactUpTo (CommandLog_SetSnapshotAnchor l i t) i).1
}.

(** ** Refinement of the abstract log *)

Definition CommandLog_rep l (a : alog) : Prop :=
  al_wf a ∧ cl_base_index l = al_base a ∧ cl_anchor l = al_anchor a ∧
  ∃ sentinel, cl_entries l = sentinel :: al_entries a ∧ le_term sentinel = 0.

Section refinement.
Context (l : CommandLog) (a : alog) (Hrep : CommandLog_rep l a).

Lemma cl_zlen : zlen (cl_entries l) = 1 + zlen (al_entries a).
Proof. destruct Hrep as (_ & _ & _ & s & -> & _). apply zlen_cons. Qed.

Lemma cl_LastIndex : CommandLog_LastIndex l = al_last a.
Proof.
  pose proof cl_zlen. destruct Hrep as (Hwf & Hb & _). unfold CommandLog_LastIndex.
  pose proof (al_base_nonneg a Hwf). pose proof (al_last_bound a Hwf).
  unfold al_last in *. pose proof (zlen_nonneg (al_entries a)). case_match; bool_norm.
  - destruct (al_live a Hwf) as [->|Hne]; [lia|].
    destruct (al_entries a) as [|e es]; [done|]. rewrite zlen_cons in *. pose proof (zlen_nonneg es). lia.
  - rewrite Hb, u64_small by lia. lia.
Qed.

Lemma cl_FirstIndex :
  CommandLog_FirstIndex l = if bool_decide (al_entries a = []) then 0 else al_base a + 1.
Proof.
  pose proof cl_zlen as Hz. pose proof cl_LastIndex as HL. destruct Hrep as (Hwf & Hb & _).
  pose proof (al_base_nonneg a Hwf). pose proof (al_last_bound a Hwf).
  unfold CommandLog_FirstIndex. rewrite HL, Hz, Hb. unfold al_last in *.
  destruct (al_entries a) as [|e es]; [done|]. rewrite zlen_cons in *.
  pose proof (zlen_nonneg es). rewrite bool_decide_false by done. case_match; bool_norm; [lia|].
  unwrap. case_match; bool_norm; lia.
Qed.

Lemma cl_Get i : al_base a < i → CommandLog_Get l i = al_get a i.
Proof.
  intros Hi. unfold CommandLog_Get, al_get. rewrite cl_LastIndex.
  destruct Hrep as (Hwf & Hb & _ & s & He & _). rewrite Hb, He.
  rewrite (proj2 (Z.ltb_ge i (al_base a))), (proj2 (Z.leb_gt i (al_base a))) by lia. simpl.
  case_match; bool_norm.
  - symmetry. apply lookup_ge_None_2. unfold al_last, zlen in *. lia.
  - replace (Z.to_nat (i - al_base a)) with (S (Z.to_nat (i - al_base a - 1))) by lia. done.
Qed.

Lemma cl_GetTerm i : al_base a < i → CommandLog_GetTerm l i = al_term a i.
Proof.
  intros Hi. unfold CommandLog_GetTerm, al_term. rewrite cl_Get by done.
  by destruct Hrep as (_ & _ & -> & _).
Qed.

Lemma cl_GetTerm_0 : CommandLog_GetTerm l 0 = 0.
Proof.
  unfold CommandLog_GetTerm, CommandLog_Get. rewrite cl_LastIndex.
  destruct Hrep as (Hwf & Hb & _ & s & He & Hs). pose proof (al_base_nonneg a Hwf).
  case_match; bool_norm; [lia|]. rewrite He, Hb.
  destruct (Z.ltb_spec 0 (al_base a)); simpl; [done|].
  replace (al_base a) with 0 by lia. by destruct (al_last a <? 0).
Qed.

Lemma cl_LastTerm : CommandLog_LastTerm l = al_last_term a.
Proof.
  unfold CommandLog_LastTerm, al_last_term. rewrite cl_zlen.
  destruct Hrep as (_ & _ & _ & s & -> & _). destruct (al_entries a) as [|e es]; [done|].
  rewrite zlen_cons. pose proof (zlen_nonneg es). case_match; bool_norm; [lia|].
  by rewrite last_cons_cons.
Qed.

Lemma cl_GetRange start limit :
  al_base a < start ≤ al_last a → 0 ≤ limit → start + limit ≤ U64_MAX →
  CommandLog_GetRange l start limit = al_range a start limit.
Proof.
  intros Hs Hlim Hb. unfold CommandLog_GetRange, al_range.
  rewrite cl_LastIndex, cl_FirstIndex, cl_zlen. pose proof (zlen_nonneg (al_entries a)).
  destruct Hrep as (Hwf & -> & _ & s & -> & _). pose proof (al_base_nonneg a Hwf).
  rewrite (proj2 (Z.ltb_ge (al_last a) start)), orb_false_r by lia.
  rewrite (proj2 (Z.ltb_ge start _)) by (case_bool_decide; lia).
  replace (Z.to_nat (start - al_base a)) with (S (Z.to_nat (start - al_base a - 1))) by lia.
  simpl drop. unfold al_last in *. case_match; bool_norm.
  - apply take_ge. rewrite length_drop. unfold zlen. lia.
  - unwrap. destruct (decide (limit ≤ 1 + zlen (al_entries a) - (start - al_base a))).
    + f_equal. lia.
    + rewrite !take_ge; [done|..]; rewrite length_drop; unfold zlen in *; lia.
Qed.
End refinement.

Lemma cl_rep_keep l a (es : list LogEntry) s base :
  cl_anchor l = al_anchor a → le_term s = 0 → al_wf (mkAlog base es (al_anchor a)) →
  CommandLog_rep (mkCommandLog base (s :: es) (cl_anchor l)) (mkAlog base es (al_anchor a)).
Proof. intros. split_and!; simpl; eauto. Qed.

Lemma cl_Append l a e flush :
  CommandLog_rep l a → al_last a + 1 < U64_MAX →
  CommandLog_rep (CommandLog_Append l e flush).1 (al_append a e) ∧
  (CommandLog_Append l e flush).2 = al_last a + 1.
Proof.
  intros Hrep Hb. unfold CommandLog_Append. rewrite (cl_LastIndex l a Hrep).
  destruct Hrep as (Hwf & Hbase & Ha & s & He & Hs). pose proof (al_base_nonneg a Hwf).
  rewrite u64_small by (unfold al_last in *; pose proof (zlen_nonneg (al_entries a)); lia).
  split; [|done]. split_and!; simpl; auto with dfly. exists s. by rewrite He.
Qed.

Lemma cl_TruncateFrom l a n :
  CommandLog_rep l a → al_base a < n ≤ al_last a →
  CommandLog_rep (CommandLog_TruncateFrom l n) (al_truncate a n).
Proof.
  intros (Hwf & Hb & Ha & s & He & Hs) Hn. unfold CommandLog_TruncateFrom. rewrite Hb.
  case_match; bool_norm; [lia|]. split_and!; simpl; auto with dfly. exists s. split; [|done].
  rewrite He. replace (Z.to_nat (n - al_base a + 1)) with (S (Z.to_nat (n - al_base a))) by lia.
  simpl. f_equal. apply resize_le. unfold al_last, zlen in *. lia.
Qed.

Lemma cl_CompactUpTo l a i :
  CommandLog_rep l a → al_base a < i < al_last a →
  CommandLog_rep (CommandLog_CompactUpTo l i).1 (al_compact a i) ∧
  (CommandLog_CompactUpTo l i).2 = true.
Proof.
  intros Hrep Hi. unfold CommandLog_CompactUpTo. rewrite (cl_LastIndex l a Hrep).
  pose proof (cl_zlen l a Hrep) as Hz. destruct Hrep as (Hwf & Hb & Ha & s & He & Hs). rewrite Hb, Hz.
  case_match; bool_norm; [lia|]. case_match; bool_norm; [lia|]. split; [|done].
  unfold al_last in *. split_and!; simpl; auto.
  { apply (al_compact_wf a i Hwf). unfold al_last. lia. }
  exists s. split; [|done]. case_match; bool_norm; [|lia].
  rewrite He. replace (Z.to_nat (i - al_base a + 1)) with (S (Z.to_nat (i - al_base a))) by lia. done.
Qed.

Lemma cl_Clear l a :
  CommandLog_rep l a → CommandLog_rep (CommandLog_Clear l) (mkAlog 0 [] (al_anchor a)).
Proof.
  intros (Hwf & Hb & Ha & s & He & Hs). split_and!; simpl; auto.
  - split; simpl; [lia| |done|by left]. by_compute.
  - exists s. rewrite He. simpl. destruct (al_entries a); done.
Qed.

#[export] Instance CommandLog_spec : LogStorageSpec CommandLog.
Proof.
  refine {| log_rep := CommandLog_rep |}.
  - by intros l a [? _].
  - intros l a Hr. simpl. unfold CommandLog_LogSize.
    rewrite (cl_LastIndex l a Hr), (cl_FirstIndex l a Hr), (cl_zlen l a Hr).
    destruct Hr as (Hwf & _). pose proof (al_base_nonneg a Hwf). pose proof (al_last_bound a Hwf).
    pose proof (zlen_nonneg (al_entries a)). unfold al_last in *. case_match; bool_norm; [lia|].
    rewrite bool_decide_false by (intros E; rewrite E, zlen_nil in *; lia).
    unwrap. lia.
  - apply cl_FirstIndex.
  - apply cl_LastIndex.
  - apply cl_LastTerm.
  - intros l a i Hr. by apply cl_Get.
  - intros l a i Hr. by apply cl_GetTerm.
  - apply cl_GetTerm_0.
  - by intros l a (_ & _ & ? & _).
  - intros l a i t (Hwf & Hb & _ & s & He & Hs). split_and!; simpl; eauto. by destruct Hwf.
  - intros l a e flush Hr. by apply cl_Append.
  - done.
  - intros l a start limit Hr. by apply cl_GetRange.
  - intros l a start limit Hr Hs. simpl. unfold CommandLog_GetRange.
    rewrite (cl_LastIndex l a Hr), (proj2 (Z.ltb_lt _ _) Hs). by rewrite orb_true_r.
  - intros l a n Hr. by apply cl_TruncateFrom.
  - intros l a Hr Hb. eexists. replace (TruncateFrom l 0) with (CommandLog_Clear l); [split; [by apply cl_Clear|by left]|].
    destruct Hr as (_ & E & _). simpl. unfold CommandLog_TruncateFrom, CommandLog_Clear.
    destruct l as [b es an]. simpl in *. by rewrite E, Hb.
  - intros l a i Hr. by apply cl_CompactUpTo.
  - intros l a Hr. eexists. by apply cl_Clear.
  - done.
Defined.

(** ** Sequences of operations *)

Inductive log_op : Type :=
  | OpAppend (e : LogEntry) (flush : bool)
  | OpTruncateFrom (n : Z)
  | OpCompactUpTo (i : Z)
  | OpSetSnapshotAnchor (i t : Z)
  | OpPersist
  | OpFlush.

Definition run_op {L} `{!LogStorage L} (l : L) (op : log_op) : L :=
  match op with
  | OpAppend e flush => (Append l e flush).1
  | OpTruncateFrom n => TruncateFrom l n
  | OpCompactUpTo i => (CompactUpTo l i).1
  | OpSetSnapshotAnchor i t => SetSnapshotAnchor l i t
  | OpPersist => Persist l
  | OpFlush => (Flush l).1
  end.

(** The operation on the abstract log; [None] when it is outside the contract. *)
Definition al_op (a : alog) (op : log_op) : option alog :=
  match op with
  | OpAppend e _ => if al_last a + 1 <? U64_MAX then Some (al_append a e) else None
  | OpTruncateFrom n =>
      if (al_base a <? n) && (n <=? al_last a) then Some (al_truncate a n) else None
  | OpCompactUpTo i =>
      if (al_base a <? i) && (i <? al_last a) then Some (al_compact a i) else None
  | OpSetSnapshotAnchor i t => Some (a <| al_anchor := mkSnapshotAnchor i t |>)
  | OpPersist | OpFlush => Some a
  end.

Lemma run_op_rep {L} `{!LogStorage L, !LogStorageSpec L} (l : L) a op a' :
  log_rep l a → al_op a op = Some a' → log_rep (run_op l op) a'.
Proof.
  intros Hr. destruct op; simpl; repeat case_match; intros E; simplify_eq; bool_norm.
  - apply rep_Append; [done|lia].
  - apply rep_TruncateFrom; [done|lia].
  - apply rep_CompactUpTo; [done|lia].
  - by apply rep_SetSnapshotAnchor.
  - by apply rep_Persist.
  - by apply rep_Flush.
Qed.

Fixpoint al_ops (a : alog) (ops : list log_op) : option alog :=
  match ops with
  | [] => Some a
  | op :: ops => a' ← al_op a op; al_ops a' ops
  end.

Lemma run_ops_rep {L} `{!LogStorage L, !LogStorageSpec L} ops : ∀ (l : L) a a',
  log_rep l a → al_ops a ops = Some a' → log_rep (fold_left run_op ops l) a'.
Proof.
  induction ops as [|op ops IH]; intros l a a' Hr; simpl; [by intros [= <-]|].
  destruct (al_op a op) as [a1|] eqn:E; [|done]. simpl. apply IH. by eapply run_op_rep.
Qed.

Definition alog_empty : alog := mkAlog 0 [] default_anchor.

Lemma CommandLog_new_rep : log_rep CommandLog_new alog_empty.
Proof.
  split_and!; [|done|done|by eexists]. split; simpl; [lia| |done|by left]. by_compute.
Qed.

(** C5. The in-memory log is a log: after any sequence of appends, truncations,
    compactions and anchor changes within its range, every query answers for
    exactly the entries that the sequence leaves. *)
Theorem CommandLog_refines ops a :
  al_ops alog_empty ops = Some a →
  let l := fold_left run_op ops CommandLog_new in
  CommandLog_LastIndex l = al_last a ∧ CommandLog_LastTerm l = al_last_term a ∧
  CommandLog_LogSize l = zlen (al_entries a) ∧
  (∀ i, al_base a < i → CommandLog_Get l i = al_get a i) ∧
  (∀ i, al_base a < i → CommandLog_GetTerm l i = al_term a i) ∧
  (∀ start limit, al_base a < start ≤ al_last a → 0 ≤ limit → start + limit ≤ U64_MAX →
     CommandLog_GetRange l start limit = al_range a start limit).
Proof.
  intros Hops l. pose proof (run_ops_rep ops _ _ _ CommandLog_new_rep Hops) as Hr. fold l in Hr.
  split_and!.
  - exact (rep_LastIndex l a Hr).
  - exact (rep_LastTerm l a Hr).
  - exact (rep_LogSize l a Hr).
  - intros i. exact (rep_Get l a i Hr).
  - intros i. exact (rep_GetTerm l a i Hr).
  - intros start limit. exact (rep_GetRange l a start limit Hr).
Qed.

Lemma CommandLog_refines_witness :
  let e t c := mkLogEntry t 0 (str c) in
  let ops := [OpAppend (e 1 "a") true; OpAppend (e 1 "b") true; OpAppend (e 2 "c") false;
              OpCompactUpTo 1; OpSetSnapshotAnchor 1 1; OpTruncateFrom 2; OpAppend (e 3 "d") true] in
  CommandLog_LastIndex (fold_left run_op ops CommandLog_new) = 3.
Proof.
  intros e ops.
  destruct (CommandLog_refines ops (default alog_empty (al_ops alog_empty ops))) as [H _];
    [vm_compute; reflexivity|]. rewrite H. vm_compute. reflexivity.
Defined.

(** A log that is compacted up to its last entry forgets where it was: its
    last index is 0 again, and the next entry gets index 1, although the
    entries up to the compaction point are gone. *)
Theorem CommandLog_full_compaction l a e flush :
  log_rep l a → al_entries a ≠ [] →
  let l' := (CommandLog_CompactUpTo l (CommandLog_LastIndex l)).1 in
  0 < CommandLog_LastIndex l ∧ CommandLog_LastIndex l' = 0 ∧ CommandLog_LastTerm l' = 0 ∧
  (CommandLog_Append l' e flush).2 = 1.
Proof.
  intros Hr Hne. pose proof Hr as (Hwf & Hb & _ & s & He & _).
  pose proof (al_base_nonneg a Hwf). assert (0 < zlen (al_entries a)) as Hlen
    by (destruct (al_entries a); [done|rewrite zlen_cons; pose proof (zlen_nonneg l1); lia]).
  rewrite (cl_LastIndex l a Hr). unfold CommandLog_CompactUpTo. rewrite (cl_LastIndex l a Hr), Hb.
  assert (al_base a < al_last a) by (unfold al_last; lia).
  rewrite (proj2 (Z.leb_gt _ _)), (proj2 (Z.leb_le (al_last a) (al_last a))) by lia. simpl.
  unfold CommandLog_LastIndex, CommandLog_LastTerm. simpl. rewrite He.
  assert (resize 1 default_LogEntry (s :: al_entries a) = [s]) as -> by (by destruct (al_entries a)).
  split_and!; [lia|reflexivity..].
Qed.

Definition CommandLog_of (es : list LogEntry) : CommandLog :=
  fold_left run_op (map (λ e, OpAppend e true) es) CommandLog_new.

Lemma CommandLog_full_compaction_witness :
  let l := CommandLog_of [mkLogEntry 1 0 (str "a"); mkLogEntry 1 0 (str "b")] in
  let l' := (CommandLog_CompactUpTo l (CommandLog_LastIndex l)).1 in
  CommandLog_LastIndex l = 2 ∧ CommandLog_LastIndex l' = 0 ∧
  (CommandLog_Append l' (mkLogEntry 1 0 (str "c")) true).2 = 1.
Proof.
  intros l l'. set (a := default alog_empty (al_ops alog_empty
    [OpAppend (mkLogEntry 1 0 (str "a")) true; OpAppend (mkLogEntry 1 0 (str "b")) true])).
  destruct (CommandLog_full_compaction l a (mkLogEntry 1 0 (str "c")) true) as (_ & H1 & _ & H2).
  - apply (run_ops_rep [OpAppend (mkLogEntry 1 0 (str "a")) true; OpAppend (mkLogEntry 1 0 (str "b")) true]
      _ alog_empty); [apply CommandLog_new_rep|reflexivity].
  - done.
  - split; [reflexivity|]. split; [exact H1|exact H2].
Defined.
