(* ===== verification/Json.v ===== *)
(** * The hand-written JSON reader and writer

    The helpers that raft_storage.cc, apply_progress.cc and manifest.cc use to
    write and read back their one-line JSON records: escaping, field search,
    number and string parsing, and the lemmas that locate a field in a record. *)

From S2P Require Import Prelude.

Definition DQ : Z := 34.
Definition BSL : Z := 92.
Definition COLON : Z := 58.
Definition COMMA : Z := 44.

Definition quoted (name : bytes) : bytes := [DQ] ++ name ++ [DQ].

Definition is_blank (c : Z) : bool := (c =? 32) || (c =? 9).

(** The position of the value of field [name]: past the quoted name, the next
    colon and blanks.  [None] is [npos]. *)
Definition find_field (data name : bytes) : option Z :=
  pos ← find_from (quoted name) data 0;
  colon ← find_from [COLON] data pos;
  let start := colon + 1 in
  Some (start + zlen (take_while is_blank (drop (Z.to_nat start) data))).

Definition parse_uint (data name : bytes) : option Z :=
  pos ← find_field data name;
  strtoull (drop (Z.to_nat pos) data).

(** The index of the closing quote, the scan starting after the opening one. *)
Fixpoint end_quote (s : bytes) (escaped : bool) : option nat :=
  match s with
  | [] => None
  | c :: s' =>
      if escaped then S <$> end_quote s' false
      else if c =? BSL then S <$> end_quote s' true
      else if c =? DQ then Some 0%nat
      else S <$> end_quote s' false
  end.

(** ** Escaping *)

Definition hex_digit (n : Z) : Z := if n <? 10 then 48 + n else 87 + n.

Definition EscapeChar (c : Z) : bytes :=
  if c =? DQ then [BSL; DQ]
  else if c =? BSL then [BSL; BSL]
  else if c =? 10 then [BSL; 110]
  else if c =? 13 then [BSL; 114]
  else if c =? 9 then [BSL; 116]
  else if c <? 0x20 then [BSL; 117; 48; 48; hex_digit (c / 16); hex_digit (c mod 16)]
  else [c].

Definition EscapeJson (raw : bytes) : bytes := concat (map EscapeChar raw).

Definition is_xdigit (c : Z) : bool :=
  is_digit c || ((97 <=? c) && (c <=? 102)) || ((65 <=? c) && (c <=? 70)).

Definition xdigit_val (c : Z) : Z :=
  if is_digit c then c - 48 else if 97 <=? c then c - 87 else c - 55.

(** [strtol(s, &end, 16)]: the value and the number of bytes consumed (0 when
    there are no digits). *)
Definition strtol16 (s : bytes) : Z * nat :=
  let s1 := drop_while is_space s in
  let '(neg, s2) := match s1 with
                    | c :: s' => if c =? 45 then (true, s') else if c =? 43 then (false, s') else (false, s1)
                    | [] => (false, s1)
                    end in
  let s3 := match s2 with
            | z :: x :: d :: s' =>
                if (z =? 48) && ((x =? 120) || (x =? 88)) && is_xdigit d then d :: s' else s2
            | _ => s2
            end in
  match take_while is_xdigit s3 with
  | [] => (0, 0%nat)
  | ds => let v := fold_left (fun v c => v * 16 + xdigit_val c) ds 0 in
          ((if (neg : bool) then - v else v), (length s - length s3 + length ds)%nat)
  end.

Fixpoint UnescapeJson (escaped : bytes) : bytes :=
  match escaped with
  | [] => []
  | c :: s1 =>
      if c =? BSL then
        match s1 with
        | [] => c :: UnescapeJson s1
        | d :: s2 =>
            if d =? DQ then DQ :: UnescapeJson s2
            else if d =? BSL then BSL :: UnescapeJson s2
            else if d =? 110 then 10 :: UnescapeJson s2
            else if d =? 114 then 13 :: UnescapeJson s2
            else if d =? 116 then 9 :: UnescapeJson s2
            else if d =? 117 then
              match s2 with
              | h1 :: h2 :: h3 :: h4 :: s3 =>
                  let '(cp, n) := strtol16 [h1; h2; h3; h4] in
                  if (n =? 4)%nat && (0 <? cp) && (cp <? 0x80)
                  then cp :: UnescapeJson s3 else UnescapeJson s3
              | _ => UnescapeJson s1
              end
            else c :: UnescapeJson s1
        end
      else c :: UnescapeJson s1
  end.

Definition parse_string (data name : bytes) : option bytes :=
  pos ← find_field data name;
  if (zlen data <=? pos) || negb (byte_at data pos =? DQ) then None
  else
    n ← end_quote (drop (Z.to_nat (pos + 1)) data) false;
    Some (UnescapeJson (substr data (pos + 1) (Z.of_nat n))).

(** ** Escaping round trip *)

Lemma hex_pair_parse c : 0 < c < 0x20 →
  strtol16 [48; 48; hex_digit (c / 16); hex_digit (c mod 16)] = (c, 4%nat).
Proof.
  intros Hc.
  assert (forallb (λ i, bool_decide (strtol16 [48; 48; hex_digit (Z.of_nat i / 16);
    hex_digit (Z.of_nat i mod 16)] = (Z.of_nat i, 4%nat))) (seq 1 31) = true) as H
    by (vm_compute; reflexivity).
  rewrite forallb_forall in H. specialize (H (Z.to_nat c)). rewrite !Z2Nat.id in H by lia.
  apply (bool_decide_eq_true_1 _), H, in_seq. lia.
Qed.

Lemma UnescapeJson_EscapeChar c s :
  0 < c → UnescapeJson (EscapeChar c ++ s) = c :: UnescapeJson s.
Proof.
  intros Hc. unfold EscapeChar.
  repeat (case_match; bool_norm; [subst; reflexivity|]).
  case_match; bool_norm.
  - pose proof (hex_pair_parse c ltac:(lia)) as Hh. simpl app.
    remember (strtol16 _) as r eqn:Hr in Hh. cbn [UnescapeJson]. simpl (BSL =? BSL). cbv iota.
    change (117 =? DQ) with false. change (117 =? BSL) with false. cbn -[strtol16 hex_digit].
    rewrite <-Hr, Hh. cbn. rewrite (proj2 (Z.ltb_lt 0 c)), (proj2 (Z.ltb_lt c 128)) by lia. done.
  - cbn [app UnescapeJson]. unfold BSL, DQ in *. by rewrite (proj2 (Z.eqb_neq c 92)).
Qed.

Lemma UnescapeJson_EscapeJson_app raw s :
  Forall (λ c, 0 < c) raw → UnescapeJson (EscapeJson raw ++ s) = raw ++ UnescapeJson s.
Proof.
  induction 1 as [|c raw Hc _ IH]; [done|].
  unfold EscapeJson in *. simpl. rewrite <-app_assoc, UnescapeJson_EscapeChar by done. by rewrite IH.
Qed.

Lemma UnescapeJson_EscapeJson raw :
  Forall (λ c, 0 < c) raw → UnescapeJson (EscapeJson raw) = raw.
Proof.
  intros. pose proof (UnescapeJson_EscapeJson_app raw []) as E.
  rewrite app_nil_r in E. rewrite E by done. apply app_nil_r.
Qed.

Lemma end_quote_EscapeChar c s :
  0 ≤ c →
  end_quote (EscapeChar c ++ s) false = (λ n, (length (EscapeChar c) + n)%nat) <$> end_quote s false.
Proof.
  intros H0. assert (∀ o : option nat, S <$> (S <$> o) = (λ n, (2 + n)%nat) <$> o) as E2 by (by intros []).
  unfold EscapeChar. repeat (case_match; bool_norm; [subst; simpl; apply E2|]).
  assert (∀ d, 0 ≤ d < 16 → (hex_digit d =? BSL) = false ∧ (hex_digit d =? DQ) = false) as Hx.
  { intros d Hd. unfold hex_digit, BSL, DQ. case_match; bool_norm; lia. }
  case_match; bool_norm; cbn [app end_quote length].
  - change (BSL =? BSL) with true. change (48 =? BSL) with false. change (48 =? DQ) with false.
    cbv iota.
    destruct (Hx (c / 16)) as [-> ->]; [split; [apply Z.div_pos; lia|apply Z.div_lt_upper_bound; lia]|].
    destruct (Hx (c mod 16)) as [-> ->]; [apply Z.mod_pos_bound; lia|].
    by destruct (end_quote s false).
  - rewrite (proj2 (Z.eqb_neq c BSL)), (proj2 (Z.eqb_neq c DQ)) by done. by destruct (end_quote s false).
Qed.

Lemma end_quote_EscapeJson raw s :
  Forall (λ c, 0 ≤ c) raw →
  end_quote (EscapeJson raw ++ [DQ] ++ s) false = Some (length (EscapeJson raw)).
Proof.
  induction 1 as [|c raw Hc _ IH]; [done|]. unfold EscapeJson in *. simpl in *.
  rewrite <-app_assoc, end_quote_EscapeChar, IH by done. simpl. by rewrite length_app.
Qed.

(** An id that needs no escaping. *)
Definition plain_char (c : Z) : bool := (0x20 <=? c) && negb (c =? DQ) && negb (c =? BSL).
Definition plain (s : bytes) : Prop := Forall (λ c, plain_char c = true) s.

Lemma EscapeJson_plain s : plain s → EscapeJson s = s.
Proof.
  induction 1 as [|c s Hc _ IH]; [done|]. unfold EscapeJson in *. simpl. rewrite IH.
  unfold plain_char, EscapeChar, DQ, BSL in *.
  repeat (case_match; bool_norm; [lia|]). done.
Qed.

Definition no_DQ (t : bytes) : Prop := Forall (λ x, x ≠ DQ) t.

#[export] Instance no_DQ_dec t : Decision (no_DQ t).
Proof. unfold no_DQ. apply _. Defined.

Lemma plain_no_DQ s : plain s → no_DQ s.
Proof.
  intros H. eapply Forall_impl; [exact H|]. simpl. unfold plain_char. intros c Hc. by bool_norm.
Qed.

Lemma UnescapeJson_plain s : plain s → UnescapeJson s = s.
Proof.
  intros H. rewrite <-(EscapeJson_plain s H) at 1. apply UnescapeJson_EscapeJson.
  eapply Forall_impl; [exact H|]. simpl. unfold plain_char. intros c Hc. bool_norm. lia.
Qed.

(** ** Locating a field *)

Lemma find_nat_step pat x s :
  ¬ pat `prefix_of` x :: s → find_nat pat (x :: s) = S <$> find_nat pat s.
Proof. intros. cbn [find_nat]. by rewrite bool_decide_false. Qed.

Lemma find_nat_skip1 c pat x s :
  x ≠ c → find_nat (c :: pat) (x :: s) = S <$> find_nat (c :: pat) s.
Proof. intros. apply find_nat_step. intros [k Hk]. simplify_eq/=. Qed.

Lemma find_nat_skip c pat p s :
  Forall (λ x, x ≠ c) p →
  find_nat (c :: pat) (p ++ s) = (λ n, (length p + n)%nat) <$> find_nat (c :: pat) s.
Proof.
  induction 1 as [|x p Hx _ IH]; simpl app.
  - by destruct (find_nat _ s).
  - rewrite find_nat_skip1, IH by done. by destruct (find_nat _ s).
Qed.

Lemma app_sep_inj (c : Z) (a b s t : bytes) :
  Forall (λ x, x ≠ c) a → Forall (λ x, x ≠ c) b → a ++ c :: s = b ++ c :: t → a = b.
Proof.
  intros Ha. revert b. induction Ha as [|x a Hx _ IH]; intros [|y b] Hb E; simplify_eq/=;
    try done; inversion Hb; subst; try done. f_equal. by apply IH.
Qed.

Lemma find_from_0 pat s : find_from pat s 0 = Z.of_nat <$> find_nat pat s.
Proof.
  unfold find_from. change (Z.to_nat 0) with 0%nat. rewrite drop_0. by destruct (find_nat pat s).
Qed.

Section fields.
Context (name : bytes) (Hname : Forall (λ x, x ≠ DQ) name).

Lemma find_here s : find_nat (quoted name) (quoted name ++ s) = Some 0%nat.
Proof.
  destruct (quoted name ++ s) as [|x k] eqn:E; [done|]. cbn [find_nat].
  rewrite bool_decide_true; [done|]. rewrite <-E. by exists s.
Qed.

(** A quoted text that is not the name, followed by a separator that is not the
    name's first byte, holds no occurrence of the quoted name. *)
Lemma find_skip_quoted x c s :
  Forall (λ x, x ≠ DQ) x → x ≠ name → c ≠ DQ → head name ≠ Some c → name ≠ [] →
  find_nat (quoted name) (quoted x ++ c :: s) =
    (λ n, (length (quoted x ++ [c]) + n)%nat) <$> find_nat (quoted name) s.
Proof.
  intros Hx Hne Hc Hh Hnn. unfold quoted. destruct name as [|h nm] eqn:En; [done|].
  replace (([DQ] ++ x ++ [DQ]) ++ c :: s) with (DQ :: x ++ DQ :: c :: s)
    by (simpl; by rewrite <-app_assoc).
  rewrite find_nat_step.
  - change ([DQ] ++ (h :: nm) ++ [DQ]) with (DQ :: (h :: nm) ++ [DQ]).
    rewrite find_nat_skip by done. rewrite find_nat_step by (intros [k Hk]; simplify_eq/=).
    rewrite find_nat_skip1 by done. rewrite !length_app.
    destruct (find_nat _ s); simpl; [|done]. f_equal. rewrite ?length_app. simpl. lia.
  - intros [k Hk]. simplify_eq/=. apply Hne. symmetry. eapply (app_sep_inj DQ (h :: nm) x k); [done..|].
    rewrite <-!app_assoc in Hk. simpl in *. symmetry. exact Hk.
Qed.

Context (Hcolon : Forall (λ x, x ≠ COLON) name).

Lemma find_field_at data p rest :
  data = p ++ quoted name ++ [COLON] ++ rest →
  find_nat (quoted name) data = Some (length p) →
  take_while is_blank rest = [] →
  find_field data name = Some (zlen (p ++ quoted name ++ [COLON])).
Proof.
  intros Hd Hf Hb. unfold find_field. rewrite find_from_0, Hf.
  cbn [fmap option_fmap option_map mbind option_bind].
  replace (Z.of_nat (length p)) with (zlen p) by done. rewrite Hd.
  rewrite (find_from_first COLON [] p (quoted name)).
  - cbn [mbind option_bind].
    assert (zlen p + zlen (quoted name) + 1 = zlen (p ++ quoted name ++ [COLON])) as ->
      by (rewrite !zlen_app; unfold zlen; simpl; lia).
    replace (p ++ quoted name ++ [COLON] ++ rest) with ((p ++ quoted name ++ [COLON]) ++ rest)
      by (by rewrite <-!app_assoc).
    rewrite drop_zlen_app, Hb. rewrite zlen_nil. f_equal. lia.
  - unfold quoted. apply Forall_cons; split; [done|]. by apply Forall_app_2, Forall_singleton.
Qed.

Lemma parse_uint_at data p v rest :
  data = p ++ quoted name ++ [COLON] ++ to_string v ++ rest →
  find_nat (quoted name) data = Some (length p) →
  0 ≤ v ≤ U64_MAX → take_while is_digit rest = [] →
  parse_uint data name = Some v.
Proof.
  intros Hd Hf Hv Hr. unfold parse_uint. erewrite find_field_at; [|exact Hd|exact Hf|].
  - simpl. replace data with ((p ++ quoted name ++ [COLON]) ++ to_string v ++ rest)
      by (rewrite Hd; by rewrite <-!app_assoc).
    rewrite drop_zlen_app. by apply strtoull_to_string.
  - pose proof (to_string_digits v ltac:(lia)) as Hdg.
    destruct (to_string_cons v) as (c & s & E). rewrite E in *. inversion Hdg; subst.
    simpl. unfold is_blank. replace (c =? 32) with false by lia. by replace (c =? 9) with false by lia.
Qed.

Lemma parse_string_at data p v rest :
  data = p ++ quoted name ++ [COLON] ++ [DQ] ++ EscapeJson v ++ [DQ] ++ rest →
  find_nat (quoted name) data = Some (length p) →
  Forall (λ c, 0 < c) v → parse_string data name = Some v.
Proof.
  intros Hd Hf Hv. unfold parse_string. erewrite find_field_at; [|exact Hd|exact Hf|done].
  set (q := p ++ quoted name ++ [COLON]).
  assert (data = q ++ DQ :: EscapeJson v ++ [DQ] ++ rest) as Hq
    by (unfold q; rewrite Hd; by rewrite <-!app_assoc).
  simpl. rewrite Hq at 1. rewrite zlen_app, zlen_cons.
  rewrite (proj2 (Z.leb_gt _ _)) by (pose proof (zlen_nonneg (EscapeJson v ++ [DQ] ++ rest)); lia).
  rewrite Hq at 1. rewrite byte_at_app. simpl orb. cbv iota.
  assert (data = (q ++ [DQ]) ++ EscapeJson v ++ [DQ] ++ rest) as Hq'
    by (rewrite Hq; by rewrite <-app_assoc).
  assert (zlen q + 1 = zlen (q ++ [DQ])) as -> by (by rewrite zlen_app).
  rewrite Hq'. rewrite drop_zlen_app, end_quote_EscapeJson; simpl.
  - replace (Z.of_nat (length (EscapeJson v))) with (zlen (EscapeJson v)) by done.
    rewrite (substr_app (q ++ [DQ]) (EscapeJson v)). by rewrite UnescapeJson_EscapeJson.
  - eapply Forall_impl; [exact Hv|]. simpl. lia.
Qed.
End fields.

(** ** Records as lists of fields *)

Inductive jfield : Type :=
  | JUint (name : bytes) (v : Z)
  | JStr (name raw : bytes).

Definition jtext (f : jfield) : bytes :=
  match f with
  | JUint name v => quoted name ++ COLON :: to_string v
  | JStr name raw => quoted name ++ COLON :: quoted raw
  end.

(** The fields before the one that is looked up, each with its comma. *)
Definition jfields (fs : list jfield) : bytes := concat (map (λ f, jtext f ++ [COMMA]) fs).

(** The field holds no occurrence of the quoted [name]. *)
Definition jskip (name : bytes) (f : jfield) : Prop :=
  match f with
  | JUint n v => no_DQ n ∧ n ≠ name ∧ 0 ≤ v
  | JStr n raw => no_DQ n ∧ n ≠ name ∧ no_DQ raw ∧ raw ≠ name
  end.

Lemma quoted_cons name : quoted name = DQ :: name ++ [DQ].
Proof. done. Qed.

#[local] Opaque quoted.

Section records.
Context (name : bytes) (Hname : no_DQ name) (Hnn : name ≠ []).
Context (Hc1 : head name ≠ Some COLON) (Hc2 : head name ≠ Some COMMA).

Lemma find_past_field f s :
  jskip name f →
  find_nat (quoted name) (jtext f ++ COMMA :: s) =
    (λ n, (length (jtext f ++ [COMMA]) + n)%nat) <$> find_nat (quoted name) s.
Proof.
  destruct f as [n v|n raw]; simpl.
  - intros (H1 & H2 & H3). rewrite <-app_assoc. simpl. rewrite find_skip_quoted by done.
    rewrite (quoted_cons name), find_nat_skip by (by apply to_string_ne; [|left]).
    rewrite find_nat_skip1 by done.
    destruct (find_nat _ s); simpl; [|done]. f_equal. rewrite !length_app. simpl. lia.
  - intros (H1 & H2 & H3 & H4). rewrite <-app_assoc. simpl. rewrite find_skip_quoted by done.
    rewrite find_skip_quoted by done.
    destruct (find_nat _ s); simpl; [|done]. f_equal. rewrite !length_app. simpl. lia.
Qed.

Lemma find_past_fields fs s :
  Forall (jskip name) fs →
  find_nat (quoted name) (jfields fs ++ quoted name ++ s) = Some (length (jfields fs)).
Proof.
  induction 1 as [|f fs Hf _ IH]; [by apply find_here|]. unfold jfields in *. cbn [map concat].
  rewrite <-!app_assoc. simpl ([COMMA] ++ _). rewrite find_past_field, IH by done. simpl.
  f_equal. rewrite !length_app. simpl. lia.
Qed.

(** The fields of a record are found behind those that come before them. *)
Lemma find_in_record open fs s :
  open ≠ DQ → Forall (jskip name) fs →
  find_nat (quoted name) ((open :: jfields fs) ++ quoted name ++ s)
    = Some (length (open :: jfields fs)).
Proof.
  intros Ho Hf. simpl app. rewrite (quoted_cons name) at 1.
  rewrite find_nat_skip1, <-quoted_cons, find_past_fields by done. done.
Qed.

Context (Hcolon : Forall (λ x, x ≠ COLON) name).

Lemma record_uint data open fs v rest :
  data = (open :: jfields fs) ++ quoted name ++ [COLON] ++ to_string v ++ rest →
  open ≠ DQ → Forall (jskip name) fs → 0 ≤ v ≤ U64_MAX → take_while is_digit rest = [] →
  parse_uint data name = Some v.
Proof.
  intros Hd Ho Hf Hv Hr. eapply (parse_uint_at name Hcolon); [exact Hd| |exact Hv|exact Hr].
  rewrite Hd. by apply find_in_record.
Qed.

Lemma record_string data open fs v rest :
  data = (open :: jfields fs) ++ quoted name ++ [COLON] ++ quoted (EscapeJson v) ++ rest →
  open ≠ DQ → Forall (jskip name) fs → Forall (λ c, 0 < c) v →
  parse_string data name = Some v.
Proof.
  intros Hd Ho Hf Hv. apply (parse_string_at name Hcolon data (open :: jfields fs) v rest); [| |exact Hv].
  - rewrite Hd. rewrite (quoted_cons (EscapeJson v)). simpl. by rewrite <-!app_assoc.
  - rewrite Hd. by apply find_in_record.
Qed.
End records.
