(* ===== verification/SegmentLog.v ===== *)
(** * The write-ahead log (src/server/raft/segment_log_storage.h,
    segment_log_storage.cc, wal_writer.cc, wal_index.h, manifest.cc)

    [SegmentLogStorage] with its segment files: the record format, the writer,
    the index of record locations, recovery by scanning, truncation and
    compaction.  The directory holds the segment files, keyed by id, and the
    manifest; calls to the file system succeed. *)

From S2P Require Import Prelude RaftTypes LogStorage Json Crc32.

(** ** Records *)

Definition kRecordHeaderSize : Z := 24.

(** [WalWriter::Append]: [RecordHeader] and the command. *)
Definition wal_record (e : LogEntry) : bytes :=
  le_bytes 8 (le_index e) ++ le_bytes 8 (le_term e) ++ le_bytes 4 (zlen (le_command e)) ++
  le_bytes 4 (ComputeCrc32 (le_command e) 0) ++ le_command e.

Record RecordHeader : Type := mkRecordHeader {
  rh_index : Z;
  rh_term : Z;
  rh_size : Z;
  rh_crc32 : Z
}.

Definition parse_header (s : bytes) : RecordHeader :=
  mkRecordHeader (le_val (take 8 s)) (le_val (take 8 (drop 8 s))) (le_val (take 4 (drop 16 s)))
    (le_val (take 4 (drop 20 s))).

(** The loop of [ScanSegment] from [offset] on, [s] being the rest of the file:
    the valid records with their offsets.  Each round consumes a header, so the
    length of the file is enough fuel. *)
Fixpoint scan_records (fuel : nat) (s : bytes) (offset last_index : Z) : list (LogEntry * Z) :=
  match fuel with
  | O => []
  | S fuel =>
      if zlen s <? kRecordHeaderSize then []
      else
        let hdr := parse_header s in
        let payload := drop (Z.to_nat kRecordHeaderSize) s in
        if rh_size hdr =? 0 then []
        else if rh_index hdr <=? last_index then []
        else if zlen payload <? rh_size hdr then []
        else
          let command := take (Z.to_nat (rh_size hdr)) payload in
          if negb (ComputeCrc32 command 0 =? rh_crc32 hdr) then []
          else
            (mkLogEntry (rh_term hdr) (rh_index hdr) command, offset) ::
            scan_records fuel (drop (Z.to_nat (rh_size hdr)) payload)
              (offset + kRecordHeaderSize + rh_size hdr) (rh_index hdr)
  end.

(** ** WalIndex *)

Record EntryLocation : Type := mkEntryLocation {
  loc_segment_id : Z;
  loc_offset : Z
}.

Abbreviation WalIndex := (gmap Z EntryLocation).

Definition WalIndex_Add (ix : WalIndex) (index segment_id offset : Z) : WalIndex :=
  <[index := mkEntryLocation segment_id offset]> ix.

Definition WalIndex_Truncate (ix : WalIndex) (new_last : Z) : WalIndex :=
  filter (λ p : Z * EntryLocation, p.1 ≤ new_last) ix.

Definition WalIndex_TrimUpTo (ix : WalIndex) (index : Z) : WalIndex :=
  filter (λ p : Z * EntryLocation, index < p.1) ix.

(** ** WalWriter *)

(** The contents of a file, and how much of it an [fdatasync] has covered: what
    is guaranteed to survive a power failure. *)
Record WalFile : Type := mkWalFile {
  wf_data : bytes;
  wf_synced : Z
}.
#[export] Instance WalFile_eta : Eta WalFile := fun f => mkWalFile (wf_data f) (wf_synced f).

Abbreviation segments := (gmap Z WalFile).

(** The file is the one of segment [ww_segment]. *)
Record WalWriter : Type := mkWalWriter {
  ww_segment : Z;
  ww_file_size : Z;
  ww_buf : bytes
}.
#[export] Instance WalWriter_eta : Eta WalWriter := fun w =>
  mkWalWriter (ww_segment w) (ww_file_size w) (ww_buf w).

Definition OpenAppend (fs : segments) (seg : Z) : segments * WalWriter :=
  let f := default (mkWalFile [] 0) (fs !! seg) in
  (<[seg := f]> fs, mkWalWriter seg (zlen (wf_data f)) []).

Definition WalWriter_Append (w : WalWriter) (e : LogEntry) : WalWriter :=
  w <| ww_buf ::= fun b => b ++ wal_record e |>.

(** The bytes that go to the file, which no longer has a name once the segment
    is removed. *)
Definition write_out (fs : segments) (w : WalWriter) : segments :=
  alter (fun f => f <| wf_data ::= fun c => c ++ ww_buf w |>) (ww_segment w) fs.

Definition fdatasync (fs : segments) (seg : Z) : segments :=
  alter (fun f => f <| wf_synced := zlen (wf_data f) |>) seg fs.

Definition buffer_written (w : WalWriter) : WalWriter :=
  w <| ww_file_size ::= fun n => n + zlen (ww_buf w) |> <| ww_buf := [] |>.

Definition WalWriter_Flush (fs : segments) (w : WalWriter) : segments * WalWriter :=
  if bool_decide (ww_buf w = []) then (fs, w)
  else (fdatasync (write_out fs w) (ww_segment w), buffer_written w).

Definition WriteNoSync (fs : segments) (w : WalWriter) : segments * WalWriter :=
  if bool_decide (ww_buf w = []) then (fs, w) else (write_out fs w, buffer_written w).

Definition WalWriter_Close (fs : segments) (w : WalWriter) : segments := (WalWriter_Flush fs w).1.

Definition next_write_offset (w : WalWriter) : Z := ww_file_size w + zlen (ww_buf w).

(** ** ManifestManager *)

Record Manifest : Type := mkManifest {
  mf_disk : option bytes;
  mf_current_segment : Z
}.
#[export] Instance Manifest_eta : Eta Manifest := fun m => mkManifest (mf_disk m) (mf_current_segment m).

Definition Manifest_Save (m : Manifest) : Manifest :=
  m <| mf_disk := Some (str "{" ++ quoted (str "current_segment") ++ [COLON] ++
                        to_string (mf_current_segment m) ++ [125; 10]) |>.

Definition Manifest_Load (m : Manifest) : Manifest :=
  match mf_disk m with
  | None => Manifest_Save m
  | Some content =>
      match parse_uint content (str "current_segment") with
      | None => Manifest_Save m
      | Some val => m <| mf_current_segment := u32 val |>
      end
  end.

(** ** SegmentLogStorage *)

(** [sg_dir] says that a directory is configured. *)
Record SegmentLogStorage : Type := mkSegmentLogStorage {
  sg_dir : bool;
  sg_files : segments;
  sg_manifest : Manifest;
  sg_writer : option WalWriter;
  sg_current_segment_id : Z;
  sg_base_index : Z;
  sg_entries : list LogEntry;
  sg_index : WalIndex;
  sg_last_index : Z;
  sg_last_term : Z;
  sg_anchor : SnapshotAnchor;
  sg_fsync_per_append : bool
}.
#[export] Instance SegmentLogStorage_eta : Eta SegmentLogStorage := fun s =>
  mkSegmentLogStorage (sg_dir s) (sg_files s) (sg_manifest s) (sg_writer s) (sg_current_segment_id s)
    (sg_base_index s) (sg_entries s) (sg_index s) (sg_last_index s) (sg_last_term s) (sg_anchor s)
    (sg_fsync_per_append s).

Implicit Types s : SegmentLogStorage.

(** The constructors, on a directory with the given files and manifest. *)
Definition SegmentLogStorage_new (dir : bool) (files : segments) (manifest : option bytes) : SegmentLogStorage :=
  mkSegmentLogStorage dir files (mkManifest manifest 0) None 0 0 [mkLogEntry 0 0 []] ∅ 0 0 default_anchor true.

Definition kMaxSegmentBytes : Z := 64 * 1024 * 1024.

(** [SegmentPath] without the directory: ["segment_%08lu.log"]. *)
Definition SegmentName (segment_id : Z) : bytes :=
  let ds := to_string segment_id in
  str "segment_" ++ replicate (8 - length ds) 48 ++ ds ++ str ".log".

(** The test of [DiscoverSegments] on a directory entry. *)
Definition parse_segment_name (name : bytes) : option Z :=
  let kPrefixLen := 8%nat in
  if negb (bool_decide (take kPrefixLen name = str "segment_")) then None
  else if (length name <? kPrefixLen + 5)%nat then None
  else if negb (bool_decide (drop (length name - 4) name = str ".log")) then None
  else
    let digits := drop kPrefixLen name in
    id ← strtoull digits;
    if bool_decide (head (strtoull_end digits) = Some 46) then Some (u32 id) else None.

Definition DiscoverSegments s : list Z :=
  merge_sort Z.le (omap parse_segment_name (SegmentName <$> elements (dom (sg_files s)))).

(** ** Recovery *)

Definition RebuildIndex s (index term segment_id offset : Z) : SegmentLogStorage :=
  s <| sg_index ::= fun ix => WalIndex_Add ix index segment_id offset |>
    <| sg_last_index := index |> <| sg_last_term := term |>.

Definition ScanSegment s (segment_id : Z) : SegmentLogStorage :=
  match sg_files s !! segment_id with
  | None => s
  | Some f =>
      fold_left (fun s '(e, offset) =>
        RebuildIndex (s <| sg_entries ::= fun es => es ++ [e] |>) (le_index e) (le_term e) segment_id offset)
        (scan_records (length (wf_data f)) (wf_data f) 0 (sg_last_index s)) s
  end.

Definition LoadSegments s : SegmentLogStorage := fold_left ScanSegment (DiscoverSegments s) s.

Definition Open s : SegmentLogStorage :=
  if negb (sg_dir s) then s
  else
    let s := s <| sg_manifest ::= Manifest_Load |> in
    let s := LoadSegments s in
    let s := match sg_entries s with
             | _ :: e :: _ =>
                 if (sg_base_index s =? 0) && (1 <? le_index e)
                 then s <| sg_base_index := le_index e - 1 |> else s
             | _ => s
             end in
    match last (DiscoverSegments s) with
    | None => s
    | Some seg =>
        let '(fs, w) := OpenAppend (sg_files s) seg in
        s <| sg_current_segment_id := seg |> <| sg_files := fs |> <| sg_writer := Some w |>
    end.

(** ** Writing *)

Definition EnsureWriter s : SegmentLogStorage :=
  match sg_writer s with
  | Some _ => s
  | None =>
      let '(fs, w) := OpenAppend (sg_files s) (sg_current_segment_id s) in
      s <| sg_files := fs |> <| sg_writer := Some w |>
  end.

Definition close_writer s : SegmentLogStorage :=
  match sg_writer s with
  | Some w => s <| sg_files ::= fun fs => WalWriter_Close fs w |> <| sg_writer := None |>
  | None => s
  end.

Definition save_manifest s (seg : Z) : SegmentLogStorage :=
  s <| sg_manifest ::= fun m => Manifest_Save (m <| mf_current_segment := seg |>) |>.

Definition RollSegment s : SegmentLogStorage :=
  let s := close_writer s in
  let s := s <| sg_current_segment_id ::= fun c => u32 (c + 1) |> in
  let s := save_manifest s (sg_current_segment_id s) in
  EnsureWriter s.

(** Assigns the next index to [entry] and adds it to the vector. *)
Definition push_entry s (entry : LogEntry) : SegmentLogStorage :=
  let entry := entry <| le_index := u64 (sg_last_index s + 1) |> in
  s <| sg_last_index := le_index entry |> <| sg_last_term := le_term entry |>
    <| sg_entries ::= fun es => es ++ [entry] |>.

(** Without a writer the source dereferences a null pointer; the model then
    leaves the files alone. *)
Definition SegmentLogStorage_Append s (entry : LogEntry) (flush : bool) : SegmentLogStorage * Z :=
  if negb (sg_dir s) then
    let s := push_entry s entry in (s, sg_last_index s)
  else
    let s := if (sg_last_index s =? 0) && negb (bool_decide (is_Some (sg_writer s)))
             then EnsureWriter s else s in
    let s := push_entry s entry in
    let index := sg_last_index s in
    match sg_writer s with
    | None => (s, index)
    | Some w =>
        let offset := next_write_offset w in
        let w := WalWriter_Append w (entry <| le_index := index |>) in
        let '(fs, w) := if flush && sg_fsync_per_append s then WalWriter_Flush (sg_files s) w
                        else WriteNoSync (sg_files s) w in
        let s := s <| sg_files := fs |> <| sg_writer := Some w |>
                   <| sg_index ::= fun ix => WalIndex_Add ix index (sg_current_segment_id s) offset |> in
        let s := if kMaxSegmentBytes <=? ww_file_size w then RollSegment s else s in
        (s, index)
    end.

Definition SegmentLogStorage_Flush s : SegmentLogStorage :=
  match sg_writer s with
  | Some w => let '(fs, w) := WalWriter_Flush (sg_files s) w in
              s <| sg_files := fs |> <| sg_writer := Some w |>
  | None => s
  end.

Definition SegmentLogStorage_Persist s : SegmentLogStorage :=
  if sg_fsync_per_append s then SegmentLogStorage_Flush s else s.

(** ** Queries *)

Definition SegmentLogStorage_LogSize s : Z :=
  if zlen (sg_entries s) <=? 1 then 0 else zlen (sg_entries s) - 1.

Definition SegmentLogStorage_FirstIndex s : Z :=
  if zlen (sg_entries s) <=? 1 then 0
  else let first := u64 (sg_base_index s + 1) in
       if first <=? sg_last_index s then first else 0.

Definition SegmentLogStorage_Get s (index : Z) : option LogEntry :=
  if (index <? sg_base_index s) || (sg_last_index s <? index) then None
  else
    match sg_entries s !! Z.to_nat (index - sg_base_index s) with
    | Some e => if le_index e =? index then Some e
                else snd <$> list_find (λ e, le_index e = index) (tail (sg_entries s))
    | None => snd <$> list_find (λ e, le_index e = index) (tail (sg_entries s))
    end.

Definition SegmentLogStorage_GetTerm s (index : Z) : Z :=
  if (index =? anchor_index (sg_anchor s)) && (0 <? anchor_index (sg_anchor s))
  then anchor_term (sg_anchor s)
  else match SegmentLogStorage_Get s index with Some e => le_term e | None => 0 end.

Definition SegmentLogStorage_GetRange s (start limit : Z) : list LogEntry :=
  if (start <? SegmentLogStorage_FirstIndex s) || (sg_last_index s <? start) then []
  else
    let physical := u64 (start - sg_base_index s) in
    let size := zlen (sg_entries s) in
    let end_ := if limit =? 0 then size else Z.min size (u64 (physical + limit)) in
    if end_ <=? physical then [] else
    take (Z.to_nat (end_ - physical)) (drop (Z.to_nat physical) (sg_entries s)).

(** ** Truncation and compaction *)

Definition DeleteAllSegments s : SegmentLogStorage :=
  if negb (sg_dir s) then s
  else save_manifest (s <| sg_files ::= fun fs => foldr delete fs (DiscoverSegments s) |>) 0.

Definition SegmentLogStorage_Clear s : SegmentLogStorage :=
  let s := s <| sg_base_index := 0 |> <| sg_index := ∅ |> <| sg_last_index := 0 |> <| sg_last_term := 0 |>
             <| sg_entries ::= resize 1 default_LogEntry |> <| sg_anchor := mkSnapshotAnchor 0 0 |> in
  DeleteAllSegments (close_writer s).

Definition ftruncate (len : Z) (f : WalFile) : WalFile :=
  mkWalFile (resize (Z.to_nat len) 0 (wf_data f)) (Z.min len (wf_synced f)).

(** The part of [TruncateFrom] that trims the files: [ftruncate] of the segment
    that holds [new_last], removal of the later ones, and a new writer. *)
Definition truncate_files s (loc : EntryLocation) (keep : LogEntry) : SegmentLogStorage :=
  let keep_segment := loc_segment_id loc in
  let keep_end := loc_offset loc + kRecordHeaderSize + zlen (le_command keep) in
  let s := s <| sg_files ::= alter (ftruncate keep_end) keep_segment |> in
  let s := s <| sg_files ::= fun fs =>
             foldr delete fs (filter (λ seg_id, keep_segment < seg_id) (DiscoverSegments s)) |> in
  let s := close_writer s in
  let s := s <| sg_current_segment_id := keep_segment |> in
  EnsureWriter (save_manifest s keep_segment).

Definition SegmentLogStorage_TruncateFrom s (new_last : Z) : SegmentLogStorage :=
  if new_last <=? sg_base_index s then SegmentLogStorage_Clear s
  else
    let physical := Z.to_nat (new_last - sg_base_index s) in
    let keep := default default_LogEntry (sg_entries s !! physical) in
    let s := s <| sg_index ::= fun ix => WalIndex_Truncate ix new_last |>
               <| sg_last_index := new_last |> <| sg_last_term := le_term keep |>
               <| sg_entries ::= resize (S physical) default_LogEntry |> in
    match sg_index s !! new_last, sg_writer s with
    | Some loc, Some _ => truncate_files s loc keep
    | _, _ => s
    end.

Definition SegmentLogStorage_CompactUpTo s (index : Z) : SegmentLogStorage * bool :=
  if index <=? sg_base_index s then (s, true)
  else if sg_last_index s <=? index then
    (s <| sg_base_index := index |> <| sg_index := ∅ |> <| sg_last_index := index |>
       <| sg_last_term := 0 |> <| sg_entries ::= resize 1 default_LogEntry |>, true)
  else
    let keep_from := index - sg_base_index s + 1 in
    let es := sg_entries s in
    let es := if keep_from <? zlen es
              then take 1 es ++ drop (Z.to_nat keep_from) es
              else resize 1 default_LogEntry es in
    (s <| sg_entries := es |> <| sg_base_index := index |>
       <| sg_index ::= fun ix => WalIndex_TrimUpTo ix index |>, true).

Definition CompactSegments s (snapshot_index : Z) : SegmentLogStorage :=
  if negb (sg_dir s) then s
  else match sg_index s !! snapshot_index with
  | None => s
  | Some loc =>
      let keep_segment := loc_segment_id loc in
      let s := s <| sg_files ::= fun fs =>
                 foldr delete fs (take_while (λ seg_id, seg_id <? keep_segment) (DiscoverSegments s)) |> in
      if mf_current_segment (sg_manifest s) <? keep_segment then save_manifest s keep_segment else s
  end.

Definition SegmentLogStorage_SetSnapshotAnchor s (index term : Z) : SegmentLogStorage :=
  s <| sg_anchor := mkSnapshotAnchor index term |>.

Definition SegmentLogStorage_CompactLogs s (snapshot_index snapshot_term : Z) : SegmentLogStorage :=
  let s := SegmentLogStorage_SetSnapshotAnchor s snapshot_index snapshot_term in
  let s := CompactSegments s snapshot_index in
  (SegmentLogStorage_CompactUpTo s snapshot_index).1.

(** The entries after the sentinel that the anchor does not cover. *)
Definition SegmentLogStorage_PruneCompacted s : SegmentLogStorage :=
  let a := anchor_index (sg_anchor s) in
  match sg_entries s with
  | [] | [_] => s
  | sentinel :: es =>
      if a =? 0 then s
      else match list_find (λ e, a < le_index e) es with
      | None => s <| sg_base_index := a |> <| sg_entries := [sentinel] |>
      | Some (O, _) => s
      | Some (k, _) => s <| sg_entries := sentinel :: drop k es |> <| sg_base_index := a |>
      end
  end.

#[export] Instance SegmentLogStorage_storage : LogStorage SegmentLogStorage := {
  LogSize := SegmentLogStorage_LogSize;
  FirstIndex := SegmentLogStorage_FirstIndex;
  LastIndex := sg_last_index;
  LastTerm := sg_last_term;
  Get := SegmentLogStorage_Get;
  GetTerm := SegmentLogStorage_GetTerm;
  snapshot_anchor := sg_anchor;
  SetSnapshotAnchor := SegmentLogStorage_SetSnapshotAnchor;
  Append := SegmentLogStorage_Append;
  Persist := SegmentLogStorage_Persist;
  GetRange := SegmentLogStorage_GetRange;
  TruncateFrom := SegmentLogStorage_TruncateFrom;
  CompactUpTo := SegmentLogStorage_CompactUpTo;
  Clear := SegmentLogStorage_Clear;
  PruneCompacted := SegmentLogStorage_PruneCompacted;
  Flush s := (SegmentLogStorage_Flush s, true);
  CompactLogs := SegmentLogStorage_CompactLogs
}.

(** ** Refinement of the abstract log *)

(** The part of the state the queries depend on; the steps that only touch the
    files leave it alone. *)
Definition sg_view s : Z * list LogEntry * Z * Z * SnapshotAnchor :=
  (sg_base_index s, sg_entries s, sg_last_index s, sg_last_term s, sg_anchor s).

Definition view_rep (v : Z * list LogEntry * Z * Z * SnapshotAnchor) (a : alog) : Prop :=
  al_wf a ∧ v = (al_base a, mkLogEntry 0 0 [] :: al_entries a, al_last a, al_last_term a, al_anchor a).

Definition SegmentLog_rep s (a : alog) : Prop := view_rep (sg_view s) a.

Lemma view_EnsureWriter s : sg_view (EnsureWriter s) = sg_view s.
Proof. unfold EnsureWriter. by destruct (sg_writer s). Qed.

Lemma view_close_writer s : sg_view (close_writer s) = sg_view s.
Proof. unfold close_writer. by destruct (sg_writer s). Qed.

Lemma view_RollSegment s : sg_view (RollSegment s) = sg_view s.
Proof. unfold RollSegment. rewrite view_EnsureWriter. exact (view_close_writer s). Qed.

Lemma view_truncate_files s loc keep : sg_view (truncate_files s loc keep) = sg_view s.
Proof. unfold truncate_files. rewrite view_EnsureWriter. exact (view_close_writer _). Qed.

Lemma view_CompactSegments s i : sg_view (CompactSegments s i) = sg_view s.
Proof. unfold CompactSegments. by repeat case_match. Qed.

Lemma view_Flush s : sg_view (SegmentLogStorage_Flush s) = sg_view s.
Proof. unfold SegmentLogStorage_Flush. by repeat case_match. Qed.

Lemma view_Persist s : sg_view (SegmentLogStorage_Persist s) = sg_view s.
Proof. unfold SegmentLogStorage_Persist. case_match; [apply view_Flush|done]. Qed.

Lemma view_Clear s :
  sg_view (SegmentLogStorage_Clear s) = (0, resize 1 default_LogEntry (sg_entries s), 0, 0, mkSnapshotAnchor 0 0).
Proof.
  unfold SegmentLogStorage_Clear, DeleteAllSegments.
  set (t := s <| sg_base_index := 0 |> <| sg_index := ∅ |> <| sg_last_index := 0 |> <| sg_last_term := 0 |>
             <| sg_entries ::= resize 1 default_LogEntry |> <| sg_anchor := mkSnapshotAnchor 0 0 |>).
  trans (sg_view (close_writer t)); [by destruct (sg_dir _)|]. by rewrite view_close_writer.
Qed.

Lemma view_Append s e flush :
  sg_view (SegmentLogStorage_Append s e flush).1 = sg_view (push_entry s e) ∧
  (SegmentLogStorage_Append s e flush).2 = u64 (sg_last_index s + 1).
Proof.
  unfold SegmentLogStorage_Append. destruct (sg_dir s); cbn [negb]; [|done].
  set (t := if _ && _ then EnsureWriter s else s).
  assert (sg_view t = sg_view s) as Ht by (unfold t; case_match; [apply view_EnsureWriter|done]).
  clearbody t. injection Ht as E1 E2 E3 E4 E5.
  assert (sg_view (push_entry t e) = sg_view (push_entry s e)) as <-
    by (unfold sg_view, push_entry; simpl; by rewrite E1, E2, E3, E5).
  rewrite <-E3. cbv zeta. destruct (sg_writer (push_entry t e)); [|done].
  case_match. destruct (kMaxSegmentBytes <=? _); (split; [|reflexivity]); [|reflexivity].
  exact (view_RollSegment _).
Qed.

Section view_queries.
Context s (a : alog) (Hrep : SegmentLog_rep s a).

Lemma sg_fields :
  sg_base_index s = al_base a ∧ sg_entries s = mkLogEntry 0 0 [] :: al_entries a ∧
  sg_last_index s = al_last a ∧ sg_last_term s = al_last_term a ∧ sg_anchor s = al_anchor a.
Proof. destruct Hrep as [_ H]. by injection H. Qed.

Lemma sg_get i : al_base a < i → SegmentLogStorage_Get s i = al_get a i.
Proof.
  intros Hi. pose proof Hrep as [Hwf _]. destruct sg_fields as (Hb & He & Hl & _).
  unfold SegmentLogStorage_Get. rewrite Hb, He, Hl.
  rewrite (proj2 (Z.ltb_ge i (al_base a))) by lia. simpl orb.
  destruct (Z.ltb_spec (al_last a) i) as [Hlt|Hle].
  { symmetry. apply al_get_None. lia. }
  destruct (al_get_is_Some a i ltac:(lia)) as [e E]. rewrite E.
  pose proof (al_get_index a i e Hwf E) as Hix. unfold al_get in E.
  rewrite (proj2 (Z.leb_gt i (al_base a))) in E by lia.
  replace (Z.to_nat (i - al_base a)) with (S (Z.to_nat (i - al_base a - 1))) by lia.
  simpl lookup. rewrite E. by rewrite Hix, Z.eqb_refl.
Qed.

Lemma sg_get_term i : al_base a < i → SegmentLogStorage_GetTerm s i = al_term a i.
Proof.
  intros Hi. unfold SegmentLogStorage_GetTerm, al_term. rewrite sg_get by done.
  by destruct sg_fields as (_ & _ & _ & _ & ->).
Qed.

Lemma sg_get_term_0 : SegmentLogStorage_GetTerm s 0 = 0.
Proof.
  pose proof Hrep as [Hwf _]. destruct sg_fields as (Hb & He & Hl & _).
  pose proof (al_base_nonneg a Hwf). unfold SegmentLogStorage_GetTerm, SegmentLogStorage_Get.
  rewrite Hb, He, Hl. case_match; bool_norm; [lia|].
  destruct (Z.ltb_spec 0 (al_base a)); simpl; [done|].
  replace (al_base a) with 0 by lia. by destruct (al_last a <? 0).
Qed.

Lemma sg_zlen : zlen (sg_entries s) = 1 + zlen (al_entries a).
Proof. destruct sg_fields as (_ & -> & _). apply zlen_cons. Qed.

Lemma sg_first : SegmentLogStorage_FirstIndex s = if bool_decide (al_entries a = []) then 0 else al_base a + 1.
Proof.
  pose proof Hrep as [Hwf _]. pose proof (al_base_nonneg a Hwf). pose proof (al_last_bound a Hwf).
  unfold SegmentLogStorage_FirstIndex. rewrite sg_zlen. destruct sg_fields as (-> & _ & -> & _).
  unfold al_last in *. destruct (al_entries a) as [|e es]; [done|]. rewrite zlen_cons in *.
  pose proof (zlen_nonneg es). rewrite bool_decide_false by done.
  case_match; bool_norm; [lia|]. unwrap. case_match; bool_norm; lia.
Qed.

Lemma sg_range start limit :
  al_base a < start ≤ al_last a → 0 ≤ limit → start + limit ≤ U64_MAX →
  SegmentLogStorage_GetRange s start limit = al_range a start limit.
Proof.
  intros Hs Hlim Hb. pose proof Hrep as [Hwf _]. pose proof (al_base_nonneg a Hwf).
  pose proof (al_last_bound a Hwf). unfold SegmentLogStorage_GetRange, al_range.
  rewrite sg_first, sg_zlen. destruct sg_fields as (-> & -> & -> & _).
  rewrite (proj2 (Z.ltb_ge (al_last a) start)), orb_false_r by lia.
  rewrite (proj2 (Z.ltb_ge start _)) by (case_bool_decide; lia).
  unfold al_last in *. rewrite (u64_small (start - _)) by lia.
  replace (Z.to_nat (start - al_base a)) with (S (Z.to_nat (start - al_base a - 1))) by lia.
  simpl drop. destruct (Z.eqb_spec limit 0) as [->|Hl].
  - case_match; bool_norm; [lia|]. apply take_ge. rewrite length_drop. unfold zlen. lia.
  - rewrite u64_small by lia. case_match; bool_norm; [lia|].
    destruct (decide (limit ≤ 1 + zlen (al_entries a) - (start - al_base a))).
    + f_equal. lia.
    + rewrite !take_ge; [done|..]; rewrite length_drop; unfold zlen in *; lia.
Qed.
End view_queries.

Lemma sg_append s a e flush :
  SegmentLog_rep s a → al_last a + 1 < U64_MAX →
  SegmentLog_rep (SegmentLogStorage_Append s e flush).1 (al_append a e) ∧
  (SegmentLogStorage_Append s e flush).2 = al_last a + 1.
Proof.
  intros Hrep Hb. destruct (view_Append s e flush) as [Hv ->].
  destruct (sg_fields s a Hrep) as (E1 & E2 & E3 & E4 & E5). destruct Hrep as [Hwf _].
  pose proof (al_base_nonneg a Hwf). pose proof (zlen_nonneg (al_entries a)).
  assert (u64 (al_last a + 1) = al_last a + 1) as Hu by (apply u64_small; unfold al_last in *; lia).
  rewrite E3, Hu. split; [|done]. unfold SegmentLog_rep, view_rep. rewrite Hv.
  split; [by apply al_append_wf|]. unfold sg_view, push_entry. simpl. rewrite E1, E2, E3, E5, Hu, al_last_append.
  unfold al_last_term. simpl. by rewrite last_snoc.
Qed.

Lemma al_last_term_truncate a n :
  al_base a < n ≤ al_last a →
  al_last_term (al_truncate a n) =
    le_term (default default_LogEntry (al_entries a !! Z.to_nat (n - al_base a - 1))).
Proof.
  unfold al_last, al_last_term, zlen. simpl. intros Hn. rewrite last_lookup, length_take, Nat.min_l by lia.
  rewrite lookup_take_lt by lia.
  replace (pred (Z.to_nat (n - al_base a))) with (Z.to_nat (n - al_base a - 1)) by lia.
  by destruct (al_entries a !! _).
Qed.

Lemma al_last_term_compact a i : al_base a ≤ i < al_last a → al_last_term (al_compact a i) = al_last_term a.
Proof.
  unfold al_last, al_last_term, zlen. simpl. intros Hi. rewrite !last_lookup, lookup_drop, length_drop.
  by replace (_ + pred (length (al_entries a) - _))%nat with (pred (length (al_entries a))) by lia.
Qed.

Lemma sg_truncate s a n :
  SegmentLog_rep s a → al_base a < n ≤ al_last a →
  SegmentLog_rep (SegmentLogStorage_TruncateFrom s n) (al_truncate a n).
Proof.
  intros Hrep Hn. destruct (sg_fields s a Hrep) as (E1 & E2 & E3 & E4 & E5). destruct Hrep as [Hwf _].
  split; [by apply al_truncate_wf|]. unfold SegmentLogStorage_TruncateFrom. rewrite E1.
  rewrite (proj2 (Z.leb_gt _ _)) by lia.
  set (t := s <| sg_index ::= _ |> <| sg_last_index := n |> <| sg_last_term := _ |> <| sg_entries ::= _ |>).
  trans (sg_view t); [repeat case_match; [apply view_truncate_files|done..]|].
  unfold sg_view, t. simpl. rewrite E1, E2, E5, al_last_truncate, al_last_term_truncate by lia.
  unfold al_last, zlen in Hn. simpl resize. rewrite resize_le, lookup_cons_ne_0 by lia.
  by replace (pred (Z.to_nat (n - al_base a))) with (Z.to_nat (n - al_base a - 1)) by lia.
Qed.

Lemma sg_compact s a i :
  SegmentLog_rep s a → al_base a < i < al_last a →
  SegmentLog_rep (SegmentLogStorage_CompactUpTo s i).1 (al_compact a i) ∧
  (SegmentLogStorage_CompactUpTo s i).2 = true.
Proof.
  intros Hrep Hi. pose proof (sg_zlen s a Hrep) as Hz.
  destruct (sg_fields s a Hrep) as (E1 & E2 & E3 & E4 & E5). destruct Hrep as [Hwf _].
  unfold SegmentLogStorage_CompactUpTo. rewrite E1, E3, Hz.
  rewrite (proj2 (Z.leb_gt _ _)), (proj2 (Z.leb_gt _ _)) by lia. split; [|done].
  split; [apply al_compact_wf; [done|lia]|]. unfold sg_view. simpl.
  rewrite E2, E3, E4, E5, al_last_compact, al_last_term_compact by lia. unfold al_last in Hi.
  rewrite (proj2 (Z.ltb_lt _ _)) by lia.
  replace (Z.to_nat (i - al_base a + 1)) with (S (Z.to_nat (i - al_base a))) by lia. done.
Qed.

Lemma sg_clear s a : SegmentLog_rep s a → SegmentLog_rep (SegmentLogStorage_Clear s) (mkAlog 0 [] default_anchor).
Proof.
  intros Hrep. destruct (sg_fields s a Hrep) as (_ & E2 & _). split.
  - split; simpl; [lia|by_compute|done|by left].
  - rewrite view_Clear, E2. by destruct (al_entries a).
Qed.

#[export] Instance SegmentLog_spec : LogStorageSpec SegmentLogStorage.
Proof.
  refine {| log_rep := SegmentLog_rep |}.
  - by intros s a [? _].
  - intros s a Hr. simpl. unfold SegmentLogStorage_LogSize. rewrite (sg_zlen s a Hr).
    pose proof (zlen_nonneg (al_entries a)). case_match; bool_norm; lia.
  - intros s a. apply sg_first.
  - intros s a Hr. apply (sg_fields s a Hr).
  - intros s a Hr. apply (sg_fields s a Hr).
  - intros s a i Hr. by apply sg_get.
  - intros s a i Hr. by apply sg_get_term.
  - intros s a. apply sg_get_term_0.
  - intros s a Hr. apply (sg_fields s a Hr).
  - intros s a i t Hr. destruct (sg_fields s a Hr) as (E1 & E2 & E3 & E4 & _).
    split; [by destruct Hr as [[] _]|]. unfold sg_view. simpl. by rewrite E1, E2, E3, E4.
  - intros s a e flush. apply sg_append.
  - intros s a Hr. unfold SegmentLog_rep. simpl. by rewrite view_Persist.
  - intros s a start limit Hr. by apply sg_range.
  - intros s a start limit Hr Hs. simpl. unfold SegmentLogStorage_GetRange.
    destruct (sg_fields s a Hr) as (_ & _ & -> & _).
    rewrite (proj2 (Z.ltb_lt _ _) Hs). by rewrite orb_true_r.
  - intros s a n. apply sg_truncate.
  - intros s a Hr Hb. exists default_anchor. split; [|by right]. simpl. unfold SegmentLogStorage_TruncateFrom.
    destruct (sg_fields s a Hr) as (-> & _). rewrite Hb. by apply (sg_clear s a).
  - intros s a i. apply sg_compact.
  - intros s a Hr. exists default_anchor. by apply (sg_clear s a).
  - intros s a Hr. unfold SegmentLog_rep. simpl. by rewrite view_Flush.
Defined.
