(* ===== verification/WalRecovery.v ===== *)
(** * Durability of the write-ahead log (src/server/raft/segment_log_storage.cc,
    wal_writer.cc)

    What the segment files hold, that recovery by scanning them gives back the
    log that was written, also behind a torn write, and where durability stops:
    appends behind a torn record, and [Persist]. *)

From S2P Require Import Prelude RaftTypes LogStorage Json Crc32 SegmentLog.

(** ** Scanning *)

(** The entries whose records can be read back: the size field of an empty
    command ends the scan. *)
Definition record_ok (e : LogEntry) : Prop :=
  0 ≤ le_index e ≤ U64_MAX ∧ 0 ≤ le_term e ≤ U64_MAX ∧ is_bytes (le_command e) ∧
  0 < zlen (le_command e) ≤ U32_MAX.

(** The entries whose records can be written: the fields fit. *)
Definition record_fits (e : LogEntry) : Prop :=
  0 ≤ le_index e ≤ U64_MAX ∧ 0 ≤ le_term e ≤ U64_MAX ∧ is_bytes (le_command e) ∧ zlen (le_command e) ≤ U32_MAX.

Lemma record_ok_fits e : record_ok e → record_fits e.
Proof. intros (? & ? & ? & ?). unfold record_fits. split_and!; lia || done. Qed.

#[export] Hint Resolve record_ok_fits : dfly.

Definition wal_bytes (es : list LogEntry) : bytes := concat (map wal_record es).

Fixpoint records_at (offset : Z) (es : list LogEntry) : list (LogEntry * Z) :=
  match es with
  | [] => []
  | e :: es => (e, offset) :: records_at (offset + zlen (wal_record e)) es
  end.

Definition record_header (e : LogEntry) : bytes :=
  le_bytes 8 (le_index e) ++ le_bytes 8 (le_term e) ++ le_bytes 4 (zlen (le_command e)) ++
  le_bytes 4 (ComputeCrc32 (le_command e) 0).

Lemma wal_record_split e : wal_record e = record_header e ++ le_command e.
Proof. unfold wal_record, record_header. by rewrite <-!app_assoc. Qed.

Lemma length_record_header e : length (record_header e) = 24%nat.
Proof. unfold record_header. rewrite !length_app, !length_le_bytes. done. Qed.

Lemma zlen_wal_record e : zlen (wal_record e) = 24 + zlen (le_command e).
Proof. rewrite wal_record_split, zlen_app. unfold zlen. rewrite length_record_header. done. Qed.

Lemma take_le_bytes n v k : take n (le_bytes n v ++ k) = le_bytes n v.
Proof. apply take_app_length'. by rewrite length_le_bytes. Qed.

Lemma drop_le_bytes n v k m : drop (n + m) (le_bytes n v ++ k) = drop m k.
Proof. rewrite <-drop_drop. f_equal. apply drop_app_length'. by rewrite length_le_bytes. Qed.

Lemma parse_record_header e rest :
  record_fits e →
  parse_header (record_header e ++ rest) =
    mkRecordHeader (le_index e) (le_term e) (zlen (le_command e)) (ComputeCrc32 (le_command e) 0).
Proof.
  intros (Hi & Ht & Hc & Hs). unfold parse_header, record_header. rewrite <-!app_assoc.
  change 20%nat with (8 + (8 + (4 + 0)))%nat. change 16%nat with (8 + (8 + 0))%nat.
  change (drop 8) with (@drop Z (8 + 0)). rewrite !drop_le_bytes, !drop_0, !take_le_bytes.
  pose proof (ComputeCrc32_range (le_command e) 0 Hc ltac:(lia)). pose proof (zlen_nonneg (le_command e)).
  unfold U64_MAX, U32_MAX in *. by rewrite !le_val_bytes_small by (simpl; lia).
Qed.

Lemma scan_record fuel e rest offset last_index :
  record_ok e → last_index < le_index e →
  scan_records (S fuel) (wal_record e ++ rest) offset last_index =
    (e, offset) :: scan_records fuel rest (offset + zlen (wal_record e)) (le_index e).
Proof.
  intros Hok Hi. rewrite zlen_wal_record, wal_record_split, <-app_assoc. cbn [scan_records].
  rewrite parse_record_header by auto with dfly. cbn [rh_index rh_term rh_size rh_crc32].
  rewrite (drop_app_length' (record_header e)) by (by rewrite length_record_header).
  rewrite !zlen_app. unfold zlen at 1. rewrite length_record_header.
  destruct Hok as (_ & _ & _ & Hs). pose proof (zlen_nonneg rest).
  rewrite !(proj2 (Z.ltb_ge _ _)) by (unfold kRecordHeaderSize; lia).
  rewrite (proj2 (Z.eqb_neq _ _)), (proj2 (Z.leb_gt _ _)) by lia. cbv zeta.
  rewrite to_nat_zlen, take_app_length, drop_app_length, Z.eqb_refl. cbn [negb].
  f_equal; [by destruct e|]. f_equal. unfold kRecordHeaderSize. lia.
Qed.

(** The entries have ascending indices, all above [i]. *)
Fixpoint ascending (i : Z) (es : list LogEntry) : Prop :=
  match es with
  | [] => True
  | e :: es => i < le_index e ∧ ascending (le_index e) es
  end.

Definition last_index_of (i : Z) (es : list LogEntry) : Z :=
  match last es with Some e => le_index e | None => i end.

(** A tail on which every scan stops. *)
Definition unreadable (t : bytes) : Prop := ∀ fuel offset i, scan_records fuel t offset i = [].

Lemma scan_wal es t : ∀ fuel offset i,
  Forall record_ok es → ascending i es → unreadable t → (length (wal_bytes es) ≤ fuel)%nat →
  scan_records fuel (wal_bytes es ++ t) offset i = records_at offset es.
Proof.
  induction es as [|e es IH]; intros fuel offset i Hok Ha Ht Hf; [apply Ht|].
  apply Forall_cons in Hok as [Hok Hoks]. destruct Ha as [Hi Ha].
  unfold wal_bytes in *. cbn [map concat records_at] in *. rewrite length_app in Hf.
  assert (24 ≤ length (wal_record e))%nat
    by (rewrite wal_record_split, length_app, length_record_header; lia).
  destruct fuel as [|fuel]; [lia|]. rewrite <-app_assoc, scan_record by done. f_equal.
  apply IH; [done..|lia].
Qed.

(** A torn write: the record of [e], cut short. *)
Lemma unreadable_torn e n : record_ok e → (n < length (wal_record e))%nat → unreadable (take n (wal_record e)).
Proof.
  intros Hok Hn [|fuel] offset i; [done|]. cbn [scan_records].
  destruct (Z.ltb_spec (zlen (take n (wal_record e))) kRecordHeaderSize) as [|Hlen]; [done|].
  rewrite wal_record_split in *. rewrite length_app, length_record_header in Hn.
  unfold zlen, kRecordHeaderSize in Hlen. rewrite length_take, length_app, length_record_header in Hlen.
  rewrite take_app_ge by (rewrite length_record_header; lia). rewrite length_record_header.
  rewrite parse_record_header by auto with dfly. cbn [rh_index rh_term rh_size rh_crc32].
  rewrite (drop_app_length' (record_header e)) by (by rewrite length_record_header).
  repeat (case_match; [done|]). bool_norm.
  match goal with H : _ ≤ zlen (take _ _) |- _ => revert H end. unfold zlen. rewrite length_take. lia.
Qed.

Lemma unreadable_nil : unreadable [].
Proof. by intros [|fuel]. Qed.

(** ** Segment names *)

Lemma dec_val_zeros n v : dec_val (replicate n 48 ++ v) 0 = dec_val v 0.
Proof. induction n as [|n IH]; [done|]. simpl. exact IH. Qed.

Lemma strtoull_end_digits ds t :
  ds ≠ [] → Forall (λ c, 48 ≤ c ≤ 57) ds → strtoull_end (ds ++ t) = drop_while is_digit t.
Proof.
  intros Hne Hd. assert (Forall (λ c, is_digit c = true) ds) as Hf.
  { eapply Forall_impl; [done|]. unfold is_digit. simpl. lia. }
  rewrite <-(drop_while_app is_digit ds t Hf). destruct ds as [|c ds]; [done|].
  inversion Hd as [|? ? Hc _]; subst. unfold strtoull_end.
  assert (is_space c = false) as Hs by (unfold is_space; lia).
  simpl app. cbn [drop_while]. rewrite Hs. cbv zeta.
  by rewrite (proj2 (Z.eqb_neq c 45)), (proj2 (Z.eqb_neq c 43)) by lia.
Qed.

(** [DiscoverSegments] reads back the names that [SegmentPath] writes. *)
Lemma segment_name_roundtrip id : 0 ≤ id ≤ U32_MAX → parse_segment_name (SegmentName id) = Some id.
Proof.
  intros Hid. unfold parse_segment_name, SegmentName. unfold U32_MAX in Hid.
  set (ds := replicate (8 - length (to_string id)) 48 ++ to_string id).
  assert (Forall (λ c, 48 ≤ c ≤ 57) ds) as Hd.
  { apply Forall_app. split; [apply Forall_replicate; lia|]. apply to_string_digits. lia. }
  assert (8 ≤ length ds)%nat as Hlen by (unfold ds; rewrite length_app, length_replicate; lia).
  assert (dec_val ds 0 = id) as Hv by (unfold ds; rewrite dec_val_zeros; apply to_string_val; unfold U64_MAX; lia).
  assert (ds ≠ []) as Hne by (intros E; rewrite E in Hlen; simpl in Hlen; lia).
  rewrite (app_assoc (replicate _ _)). fold ds. clearbody ds. cbv zeta.
  change (drop 8 (str "segment_" ++ ds ++ str ".log")) with (ds ++ str ".log").
  rewrite take_app_length' by done. rewrite bool_decide_true by done. cbn [negb].
  rewrite !length_app. change (length (str "segment_")) with 8%nat. change (length (str ".log")) with 4%nat.
  rewrite (proj2 (Nat.ltb_ge _ _)) by lia. rewrite app_assoc.
  rewrite drop_app_length' by (rewrite length_app; change (length (str "segment_")) with 8%nat; lia).
  rewrite bool_decide_true by done. cbn [negb].
  unfold strtoull. rewrite scan_decimal_digits, strtoull_end_digits, Hv by done. cbn.
  rewrite (proj2 (Z.ltb_ge _ _)) by (unfold U64_MAX; lia). f_equal. by apply u32_small.
Qed.

(** ** What the files hold *)

(** The segments in ascending order, each with the entries it records. *)
Abbreviation layout := (list (Z * list LogEntry)).

Definition recs (segs : layout) : list LogEntry := concat segs.*2.

Fixpoint seg_lookup (segs : layout) (id : Z) : option (list LogEntry) :=
  match segs with
  | [] => None
  | (k, es) :: segs => if decide (k = id) then Some es else seg_lookup segs id
  end.

Definition files_hold (fs : segments) (segs : layout) : Prop :=
  ∀ id, wf_data <$> fs !! id = wal_bytes <$> seg_lookup segs id.

Record layout_ok (segs : layout) : Prop := {
  layout_sorted : StronglySorted Z.lt segs.*1;
  layout_ids : Forall (λ id, 0 ≤ id ≤ U32_MAX) segs.*1
}.

Lemma seg_lookup_app l1 l2 id :
  seg_lookup (l1 ++ l2) id =
    match seg_lookup l1 id with Some es => Some es | None => seg_lookup l2 id end.
Proof. induction l1 as [|[k es] l1 IH]; simpl; [done|]. by case_decide. Qed.

Lemma seg_lookup_None segs id : seg_lookup segs id = None ↔ id ∉ segs.*1.
Proof.
  induction segs as [|[k es] segs IH]; simpl; [split; [intros _; apply not_elem_of_nil|done]|].
  rewrite not_elem_of_cons. case_decide; subst; [split; [done|by intros [? _]]|]. rewrite IH.
  split; [by intros; split; [congruence|]|by intros [_ ?]].
Qed.

Lemma files_hold_dom fs segs id : files_hold fs segs → id ∈ dom fs ↔ id ∈ segs.*1.
Proof.
  intros H. specialize (H id). rewrite elem_of_dom. split.
  - intros [f E]. rewrite E in H. destruct (decide (id ∈ segs.*1)) as [|Hn]; [done|].
    apply seg_lookup_None in Hn. by rewrite Hn in H.
  - intros Hin. destruct (fs !! id) eqn:E; [done|]. destruct (seg_lookup segs id) eqn:E2; [done|].
    by apply seg_lookup_None in E2.
Qed.

Lemma sorted_NoDup (l : list Z) : StronglySorted Z.lt l → NoDup l.
Proof.
  induction 1 as [|x l _ IH Hx]; constructor; [|done]. intros Hin.
  rewrite Forall_forall in Hx. specialize (Hx x Hin). lia.
Qed.

Lemma sorted_le (l : list Z) : StronglySorted Z.lt l → StronglySorted Z.le l.
Proof. induction 1; constructor; [done|]. eapply Forall_impl; [done|]. simpl. lia. Qed.

Lemma omap_segment_names ids :
  Forall (λ id, 0 ≤ id ≤ U32_MAX) ids → omap parse_segment_name (SegmentName <$> ids) = ids.
Proof.
  induction 1 as [|id ids Hid _ IH]; [done|]. cbn [fmap list_fmap omap list_omap].
  rewrite segment_name_roundtrip by done. by rewrite IH.
Qed.

Lemma DiscoverSegments_layout s segs :
  layout_ok segs → (∀ id, id ∈ dom (sg_files s) ↔ id ∈ segs.*1) → DiscoverSegments s = segs.*1.
Proof.
  intros [Hs Hr] Hd. unfold DiscoverSegments. rewrite omap_segment_names.
  - apply (StronglySorted_unique Z.le).
    + apply StronglySorted_merge_sort; apply _.
    + by apply sorted_le.
    + rewrite merge_sort_Permutation. apply NoDup_Permutation.
      * apply NoDup_elements.
      * by apply sorted_NoDup.
      * intros id. by rewrite elem_of_elements.
  - apply Forall_forall. intros id Hin%elem_of_elements. rewrite Forall_forall in Hr. by apply Hr, Hd.
Qed.

Lemma files_hold_new fs segs id f :
  files_hold fs segs → id ∉ segs.*1 → wf_data f = [] → files_hold (<[id := f]> fs) (segs ++ [(id, [])]).
Proof.
  intros H Hn Hf i. rewrite seg_lookup_app. cbn [seg_lookup]. destruct (decide (id = i)) as [<-|Hne].
  - apply seg_lookup_None in Hn. rewrite Hn, lookup_insert_eq. simpl. by rewrite Hf.
  - rewrite lookup_insert_ne, H by done. by destruct (seg_lookup segs i).
Qed.

Lemma files_hold_alter g fs pre k es es' post :
  files_hold fs (pre ++ (k, es) :: post) → k ∉ pre.*1 →
  (∀ f, wf_data f = wal_bytes es → wf_data (g f) = wal_bytes es') →
  files_hold (alter g k fs) (pre ++ (k, es') :: post).
Proof.
  intros H Hn Hg i. specialize (H i). rewrite seg_lookup_app in *. cbn [seg_lookup] in *.
  destruct (decide (k = i)) as [<-|Hne].
  - apply seg_lookup_None in Hn. rewrite Hn in *. rewrite lookup_alter_eq.
    destruct (fs !! k) as [f|]; [|done]. simpl in *. injection H as H. by rewrite (Hg f H).
  - by rewrite lookup_alter_ne.
Qed.

Lemma files_hold_delete fs pre mid post :
  files_hold fs (pre ++ mid ++ post) → NoDup (pre ++ mid ++ post).*1 →
  files_hold (foldr delete fs mid.*1) (pre ++ post).
Proof.
  intros H Hnd i. specialize (H i). rewrite !fmap_app in Hnd.
  apply NoDup_app in Hnd as (_ & Hpre & (_ & Hmid & _)%NoDup_app).
  rewrite !seg_lookup_app in *. destruct (decide (i ∈ mid.*1)) as [Hi|Hi].
  - rewrite lookup_foldr_delete by done. specialize (Hmid i Hi).
    assert (i ∉ pre.*1) as Hp by (intros Hp; apply (Hpre i Hp), elem_of_app; by left).
    apply seg_lookup_None in Hmid, Hp. by rewrite Hp, Hmid.
  - rewrite lookup_foldr_delete_not_elem_of by done. apply seg_lookup_None in Hi. by rewrite Hi in H.
Qed.

Lemma files_hold_all fs segs : files_hold fs segs → foldr delete fs segs.*1 = ∅.
Proof.
  intros H. apply map_empty. intros i. destruct (decide (i ∈ segs.*1)) as [Hi|Hi].
  - by apply lookup_foldr_delete.
  - rewrite lookup_foldr_delete_not_elem_of by done. apply seg_lookup_None in Hi.
    specialize (H i). rewrite Hi in H. by destruct (fs !! i).
Qed.

Lemma layout_ok_app l1 l2 : layout_ok (l1 ++ l2) → layout_ok l1 ∧ layout_ok l2.
Proof.
  intros [Hs Hi]. rewrite fmap_app in *. apply StronglySorted_app in Hs as (_ & H1 & H2).
  apply Forall_app in Hi as [H3 H4]. by split; split.
Qed.

Lemma layout_ok_keys segs segs' : segs.*1 = segs'.*1 → layout_ok segs → layout_ok segs'.
Proof. intros E []. split; by rewrite <-E. Qed.

Lemma layout_NoDup segs : layout_ok segs → NoDup segs.*1.
Proof. intros [Hs _]. by apply sorted_NoDup. Qed.

Lemma layout_not_before pre k es post : layout_ok (pre ++ (k, es) :: post) → k ∉ pre.*1.
Proof.
  intros H%layout_NoDup. rewrite fmap_app in H. apply NoDup_app in H as (_ & H & _).
  intros Hk. apply (H k Hk). simpl. left.
Qed.

Lemma filter_none {A} (P : A → Prop) `{∀ x, Decision (P x)} l : Forall (λ x, ¬ P x) l → filter P l = [].
Proof. induction 1; [done|]. by rewrite filter_cons_False. Qed.

Lemma filter_all {A} (P : A → Prop) `{∀ x, Decision (P x)} l : Forall P l → filter P l = l.
Proof. induction 1; [done|]. rewrite filter_cons_True by done. by f_equal. Qed.

Lemma layout_sides pre k es post :
  layout_ok (pre ++ (k, es) :: post) → Forall (λ id, id < k) pre.*1 ∧ Forall (λ id, k < id) post.*1.
Proof.
  intros [Hs _]. rewrite fmap_app in Hs. apply StronglySorted_app in Hs as (Hp & _ & Hk).
  cbn [fmap list_fmap fst] in Hk. apply StronglySorted_cons in Hk as [Hk _]. split; [|done].
  apply Forall_forall. intros x Hx. apply Hp; [done|]. simpl. left.
Qed.

Lemma layout_after pre k es post :
  layout_ok (pre ++ (k, es) :: post) → filter (λ id, k < id) (pre ++ (k, es) :: post).*1 = post.*1.
Proof.
  intros [Hp Hk]%layout_sides. rewrite fmap_app, filter_app. cbn [fmap list_fmap fst].
  rewrite filter_cons_False by lia. rewrite (filter_none _ pre.*1), (filter_all _ post.*1); [done|done|].
  eapply Forall_impl; [done|]. simpl. lia.
Qed.

Lemma layout_before pre k es post :
  layout_ok (pre ++ (k, es) :: post) → take_while (λ id, id <? k) (pre ++ (k, es) :: post).*1 = pre.*1.
Proof.
  intros [Hp _]%layout_sides. rewrite fmap_app, take_while_app.
  - cbn [fmap list_fmap fst take_while]. rewrite Z.ltb_irrefl. apply app_nil_r.
  - eapply Forall_impl; [done|]. simpl. lia.
Qed.

Lemma layout_last pre k es post p k' es' :
  layout_ok (pre ++ (k, es) :: post) → pre ++ (k, es) :: post = p ++ [(k', es')] → k ≤ k'.
Proof.
  intros [_ Hk]%layout_sides E. destruct post as [|x post _] using rev_ind.
  - apply app_inj_tail in E as [_ E]. injection E as -> _. lia.
  - rewrite app_comm_cons, app_assoc in E. apply app_inj_tail in E as [_ ->].
    rewrite fmap_app in Hk. apply Forall_app in Hk as [_ Hk].
    inversion Hk. simpl in *. lia.
Qed.

Lemma recs_app l1 l2 : recs (l1 ++ l2) = recs l1 ++ recs l2.
Proof. unfold recs. by rewrite fmap_app, concat_app. Qed.

Lemma recs_cons k es segs : recs ((k, es) :: segs) = es ++ recs segs.
Proof. done. Qed.

Lemma recs_snoc l k es : recs (l ++ [(k, es)]) = recs l ++ es.
Proof. rewrite recs_app. unfold recs at 2. simpl. by rewrite app_nil_r. Qed.

Lemma recs_snoc_app l k es es' : recs (l ++ [(k, es ++ es')]) = recs (l ++ [(k, es)]) ++ es'.
Proof. rewrite !recs_snoc. by rewrite app_assoc. Qed.

Lemma wal_bytes_cons e es : wal_bytes (e :: es) = wal_record e ++ wal_bytes es.
Proof. done. Qed.

Lemma wal_bytes_app es1 es2 : wal_bytes (es1 ++ es2) = wal_bytes es1 ++ wal_bytes es2.
Proof. unfold wal_bytes. by rewrite map_app, concat_app. Qed.

Lemma wal_bytes_snoc es e : wal_bytes (es ++ [e]) = wal_bytes es ++ wal_record e.
Proof. rewrite wal_bytes_app. unfold wal_bytes at 2. simpl. by rewrite app_nil_r. Qed.

(** ** The index *)

(** Where the record of the entry with index [i] is. *)
Fixpoint find_rec (offset : Z) (es : list LogEntry) (i : Z) : option Z :=
  match es with
  | [] => None
  | e :: es => if decide (le_index e = i) then Some offset else find_rec (offset + zlen (wal_record e)) es i
  end.

Fixpoint locate (segs : layout) (i : Z) : option EntryLocation :=
  match segs with
  | [] => None
  | (k, es) :: segs =>
      match find_rec 0 es i with
      | Some offset => Some (mkEntryLocation k offset)
      | None => locate segs i
      end
  end.

(** The index has the location of every recorded entry above [lo]. *)
Definition index_ok (ix : WalIndex) (segs : layout) (lo : Z) : Prop :=
  ∀ e, e ∈ recs segs → lo < le_index e → ix !! le_index e = locate segs (le_index e).

Lemma find_rec_app es1 es2 i offset :
  find_rec offset (es1 ++ es2) i =
    match find_rec offset es1 i with
    | Some o => Some o
    | None => find_rec (offset + zlen (wal_bytes es1)) es2 i
    end.
Proof.
  revert offset. induction es1 as [|e es1 IH]; intros offset; simpl.
  - unfold wal_bytes. simpl. by rewrite zlen_nil, Z.add_0_r.
  - case_decide; [done|]. by rewrite IH, wal_bytes_cons, zlen_app, Z.add_assoc.
Qed.

Lemma locate_app l1 l2 i :
  locate (l1 ++ l2) i = match locate l1 i with Some loc => Some loc | None => locate l2 i end.
Proof. induction l1 as [|[k es] l1 IH]; simpl; [done|]. by destruct (find_rec 0 es i). Qed.

Lemma find_rec_None es i offset : find_rec offset es i = None ↔ i ∉ le_index <$> es.
Proof.
  revert offset. induction es as [|e es IH]; intros offset; simpl; [split; [intros _; apply not_elem_of_nil|done]|].
  rewrite not_elem_of_cons. case_decide; subst; [split; [done|by intros [? _]]|]. rewrite IH.
  split; [by intros; split; [congruence|]|by intros [_ ?]].
Qed.

Lemma locate_None segs i : locate segs i = None ↔ i ∉ le_index <$> recs segs.
Proof.
  induction segs as [|[k es] segs IH]; simpl; [split; [intros _; apply not_elem_of_nil|done]|].
  rewrite recs_cons, fmap_app, not_elem_of_app, <-IH, <-(find_rec_None es i 0).
  destruct (find_rec 0 es i); [|by split; [|intros []]]. split; [done|by intros []].
Qed.

Lemma find_rec_Some es i offset o :
  find_rec offset es i = Some o →
  ∃ es1 e es2, es = es1 ++ e :: es2 ∧ le_index e = i ∧ o = offset + zlen (wal_bytes es1).
Proof.
  revert offset. induction es as [|e es IH]; intros offset; simpl; [done|]. case_decide.
  - intros [= <-]. exists [], e, es. unfold wal_bytes. simpl. rewrite zlen_nil. split_and!; [done|done|lia].
  - intros (es1 & e' & es2 & -> & Hi & ->)%IH. exists (e :: es1), e', es2.
    rewrite wal_bytes_cons, zlen_app. split_and!; [done|done|lia].
Qed.

Lemma locate_Some segs i loc :
  locate segs i = Some loc →
  ∃ pre es1 e es2 post, segs = pre ++ (loc_segment_id loc, (es1 ++ [e]) ++ es2) :: post ∧
    le_index e = i ∧ loc_offset loc = zlen (wal_bytes es1).
Proof.
  induction segs as [|[k es] segs IH]; simpl; [done|]. destruct (find_rec 0 es i) as [o|] eqn:E.
  - intros [= <-]. apply find_rec_Some in E as (es1 & e & es2 & -> & Hi & ->).
    exists [], es1, e, es2, segs. simpl. by rewrite <-app_assoc.
  - intros (p & es1 & e & es2 & post & -> & Hi & Ho)%IH. by exists ((k, es) :: p), es1, e, es2, post.
Qed.

Lemma locate_recorded segs e : e ∈ recs segs → is_Some (locate segs (le_index e)).
Proof.
  intros Hin. destruct (locate segs (le_index e)) eqn:E; [done|]. apply locate_None in E.
  destruct E. by apply list_elem_of_fmap_2.
Qed.

Lemma index_ok_add ix pre k es e lo :
  index_ok ix (pre ++ [(k, es)]) lo →
  (∀ e', e' ∈ recs (pre ++ [(k, es)]) → le_index e' < le_index e) →
  index_ok (WalIndex_Add ix (le_index e) k (zlen (wal_bytes es))) (pre ++ [(k, es ++ [e])]) lo.
Proof.
  intros H Hlt e' Hin Hlo. rewrite recs_snoc_app in Hin. unfold WalIndex_Add.
  rewrite locate_app. cbn [locate]. rewrite find_rec_app. cbn [find_rec].
  apply elem_of_app in Hin as [Hin|Hin%list_elem_of_singleton].
  - pose proof (H e' Hin Hlo) as Hl. pose proof (locate_recorded _ _ Hin) as [loc Hloc].
    specialize (Hlt e' Hin). rewrite lookup_insert_ne, Hl by lia. rewrite decide_False by lia.
    rewrite Hloc. rewrite locate_app in Hloc. cbn [locate] in Hloc.
    destruct (locate pre _); [done|]. by destruct (find_rec 0 es _).
  - subst e'. rewrite lookup_insert_eq, decide_True by done.
    assert (le_index e ∉ le_index <$> recs (pre ++ [(k, es)])) as Hn.
    { intros (e' & E & Hin)%list_elem_of_fmap. specialize (Hlt e' Hin). lia. }
    rewrite recs_snoc, fmap_app, not_elem_of_app in Hn. destruct Hn as [H1%locate_None H2].
    apply (find_rec_None es _ 0) in H2. by rewrite H1, H2.
Qed.

Lemma index_ok_new_segment ix segs k lo : index_ok ix segs lo → index_ok ix (segs ++ [(k, [])]) lo.
Proof.
  intros H e Hin Hlo. rewrite recs_snoc, app_nil_r in Hin. rewrite locate_app, <-(H e Hin Hlo).
  rewrite (H e Hin Hlo). by destruct (locate segs _).
Qed.

Lemma index_ok_truncate ix pre k es1 es2 post lo n :
  index_ok ix (pre ++ (k, es1 ++ es2) :: post) lo →
  (∀ e, e ∈ recs (pre ++ [(k, es1)]) → le_index e ≤ n) →
  index_ok (WalIndex_Truncate ix n) (pre ++ [(k, es1)]) lo.
Proof.
  intros H Hle e Hin Hlo. unfold WalIndex_Truncate.
  assert (e ∈ recs (pre ++ (k, es1 ++ es2) :: post)) as Hin'.
  { rewrite recs_app, recs_cons, <-app_assoc, app_assoc, <-(recs_snoc _ k).
    apply elem_of_app. by left. }
  pose proof (locate_recorded _ _ Hin) as [loc Hloc].
  assert (ix !! le_index e = Some loc) as E.
  { rewrite (H e Hin' Hlo), <-Hloc, !locate_app. cbn [locate]. rewrite find_rec_app.
    rewrite locate_app in Hloc. cbn [locate] in Hloc.
    destruct (locate pre _); [done|]. by destruct (find_rec 0 es1 _). }
  rewrite Hloc. apply map_lookup_filter_Some. split; [done|]. by apply Hle.
Qed.

Lemma index_ok_drop ix pre post lo lo' :
  index_ok ix (pre ++ post) lo → lo ≤ lo' → (∀ e, e ∈ recs pre → le_index e ≤ lo') →
  index_ok (WalIndex_TrimUpTo ix lo') post lo'.
Proof.
  intros H Hlo Hpre e Hin Hgt. unfold WalIndex_TrimUpTo.
  assert (ix !! le_index e = locate post (le_index e)) as E.
  { rewrite (H e); [|rewrite recs_app; apply elem_of_app; by right|lia]. rewrite locate_app.
    destruct (locate pre _) eqn:E; [|done]. exfalso.
    assert (locate pre (le_index e) ≠ None) as Hn by (by rewrite E). apply Hn, locate_None.
    intros (e' & E' & Hin')%list_elem_of_fmap. specialize (Hpre e' Hin'). lia. }
  rewrite <-E. destruct (ix !! le_index e) eqn:E2; [by apply map_lookup_filter_Some|].
  apply map_lookup_filter_None. by left.
Qed.

(** ** Recovery by scanning *)

Lemma ascending_app i es1 es2 :
  ascending i (es1 ++ es2) ↔ ascending i es1 ∧ ascending (last_index_of i es1) es2.
Proof.
  revert i. induction es1 as [|e es1 IH]; intros i; simpl; [by split; [|intros [_ ?]]|].
  rewrite IH. assert (last_index_of i (e :: es1) = last_index_of (le_index e) es1) as ->.
  { unfold last_index_of. destruct es1; [done|]. rewrite last_cons_cons.
    by destruct (last (l :: es1)) eqn:E; [|apply last_None in E]. }
  tauto.
Qed.

Lemma ascending_le i es e : ascending i es → e ∈ es → le_index e ≤ last_index_of i es.
Proof.
  revert i. induction es as [|e' es IH] using rev_ind; intros i Ha Hin; [by apply elem_of_nil in Hin|].
  apply ascending_app in Ha as [Ha [Hlt _]]. unfold last_index_of at 1. rewrite last_snoc.
  apply elem_of_app in Hin as [Hin| ->%list_elem_of_singleton]; [|lia].
  specialize (IH i Ha Hin). lia.
Qed.

Definition last_term_of (es : list LogEntry) : Z :=
  match last es with Some e => le_term e | None => 0 end.

(** The state after the segments [segs] have been scanned. *)
Record scanned s (segs : layout) : Prop := {
  scanned_entries : sg_entries s = mkLogEntry 0 0 [] :: recs segs;
  scanned_last : sg_last_index s = last_index_of 0 (recs segs);
  scanned_term : sg_last_term s = last_term_of (recs segs);
  scanned_index : index_ok (sg_index s) segs 0
}.

Definition sg_disk s := (sg_dir s, sg_files s, sg_manifest s, sg_writer s, sg_current_segment_id s).
Definition sg_rest s := (sg_disk s, sg_base_index s, sg_anchor s).

Lemma scan_fold_ok pre k es' : ∀ es s,
  scanned s (pre ++ [(k, es)]) → ascending 0 (recs (pre ++ [(k, es ++ es')])) →
  let s' := fold_left (fun s '(e, offset) =>
              RebuildIndex (s <| sg_entries ::= fun es => es ++ [e] |>) (le_index e) (le_term e) k offset)
              (records_at (zlen (wal_bytes es)) es') s in
  scanned s' (pre ++ [(k, es ++ es')]) ∧ sg_rest s' = sg_rest s.
Proof.
  induction es' as [|e es' IH]; intros es s Hs Ha; cbv zeta; [by rewrite app_nil_r|].
  cbn [records_at fold_left].
  change (e :: es') with ([e] ++ es') in *. rewrite (app_assoc es [e] es') in *.
  rewrite <-zlen_app, <-wal_bytes_snoc.
  match goal with |- context [fold_left _ _ ?t] => set (s1 := t) end.
  destruct (IH (es ++ [e]) s1) as [H1 H2]; [|done|by split].
  destruct Hs as [He Hl Ht Hx]. rewrite recs_snoc_app, recs_snoc_app in Ha.
  apply ascending_app in Ha as [Ha _]. apply ascending_app in Ha as [Ha [Hlt _]].
  split; unfold s1; simpl; rewrite ?recs_snoc_app.
  - by rewrite He.
  - unfold last_index_of. by rewrite last_snoc.
  - unfold last_term_of. by rewrite last_snoc.
  - apply index_ok_add; [done|]. intros e' Hin. pose proof (ascending_le _ _ _ Ha Hin). lia.
Qed.

Lemma ScanSegment_ok s pre k es f t :
  scanned s pre → ascending 0 (recs (pre ++ [(k, es)])) → Forall record_ok es →
  sg_files s !! k = Some f → wf_data f = wal_bytes es ++ t → unreadable t →
  scanned (ScanSegment s k) (pre ++ [(k, es)]) ∧ sg_rest (ScanSegment s k) = sg_rest s.
Proof.
  intros Hs Ha Hok Hf Hd Ht. unfold ScanSegment. rewrite Hf, Hd. pose proof Ha as Ha'.
  rewrite recs_snoc in Ha'. apply ascending_app in Ha' as [_ Ha']. pose proof Hs as [He Hl Hm Hx].
  rewrite scan_wal; [|done|by rewrite Hl|done|rewrite length_app; lia].
  apply (scan_fold_ok pre k es [] s); [|done].
  split; rewrite ?recs_snoc, ?app_nil_r; [done..|]. by apply index_ok_new_segment.
Qed.

(** Every segment can be read back, up to a tail that cannot. *)
Definition readable (fs : segments) (segs : layout) : Prop :=
  Forall (λ p, ∃ f t, fs !! p.1 = Some f ∧ wf_data f = wal_bytes p.2 ++ t ∧ unreadable t) segs.

Lemma scan_segments_ok segs : ∀ s pre,
  scanned s pre → ascending 0 (recs (pre ++ segs)) → Forall record_ok (recs segs) →
  readable (sg_files s) segs →
  let s' := fold_left ScanSegment segs.*1 s in
  scanned s' (pre ++ segs) ∧ sg_rest s' = sg_rest s.
Proof.
  induction segs as [|[k es] segs IH]; intros s pre Hs Ha Hok Hf; cbv zeta; [by rewrite app_nil_r|].
  cbn [fmap list_fmap fst fold_left]. rewrite recs_cons in Hok.
  change ((k, es) :: segs) with ([(k, es)] ++ segs) in *. rewrite (app_assoc pre [_] segs) in *.
  apply Forall_app in Hok as [Hok Hoks]. apply Forall_cons in Hf as [(f & t & Hk & Hd & Ht) Hf]. pose proof Ha as Ha1.
  rewrite recs_app in Ha1. apply ascending_app in Ha1 as [Ha1 _].
  destruct (ScanSegment_ok s pre k es f t) as [H1 H2]; [done..|].
  destruct (IH (ScanSegment s k) (pre ++ [(k, es)])) as [H3 H4]; [done..| |by rewrite H4].
  assert (sg_files (ScanSegment s k) = sg_files s) as E by (by injection H2). by rewrite E.
Qed.

(** ** The invariant of a running log *)

(** Records the files hold: those the snapshot covers, behind which nothing has
    been deleted yet, and the log itself. *)
Definition wal_records (segs : layout) (a : alog) : Prop :=
  ∃ f covered, 0 ≤ f ∧ f + zlen covered = al_base a ∧ recs segs = covered ++ al_entries a ∧
    (∀ j e, recs segs !! j = Some e → le_index e = f + 1 + Z.of_nat j) ∧ Forall record_ok (recs segs).

(** The writer is at the end of the last segment. *)
Definition writer_ok s (segs : layout) : Prop :=
  match sg_writer s with
  | None => segs = []
  | Some w => ∃ pre es, segs = pre ++ [(sg_current_segment_id s, es)] ∧
                w = mkWalWriter (sg_current_segment_id s) (zlen (wal_bytes es)) []
  end.

Record disk_inv s (a : alog) (segs : layout) : Prop := {
  inv_dir : sg_dir s = true;
  inv_files : files_hold (sg_files s) segs;
  inv_layout : layout_ok segs;
  inv_records : wal_records segs a;
  inv_index : index_ok (sg_index s) segs (al_base a);
  inv_current : 0 ≤ sg_current_segment_id s ≤ U32_MAX;
  inv_anchor : anchor_index (al_anchor a) = al_base a
}.

Definition wal_inv s (a : alog) (segs : layout) : Prop :=
  SegmentLog_rep s a ∧ disk_inv s a segs ∧ writer_ok s segs.

Lemma consecutive_ascending es : ∀ f,
  (∀ j e, es !! j = Some e → le_index e = f + 1 + Z.of_nat j) → ascending f es.
Proof.
  induction es as [|e es IH]; intros f H; [done|]. pose proof (H O e eq_refl) as H0.
  split; [lia|]. apply IH. intros j e' Hj. specialize (H (S j) e' Hj). lia.
Qed.

Lemma ascending_weaken i i' es : i' ≤ i → ascending i es → ascending i' es.
Proof. intros Hi. destruct es; [done|]. simpl. intros []. split; [lia|done]. Qed.

Lemma wal_records_ascending segs a : wal_records segs a → ascending 0 (recs segs).
Proof.
  intros (f & c & Hf & _ & _ & H & _). apply (ascending_weaken f); [done|]. by apply consecutive_ascending.
Qed.

Lemma wal_records_indices segs a e :
  wal_records segs a → e ∈ recs segs → le_index e ≤ al_last a.
Proof.
  intros (f & c & Hf & Hb & Hr & H & _) [j Hj]%list_elem_of_lookup. rewrite (H j e Hj).
  apply lookup_lt_Some in Hj. rewrite Hr, length_app in Hj. unfold al_last, zlen in *. lia.
Qed.

(** *** The writer and the segments *)

Lemma readable_files fs segs : layout_ok segs → files_hold fs segs → readable fs segs.
Proof.
  intros Hl Hf. apply Forall_forall. intros [k es] Hin. apply list_elem_of_split in Hin as (l1 & l2 & ->).
  pose proof (Hf k) as Hk. rewrite seg_lookup_app in Hk.
  rewrite (proj2 (seg_lookup_None l1 k) (layout_not_before _ _ _ _ Hl)) in Hk. cbn [seg_lookup] in Hk.
  rewrite decide_True in Hk by done. destruct (fs !! k) as [f|] eqn:E; [|done].
  exists f, []. simpl in *. injection Hk as Hk. rewrite app_nil_r.
  split_and!; [done|done|apply unreadable_nil].
Qed.

Lemma layout_ok_snoc segs k es :
  layout_ok segs → Forall (λ id, id < k) segs.*1 → 0 ≤ k ≤ U32_MAX → layout_ok (segs ++ [(k, es)]).
Proof.
  intros [Hs Hi] Hlt Hk. split; rewrite fmap_app; simpl.
  - apply StronglySorted_app. split_and!; [|done|by repeat constructor].
    intros x y Hx ->%list_elem_of_singleton. rewrite Forall_forall in Hlt. by apply Hlt.
  - apply Forall_app. split; [done|by apply Forall_singleton].
Qed.

Lemma writer_absent s a segs :
  wal_inv s a segs → sg_writer s = None → segs = [] ∧ sg_last_index s = 0.
Proof.
  intros (Hr & Hi & Hwr) Hw. unfold writer_ok in Hwr. rewrite Hw in Hwr.
  subst segs. split; [done|]. destruct (sg_fields s a Hr) as (_ & _ & -> & _).
  destruct (inv_records _ _ _ Hi) as (f & c & Hf & Hb & Hrec & _). destruct Hr as [Hwf _].
  symmetry in Hrec. apply app_eq_nil in Hrec as [-> He]. unfold al_last. rewrite He in *.
  destruct (al_live a Hwf) as [->|]; [done|]. by rewrite He in *.
Qed.

Lemma EnsureWriter_inv s a segs :
  SegmentLog_rep s a → disk_inv s a segs → sg_writer s = None →
  Forall (λ id, id < sg_current_segment_id s) segs.*1 →
  wal_inv (EnsureWriter s) a (segs ++ [(sg_current_segment_id s, [])]) ∧ is_Some (sg_writer (EnsureWriter s)).
Proof.
  intros Hrep [Hd Hf Hl Hr Hx Hc Ha] Hn Hlt. split; [|unfold EnsureWriter; by rewrite Hn].
  split; [unfold SegmentLog_rep; by rewrite view_EnsureWriter|].
  assert (sg_current_segment_id s ∉ segs.*1) as Hnew
    by (intros Hin; rewrite Forall_forall in Hlt; specialize (Hlt _ Hin); lia).
  assert (sg_files s !! sg_current_segment_id s = None) as E.
  { apply not_elem_of_dom. by rewrite files_hold_dom. }
  unfold EnsureWriter. rewrite Hn. simpl. rewrite E. split; [split; simpl; try done|].
  - by apply files_hold_new.
  - by apply layout_ok_snoc.
  - unfold wal_records. by rewrite recs_snoc, app_nil_r.
  - by apply index_ok_new_segment.
  - unfold writer_ok. simpl. by exists segs, [].
Qed.

Lemma RollSegment_inv s a segs :
  wal_inv s a segs → is_Some (sg_writer s) → sg_current_segment_id s < U32_MAX →
  wal_inv (RollSegment s) a (segs ++ [(sg_current_segment_id s + 1, [])]).
Proof.
  intros (Hrep & [Hd Hf Hl Hr Hx Hc Ha] & Hw) [w E] Hlt. unfold RollSegment, close_writer.
  unfold writer_ok in Hw. rewrite E in *. destruct Hw as (pre & es & -> & ->).
  unfold WalWriter_Close, WalWriter_Flush. simpl.
  match goal with |- wal_inv (EnsureWriter ?t) _ _ => set (t0 := t) end.
  assert (sg_current_segment_id t0 = sg_current_segment_id s + 1) as <- by (apply u32_small; lia).
  apply EnsureWriter_inv; [done| |done|].
  - split; unfold t0; simpl; try done. rewrite u32_small; lia.
  - unfold t0. simpl. rewrite u32_small by lia. apply layout_sides in Hl as [Hp _].
    rewrite fmap_app. apply Forall_app. split; [|apply Forall_singleton; simpl; lia].
    eapply Forall_impl; [done|]. simpl. lia.
Qed.

(** ** Appending *)

(** The fields of an entry that [Append] records. *)
Definition entry_ok (e : LogEntry) : Prop :=
  0 ≤ le_term e ≤ U64_MAX ∧ is_bytes (le_command e) ∧ 0 < zlen (le_command e) ≤ U32_MAX.

#[export] Instance entry_ok_dec e : Decision (entry_ok e).
Proof. unfold entry_ok. apply _. Defined.

Lemma wal_records_append segs segs' a e :
  wal_records segs a → recs segs' = recs segs ++ [e <| le_index := al_last a + 1 |>] →
  entry_ok e → 0 ≤ al_last a < U64_MAX → wal_records segs' (al_append a e).
Proof.
  intros (f & c & Hf & Hb & Hr & Hi & Hok) E (Ht & Hc & Hs) Hl. exists f, c.
  split_and!; [done|done|by rewrite E, Hr, <-app_assoc| |].
  - intros j e' Hj. rewrite E in Hj. apply lookup_app_Some in Hj as [Hj|[Hlen Hj]]; [by apply Hi|].
    apply list_lookup_singleton_Some in Hj as [Hj <-]. simpl. rewrite Hr, length_app in *.
    unfold al_last, zlen in *. lia.
  - rewrite E. apply Forall_app. split; [done|]. apply Forall_singleton. split_and!; simpl; lia || done.
Qed.

Lemma al_last_nonneg a : al_wf a → 0 ≤ al_last a.
Proof. intros H. pose proof (al_base_nonneg a H). unfold al_last, zlen. lia. Qed.

(** The state of [Append] before a roll-over. *)
Definition appended s (e : LogEntry) (fs : segments) (w : WalWriter) (offset : Z) : SegmentLogStorage :=
  (push_entry s e) <| sg_files := fs |> <| sg_writer := Some w |>
    <| sg_index ::= fun ix =>
         WalIndex_Add ix (u64 (sg_last_index s + 1)) (sg_current_segment_id s) offset |>.

Lemma written_out fs pre k es e g :
  files_hold fs (pre ++ [(k, es)]) → k ∉ pre.*1 →
  (∀ f, wf_data (g f) = wf_data f ++ wal_record e) →
  files_hold (alter g k fs) (pre ++ [(k, es ++ [e])]).
Proof.
  intros Hf Hn Hg. apply (files_hold_alter g fs pre k es); [done|done|].
  intros f E. by rewrite Hg, E, wal_bytes_snoc.
Qed.

Lemma flush_or_write (b : bool) fs w :
  ww_buf w ≠ [] →
  ∃ g, (∀ f, wf_data (g f) = wf_data f ++ ww_buf w) ∧
    (if b then WalWriter_Flush fs w else WriteNoSync fs w) = (alter g (ww_segment w) fs, buffer_written w).
Proof.
  intros Hb. unfold WalWriter_Flush, WriteNoSync. rewrite (bool_decide_false (ww_buf w = [])) by done.
  destruct b; [|by exists (λ f, f <| wf_data ::= λ c, c ++ ww_buf w |>)].
  unfold fdatasync, write_out. rewrite alter_alter_eq.
  eexists. split; [|reflexivity]. done.
Qed.

Lemma wal_record_ne e : wal_record e ≠ [].
Proof. by rewrite wal_record_split. Qed.

Lemma Append_written s a pre es e flush :
  wal_inv s a (pre ++ [(sg_current_segment_id s, es)]) →
  sg_writer s = Some (mkWalWriter (sg_current_segment_id s) (zlen (wal_bytes es)) []) →
  entry_ok e → al_last a + 1 < U64_MAX →
  let e' := e <| le_index := al_last a + 1 |> in
  ∃ fs, let w' := mkWalWriter (sg_current_segment_id s) (zlen (wal_bytes (es ++ [e']))) [] in
    let s1 := appended s e fs w' (zlen (wal_bytes es)) in
    (SegmentLogStorage_Append s e flush).1 =
      (if kMaxSegmentBytes <=? ww_file_size w' then RollSegment s1 else s1) ∧
    disk_inv s1 (al_append a e) (pre ++ [(sg_current_segment_id s, es ++ [e'])]).
Proof.
  intros (Hrep & [Hd Hf Hl Hr Hx Hc Ha] & _) Hw Hok Hb e'.
  destruct (sg_fields s a Hrep) as (_ & _ & E3 & _). destruct Hrep as [Hwf _].
  pose proof (al_last_nonneg a Hwf) as Hlast.
  assert (u64 (sg_last_index s + 1) = al_last a + 1) as Hu by (rewrite E3; apply u64_small; lia).
  set (k := sg_current_segment_id s) in *.
  destruct (flush_or_write (flush && sg_fsync_per_append s) (sg_files s)
    (mkWalWriter k (zlen (wal_bytes es)) (wal_record e'))) as (g & Hg & E); [apply wal_record_ne|].
  exists (alter g k (sg_files s)). cbv zeta. split.
  - unfold SegmentLogStorage_Append. rewrite Hd, Hw.
    rewrite (bool_decide_true (is_Some (Some _))) by (by eexists).
    rewrite andb_false_r. cbn [negb]. cbv zeta. unfold push_entry at 1. simpl sg_writer. rewrite Hw.
    unfold WalWriter_Append, next_write_offset.
    assert (sg_last_index (push_entry s e) = al_last a + 1) as Hli by exact Hu. rewrite Hli.
    cbn [ww_segment ww_file_size ww_buf]. fold e'.
    match goal with |- context [if _ && _ then WalWriter_Flush ?x ?y else WriteNoSync _ _] =>
      change y with (mkWalWriter k (zlen (wal_bytes es)) (wal_record e'));
      change x with (sg_files s) end.
    change (sg_fsync_per_append (push_entry s e)) with (sg_fsync_per_append s). rewrite E.
    unfold buffer_written, appended, push_entry. simpl.
    rewrite wal_bytes_snoc, zlen_app, Hu, zlen_nil, Z.add_0_r.
    destruct (kMaxSegmentBytes <=? _); reflexivity.
  - assert (recs (pre ++ [(k, es ++ [e'])]) = recs (pre ++ [(k, es)]) ++ [e']) as Er by apply recs_snoc_app.
    split; unfold appended; simpl; try done.
    + apply written_out; [done|by eapply layout_not_before|exact Hg].
    + eapply layout_ok_keys; [|exact Hl]. by rewrite !fmap_app.
    + apply (wal_records_append (pre ++ [(k, es)])); [done|done|done|lia].
    + rewrite Hu. apply (index_ok_add _ _ _ _ e'); [done|].
      intros e0 Hin. pose proof (wal_records_indices _ _ _ Hr Hin). simpl. lia.
Qed.

(** The writer [Append] uses, opened when there is none. *)
Lemma Append_opens s a segs e flush :
  wal_inv s a segs →
  ∃ s' pre es, wal_inv s' a (pre ++ [(sg_current_segment_id s', es)]) ∧
    sg_current_segment_id s' = sg_current_segment_id s ∧
    sg_writer s' = Some (mkWalWriter (sg_current_segment_id s') (zlen (wal_bytes es)) []) ∧
    SegmentLogStorage_Append s e flush = SegmentLogStorage_Append s' e flush.
Proof.
  intros Hinv. pose proof Hinv as (Hrep & Hd & Hw). destruct (sg_writer s) as [w|] eqn:E.
  - unfold writer_ok in Hw. rewrite E in Hw. destruct Hw as (pre & es & -> & ->). by exists s, pre, es.
  - destruct (writer_absent s a segs Hinv E) as [-> Hl]. exists (EnsureWriter s), [], [].
    destruct (EnsureWriter_inv s a []) as [Hi [w Hs]]; [done..|]. pose proof Hi as (_ & _ & Hw').
    assert (sg_current_segment_id (EnsureWriter s) = sg_current_segment_id s) as Hc
      by (unfold EnsureWriter; by rewrite E).
    split_and!; [by rewrite Hc|done| |].
    + unfold writer_ok in Hw'. rewrite Hs in Hw'. destruct Hw' as (pre & es & H1 & ->).
      apply (app_inj_tail [] pre) in H1 as [_ H1]. injection H1 as _ <-. exact Hs.
    + assert (sg_dir (EnsureWriter s) = sg_dir s) as Hdir by (unfold EnsureWriter; by rewrite E).
      unfold SegmentLogStorage_Append. rewrite Hdir, (inv_dir _ _ _ Hd), Hl, E, Hs. cbn [negb].
      rewrite (bool_decide_false (is_Some None)) by (by intros []).
      rewrite (bool_decide_true (is_Some (Some w))) by done. rewrite andb_false_r. done.
Qed.

Lemma Append_inv s a segs e flush :
  wal_inv s a segs → entry_ok e → al_last a + 1 < U64_MAX → sg_current_segment_id s < U32_MAX →
  (∃ segs', wal_inv (SegmentLogStorage_Append s e flush).1 (al_append a e) segs') ∧
  sg_current_segment_id (SegmentLogStorage_Append s e flush).1 ≤ sg_current_segment_id s + 1.
Proof.
  intros Hinv Hok Hb Hc. destruct (Append_opens s a segs e flush Hinv) as (s' & pre & es & Hi & Ec & Hw & ->).
  rewrite <-Ec in *. clear Hinv Ec s. pose proof Hi as (Hrep & _).
  destruct (sg_append s' a e flush Hrep Hb) as [Hrep' _].
  destruct (Append_written s' a pre es e flush Hi Hw Hok Hb) as (fs & E & Hd). rewrite E in *. cbv zeta in *.
  set (s1 := appended _ _ _ _ _) in *. set (segs1 := pre ++ [(_, _ ++ _)]) in *.
  assert (writer_ok s1 segs1) as Hw1 by (by exists pre, (es ++ [e <| le_index := al_last a + 1 |>])).
  pose proof (inv_current _ _ _ Hd) as Hcur. change (sg_current_segment_id s1) with (sg_current_segment_id s') in Hcur.
  destruct (kMaxSegmentBytes <=? _).
  - unfold SegmentLog_rep in Hrep'. rewrite view_RollSegment in Hrep'.
    split; [|unfold RollSegment, close_writer, EnsureWriter; simpl; rewrite u32_small; simpl; lia].
    eexists. by apply RollSegment_inv.
  - split; [by eexists|]. change (sg_current_segment_id s1) with (sg_current_segment_id s'). lia.
Qed.

(** ** Truncation *)

Lemma wal_records_unique segs a e e' :
  wal_records segs a → e ∈ recs segs → e' ∈ recs segs → le_index e = le_index e' → e = e'.
Proof.
  intros (f & c & _ & _ & _ & H & _) [j Hj]%list_elem_of_lookup [j' Hj']%list_elem_of_lookup E.
  pose proof (H j e Hj). pose proof (H j' e' Hj'). replace j' with j in Hj' by lia. congruence.
Qed.

Lemma wal_records_truncate segs es1 e rest a n :
  wal_records segs a → recs segs = (es1 ++ [e]) ++ rest → le_index e = n → al_base a < n ≤ al_last a →
  ∀ segs', recs segs' = es1 ++ [e] → wal_records segs' (al_truncate a n).
Proof.
  intros (f & c & Hf & Hb & Hr & Hi & Hok) E En Hn segs' E'. exists f, c.
  assert (le_index e = f + 1 + Z.of_nat (length es1)) as Hlen.
  { apply Hi. rewrite E, <-app_assoc. by apply list_lookup_middle. }
  assert (es1 ++ [e] = c ++ take (Z.to_nat (n - al_base a)) (al_entries a)) as Et.
  { rewrite <-(take_app_length (es1 ++ [e]) rest), <-E, Hr, take_app, length_app. simpl length.
    unfold zlen in Hb. rewrite take_ge by lia. do 2 f_equal. lia. }
  split_and!; [done|done|by rewrite E'| |].
  - intros j e' Hj. apply Hi. rewrite E. rewrite E' in Hj. by apply lookup_app_l_Some.
  - rewrite E'. rewrite E in Hok. by apply Forall_app in Hok as [? _].
Qed.

Lemma ftruncate_record es1 e es2 f :
  wf_data f = wal_bytes ((es1 ++ [e]) ++ es2) →
  wf_data (ftruncate (zlen (wal_bytes es1) + kRecordHeaderSize + zlen (le_command e)) f) =
    wal_bytes (es1 ++ [e]).
Proof.
  intros E. simpl. rewrite E, wal_bytes_app.
  assert (zlen (wal_bytes es1) + kRecordHeaderSize + zlen (le_command e) = zlen (wal_bytes (es1 ++ [e]))) as ->.
  { rewrite wal_bytes_snoc, zlen_app, zlen_wal_record. unfold kRecordHeaderSize. lia. }
  rewrite to_nat_zlen, resize_le by (rewrite length_app; lia). apply take_app_length.
Qed.

(** No bytes wait in the writer's buffer. *)
Definition writer_idle s : Prop := ∀ w, sg_writer s = Some w → ww_buf w = [].

Lemma writer_ok_idle s segs : writer_ok s segs → writer_idle s.
Proof. intros Hw w E. unfold writer_ok in Hw. rewrite E in Hw. by destruct Hw as (? & ? & _ & ->). Qed.

Lemma close_writer_idle s : writer_idle s → close_writer s = s <| sg_writer := None |>.
Proof.
  intros Hw. unfold close_writer. destruct s as [d fs m w c b es ix li lt an fp]. simpl.
  destruct w as [w|]; [|done]. specialize (Hw w eq_refl).
  unfold WalWriter_Close, WalWriter_Flush. by rewrite Hw.
Qed.

Lemma files_hold_lookup fs pre k es post :
  files_hold fs (pre ++ (k, es) :: post) → k ∉ pre.*1 → ∃ f, fs !! k = Some f ∧ wf_data f = wal_bytes es.
Proof.
  intros H Hn. specialize (H k). rewrite seg_lookup_app in H.
  rewrite (proj2 (seg_lookup_None pre k) Hn) in H. cbn [seg_lookup] in H.
  rewrite decide_True in H by done. destruct (fs !! k) as [f|]; [|done]. exists f. split; [done|by injection H].
Qed.

(** The kept segment is the last one afterwards, with the writer at its end. *)
Lemma truncate_files_ok s pre k es1 e es2 post :
  files_hold (sg_files s) (pre ++ (k, (es1 ++ [e]) ++ es2) :: post) →
  layout_ok (pre ++ (k, (es1 ++ [e]) ++ es2) :: post) → writer_idle s →
  let s' := truncate_files s (mkEntryLocation k (zlen (wal_bytes es1))) e in
  let segs' := pre ++ [(k, es1 ++ [e])] in
  files_hold (sg_files s') segs' ∧ writer_ok s' segs' ∧ sg_dir s' = sg_dir s ∧
  sg_index s' = sg_index s ∧ sg_current_segment_id s' = k.
Proof.
  intros Hf Hl Hw s' segs'. assert (s' = truncate_files s (mkEntryLocation k (zlen (wal_bytes es1))) e) as Es
    by done. clearbody s'. unfold truncate_files in Es. cbn [loc_segment_id loc_offset] in Es. cbv zeta in Es.
  assert (k ∉ pre.*1) as Hk by (by eapply layout_not_before).
  set (g := ftruncate _) in Es.
  assert (files_hold (alter g k (sg_files s)) (pre ++ (k, es1 ++ [e]) :: post)) as Hg.
  { apply (files_hold_alter g _ _ _ _ _ _ Hf Hk). intros f. apply ftruncate_record. }
  assert (layout_ok (pre ++ (k, es1 ++ [e]) :: post)) as Hl'
    by (eapply layout_ok_keys; [|exact Hl]; by rewrite !fmap_app).
  rewrite close_writer_idle in Es by done.
  rewrite (DiscoverSegments_layout _ _ Hl') in Es by (intros id; by apply files_hold_dom).
  rewrite layout_after in Es by done. unfold EnsureWriter in Es. simpl in Es.
  set (fs := foldr delete _ _) in Es.
  assert (files_hold fs segs') as Hfs.
  { rewrite <-(app_nil_r segs'). apply files_hold_delete; rewrite app_nil_r; unfold segs'; rewrite <-app_assoc.
    - exact Hg.
    - by apply layout_NoDup. }
  destruct (files_hold_lookup fs pre k (es1 ++ [e]) []) as (f & Ef & Ed); [done|done|].
  rewrite Ef in Es. simpl in Es. rewrite insert_id in Es by done.
  rewrite Es. simpl. split_and!; [done| |done..]. exists pre, (es1 ++ [e]). split; [done|]. simpl. by rewrite Ed.
Qed.

Lemma al_get_recorded segs a i e : wal_records segs a → al_get a i = Some e → e ∈ recs segs.
Proof.
  intros (f & c & _ & _ & Hr & _) Hg. unfold al_get in Hg. case_match; [done|].
  rewrite Hr. apply elem_of_app. right. by eapply list_elem_of_lookup_2.
Qed.

(** The index knows the record of every entry of the log. *)
Lemma live_location s a segs n :
  wal_inv s a segs → al_base a < n ≤ al_last a →
  ∃ pre k es1 e es2 post, segs = pre ++ (k, (es1 ++ [e]) ++ es2) :: post ∧
    al_get a n = Some e ∧ le_index e = n ∧ sg_index s !! n = Some (mkEntryLocation k (zlen (wal_bytes es1))).
Proof.
  intros (Hrep & [Hd Hf Hl Hr Hx Hc Ha] & _) Hn. pose proof Hrep as [Hwf _].
  destruct (al_get_is_Some a n Hn) as [e He].
  pose proof (al_get_index a n e Hwf He) as Hi. pose proof (al_get_recorded _ _ _ _ Hr He) as Hin.
  pose proof (locate_recorded _ _ Hin) as [loc Hloc]. pose proof (Hx e Hin ltac:(lia)) as Hix.
  rewrite Hi in Hix, Hloc. rewrite Hloc in Hix.
  apply locate_Some in Hloc as (pre & es1 & e' & es2 & post & -> & Hi' & Ho).
  assert (e' = e) as ->.
  { eapply wal_records_unique; [done| |done|congruence]. rewrite recs_app, recs_cons.
    apply elem_of_app. right. apply elem_of_app. left. apply elem_of_app. left. apply elem_of_app. right.
    by apply list_elem_of_singleton. }
  destruct loc as [k o]. simpl in *. subst o. by exists pre, k, es1, e, es2, post.
Qed.

(** [TruncateFrom] after its in-memory part. *)
Definition trimmed s (n : Z) (keep : LogEntry) : SegmentLogStorage :=
  s <| sg_index ::= fun ix => WalIndex_Truncate ix n |> <| sg_last_index := n |>
    <| sg_last_term := le_term keep |>
    <| sg_entries ::= resize (S (Z.to_nat (n - sg_base_index s))) default_LogEntry |>.

Lemma TruncateFrom_eq s a n e loc w :
  SegmentLog_rep s a → al_base a < n → al_get a n = Some e →
  sg_index s !! n = Some loc → sg_writer s = Some w →
  SegmentLogStorage_TruncateFrom s n = truncate_files (trimmed s n e) loc e.
Proof.
  intros Hrep Hn He Hl Hw. destruct (sg_fields s a Hrep) as (Eb & Ee & _).
  unfold SegmentLogStorage_TruncateFrom. rewrite (proj2 (Z.leb_gt n (sg_base_index s))) by lia.
  assert (sg_entries s !! Z.to_nat (n - sg_base_index s) = Some e) as ->.
  { rewrite Ee, Eb, lookup_cons_ne_0 by lia. unfold al_get in He. case_match; [done|].
    by replace (pred (Z.to_nat (n - al_base a))) with (Z.to_nat (n - al_base a - 1)) by lia. }
  cbv zeta. cbn [default].
  match goal with |- context [match ?x !! n with _ => _ end] =>
    assert (x !! n = Some loc) as -> by (apply map_lookup_filter_Some; by split) end.
  match goal with |- context [match ?x with Some _ => truncate_files _ _ _ | None => _ end] =>
    assert (x = Some w) as -> by done end. done.
Qed.

Lemma TruncateFrom_inv s a segs n :
  wal_inv s a segs → al_base a < n ≤ al_last a →
  (∃ segs', wal_inv (SegmentLogStorage_TruncateFrom s n) (al_truncate a n) segs') ∧
  sg_current_segment_id (SegmentLogStorage_TruncateFrom s n) ≤ sg_current_segment_id s.
Proof.
  intros Hinv Hn. destruct (live_location s a segs n Hinv Hn) as (pre & k & es1 & e & es2 & post & -> & He & Hi & Hx').
  pose proof Hinv as (Hrep & [Hd Hf Hl Hr Hx Hc Ha] & Hw). pose proof (sg_truncate s a n Hrep Hn) as Hrep'.
  destruct (sg_writer s) as [w|] eqn:Ew;
    [|destruct (writer_absent s a _ Hinv Ew) as [E _]; by apply app_nil in E as [_ ?]].
  rewrite (TruncateFrom_eq s a n e _ w Hrep (proj1 Hn) He Hx' Ew) in *.
  destruct (truncate_files_ok (trimmed s n e) pre k es1 e es2 post) as (Hf' & Hw' & Hd' & Hx2 & Hc');
    [done|done|by eapply (writer_ok_idle s)|].
  unfold writer_ok in Hw. rewrite Ew in Hw. destruct Hw as (p & es & Es & _).
  set (segs' := pre ++ [(k, es1 ++ [e])]) in *.
  assert (recs (pre ++ (k, (es1 ++ [e]) ++ es2) :: post) = ((recs pre ++ es1) ++ [e]) ++ es2 ++ recs post) as Er
    by (rewrite recs_app, recs_cons; by rewrite <-!app_assoc).
  assert (recs segs' = (recs pre ++ es1) ++ [e]) as Er' by (unfold segs'; rewrite recs_snoc; apply app_assoc).
  assert (wal_records segs' (al_truncate a n)) as Hr' by (by eapply wal_records_truncate).
  assert (layout_ok (pre ++ [(k, (es1 ++ [e]) ++ es2)])) as Hl'.
  { change ((k, ?x) :: post) with ([(k, x)] ++ post) in Hl. rewrite app_assoc in Hl. by apply layout_ok_app in Hl as [? _]. }
  assert (0 ≤ k ≤ U32_MAX ∧ k ≤ sg_current_segment_id s) as [Hk1 Hk2].
  { split; [|exact (layout_last _ _ _ _ _ _ _ Hl Es)].
    destruct Hl' as [_ Hids]. rewrite fmap_app in Hids. apply Forall_app in Hids as [_ Hids].
    by inversion Hids. }
  split; [|by rewrite Hc']. exists segs'. split; [done|]. split; [|done].
  split; [by rewrite Hd'|done| |done| |by rewrite Hc'|done].
  - eapply layout_ok_keys; [|exact Hl']. unfold segs'. by rewrite !fmap_app.
  - rewrite Hx2. eapply index_ok_truncate; [exact Hx|]. fold segs'. intros e0 Hin.
    pose proof (wal_records_indices _ _ _ Hr' Hin) as H. by rewrite al_last_truncate in H by lia.
Qed.

(** ** Compaction and clearing *)

Lemma wal_records_compact pre k es1 e es2 post a i an :
  wal_records (pre ++ (k, (es1 ++ [e]) ++ es2) :: post) a → le_index e = i → al_base a < i < al_last a →
  wal_records ((k, (es1 ++ [e]) ++ es2) :: post) ((al_compact a i) <| al_anchor := an |>).
Proof.
  intros (f & c & Hf & Hb & Hr & Hi & Hok) He Hbi. exists (f + zlen (recs pre)), (es1 ++ [e]).
  rewrite recs_app, recs_cons in *. rewrite <-app_assoc in *. set (rest := es2 ++ recs post) in *.
  assert (le_index e = f + 1 + Z.of_nat (length (recs pre ++ es1))) as Hlen.
  { apply Hi. rewrite <-app_assoc, app_assoc. by apply list_lookup_middle. }
  rewrite length_app in Hlen. unfold zlen in *. split_and!.
  - lia.
  - rewrite length_app. simpl. lia.
  - f_equal. simpl. apply (f_equal (drop (length (recs pre ++ es1 ++ [e])))) in Hr.
    rewrite (app_assoc (recs pre) (es1 ++ [e]) rest), drop_app_length in Hr. rewrite Hr, drop_app, !length_app.
    rewrite (drop_ge c) by (simpl; lia). simpl. f_equal. lia.
  - intros j e' Hj. rewrite (Hi (length (recs pre) + j)%nat e'); [lia|].
    by rewrite lookup_app_r, Nat.add_comm, Nat.add_sub by lia.
  - by apply Forall_app in Hok as [_ Hok].
Qed.

Lemma writer_ok_drop s s' pre p segs :
  writer_ok s (pre ++ p :: segs) → sg_writer s' = sg_writer s →
  sg_current_segment_id s' = sg_current_segment_id s → writer_ok s' (p :: segs).
Proof.
  unfold writer_ok. intros Hw -> ->. destruct (sg_writer s); [|by apply app_nil in Hw as [_ ?]].
  destruct Hw as (q & es & E & ->). destruct segs as [|x segs _] using rev_ind.
  - apply app_inj_tail in E as [_ ->]. by exists [], es.
  - rewrite app_comm_cons, app_assoc in E. apply app_inj_tail in E as [_ ->]. by exists (p :: segs), es.
Qed.

Lemma CompactSegments_eq s segs i loc :
  sg_dir s = true → layout_ok segs → files_hold (sg_files s) segs → sg_index s !! i = Some loc →
  ∃ m, CompactSegments s i =
    s <| sg_files ::= fun fs => foldr delete fs (take_while (λ id, id <? loc_segment_id loc) segs.*1) |>
      <| sg_manifest := m |>.
Proof.
  intros Hd Hl Hf Hx. unfold CompactSegments. rewrite Hd, Hx. cbn [negb]. cbv zeta.
  rewrite (DiscoverSegments_layout s segs) by (done || intros id; by apply files_hold_dom).
  case_match; [by eexists|]. exists (sg_manifest s). reflexivity.
Qed.

Lemma CompactLogs_inv s a segs i t :
  wal_inv s a segs → al_base a < i < al_last a →
  let s' := SegmentLogStorage_CompactLogs s i t in
  (∃ segs', wal_inv s' ((al_compact a i) <| al_anchor := mkSnapshotAnchor i t |>) segs') ∧
  sg_current_segment_id s' = sg_current_segment_id s.
Proof.
  intros Hinv Hi. cbv zeta. destruct (live_location s a segs i Hinv ltac:(lia))
    as (pre & k & es1 & e & es2 & post & -> & He & Hie & Hx').
  pose proof Hinv as (Hrep & [Hd Hf Hl Hr Hx Hc Ha] & Hw). unfold SegmentLogStorage_CompactLogs.
  set (s1 := SegmentLogStorage_SetSnapshotAnchor s i t).
  assert (SegmentLog_rep s1 (a <| al_anchor := mkSnapshotAnchor i t |>)) as Hrep1
    by exact (rep_SetSnapshotAnchor s a i t Hrep).
  destruct (CompactSegments_eq s1 _ i _ Hd Hl Hf Hx') as [m E].
  assert (SegmentLog_rep (CompactSegments s1 i) (a <| al_anchor := mkSnapshotAnchor i t |>)) as Hrep2
    by (unfold SegmentLog_rep; by rewrite view_CompactSegments).
  destruct (sg_compact _ _ i Hrep2 Hi) as [Hrep3 _].
  destruct (sg_fields _ _ Hrep2) as (Eb & _ & El & _). simpl in Eb, El.
  unfold SegmentLogStorage_CompactUpTo in *. rewrite Eb, El in *.
  rewrite (proj2 (Z.leb_gt i (al_base a))), (proj2 (Z.leb_gt _ i)) in * by (unfold al_last in *; simpl; lia).
  cbn [fst] in *. rewrite layout_before in E by done. rewrite E in *.
  split; [|done]. exists ((k, (es1 ++ [e]) ++ es2) :: post). split; [done|]. split; [|by eapply writer_ok_drop].
  assert (layout_ok ((k, (es1 ++ [e]) ++ es2) :: post)) as Hl' by (by apply layout_ok_app in Hl as [_ ?]).
  split; simpl; try done.
  - apply (files_hold_delete _ [] pre); [done|]. by apply layout_NoDup.
  - by apply (wal_records_compact pre).
  - eapply index_ok_drop; [exact Hx|lia|]. intros e0 Hin. rewrite <-Hie.
    apply wal_records_ascending in Hr.
    assert (recs (pre ++ (k, (es1 ++ [e]) ++ es2) :: post) = ((recs pre ++ es1) ++ [e]) ++ es2 ++ recs post) as Er
      by (rewrite recs_app, recs_cons; by rewrite <-!app_assoc).
    rewrite Er in Hr. apply ascending_app in Hr as [Hr _]. pose proof (ascending_le _ _ e0 Hr) as H.
    unfold last_index_of in H. rewrite last_snoc in H. apply H. rewrite <-!app_assoc. apply elem_of_app. by left.
Qed.

Lemma Clear_inv s a segs :
  wal_inv s a segs →
  wal_inv (SegmentLogStorage_Clear s) (mkAlog 0 [] default_anchor) [] ∧
  sg_current_segment_id (SegmentLogStorage_Clear s) = sg_current_segment_id s.
Proof.
  intros (Hrep & [Hd Hf Hl Hr Hx Hc Ha] & Hw). pose proof (sg_clear s a Hrep) as Hrep'. revert Hrep'.
  unfold SegmentLogStorage_Clear. cbv zeta.
  rewrite close_writer_idle by exact (writer_ok_idle s segs Hw). unfold DeleteAllSegments. simpl sg_dir. rewrite Hd.
  cbn [negb]. rewrite (DiscoverSegments_layout _ segs) by (done || intros id; by apply files_hold_dom).
  simpl. rewrite (files_hold_all _ _ Hf). intros Hrep'. split; [|done]. split; [done|]. split; [|done].
  split; simpl; try done.
  - by split; constructor.
  - by exists 0, [].
Qed.

Lemma Flush_idle s segs : writer_ok s segs → SegmentLogStorage_Flush s = s.
Proof.
  intros Hw. unfold SegmentLogStorage_Flush. destruct s as [d fs m w c b es ix li lt an fp]. simpl in *.
  destruct w as [w|]; [|done]. pose proof (writer_ok_idle _ _ Hw w eq_refl) as Hb. simpl in *.
  unfold WalWriter_Flush. by rewrite bool_decide_true.
Qed.

Lemma Persist_idle s segs : writer_ok s segs → SegmentLogStorage_Persist s = s.
Proof. intros Hw. unfold SegmentLogStorage_Persist. case_match; [by eapply Flush_idle|done]. Qed.

(** ** Recovery *)

(** What a restart does to the log: [Open] on the files, then [SetSnapshotAnchor]
    and [PruneCompacted] with the snapshot's position. *)
Definition recover (fs : segments) (manifest : option bytes) (anchor : SnapshotAnchor) : SegmentLogStorage :=
  SegmentLogStorage_PruneCompacted
    (SegmentLogStorage_SetSnapshotAnchor (Open (SegmentLogStorage_new true fs manifest))
       (anchor_index anchor) (anchor_term anchor)).

Definition first_base (es : list LogEntry) : Z :=
  match es with e :: _ => le_index e - 1 | [] => 0 end.

(** The writer [Open] leaves: at the end of the last segment, whatever is there. *)
Definition opened_writer s (segs : layout) : Prop :=
  match last segs with
  | None => sg_writer s = None ∧ sg_current_segment_id s = 0
  | Some (k, _) => sg_current_segment_id s = k ∧
      ∃ f, sg_files s !! k = Some f ∧ sg_writer s = Some (mkWalWriter k (zlen (wf_data f)) [])
  end.

Lemma Open_scanned fs manifest segs :
  layout_ok segs → (∀ id, id ∈ dom fs ↔ id ∈ segs.*1) → readable fs segs →
  Forall record_ok (recs segs) → ascending 0 (recs segs) →
  let s := Open (SegmentLogStorage_new true fs manifest) in
  scanned s segs ∧ sg_base_index s = first_base (recs segs) ∧ sg_files s = fs ∧ sg_dir s = true ∧
  opened_writer s segs.
Proof.
  intros Hl Hd Hr Hok Ha. cbv zeta. unfold Open. cbn [sg_dir SegmentLogStorage_new negb]. cbv zeta.
  set (s0 := (SegmentLogStorage_new true fs manifest) <| sg_manifest ::= Manifest_Load |>).
  destruct (scan_segments_ok segs s0 []) as [[He Hli Hlt Hx] Hrest]; [by split|done|done|done|].
  unfold LoadSegments. rewrite (DiscoverSegments_layout s0 segs) by done.
  set (s1 := fold_left ScanSegment segs.*1 s0) in *. clearbody s1. simpl in He.
  injection Hrest as Ed Ef Em Ew Ec Eb Ean. change (sg_files s0) with fs in Ef.
  match goal with |- context [DiscoverSegments ?t] =>
    assert (t = s1 <| sg_base_index := first_base (recs segs) |>) as -> end.
  { rewrite He, Eb. destruct s1; simpl in *. subst. simpl. destruct (recs segs) as [|e es]; [done|].
    destruct Ha as [Hi _]. simpl. destruct (Z.ltb_spec 1 (le_index e)); [done|]. by replace (le_index e) with 1 by lia. }
  rewrite (DiscoverSegments_layout _ segs) by (try done; simpl; by rewrite Ef).
  rewrite fmap_last. unfold opened_writer. destruct (last segs) as [[k es]|] eqn:El; simpl.
  - apply last_Some in El as [pre El]. apply Forall_forall with (x := (k, es)) in Hr as (f & t & Hk & _);
      [|rewrite El; apply elem_of_app; right; by apply list_elem_of_singleton].
    simpl in Hk. rewrite Ef, Hk. simpl. rewrite insert_id by done.
    split_and!; [by split|done|done|done|done|]. by exists f.
  - split_and!; [by split|done..].
Qed.

(** Pruning drops the records the snapshot covers. *)
Lemma Prune_view s segs a :
  al_wf a → wal_records segs a → anchor_index (al_anchor a) = al_base a →
  scanned s segs → sg_base_index s = first_base (recs segs) → sg_anchor s = al_anchor a →
  SegmentLog_rep (SegmentLogStorage_PruneCompacted s) a.
Proof.
  intros Hwf (f & c & Hf & Hb & Hr & Hi & Hok) Han [He Hl Ht _] Hbase Ean.
  assert (sg_last_index s = al_last a) as El.
  { rewrite Hl. unfold last_index_of. destruct (last (recs segs)) as [e|] eqn:E.
    - rewrite last_lookup in E. rewrite (Hi _ e E). apply lookup_lt_Some in E. rewrite Hr, length_app in *.
      unfold al_last, zlen in *. lia.
    - apply last_None in E. rewrite E in Hr. symmetry in Hr. apply app_eq_nil in Hr as [-> Hr].
      unfold al_last. destruct (al_live a Hwf) as [->|]; [by rewrite Hr|done]. }
  split; [done|]. unfold SegmentLogStorage_PruneCompacted, sg_view. rewrite He, Ean, Han, Hr in *.
  destruct (al_entries a) as [|e0 es] eqn:Ea.
  { destruct (al_live a Hwf) as [Hz|]; [|by rewrite Ea in *]. destruct c; [|rewrite zlen_cons, Hz in *; unfold zlen in *; lia].
    simpl. rewrite He, Hbase, El, Ht, Ean. unfold al_last_term. rewrite Ea, Hz. done. }
  assert (sg_last_term s = al_last_term a) as Elt.
  { rewrite Ht. unfold last_term_of, al_last_term. rewrite Ea, last_app, last_cons. by destruct (last es). }
  assert (list_find (λ e, al_base a < le_index e) (c ++ e0 :: es) = Some (length c, e0)) as Hfind.
  { rewrite list_find_app_r.
    - cbn [list_find]. rewrite decide_True; [simpl; f_equal; f_equal; lia|].
      rewrite (Hi (length c) e0) by (by apply list_lookup_middle). unfold zlen in *. lia.
    - apply list_find_None, Forall_forall. intros e [j Hj]%list_elem_of_lookup.
      rewrite (Hi j e) by (by apply lookup_app_l_Some). apply lookup_lt_Some in Hj. unfold zlen in *. lia. }
  destruct c as [|e1 c].
  - rewrite zlen_nil in Hb. simpl app in *. assert (sg_base_index s = al_base a) as Eb.
    { rewrite Hbase. simpl. rewrite (Hi O e0 eq_refl). lia. }
    rewrite Hfind. simpl length. destruct (al_base a =? 0); by rewrite He, Eb, El, Elt, Ean.
  - rewrite zlen_cons in Hb. pose proof (zlen_nonneg c). simpl app in *.
    rewrite (proj2 (Z.eqb_neq (al_base a) 0)) by lia. rewrite Hfind. simpl length. cbv beta iota.
    simpl. rewrite drop_app_length. by rewrite El, Elt, Ean.
Qed.

Lemma Prune_disk s :
  sg_disk (SegmentLogStorage_PruneCompacted s) = sg_disk s ∧
  sg_index (SegmentLogStorage_PruneCompacted s) = sg_index s.
Proof. unfold SegmentLogStorage_PruneCompacted. by repeat case_match. Qed.

Lemma recover_rep fs manifest segs a :
  al_wf a → wal_records segs a → anchor_index (al_anchor a) = al_base a →
  layout_ok segs → (∀ id, id ∈ dom fs ↔ id ∈ segs.*1) → readable fs segs →
  let s := recover fs manifest (al_anchor a) in
  SegmentLog_rep s a ∧ sg_files s = fs ∧ sg_dir s = true ∧ opened_writer s segs ∧ index_ok (sg_index s) segs 0.
Proof.
  intros Hwf Hrec Han Hl Hd Hr. cbv zeta. unfold recover.
  destruct (Open_scanned fs manifest segs Hl Hd Hr) as ([He Hli Hlt Hx] & Hb & Hf & Hdir & Hw).
  { by destruct Hrec as (? & ? & _ & _ & _ & _ & ?). }
  { by eapply wal_records_ascending. }
  set (s := Open _) in *. clearbody s. set (s1 := SegmentLogStorage_SetSnapshotAnchor _ _ _).
  destruct (Prune_disk s1) as [Edisk Eix]. injection Edisk as E1 E2 E3 E4 E5. rewrite E1, E2, Eix.
  split_and!; [|done|done| |done].
  - apply (Prune_view s1 segs); [done..|by split|done|]. unfold s1. simpl. by destruct (al_anchor a).
  - unfold opened_writer in *. by rewrite E2, E4, E5.
Qed.

Lemma recover_inv s a segs :
  wal_inv s a segs →
  let s' := recover (sg_files s) (mf_disk (sg_manifest s)) (sg_anchor s) in
  wal_inv s' a segs ∧ sg_current_segment_id s' ≤ sg_current_segment_id s.
Proof.
  intros ([Hwf Hv] & [Hd Hf Hl Hr Hx Hc Ha] & Hw). cbv zeta.
  assert (sg_anchor s = al_anchor a) as -> by (by injection Hv).
  destruct (recover_rep (sg_files s) (mf_disk (sg_manifest s)) segs a) as (Hrep & Ef & Ed & Hw' & Hx');
    [done..|intros id; by apply files_hold_dom|by apply readable_files|].
  set (s' := recover _ _ _) in *. clearbody s'. unfold opened_writer in Hw'.
  assert (writer_ok s' segs ∧ 0 ≤ sg_current_segment_id s' ≤ sg_current_segment_id s) as [Hwok Hcur].
  { unfold writer_ok in *. destruct (sg_writer s) as [w|].
    - destruct Hw as (pre & es & -> & _). rewrite last_snoc in Hw'. destruct Hw' as (-> & f & Hk & ->).
      split; [|lia]. exists pre, es. split; [done|]. rewrite Ef in Hk.
      destruct (files_hold_lookup _ _ _ _ _ Hf (layout_not_before _ _ _ _ Hl)) as (f' & Hk' & Hd').
      rewrite Hk in Hk'. injection Hk' as ->. by rewrite Hd'.
    - subst segs. simpl in Hw'. destruct Hw' as [-> ->]. split; [done|lia]. }
  split; [|lia]. split; [done|]. split; [|done]. split; try done.
  - by rewrite Ef.
  - intros e Hin Hlo. apply Hx'; [done|]. pose proof (al_base_nonneg a Hwf). lia.
  - lia.
Qed.

(** ** Runs of the log *)

(** The calls the server makes between two starts, and a restart after a crash
    of the process. *)
Inductive wal_op : Type :=
  | WAppend (e : LogEntry) (flush : bool)
  | WTruncateFrom (n : Z)
  | WCompactLogs (i t : Z)
  | WClear
  | WPersist
  | WRestart.

Definition run_wal s (op : wal_op) : SegmentLogStorage :=
  match op with
  | WAppend e flush => (SegmentLogStorage_Append s e flush).1
  | WTruncateFrom n => SegmentLogStorage_TruncateFrom s n
  | WCompactLogs i t => SegmentLogStorage_CompactLogs s i t
  | WClear => SegmentLogStorage_Clear s
  | WPersist => SegmentLogStorage_Persist s
  | WRestart => recover (sg_files s) (mf_disk (sg_manifest s)) (sg_anchor s)
  end.

(** The same on the abstract log; [None] for a call outside its range. *)
Definition al_wal (a : alog) (op : wal_op) : option alog :=
  match op with
  | WAppend e _ =>
      if bool_decide (entry_ok e) && (al_last a + 1 <? U64_MAX) then Some (al_append a e) else None
  | WTruncateFrom n => if (al_base a <? n) && (n <=? al_last a) then Some (al_truncate a n) else None
  | WCompactLogs i t =>
      if (al_base a <? i) && (i <? al_last a)
      then Some ((al_compact a i) <| al_anchor := mkSnapshotAnchor i t |>) else None
  | WClear => Some (mkAlog 0 [] default_anchor)
  | WPersist | WRestart => Some a
  end.

Fixpoint al_wals (a : alog) (ops : list wal_op) : option alog :=
  match ops with
  | [] => Some a
  | op :: ops => a' ← al_wal a op; al_wals a' ops
  end.

Lemma run_wal_inv s a segs op a' :
  wal_inv s a segs → al_wal a op = Some a' → sg_current_segment_id s < U32_MAX →
  (∃ segs', wal_inv (run_wal s op) a' segs') ∧
  sg_current_segment_id (run_wal s op) ≤ sg_current_segment_id s + 1.
Proof.
  intros Hi E Hc. destruct op; simpl in E |- *; repeat case_match; simplify_eq; bool_norm.
  - apply (Append_inv s a segs); [done|done|lia|done].
  - destruct (TruncateFrom_inv s a segs n) as [? ?]; [done|lia|]. split; [done|lia].
  - destruct (CompactLogs_inv s a segs i t) as [? ->]; [done|lia|]. split; [done|lia].
  - destruct (Clear_inv s a segs Hi) as [? ->]. split; [by eexists|lia].
  - pose proof Hi as (_ & _ & Hw). rewrite (Persist_idle _ _ Hw). split; [by eexists|lia].
  - destruct (recover_inv s a' segs Hi) as [? ?]. split; [by eexists|lia].
Qed.

Lemma run_wals_inv ops : ∀ s a segs a',
  wal_inv s a segs → al_wals a ops = Some a' → sg_current_segment_id s + zlen ops ≤ U32_MAX →
  ∃ segs', wal_inv (fold_left run_wal ops s) a' segs'.
Proof.
  induction ops as [|op ops IH]; intros s a segs a' Hi; cbn [al_wals fold_left].
  { intros [= <-] _. by eexists. }
  destruct (al_wal a op) as [a1|] eqn:E; [|done]. simpl. rewrite zlen_cons. intros Hops Hc.
  pose proof (zlen_nonneg ops). destruct (run_wal_inv s a segs op a1) as [[segs1 H1] H2]; [done|done|lia|].
  apply (IH _ a1 segs1); [done|done|lia].
Qed.

(** The storage of a node that starts in an empty directory. *)
Definition wal_empty : SegmentLogStorage := Open (SegmentLogStorage_new true ∅ None).

Lemma wal_empty_inv : wal_inv wal_empty (mkAlog 0 [] default_anchor) [].
Proof.
  split; [split; [|vm_compute; reflexivity]|].
  - split; simpl; [lia|by_compute|done|by left].
  - split; [split|]; [done|done|by split; constructor|by exists 0, []|done| |done|done].
    change (sg_current_segment_id wal_empty) with 0. unfold U32_MAX. lia.
Qed.

(** A crash that leaves [torn] at the end of the segment that was written. *)
Definition crash_files s (torn : bytes) : segments :=
  alter (fun f => f <| wf_data ::= fun d => d ++ torn |>) (sg_current_segment_id s) (sg_files s).

Lemma crash_readable s a segs torn :
  wal_inv s a segs → unreadable torn →
  readable (crash_files s torn) segs ∧ (∀ id, id ∈ dom (crash_files s torn) ↔ id ∈ segs.*1).
Proof.
  intros (_ & [Hd Hf Hl Hr Hx Hc Ha] & Hw) Ht. split.
  - pose proof (readable_files _ _ Hl Hf) as Hread. unfold readable in *. rewrite Forall_forall in *.
    intros [k es] Hin. specialize (Hread _ Hin). unfold crash_files.
    destruct (decide (sg_current_segment_id s = k)) as [Hk|Hk].
    + apply list_elem_of_split in Hin as (l1 & l2 & ->).
      destruct (files_hold_lookup _ _ _ _ _ Hf (layout_not_before _ _ _ _ Hl)) as (f & Ef & Edat).
      exists (f <| wf_data ::= fun d => d ++ torn |>), torn. simpl in *.
      rewrite Hk, lookup_alter_eq, Ef. split_and!; [done| |done]. simpl. by rewrite Edat.
    + simpl in *. by rewrite lookup_alter_ne.
  - intros id. unfold crash_files. rewrite dom_alter. by apply files_hold_dom.
Qed.

(** C4. The write-ahead log survives crashes: after any run of appends,
    truncations, compactions, clears and restarts, a crash that leaves the next
    record torn at any byte, and recovery, the log holds exactly the entries the
    run left, at the same indices and terms. *)
Theorem wal_recovery ops a e n manifest :
  al_wals (mkAlog 0 [] default_anchor) ops = Some a → zlen ops ≤ U32_MAX →
  record_ok e → (n < length (wal_record e))%nat →
  let s := fold_left run_wal ops wal_empty in
  log_rep s a ∧ log_rep (recover (crash_files s (take n (wal_record e))) manifest (sg_anchor s)) a.
Proof.
  intros Hops Hlen Hok Hn. destruct (run_wals_inv ops _ _ _ a wal_empty_inv Hops) as [segs Hi];
    [change (sg_current_segment_id wal_empty) with 0; lia|].
  cbv zeta. set (s := fold_left run_wal ops wal_empty) in *. clearbody s.
  destruct (crash_readable s a segs (take n (wal_record e)) Hi (unreadable_torn e n Hok Hn)) as [Hread Hdom].
  destruct Hi as (Hrep & [Hd Hf Hl Hr Hx Hc Ha] & Hw). split; [exact Hrep|].
  destruct Hrep as [Hwf Hv]. assert (sg_anchor s = al_anchor a) as -> by (by injection Hv).
  by apply (recover_rep _ manifest segs a).
Qed.

Definition example_entry (t : Z) (c : string) : LogEntry := mkLogEntry t 0 (str c).

Lemma wal_recovery_witness :
  let ops := [WAppend (example_entry 1 "SET a 1") true; WAppend (example_entry 1 "SET b 2") false; WPersist;
              WAppend (example_entry 2 "SET c 3") true; WCompactLogs 1 1; WRestart; WTruncateFrom 2;
              WAppend (example_entry 3 "DEL a") true] in
  let s := fold_left run_wal ops wal_empty in
  let torn := take 30 (wal_record (mkLogEntry 3 4 (str "SET d 4"))) in
  SegmentLogStorage_GetRange (recover (crash_files s torn) None (sg_anchor s)) 2 0 =
    [mkLogEntry 1 2 (str "SET b 2"); mkLogEntry 3 3 (str "DEL a")].
Proof.
  intros ops s torn. set (a := default (mkAlog 0 [] default_anchor) (al_wals (mkAlog 0 [] default_anchor) ops)).
  destruct (wal_recovery ops a (mkLogEntry 3 4 (str "SET d 4")) 30 None) as [_ H];
    [vm_compute; reflexivity|by_compute|by_decide|by_compute|].
  transitivity (al_range a 2 0); [|vm_compute; reflexivity]. revert H. fold s torn.
  generalize (recover (crash_files s torn) None (sg_anchor s)). intros r H.
  apply (sg_range r a H); [vm_compute; split; congruence|by_compute..].
Defined.

(** ** Where durability stops *)

(** A torn record is skipped by recovery but stays in the file, and the
    writer goes on behind it: what is appended and synced after such a restart
    is lost by the next one, although a log without the torn record keeps it. *)
Theorem append_behind_torn_lost :
  let s := (SegmentLogStorage_Append wal_empty (example_entry 1 "SET a 1") true).1 in
  let torn := take 10 (wal_record (mkLogEntry 1 2 (str "SET b 2"))) in
  let restart files := recover files None default_anchor in
  let continue s := (SegmentLogStorage_Append s (example_entry 2 "SET c 3") true).1 in
  let s' := continue (restart (crash_files s torn)) in
  (∀ k f, sg_files s' !! k = Some f → wf_synced f = zlen (wf_data f)) ∧
  sg_last_index s' = 2 ∧ sg_last_index (restart (sg_files s')) = 1 ∧
  sg_last_index (restart (sg_files (continue (restart (sg_files s))))) = 2.
Proof.
  cbv zeta. split_and!; [|vm_compute; reflexivity..].
  match goal with |- ∀ k f, sg_files ?s !! k = Some f → _ =>
    assert (map_Forall (λ _ f, wf_synced f = zlen (wf_data f)) (sg_files s)) as H by by_decide end.
  intros k f Hk. exact (H k f Hk).
Qed.

Lemma EnsureWriter_keeps s k f : sg_files s !! k = Some f → sg_files (EnsureWriter s) !! k = Some f.
Proof.
  intros Hk. unfold EnsureWriter. destruct (sg_writer s); [done|]. simpl.
  destruct (decide (sg_current_segment_id s = k)) as [->|]; [by rewrite lookup_insert_eq, Hk|].
  by rewrite lookup_insert_ne.
Qed.

Lemma RollSegment_keeps s k f :
  writer_idle s → sg_files s !! k = Some f → sg_files (RollSegment s) !! k = Some f.
Proof.
  intros Hw Hk. unfold RollSegment. rewrite close_writer_idle by done. by apply EnsureWriter_keeps.
Qed.

Lemma EnsureWriter_idle s : writer_idle s → writer_idle (EnsureWriter s).
Proof. unfold EnsureWriter. destruct (sg_writer s) eqn:E; [done|]. intros _ w [= <-]. done. Qed.

Lemma RollSegment_idle s : writer_idle s → writer_idle (RollSegment s).
Proof. intros Hw. unfold RollSegment. rewrite close_writer_idle by done. by apply EnsureWriter_idle. Qed.

Lemma Persist_idle_writer s : writer_idle s → SegmentLogStorage_Persist s = s.
Proof.
  intros Hw. unfold SegmentLogStorage_Persist, SegmentLogStorage_Flush.
  destruct s as [d fs m w c b es ix li lt an fp]. simpl in *. destruct fp; [|done]. destruct w as [w|]; [|done].
  specialize (Hw w eq_refl). simpl in Hw. unfold WalWriter_Flush. by rewrite bool_decide_true.
Qed.

(** The leader's write path does not reach the disk: an append without
    flush hands the record to the operating system and empties the buffer, so
    that the [Persist] after it finds nothing to write and never calls
    [fdatasync]: the file is longer by the record, its synced part is not. *)
Theorem Persist_never_syncs s e w f :
  sg_dir s = true → sg_writer s = Some w → ww_buf w = [] → sg_files s !! ww_segment w = Some f →
  let s' := SegmentLogStorage_Persist (SegmentLogStorage_Append s e false).1 in
  let e' := e <| le_index := u64 (sg_last_index s + 1) |> in
  ∃ f', sg_files s' !! ww_segment w = Some f' ∧ wf_data f' = wf_data f ++ wal_record e' ∧
    wf_synced f' = wf_synced f.
Proof.
  intros Hd Hw Hb Hf. cbv zeta. destruct w as [k sz b]. cbn [ww_buf ww_segment] in *. subst b.
  exists (f <| wf_data ::= fun d => d ++ wal_record (e <| le_index := u64 (sg_last_index s + 1) |>) |>).
  split; [|done]. unfold SegmentLogStorage_Append. rewrite Hd, Hw, bool_decide_true by done.
  rewrite andb_false_r. cbn [negb andb]. cbv zeta. simpl sg_writer. rewrite Hw. unfold WalWriter_Append, WriteNoSync.
  rewrite bool_decide_false by apply wal_record_ne. cbv beta iota.
  match goal with |- context [RollSegment ?t] => set (s1 := t) end.
  assert (writer_idle s1) as Hi by (intros w' [= <-]; done).
  assert (sg_files s1 !! k = Some (f <| wf_data ::= fun d => d ++ wal_record (e <| le_index := u64 (sg_last_index s + 1) |>) |>)) as H1.
  { unfold s1, write_out. simpl. by rewrite lookup_alter_eq, Hf. }
  destruct (kMaxSegmentBytes <=? _); cbn [fst].
  - rewrite Persist_idle_writer by (by apply RollSegment_idle). by apply RollSegment_keeps.
  - by rewrite Persist_idle_writer.
Qed.

Lemma Persist_never_syncs_witness :
  let s := (SegmentLogStorage_Append wal_empty (example_entry 1 "SET a 1") true).1 in
  let s' := SegmentLogStorage_Persist (SegmentLogStorage_Append s (example_entry 1 "SET b 2") false).1 in
  ∃ f', sg_files s' !! 0 = Some f' ∧ wf_synced f' = 31 ∧ zlen (wf_data f') = 62.
Proof.
  intros s s'. destruct (Persist_never_syncs s (example_entry 1 "SET b 2") (mkWalWriter 0 31 [])
    (mkWalFile (wal_record (mkLogEntry 1 1 (str "SET a 1"))) 31)) as (f' & H1 & H2 & H3);
    [vm_compute; reflexivity..|].
  exists f'. split_and!; [exact H1|rewrite H3; vm_compute; reflexivity|rewrite H2; vm_compute; reflexivity].
Defined.
