(* ===== verification/FileLog.v ===== *)
(** * The legacy file log (src/server/raft/file_log_storage.h, file_log_storage.cc)

    [FileLogStorage], which the segmented log has replaced: records in segment
    files, an index of their locations, nothing in memory but the buffer of the
    writer.  Files, records, index and manifest are those of SegmentLog.v; the
    writer may also have been opened for writing ([WalWriter::Open]), and then
    writes at its position.  A read sees the current contents of a file; calls to
    the file system succeed.

    Theorems: what is appended is read back, across segments; and what the other
    operations lose. *)

From S2P Require Import Prelude RaftTypes LogStorage Json Crc32 SegmentLog WalRecovery.

(** [fw_append]: the file was opened for appending, so that every write goes to its
    end; otherwise it goes to the position of the stream, which is [file_size_]. *)
Record FileWriter : Type := mkFileWriter {
  fw_writer : WalWriter;
  fw_append : bool
}.
#[export] Instance FileWriter_eta : Eta FileWriter := fun w => mkFileWriter (fw_writer w) (fw_append w).

Record FileLogStorage : Type := mkFileLogStorage {
  fl_files : segments;
  fl_manifest : Manifest;
  fl_current_segment : Z;
  fl_writer : option FileWriter;
  fl_index : WalIndex;
  fl_read_files : Z;   (* the size of [read_files_] *)
  fl_base_index : Z;
  fl_log_size : Z;
  fl_last_index : Z;
  fl_last_term : Z;
  fl_anchor : SnapshotAnchor
}.
#[export] Instance FileLogStorage_eta : Eta FileLogStorage := fun s =>
  mkFileLogStorage (fl_files s) (fl_manifest s) (fl_current_segment s) (fl_writer s) (fl_index s) (fl_read_files s)
    (fl_base_index s) (fl_log_size s) (fl_last_index s) (fl_last_term s) (fl_anchor s).

Implicit Types s : FileLogStorage.

(** On a directory with the given files and manifest. *)
Definition FileLogStorage_new (files : segments) (manifest : option bytes) : FileLogStorage :=
  mkFileLogStorage files (mkManifest manifest 0) 0 None ∅ 0 0 0 0 0 default_anchor.

(** ** The writer *)

(** [WalWriter::Open]: the file is created, or cut to nothing. *)
Definition WalWriter_Open (fs : segments) (seg : Z) : segments * FileWriter :=
  (<[seg := mkWalFile [] 0]> fs, mkFileWriter (mkWalWriter seg 0 []) false).

(** A write at a position; a gap is filled with zeros. *)
Definition write_at (data : bytes) (pos : Z) (buf : bytes) : bytes :=
  resize (Z.to_nat pos) 0 data ++ buf ++ drop (Z.to_nat (pos + zlen buf)) data.

Definition FileWriter_Flush (fs : segments) (w : FileWriter) : segments * FileWriter :=
  let ww := fw_writer w in
  if bool_decide (ww_buf ww = []) then (fs, w)
  else
    let fs := if fw_append w then write_out fs ww
              else alter (fun f => f <| wf_data ::= fun c => write_at c (ww_file_size ww) (ww_buf ww) |>) (ww_segment ww) fs in
    (fdatasync fs (ww_segment ww), w <| fw_writer ::= buffer_written |>).

Definition fl_flush s : FileLogStorage :=
  match fl_writer s with
  | Some w => let '(fs, w) := FileWriter_Flush (fl_files s) w in s <| fl_files := fs |> <| fl_writer := Some w |>
  | None => s
  end.

Definition FileLogStorage_Flush s : FileLogStorage * bool := (fl_flush s, bool_decide (is_Some (fl_writer s))).

(** [WalWriter::Close]. *)
Definition fl_close s : FileLogStorage := (fl_flush s) <| fl_writer := None |>.

(** ** Opening and rolling *)

Definition FileLogStorage_Open s : FileLogStorage * bool :=
  match fl_writer s with
  | Some _ => (s, false)
  | None =>
      let s := s <| fl_manifest ::= Manifest_Load |> in
      let s := s <| fl_current_segment := mf_current_segment (fl_manifest s) |> in
      let '(fs, w) := WalWriter_Open (fl_files s) (fl_current_segment s) in
      (s <| fl_files := fs |> <| fl_writer := Some w |> <| fl_read_files := fl_current_segment s + 1 |>, true)
  end.

Definition fl_save_manifest s : FileLogStorage :=
  s <| fl_manifest ::= fun m => Manifest_Save (m <| mf_current_segment := fl_current_segment s |>) |>.

Definition FileLogStorage_RollSegment s : FileLogStorage :=
  let s := fl_close s in
  let s := s <| fl_current_segment := u32 (fl_current_segment s + 1) |> in
  let s := fl_save_manifest s in
  let '(fs, w) := WalWriter_Open (fl_files s) (fl_current_segment s) in
  let s := s <| fl_files := fs |> <| fl_writer := Some w |> in
  if fl_read_files s <=? fl_current_segment s then s <| fl_read_files := fl_current_segment s + 1 |> else s.

(** ** Reading *)

Definition FileLogStorage_ReadEntryAt s (segment_id offset : Z) : LogEntry :=
  match (if fl_read_files s <=? segment_id then None else fl_files s !! segment_id) with
  | None => default_LogEntry
  | Some f =>
      let rest := drop (Z.to_nat offset) (wf_data f) in
      if zlen rest <? kRecordHeaderSize then default_LogEntry
      else
        let hdr := parse_header rest in
        let payload := drop (Z.to_nat kRecordHeaderSize) rest in
        let command := if zlen payload <? rh_size hdr then [] else take (Z.to_nat (rh_size hdr)) payload in
        if negb (ComputeCrc32 command 0 =? rh_crc32 hdr) then default_LogEntry
        else mkLogEntry (rh_term hdr) (rh_index hdr) command
  end.

Definition FileLogStorage_FirstIndex s : Z :=
  if fl_last_index s =? 0 then 0
  else let first := u64 (fl_base_index s + 1) in if first <=? fl_last_index s then first else 0.

Definition FileLogStorage_LogSize s : Z :=
  if fl_last_index s =? 0 then 0 else u64 (fl_last_index s - FileLogStorage_FirstIndex s + 1).

(** The buffer is flushed before a read. *)
Definition FileLogStorage_Get s (index : Z) : FileLogStorage * option LogEntry :=
  if (index <? fl_base_index s) || (fl_last_index s <? index) then (s, None)
  else match fl_index s !! index with
       | None => (s, None)
       | Some loc =>
           let s := fl_flush s in
           (s, Some (FileLogStorage_ReadEntryAt s (loc_segment_id loc) (loc_offset loc)))
       end.

Definition FileLogStorage_GetTerm s (index : Z) : FileLogStorage * Z :=
  if (index =? anchor_index (fl_anchor s)) && (0 <? anchor_index (fl_anchor s)) then (s, anchor_term (fl_anchor s))
  else let '(s, e) := FileLogStorage_Get s index in (s, from_option le_term 0 e).

Definition FileLogStorage_SetSnapshotAnchor s (index term : Z) : FileLogStorage :=
  s <| fl_anchor := mkSnapshotAnchor index term |>.

(** The loop of [GetRange], [n] indices from [i] on. *)
Fixpoint fl_read_range s (i : Z) (n : nat) : list LogEntry :=
  match n with
  | O => []
  | S n =>
      match fl_index s !! i with
      | None => []
      | Some loc => FileLogStorage_ReadEntryAt s (loc_segment_id loc) (loc_offset loc) :: fl_read_range s (i + 1) n
      end
  end.

Definition FileLogStorage_GetRange s (start limit : Z) : FileLogStorage * list LogEntry :=
  if (start <? FileLogStorage_FirstIndex s) || (fl_last_index s <? start) then (s, [])
  else
    let s := fl_flush s in
    let end_ := if limit =? 0 then fl_last_index s else Z.min (fl_last_index s) (u64 (start + limit - 1)) in
    (s, fl_read_range s start (Z.to_nat (end_ - start + 1))).

(** ** Writing *)

(** The last part of [Append]. *)
Definition push_record s (entry : LogEntry) : FileLogStorage :=
  let offset := match fl_writer s with Some w => next_write_offset (fw_writer w) | None => 0 end in
  s <| fl_writer ::= fmap (fun w => w <| fw_writer ::= fun w => WalWriter_Append w entry |>) |>
    <| fl_index ::= fun ix => WalIndex_Add ix (le_index entry) (fl_current_segment s) offset |>
    <| fl_last_index := le_index entry |> <| fl_last_term := le_term entry |>
    <| fl_log_size := u64 (fl_log_size s + 1) |>.

(** The [flush] flag is not used.  Without a directory the writer is not open and
    the record goes to a buffer that nobody writes or reads. *)
Definition FileLogStorage_Append s (entry : LogEntry) (flush : bool) : FileLogStorage * Z :=
  let entry := entry <| le_index := u64 (fl_last_index s + 1) |> in
  let s := match fl_writer s with
           | Some w => if kMaxSegmentBytes <=? ww_file_size (fw_writer w) then FileLogStorage_RollSegment s else s
           | None => s
           end in
  (push_record s entry, le_index entry).

(** The files stay. *)
Definition FileLogStorage_Clear s : FileLogStorage :=
  s <| fl_base_index := 0 |> <| fl_log_size := 0 |> <| fl_last_index := 0 |> <| fl_last_term := 0 |> <| fl_index := ∅ |>.

(** The files after a truncation behind a record: [truncate], which also extends a
    file, and [unlink] of the segments that follow. *)
Definition fl_trim_files s (keep_segment truncate_offset : Z) : FileLogStorage :=
  let later := seqZ (keep_segment + 1) (fl_read_files s - (keep_segment + 1)) in
  s <| fl_files ::= fun fs => foldr delete (alter (ftruncate truncate_offset) keep_segment fs) later |>.

(** The record is read without a flush of the writer, which keeps its buffer. *)
Definition FileLogStorage_TruncateFrom s (new_last : Z) : FileLogStorage :=
  if new_last <=? fl_base_index s then FileLogStorage_Clear s
  else if fl_last_index s <=? new_last then s
  else match fl_index s !! new_last with
  | None => s
  | Some loc =>
      let last_entry := FileLogStorage_ReadEntryAt s (loc_segment_id loc) (loc_offset loc) in
      let keep_segment := loc_segment_id loc in
      let s := fl_trim_files s keep_segment (loc_offset loc + kRecordHeaderSize + zlen (le_command last_entry)) in
      let s := if keep_segment <? fl_current_segment s then
                 let s := (fl_close s) <| fl_current_segment := keep_segment |> in
                 let '(fs, w) := OpenAppend (fl_files s) keep_segment in
                 s <| fl_files := fs |> <| fl_writer := Some (mkFileWriter w true) |>
               else s in
      let s := s <| fl_log_size := new_last |> <| fl_last_index := new_last |>
                 <| fl_last_term := le_term last_entry |>
                 <| fl_index ::= fun ix => WalIndex_Truncate ix new_last |> in
      if fl_current_segment s =? mf_current_segment (fl_manifest s) then s else fl_save_manifest s
  end.

(** The index is cleared in both cases. *)
Definition FileLogStorage_CompactUpTo s (index : Z) : FileLogStorage * bool :=
  if index <=? fl_base_index s then (s, true)
  else if fl_last_index s <=? index then
    (s <| fl_base_index := index |> <| fl_log_size := 0 |> <| fl_last_index := index |> <| fl_last_term := 0 |>
       <| fl_index := ∅ |>, true)
  else
    (s <| fl_base_index := index |> <| fl_log_size := u64 (fl_last_index s - index) |> <| fl_index := ∅ |>, true).

(** ** What is appended is read back *)

(** The contents of a segment, with what the writer has in its buffer. *)
Definition contents s (seg : Z) : option bytes :=
  f ← fl_files s !! seg;
  Some (wf_data f ++ match fl_writer s with
                     | Some w => if ww_segment (fw_writer w) =? seg then ww_buf (fw_writer w) else []
                     | None => []
                     end).

(** A record in the segments. *)
Definition recorded s (e : LogEntry) : Prop :=
  ∃ loc pre post, fl_index s !! le_index e = Some loc ∧ 0 ≤ loc_segment_id loc ≤ fl_current_segment s ∧
    contents s (loc_segment_id loc) = Some (pre ++ wal_record e ++ post) ∧ zlen pre = loc_offset loc.

(** The state after appends, flushes and roll-overs. *)
Record fl_ok s (es : list LogEntry) : Prop := {
  fo_writer : ∃ w f, fl_writer s = Some (mkFileWriter w false) ∧ ww_segment w = fl_current_segment s ∧
    fl_files s !! fl_current_segment s = Some f ∧ ww_file_size w = zlen (wf_data f);
  fo_read : fl_read_files s = fl_current_segment s + 1;
  fo_seg : 0 ≤ fl_current_segment s;
  fo_base : fl_base_index s = 0;
  fo_last : fl_last_index s = zlen es;
  fo_zero : fl_index s !! 0 = None;
  fo_indices i e : es !! i = Some e → le_index e = Z.of_nat i + 1;
  fo_fits : Forall record_fits es;
  fo_recorded e : e ∈ es → recorded s e
}.

Lemma write_at_end data buf : write_at data (zlen data) buf = data ++ buf.
Proof.
  unfold write_at. rewrite resize_all_alt by (unfold zlen; lia).
  rewrite drop_ge, app_nil_r; [done|]. unfold zlen. lia.
Qed.

Lemma ReadEntryAt_record s seg off f pre post e :
  record_fits e → seg < fl_read_files s → fl_files s !! seg = Some f →
  wf_data f = pre ++ wal_record e ++ post → zlen pre = off →
  FileLogStorage_ReadEntryAt s seg off = e.
Proof.
  intros He Hseg Hf Hd <-. unfold FileLogStorage_ReadEntryAt. rewrite (proj2 (Z.leb_gt _ _)) by lia.
  rewrite Hf, Hd, drop_zlen_app, wal_record_split, <- app_assoc.
  rewrite (proj2 (Z.ltb_ge _ _)).
  2: { rewrite zlen_app. unfold zlen at 1. rewrite length_record_header. pose proof (zlen_nonneg (le_command e ++ post)).
       unfold kRecordHeaderSize. lia. }
  rewrite parse_record_header by done. cbn [rh_index rh_term rh_size rh_crc32].
  rewrite (drop_app_length' (record_header e)) by (by rewrite length_record_header).
  rewrite (proj2 (Z.ltb_ge _ _)) by (rewrite zlen_app; pose proof (zlen_nonneg post); lia). cbv zeta.
  rewrite to_nat_zlen, take_app_length, Z.eqb_refl. by destruct e.
Qed.

(** A flush moves the buffer to the file. *)
Lemma flush_spec s w f :
  fl_writer s = Some (mkFileWriter w false) → fl_files s !! ww_segment w = Some f → ww_file_size w = zlen (wf_data f) →
  ∃ fs w' f', fl_flush s = s <| fl_files := fs |> <| fl_writer := Some (mkFileWriter w' false) |> ∧
    ww_segment w' = ww_segment w ∧ ww_buf w' = [] ∧ fs !! ww_segment w = Some f' ∧
    wf_data f' = wf_data f ++ ww_buf w ∧ ww_file_size w' = zlen (wf_data f') ∧
    ∀ j, j ≠ ww_segment w → fs !! j = fl_files s !! j.
Proof.
  intros Hw Hf Hsz. unfold fl_flush, FileWriter_Flush. rewrite Hw. cbn [fw_writer fw_append].
  case_bool_decide as Hb.
  - exists (fl_files s), w, f. rewrite Hb, app_nil_r. done.
  - eexists _, _, _. split; [reflexivity|]. cbn. split_and!; [done|done| | | |].
    + unfold fdatasync. rewrite !lookup_alter_eq, Hf. reflexivity.
    + cbn. by rewrite Hsz, write_at_end.
    + cbn. by rewrite Hsz, write_at_end, zlen_app.
    + intros j Hj. unfold fdatasync. by rewrite !lookup_alter_ne.
Qed.

Lemma fl_flush_ok s es : fl_ok s es → fl_ok (fl_flush s) es ∧ fl_index (fl_flush s) = fl_index s ∧
  fl_current_segment (fl_flush s) = fl_current_segment s ∧
  (∀ seg, contents (fl_flush s) seg = contents s seg) ∧
  (∀ seg, contents (fl_flush s) seg = wf_data <$> fl_files (fl_flush s) !! seg).
Proof.
  intros [(w & f & Hw & Hseg & Hf & Hsz) Hread Hcur Hbase Hlast Hzero Hidx Hfit Hrec].
  rewrite <- Hseg in Hf. destruct (flush_spec s w f Hw Hf Hsz) as (fs & w' & f' & E & Hs' & Hb' & Hf' & Hd' & Hsz' & Hoth).
  rewrite E.
  assert (Hc1 : ∀ seg, contents (s <| fl_files := fs |> <| fl_writer := Some (mkFileWriter w' false) |>) seg = wf_data <$> fs !! seg).
  { intros seg. unfold contents. cbn. rewrite Hb'. destruct (fs !! seg) as [g|]; [|done]. cbn.
    destruct (_ =? seg); by rewrite app_nil_r. }
  assert (Hc : ∀ seg, contents (s <| fl_files := fs |> <| fl_writer := Some (mkFileWriter w' false) |>) seg = contents s seg).
  { intros seg. rewrite Hc1. unfold contents. rewrite Hw. cbn [fw_writer]. destruct (Z.eqb_spec (ww_segment w) seg) as [<-|Hne].
    - rewrite Hf', Hf. cbn. by rewrite Hd'.
    - rewrite Hoth by done. destruct (fl_files s !! seg) as [g|]; [|done]. cbn. by rewrite app_nil_r. }
  split_and!; [|done|done|exact Hc|exact Hc1].
  split; [|done..|].
  - exists w', f'. split_and!; [done|by rewrite Hs'|cbn; by rewrite <- Hseg|done].
  - intros e He. destruct (Hrec e He) as (loc & pre & post & H1 & H2 & H3 & H4). exists loc, pre, post.
    split_and!; [done|apply H2|apply H2|by rewrite Hc|done].
Qed.

(** A recorded entry is what a read gives, after a flush. *)
Lemma read_recorded s es e loc : fl_ok s es → e ∈ es → fl_index s !! le_index e = Some loc →
  FileLogStorage_ReadEntryAt (fl_flush s) (loc_segment_id loc) (loc_offset loc) = e.
Proof.
  intros Hok He Hloc. destruct (fl_flush_ok s es Hok) as (Hok' & Hi & Hcur & Hc & Hc').
  destruct (fo_recorded _ _ Hok e He) as (loc' & pre & post & H1 & H2 & H3 & H4). rewrite Hloc in H1. injection H1 as <-.
  rewrite <- Hc, Hc' in H3. destruct (fl_files (fl_flush s) !! loc_segment_id loc) as [f|] eqn:Hf; [|done].
  injection H3 as H3. apply (ReadEntryAt_record _ _ _ f pre post); [|rewrite (fo_read _ _ Hok'), Hcur; lia|exact Hf|exact H3|exact H4].
  pose proof (fo_fits _ _ Hok) as Hfit. rewrite Forall_forall in Hfit. by apply Hfit.
Qed.

(** The abstract log. *)
Definition fl_alog s (es : list LogEntry) : alog := mkAlog 0 es (fl_anchor s).

Lemma fl_get s es i : fl_ok s es → 0 ≤ i → (FileLogStorage_Get s i).2 = al_get (fl_alog s es) i.
Proof.
  intros Hok Hi. unfold FileLogStorage_Get, al_get. cbn [al_base al_entries fl_alog].
  rewrite (fo_base _ _ Hok), (fo_last _ _ Hok), (proj2 (Z.ltb_ge i 0)) by lia. cbn [orb].
  destruct (Z.leb_spec i 0) as [Hz|Hz].
  { replace i with 0 by lia. rewrite (fo_zero _ _ Hok). by destruct (zlen es <? 0). }
  destruct (es !! Z.to_nat (i - 0 - 1)) as [e|] eqn:He.
  - pose proof (lookup_lt_Some _ _ _ He). rewrite (proj2 (Z.ltb_ge _ _)) by (unfold zlen; lia).
    pose proof (fo_indices _ _ Hok _ _ He) as Hie. replace (Z.of_nat (Z.to_nat (i - 0 - 1)) + 1) with i in Hie by lia.
    pose proof (list_elem_of_lookup_2 _ _ _ He) as Hin.
    destruct (fo_recorded _ _ Hok e Hin) as (loc & pre & post & H1 & _). rewrite Hie in H1. rewrite H1. cbn [snd].
    f_equal. eapply read_recorded; [done|done|by rewrite Hie].
  - apply lookup_ge_None in He. rewrite (proj2 (Z.ltb_lt _ _)) by (unfold zlen; lia). done.
Qed.

Lemma read_range_ok s es n : fl_ok s es → ∀ k, (k + n ≤ length es)%nat →
  fl_read_range (fl_flush s) (Z.of_nat k + 1) n = take n (drop k es).
Proof.
  intros Hok. destruct (fl_flush_ok s es Hok) as (_ & Hix & _).
  induction n as [|n IH]; intros k Hk; [done|]. cbn [fl_read_range]. rewrite Hix.
  destruct (lookup_lt_is_Some_2 es k) as [e He]; [lia|].
  pose proof (fo_indices _ _ Hok _ _ He) as Hie. pose proof (list_elem_of_lookup_2 _ _ _ He) as Hin.
  destruct (fo_recorded _ _ Hok e Hin) as (loc & pre & post & H1 & _). rewrite <- Hie, H1.
  rewrite (drop_S _ _ _ He). cbn [take firstn]. f_equal; [by eapply read_recorded|].
  rewrite Hie. replace (Z.of_nat k + 1 + 1) with (Z.of_nat (S k) + 1) by lia. apply IH. lia.
Qed.

Lemma fl_range s es start limit : fl_ok s es → 1 ≤ start ≤ zlen es → 0 ≤ limit → start + limit ≤ U64_MAX →
  (FileLogStorage_GetRange s start limit).2 = al_range (fl_alog s es) start limit.
Proof.
  intros Hok Hs Hl Hmax. unfold FileLogStorage_GetRange, al_range. cbn [al_base al_entries fl_alog].
  rewrite (proj2 (Z.ltb_ge (fl_last_index s) start)) by (rewrite (fo_last _ _ Hok); lia).
  rewrite (proj2 (Z.ltb_ge start _)).
  2: { unfold FileLogStorage_FirstIndex. rewrite (fo_base _ _ Hok), u64_small by (unfold U64_MAX; lia).
       destruct (_ =? 0); [lia|]. destruct (_ <=? _); lia. }
  cbn [orb snd]. destruct (fl_flush_ok s es Hok) as (Hok' & _). rewrite (fo_last _ _ Hok').
  set (k := Z.to_nat (start - 1)). replace start with (Z.of_nat k + 1) at 1 2 by lia.
  replace (Z.to_nat (start - 0 - 1)) with k by lia. destruct (Z.eqb_spec limit 0) as [->|Hne].
  - rewrite (read_range_ok s es _ Hok) by (unfold zlen in *; lia).
    rewrite take_ge; [done|]. rewrite length_drop. unfold zlen. lia.
  - rewrite u64_small by lia. rewrite (read_range_ok s es _ Hok) by (unfold zlen in *; lia).
    destruct (decide (start + limit - 1 ≤ zlen es)) as [Hle|Hgt].
    + f_equal. lia.
    + rewrite !take_ge; [done|rewrite length_drop; unfold zlen in *; lia..].
Qed.

(** What a roll-over does to the fields, from the state behind the flush. *)
Lemma roll_spec s (s1 := fl_flush s) (seg := u32 (fl_current_segment s1 + 1)) (s' := FileLogStorage_RollSegment s) :
  fl_current_segment s' = seg ∧
  (fl_files s', fl_writer s') = prod_map id Some (WalWriter_Open (fl_files s1) seg) ∧
  fl_read_files s' = Z.max (fl_read_files s1) (seg + 1) ∧ fl_index s' = fl_index s1 ∧
  fl_base_index s' = fl_base_index s1 ∧ fl_last_index s' = fl_last_index s1.
Proof.
  subst s' seg s1. unfold FileLogStorage_RollSegment, fl_close, fl_save_manifest.
  destruct (fl_flush s) as [fs mf cur w ix rd base size last term anchor].
  cbv beta iota zeta delta [set FileLogStorage_eta fl_files fl_manifest fl_current_segment fl_writer fl_index fl_read_files
    fl_base_index fl_log_size fl_last_index fl_last_term fl_anchor WalWriter_Open prod_map id fst snd].
  generalize (u32 (cur + 1)). intros seg. destruct (Z.leb_spec rd seg).
  all: split_and!; first [reflexivity | lia].
Qed.

Lemma roll_ok s es : fl_ok s es → fl_current_segment s < U32_MAX →
  fl_ok (FileLogStorage_RollSegment s) es ∧ fl_current_segment (FileLogStorage_RollSegment s) = fl_current_segment s + 1.
Proof.
  intros Hok Hmax. destruct (fl_flush_ok s es Hok) as (Hok' & Hi & Hcur & _ & Hc).
  destruct (roll_spec s) as (Hseg & Hopen & Hrd & Hix & Hb & Hl).
  pose proof (fo_seg _ _ Hok) as H0. rewrite Hcur, u32_small in Hseg, Hopen, Hrd by (unfold U32_MAX in *; lia).
  generalize dependent (FileLogStorage_RollSegment s). intros s' Hseg Hopen Hrd Hix Hb Hl.
  generalize dependent (fl_flush s). intros s1 Hok' Hi Hcur Hc Hopen Hrd Hix Hb Hl.
  injection Hopen as Hfiles Hw. destruct Hok' as [_ Hread _ Hbase Hlast Hzero Hidx Hfit Hrec].
  split; [|exact Hseg]. split; [|lia|lia|congruence|congruence|congruence|exact Hidx|exact Hfit|].
  - eexists _, _. rewrite Hw, Hfiles, Hseg. split_and!; [reflexivity|reflexivity|apply lookup_insert_eq|reflexivity].
  - intros e He. destruct (Hrec e He) as (loc & pre & post & H1 & H2 & H3 & H4). exists loc, pre, post.
    rewrite Hcur in H2. split_and!; [congruence|lia|lia| |exact H4].
    rewrite Hc in H3. unfold contents. rewrite Hw, Hfiles, lookup_insert_ne by lia.
    destruct (fl_files s1 !! loc_segment_id loc) as [g|]; [|done]. cbn.
    rewrite (proj2 (Z.eqb_neq _ _)) by lia. rewrite app_nil_r. exact H3.
Qed.

Lemma push_ok s es e : fl_ok s es → record_fits e → le_index e = zlen es + 1 → fl_ok (push_record s e) (es ++ [e]).
Proof.
  intros [(w & f & Hw & Hseg & Hf & Hsz) Hread Hcur Hbase Hlast Hzero Hidx Hfit Hrec] He Hie.
  unfold push_record. rewrite Hw. cbn [fw_writer].
  assert (Hc : ∀ seg, contents (push_record s e) seg =
    if seg =? fl_current_segment s then (fun c => c ++ wal_record e) <$> contents s seg else contents s seg).
  { intros seg. unfold contents, push_record. rewrite Hw. cbn. rewrite Hw. cbn. rewrite Hseg.
    destruct (fl_files s !! seg) as [g|]; cbn; [|by destruct (seg =? _)].
    rewrite (Z.eqb_sym seg). destruct (_ =? seg); [cbn; by rewrite app_assoc|done]. }
  unfold push_record in Hc. rewrite Hw in Hc. cbn [fw_writer] in Hc. split.
  - exists (WalWriter_Append w e), f. split_and!; [cbn; by rewrite Hw|done|done|done].
  - done.
  - done.
  - done.
  - cbn. rewrite Hie, zlen_app. done.
  - cbn. unfold WalIndex_Add. rewrite lookup_insert_ne; [done|]. pose proof (zlen_nonneg es). lia.
  - intros i e' [H|[Hle H]]%lookup_app_Some; [by apply Hidx|].
    apply list_lookup_singleton_Some in H as [H <-]. rewrite Hie. unfold zlen. lia.
  - apply Forall_app. split; [done|]. constructor; [done|constructor].
  - intros e' [Hin|Hin%list_elem_of_singleton]%elem_of_app.
    + destruct (Hrec e' Hin) as (loc & pre & post & H1 & H2 & H3 & H4).
      assert (Hlt : le_index e' ≠ le_index e).
      { apply list_elem_of_lookup in Hin as [i Hi]. rewrite (Hidx _ _ Hi), Hie. apply lookup_lt_Some in Hi. unfold zlen. lia. }
      exists loc, pre, (if loc_segment_id loc =? fl_current_segment s then post ++ wal_record e else post).
      split_and!; [|apply H2|apply H2| |done].
      * cbn. unfold WalIndex_Add. by rewrite lookup_insert_ne.
      * rewrite Hc, H3. destruct (_ =? _); [|done]. cbn [fmap option_fmap option_map]. by rewrite <- !app_assoc.
    + subst e'. exists (mkEntryLocation (fl_current_segment s) (next_write_offset w)), (wf_data f ++ ww_buf w), [].
      split_and!; [|done|done| |].
      * cbn. unfold WalIndex_Add. apply lookup_insert_eq.
      * rewrite Hc. cbn [loc_segment_id]. rewrite Z.eqb_refl. unfold contents. rewrite Hf, Hw.
        cbn [mbind option_bind fmap option_fmap option_map fw_writer]. rewrite Hseg, Z.eqb_refl. by rewrite app_nil_r.
      * cbn. unfold next_write_offset. by rewrite zlen_app, Hsz.
Qed.

Lemma append_ok s es e flush : fl_ok s es → record_fits e → zlen es < U64_MAX → fl_current_segment s < U32_MAX →
  let e' := e <| le_index := zlen es + 1 |> in
  (FileLogStorage_Append s e flush).2 = zlen es + 1 ∧ fl_ok (FileLogStorage_Append s e flush).1 (es ++ [e']) ∧
  fl_current_segment (FileLogStorage_Append s e flush).1 ≤ fl_current_segment s + 1.
Proof.
  intros Hok He Hu Hmax. unfold FileLogStorage_Append. pose proof (zlen_nonneg es).
  rewrite (fo_last _ _ Hok), u64_small by lia. cbv zeta. cbn [fst snd].
  assert (He' : record_fits (e <| le_index := zlen es + 1 |>)).
  { destruct He as (_ & ? & ? & ?). split_and!; cbn; [lia|lia|lia|lia|done|done]. }
  split; [done|].
  set (s1 := match fl_writer s with
             | Some w => if kMaxSegmentBytes <=? ww_file_size (fw_writer w) then FileLogStorage_RollSegment s else s
             | None => s end).
  assert (fl_ok s1 es ∧ fl_current_segment s1 ≤ fl_current_segment s + 1) as [Hok1 Hc1].
  { unfold s1. destruct (fl_writer s); [|split; [done|lia]]. destruct (_ <=? _); [|split; [done|lia]].
    destruct (roll_ok s es Hok Hmax) as [? ->]. split; [done|lia]. }
  split; [by apply push_ok|exact Hc1].
Qed.

Lemma open_ok files manifest : fl_ok (FileLogStorage_Open (FileLogStorage_new files manifest)).1 [].
Proof.
  unfold FileLogStorage_Open, FileLogStorage_new, WalWriter_Open. cbn.
  assert (0 ≤ mf_current_segment (Manifest_Load (mkManifest manifest 0))).
  { unfold Manifest_Load. destruct manifest as [c|]; cbn; [|done]. destruct (parse_uint _ _) as [v|]; cbn; [|done].
    unfold u32. by apply Z.mod_pos_bound. }
  split; cbn; [|done|done|done|done|done|done|constructor|by intros e ?%not_elem_of_nil].
  eexists _, _. split_and!; [done|done|apply lookup_insert_eq|done].
Qed.

(** ** Runs *)

Inductive FileOp : Type :=
  | FAppend (e : LogEntry) (flush : bool)
  | FFlush
  | FRoll
  | FGet (index : Z)
  | FGetRange (start limit : Z).

Definition file_op s (op : FileOp) : FileLogStorage :=
  match op with
  | FAppend e flush => (FileLogStorage_Append s e flush).1
  | FFlush => (FileLogStorage_Flush s).1
  | FRoll => FileLogStorage_RollSegment s
  | FGet i => (FileLogStorage_Get s i).1
  | FGetRange start limit => (FileLogStorage_GetRange s start limit).1
  end.

(** What the operations append to the entries [es]. *)
Fixpoint appended (es : list LogEntry) (ops : list FileOp) : list LogEntry :=
  match ops with
  | [] => es
  | FAppend e _ :: ops => appended (es ++ [e <| le_index := zlen es + 1 |>]) ops
  | _ :: ops => appended es ops
  end.

Definition op_fits (op : FileOp) : Prop := match op with FAppend e _ => record_fits e | _ => True end.

Lemma file_op_reads s es op : fl_ok s es → match op with FGet _ | FGetRange _ _ | FFlush => True | _ => False end →
  fl_ok (file_op s op) es ∧ fl_current_segment (file_op s op) = fl_current_segment s.
Proof.
  intros Hok Hop. destruct (fl_flush_ok s es Hok) as (Hok' & _ & Hc & _).
  destruct op as [| | |i|a b]; try done; cbn [file_op].
  - unfold FileLogStorage_Get. destruct (_ || _); [done|]. by destruct (fl_index s !! i).
  - unfold FileLogStorage_GetRange. by destruct (_ || _).
Qed.

Lemma run_ok ops : ∀ s es, fl_ok s es → Forall op_fits ops →
  zlen es + zlen ops < U64_MAX → fl_current_segment s + zlen ops ≤ U32_MAX →
  fl_ok (fold_left file_op ops s) (appended es ops).
Proof.
  induction ops as [|op ops IH]; intros s es Hok Hops Hu Hmax; [done|].
  inversion_clear Hops as [|? ? Hop Hops']. rewrite zlen_cons in Hu, Hmax. pose proof (zlen_nonneg ops).
  cbn [fold_left appended]. destruct op as [e fl| | | |].
  - destruct (append_ok s es e fl Hok Hop) as (_ & Hok' & Hc); [lia|lia|].
    apply IH; [done|done|rewrite zlen_app; change (zlen [_]) with 1; lia|cbn [file_op]; lia].
  - destruct (file_op_reads s es FFlush Hok I) as [? Hc]. apply IH; [done|done|lia|lia].
  - destruct (roll_ok s es Hok) as [? Hc]; [lia|]. apply IH; [done|done|lia|cbn [file_op]; lia].
  - destruct (file_op_reads s es (FGet index) Hok I) as [? Hc]. apply IH; [done|done|lia|lia].
  - destruct (file_op_reads s es (FGetRange start limit) Hok I) as [? Hc]. apply IH; [done|done|lia|lia].
Qed.

(** C28. What is appended is read back: after any run of appends, flushes, roll-overs
    and reads on a directory that was just opened, the log has the appended entries,
    numbered from one, whatever segment or buffer their records are in, and any range
    of them is read as such. *)
Theorem file_log_reads_back files manifest ops :
  let s0 := (FileLogStorage_Open (FileLogStorage_new files manifest)).1 in
  Forall op_fits ops → fl_current_segment s0 + zlen ops ≤ U32_MAX →
  let s := fold_left file_op ops s0 in
  let a := fl_alog s (appended [] ops) in
  fl_last_index s = al_last a ∧
  (∀ i, 0 ≤ i → (FileLogStorage_Get s i).2 = al_get a i) ∧
  (∀ start limit, 1 ≤ start ≤ al_last a → 0 ≤ limit → start + limit ≤ U64_MAX →
     (FileLogStorage_GetRange s start limit).2 = al_range a start limit).
Proof.
  intros s0 Hops Hmax s a. pose proof (open_ok files manifest) as H0. pose proof (fo_seg _ _ H0) as Hseg. fold s0 in H0, Hseg.
  assert (Hok : fl_ok s (appended [] ops)).
  { apply run_ok; [done|done| |done]. unfold U64_MAX, U32_MAX in *. rewrite zlen_nil. lia. }
  assert (Hlast : al_last a = zlen (appended [] ops)) by (unfold al_last, a; cbn [al_base al_entries fl_alog]; lia).
  rewrite Hlast. split_and!; [apply (fo_last _ _ Hok)|intros i Hi; by apply fl_get|].
  intros start limit Hs Hl Hu. by apply fl_range.
Qed.

(** Two segments, the second one with records in the buffer. *)
Definition example_ops : list FileOp :=
  [FAppend (mkLogEntry 1 0 (str "a")) true; FAppend (mkLogEntry 1 0 []) true; FRoll;
   FAppend (mkLogEntry 2 0 (str "bc")) false; FGet 2; FAppend (mkLogEntry 3 0 (str "d")) true].

Definition example_log : FileLogStorage :=
  fold_left file_op example_ops (FileLogStorage_Open (FileLogStorage_new ∅ None)).1.

Lemma file_log_reads_back_witness :
  Forall op_fits example_ops ∧
  (FileLogStorage_Get example_log 3).2 = al_get (fl_alog example_log (appended [] example_ops)) 3 ∧
  al_get (fl_alog example_log (appended [] example_ops)) 3 = Some (mkLogEntry 2 3 (str "bc")).
Proof.
  assert (H : Forall op_fits example_ops).
  { unfold example_ops, op_fits, record_fits. repeat constructor; by_decide. }
  split; [exact H|]. split; [|by_compute].
  refine (proj1 (proj2 (file_log_reads_back ∅ None example_ops H _)) 3 _); by_decide.
Defined.

(** ** What the other operations lose *)

(** A compaction that leaves entries in the log removes all of them from the index:
    the log says that they are there, and cannot read one. *)
Theorem compaction_loses_entries s index i :
  fl_base_index s < index → index < fl_last_index s →
  let s' := (FileLogStorage_CompactUpTo s index).1 in
  fl_last_index s' = fl_last_index s ∧ (FileLogStorage_Get s' i).2 = None.
Proof.
  intros Hb Hl. unfold FileLogStorage_CompactUpTo.
  rewrite (proj2 (Z.leb_gt _ _)), (proj2 (Z.leb_gt _ _)) by lia. cbn [fst]. split; [done|].
  unfold FileLogStorage_Get. cbn. destruct (_ || _); [done|]. by rewrite lookup_empty.
Qed.

(** Opening a directory again empties the segment that the manifest names, and does
    not look for records: the log is empty, whatever was written and synced. *)
Theorem reopening_loses_log files manifest :
  let s := (FileLogStorage_Open (FileLogStorage_new files manifest)).1 in
  fl_last_index s = 0 ∧ fl_files s !! fl_current_segment s = Some (mkWalFile [] 0).
Proof.
  unfold FileLogStorage_Open, FileLogStorage_new, WalWriter_Open. cbn. split; [done|]. apply lookup_insert_eq.
Qed.

(** A truncation reads the last record that stays from the file although it may
    still be in the buffer: its term is lost, and the records that were cut off are
    written by the next flush. *)
Theorem truncation_ignores_buffer :
  let s := fold_left file_op [FAppend (mkLogEntry 7 0 (str "a")) true; FAppend (mkLogEntry 7 0 (str "b")) true]
             (FileLogStorage_Open (FileLogStorage_new ∅ None)).1 in
  let s' := fl_flush (FileLogStorage_TruncateFrom s 1) in
  fl_last_index s' = 1 ∧ fl_last_term s' = 0 ∧
  wf_data <$> fl_files s' !! 0 =
    Some (wal_record (mkLogEntry 7 1 (str "a")) ++ wal_record (mkLogEntry 7 2 (str "b"))).
Proof. vm_compute. done. Qed.
