(* ===== verification/RaftStorage.v ===== *)
(** * Durable Raft hard state (src/server/raft/raft_storage.h, raft_storage.cc)

    [RaftStorage] with the file behind it: every setter rewrites meta.json as one
    record, and [Load] parses it back.  Theorems: what was persisted is what a
    restarted node reads, for the hard state (term and vote) of every node id
    and for the joint configuration. *)

From S2P Require Import Prelude RaftTypes Json.

(** [rs_disk] is the content of the file at [path_] (empty when there is none).
    The tmp-file, fsync and rename sequence of [Flush] replaces it in one step;
    write errors are not modelled. *)
Record RaftStorage : Type := mkRaftStorage {
  rs_path : bytes;
  rs_current_term : Z;
  rs_voted_for : NodeId;
  rs_config_state : ConfigState;
  rs_joint_config : JointConfig;
  rs_disk : bytes
}.
#[export] Instance RaftStorage_eta : Eta RaftStorage := fun s =>
  mkRaftStorage (rs_path s) (rs_current_term s) (rs_voted_for s) (rs_config_state s)
    (rs_joint_config s) (rs_disk s).

Implicit Types s : RaftStorage.

Definition default_JointConfig : JointConfig :=
  mkJointConfig default_ClusterConfig default_ClusterConfig.

(** [RaftStorage(path)], on a disk that holds [disk]. *)
Definition RaftStorage_new (path disk : bytes) : RaftStorage :=
  mkRaftStorage path 0 [] kStable default_JointConfig disk.

Definition kFieldCurrentTerm : bytes := str "current_term".
Definition kFieldVotedFor : bytes := str "voted_for".
Definition kFieldConfigState : bytes := str "config_state".
Definition kFieldJointOldVoters : bytes := str "joint_old_voters".
Definition kFieldJointNewVoters : bytes := str "joint_new_voters".
Definition kFieldJointOldVersion : bytes := str "joint_old_version".
Definition kFieldJointNewVersion : bytes := str "joint_new_version".

(** The set is visited in some order; [elements] fixes one. *)
Definition JoinToken (set : gset NodeId) : bytes :=
  fold_left (fun result id =>
    (if bool_decide (result = []) then result else result ++ [COMMA]) ++ EscapeJson id)
    (elements set) [].

Definition config_state_code (c : ConfigState) : Z :=
  match c with kStable => 0 | kJoint => 1 end.

Definition RaftStorage_Serialize s : bytes :=
  let joint := rs_joint_config s in
  str "{" ++ quoted kFieldCurrentTerm ++ [COLON] ++ to_string (rs_current_term s) ++
  COMMA :: quoted kFieldVotedFor ++ [COLON] ++ quoted (EscapeJson (rs_voted_for s)) ++
  COMMA :: quoted kFieldConfigState ++ [COLON] ++
    to_string (config_state_code (rs_config_state s)) ++
  COMMA :: quoted kFieldJointOldVoters ++ [COLON] ++
    quoted (JoinToken (cc_voters (jc_old_config joint))) ++
  COMMA :: quoted kFieldJointNewVoters ++ [COLON] ++
    quoted (JoinToken (cc_voters (jc_new_config joint))) ++
  COMMA :: quoted kFieldJointOldVersion ++ [COLON] ++
    to_string (cc_version (jc_old_config joint)) ++
  COMMA :: quoted kFieldJointNewVersion ++ [COLON] ++
    to_string (cc_version (jc_new_config joint)) ++ [125; 10].

(** The text between commas; there is always at least one piece. *)
Fixpoint split_on (c : Z) (t : bytes) : list bytes :=
  match t with
  | [] => [[]]
  | x :: t' =>
      if x =? c then [] :: split_on c t'
      else match split_on c t' with
           | p :: ps => (x :: p) :: ps
           | [] => [[x]]
           end
  end.

(** [parse_voters]: inserts every non-empty piece, unescaped once more. *)
Definition parse_voters (data name : bytes) (out : gset NodeId) : gset NodeId :=
  match parse_string data name with
  | None => out
  | Some t =>
      fold_left (fun out (p : bytes) =>
        if bool_decide (p = []) then out else {[ UnescapeJson p ]} ∪ out) (split_on COMMA t) out
  end.

Definition RaftStorage_Deserialize s (data : bytes) : RaftStorage :=
  let s := match parse_uint data kFieldCurrentTerm with
           | Some v => s <| rs_current_term := v |> | None => s end in
  let s := match parse_string data kFieldVotedFor with
           | Some v => s <| rs_voted_for := v |> | None => s end in
  let s := match parse_uint data kFieldConfigState with
           | Some v => s <| rs_config_state := if v =? 0 then kStable else kJoint |> | None => s end in
  let joint := rs_joint_config s in
  let joint := joint <| jc_old_config ::= fun c => c <| cc_voters ::= parse_voters data kFieldJointOldVoters |> |> in
  let joint := joint <| jc_new_config ::= fun c => c <| cc_voters ::= parse_voters data kFieldJointNewVoters |> |> in
  let joint := match parse_uint data kFieldJointOldVersion with
               | Some v => joint <| jc_old_config ::= fun c => c <| cc_version := v |> |> | None => joint end in
  let joint := match parse_uint data kFieldJointNewVersion with
               | Some v => joint <| jc_new_config ::= fun c => c <| cc_version := v |> |> | None => joint end in
  s <| rs_joint_config := joint |>.

Definition RaftStorage_Flush s : RaftStorage :=
  if bool_decide (rs_path s = []) then s else s <| rs_disk := RaftStorage_Serialize s |>.

Definition RaftStorage_Load s : RaftStorage :=
  if bool_decide (rs_path s = []) then s
  else if bool_decide (rs_disk s = []) then RaftStorage_Flush s
  else RaftStorage_Deserialize s (rs_disk s).

Definition set_current_term s (term : Z) : RaftStorage :=
  RaftStorage_Flush (s <| rs_current_term := term |>).

Definition set_voted_for s (node_id : NodeId) : RaftStorage :=
  RaftStorage_Flush (s <| rs_voted_for := node_id |>).

Definition SetState s (term : Z) (voted_for : NodeId) : RaftStorage :=
  RaftStorage_Flush (s <| rs_current_term := term |> <| rs_voted_for := voted_for |>).

Definition SetJointConfigState s (state : ConfigState) (joint : JointConfig) : RaftStorage :=
  RaftStorage_Flush (s <| rs_config_state := state |> <| rs_joint_config := joint |>).

Definition RaftStorage_Clear s : RaftStorage :=
  RaftStorage_Flush (s <| rs_current_term := 0 |> <| rs_voted_for := [] |>
    <| rs_config_state := kStable |> <| rs_joint_config := default_JointConfig |>).

(** What a restarted process sees: the constructor and [Load] on the disk the
    previous one left behind. *)
Definition RaftStorage_restart s : RaftStorage :=
  RaftStorage_Load (RaftStorage_new (rs_path s) (rs_disk s)).

(** ** Hard state *)

Definition nul_free (id : NodeId) : Prop := Forall (λ c, 0 < c) id.

#[export] Instance nul_free_dec id : Decision (nul_free id).
Proof. unfold nul_free. apply _. Defined.

#[local] Opaque quoted to_string EscapeJson JoinToken.

Section serialized.
Context (s : RaftStorage).

(** The fields of the record, in order. *)
Definition storage_fields : list jfield :=
  let joint := rs_joint_config s in
  [JUint kFieldCurrentTerm (rs_current_term s);
   JStr kFieldVotedFor (EscapeJson (rs_voted_for s));
   JUint kFieldConfigState (config_state_code (rs_config_state s));
   JStr kFieldJointOldVoters (JoinToken (cc_voters (jc_old_config joint)));
   JStr kFieldJointNewVoters (JoinToken (cc_voters (jc_new_config joint)));
   JUint kFieldJointOldVersion (cc_version (jc_old_config joint));
   JUint kFieldJointNewVersion (cc_version (jc_new_config joint))].

(** The text up to the [n]-th field is made of the fields before it. *)
Lemma Serialize_split n f :
  (n < 7)%nat → storage_fields !! n = Some f →
  ∃ rest, RaftStorage_Serialize s = (123 :: jfields (take n storage_fields)) ++ jtext f ++ rest ∧
          take_while is_digit rest = [].
Proof.
  intros Hn Hf. unfold RaftStorage_Serialize.
  do 7 (destruct n as [|n]; [simplify_eq/=; eexists; split;
    [unfold jfields; cbn [take map concat jtext]; rewrite <-?app_assoc; simpl;
     rewrite <-?app_assoc; simpl; rewrite <-?app_assoc; reflexivity | done]|]). lia.
Qed.

Context (Hterm : 0 ≤ rs_current_term s ≤ U64_MAX) (Hvote : nul_free (rs_voted_for s)).

Lemma Serialize_current_term :
  parse_uint (RaftStorage_Serialize s) kFieldCurrentTerm = Some (rs_current_term s).
Proof.
  destruct (Serialize_split 0 (JUint kFieldCurrentTerm (rs_current_term s))) as (rest & E & Hr);
    [lia|done|]. simpl in E.
  eapply (record_uint kFieldCurrentTerm) with (open := 123) (fs := []) (rest := rest);
    [by_decide..| |by_decide|constructor|done|exact Hr].
  rewrite E. simpl. by rewrite <-app_assoc.
Qed.

Lemma Serialize_voted_for :
  parse_string (RaftStorage_Serialize s) kFieldVotedFor = Some (rs_voted_for s).
Proof.
  destruct (Serialize_split 1 (JStr kFieldVotedFor (EscapeJson (rs_voted_for s))))
    as (rest & E & Hr); [lia|done|].
  eapply (record_string kFieldVotedFor) with (open := 123) (rest := rest)
    (fs := [JUint kFieldCurrentTerm (rs_current_term s)]);
    [by_decide..| |by_decide| |done].
  - rewrite E. simpl jtext. rewrite <-app_assoc. reflexivity.
  - repeat constructor; try by_decide. lia.
Qed.
End serialized.

(** A storage whose term and vote are the ones on disk. *)
Definition durable s : Prop :=
  rs_path s ≠ [] ∧
  rs_current_term (RaftStorage_restart s) = rs_current_term s ∧
  rs_voted_for (RaftStorage_restart s) = rs_voted_for s.

Lemma Serialize_nonempty s : RaftStorage_Serialize s ≠ [].
Proof. done. Qed.

Lemma Deserialize_hard_state s data :
  rs_current_term (RaftStorage_Deserialize s data) =
    default (rs_current_term s) (parse_uint data kFieldCurrentTerm) ∧
  rs_voted_for (RaftStorage_Deserialize s data) =
    default (rs_voted_for s) (parse_string data kFieldVotedFor) ∧
  rs_path (RaftStorage_Deserialize s data) = rs_path s ∧
  rs_disk (RaftStorage_Deserialize s data) = rs_disk s.
Proof. unfold RaftStorage_Deserialize. split_and!; simpl; by repeat case_match. Qed.

Lemma Flush_fields s :
  rs_path (RaftStorage_Flush s) = rs_path s ∧
  rs_current_term (RaftStorage_Flush s) = rs_current_term s ∧
  rs_voted_for (RaftStorage_Flush s) = rs_voted_for s ∧
  rs_config_state (RaftStorage_Flush s) = rs_config_state s ∧
  rs_joint_config (RaftStorage_Flush s) = rs_joint_config s.
Proof. unfold RaftStorage_Flush. by case_bool_decide. Qed.

Lemma restart_flushed s :
  rs_path s ≠ [] →
  RaftStorage_restart (RaftStorage_Flush s) =
    RaftStorage_Deserialize (RaftStorage_new (rs_path s) (RaftStorage_Serialize s))
      (RaftStorage_Serialize s).
Proof.
  intros Hp. unfold RaftStorage_restart, RaftStorage_Flush.
  rewrite bool_decide_false by done. simpl. unfold RaftStorage_Load. simpl.
  by rewrite !bool_decide_false.
Qed.

Lemma Flush_durable s :
  rs_path s ≠ [] → 0 ≤ rs_current_term s ≤ U64_MAX → nul_free (rs_voted_for s) →
  durable (RaftStorage_Flush s).
Proof.
  intros Hp Ht Hv. destruct (Flush_fields s) as (E1 & E2 & E3 & _). unfold durable.
  rewrite E1, E2, E3, restart_flushed by done. split; [done|].
  destruct (Deserialize_hard_state (RaftStorage_new (rs_path s) (RaftStorage_Serialize s))
    (RaftStorage_Serialize s)) as (-> & -> & _).
  by rewrite Serialize_current_term, Serialize_voted_for.
Qed.

Lemma restart_nonempty s :
  rs_path s ≠ [] → rs_disk s ≠ [] →
  RaftStorage_restart s =
    RaftStorage_Deserialize (RaftStorage_new (rs_path s) (rs_disk s)) (rs_disk s).
Proof.
  intros Hp Hd. unfold RaftStorage_restart, RaftStorage_Load. simpl. by rewrite !bool_decide_false.
Qed.

Lemma restart_path s : rs_path (RaftStorage_restart s) = rs_path s.
Proof.
  unfold RaftStorage_restart, RaftStorage_Load, RaftStorage_Flush. simpl.
  repeat case_bool_decide; try done.
  by destruct (Deserialize_hard_state (RaftStorage_new (rs_path s) (rs_disk s)) (rs_disk s)) as (_ & _ & -> & _).
Qed.

Lemma restart_durable s : durable s → durable (RaftStorage_restart s).
Proof.
  intros (Hp & Ht & Hv). destruct (decide (rs_disk s = [])) as [Hd|Hd].
  - unfold RaftStorage_restart, RaftStorage_Load. simpl.
    rewrite bool_decide_false, bool_decide_true by done.
    apply Flush_durable; [done|simpl; unfold U64_MAX; lia|constructor].
  - assert (RaftStorage_restart (RaftStorage_restart s) = RaftStorage_restart s) as E.
    { rewrite (restart_nonempty s) by done.
      destruct (Deserialize_hard_state (RaftStorage_new (rs_path s) (rs_disk s)) (rs_disk s))
        as (_ & _ & E1 & E2). rewrite restart_nonempty by (by rewrite ?E1, ?E2). by rewrite E1, E2. }
    unfold durable. by rewrite E, restart_path.
Qed.

Lemma SetState_durable s term vote :
  rs_path s ≠ [] → 0 ≤ term ≤ U64_MAX → nul_free vote → durable (SetState s term vote).
Proof. intros. by apply Flush_durable. Qed.

Lemma set_voted_for_durable s vote :
  rs_path s ≠ [] → 0 ≤ rs_current_term s ≤ U64_MAX → nul_free vote → durable (set_voted_for s vote).
Proof. intros. by apply Flush_durable. Qed.

(** C27. A vote or a new term is on disk when the setter returns: a process that
    crashes right after [SetState] reads the same term and vote back when it
    restarts, whatever bytes the node id holds (NUL excepted). *)
Theorem hard_state_survives_restart (s : RaftStorage) (term : Z) (vote : NodeId) :
  rs_path s ≠ [] → 0 ≤ term ≤ U64_MAX → nul_free vote →
  let s' := RaftStorage_restart (SetState s term vote) in
  rs_current_term s' = term ∧ rs_voted_for s' = vote.
Proof.
  intros Hp Ht Hv. destruct (SetState_durable s term vote Hp Ht Hv) as (_ & E1 & E2).
  unfold SetState in *. destruct (Flush_fields (s <| rs_current_term := term |>
    <| rs_voted_for := vote |>)) as (_ & F1 & F2 & _).
  cbv zeta. by rewrite E1, E2, F1, F2.
Qed.

Lemma hard_state_survives_restart_witness :
  let s' := RaftStorage_restart (SetState (RaftStorage_new (str "meta.json") []) 7 [110; 34; 92; 49; 10; 1]) in
  rs_current_term s' = 7 ∧ rs_voted_for s' = [110; 34; 92; 49; 10; 1].
Proof. apply hard_state_survives_restart; by_decide. Defined.

(** ** Joint configuration *)

(** The id of a voter as operators choose it: not empty, no comma, nothing that
    needs escaping. *)
Definition voter_id (id : NodeId) : Prop :=
  id ≠ [] ∧ plain id ∧ Forall (λ c, c ≠ COMMA) id.

Definition join (ids : list NodeId) : bytes :=
  match ids with
  | [] => []
  | id :: ids' => id ++ concat (map (λ i, COMMA :: i) ids')
  end.

Transparent JoinToken.

Lemma JoinToken_join (vs : gset NodeId) : set_Forall voter_id vs → JoinToken vs = join (elements vs).
Proof.
  intros Hv. unfold JoinToken. assert (Forall voter_id (elements vs)) as Hf
    by (apply Forall_forall; intros; by apply Hv, elem_of_elements).
  assert (∀ ids (r : bytes), Forall voter_id ids → r ≠ [] →
    fold_left (fun result id =>
      (if bool_decide (result = []) then result else result ++ [COMMA]) ++ EscapeJson id) ids r
    = r ++ concat (map (λ i, COMMA :: i) ids)) as Hrest.
  { intros ids. induction ids as [|id ids IH]; intros r Hids Hr; simpl; [by rewrite app_nil_r|].
    inversion Hids as [|? ? (_ & Hp & _) Hids']; subst.
    rewrite bool_decide_false, (EscapeJson_plain id), IH by (done || by destruct r).
    by rewrite <-!app_assoc. }
  destruct (elements vs) as [|id ids]; [done|]. inversion Hf as [|? ? (Hne & Hp & _) Hids]; subst.
  simpl. rewrite (EscapeJson_plain id) by done. by rewrite Hrest.
Qed.

Lemma join_plain ids : Forall voter_id ids → plain (join ids).
Proof.
  destruct 1 as [|id ids (_ & Hp & _) Hids]; [constructor|]. simpl. apply Forall_app_2; [done|].
  induction Hids as [|i ids (_ & Hi & _) _ IH]; simpl; [constructor|].
  constructor; [done|]. by apply Forall_app_2.
Qed.

Lemma split_on_app c p t :
  Forall (λ x, x ≠ c) p → split_on c (p ++ c :: t) = p :: split_on c t.
Proof.
  induction 1 as [|x p Hx _ IH]; simpl; [by rewrite Z.eqb_refl|].
  rewrite (proj2 (Z.eqb_neq x c) Hx), IH. done.
Qed.

Lemma split_on_none c p : Forall (λ x, x ≠ c) p → split_on c p = [p].
Proof.
  induction 1 as [|x p Hx _ IH]; simpl; [done|]. by rewrite (proj2 (Z.eqb_neq x c) Hx), IH.
Qed.

Lemma split_join ids : Forall voter_id ids → ids ≠ [] → split_on COMMA (join ids) = ids.
Proof.
  destruct 1 as [|id ids (_ & _ & Hc) Hids]; [done|]. intros _. simpl. revert id Hc.
  induction Hids as [|i ids (_ & _ & Hi) _ IH]; intros id Hc; simpl.
  - rewrite app_nil_r. by apply split_on_none.
  - rewrite split_on_app by done. by rewrite IH.
Qed.

(** The values that are not themselves mistaken for a field name. *)
Definition kFields : list bytes :=
  [kFieldCurrentTerm; kFieldVotedFor; kFieldConfigState; kFieldJointOldVoters;
   kFieldJointNewVoters; kFieldJointOldVersion; kFieldJointNewVersion].

Lemma kFields_names name :
  name ∈ kFields →
  no_DQ name ∧ name ≠ [] ∧ head name ≠ Some COLON ∧ head name ≠ Some COMMA ∧
  Forall (λ x, x ≠ COLON) name.
Proof. revert name. apply Forall_forall. by_decide. Qed.

Definition config_ok (c : ClusterConfig) : Prop :=
  0 ≤ cc_version c ≤ U64_MAX ∧ set_Forall voter_id (cc_voters c) ∧ cc_learners c = ∅ ∧
  join (elements (cc_voters c)) ∉ kFields.

Section joint.
Context (s : RaftStorage).
Context (Hterm : 0 ≤ rs_current_term s ≤ U64_MAX).
Context (Hvote : plain (rs_voted_for s)) (Hvote' : rs_voted_for s ∉ kFields).
Context (Hold : config_ok (jc_old_config (rs_joint_config s))).
Context (Hnew : config_ok (jc_new_config (rs_joint_config s))).

Let old := cc_voters (jc_old_config (rs_joint_config s)).
Let new := cc_voters (jc_new_config (rs_joint_config s)).

Lemma no_DQ_voters vs : set_Forall voter_id vs → no_DQ (JoinToken vs).
Proof.
  intros Hv. rewrite JoinToken_join by done. apply plain_no_DQ, join_plain, Forall_forall.
  intros. by apply Hv, elem_of_elements.
Qed.

(** Every field can be skipped in the search for a different one. *)
Lemma storage_fields_skip n name :
  name ∈ kFields → kFields !! n = Some name →
  Forall (jskip name) (take n (storage_fields s)).
Proof.
  intros Hin Hn. destruct Hold as (? & Ho & _ & Ho'), Hnew as (? & Hw & _ & Hw').
  assert (∀ v, v ∉ kFields → v ≠ name) as Hne by (intros v Hv ->; done).
  assert (∀ c, 0 ≤ config_state_code c) as Hcc by (intros []; simpl; lia).
  rewrite <-JoinToken_join in Ho', Hw' by done.
  do 7 (destruct n as [|n]; [simplify_eq/=; repeat (apply Forall_cons; split); try apply Forall_nil_2;
    simpl; rewrite ?(EscapeJson_plain _ Hvote);
    repeat split; try lia; auto using plain_no_DQ, no_DQ_voters; by_decide|]). done.
Qed.

Lemma Serialize_uint n name v :
  kFields !! n = Some name → storage_fields s !! n = Some (JUint name v) → 0 ≤ v ≤ U64_MAX →
  parse_uint (RaftStorage_Serialize s) name = Some v.
Proof.
  intros Hn Hf Hv. assert (n < 7)%nat as Hlt by (apply lookup_lt_Some in Hn; done).
  destruct (Serialize_split s n _ Hlt Hf) as (rest & E & Hr).
  pose proof (list_elem_of_lookup_2 _ _ _ Hn) as Hin.
  destruct (kFields_names name Hin) as (? & ? & ? & ? & ?).
  eapply (record_uint name) with (open := 123) (fs := take n (storage_fields s)) (rest := rest);
    [done..| |by_decide|by eapply storage_fields_skip|done|done].
  rewrite E. simpl jtext. by rewrite <-!app_assoc.
Qed.

Lemma Serialize_voters n name vs :
  kFields !! n = Some name → storage_fields s !! n = Some (JStr name (JoinToken vs)) →
  set_Forall voter_id vs → parse_voters (RaftStorage_Serialize s) name ∅ = vs.
Proof.
  intros Hn Hf Hv. assert (n < 7)%nat as Hlt by (apply lookup_lt_Some in Hn; done).
  destruct (Serialize_split s n _ Hlt Hf) as (rest & E & Hr).
  pose proof (list_elem_of_lookup_2 _ _ _ Hn) as Hin.
  destruct (kFields_names name Hin) as (? & ? & ? & ? & ?).
  assert (Forall voter_id (elements vs)) as Hids
    by (apply Forall_forall; intros; by apply Hv, elem_of_elements).
  pose proof (join_plain _ Hids) as Hp. unfold parse_voters.
  rewrite (record_string name) with (open := 123) (fs := take n (storage_fields s)) (rest := rest)
    (v := join (elements vs)); [|done..| |by_decide|by eapply storage_fields_skip|].
  - destruct (elements vs) as [|id ids] eqn:Ev.
    + apply elements_empty_iff in Ev. simpl. set_solver.
    + rewrite <-Ev in *. rewrite split_join by (done || by rewrite Ev).
      rewrite <-(list_to_set_elements_L vs) at 2. clear -Hids. revert Hids.
      rewrite <-(union_empty_r_L (list_to_set (elements vs))). generalize (elements vs), (∅ : gset NodeId).
      intros l. induction l as [|i l IH]; intros acc Hids; simpl; [by rewrite union_empty_l_L|].
      inversion Hids as [|? ? (? & ? & _) ?]; subst.
      rewrite bool_decide_false, UnescapeJson_plain, IH by done.
      by rewrite (assoc_L (∪)), (comm_L (∪) (list_to_set l)).
  - rewrite E. simpl jtext. rewrite JoinToken_join, EscapeJson_plain by done. by rewrite <-!app_assoc.
  - eapply Forall_impl; [exact Hp|]. simpl. unfold plain_char. intros c Hc. bool_norm. lia.
Qed.

Lemma Deserialize_joint :
  let s' := RaftStorage_Deserialize (RaftStorage_new (rs_path s) (RaftStorage_Serialize s))
              (RaftStorage_Serialize s) in
  rs_config_state s' = rs_config_state s ∧ rs_joint_config s' = rs_joint_config s.
Proof.
  destruct Hold as (Hv1 & Ho & Hl1 & _), Hnew as (Hv2 & Hw & Hl2 & _).
  unfold RaftStorage_Deserialize.
  rewrite (Serialize_uint 0 kFieldCurrentTerm (rs_current_term s)) by done.
  rewrite (Serialize_uint 2 kFieldConfigState (config_state_code (rs_config_state s)))
    by (try done; destruct (rs_config_state s); by_decide).
  rewrite (Serialize_uint 5 kFieldJointOldVersion (cc_version (jc_old_config (rs_joint_config s)))) by done.
  rewrite (Serialize_uint 6 kFieldJointNewVersion (cc_version (jc_new_config (rs_joint_config s)))) by done.
  cbv zeta. destruct (parse_string _ _); simpl;
    rewrite (Serialize_voters 3 kFieldJointOldVoters old), (Serialize_voters 4 kFieldJointNewVoters new) by done.
  all: split; [by destruct (rs_config_state s)|]; unfold old, new;
    destruct (rs_joint_config s) as [[v1 vs1 l1] [v2 vs2 l2]]; simpl in *; by subst.
Qed.
End joint.

(** A membership change in progress survives a crash: the joint
    configuration and its state that [SetJointConfigState] persisted are what
    the restarted node resumes with (its learners excepted, which the record
    does not hold). *)
Theorem joint_config_survives_restart (s : RaftStorage) (state : ConfigState) (joint : JointConfig) :
  rs_path s ≠ [] → 0 ≤ rs_current_term s ≤ U64_MAX →
  plain (rs_voted_for s) → rs_voted_for s ∉ kFields →
  config_ok (jc_old_config joint) → config_ok (jc_new_config joint) →
  let s' := RaftStorage_restart (SetJointConfigState s state joint) in
  rs_config_state s' = state ∧ rs_joint_config s' = joint.
Proof.
  intros Hp Ht Hv Hv' Ho Hn. unfold SetJointConfigState. cbv zeta.
  rewrite restart_flushed by done.
  destruct (Deserialize_joint (s <| rs_config_state := state |> <| rs_joint_config := joint |>))
    as [E1 E2]; [done..|]. split; [exact E1|exact E2].
Qed.

Lemma joint_config_survives_restart_witness :
  let joint := mkJointConfig (mkClusterConfig 1 {[ str "n1"; str "n2" ]} ∅)
                             (mkClusterConfig 2 {[ str "n1"; str "n2"; str "n3" ]} ∅) in
  let s' := RaftStorage_restart (SetJointConfigState
    (SetState (RaftStorage_new (str "meta.json") []) 3 (str "n1")) kJoint joint) in
  rs_config_state s' = kJoint ∧ rs_joint_config s' = joint.
Proof.
  intros joint. apply joint_config_survives_restart; by_decide.
Defined.
