(* ===== verification/CommandEncoder.v ===== *)
(** * The log format of commands

    src/server/raft/command_encoder.h, command_encoder.cc, replicated_command.h:
    client commands are stored in the log as RESP arrays, configuration changes
    as space-separated text.  Theorems: both formats round-trip. *)

From S2P Require Import Prelude RaftTypes.

Inductive CommandType : Type := SET | DEL | EXPIRE | CONFIG_CHANGE.

Record ReplicatedCommand : Type := mkReplicatedCommand {
  rc_type : CommandType;
  rc_args : list bytes
}.

(** ** RESP arrays *)

Definition EncodeBulk (arg : bytes) : bytes := str "$" ++ to_string (zlen arg) ++ CRLF ++ arg ++ CRLF.

Definition EncodeRespArray (args : list bytes) : bytes :=
  str "*" ++ to_string (zlen args) ++ CRLF ++ concat (map EncodeBulk args).

(** The digit loops: [None] on a character that is not a digit; the value wraps
    at 64 bits. *)
Definition parse_digits (s : bytes) : option Z :=
  fold_left (fun acc c => v ← acc; if is_digit c then Some (u64 (v * 10 + (c - 48))) else None)
    s (Some 0).

(** The element loop, [n] elements left, at [pos]; the second component is
    [*out]. *)
Fixpoint parse_bulks (data : bytes) (n : nat) (pos : Z) (out : list bytes) : bool * list bytes :=
  match n with
  | O => (true, out)
  | S n' =>
      if (zlen data <=? u64 (pos + 1)) || negb (byte_at data pos =? 36) then (false, out)
      else match find_from CRLF data (pos + 1) with
      | None => (false, out)
      | Some len_end =>
          match parse_digits (substr data (pos + 1) (len_end - (pos + 1))) with
          | None => (false, out)
          | Some len =>
              let pos := len_end + 2 in
              if zlen data <? u64 (pos + len) then (false, out)
              else
                let out := out ++ [substr data pos len] in
                let pos := u64 (pos + len) in
                if (zlen data <? u64 (pos + 2)) || negb (byte_at data pos =? 13) ||
                   negb (byte_at data (pos + 1) =? 10)
                then (false, out)
                else parse_bulks data n' (u64 (pos + 2)) out
          end
      end
  end.

Definition ParseRespArray (data : bytes) : bool * list bytes :=
  if bool_decide (data = []) || negb (byte_at data 0 =? 42) then (false, [])
  else match find_from CRLF data 1 with
  | None => (false, [])
  | Some count_end =>
      match parse_digits (substr data 1 (count_end - 1)) with
      | None => (false, [])
      | Some count => parse_bulks data (Z.to_nat count) (count_end + 2) []
      end
  end.

(** ** ReplicatedCommand *)

Definition ReplicatedCommand_Serialize (cmd : ReplicatedCommand) : bytes :=
  EncodeRespArray (rc_args cmd).

(** The space-joined legacy format: what is left of [s] after each token; an
    empty rest ends the loop. *)
Fixpoint legacy_args (fuel : nat) (s : bytes) : list bytes :=
  match fuel with
  | O => []
  | S fuel' =>
      match s with
      | [] => []
      | _ => match find_nat [32] s with
             | None => [s]
             | Some k => take k s :: legacy_args fuel' (drop (k + 1) s)
             end
      end
  end.

(** The type a command name stands for; [SET] when it is none of the names. *)
Definition command_type (args : list bytes) : CommandType :=
  match args with
  | [] => SET
  | name :: _ =>
      if bool_decide (name = str "SET") then SET
      else if bool_decide (name = str "DEL") then DEL
      else if bool_decide (name = str "EXPIRE") then EXPIRE
      else if bool_decide (name = str "CONFIG_CHANGE") then CONFIG_CHANGE
      else SET
  end.

(** On a malformed array the tokens of the legacy format are appended to what
    [ParseRespArray] had already put into [args]. *)
Definition ReplicatedCommand_Deserialize (data : bytes) : ReplicatedCommand :=
  let '(ok, args) := ParseRespArray data in
  let args := if ok then args else args ++ legacy_args (length data) data in
  mkReplicatedCommand (command_type args) args.

(** ** ConfigChangeCommand *)

Definition ConfigChange_Serialize (target : ClusterConfig) : bytes :=
  str "CONFIG_CHANGE " ++ to_string (cc_version target) ++
  str " " ++ to_string (zlen (elements (cc_voters target))) ++
  concat (map (λ v, str " " ++ v) (elements (cc_voters target))) ++
  str " " ++ to_string (zlen (elements (cc_learners target))) ++
  concat (map (λ l, str " " ++ l) (elements (cc_learners target))).

(** [next_token] on the unread rest of the text: the token and the new rest. *)
Definition next_token (rest : bytes) : bytes * bytes :=
  match rest with
  | [] => ([], [])
  | _ => match find_nat [32] rest with
         | None => (rest, [])
         | Some k => (take k rest, drop (k + 1) rest)
         end
  end.

(** [n] ids, the empty ones skipped. *)
Fixpoint next_ids (n : nat) (rest : bytes) (out : gset NodeId) : gset NodeId * bytes :=
  match n with
  | O => (out, rest)
  | S n' =>
      let '(v, rest) := next_token rest in
      next_ids n' rest (if bool_decide (v = []) then out else {[ v ]} ∪ out)
  end.

(** A count and that many ids.  [None] when [std::stoul] throws. *)
Definition parse_ids (rest : bytes) : option (gset NodeId * bytes) :=
  let '(num, rest) := next_token rest in
  if bool_decide (num = []) then Some (∅, rest)
  else n ← stoull num; Some (next_ids (Z.to_nat n) rest ∅).

Definition ConfigChange_Deserialize (data : bytes) : option ClusterConfig :=
  let '(_, rest) := next_token data in
  let '(ver, rest) := next_token rest in
  version ← (if bool_decide (ver = []) then Some 0 else stoull ver);
  '(voters, rest) ← parse_ids rest;
  '(learners, _) ← parse_ids rest;
  Some (mkClusterConfig version voters learners).

(** ** CommandEncoder *)

Definition CO_WRITE : Z := 4.

Definition IsWriteCommand (opt_mask : Z) : bool := negb (Z.land opt_mask CO_WRITE =? 0).

(** [Encode(cid, args)], for a command with the given name and option mask. *)
Definition Encode (name : bytes) (opt_mask : Z) (args : list bytes) : option ReplicatedCommand :=
  if Z.land opt_mask CO_WRITE =? 0 then None
  else if bool_decide (name = str "SET") then Some (mkReplicatedCommand SET args)
  else if bool_decide (name = str "DEL") then Some (mkReplicatedCommand DEL args)
  else if bool_decide (name = str "EXPIRE") then Some (mkReplicatedCommand EXPIRE args)
  else None.

(** ** RESP round trip *)

Lemma dec_val_mono t w : Forall (λ c, 48 ≤ c ≤ 57) t → 0 ≤ w → w ≤ dec_val t w.
Proof.
  intros Ht. revert w. unfold dec_val.
  induction Ht as [|d t Hd _ IH]; intros w Hw; simpl; [lia|].
  etransitivity; [|apply IH; lia]. lia.
Qed.

Lemma parse_digits_from s v :
  Forall (λ c, 48 ≤ c ≤ 57) s → 0 ≤ v → dec_val s v ≤ U64_MAX →
  fold_left (fun acc c => v ← acc; if is_digit c then Some (u64 (v * 10 + (c - 48))) else None)
    s (Some v) = Some (dec_val s v).
Proof.
  intros Hs. revert v. induction Hs as [|c s Hc Hs IH]; intros v Hv Hb; [done|].
  change (dec_val (c :: s) v) with (dec_val s (v * 10 + (c - 48))) in *.
  pose proof (dec_val_mono s (v * 10 + (c - 48)) Hs ltac:(lia)).
  simpl. replace (is_digit c) with true by (unfold is_digit; lia).
  rewrite u64_small by lia. apply IH; [lia|done].
Qed.

Lemma parse_digits_to_string n : 0 ≤ n ≤ U64_MAX → parse_digits (to_string n) = Some n.
Proof.
  intros Hn. unfold parse_digits. rewrite parse_digits_from; [by rewrite to_string_val|..].
  - apply to_string_digits. lia.
  - lia.
  - rewrite to_string_val; lia.
Qed.

Section resp_element.
Context (data p arg rest : bytes).
Context (Hdata : data = p ++ EncodeBulk arg ++ rest).
Context (Hlen : zlen data < U64_MAX).

Let p1 := p ++ str "$".
Let p2 := p1 ++ to_string (zlen arg).
Let p3 := p2 ++ CRLF.
Let p4 := p3 ++ arg.

Lemma resp_splits :
  data = p ++ 36 :: to_string (zlen arg) ++ CRLF ++ arg ++ CRLF ++ rest ∧
  data = p1 ++ to_string (zlen arg) ++ CRLF ++ arg ++ CRLF ++ rest ∧
  data = p3 ++ arg ++ CRLF ++ rest ∧ data = p4 ++ 13 :: 10 :: rest ∧
  data = (p4 ++ [13]) ++ 10 :: rest.
Proof.
  rewrite Hdata. unfold p4, p3, p2, p1, EncodeBulk, CRLF.
  split_and!; rewrite <-?app_assoc; reflexivity.
Qed.

(** One round of the loop over a well-formed element. *)
Lemma parse_bulks_step n out :
  parse_bulks data (S n) (zlen p) out = parse_bulks data n (zlen (p ++ EncodeBulk arg)) (out ++ [arg]).
Proof.
  destruct resp_splits as (E1 & E2 & E3 & E4 & E5).
  pose proof (zlen_nonneg p). pose proof (zlen_nonneg rest). pose proof (zlen_nonneg arg).
  assert (zlen p1 = zlen p + 1) as L1 by (unfold p1; by rewrite zlen_app).
  assert (zlen p3 = zlen p2 + 2) as L3 by (unfold p3; by rewrite zlen_app).
  assert (zlen p4 = zlen p3 + zlen arg) as L4 by (unfold p4; by rewrite zlen_app).
  assert (zlen p2 = zlen p1 + zlen (to_string (zlen arg))) as L2 by (unfold p2; by rewrite zlen_app).
  assert (zlen (p ++ EncodeBulk arg) = zlen p4 + 2) as L5.
  { unfold EncodeBulk. rewrite L4, L3, L2, L1, !zlen_app. change (zlen (str "$")) with 1.
    change (zlen CRLF) with 2. lia. }
  assert (zlen data = zlen p4 + 2 + zlen rest) as Ld.
  { rewrite E4 at 1. rewrite zlen_app, !zlen_cons. lia. }
  pose proof (zlen_nonneg p1). pose proof (zlen_nonneg p2). pose proof (zlen_nonneg (to_string (zlen arg))).
  assert (byte_at data (zlen p) = 36) as B1 by (rewrite E1; apply byte_at_app).
  assert (find_from CRLF data (zlen p1) = Some (zlen p2)) as B2.
  { rewrite E2, L2. apply (find_from_first 13 [10] p1), to_string_ne; lia. }
  assert (substr data (zlen p1) (zlen p2 - zlen p1) = to_string (zlen arg)) as B3.
  { rewrite E2. replace (zlen p2 - zlen p1) with (zlen (to_string (zlen arg))) by lia. apply substr_app. }
  assert (substr data (zlen p3) (zlen arg) = arg) as B4 by (rewrite E3; apply substr_app).
  assert (byte_at data (zlen p4) = 13) as B5 by (rewrite E4; apply byte_at_app).
  assert (byte_at data (zlen p4 + 1) = 10) as B6.
  { replace (zlen p4 + 1) with (zlen (p4 ++ [13])) by (by rewrite zlen_app). rewrite E5. apply byte_at_app. }
  cbn [parse_bulks]. rewrite (u64_small (zlen p + 1)) by lia.
  rewrite (proj2 (Z.leb_gt (zlen data) (zlen p + 1))), B1 by lia. cbn [orb negb Z.eqb Pos.eqb].
  rewrite <-L1, B2, B3, parse_digits_to_string by lia. cbv zeta.
  rewrite <-L3, (u64_small (zlen p3 + zlen arg)), <-L4 by lia.
  rewrite (proj2 (Z.ltb_ge (zlen data) (zlen p4))), B4 by lia.
  rewrite (u64_small (zlen p4 + 2)), (proj2 (Z.ltb_ge (zlen data) (zlen p4 + 2))), B5, B6 by lia.
  by rewrite L5.
Qed.
End resp_element.

Lemma parse_bulks_all args : ∀ data p junk out n,
  data = p ++ concat (map EncodeBulk args) ++ junk → zlen data < U64_MAX →
  parse_bulks data (length args + n) (zlen p) out =
    parse_bulks data n (zlen (p ++ concat (map EncodeBulk args))) (out ++ args).
Proof.
  induction args as [|arg args IH]; intros data p junk out n Hd Hl; cbn [map concat length].
  - by rewrite !app_nil_r.
  - cbn [map concat] in Hd. rewrite <-app_assoc in Hd. rewrite Nat.add_succ_l.
    rewrite (parse_bulks_step _ _ _ _ Hd Hl).
    rewrite (IH data (p ++ EncodeBulk arg) junk) by (by rewrite <-?app_assoc).
    by rewrite <-!app_assoc.
Qed.

Lemma EncodeBulk_pos a : 1 ≤ zlen (EncodeBulk a).
Proof.
  unfold EncodeBulk. rewrite zlen_app. change (zlen (str "$")) with 1.
  pose proof (zlen_nonneg (to_string (zlen a) ++ CRLF ++ a ++ CRLF)). lia.
Qed.

(** An array header that announces [count] elements, of which [args] follow. *)
Definition resp_prefix (count : Z) (args : list bytes) : bytes :=
  str "*" ++ to_string count ++ CRLF ++ concat (map EncodeBulk args).

Lemma zlen_args_bound args : zlen args ≤ zlen (concat (map EncodeBulk args)).
Proof.
  induction args as [|a args IH]; cbn [map concat]; [done|].
  rewrite !zlen_cons, zlen_app. pose proof (EncodeBulk_pos a). lia.
Qed.

Lemma ParseRespArray_prefix args (k : nat) junk :
  let count := zlen args + Z.of_nat k in
  let data := resp_prefix count args ++ junk in
  count ≤ U64_MAX → zlen data < U64_MAX →
  ParseRespArray data = parse_bulks data k (zlen (resp_prefix count args)) args.
Proof.
  intros count data Hc Hl. set (p := str "*" ++ to_string count ++ CRLF).
  assert (resp_prefix count args = p ++ concat (map EncodeBulk args)) as Er
    by (unfold p, resp_prefix; by rewrite <-!app_assoc).
  assert (data = p ++ concat (map EncodeBulk args) ++ junk) as Ed
    by (unfold data; by rewrite Er, <-!app_assoc).
  assert (data = str "*" ++ to_string count ++ CRLF ++ concat (map EncodeBulk args) ++ junk) as Ed'
    by (rewrite Ed; unfold p; by rewrite <-!app_assoc).
  assert (0 ≤ count) by (unfold count; pose proof (zlen_nonneg args); lia).
  assert (byte_at data 0 = 42) as B1 by (by rewrite Ed').
  assert (find_from CRLF data 1 = Some (1 + zlen (to_string count))) as B2.
  { rewrite Ed'. apply (find_from_first 13 [10] (str "*")), to_string_ne; lia. }
  assert (substr data 1 (zlen (to_string count)) = to_string count) as B3
    by (rewrite Ed'; apply (substr_app (str "*"))).
  unfold ParseRespArray. rewrite bool_decide_false by (by rewrite Ed').
  rewrite B1, B2. cbn [orb negb Z.eqb Pos.eqb].
  replace (1 + zlen (to_string count) - 1) with (zlen (to_string count)) by lia.
  rewrite B3, parse_digits_to_string by lia.
  replace (Z.to_nat count) with (length args + k)%nat by (unfold count, zlen; lia).
  replace (1 + zlen (to_string count) + 2) with (zlen p).
  - rewrite (parse_bulks_all args data p junk) by done. by rewrite Er.
  - unfold p. rewrite !zlen_app. change (zlen CRLF) with 2. change (zlen (str "*")) with 1. lia.
Qed.

Lemma ParseRespArray_Encode args junk :
  zlen (EncodeRespArray args ++ junk) < U64_MAX →
  ParseRespArray (EncodeRespArray args ++ junk) = (true, args).
Proof.
  intros Hl. pose proof (ParseRespArray_prefix args 0 junk) as E. simpl in E.
  rewrite Z.add_0_r in E. apply E; [|done].
  unfold EncodeRespArray in Hl. rewrite !zlen_app in Hl. pose proof (zlen_args_bound args).
  pose proof (zlen_nonneg junk). pose proof (zlen_nonneg (to_string (zlen args))).
  change (zlen (str "*")) with 1 in Hl. change (zlen CRLF) with 2 in Hl. lia.
Qed.

(** C31. A client command stored in the log is applied as it was submitted:
    parsing its RESP encoding gives back the same arguments (keys and values of
    any bytes) and the same type. *)
Theorem ReplicatedCommand_roundtrip (cmd : ReplicatedCommand) :
  rc_type cmd = command_type (rc_args cmd) →
  zlen (ReplicatedCommand_Serialize cmd) < U64_MAX →
  ReplicatedCommand_Deserialize (ReplicatedCommand_Serialize cmd) = cmd.
Proof.
  destruct cmd as [ty args]. unfold ReplicatedCommand_Deserialize, ReplicatedCommand_Serialize.
  simpl. intros Ht Hl. pose proof (ParseRespArray_Encode args []) as E. rewrite app_nil_r in E.
  rewrite E by done. by rewrite Ht.
Qed.

Lemma ReplicatedCommand_roundtrip_witness :
  let cmd := mkReplicatedCommand DEL [str "DEL"; [13; 10; 0; 36; 32]; []] in
  ReplicatedCommand_Deserialize (ReplicatedCommand_Serialize cmd) = cmd.
Proof. apply ReplicatedCommand_roundtrip; by_compute. Defined.

(** An array that ends before the announced number of elements is rejected, but
    the elements read so far stay in [*out], which the comment on
    [ParseRespArray] says is left empty. *)
Lemma ParseRespArray_truncated (args : list bytes) :
  let data := resp_prefix (zlen args + 1) args in
  zlen data < U64_MAX → ParseRespArray data = (false, args).
Proof.
  intros data Hl. pose proof (ParseRespArray_prefix args 1 []) as E.
  cbv zeta in E. change (Z.of_nat 1) with 1 in E. rewrite app_nil_r in E. fold data in E. rewrite E; [|..|done].
  - pose proof (zlen_nonneg data). cbn [parse_bulks]. rewrite u64_small by lia.
    by rewrite (proj2 (Z.leb_le (zlen data) (zlen data + 1))) by lia.
  - unfold data, resp_prefix in Hl. rewrite !zlen_app in Hl. pose proof (zlen_args_bound args).
    pose proof (zlen_nonneg (to_string (zlen args + 1))).
    change (zlen (str "*")) with 1 in Hl. change (zlen CRLF) with 2 in Hl. lia.
Qed.

(** ** Configuration change round trip *)

(** A node id that the space-separated format can hold. *)
Definition token (id : bytes) : Prop := id ≠ [] ∧ Forall (λ c, c ≠ 32) id.

Definition spaced (ts : list bytes) : bytes :=
  match ts with
  | [] => []
  | t :: ts' => t ++ concat (map (cons 32) ts')
  end.

Lemma next_token_spaced t ts : token t → next_token (spaced (t :: ts)) = (t, spaced ts).
Proof.
  intros [Hne Ht]. assert (∀ r, next_token (t ++ r) =
    match find_nat [32] (t ++ r) with
    | None => (t ++ r, []) | Some k => (take k (t ++ r), drop (k + 1) (t ++ r)) end) as E
    by (intros; by destruct t).
  unfold spaced at 1. rewrite E. destruct ts as [|t' ts]; simpl.
  - rewrite app_nil_r. by rewrite find_nat_none.
  - pose proof (find_nat_first 32 [] t (t' ++ concat (map (cons 32) ts)) Ht) as F.
    cbn [app] in F. rewrite F, take_app_length.
    rewrite (cons_middle 32 t), app_assoc, drop_app_length'; [done|].
    rewrite length_app. simpl. lia.
Qed.

Lemma token_to_string n : 0 ≤ n → token (to_string n).
Proof.
  intros Hn. split; [|apply to_string_ne; lia].
  destruct (to_string_cons n) as (c & s & E). by rewrite E.
Qed.

Lemma next_ids_spaced ids : ∀ ts out,
  Forall token ids →
  next_ids (length ids) (spaced (ids ++ ts)) out = (list_to_set ids ∪ out, spaced ts).
Proof.
  induction ids as [|id ids IH]; intros ts out Hids; cbn [length next_ids app].
  - by rewrite list_to_set_nil, union_empty_l_L.
  - inversion Hids as [|? ? Hid Hids']; subst. rewrite next_token_spaced by done.
    rewrite bool_decide_false by apply Hid. rewrite IH by done. f_equal. simpl.
    by rewrite (assoc_L (∪)), (comm_L (∪) (list_to_set ids)).
Qed.

Lemma parse_ids_spaced (vs : gset NodeId) ts :
  set_Forall token vs → zlen (elements vs) ≤ U64_MAX →
  parse_ids (spaced (to_string (zlen (elements vs)) :: elements vs ++ ts)) = Some (vs, spaced ts).
Proof.
  intros Hv Hz. pose proof (zlen_nonneg (elements vs)). unfold parse_ids.
  rewrite next_token_spaced by (by apply token_to_string).
  rewrite bool_decide_false by (by apply token_to_string).
  rewrite stoull_to_string by lia. cbn.
  replace (Z.to_nat (zlen (elements vs))) with (length (elements vs)) by (unfold zlen; lia).
  rewrite next_ids_spaced.
  - by rewrite union_empty_r_L, list_to_set_elements_L.
  - apply Forall_forall. intros. by apply Hv, elem_of_elements.
Qed.

Lemma ConfigChange_Serialize_spaced target :
  ConfigChange_Serialize target =
    spaced (str "CONFIG_CHANGE" :: to_string (cc_version target) ::
      to_string (zlen (elements (cc_voters target))) :: elements (cc_voters target) ++
      to_string (zlen (elements (cc_learners target))) :: elements (cc_learners target)).
Proof.
  unfold ConfigChange_Serialize. cbn [spaced map concat].
  change (str "CONFIG_CHANGE ") with (str "CONFIG_CHANGE" ++ [32]). change (str " ") with [32].
  rewrite map_app, concat_app. cbn [map concat]. by rewrite <-!app_assoc.
Qed.

(** A configuration change stored in the log is applied with the voters,
    learners and version it was proposed with. *)
Theorem ConfigChange_roundtrip (target : ClusterConfig) :
  0 ≤ cc_version target ≤ U64_MAX →
  set_Forall token (cc_voters target) → set_Forall token (cc_learners target) →
  zlen (elements (cc_voters target)) ≤ U64_MAX → zlen (elements (cc_learners target)) ≤ U64_MAX →
  ConfigChange_Deserialize (ConfigChange_Serialize target) = Some target.
Proof.
  intros Hver Hv Hl Hnv Hnl. rewrite ConfigChange_Serialize_spaced. unfold ConfigChange_Deserialize.
  rewrite next_token_spaced by by_decide.
  rewrite next_token_spaced by (apply token_to_string; lia).
  rewrite bool_decide_false by (apply token_to_string; lia).
  rewrite stoull_to_string by done. cbn [mbind option_bind].
  rewrite parse_ids_spaced by done. cbn [mbind option_bind].
  pose proof (parse_ids_spaced (cc_learners target) [] Hl Hnl) as E. rewrite app_nil_r in E.
  rewrite E. cbn. by destruct target.
Qed.

Lemma ConfigChange_roundtrip_witness :
  let target := mkClusterConfig 3 {[ str "n1"; str "n2" ]} {[ str "n9" ]} in
  ConfigChange_Deserialize (ConfigChange_Serialize target) = Some target.
Proof. apply ConfigChange_roundtrip; by_decide. Defined.
