(* ===== verification/Aof.v ===== *)
(** * The append-only file (src/server/persistence, service/main_service.cc)

    The AOF of the classic single-node mode: the record format
    (command_serializer.cc), the writer (aof_writer.cc, persistence_manager.cc)
    and the parser that recovers the commands at start-up ([ParseRespCommands]
    of main_service.cc).  Theorems: whatever prefix of the file survives a crash,
    exactly the commands whose records are complete are recovered, and a torn
    record is reported; what happens when the file is appended to behind a torn
    record. *)

From S2P Require Import Prelude Absl CommandEncoder.

(** ** Writing *)

Definition CommandSerializer_Serialize (args : list bytes) : bytes :=
  fold_left (λ result arg, result ++ str "$" ++ to_string (zlen arg) ++ CRLF ++ arg ++ CRLF)
    args (str "*" ++ to_string (zlen args) ++ CRLF).

(** [aw_file] is the content of the file [Open] opened for appending;
    [aw_accepted] gives the number of bytes the next calls of [fwrite] accept
    (all of them once the list is empty). *)
Record AofWriter : Type := mkAofWriter {
  aw_file : bytes;
  aw_buf : bytes;
  aw_accepted : list Z
}.
#[export] Instance AofWriter_eta : Eta AofWriter := fun w =>
  mkAofWriter (aw_file w) (aw_buf w) (aw_accepted w).

(** [fopen(path, "a")] keeps what the file holds. *)
Definition AofWriter_Open (content : bytes) : AofWriter := mkAofWriter content [] [].

Definition AofWriter_Append (w : AofWriter) (record : bytes) : AofWriter :=
  w <| aw_buf ::= λ b, b ++ record |>.

(** A short write is only logged; the buffer is cleared all the same. *)
Definition AofWriter_Flush (w : AofWriter) : AofWriter :=
  if bool_decide (aw_buf w = []) then w
  else
    let written := match aw_accepted w with k :: _ => Z.to_nat k | [] => length (aw_buf w) end in
    w <| aw_file ::= λ f, f ++ take written (aw_buf w) |> <| aw_accepted ::= tail |> <| aw_buf := [] |>.

Definition RecordCommand (w : AofWriter) (args : list bytes) : AofWriter :=
  AofWriter_Flush (AofWriter_Append w (CommandSerializer_Serialize args)).

(** [PersistenceManager::Load] of a file with this content. *)
Definition AofLoad (file : option bytes) : option bytes :=
  match file with
  | None => None
  | Some content => if zlen content <=? 0 then None else Some content
  end.

(** ** Parsing *)

Record AofParseResult : Type := mkAofParseResult {
  apr_commands : list (list bytes);
  apr_ok : bool;
  apr_error_pos : Z;
  apr_error_msg : bytes
}.
#[export] Instance AofParseResult_eta : Eta AofParseResult := fun r =>
  mkAofParseResult (apr_commands r) (apr_ok r) (apr_error_pos r) (apr_error_msg r).

(** What [fail(at, msg)] records. *)
Definition AofError : Type := Z * bytes.

Section parse.
Context {absl : Absl}.
Implicit Types (content : bytes) (pos : Z).

Definition at_offset (msg : bytes) pos : bytes := msg ++ str " at offset " ++ to_string pos.

(** The decimal number at [pos] and the position behind its line end. *)
Definition read_length content pos (unterminated invalid : bytes) : AofError + Z * Z :=
  match find_from CRLF content pos with
  | None => inl (pos, unterminated)
  | Some e =>
      match atoi32 (substr content pos (e - pos)) with
      | None => inl (pos, at_offset invalid pos)
      | Some v => if v <? 0 then inl (pos, at_offset invalid pos) else inr (v, e + 2)
      end
  end.

Definition read_bulk content pos : AofError + bytes * Z :=
  if (zlen content <=? pos) || negb (byte_at content pos =? 36) then
    inl (pos, at_offset (str "expected '$' (bulk string)") pos)
  else match read_length content (pos + 1) (str "unterminated bulk length") (str "invalid bulk length") with
  | inl err => inl err
  | inr (len, pos) =>
      if zlen content <? pos + len then
        inl (pos, at_offset (str "truncated bulk payload") pos ++ str " (need " ++ to_string len ++
                  str " bytes, have " ++ to_string (zlen content - pos) ++ str ")")
      else
        let arg := substr content pos len in
        let pos := pos + len in
        if (zlen content <? pos + 2) || negb (byte_at content pos =? 13) ||
           negb (byte_at content (pos + 1) =? 10)
        then inl (pos, at_offset (str "missing CRLF after bulk payload") pos)
        else inr (arg, pos + 2)
  end.

(** The loop over [n] more elements. *)
Fixpoint read_bulks content (n : nat) pos (args : list bytes) : AofError + list bytes * Z :=
  match n with
  | O => inr (args, pos)
  | S n =>
      match read_bulk content pos with
      | inl err => inl err
      | inr (arg, pos) => read_bulks content n pos (args ++ [arg])
      end
  end.

Definition read_command content pos : AofError + list bytes * Z :=
  if negb (byte_at content pos =? 42) then inl (pos, at_offset (str "expected '*' (RESP array)") pos)
  else match read_length content (pos + 1) (str "unterminated array length") (str "invalid array length") with
  | inl err => inl err
  | inr (argc, pos) => read_bulks content (Z.to_nat argc) pos []
  end.

(** Every turn of the loop advances [pos]. *)
Fixpoint read_commands (fuel : nat) content pos (commands : list (list bytes)) : AofParseResult :=
  match fuel with
  | O => mkAofParseResult commands true 0 []
  | S fuel =>
      if zlen content <=? pos then mkAofParseResult commands true 0 []
      else if (byte_at content pos =? 13) || (byte_at content pos =? 10) then
        let both := (byte_at content pos =? 13) && (pos + 1 <? zlen content) && (byte_at content (pos + 1) =? 10) in
        read_commands fuel content (pos + if both then 2 else 1) commands
      else match read_command content pos with
      | inl (at_, msg) => mkAofParseResult commands false at_ msg
      | inr (args, pos) =>
          read_commands fuel content pos (if bool_decide (args = []) then commands else commands ++ [args])
      end
  end.

Definition ParseRespCommands content : AofParseResult := read_commands (length content) content 0 [].
End parse.

(** ** The record format *)

Lemma Serialize_array args : CommandSerializer_Serialize args = EncodeRespArray args.
Proof.
  unfold CommandSerializer_Serialize, EncodeRespArray.
  assert (∀ acc, fold_left (λ result arg, result ++ str "$" ++ to_string (zlen arg) ++ CRLF ++ arg ++ CRLF) args acc
                 = acc ++ concat (map EncodeBulk args)) as H.
  { induction args as [|a args IH]; intros acc; cbn [fold_left map concat]; [by rewrite app_nil_r|].
    rewrite IH, <-app_assoc. done. }
  rewrite H. by rewrite <-!app_assoc.
Qed.

(** A command whose record the parser accepts: not empty, with an [int]-sized
    number of arguments of [int] size. *)
Record loggable (args : list bytes) : Prop := {
  lg_nonempty : args ≠ [];
  lg_count : zlen args ≤ INT32_MAX;
  lg_sizes : Forall (λ a, zlen a ≤ INT32_MAX) args
}.

(** [q] is [s] cut short. *)
Definition torn (q s : bytes) : Prop := ∃ c t, s = q ++ c :: t.

Lemma torn_app q a b : torn q (a ++ b) → torn q a ∨ ∃ q', q = a ++ q' ∧ torn q' b.
Proof.
  revert q. induction a as [|x a IH]; intros q (c & t & E).
  - right. exists q. split; [done|]. by exists c, t.
  - destruct q as [|y q]; [left; by exists x, a|]. simpl in E. injection E as -> E.
    destruct (IH q) as [(c' & t' & ->)|(q' & -> & Hq)]; [by exists c, t| |].
    + left. by exists c', t'.
    + right. by exists q'.
Qed.

Lemma torn_nil q : ¬ torn q [].
Proof. intros (c & t & E). by destruct q. Qed.

Lemma torn_zlen q s : torn q s → zlen q < zlen s.
Proof. intros (c & t & ->). rewrite zlen_app, zlen_cons. pose proof (zlen_nonneg t). lia. Qed.

(** A line cut short has no line end. *)
Lemma find_torn_line p q ds :
  Forall (λ x, x ≠ 13) ds → torn q (ds ++ CRLF) → find_from CRLF (p ++ q) (zlen p) = None.
Proof.
  intros Hds Hq. rewrite find_from_app.
  assert (find_nat CRLF q = None) as ->; [|done].
  destruct (torn_app _ _ _ Hq) as [(c & t & E)|(q' & -> & Hq')].
  - apply find_nat_none. rewrite E in Hds. by apply Forall_app in Hds as [??].
  - assert (q' = [] ∨ q' = [13]) as Hcases.
    { destruct Hq' as (c & t & E). unfold CRLF in E. destruct q' as [|x [|y q']]; [by left|right; by simplify_eq/=|].
      simplify_eq/=. by destruct q'. }
    clear Hq Hq'. induction Hds as [|x ds Hx Hds IH].
    + destruct Hcases as [-> | ->]; by vm_compute.
    + cbn [app find_nat]. rewrite bool_decide_false; [by rewrite IH|]. intros [k Hk]. by simplify_eq/=.
Qed.

Section recovery.
Context {absl : Absl} `{!AbslSpec absl}.
Implicit Types (p q rest : bytes).

Lemma read_length_line p (n : Z) rest u i :
  0 ≤ n ≤ INT32_MAX →
  read_length (p ++ to_string n ++ CRLF ++ rest) (zlen p) u i = inr (n, zlen (p ++ to_string n ++ CRLF)).
Proof.
  intros Hn. unfold read_length, CRLF at 1 2.
  rewrite (find_from_first 13 [10] p) by (apply to_string_ne; lia).
  replace (zlen p + zlen (to_string n) - zlen p) with (zlen (to_string n)) by lia.
  rewrite substr_app, atoi_to_string by (unfold U64_MAX, INT32_MAX, INT32_MIN in *; lia).
  rewrite (proj2 (Z.ltb_ge n 0)) by lia. do 2 f_equal. rewrite !zlen_app. change (zlen CRLF) with 2. lia.
Qed.

Lemma read_length_torn p q n u i :
  0 ≤ n → torn q (to_string n ++ CRLF) → read_length (p ++ q) (zlen p) u i = inl (zlen p, u).
Proof.
  intros Hn Hq. unfold read_length. rewrite (find_torn_line p q (to_string n)); [done| |done].
  apply to_string_ne; lia.
Qed.

(** A complete element is read. *)
Lemma read_bulk_line p arg rest :
  zlen arg ≤ INT32_MAX →
  read_bulk (p ++ EncodeBulk arg ++ rest) (zlen p) = inr (arg, zlen (p ++ EncodeBulk arg)).
Proof.
  intros Ha. pose proof (zlen_nonneg arg). pose proof (zlen_nonneg rest). pose proof (zlen_nonneg p).
  set (p1 := p ++ str "$"). set (p2 := p1 ++ to_string (zlen arg) ++ CRLF). set (p3 := p2 ++ arg).
  assert (p ++ EncodeBulk arg ++ rest = p ++ 36 :: (to_string (zlen arg) ++ CRLF ++ arg ++ CRLF ++ rest)) as E0
    by (unfold EncodeBulk; by rewrite <-!app_assoc).
  assert (p ++ EncodeBulk arg ++ rest = p1 ++ to_string (zlen arg) ++ CRLF ++ (arg ++ CRLF ++ rest)) as E1
    by (rewrite E0; unfold p1; by rewrite <-!app_assoc).
  assert (p ++ EncodeBulk arg ++ rest = p2 ++ arg ++ (CRLF ++ rest)) as E2
    by (rewrite E1; unfold p2; by rewrite <-!app_assoc).
  assert (p ++ EncodeBulk arg ++ rest = p3 ++ 13 :: 10 :: rest) as E3
    by (rewrite E2; unfold p3; by rewrite <-!app_assoc).
  assert (zlen (p ++ EncodeBulk arg ++ rest) = zlen p3 + 2 + zlen rest) as El
    by (rewrite E3, zlen_app, !zlen_cons; lia).
  assert (zlen p3 = zlen p2 + zlen arg) as L3 by apply zlen_app.
  assert (zlen p1 = zlen p + 1) as L1 by apply zlen_app.
  assert (zlen p1 ≤ zlen p2) as L2.
  { unfold p2. rewrite zlen_app. pose proof (zlen_nonneg (to_string (zlen arg) ++ CRLF)). lia. }
  set (data := p ++ EncodeBulk arg ++ rest) in *.
  assert (byte_at data (zlen p) = 36) as B1 by (rewrite E0; apply byte_at_app).
  assert (substr data (zlen p2) (zlen arg) = arg) as B2 by (rewrite E2; apply substr_app).
  assert (byte_at data (zlen p3) = 13) as B3 by (rewrite E3; apply byte_at_app).
  assert (byte_at data (zlen p3 + 1) = 10) as B4.
  { rewrite E3, byte_at_app_at by lia. by replace (zlen p3 + 1 - zlen p3) with 1 by lia. }
  unfold read_bulk. rewrite El, (proj2 (Z.leb_gt _ (zlen p))), B1, <-L1 by lia.
  cbn [orb negb Z.eqb Pos.eqb]. rewrite E1 at 1. rewrite read_length_line by lia. fold p2.
  rewrite (proj2 (Z.ltb_ge _ (zlen p2 + zlen arg))), B2 by lia. cbv zeta.
  rewrite <-L3, (proj2 (Z.ltb_ge _ (zlen p3 + 2))), B3, B4 by lia.
  cbn [orb negb Z.eqb Pos.eqb]. do 2 f_equal. unfold p3, p2, p1, EncodeBulk. rewrite !zlen_app.
  change (zlen CRLF) with 2. lia.
Qed.

(** An element cut short is an error. *)
Lemma read_bulk_torn p q arg :
  zlen arg ≤ INT32_MAX → torn q (EncodeBulk arg) → ∃ err, read_bulk (p ++ q) (zlen p) = inl err.
Proof.
  intros Ha Hq. pose proof (zlen_nonneg arg). pose proof (zlen_nonneg p). unfold read_bulk. rewrite zlen_app.
  unfold EncodeBulk in Hq. apply torn_app in Hq as [Hq|(q1 & -> & Hq)].
  { apply torn_zlen in Hq. change (zlen (str "$")) with 1 in Hq. pose proof (zlen_nonneg q).
    rewrite (proj2 (Z.leb_le _ (zlen p))) by lia. eauto. }
  pose proof (zlen_nonneg q1). rewrite zlen_app. change (zlen (str "$")) with 1.
  rewrite (proj2 (Z.leb_gt _ (zlen p))) by lia. change (str "$" ++ q1) with (36 :: q1).
  rewrite byte_at_app. cbn [orb negb Z.eqb Pos.eqb].
  set (p1 := p ++ [36]). assert (p ++ 36 :: q1 = p1 ++ q1) as -> by (unfold p1; by rewrite <-app_assoc).
  assert (zlen p + 1 = zlen p1) as -> by (unfold p1; by rewrite zlen_app).
  rewrite app_assoc in Hq. apply torn_app in Hq as [Hq|(q2 & -> & Hq)].
  { rewrite (read_length_torn p1 q1 (zlen arg)) by done. eauto. }
  rewrite <-(app_assoc _ CRLF q2), read_length_line by lia. set (p2 := p1 ++ to_string (zlen arg) ++ CRLF).
  assert (p1 ++ to_string (zlen arg) ++ CRLF ++ q2 = p2 ++ q2) as -> by (unfold p2; by rewrite <-!app_assoc).
  assert (zlen p + (1 + zlen (to_string (zlen arg) ++ CRLF ++ q2)) = zlen p2 + zlen q2) as ->.
  { unfold p2, p1. rewrite !zlen_app. change (zlen [36]) with 1. lia. }
  pose proof (torn_zlen _ _ Hq) as Hlt. rewrite zlen_app in Hlt. change (zlen CRLF) with 2 in Hlt.
  case_match; [eauto|]. cbv zeta.
  rewrite (proj2 (Z.ltb_lt (zlen p2 + zlen q2) _)) by lia. cbn [orb]. eauto.
Qed.

Lemma read_bulks_lines args : ∀ p rest acc,
  Forall (λ a, zlen a ≤ INT32_MAX) args →
  read_bulks (p ++ concat (map EncodeBulk args) ++ rest) (length args) (zlen p) acc =
    inr (acc ++ args, zlen (p ++ concat (map EncodeBulk args))).
Proof.
  induction args as [|a args IH]; intros p rest acc Ha; cbn [map concat length read_bulks].
  - by rewrite !app_nil_r.
  - apply Forall_cons in Ha as [Ha Hs]. rewrite <-!app_assoc, read_bulk_line by done.
    rewrite !app_assoc, <-(app_assoc _ _ rest). rewrite (IH (p ++ EncodeBulk a) rest) by done.
    by rewrite <-!app_assoc.
Qed.

Lemma read_bulks_torn args : ∀ p q acc,
  Forall (λ a, zlen a ≤ INT32_MAX) args → torn q (concat (map EncodeBulk args)) →
  ∃ err, read_bulks (p ++ q) (length args) (zlen p) acc = inl err.
Proof.
  induction args as [|a args IH]; intros p q acc Ha Hq; cbn [map concat length read_bulks] in *.
  - by apply torn_nil in Hq.
  - apply Forall_cons in Ha as [Ha Hs]. apply torn_app in Hq as [Hq|(q' & -> & Hq)].
    + destruct (read_bulk_torn p q a Ha Hq) as [err ->]. eauto.
    + rewrite read_bulk_line by done. rewrite app_assoc. by apply IH.
Qed.

Lemma read_command_line p args rest :
  loggable args →
  read_command (p ++ CommandSerializer_Serialize args ++ rest) (zlen p) =
    inr (args, zlen (p ++ CommandSerializer_Serialize args)).
Proof.
  intros [_ Hc Hs]. rewrite Serialize_array. unfold read_command, EncodeRespArray.
  pose proof (zlen_nonneg args). rewrite <-!app_assoc. change (str "*" ++ ?x) with (42 :: x) at 1.
  rewrite byte_at_app. cbn [negb Z.eqb Pos.eqb].
  set (p1 := p ++ str "*"). assert (zlen p + 1 = zlen p1) as -> by (unfold p1; by rewrite zlen_app).
  assert (∀ x, p ++ str "*" ++ x = p1 ++ x) as -> by (intros; unfold p1; by rewrite <-app_assoc).
  rewrite read_length_line by lia. set (p2 := p1 ++ to_string (zlen args) ++ CRLF).
  assert (∀ x, p1 ++ to_string (zlen args) ++ CRLF ++ x = p2 ++ x) as -> by (intros; unfold p2; by rewrite <-!app_assoc).
  rewrite to_nat_zlen, read_bulks_lines by done. do 2 f_equal. unfold p2, p1. by rewrite <-!app_assoc.
Qed.

Lemma read_command_torn p q args :
  loggable args → torn q (CommandSerializer_Serialize args) → q ≠ [] →
  ∃ err, read_command (p ++ q) (zlen p) = inl err.
Proof.
  intros [_ Hc Hs] Hq Hne. rewrite Serialize_array in Hq. unfold read_command, EncodeRespArray in *.
  pose proof (zlen_nonneg args). apply torn_app in Hq as [Hq|(q1 & -> & Hq)].
  { apply torn_zlen in Hq. change (zlen (str "*")) with 1 in Hq. destruct q; [done|].
    rewrite zlen_cons in Hq. pose proof (zlen_nonneg q). lia. }
  change (str "*" ++ q1) with (42 :: q1). rewrite byte_at_app. cbn [negb Z.eqb Pos.eqb].
  set (p1 := p ++ [42]). assert (p ++ 42 :: q1 = p1 ++ q1) as -> by (unfold p1; by rewrite <-app_assoc).
  assert (zlen p + 1 = zlen p1) as -> by (unfold p1; by rewrite zlen_app).
  rewrite app_assoc in Hq. apply torn_app in Hq as [Hq|(q2 & -> & Hq)].
  { rewrite (read_length_torn p1 q1 (zlen args)) by done. eauto. }
  rewrite <-(app_assoc _ CRLF q2), read_length_line by lia. rewrite to_nat_zlen.
  set (p2 := p1 ++ to_string (zlen args) ++ CRLF).
  assert (p1 ++ to_string (zlen args) ++ CRLF ++ q2 = p2 ++ q2) as -> by (unfold p2; by rewrite <-!app_assoc).
  by apply read_bulks_torn.
Qed.

Definition records (cmds : list (list bytes)) : bytes := concat (map CommandSerializer_Serialize cmds).

Lemma Serialize_star args : ∃ t, CommandSerializer_Serialize args = 42 :: t.
Proof. rewrite Serialize_array. by eexists. Qed.

(** A turn of the loop at the first byte [42] of a record. *)
Lemma read_commands_star fuel p t acc :
  read_commands (S fuel) (p ++ 42 :: t) (zlen p) acc =
  match read_command (p ++ 42 :: t) (zlen p) with
  | inl (at_, msg) => mkAofParseResult acc false at_ msg
  | inr (args, pos) =>
      read_commands fuel (p ++ 42 :: t) pos (if bool_decide (args = []) then acc else acc ++ [args])
  end.
Proof.
  cbn [read_commands]. rewrite zlen_app, zlen_cons. pose proof (zlen_nonneg t).
  rewrite (proj2 (Z.leb_gt _ (zlen p))) by lia. by rewrite byte_at_app.
Qed.

Lemma read_commands_lines cmds : ∀ fuel p q acc c,
  Forall loggable cmds → loggable c → torn q (CommandSerializer_Serialize c) →
  (length cmds < fuel)%nat ∨ q = [] ∧ (length cmds ≤ fuel)%nat →
  let r := read_commands fuel (p ++ records cmds ++ q) (zlen p) acc in
  apr_commands r = acc ++ cmds ∧ apr_ok r = bool_decide (q = []).
Proof.
  induction cmds as [|args cmds IH]; intros fuel p q acc c Hcs Hc Hq Hf.
  - change (records []) with (@nil Z). cbn [app length] in *. rewrite app_nil_r.
    destruct (decide (q = [])) as [->|Hne].
    + rewrite app_nil_r. destruct fuel; [done|]. cbn [read_commands]. by rewrite Z.leb_refl.
    + rewrite bool_decide_false by done. destruct fuel as [|fuel]; [by destruct Hf as [Hf%Nat.nlt_0_r|[-> _]]|].
      destruct (read_command_torn p q c Hc Hq Hne) as [[at_ msg] E].
      destruct (Serialize_star c) as [t Et]. destruct Hq as (x & y & Exy). destruct q as [|b q]; [done|].
      rewrite Et in Exy. injection Exy as <- _. rewrite read_commands_star, E. done.
  - apply Forall_cons in Hcs as [Ha Hcs]. cbn [length] in Hf. destruct fuel as [|fuel]; [lia|].
    unfold records. cbn [map concat]. fold (records cmds). rewrite <-app_assoc.
    pose proof (read_command_line p args (records cmds ++ q) Ha) as E.
    destruct (Serialize_star args) as [t Et]. rewrite Et in *. cbn [app] in *.
    rewrite read_commands_star, E, bool_decide_false by apply (lg_nonempty _ Ha).
    pose proof (IH fuel (p ++ 42 :: t) q (acc ++ [args]) c Hcs Hc Hq) as H.
    rewrite <-!app_assoc in H. cbn [app] in H. apply H.
    destruct Hf as [Hf|[-> Hf]]; [left|right; split; [done|]]; lia.
Qed.

Lemma records_length cmds : (length cmds ≤ length (records cmds))%nat.
Proof.
  induction cmds as [|c cmds IH]; [done|]. unfold records. cbn [map concat length]. fold (records cmds).
  destruct (Serialize_star c) as [t ->]. rewrite length_app. simpl. lia.
Qed.

Lemma ParseRespCommands_torn cmds c q :
  Forall loggable cmds → loggable c → torn q (CommandSerializer_Serialize c) →
  let r := ParseRespCommands (records cmds ++ q) in
  apr_commands r = cmds ∧ apr_ok r = bool_decide (q = []).
Proof.
  intros Hcs Hc Hq. unfold ParseRespCommands.
  apply (read_commands_lines cmds (length (records cmds ++ q)) [] q [] c Hcs Hc Hq).
  rewrite length_app. pose proof (records_length cmds). destruct q; simpl; [right; split; [done|lia]|left; lia].
Qed.

Lemma torn_self_nil s : s ≠ [] → torn [] s.
Proof. destruct s as [|c t]; [done|]. by exists c, t. Qed.

Lemma CommandSerializer_nonempty c : CommandSerializer_Serialize c ≠ [].
Proof. by destruct (Serialize_star c) as [t ->]. Qed.

(** A prefix of the file is a number of records and a part of the next one. *)
Lemma take_records cmds : ∀ k, (k < length (records cmds))%nat →
  ∃ (d : list (list bytes)) c later q, cmds = d ++ c :: later ∧ take k (records cmds) = records d ++ q ∧
    torn q (CommandSerializer_Serialize c).
Proof.
  induction cmds as [|c cmds IH]; intros k Hk; [simpl in Hk; lia|].
  assert (records (c :: cmds) = CommandSerializer_Serialize c ++ records cmds) as E by done.
  rewrite E in *. rewrite length_app in Hk.
  destruct (decide (k < length (CommandSerializer_Serialize c))%nat) as [Hlt|Hge].
  - exists [], c, cmds, (take k (CommandSerializer_Serialize c)). split; [done|].
    rewrite take_app_le by lia. split; [done|].
    destruct (drop k (CommandSerializer_Serialize c)) as [|x t] eqn:Ed.
    { apply (f_equal length) in Ed. rewrite length_drop in Ed. simpl in Ed. lia. }
    exists x, t. by rewrite <-Ed, take_drop.
  - destruct (IH (k - length (CommandSerializer_Serialize c))%nat) as (d & c' & rest & q & -> & Et & Hq); [lia|].
    exists (c :: d), c', rest, q. split; [done|]. split; [|done].
    rewrite take_app_ge, Et by lia. by rewrite app_assoc.
Qed.

Lemma ParseRespCommands_prefix cmds k :
  Forall loggable cmds →
  let r := ParseRespCommands (take k (records cmds)) in
  ∃ j, apr_commands r = take j cmds ∧ records (take j cmds) `prefix_of` take k (records cmds) ∧
    ((j < length cmds)%nat → ¬ records (take (S j) cmds) `prefix_of` take k (records cmds)) ∧
    (apr_ok r = true ↔ take k (records cmds) = records (take j cmds)).
Proof.
  intros Hcs r. destruct (decide (k < length (records cmds))%nat) as [Hlt|Hge].
  - destruct (take_records cmds k Hlt) as (d & c & rest & q & -> & Et & Hq).
    apply Forall_app in Hcs as [Hd [Hc _]%Forall_cons].
    destruct (ParseRespCommands_torn d c q Hd Hc Hq) as [E1 E2].
    exists (length d). unfold r. rewrite Et, E1, E2, take_app_length. split; [done|].
    split; [by eexists|]. split.
    + intros _ [x Hx]. replace (S (length d)) with (length (d ++ [c])) in Hx by (rewrite length_app; simpl; lia).
      change (c :: rest) with ([c] ++ rest) in Hx. rewrite app_assoc, take_app_length in Hx.
      unfold records in Hx. rewrite map_app, concat_app, <-app_assoc in Hx. apply app_inv_head in Hx.
      cbn [map concat] in Hx. apply torn_zlen in Hq. rewrite Hx, app_nil_r, zlen_app in Hq.
      pose proof (zlen_nonneg x). lia.
    + rewrite bool_decide_eq_true. split; [by intros ->; rewrite app_nil_r|].
      intros Hx. rewrite <-(app_nil_r (records d)) in Hx at 2. by apply app_inv_head in Hx.
  - rewrite take_ge in * by lia. exists (length cmds). rewrite firstn_all.
    destruct cmds as [|c cmds].
    { unfold r. change (records []) with (@nil Z). rewrite ?take_nil. split_and!; [done..|simpl; lia|done]. }
    pose proof (Forall_inv Hcs) as Hc.
    destruct (ParseRespCommands_torn (c :: cmds) c [] Hcs Hc) as [E1 E2];
      [apply torn_self_nil, CommandSerializer_nonempty|].
    unfold r. rewrite take_ge by lia. rewrite app_nil_r in E1, E2. rewrite E1, E2.
    split; [done|]. split; [done|]. split; [lia|]. by rewrite bool_decide_true.
Qed.

(** C33. Recovery from the append-only file after a crash: whatever prefix of the
    file is left, the parser recovers a prefix of the commands that were
    recorded, namely all whose records are complete, and reports an error
    exactly if the file ends inside a record. *)
Theorem aof_crash_recovery cmds k :
  Forall loggable cmds →
  let r := ParseRespCommands (take k (records cmds)) in
  ∃ j, apr_commands r = take j cmds ∧ records (take j cmds) `prefix_of` take k (records cmds) ∧
    ((j < length cmds)%nat → ¬ records (take (S j) cmds) `prefix_of` take k (records cmds)) ∧
    (apr_ok r = true ↔ take k (records cmds) = records (take j cmds)).
Proof. apply ParseRespCommands_prefix. Qed.

(** ** Appending behind a torn record *)

Lemma RecordCommand_file w args :
  aw_buf w = [] → aw_accepted w = [] →
  RecordCommand w args = w <| aw_file ::= λ f, f ++ CommandSerializer_Serialize args |>.
Proof.
  destruct w as [f b acc]. cbn. intros -> ->. unfold RecordCommand, AofWriter_Append, AofWriter_Flush. simpl.
  rewrite bool_decide_false by apply CommandSerializer_nonempty. by rewrite firstn_all.
Qed.

Lemma to_string_digit n : 0 ≤ n ≤ 9 → to_string n = [48 + n].
Proof.
  intros Hn. assert (n = 0 ∨ n = 1 ∨ n = 2 ∨ n = 3 ∨ n = 4 ∨ n = 5 ∨ n = 6 ∨ n = 7 ∨ n = 8 ∨ n = 9) as H by lia.
  by repeat (destruct H as [->|H]; [done|]); subst.
Qed.

(** The part of a record in front of its last argument. *)
Definition record_head (name key : bytes) (len : Z) : bytes :=
  str "*3" ++ CRLF ++ EncodeBulk name ++ EncodeBulk key ++ str "$" ++ to_string len ++ CRLF.

Lemma Serialize_head name key v :
  CommandSerializer_Serialize [name; key; v] = record_head name key (zlen v) ++ v ++ CRLF.
Proof.
  rewrite Serialize_array. unfold EncodeRespArray, record_head.
  change (to_string (zlen [name; key; v])) with (str "3"). change (str "*3") with (str "*" ++ str "3").
  cbn [map concat]. unfold EncodeBulk at 3. rewrite app_nil_r. by rewrite <-!app_assoc.
Qed.

(** The file is opened for appending without removing a torn record.  If the
    crash cut the last two bytes of a value and its line end, the next command
    that is recorded, [c2], completes it: at the next start the server sets the
    key to a value that no client ever wrote, and [c2] itself and everything
    after it are lost. *)
Theorem append_behind_torn_record key v x y c2 :
  zlen key ≤ INT32_MAX → zlen v + 2 ≤ INT32_MAX → 1 ≤ zlen c2 ≤ 9 →
  let record := CommandSerializer_Serialize [str "SET"; key; v ++ [x; y]] in
  let w := RecordCommand (AofWriter_Open (take (length record - 4) record)) c2 in
  let r := ParseRespCommands (aw_file w) in
  apr_commands r = [[str "SET"; key; v ++ [42; 48 + zlen c2]]] ∧ apr_ok r = false.
Proof.
  intros Hk Hv Hc2 record w r. pose proof (zlen_nonneg v).
  set (v' := v ++ [42; 48 + zlen c2]). set (head := record_head (str "SET") key (zlen v + 2)).
  assert (zlen (v ++ [x; y]) = zlen v + 2 ∧ zlen v' = zlen v + 2) as [L1 L2] by (unfold v'; by rewrite !zlen_app).
  assert (take (length record - 4) record = head ++ v) as Et.
  { unfold record. rewrite Serialize_head, L1, <-!app_assoc, app_assoc. fold head.
    rewrite length_app. change (length ([x; y] ++ CRLF)) with 4%nat. rewrite Nat.add_sub. apply take_app_length. }
  assert (aw_file w = CommandSerializer_Serialize [str "SET"; key; v'] ++ concat (map EncodeBulk c2)) as Ew.
  { unfold w. rewrite RecordCommand_file by done.
    change (take (length record - 4) record ++ CommandSerializer_Serialize c2 = CommandSerializer_Serialize [str "SET"; key; v'] ++ concat (map EncodeBulk c2)).
    rewrite Et, Serialize_head, L2, Serialize_array.
    fold head. unfold EncodeRespArray, v'. rewrite (to_string_digit (zlen c2)) by lia.
    rewrite <-!app_assoc. done. }
  assert (loggable [str "SET"; key; v']) as Hl.
  { split; [done|done|]. repeat constructor; [done|done|]. rewrite L2. lia. }
  assert (∃ t, concat (map EncodeBulk c2) = 36 :: t) as [t Ht].
  { destruct c2 as [|a c2]; [change (zlen (@nil bytes)) with 0 in Hc2; lia|]. by eexists. }
  unfold r, ParseRespCommands. rewrite Ew, Ht. set (cmd := [str "SET"; key; v']) in *.
  pose proof (read_command_line [] cmd (36 :: t) Hl) as E. cbn [app] in E.
  destruct (Serialize_star cmd) as [u Eu]. rewrite Eu in *. rewrite <-app_comm_cons in *.
  rewrite length_cons. rewrite (read_commands_star _ []) with (t := u ++ 36 :: t). cbn [app].
  change (zlen (@nil Z)) with 0 in E |- *. rewrite E. rewrite bool_decide_false by done.
  destruct (length (u ++ 36 :: t)) as [|fuel] eqn:El; [rewrite length_app in El; simpl in El; lia|].
  cbn [read_commands]. rewrite app_comm_cons, zlen_app, (zlen_cons 36 t). pose proof (zlen_nonneg t).
  rewrite (proj2 (Z.leb_gt _ (zlen (42 :: u)))) by lia. rewrite byte_at_app.
  unfold read_command. rewrite byte_at_app. done.
Qed.
End recovery.

(** ** Examples *)

Definition example_cmds : list (list bytes) :=
  [[str "SET"; str "a"; str "1"]; [str "DEL"; str "a"; str "b"]; [str "SET"; str "b"; [13; 10]]].

Lemma aof_crash_recovery_witness :
  let r := ParseRespCommands (absl := decimal_atoi) (take 64 (records example_cmds)) in
  ∃ j, apr_commands r = take j example_cmds ∧
    records (take j example_cmds) `prefix_of` take 64 (records example_cmds).
Proof.
  destruct (aof_crash_recovery (absl := decimal_atoi) example_cmds 64) as (j & H1 & H2 & _).
  - repeat constructor; by_compute.
  - exists j. split; [exact H1|exact H2].
Defined.

Lemma append_behind_torn_record_witness :
  let record := CommandSerializer_Serialize [str "SET"; str "k"; str "hello"] in
  let w := RecordCommand (AofWriter_Open (take (length record - 4) record)) [str "SET"; str "k"; str "w"] in
  apr_commands (ParseRespCommands (absl := decimal_atoi) (aw_file w)) = [[str "SET"; str "k"; str "hel*3"]].
Proof.
  apply (append_behind_torn_record (absl := decimal_atoi) (str "k") (str "hel") 108 111); by_compute.
Defined.
