(* ===== verification/SnapshotTransfer.v ===== *)
(** * Snapshot transfer

    src/server/raft/snapshot_sender.h, snapshot_sender.cc (leader side) and
    snapshot_receiver.h, snapshot_receiver.cc (follower side): the snapshot file
    is cut into chunks, each chunk is appended to a temporary file, and the last
    one renames it into place.  File-system calls are modelled as succeeding. *)

From S2P Require Import Prelude RaftTypes.

(** ** The receiver *)

(** The contents of snapshot.recv.tmp and snapshot.bin; [None] for a file that
    does not exist. *)
Record SnapshotReceiver : Type := mkSnapshotReceiver {
  sr_tmp : option bytes;
  sr_bin : option bytes
}.
#[export] Instance SnapshotReceiver_eta : Eta SnapshotReceiver := fun r =>
  mkSnapshotReceiver (sr_tmp r) (sr_bin r).

Definition SnapshotReceiver_Init (r : SnapshotReceiver) : SnapshotReceiver := r <| sr_tmp := None |>.

(** The file is opened with mode "ab": [fseek] fails only on an offset that is
    negative as a [long], and the write goes to the end of the file whatever the
    offset. *)
Definition HandleChunk (r : SnapshotReceiver) (request : InstallSnapshotRequest)
    : SnapshotReceiver * InstallSnapshotResponse :=
  let response := mkInstallSnapshotResponse 0 (sreq_term request) false in
  let tmp := default [] (sr_tmp r) in
  if 2 ^ 63 <=? sreq_offset request then (r <| sr_tmp := Some tmp |>, response)
  else
    let tmp := tmp ++ sreq_data request in
    let r := if sreq_done request
             then r <| sr_bin := Some tmp |> <| sr_tmp := None |>
             else r <| sr_tmp := Some tmp |> in
    (r, response <| srsp_success := true |>).

(** ** The sender *)

Definition kChunkSize : Z := 65536.

Section sender.
(** The transport, with whatever state lies behind it. *)
Context {T : Type} (SendInstallSnapshot : T → NodeId → InstallSnapshotRequest → T * InstallSnapshotResponse).
Context (follower : NodeId) (group_id term : Z) (leader_id : NodeId).
Context (last_included_index last_included_term : Z).

(** The loop over the file, from [offset] on. *)
Fixpoint send_chunks (fuel : nat) (file : bytes) (offset : Z) (t : T) : T * bool :=
  match fuel with
  | O => (t, true)
  | S fuel' =>
      if offset <? zlen file then
        let to_read := if zlen file <? offset + kChunkSize then zlen file - offset else kChunkSize in
        let data := substr file offset to_read in
        let nread := zlen data in
        if nread =? 0 then (t, false)
        else
          let req := mkInstallSnapshotRequest group_id term leader_id last_included_index
                       last_included_term offset (zlen file <=? offset + nread) data in
          let '(t, rsp) := SendInstallSnapshot t follower req in
          if term <? srsp_term rsp then (t, false)
          else if negb (srsp_success rsp) then (t, false)
          else send_chunks fuel' file (offset + nread) t
      else (t, true)
  end.

(** [file] is the content of the snapshot, [None] when it cannot be opened.
    Every round reads at least one byte, so the file's length bounds the
    rounds. *)
Definition SendSnapshot (file : option bytes) (t : T) : T * bool :=
  match file with
  | None => (t, false)
  | Some file => send_chunks (S (length file)) file 0 t
  end.
End sender.

(** ** Transfer *)

Section transfer.
Context (follower : NodeId) (group_id term : Z) (leader_id : NodeId) (index lterm : Z).

Let deliver (r : SnapshotReceiver) (_ : NodeId) (req : InstallSnapshotRequest) := HandleChunk r req.

Lemma send_chunks_deliver fuel file offset r :
  (length file < Z.to_nat offset + fuel)%nat → 0 ≤ offset < zlen file → zlen file < 2 ^ 63 →
  send_chunks deliver follower group_id term leader_id index lterm fuel file offset r =
    (mkSnapshotReceiver None (Some (default [] (sr_tmp r) ++ drop (Z.to_nat offset) file)), true).
Proof.
  revert offset r. induction fuel as [|fuel IH]; intros offset r Hf Ho Hb; [unfold zlen in *; lia|].
  cbn [send_chunks]. rewrite (proj2 (Z.ltb_lt offset (zlen file))) by lia.
  set (n := if zlen file <? offset + kChunkSize then zlen file - offset else kChunkSize).
  assert (1 ≤ n ∧ offset + n ≤ zlen file) as [Hn1 Hn2].
  { unfold n, kChunkSize. case_match; bool_norm; lia. }
  assert (zlen (substr file offset n) = n) as Hz.
  { unfold substr, zlen in *. rewrite length_take, length_drop. lia. }
  assert (drop (Z.to_nat offset) file = substr file offset n ++ drop (Z.to_nat (offset + n)) file) as Hs.
  { unfold substr. rewrite <-(take_drop (Z.to_nat n) (drop (Z.to_nat offset) file)) at 1. f_equal.
    rewrite drop_drop. f_equal. lia. }
  cbv zeta. rewrite Hz, (proj2 (Z.eqb_neq n 0)) by lia. unfold deliver at 1, HandleChunk.
  cbn [sreq_offset sreq_data sreq_done sreq_term].
  rewrite (proj2 (Z.leb_gt (2 ^ 63) offset)) by lia. cbn [srsp_term srsp_success].
  simpl srsp_success. simpl srsp_term. rewrite Z.ltb_irrefl. simpl negb. cbv iota. rewrite Hs.
  destruct (Z.leb_spec (zlen file) (offset + n)).
  - assert (offset + n = zlen file) as -> by lia.
    rewrite (drop_ge file) by (unfold zlen; lia). rewrite app_nil_r.
    destruct fuel; [unfold zlen in *; lia|]. cbn [send_chunks]. by rewrite Z.ltb_irrefl.
  - rewrite IH by lia. simpl. by rewrite app_assoc.
Qed.

(** C32. A snapshot sent chunk by chunk to a follower with no interrupted
    transfer arrives as the leader's file, for a file of any size. *)
Theorem SendSnapshot_delivers (file : bytes) (bin : option bytes) :
  file ≠ [] → zlen file < 2 ^ 63 →
  SendSnapshot deliver follower group_id term leader_id index lterm (Some file)
    (mkSnapshotReceiver None bin) = (mkSnapshotReceiver None (Some file), true).
Proof.
  intros Hne Hb. unfold SendSnapshot. rewrite send_chunks_deliver; [done|simpl; lia| |done].
  destruct file; [done|]. rewrite zlen_cons. pose proof (zlen_nonneg file). lia.
Qed.

(** A transfer that was interrupted leaves its chunks in the temporary
    file, and the next transfer is appended behind them: the follower installs
    the stale bytes followed by the new snapshot, although the receiver is
    documented to write each chunk at its offset. *)
Theorem SendSnapshot_after_interruption (file stale : bytes) (bin : option bytes) :
  file ≠ [] → zlen file < 2 ^ 63 →
  SendSnapshot deliver follower group_id term leader_id index lterm (Some file)
    (mkSnapshotReceiver (Some stale) bin) = (mkSnapshotReceiver None (Some (stale ++ file)), true).
Proof.
  intros Hne Hb. unfold SendSnapshot. rewrite send_chunks_deliver; [done|simpl; lia| |done].
  destruct file; [done|]. rewrite zlen_cons. pose proof (zlen_nonneg file). lia.
Qed.
End transfer.

Lemma SendSnapshot_delivers_witness :
  SendSnapshot (fun r _ req => HandleChunk r req) (str "n2") 1 5 (str "n1") 10 4 (Some (str "snap"))
    (mkSnapshotReceiver None None) = (mkSnapshotReceiver None (Some (str "snap")), true).
Proof. apply SendSnapshot_delivers; by_decide. Defined.

Lemma SendSnapshot_after_interruption_witness :
  SendSnapshot (fun r _ req => HandleChunk r req) (str "n2") 1 5 (str "n1") 10 4 (Some (str "snap"))
    (mkSnapshotReceiver (Some (str "sn")) None) = (mkSnapshotReceiver None (Some (str "snsnap")), true).
Proof. apply (SendSnapshot_after_interruption (str "n2") 1 5 (str "n1") 10 4 (str "snap") (str "sn")); by_decide. Defined.
