(* ===== verification/ApplyProgress.v ===== *)
(** * Apply progress (src/server/raft/apply_progress.h, apply_progress.cc)

    The durable [last_applied] counter: the in-memory value, the apply.meta file
    and the round trip between them. *)

From S2P Require Import Prelude Json.

(** [ap_disk] is the content of apply.meta, empty when there is none; [Flush]
    replaces it in one step (tmp file and rename).  Write errors are not
    modelled. *)
Record ApplyProgress : Type := mkApplyProgress {
  ap_path : bytes;
  ap_last_applied : Z;
  ap_disk : bytes
}.
#[export] Instance ApplyProgress_eta : Eta ApplyProgress := fun p =>
  mkApplyProgress (ap_path p) (ap_last_applied p) (ap_disk p).

Definition kLastApplied : bytes := str "last_applied".

Definition ApplyProgress_Serialize (p : ApplyProgress) : bytes :=
  str "{" ++ quoted kLastApplied ++ [COLON] ++ to_string (ap_last_applied p) ++ [125; 10].

(** The value stays as it is when the field or its number is missing. *)
Definition ApplyProgress_Deserialize (p : ApplyProgress) (data : bytes) : ApplyProgress :=
  match parse_uint data kLastApplied with
  | Some v => p <| ap_last_applied := v |>
  | None => p
  end.

Definition ApplyProgress_Flush (p : ApplyProgress) : ApplyProgress :=
  if bool_decide (ap_path p = []) then p else p <| ap_disk := ApplyProgress_Serialize p |>.

Definition ApplyProgress_Load (p : ApplyProgress) : ApplyProgress :=
  if bool_decide (ap_path p = []) then p
  else if bool_decide (ap_disk p = []) then ApplyProgress_Flush p
  else ApplyProgress_Deserialize p (ap_disk p).

Definition ApplyProgress_Update (p : ApplyProgress) (index : Z) : ApplyProgress :=
  ApplyProgress_Flush (p <| ap_last_applied := index |>).

Definition UpdateMemoryOnly (p : ApplyProgress) (index : Z) : ApplyProgress :=
  p <| ap_last_applied := index |>.

Definition ApplyProgress_Reset (p : ApplyProgress) (index : Z) : ApplyProgress :=
  ApplyProgress_Flush (p <| ap_last_applied := index |>).

(** What a restarted process loads. *)
Definition ApplyProgress_restart (p : ApplyProgress) : ApplyProgress :=
  ApplyProgress_Load (mkApplyProgress (ap_path p) 0 (ap_disk p)).

(** [Update] makes the apply progress durable: after a restart it is the
    index that was last updated, also when [UpdateMemoryOnly] ran since, whose
    value only the next flush makes durable. *)
Theorem ApplyProgress_survives_restart (p : ApplyProgress) (index later : Z) :
  ap_path p ≠ [] → 0 ≤ index ≤ U64_MAX →
  ap_last_applied (ApplyProgress_restart (UpdateMemoryOnly (ApplyProgress_Update p index) later)) = index.
Proof.
  intros Hp Hi. unfold ApplyProgress_Update, ApplyProgress_Flush. simpl.
  rewrite bool_decide_false by done. unfold ApplyProgress_restart, ApplyProgress_Load. simpl ap_path. simpl ap_disk.
  rewrite !bool_decide_false by done. unfold ApplyProgress_Deserialize, ApplyProgress_Serialize. simpl ap_last_applied.
  rewrite (record_uint kLastApplied) with (open := 123) (fs := []) (v := index) (rest := [125; 10]);
    [done|by_decide..|done|by_decide|constructor|done|done].
Qed.

Lemma ApplyProgress_survives_restart_witness :
  ap_last_applied (ApplyProgress_restart (UpdateMemoryOnly
    (ApplyProgress_Update (mkApplyProgress (str "apply.meta") 3 []) 42) 50)) = 42.
Proof. apply ApplyProgress_survives_restart; by_decide. Defined.
