(* ===== verification/ElectionTimer.v ===== *)
(** * The election timer (src/server/raft/election_timer.h, election_timer.cc)

    The atomics of [ElectionTimer], its operations, and the timer fiber as a step
    relation. *)

From S2P Require Import Prelude.

(** [et_running]: the fiber has been started ([fiber_.IsJoinable()]). *)
Record ElectionTimer : Type := mkElectionTimer {
  et_running : bool;
  et_shutdown : bool;
  et_active : bool;
  et_epoch : Z
}.
#[export] Instance ElectionTimer_eta : Eta ElectionTimer := fun t =>
  mkElectionTimer (et_running t) (et_shutdown t) (et_active t) (et_epoch t).

Definition ElectionTimer_new : ElectionTimer := mkElectionTimer false false false 0.

Definition ElectionTimer_Start (t : ElectionTimer) : ElectionTimer :=
  if et_running t then t else mkElectionTimer true false true 1.

Definition ElectionTimer_Reset (t : ElectionTimer) : ElectionTimer :=
  t <| et_active := true |> <| et_epoch ::= fun e => u64 (e + 1) |>.

(** [Join] lets the fiber run to its end unless the caller is that fiber. *)
Definition ElectionTimer_Stop (from_fiber : bool) (t : ElectionTimer) : ElectionTimer :=
  t <| et_active := false |> <| et_shutdown := true |> <| et_epoch ::= fun e => u64 (e + 1) |>
    <| et_running ::= fun r => r && from_fiber |>.

Definition ElectionTimer_Deactivate (t : ElectionTimer) : ElectionTimer :=
  t <| et_active := false |> <| et_epoch ::= fun e => u64 (e + 1) |>.

(** ** The fiber *)

(** Where [Run] is: at the head of the loop, in the long sleep with the epoch it
    saved, or past its end. *)
Inductive run_state : Type := RLoop | RSleep (saved : Z) | RDone.

(** One iteration point of [Run]; the boolean tells whether the callback fires. *)
Definition Run_step (t : ElectionTimer) (r : run_state) : ElectionTimer * run_state * bool :=
  match r with
  | RLoop =>
      if et_shutdown t then (t, RDone, false)
      else if negb (et_active t) then (t, RLoop, false)
      else (t, RSleep (et_epoch t), false)
  | RSleep saved =>
      if et_shutdown t then (t, RDone, false)
      else if negb (et_epoch t =? saved) then (t, RLoop, false)
      else (t <| et_active := false |>, RLoop, true)
  | RDone => (t, RDone, false)
  end.

(** What the rest of the node does to the timer between two points of [Run]. *)
Inductive timer_op : Type := OpReset | OpDeactivate | OpStop (from_fiber : bool).

Definition apply_op (o : timer_op) (t : ElectionTimer) : ElectionTimer :=
  match o with
  | OpReset => ElectionTimer_Reset t
  | OpDeactivate => ElectionTimer_Deactivate t
  | OpStop f => ElectionTimer_Stop f t
  end.

Definition apply_ops (os : list timer_op) (t : ElectionTimer) : ElectionTimer :=
  fold_left (fun t o => apply_op o t) os t.

Lemma apply_ops_epoch os t : et_epoch (apply_ops os t) mod 2 ^ 64 = (et_epoch t + zlen os) mod 2 ^ 64.
Proof.
  revert t. induction os as [|o os IH]; intros t; simpl; [by rewrite Z.add_0_r|].
  rewrite IH, zlen_cons.
  replace (et_epoch (apply_op o t)) with ((et_epoch t + 1) mod 2 ^ 64) by (by destruct o).
  rewrite Z.add_mod_idemp_l by lia. f_equal. lia.
Qed.

(** The election timer fires only if nothing touched it during the whole
    wait: when the fiber went to sleep the timer was active, and no [Reset],
    [Deactivate] or [Stop] ran before it woke up (fewer than 2^64 of them). *)
Theorem timer_fires_undisturbed (t : ElectionTimer) (os : list timer_op) (saved : Z) :
  0 ≤ et_epoch t < 2 ^ 64 → zlen os < 2 ^ 64 →
  Run_step t RLoop = (t, RSleep saved, false) →
  (Run_step (apply_ops os t) (RSleep saved)).2 = true ↔ os = [].
Proof.
  intros He Hz. simpl. destruct (et_shutdown t) eqn:Hs; [done|].
  destruct (et_active t) eqn:Ha; simpl; [|done]. intros [= <-]. split.
  - case_match; [done|]. case_match eqn:Hep; [done|]. bool_norm. intros _.
    pose proof (apply_ops_epoch os t) as E. rewrite Hep in E.
    rewrite (Z.mod_small (et_epoch t)) in E by lia. destruct os as [|o os]; [done|].
    rewrite zlen_cons in *. pose proof (zlen_nonneg os).
    destruct (decide (et_epoch t + (1 + zlen os) < 2 ^ 64)).
    + rewrite Z.mod_small in E by lia. lia.
    + rewrite <-(Z_mod_plus_full (et_epoch t + (1 + zlen os)) (-1)), Z.mod_small in E by lia. lia.
  - intros ->. simpl. by rewrite Hs, Z.eqb_refl.
Qed.

Lemma timer_fires_undisturbed_witness :
  let t := ElectionTimer_Reset (ElectionTimer_Start ElectionTimer_new) in
  (Run_step (apply_ops [OpReset] t) (RSleep 2)).2 = true ↔ [OpReset] = [].
Proof. apply timer_fires_undisturbed; by_compute. Defined.
