(* ===== verification/StateMachine.v ===== *)
(** * The state machine interface (src/server/state_machine/state_machine.h)

    What consensus relies on of [IStateMachine]. *)

From S2P Require Import Prelude RaftTypes.

Inductive ApplyOp : Type := OK | NOT_FOUND | ERROR.

Record ApplyResult : Type := mkApplyResult {
  ar_op : ApplyOp;
  ar_affected_rows : Z
}.

Definition default_ApplyResult : ApplyResult := mkApplyResult OK 0.

(** [SaveSnapshot] gives the content of the snapshot file, [None] when it fails;
    [LoadSnapshot] takes it. *)
Class StateMachine (SM : Type) := {
  ApplyLogEntry : SM → LogEntry → SM * ApplyResult;
  SaveSnapshot : SM → option bytes;
  LoadSnapshot : SM → bytes → SM * bool
}.

(** The first four bytes of a snapshot file, "SNAP" (snapshot_writer.h). *)
Definition kSnapshotMagic : Z := 0x50414E53.
