(* ===== verification/DbSlice.v ===== *)
(** * The storage of one shard (src/server/storage/db_slice.h, db_slice.cc)

    [DbSlice]: the tables of a shard, with lazy expiry.  The memory statistics
    (string capacities) are not modelled.  [now] is [NowMs()].  An iterator is
    the key it points to: writes through it are [set_value] and
    [set_expire_ms].  The operations require an active database; on another
    index the source stops in [DCHECK], here they act on no table. *)

From S2P Require Import Prelude.

Record PrimeValue : Type := mkPrimeValue {
  pv_value : bytes;
  pv_expire_ms : Z
}.
#[export] Instance PrimeValue_eta : Eta PrimeValue := fun v =>
  mkPrimeValue (pv_value v) (pv_expire_ms v).
#[export] Instance PrimeValue_eq_dec : EqDecision PrimeValue.
Proof. solve_decision. Defined.

Abbreviation MainTable := (gmap bytes PrimeValue).

Inductive OpStatus : Type := StatusOK | KEY_NOTFOUND.
#[export] Instance OpStatus_eq_dec : EqDecision OpStatus.
Proof. solve_decision. Defined.

Record DbSlice : Type := mkDbSlice {
  ds_shard_id : Z;
  ds_db_arr : list (option MainTable)
}.
#[export] Instance DbSlice_eta : Eta DbSlice := fun d => mkDbSlice (ds_shard_id d) (ds_db_arr d).

Implicit Types (d : DbSlice) (key : bytes) (t : MainTable).

(** ** Databases *)

Definition db_array_size d : nat := length (ds_db_arr d).

Definition IsDbValid d (ind : nat) : bool :=
  match ds_db_arr d !! ind with Some (Some _) => true | _ => false end.

Definition CreateDbRedis d (ind : nat) : DbSlice :=
  match ds_db_arr d !! ind with
  | Some None => d <| ds_db_arr ::= <[ind := Some ∅]> |>
  | _ => d
  end.

Definition ActivateDb d (ind : nat) : DbSlice :=
  let d := if (length (ds_db_arr d) <=? ind)%nat
           then d <| ds_db_arr ::= resize (S ind) None |> else d in
  CreateDbRedis d ind.

Definition DbSlice_new (index : Z) : DbSlice := CreateDbRedis (mkDbSlice index [None]) 0.

(** The table of an active database, and its replacement. *)
Definition main_table d (ind : nat) : MainTable :=
  match ds_db_arr d !! ind with Some (Some t) => t | _ => ∅ end.

Definition with_table d (ind : nat) t : DbSlice :=
  if IsDbValid d ind then d <| ds_db_arr ::= <[ind := Some t]> |> else d.

(** ** Operations *)

Definition is_expired (now : Z) (v : PrimeValue) : bool :=
  negb (pv_expire_ms v =? 0) && (pv_expire_ms v <=? now).

Definition DbSlice_Find (now : Z) d (ind : nat) key : DbSlice * option PrimeValue :=
  match main_table d ind !! key with
  | None => (d, None)
  | Some v =>
      if is_expired now v then (with_table d ind (delete key (main_table d ind)), None)
      else (d, Some v)
  end.

(** The flag says that the entry is new. *)
Definition AddOrFind (now : Z) d (ind : nat) key : DbSlice * bool :=
  match main_table d ind !! key with
  | None => (with_table d ind (<[key := mkPrimeValue [] 0]> (main_table d ind)), true)
  | Some v =>
      if is_expired now v
      then (with_table d ind (<[key := mkPrimeValue [] 0]> (delete key (main_table d ind))), true)
      else (d, false)
  end.

(** [it->second.value = val] and [it->second.expire_ms = ms]. *)
Definition set_value d (ind : nat) key (val : bytes) : DbSlice :=
  with_table d ind (alter (fun v => v <| pv_value := val |>) key (main_table d ind)).

Definition set_expire_ms d (ind : nat) key (ms : Z) : DbSlice :=
  with_table d ind (alter (fun v => v <| pv_expire_ms := ms |>) key (main_table d ind)).

Definition DbSlice_Del d (ind : nat) key : DbSlice * bool :=
  match main_table d ind !! key with
  | None => (d, false)
  | Some _ => (with_table d ind (delete key (main_table d ind)), true)
  end.

Definition SetExpire d (ind : nat) key (expire_at_ms : Z) : DbSlice * OpStatus :=
  match main_table d ind !! key with
  | None => (d, KEY_NOTFOUND)
  | Some _ => (set_expire_ms d ind key expire_at_ms, StatusOK)
  end.

Definition AddIfNotExist d (ind : nat) key (obj : PrimeValue) (expire_at_ms : Z) : DbSlice * bool :=
  match main_table d ind !! key with
  | Some _ => (d, false)
  | None =>
      let d := with_table d ind (<[key := obj]> (main_table d ind)) in
      let d := if negb (expire_at_ms =? 0) then set_expire_ms d ind key expire_at_ms else d in
      (d, true)
  end.

(** [None]: the [CHECK] fails. *)
Definition AddNew d (ind : nat) key (obj : PrimeValue) (expire_at_ms : Z) : option DbSlice :=
  let '(d, ok) := AddIfNotExist d ind key obj expire_at_ms in
  if ok then Some d else None.

(** The order in which the hash table is visited is that of [map_to_list]. *)
Definition Traverse d (ind : nat) : list (bytes * PrimeValue) := map_to_list (main_table d ind).

Definition DbSize d (ind : nat) : Z :=
  if IsDbValid d ind then Z.of_nat (size (main_table d ind)) else 0.

(** ** Facts *)

Lemma main_table_with_table d ind t :
  IsDbValid d ind = true → main_table (with_table d ind t) ind = t.
Proof.
  intros Hv. unfold with_table. rewrite Hv. unfold main_table, IsDbValid in *. simpl.
  rewrite list_lookup_insert_eq; [done|]. case_match eqn:E; [|done]. by apply lookup_lt_Some in E.
Qed.

Lemma IsDbValid_with_table d ind i t : IsDbValid (with_table d ind t) i = IsDbValid d i.
Proof.
  unfold with_table. destruct (IsDbValid d ind) eqn:Hv; [|done]. unfold IsDbValid in *. simpl.
  destruct (decide (i = ind)) as [->|Hne]; [|by rewrite list_lookup_insert_ne].
  case_match eqn:E; [|done]. rewrite list_lookup_insert_eq by (by eapply lookup_lt_Some). by case_match.
Qed.

Lemma main_table_new id : main_table (DbSlice_new id) 0 = ∅ ∧ IsDbValid (DbSlice_new id) 0 = true.
Proof. done. Qed.
