(* ===== verification/ReplyBuilder.v ===== *)
(** Replies to clients: the serializers of the two protocols over a buffered
    sink, and [ReplyBuilder], which chooses between them.  The theorem is that
    batching is invisible: the bytes written and those still batched are always
    the replies in the order they were sent. *)
From stdpp Require Import base list strings.
From S2P Require Import Prelude DbSlice.

Open Scope Z_scope.

Inductive Protocol : Type := MEMCACHE | REDIS.
#[export] Instance Protocol_eq_dec : EqDecision Protocol.
Proof. solve_decision. Defined.

(** ** The sink *)

(** A socket: the bytes it has accepted, and the outcome of the next writes
    ([true] is an error; the writes after the list succeed). *)
Record Sink : Type := mkSink {
  sk_written : bytes;
  sk_errors : list bool
}.
#[export] Instance Sink_eta : Eta Sink := fun s => mkSink (sk_written s) (sk_errors s).

Definition Sink_Write (s : Sink) (v : list bytes) : Sink * bool :=
  let s' := s <| sk_errors ::= tail |> in
  if default false (head (sk_errors s)) then (s', true)
  else (s' <| sk_written ::= λ w, w ++ concat v |>, false).

(** ** BaseSerializer *)

Record BaseSerializer : Type := mkBaseSerializer {
  sink_ : Sink;
  ec_ : bool;
  batch_ : bytes;
  should_batch_ : bool
}.
#[export] Instance BaseSerializer_eta : Eta BaseSerializer := fun b =>
  mkBaseSerializer (sink_ b) (ec_ b) (batch_ b) (should_batch_ b).

Definition BaseSerializer_new (sink : Sink) : BaseSerializer := mkBaseSerializer sink false [] false.

Definition CloseConnection (b : BaseSerializer) : BaseSerializer :=
  if ec_ b then b else b <| ec_ := true |>.

Definition Send (b : BaseSerializer) (v : list bytes) : BaseSerializer :=
  if should_batch_ b then b <| batch_ ::= λ w, w ++ concat v |>
  else
    let '(sink, ec) := if bool_decide (batch_ b = []) then Sink_Write (sink_ b) v
                       else Sink_Write (sink_ b) (batch_ b :: v) in
    let b := b <| sink_ := sink |> <| batch_ := [] |> in
    if ec then b <| ec_ := true |> else b.

Definition SendDirect (b : BaseSerializer) (raw : bytes) : BaseSerializer := Send b [raw].

(** [absl::numbers_internal::FastIntToBuffer] of a signed integer. *)
Definition FastIntToBuffer (z : Z) : bytes := if z <? 0 then 45 :: to_string (- z) else to_string z.

Definition SendNull (b : BaseSerializer) : BaseSerializer := Send b [str "$-1" ++ CRLF].

Definition RespSerializer_SendLong (b : BaseSerializer) (val : Z) : BaseSerializer :=
  Send b [str ":" ++ FastIntToBuffer val ++ CRLF].

Definition SendSimpleString (b : BaseSerializer) (s : bytes) : BaseSerializer :=
  Send b [str "+"; s; CRLF].

Definition SendBulkString (b : BaseSerializer) (s : bytes) : BaseSerializer :=
  Send b [str "$" ++ FastIntToBuffer (u32 (zlen s)) ++ CRLF; s; CRLF].

Definition MemcacheSerializer_SendStored (b : BaseSerializer) : BaseSerializer :=
  SendDirect b (str "STORED" ++ CRLF).

Definition MemcacheSerializer_SendError (b : BaseSerializer) : BaseSerializer :=
  SendDirect b (str "ERROR" ++ CRLF).

(** ** ReplyBuilder *)

Record ReplyBuilder : Type := mkReplyBuilder {
  protocol_ : Protocol;
  serializer_ : BaseSerializer
}.
#[export] Instance ReplyBuilder_eta : Eta ReplyBuilder := fun r =>
  mkReplyBuilder (protocol_ r) (serializer_ r).

Definition ReplyBuilder_new (protocol : Protocol) (sink : Sink) : ReplyBuilder :=
  mkReplyBuilder protocol (BaseSerializer_new sink).

Definition SetBatchMode (r : ReplyBuilder) (mode : bool) : ReplyBuilder :=
  r <| serializer_ ::= λ b, b <| should_batch_ := mode |> |>.

Definition SendStored (r : ReplyBuilder) : ReplyBuilder :=
  match protocol_ r with
  | REDIS => r <| serializer_ ::= λ b, SendSimpleString b (str "OK") |>
  | MEMCACHE => r <| serializer_ ::= MemcacheSerializer_SendStored |>
  end.

Definition SendMCClientError (r : ReplyBuilder) (s : bytes) : ReplyBuilder :=
  r <| serializer_ ::= λ b, Send b [str "CLIENT_ERROR"; s; CRLF] |>.

Definition EndMultilineReply (r : ReplyBuilder) : ReplyBuilder :=
  match protocol_ r with
  | MEMCACHE => r <| serializer_ ::= λ b, SendDirect b (str "END" ++ CRLF) |>
  | REDIS => r
  end.

Definition SendError (r : ReplyBuilder) (s : bytes) : ReplyBuilder :=
  if byte_at s 0 =? 45 then r <| serializer_ ::= λ b, Send b [s; CRLF] |>
  else r <| serializer_ ::= λ b, Send b [str "-ERR "; s; CRLF] |>.

Definition SendOk (r : ReplyBuilder) : ReplyBuilder :=
  r <| serializer_ ::= λ b, SendSimpleString b (str "OK") |>.

Definition SendErrorStatus (r : ReplyBuilder) (status : OpStatus) : ReplyBuilder :=
  match status with
  | StatusOK => SendOk r
  | KEY_NOTFOUND => SendError r (str "no such key")
  end.

Definition SendLong (r : ReplyBuilder) (val : Z) : ReplyBuilder :=
  r <| serializer_ ::= λ b, RespSerializer_SendLong b val |>.

Definition SendSimpleRespString (r : ReplyBuilder) (s : bytes) : ReplyBuilder :=
  r <| serializer_ ::= λ b, SendSimpleString b s |>.

Definition SendRespBlob (r : ReplyBuilder) (s : bytes) : ReplyBuilder :=
  r <| serializer_ ::= λ b, SendDirect b s |>.

Definition SendGetReply (r : ReplyBuilder) (key : bytes) (flags : Z) (value : bytes) : ReplyBuilder :=
  match protocol_ r with
  | REDIS => r <| serializer_ ::= λ b, SendBulkString b value |>
  | MEMCACHE =>
      let first := str "VALUE " ++ key ++ str " " ++ to_string flags ++ str " " ++
                   to_string (zlen value) ++ CRLF in
      r <| serializer_ ::= λ b, Send b [first; value; CRLF] |>
  end.

Definition SendGetNotFound (r : ReplyBuilder) : ReplyBuilder :=
  match protocol_ r with
  | REDIS => r <| serializer_ ::= SendNull |>
  | MEMCACHE => r
  end.

Definition SendBulk (r : ReplyBuilder) (s : bytes) : ReplyBuilder :=
  r <| serializer_ ::= λ b, SendBulkString b s |>.

Definition SendSimpleStrArr (r : ReplyBuilder) (arr : list bytes) : ReplyBuilder :=
  let res := str "*" ++ to_string (zlen arr) ++ CRLF ++ (arr ≫= λ s, str "+" ++ s ++ CRLF) in
  r <| serializer_ ::= λ b, SendDirect b res |>.

(** ** Batching is invisible *)

(** What the client will have received once everything batched is written. *)
Definition stream (b : BaseSerializer) : bytes := sk_written (sink_ b) ++ batch_ b.

(** The socket accepts every write. *)
Definition sink_ok (b : BaseSerializer) : Prop := Forall (λ e, e = false) (sk_errors (sink_ b)).

Lemma sink_ok_head b : sink_ok b → default false (head (sk_errors (sink_ b))) = false.
Proof. unfold sink_ok. destruct (sk_errors (sink_ b)) as [|e l]; [done|]. inversion 1. done. Qed.

Lemma sink_ok_tail b : sink_ok b → Forall (λ e, e = false) (tail (sk_errors (sink_ b))).
Proof. unfold sink_ok. destruct (sk_errors (sink_ b)) as [|e l]; [done|]. by inversion 1. Qed.

Lemma Send_stream b v :
  sink_ok b →
  stream (Send b v) = stream b ++ concat v ∧ sink_ok (Send b v) ∧ ec_ (Send b v) = ec_ b ∧
  should_batch_ (Send b v) = should_batch_ b ∧ (should_batch_ b = false → batch_ (Send b v) = []).
Proof.
  intros Hok. unfold Send. destruct (should_batch_ b) eqn:Hb.
  { unfold stream, sink_ok. simpl. by rewrite app_assoc. }
  unfold Sink_Write. rewrite (sink_ok_head b Hok). pose proof (sink_ok_tail b Hok) as Htl.
  unfold stream, sink_ok. case_bool_decide as E; simpl; rewrite ?E, ?app_nil_r; repeat split; try done.
  by rewrite app_assoc.
Qed.
