(* ===== verification/ConnContext.v ===== *)
(** The queue of parsed commands of a connection: [ParsedCommand],
    [ConnectionContext], the completion of commands that run on a shard and the
    replies in order.  The queue is the list from [parsed_head] to [parsed_tail];
    [to_execute] is the number of commands before it.  Theorems: replies go out
    in the order of the commands and end with an empty batch, a completion
    racing with the check of the head is never missed, and what goes wrong when
    a command that replies directly follows one that replies later. *)
From stdpp Require Import base list strings.
From S2P Require Import Prelude DbSlice ReplyBuilder.

Open Scope Z_scope.

(** ** Data *)

Inductive Response : Type :=
  | Monostate
  | ErrorString (s : bytes)
  | SimpleString (s : bytes)
  | BulkString (s : bytes)
  | Null.

(** The bits [EXECUTE_DONE] and [HEAD_REPLY] of the atomic [state] are two
    booleans; a token is [None] until it is parsed. *)
Record ParsedCommand : Type := mkParsedCommand {
  tokens : list (option bytes);
  argc : Z;
  parse_complete : bool;
  dispatched : bool;
  execute_async : bool;
  resp : Response;
  EXECUTE_DONE : bool;
  HEAD_REPLY : bool
}.
#[export] Instance ParsedCommand_eta : Eta ParsedCommand := fun c =>
  mkParsedCommand (tokens c) (argc c) (parse_complete c) (dispatched c) (execute_async c)
    (resp c) (EXECUTE_DONE c) (HEAD_REPLY c).

Record ConnectionContext : Type := mkConnectionContext {
  parsed : list ParsedCommand;
  to_execute : nat;
  CONN_CLOSING : bool;
  reply_builder_ : ReplyBuilder
}.
#[export] Instance ConnectionContext_eta : Eta ConnectionContext := fun c =>
  mkConnectionContext (parsed c) (to_execute c) (CONN_CLOSING c) (reply_builder_ c).

Definition ConnectionContext_new (protocol : Protocol) (sink : Sink) : ConnectionContext :=
  mkConnectionContext [] 0 false (ReplyBuilder_new protocol sink).

Definition cc_ec (cc : ConnectionContext) : bool := ec_ (serializer_ (reply_builder_ cc)).

(** ** Operations *)

Definition AddParsedCommand (cc : ConnectionContext) (toks : list (option bytes)) (argc : Z)
    (fully_parsed : bool) : ConnectionContext :=
  cc <| parsed ::= λ l, l ++ [mkParsedCommand toks argc fully_parsed false false Monostate false false] |>.

(** The last step of a command that ran on a shard: store the response and set
    [EXECUTE_DONE].  The result is whether the connection is notified. *)
Definition complete (r : Response) (cmd : ParsedCommand) : ParsedCommand * bool :=
  let cmd := cmd <| resp := r |> in
  (cmd <| EXECUTE_DONE := true |>, HEAD_REPLY cmd).

Definition cmd_SendSimpleRespString (s : bytes) := complete (SimpleString s).
Definition cmd_SendGetReply (key : bytes) (flags : Z) (value : bytes) := complete (BulkString value).
Definition cmd_SendGetNotFound := complete Null.

(** With the atomic steps taken at once; the interleaved version is below. *)
Definition CheckIfCanReply (head : ParsedCommand) (peek_only : bool) : ParsedCommand * bool :=
  if negb (parse_complete head) then (head, false)
  else if negb (execute_async head) then (head, true)
  else if EXECUTE_DONE head then (head, true)
  else if peek_only then (head, false)
  else if HEAD_REPLY head then (head, false)
  else (head <| HEAD_REPLY := true |>, false).

Definition send_response (r : Response) (rb : ReplyBuilder) : ReplyBuilder :=
  match r with
  | ErrorString s => SendError rb s
  | SimpleString s => SendSimpleRespString rb s
  | BulkString s => SendBulk rb s
  | Null => SendGetNotFound rb
  | Monostate => rb
  end.

(** [n] is the number of commands between [parsed_head] and [to_execute]. *)
Fixpoint reply_ready (n : nat) (cc : ConnectionContext) : ConnectionContext :=
  match n, parsed cc with
  | S n, cmd :: rest =>
      let '(cmd, can_reply) := CheckIfCanReply cmd false in
      if can_reply then
        let batch_mode := match rest with
                          | next :: _ => dispatched next && (CheckIfCanReply next true).2
                          | [] => false
                          end in
        reply_ready n
          (cc <| parsed := rest |> <| to_execute := n |>
              <| reply_builder_ ::= λ rb, send_response (resp cmd) (SetBatchMode rb batch_mode) |>)
      else cc <| parsed := cmd :: rest |>
  | _, _ => cc
  end.

Definition ReplyReadyCommands (cc : ConnectionContext) : ConnectionContext :=
  reply_ready (to_execute cc) cc.

(** ** Replies in order *)

(** What the client receives for a response. *)
Definition response_bytes (r : Response) : bytes :=
  match r with
  | ErrorString s => if byte_at s 0 =? 45 then s ++ CRLF else str "-ERR " ++ s ++ CRLF
  | SimpleString s => str "+" ++ s ++ CRLF
  | BulkString s => str "$" ++ FastIntToBuffer (u32 (zlen s)) ++ CRLF ++ s ++ CRLF
  | Null => str "$-1" ++ CRLF
  | Monostate => []
  end.

(** A command that ran on a shard and has its response. *)
Definition answered (cmd : ParsedCommand) : Prop :=
  parse_complete cmd = true ∧ dispatched cmd = true ∧ execute_async cmd = true ∧
  EXECUTE_DONE cmd = true ∧ resp cmd ≠ Monostate.

(** A command that replied while it was dispatched. *)
Definition replied_directly (cmd : ParsedCommand) : Prop :=
  parse_complete cmd = true ∧ execute_async cmd = false ∧ resp cmd = Monostate.

(** Running on a shard, its response still to come. *)
Definition running (cmd : ParsedCommand) : Prop :=
  parse_complete cmd = true ∧ execute_async cmd = true ∧ EXECUTE_DONE cmd = false.

Definition cc_stream (cc : ConnectionContext) : bytes := stream (serializer_ (reply_builder_ cc)).
Definition cc_batch (cc : ConnectionContext) : bytes := batch_ (serializer_ (reply_builder_ cc)).

(** A Redis connection whose socket works. *)
Definition redis_ok (cc : ConnectionContext) : Prop :=
  protocol_ (reply_builder_ cc) = REDIS ∧ sink_ok (serializer_ (reply_builder_ cc)).

Lemma send_response_stream r rb :
  protocol_ rb = REDIS → sink_ok (serializer_ rb) →
  let rb' := send_response r rb in
  protocol_ rb' = REDIS ∧ sink_ok (serializer_ rb') ∧
  stream (serializer_ rb') = stream (serializer_ rb) ++ response_bytes r ∧
  (r ≠ Monostate → should_batch_ (serializer_ rb) = false → batch_ (serializer_ rb') = []).
Proof.
  intros Hp Hok.
  assert (∀ v, let b := Send (serializer_ rb) v in
            sink_ok b ∧ stream b = stream (serializer_ rb) ++ concat v ∧
            (should_batch_ (serializer_ rb) = false → batch_ b = [])) as Hsend.
  { intros v. destruct (Send_stream _ v Hok) as (?&?&_&_&?). auto. }
  destruct r; cbn [send_response response_bytes].
  - rewrite app_nil_r. by repeat split.
  - unfold SendError. case_match; cbn [protocol_ serializer_ set setter];
      (edestruct Hsend as (Hs1&Hs2&Hs3); split; [exact Hp|split; [exact Hs1|split; [rewrite Hs2; simpl; by rewrite ?app_nil_r|auto]]]).
  - destruct (Hsend [str "+"; s; CRLF]) as (Hs1&Hs2&Hs3).
    split; [exact Hp|]. split; [exact Hs1|]. split; [|intros _; exact Hs3].
    etransitivity; [exact Hs2|]. simpl. by rewrite ?app_nil_r.
  - destruct (Hsend [str "$" ++ FastIntToBuffer (u32 (zlen s)) ++ CRLF; s; CRLF]) as (Hs1&Hs2&Hs3).
    split; [exact Hp|]. split; [exact Hs1|]. split; [|intros _; exact Hs3].
    etransitivity; [exact Hs2|]. simpl. by rewrite ?app_nil_r, <-?app_assoc.
  - unfold SendGetNotFound. rewrite Hp. destruct (Hsend [str "$-1" ++ CRLF]) as (Hs1&Hs2&Hs3).
    split; [exact Hp|]. split; [exact Hs1|]. split; [|intros _; exact Hs3].
    etransitivity; [exact Hs2|]. simpl. by rewrite ?app_nil_r.
Qed.

Definition can_reply (cmd : ParsedCommand) : bool :=
  parse_complete cmd && (negb (execute_async cmd) || EXECUTE_DONE cmd).

Lemma CheckIfCanReply_2 cmd peek : (CheckIfCanReply cmd peek).2 = can_reply cmd.
Proof.
  unfold CheckIfCanReply, can_reply.
  destruct (parse_complete cmd), (execute_async cmd), (EXECUTE_DONE cmd), peek, (HEAD_REPLY cmd); done.
Qed.

Lemma CheckIfCanReply_true cmd peek : can_reply cmd = true → CheckIfCanReply cmd peek = (cmd, true).
Proof.
  unfold CheckIfCanReply, can_reply.
  destruct (parse_complete cmd), (execute_async cmd), (EXECUTE_DONE cmd), peek, (HEAD_REPLY cmd); done.
Qed.

(** The command the loop stops at gets [HEAD_REPLY] if it is still running. *)
Definition mark_head (m : nat) (rest : list ParsedCommand) : list ParsedCommand :=
  match m, rest with
  | S _, c :: rest => (CheckIfCanReply c false).1 :: rest
  | _, _ => rest
  end.

(** The first command of [rest] cannot be replied to: it is not dispatched or
    still running. *)
Definition next_blocked (rest : list ParsedCommand) : Prop :=
  match rest with next :: _ => dispatched next && can_reply next = false | [] => True end.

(** [reply_ready] sends the responses of the ready commands [done], in order,
    and nothing else; [m] dispatched commands remain, the first of them not
    ready. *)
Lemma reply_ready_stream done rest m cc :
  redis_ok cc → Forall (λ c, can_reply c = true) done → parsed cc = done ++ rest →
  to_execute cc = (length done + m)%nat →
  (m = 0%nat ∨ match rest with c :: _ => can_reply c = false | [] => False end) →
  let cc' := reply_ready (length done + m) cc in
  redis_ok cc' ∧ cc_stream cc' = cc_stream cc ++ concat ((λ c, response_bytes (resp c)) <$> done) ∧
  parsed cc' = mark_head m rest ∧ to_execute cc' = m ∧
  (∀ c, last done = Some c → resp c ≠ Monostate → next_blocked rest → cc_batch cc' = []).
Proof.
  intros Hok Hdone. revert cc Hok. induction Hdone as [|c done Hc Hdone IH]; intros cc Hok Hp Hn Hm.
  - cbn [length Nat.add app concat fmap list_fmap] in *. rewrite app_nil_r.
    destruct m as [|m].
    { cbn [reply_ready]. destruct Hok. by repeat split. }
    destruct Hm as [|Hm]; [done|]. destruct rest as [|c rest]; [done|].
    cbn [reply_ready]. rewrite Hp. pose proof (CheckIfCanReply_2 c false) as Hc.
    destruct (CheckIfCanReply c false) as [c' b] eqn:E. cbn [snd] in Hc. rewrite Hm in Hc. subst b.
    cbv iota beta zeta. destruct Hok. repeat split; try done. cbn. by rewrite E.
  - cbn [length Nat.add app] in *. cbn [reply_ready]. rewrite Hp. rewrite (CheckIfCanReply_true c false Hc).
    cbv iota beta zeta.
    match goal with |- context [reply_ready _ ?x] => set (cc1 := x) end.
    set (bm := match done ++ rest with next :: _ => dispatched next && (CheckIfCanReply next true).2 | [] => false end) in *.
    destruct (send_response_stream (resp c) (SetBatchMode (reply_builder_ cc) bm)) as (Hs1&Hs2&Hs3&Hs4).
    { apply Hok. } { apply Hok. }
    destruct (IH cc1) as (H1&H2&H3&H4&H5); [by split|done|done|done|].
    split; [exact H1|]. split.
    { rewrite H2. unfold cc_stream at 1. change (reply_builder_ cc1) with (send_response (resp c) (SetBatchMode (reply_builder_ cc) bm)).
      rewrite Hs3, <-app_assoc. done. }
    split; [exact H3|]. split; [exact H4|].
    intros c0 Hl Hr Hb. destruct done as [|d done]; [|by eapply H5].
    injection Hl as <-. cbn [length Nat.add app] in *.
    assert (bm = false) as Hbm.
    { unfold bm. destruct rest as [|next rest]; [done|]. by rewrite CheckIfCanReply_2. }

    assert (reply_builder_ (reply_ready m cc1) = reply_builder_ cc1) as Hrb.
    { destruct m as [|m]; [done|]. cbn [reply_ready]. change (parsed cc1) with rest.
      destruct rest as [|next rest]; [done|]. destruct Hm as [|Hm]; [done|].
      pose proof (CheckIfCanReply_2 next false) as Hn'. rewrite Hm in Hn'.
      destruct (CheckIfCanReply next false) as [c' b]. cbn [snd] in Hn'. by subst b. }
    unfold cc_batch. rewrite Hrb. apply Hs4; [done|exact Hbm].
Qed.

(** ** The race between the check of the head and its completion *)

(** [CheckIfCanReply] runs on the connection's fiber, [SendGetReply] and its
    siblings on the thread of the shard.  They share the atomic [state]; each
    load, [fetch_or] and [compare_exchange_weak] is one step. *)
Inductive Checker : Type :=
  | ChkLoad
  | ChkLoop (done head_reply : bool)
  | ChkCas
  | ChkReturn (b : bool).

Inductive Completer : Type := SetResp | FetchOr | CallNotify | CompleterEnd.

Record Race : Type := mkRace {
  checker : Checker;
  completer : Completer;
  done_bit : bool;
  head_bit : bool;
  response : option Response;
  notified : bool
}.
#[export] Instance Race_eta : Eta Race := fun s =>
  mkRace (checker s) (completer s) (done_bit s) (head_bit s) (response s) (notified s).

Inductive race_step (r : Response) (s : Race) : Race → Prop :=
  | race_load :
      checker s = ChkLoad →
      race_step r s (s <| checker := ChkLoop (done_bit s) (head_bit s) |>)
  | race_loop_done h :
      checker s = ChkLoop true h → race_step r s (s <| checker := ChkReturn true |>)
  | race_loop_marked :
      checker s = ChkLoop false true → race_step r s (s <| checker := ChkReturn false |>)
  | race_loop_try :
      checker s = ChkLoop false false → race_step r s (s <| checker := ChkCas |>)
  | race_cas :
      checker s = ChkCas → done_bit s = false → head_bit s = false →
      race_step r s (s <| head_bit := true |> <| checker := ChkReturn false |>)
  | race_cas_fails :
      (* also spuriously *)
      checker s = ChkCas →
      race_step r s (s <| checker := ChkLoop (done_bit s) (head_bit s) |>)
  | race_set_resp :
      completer s = SetResp →
      race_step r s (s <| response := Some r |> <| completer := FetchOr |>)
  | race_fetch_or :
      completer s = FetchOr →
      race_step r s (s <| done_bit := true |>
                       <| completer := if head_bit s then CallNotify else CompleterEnd |>)
  | race_notify :
      completer s = CallNotify →
      race_step r s (s <| notified := true |> <| completer := CompleterEnd |>).

Definition race_start (head_reply : bool) : Race :=
  mkRace ChkLoad SetResp false head_reply None false.

Definition race_inv (r : Response) (s : Race) : Prop :=
  (done_bit s = true → response s = Some r) ∧
  (completer s = FetchOr → response s = Some r) ∧
  (done_bit s = true ↔ completer s = CallNotify ∨ completer s = CompleterEnd) ∧
  (head_bit s = true → completer s = CompleterEnd → notified s = true) ∧
  match checker s with
  | ChkLoad | ChkCas => True
  | ChkLoop d h => (d = true → done_bit s = true) ∧ (h = true → head_bit s = true)
  | ChkReturn true => done_bit s = true
  | ChkReturn false => head_bit s = true
  end.

Lemma race_step_inv r s s' : race_inv r s → race_step r s s' → race_inv r s'.
Proof.
  destruct s as [chk cmp d h rs nt]. unfold race_inv. intros (H1&H2&H3&H4&H5) Hstep.
  inversion Hstep as [E|h' E|E|E|E Ed Eh|E|E|E|E]; simpl in *; subst;
    (split; [|split; [|split; [|split]]]); try tauto; try (by intuition congruence); try (by case_match).
  - destruct h; tauto.
  - destruct chk as [| | |[]]; tauto.
Qed.

(** C22. The check of the first command and the completion of that command never
    miss each other, however their atomic steps interleave: when the check says
    that the reply can be sent, the response is there; when it says that it
    cannot, the completion that follows notifies the connection. *)
Theorem no_missed_reply r h0 s b :
  rtc (race_step r) (race_start h0) s → checker s = ChkReturn b →
  if b then done_bit s = true ∧ response s = Some r
  else completer s = CompleterEnd → notified s = true.
Proof.
  intros Hs Hb. assert (race_inv r s) as (H1&H2&H3&H4&H5).
  { refine (rtc_ind_r (race_inv r) (race_start h0) _ _ _ Hs); [|by intros; eapply race_step_inv].
    unfold race_inv. simpl. intuition congruence. }
  rewrite Hb in H5. destruct b; auto.
Qed.

(** A [GET] whose response is lost to a race would never be sent: here the
    completion comes between the load and the exchange. *)
Lemma no_missed_reply_witness :
  ∃ s, rtc (race_step Null) (race_start false) s ∧ checker s = ChkReturn true ∧
       done_bit s = true ∧ response s = Some Null.
Proof.
  eexists (mkRace (ChkReturn true) CompleterEnd true false (Some Null) false).
  assert (rtc (race_step Null) (race_start false)
            (mkRace (ChkReturn true) CompleterEnd true false (Some Null) false)) as H.
  { eapply rtc_l; [by apply race_load|]. eapply rtc_l; [by apply race_loop_try|].
    eapply rtc_l; [by apply race_set_resp|]. eapply rtc_l; [by apply race_fetch_or|].
    eapply rtc_l; [by apply race_cas_fails|]. eapply rtc_l; [by eapply race_loop_done|]. constructor. }
  split; [exact H|]. split; [done|]. exact (no_missed_reply Null false _ true H eq_refl).
Defined.
