(* ===== verification/Connection.v ===== *)
(** The Redis side of a connection (dragonfly_connection.cc): the incremental
    parser that fills the command queue from the input buffer.  The parser is
    written against an interface of input buffers, which [IoBuf] implements.
    Theorems: it does not matter how the input is cut into reads; any pipeline
    of commands is parsed into exactly these commands; parsing terminates; and
    the inputs that stop the server or a connection. *)
From stdpp Require Import base list strings.
From S2P Require Import Prelude Absl Sds IoBuf DbSlice ReplyBuilder ConnContext.

Open Scope Z_scope.

(** ** Input buffers *)

(** What the parser uses of a buffer: the unread bytes, and marking some of them
    as read. *)
Class InputSource (B : Type) := {
  src_input : B → bytes;
  src_consume : B → Z → B
}.

(** [src_valid] is the layout invariant of the buffer. *)
Class InputSourceSpec (B : Type) `{!InputSource B} := {
  src_valid : B → Prop;
  src_consume_valid b n : src_valid b → 0 ≤ n → src_valid (src_consume b n);
  src_consume_input b n : src_valid b → 0 ≤ n → src_input (src_consume b n) = drop (Z.to_nat n) (src_input b)
}.

#[export] Instance IoBuf_source : InputSource IoBuf := {
  src_input := InputBuffer;
  src_consume := ConsumeInput
}.

#[export] Instance IoBuf_source_spec : InputSourceSpec IoBuf := {
  src_valid := io_ok;
  src_consume_valid := ConsumeInput_ok;
  src_consume_input := ConsumeInput_input
}.

(** The unread bytes alone. *)
#[export] Instance bytes_source : InputSource bytes := {
  src_input := id;
  src_consume s n := drop (Z.to_nat n) s
}.

#[export, refine] Instance bytes_source_spec : InputSourceSpec bytes := {
  src_valid _ := True
}.
Proof. all: done. Defined.

(** ** The connection *)

Inductive ParserStatus : Type := ParserOK | NEED_MORE | ParserERROR.
#[export] Instance ParserStatus_eq_dec : EqDecision ParserStatus.
Proof. solve_decision. Defined.
Inductive ParseState : Type := INIT | PARSE_INLINE | PARSE_MULTIBULK.
#[export] Instance ParseState_eq_dec : EqDecision ParseState.
Proof. solve_decision. Defined.

Record Connection : Type := mkConnection {
  cc_ : ConnectionContext;
  parser_error_ : Z;
  multibulk_len_ : Z;
  bulk_len_ : Z;
  parse_stash_ : bytes;
  state_ : ParseState
}.
#[export] Instance Connection_eta : Eta Connection := fun c =>
  mkConnection (cc_ c) (parser_error_ c) (multibulk_len_ c) (bulk_len_ c) (parse_stash_ c) (state_ c).

Definition Connection_new (protocol : Protocol) (sink : Sink) : Connection :=
  mkConnection (ConnectionContext_new protocol sink) 0 0 (-1) [] INIT.

Definition PROTO_INLINE_MAX_SIZE : Z := 1024 * 64.

(** [f] on the command at [parsed_tail]. *)
Definition on_tail (f : ParsedCommand → ParsedCommand) (c : Connection) : Connection :=
  c <| cc_ ::= λ cc, cc <| parsed ::= λ l, alter f (pred (length l)) l |> |>.

Section parser.
Context {absl : Absl} {B : Type} `{!InputSource B}.
Implicit Types (c : Connection) (io : B).

(** The multi bulk header, when [multibulk_len_] is 0. *)
Definition read_multibulk_len c io : Connection * B * option ParserStatus :=
  if negb (multibulk_len_ c =? 0) then (c, io, None)
  else
    let input := src_input io in
    let incomplete := (c, io, Some (if PROTO_INLINE_MAX_SIZE <? zlen input then ParserERROR else NEED_MORE)) in
    match find_from [13] input 0 with
    | None => incomplete
    | Some pos =>
        if pos + 1 =? zlen input then incomplete
        else
          match atoi64 (substr input 1 (u64 (pos - 1))) with
          | None => (c, io, Some ParserERROR)
          | Some ll =>
              if (INT32_MAX <? ll) || (ll <=? 0) then (c, io, Some ParserERROR)
              else
                (c <| multibulk_len_ := ll |>
                   <| cc_ ::= λ cc, AddParsedCommand cc (replicate (Z.to_nat ll) None) ll false |>,
                 src_consume io (pos + 2), None)
          end
    end.

(** The bulk header, when [bulk_len_] is -1. *)
Definition read_bulk_len c io : Connection * B * option ParserStatus :=
  if negb (bulk_len_ c =? -1) then (c, io, None)
  else
    let input := src_input io in
    match find_from [13] input 0 with
    | None => (c, io, Some (if PROTO_INLINE_MAX_SIZE <? zlen input then ParserERROR else NEED_MORE))
    | Some pos =>
        if pos + 1 =? zlen input then (c, io, Some NEED_MORE)
        else if negb (byte_at input 0 =? 36) || negb (byte_at input (pos + 1) =? 10) then (c, io, Some ParserERROR)
        else
          match atoi64 (substr input 1 (u64 (pos - 1))) with
          | None => (c, io, Some ParserERROR)
          | Some ll =>
              if ll <? 0 then (c, io, Some ParserERROR)
              else (c <| bulk_len_ := ll |>, src_consume io (pos + 2), None)
          end
    end.

(** The token that has arrived is number [argc - multibulk_len_] of the command. *)
Definition store_token (input : bytes) c : Connection :=
  let token := take (Z.to_nat (bulk_len_ c)) input in
  on_tail (λ cmd, cmd <| tokens ::= λ l, <[Z.to_nat (argc cmd - multibulk_len_ c) := Some token]> l |>) c
    <| bulk_len_ := -1 |> <| multibulk_len_ ::= λ m, m - 1 |>.

(** [while (multibulk_len_)]; [n] is [multibulk_len_]. *)
Fixpoint multibulk_loop (n : nat) c io : Connection * B * ParserStatus :=
  match n with
  | O => (on_tail (λ cmd, cmd <| parse_complete := true |>) c, io, ParserOK)
  | S n =>
      let '(c, io, stop) := read_bulk_len c io in
      match stop with
      | Some status => (c, io, status)
      | None =>
          let input := src_input io in
          if zlen input <? bulk_len_ c + 2 then (c, io, NEED_MORE)
          else multibulk_loop n (store_token input c) (src_consume io (bulk_len_ c + 2))
      end
  end.

Definition ParseMultiBulk c io : Connection * B * ParserStatus :=
  let '(c, io, stop) := read_multibulk_len c io in
  match stop with
  | Some status => (c, io, status)
  | None => multibulk_loop (Z.to_nat (multibulk_len_ c)) c io
  end.

(** The inline branch; [None] is the failed [CHECK (argc > 0)], which ends the
    process. *)
Definition parse_inline c io : option (Connection * B * ParserStatus) :=
  let input := src_input io in
  match find_from [10] input 0 with
  | None =>
      if PROTO_INLINE_MAX_SIZE <? zlen input then Some (c, io, ParserERROR)
      else Some (c <| parse_stash_ ::= λ s, s ++ input |>, src_consume io (zlen input), NEED_MORE)
  | Some pos =>
      let '(querylen, linefeed_chars) :=
        if (0 <? pos) && (byte_at input (pos - 1) =? 13) then (pos - 1, 2) else (pos, 1) in
      let c := c <| parse_stash_ ::= λ s, (s ++ take (Z.to_nat querylen) input) ++ [0] |> in
      match sdssplitargs (parse_stash_ c) with
      | None => Some (c, io, ParserERROR)
      | Some [] => None
      | Some argv =>
          Some (c <| parse_stash_ := [] |> <| cc_ ::= λ cc, AddParsedCommand cc (Some <$> argv) (zlen argv) true |>,
                src_consume io (querylen + linefeed_chars), ParserOK)
      end
  end.

(** One turn of the loop of [ParseRedis]; [None] is a failed [CHECK]. *)
Definition parse_turn c io : option (Connection * B * ParserStatus) :=
  let c := if bool_decide (state_ c = INIT) then
             c <| state_ := if byte_at (src_input io) 0 =? 42 then PARSE_MULTIBULK else PARSE_INLINE |>
           else c in
  '(c, io, status) ← (if bool_decide (state_ c = PARSE_INLINE) then parse_inline c io
                      else Some (ParseMultiBulk c io));
  match status with
  | ParserOK =>
      if (multibulk_len_ c =? 0) && (bulk_len_ c =? -1) then Some (c <| state_ := INIT |>, io, ParserOK)
      else None
  | _ => Some (c, io, status)
  end.

(** Every turn that goes on consumes input, so its length bounds the turns. *)
Fixpoint parse_turns (n : nat) c io : option (Connection * B * ParserStatus) :=
  match n, src_input io with
  | S n, _ :: _ =>
      '(c, io, status) ← parse_turn c io;
      match status with
      | ParserOK => parse_turns n c io
      | _ => Some (c, io, status)
      end
  | _, _ => Some (c, io, ParserOK)
  end.

Definition ParseRedis c io : option (Connection * B * ParserStatus) :=
  parse_turns (length (src_input io)) c io.
End parser.

(** ** The parser sees only the unread bytes *)

Section source.
Context {absl : Absl} {B : Type} `{!InputSource B} `{!InputSourceSpec B}.
Implicit Types (c : Connection) (io : B).

(** The result on the buffer, and on its unread bytes. *)
Definition same_on {X} (r : Connection * B * X) (r' : Connection * bytes * X) : Prop :=
  r' = (r.1.1, src_input r.1.2, r.2) ∧ src_valid r.1.2.

Lemma find_from_nonneg pat s pos : find_from pat s 0 = Some pos → 0 ≤ pos.
Proof. unfold find_from. destruct (find_nat _ _); simpl; intros; simplify_eq. lia. Qed.

Lemma bytes_consume (s : bytes) n : src_consume s n = drop (Z.to_nat n) s.
Proof. done. Qed.

Lemma same_on_consume {X} c io n (x : X) :
  src_valid io → 0 ≤ n → same_on (c, src_consume io n, x) (c, drop (Z.to_nat n) (src_input io), x).
Proof. intros Hv Hn. split; [simpl; by rewrite src_consume_input|by apply src_consume_valid]. Qed.

Lemma read_multibulk_len_same c io :
  src_valid io → same_on (read_multibulk_len c io) (read_multibulk_len c (src_input io)).
Proof.
  intros Hv. unfold read_multibulk_len. change (src_input (src_input io)) with (src_input io).
  destruct (find_from [13] (src_input io) 0) as [pos|] eqn:E; repeat case_match; try done.
  apply same_on_consume; [done|]. apply find_from_nonneg in E. lia.
Qed.

Lemma read_bulk_len_same c io :
  src_valid io → same_on (read_bulk_len c io) (read_bulk_len c (src_input io)).
Proof.
  intros Hv. unfold read_bulk_len. change (src_input (src_input io)) with (src_input io).
  destruct (find_from [13] (src_input io) 0) as [pos|] eqn:E; repeat case_match; try done.
  apply same_on_consume; [done|]. apply find_from_nonneg in E. lia.
Qed.

(** A length that the header gave is not negative. *)
Lemma read_bulk_len_nonneg c io c' io' :
  -1 ≤ bulk_len_ c → read_bulk_len c io = (c', io', None) → 0 ≤ bulk_len_ c'.
Proof.
  intros Hb. unfold read_bulk_len. repeat case_match; intros; simplify_eq/=; bool_norm; lia.
Qed.

Lemma multibulk_loop_same n c io :
  src_valid io → -1 ≤ bulk_len_ c → same_on (multibulk_loop n c io) (multibulk_loop n c (src_input io)).
Proof.
  revert c io. induction n as [|n IH]; intros c io Hv Hb; [done|]. cbn [multibulk_loop].
  destruct (read_bulk_len c io) as [[c1 io1] stop] eqn:E1.
  destruct (read_bulk_len_same c io Hv) as [Hr Hv1]. rewrite Hr, E1. rewrite E1 in Hv1. cbn [fst snd] in *.
  destruct stop as [st|]; [done|]. change (src_input (src_input io1)) with (src_input io1).
  case_match; [done|]. apply read_bulk_len_nonneg in E1; [|done].
  rewrite bytes_consume, <-src_consume_input by (done || lia). apply IH; [apply src_consume_valid; [done|lia]|done].
Qed.

Lemma read_multibulk_len_bulk c io : bulk_len_ (read_multibulk_len c io).1.1 = bulk_len_ c.
Proof. unfold read_multibulk_len. by repeat case_match. Qed.

Lemma ParseMultiBulk_same c io :
  src_valid io → -1 ≤ bulk_len_ c → same_on (ParseMultiBulk c io) (ParseMultiBulk c (src_input io)).
Proof.
  intros Hv Hb. unfold ParseMultiBulk. destruct (read_multibulk_len_same c io Hv) as [-> Hv1].
  pose proof (read_multibulk_len_bulk c io) as Hb1.
  destruct (read_multibulk_len c io) as [[c1 io1] stop]. cbn [fst snd] in *.
  destruct stop; [done|]. apply multibulk_loop_same; [done|lia].
Qed.

Definition same_opt {X} (r : option (Connection * B * X)) (r' : option (Connection * bytes * X)) : Prop :=
  match r, r' with Some r, Some r' => same_on r r' | None, None => True | _, _ => False end.

Lemma parse_inline_same c io :
  src_valid io → same_opt (parse_inline c io) (parse_inline c (src_input io)).
Proof.
  intros Hv. unfold parse_inline. change (src_input (src_input io)) with (src_input io).
  destruct (find_from [10] (src_input io) 0) as [pos|] eqn:E; repeat case_match; simplify_eq; try done.
  - apply same_on_consume; [done|]. bool_norm. lia.
  - apply same_on_consume; [done|]. apply find_from_nonneg in E. bool_norm. lia.
  - apply same_on_consume; [done|]. apply zlen_nonneg.
Qed.

Lemma parse_turn_same c io :
  src_valid io → -1 ≤ bulk_len_ c → same_opt (parse_turn c io) (parse_turn c (src_input io)).
Proof.
  intros Hv Hb. unfold parse_turn. change (src_input (src_input io)) with (src_input io).
  set (c1 := if bool_decide (state_ c = INIT) then _ else c).
  assert (-1 ≤ bulk_len_ c1) as Hb1 by (unfold c1; by case_bool_decide).
  case_bool_decide.
  - pose proof (parse_inline_same c1 io Hv) as Hs.
    destruct (parse_inline c1 io) as [[[c2 io2] st]|], (parse_inline c1 (src_input io)) as [[[c2' io2'] st']|]; try done.
    destruct Hs as [[= -> -> ->] Hv2]. cbn [mbind option_bind fst snd] in *. by repeat case_match.
  - destruct (ParseMultiBulk_same c1 io Hv Hb1) as [-> Hv2].
    destruct (ParseMultiBulk c1 io) as [[c2 io2] st]. cbn [mbind option_bind fst snd] in *. by repeat case_match.
Qed.

Lemma parse_turn_ok_lens c io c' io' :
  parse_turn c io = Some (c', io', ParserOK) → multibulk_len_ c' = 0 ∧ bulk_len_ c' = -1 ∧ state_ c' = INIT.
Proof.
  unfold parse_turn. intros H. apply bind_Some in H as ([[c2 io2] st] & _ & H).
  repeat case_match; simplify_eq/=. by bool_norm.
Qed.

Lemma parse_turns_same n c io :
  src_valid io → -1 ≤ bulk_len_ c → same_opt (parse_turns n c io) (parse_turns n c (src_input io)).
Proof.
  revert c io. induction n as [|n IH]; intros c io Hv Hb; [done|]. cbn [parse_turns].
  change (src_input (src_input io)) with (src_input io).
  destruct (src_input io) as [|a s] eqn:E; [by rewrite <-E|]. rewrite <-E.
  pose proof (parse_turn_same c io Hv Hb) as Hs.
  destruct (parse_turn c io) as [[[c2 io2] st]|] eqn:Et, (parse_turn c (src_input io)) as [[[c2' io2'] st']|]; try done.
  destruct Hs as [[= -> -> ->] Hv2]. cbn [mbind option_bind fst snd] in *. destruct st; try done.
  apply IH; [done|]. apply parse_turn_ok_lens in Et as (_ & -> & _). done.
Qed.

(** Parsing a buffer is parsing its unread bytes. *)
Lemma ParseRedis_same c io :
  src_valid io → -1 ≤ bulk_len_ c → same_opt (ParseRedis c io) (ParseRedis c (src_input io)).
Proof. intros. by apply parse_turns_same. Qed.
End source.

(** ** Input that arrives in pieces *)

Section chunks.
Context {absl : Absl}.
Implicit Types (c : Connection) (s t : bytes).

Lemma find1_cons x a s :
  find_from [x] (a :: s) 0 = if decide (a = x) then Some 0 else (λ p, 1 + p) <$> find_from [x] s 0.
Proof.
  unfold find_from. change (Z.to_nat 0) with 0%nat. rewrite !drop_0.
  change (find_nat [x] (a :: s))
    with (if bool_decide ([x] `prefix_of` a :: s) then Some 0%nat else S <$> find_nat [x] s).
  destruct (decide (a = x)) as [->|Hne].
  - rewrite bool_decide_true by by exists s. done.
  - rewrite bool_decide_false by (intros [k [=]]; congruence).
    destruct (find_nat [x] s) as [i|]; [|reflexivity]. cbn [fmap option_fmap option_map]. f_equal. lia.
Qed.

Lemma find1_app x s t pos :
  find_from [x] s 0 = Some pos → find_from [x] (s ++ t) 0 = Some pos ∧ 0 ≤ pos < zlen s.
Proof.
  revert pos. induction s as [|a s IH]; intros pos; [done|]. simpl app. rewrite !find1_cons, zlen_cons.
  pose proof (zlen_nonneg s). case_decide; [intros; simplify_eq; split; [done|lia]|].
  destruct (find_from [x] s 0) as [p|]; [|done]. simpl. intros; simplify_eq.
  destruct (IH p eq_refl) as [-> ?]. simpl. split; [done|lia].
Qed.

Lemma find1_none_app x s t :
  find_from [x] s 0 = None → find_from [x] (s ++ t) 0 = (λ p, zlen s + p) <$> find_from [x] t 0.
Proof.
  induction s as [|a s IH].
  { intros _. change (zlen []) with 0. simpl app. by destruct (find_from [x] t 0). }
  simpl app. rewrite !find1_cons, zlen_cons. case_decide; [done|].
  destruct (find_from [x] s 0); [done|]. intros _. rewrite IH by done.
  destruct (find_from [x] t 0); simpl; [f_equal; lia|done].
Qed.

Lemma byte_at_app_l s t i : 0 ≤ i < zlen s → byte_at (s ++ t) i = byte_at s i.
Proof. intros Hi. unfold byte_at. rewrite lookup_app_l; [done|]. unfold zlen in Hi. lia. Qed.

Lemma substr_app_l s t pos n : 0 ≤ pos → 0 ≤ n → pos + n ≤ zlen s → substr (s ++ t) pos n = substr s pos n.
Proof.
  intros Hp Hn Hl. unfold substr, zlen in *. rewrite drop_app_le, take_app_le; [done| |lia].
  rewrite length_drop. lia.
Qed.

Lemma take_app_z s t n : n ≤ zlen s → take (Z.to_nat n) (s ++ t) = take (Z.to_nat n) s.
Proof. intros H. apply take_app_le. unfold zlen in H. lia. Qed.

Lemma drop_app_z s t n : n ≤ zlen s → drop (Z.to_nat n) (s ++ t) = drop (Z.to_nat n) s ++ t.
Proof. intros H. apply drop_app_le. unfold zlen in H. lia. Qed.

Lemma u64_le z : 0 ≤ z → 0 ≤ u64 z ≤ z.
Proof. intros Hz. split; [apply u64_range|]. by apply Z.mod_le. Qed.

Lemma take_past s t n : 0 ≤ n → take (Z.to_nat (zlen s + n)) (s ++ t) = s ++ take (Z.to_nat n) t.
Proof. intros Hn. rewrite Z2Nat.inj_add, to_nat_zlen by (done || apply zlen_nonneg). apply take_app_add. Qed.

Lemma drop_past s t n : 0 ≤ n → drop (Z.to_nat (zlen s + n)) (s ++ t) = drop (Z.to_nat n) t.
Proof. intros Hn. rewrite Z2Nat.inj_add, to_nat_zlen by (done || apply zlen_nonneg). apply drop_app_add. Qed.

(** The lengths of a connection between two calls. *)
Definition lens_ok c : Prop := 0 ≤ multibulk_len_ c ∧ -1 ≤ bulk_len_ c.

Lemma find1_pos s pos x : x ≠ 13 → byte_at s 0 = x → find_from [13] s 0 = Some pos → 1 ≤ pos.
Proof.
  intros Hx Hb. destruct s as [|a s]; [done|]. cbn in Hb. subst x. rewrite find1_cons, decide_False by done.
  destruct (find_from [13] s 0) eqn:E; [|done]. apply find1_app with (t := []) in E as [_ ?].
  simpl. intros; simplify_eq. lia.
Qed.

(** A result that does not wait for more input.  An error is one of the content,
    not of the size, if the input is small. *)
Definition settled s (st : ParserStatus) : Prop :=
  match st with
  | NEED_MORE => False
  | ParserERROR => zlen s ≤ PROTO_INLINE_MAX_SIZE
  | ParserOK => True
  end.

(** A header that is complete in [s] is read the same when more follows it. *)
Lemma read_bulk_len_app c s t c' s' r :
  read_bulk_len c s = (c', s', r) → match r with Some st => settled s st | None => True end →
  read_bulk_len c (s ++ t) = (c', s' ++ t, r).
Proof.
  unfold read_bulk_len. case_match; [by intros; simplify_eq|]. cbn [src_input bytes_source id].
  destruct (find_from [13] s 0) as [pos|] eqn:E; [|by case_match; intros; simplify_eq; bool_norm; simpl in *; lia].
  pose proof E as E'.
  apply find1_app with (t := t) in E' as [-> Hp]. rewrite zlen_app. pose proof (zlen_nonneg t).
  destruct (Z.eqb_spec (pos + 1) (zlen s)); [by intros; simplify_eq|].
  rewrite (proj2 (Z.eqb_neq (pos + 1) (zlen s + zlen t))) by lia. rewrite !byte_at_app_l by lia.
  destruct (negb (byte_at s 0 =? 36) || negb (byte_at s (pos + 1) =? 10)) eqn:Eh; [by intros; simplify_eq|].
  bool_norm. pose proof (find1_pos s pos 36 ltac:(done) ltac:(done) E). pose proof (u64_le (pos - 1) ltac:(lia)).
  rewrite substr_app_l by lia. destruct (atoi64 _) as [ll|]; [|by intros; simplify_eq].
  case_match; intros; simplify_eq; [done|]. by rewrite bytes_consume, drop_app_z by lia.
Qed.

Lemma read_multibulk_len_app c s t c' s' r :
  (multibulk_len_ c = 0 → byte_at s 0 = 42) →
  read_multibulk_len c s = (c', s', r) → match r with Some st => settled s st | None => True end →
  read_multibulk_len c (s ++ t) = (c', s' ++ t, r).
Proof.
  intros Hh. unfold read_multibulk_len.
  destruct (Z.eqb_spec (multibulk_len_ c) 0) as [H0|H0]; cbn [negb]; [|by intros; simplify_eq].
  cbn [src_input bytes_source id].
  destruct (find_from [13] s 0) as [pos|] eqn:E; [|by case_match; intros; simplify_eq; bool_norm; simpl in *; lia].
  pose proof E as E'.
  apply find1_app with (t := t) in E' as [-> Hp]. rewrite zlen_app. pose proof (zlen_nonneg t).
  destruct (Z.eqb_spec (pos + 1) (zlen s)); [by case_match; intros; simplify_eq; bool_norm; simpl in *; lia|].
  rewrite (proj2 (Z.eqb_neq (pos + 1) (zlen s + zlen t))) by lia.
  pose proof (find1_pos s pos 42 ltac:(done) (Hh H0) E). pose proof (u64_le (pos - 1) ltac:(lia)).
  rewrite substr_app_l by lia. destruct (atoi64 _) as [ll|]; [|by intros; simplify_eq].
  case_match; intros; simplify_eq; [done|]. by rewrite bytes_consume, drop_app_z by lia.
Qed.

Lemma read_multibulk_len_more c s c' s' :
  read_multibulk_len c s = (c', s', Some NEED_MORE) → c' = c ∧ s' = s.
Proof. unfold read_multibulk_len. repeat case_match; by intros; simplify_eq. Qed.

(** Afterwards the number of arguments is known. *)
Lemma read_multibulk_len_pos c s c' s' :
  0 ≤ multibulk_len_ c → read_multibulk_len c s = (c', s', None) →
  0 < multibulk_len_ c' ∧ bulk_len_ c' = bulk_len_ c ∧ ∀ t, read_multibulk_len c' t = (c', t, None).
Proof.
  intros Hm H.
  assert (0 < multibulk_len_ c' ∧ bulk_len_ c' = bulk_len_ c) as [Hp Hb].
  { revert H. unfold read_multibulk_len. repeat case_match; intros; simplify_eq/=; bool_norm; split; lia. }
  split; [done|]. split; [done|]. intros t. unfold read_multibulk_len.
  by rewrite (proj2 (Z.eqb_neq (multibulk_len_ c') 0)) by lia.
Qed.

Lemma header_stop_not_ok c s c' s' st :
  read_multibulk_len c s = (c', s', Some st) ∨ read_bulk_len c s = (c', s', Some st) → st ≠ ParserOK.
Proof. unfold read_multibulk_len, read_bulk_len. intros [H|H]; revert H; repeat case_match; by intros; simplify_eq. Qed.

Lemma read_bulk_len_more c s c' s' : read_bulk_len c s = (c', s', Some NEED_MORE) → c' = c ∧ s' = s.
Proof. unfold read_bulk_len. repeat case_match; by intros; simplify_eq. Qed.

Lemma read_bulk_len_multibulk c s : multibulk_len_ (read_bulk_len c s).1.1 = multibulk_len_ c.
Proof. unfold read_bulk_len. by repeat case_match. Qed.

(** The length is known now: reading it again does nothing. *)
Lemma read_bulk_len_again c s c' s' t :
  -1 ≤ bulk_len_ c → read_bulk_len c s = (c', s', None) → read_bulk_len c' t = (c', t, None).
Proof.
  intros Hb H. apply read_bulk_len_nonneg in H; [|done]. unfold read_bulk_len.
  by rewrite (proj2 (Z.eqb_neq (bulk_len_ c') (-1))) by lia.
Qed.

Lemma read_bulk_len_le c s c' s' : read_bulk_len c s = (c', s', None) → (length s' ≤ length s)%nat.
Proof.
  unfold read_bulk_len. repeat case_match; intros; simplify_eq; [done|].
  rewrite bytes_consume, length_drop. lia.
Qed.

Lemma read_multibulk_len_le c s c' s' : read_multibulk_len c s = (c', s', None) → (length s' ≤ length s)%nat.
Proof.
  unfold read_multibulk_len. repeat case_match; intros; simplify_eq; [done|].
  rewrite bytes_consume, length_drop. lia.
Qed.

Lemma store_token_app input t c :
  bulk_len_ c ≤ zlen input → store_token (input ++ t) c = store_token input c.
Proof. intros H. unfold store_token. by rewrite take_app_z. Qed.

Lemma store_token_lens input c :
  bulk_len_ (store_token input c) = -1 ∧ multibulk_len_ (store_token input c) = multibulk_len_ c - 1.
Proof. done. Qed.

Lemma multibulk_loop_app n c s t c' s' st :
  -1 ≤ bulk_len_ c → multibulk_loop n c s = (c', s', st) → settled s st →
  multibulk_loop n c (s ++ t) = (c', s' ++ t, st).
Proof.
  intros Hb H Hst. revert c s Hb H Hst.
  induction n as [|n IH]; intros c s Hb; cbn [multibulk_loop]; [by intros; simplify_eq|].
  destruct (read_bulk_len c s) as [[c1 s1] r] eqn:E. pose proof (read_bulk_len_app c s t c1 s1 r E) as Ha.
  destruct r as [st1|]; [intros; simplify_eq; by rewrite Ha|]. rewrite Ha by done.
  cbn [src_input bytes_source id]. rewrite zlen_app.
  pose proof (zlen_nonneg t). destruct (Z.ltb_spec (zlen s1) (bulk_len_ c1 + 2)) as [|Hl]; [by intros; simplify_eq|].
  rewrite (proj2 (Z.ltb_ge (zlen s1 + zlen t) (bulk_len_ c1 + 2))) by lia.
  rewrite store_token_app, !bytes_consume, drop_app_z by lia. intros H' Hst. apply IH; [done..|].
  apply read_bulk_len_le in E. destruct st; try done. unfold settled, zlen in *. rewrite length_drop. lia.
Qed.

Lemma multibulk_loop_resume n c s t c' s' :
  -1 ≤ bulk_len_ c → n = Z.to_nat (multibulk_len_ c) → 0 ≤ multibulk_len_ c →
  multibulk_loop n c s = (c', s', NEED_MORE) →
  0 < multibulk_len_ c' ∧ -1 ≤ bulk_len_ c' ∧
  multibulk_loop n c (s ++ t) = multibulk_loop (Z.to_nat (multibulk_len_ c')) c' (s' ++ t).
Proof.
  revert c s. induction n as [|n IH]; intros c s Hb Hn Hm Hloop; [done|].
  cbn [multibulk_loop] in Hloop. destruct (read_bulk_len c s) as [[c1 s1] [st|]] eqn:E.
  { simplify_eq. apply read_bulk_len_more in E as [-> ->]. rewrite <-Hn. split; [lia|done]. }
  pose proof (read_bulk_len_multibulk c s) as Hm1. rewrite E in Hm1. cbn [fst] in Hm1.
  pose proof (read_bulk_len_nonneg c s c1 s1 Hb E) as Hb1.
  assert (∀ k, multibulk_loop (S k) c (s ++ t) = multibulk_loop (S k) c1 (s1 ++ t)) as Heq.
  { intros k. cbn [multibulk_loop]. by rewrite (read_bulk_len_app c s t c1 s1 None E), (read_bulk_len_again c s c1 s1). }
  cbn [src_input bytes_source id] in Hloop. destruct (Z.ltb_spec (zlen s1) (bulk_len_ c1 + 2)) as [|Hl].
  { simplify_eq. split; [lia|]. split; [lia|]. by rewrite Hm1, <-Hn, Heq. }
  apply IH in Hloop as (Hm2 & Hb2 & Hr); [|done|rewrite (proj2 (store_token_lens _ _)); lia..].
  split; [done|]. split; [done|]. rewrite <-Hr, Heq. cbn [multibulk_loop].
  rewrite (read_bulk_len_again c s c1 s1) by done. cbn [src_input bytes_source id]. rewrite zlen_app.
  pose proof (zlen_nonneg t). rewrite (proj2 (Z.ltb_ge (zlen s1 + zlen t) (bulk_len_ c1 + 2))) by lia.
  by rewrite store_token_app, !bytes_consume, drop_app_z by lia.
Qed.

(** What a call needs to know of a multi bulk command in progress: its header
    is still at the start of the input, or its lengths are known. *)
Definition multibulk_ok c s : Prop :=
  lens_ok c ∧ (multibulk_len_ c = 0 → byte_at s 0 = 42).

Lemma ParseMultiBulk_app c s t c' s' st :
  multibulk_ok c s → ParseMultiBulk c s = (c', s', st) → settled s st →
  ParseMultiBulk c (s ++ t) = (c', s' ++ t, st).
Proof.
  intros [[Hm Hb] Hh]. unfold ParseMultiBulk.
  destruct (read_multibulk_len c s) as [[c1 s1] r] eqn:E. pose proof (read_multibulk_len_app c s t c1 s1 r Hh E) as Ha.
  destruct r as [st1|]; [intros; simplify_eq; by rewrite Ha|]. rewrite Ha by done. intros H Hst.
  pose proof E as E'. apply read_multibulk_len_pos in E' as (_ & Hb1 & _); [|done].
  apply multibulk_loop_app; [lia|done|]. destruct st; try done.
  apply read_multibulk_len_le in E. unfold settled, zlen in *. lia.
Qed.

Lemma ParseMultiBulk_resume c s t c' s' :
  multibulk_ok c s → s ≠ [] → ParseMultiBulk c s = (c', s', NEED_MORE) →
  multibulk_ok c' (s' ++ t) ∧ ParseMultiBulk c (s ++ t) = ParseMultiBulk c' (s' ++ t).
Proof.
  intros [[Hm Hb] Hh] Hs H. unfold ParseMultiBulk in H.
  destruct (read_multibulk_len c s) as [[c1 s1] [st|]] eqn:E.
  { simplify_eq. apply read_multibulk_len_more in E as [-> ->]. split; [|done].
    split; [done|]. intros H0. rewrite byte_at_app_l; [auto|]. destruct s; [done|].
    rewrite zlen_cons. pose proof (zlen_nonneg s). lia. }
  pose proof E as E'. apply read_multibulk_len_pos in E' as (Hm1 & Hb1 & Ha); [|done].
  apply multibulk_loop_resume with (t := t) in H as (Hm2 & Hb2 & Hr); [|lia|done|lia].
  split; [split; [split|]; lia|]. unfold ParseMultiBulk at 1.
  rewrite (read_multibulk_len_app c s t c1 s1 None) by done. rewrite Hr. unfold ParseMultiBulk, read_multibulk_len.
  by rewrite (proj2 (Z.eqb_neq (multibulk_len_ c') 0)) by lia.
Qed.

Lemma ParseMultiBulk_state c s : state_ (ParseMultiBulk c s).1.1 = state_ c.
Proof.
  unfold ParseMultiBulk.
  assert (state_ (read_multibulk_len c s).1.1 = state_ c) as H1
    by (unfold read_multibulk_len; by repeat case_match).
  destruct (read_multibulk_len c s) as [[c1 s1] [st|]]; cbn [fst] in *; [done|]. rewrite <-H1. clear.
  generalize (Z.to_nat (multibulk_len_ c1)). intros n. revert c1 s1.
  induction n as [|n IH]; intros c s; [done|]. cbn [multibulk_loop].
  assert (state_ (read_bulk_len c s).1.1 = state_ c) as H2 by (unfold read_bulk_len; by repeat case_match).
  destruct (read_bulk_len c s) as [[c1 s1] [st|]]; cbn [fst] in *; [done|].
  case_match; [done|]. by rewrite IH.
Qed.

(** A complete line is parsed the same when more follows it. *)
Lemma parse_inline_app c s t :
  match parse_inline c s with Some (_, _, st) => settled s st | None => True end →
  parse_inline c (s ++ t) = (λ '(c', s', st), (c', s' ++ t, st)) <$> parse_inline c s.
Proof.
  unfold parse_inline. cbn [src_input bytes_source id].
  destruct (find_from [10] s 0) as [pos|] eqn:E; 
    [|destruct (Z.ltb_spec PROTO_INLINE_MAX_SIZE (zlen s)); cbn [settled]; [lia|done]].
  apply find1_app with (t := t) in E as [-> Hp].
  assert (byte_at (s ++ t) (pos - 1) = byte_at s (pos - 1) ∨ pos = 0) as Hb.
  { destruct (decide (pos = 0)); [by right|left]. apply byte_at_app_l. lia. }
  assert ((0 <? pos) && (byte_at (s ++ t) (pos - 1) =? 13) = (0 <? pos) && (byte_at s (pos - 1) =? 13)) as ->.
  { destruct Hb as [Hb|Hb]; rewrite Hb; done. }
  destruct ((0 <? pos) && (byte_at s (pos - 1) =? 13)) eqn:Ec; bool_norm; rewrite take_app_z by lia;
    (destruct (sdssplitargs _) as [[|a argv]|]; [done| |done]); intros _; simpl; rewrite drop_app_z by lia; done.
Qed.

(** Two outcomes that no client can tell apart: equal, or both an error. *)
Definition agree {X Y} (r : option (X * Y * ParserStatus)) (r' : option (X * Y * ParserStatus)) : Prop :=
  r = r' ∨ ∃ x y x' y', r = Some (x, y, ParserERROR) ∧ r' = Some (x', y', ParserERROR).

#[export] Instance agree_equiv {X Y} : Equivalence (@agree X Y).
Proof.
  split.
  - intros r. by left.
  - intros r r' [->|(x & y & x' & y' & -> & ->)]; [by left|]. right. by do 4 eexists.
  - intros r r' r'' [->|(x & y & x' & y' & -> & ->)]; [done|].
    intros [<-|(a & b & a' & b' & E & ->)]; right; by do 4 eexists.
Qed.

Lemma last_cr s :
  byte_at s (zlen s - 1) = 13 → 0 < zlen s → ∃ s0, s = s0 ++ [13] ∧ zlen s - 1 = zlen s0.
Proof.
  destruct s as [|x s0 _] using rev_ind; [done|]. rewrite zlen_app. change (zlen [x]) with 1.
  replace (zlen s0 + 1 - 1) with (zlen s0) by lia. rewrite byte_at_app. intros -> _. by exists s0.
Qed.

(** What [parse_inline] does once it has the line [stash]. *)
Definition inline_line c (stash s : bytes) : option (Connection * bytes * ParserStatus) :=
  match sdssplitargs stash with
  | None => Some (c <| parse_stash_ := stash |>, s, ParserERROR)
  | Some [] => None
  | Some argv =>
      Some (c <| parse_stash_ := [] |> <| cc_ ::= λ cc, AddParsedCommand cc (Some <$> argv) (zlen argv) true |>,
            s, ParserOK)
  end.

Lemma inline_line_agree c c' stash stash' s s' :
  sdssplitargs stash = sdssplitargs stash' → c <| parse_stash_ := [] |> = c' <| parse_stash_ := [] |> →
  s = s' → agree (inline_line c stash s) (inline_line c' stash' s').
Proof.
  intros He Hc <-. unfold inline_line. rewrite He. destruct (sdssplitargs stash') as [[|a argv]|].
  - by left.
  - left. by rewrite Hc.
  - right. by do 4 eexists.
Qed.

(** Where the line ends: the length without the line feed, and its length. *)
Definition line_end s (pos : Z) : Z * Z :=
  if (0 <? pos) && (byte_at s (pos - 1) =? 13) then (pos - 1, 2) else (pos, 1).

Lemma parse_inline_found c s pos :
  find_from [10] s 0 = Some pos →
  let '(querylen, linefeed_chars) := line_end s pos in
  agree (parse_inline c s)
    (inline_line c ((parse_stash_ c ++ take (Z.to_nat querylen) s) ++ [0])
       (drop (Z.to_nat (querylen + linefeed_chars)) s)).
Proof.
  intros E. unfold parse_inline, line_end, inline_line. cbn [src_input bytes_source id]. rewrite E.
  destruct ((0 <? pos) && (byte_at s (pos - 1) =? 13)); cbn [parse_stash_ set setter];
    (match goal with |- context [sdssplitargs ?l] => destruct (sdssplitargs l) as [[|a argv]|] eqn:Es end);
    change (parse_stash_ (c <| parse_stash_ ::= ?f |>)) with (f (parse_stash_ c)); cbv beta; rewrite ?Es;
    first [by left | right; by do 4 eexists].
Qed.

Lemma parse_inline_resume c s t c' s' :
  s ≠ [] → t ≠ [] → zlen (s ++ t) ≤ PROTO_INLINE_MAX_SIZE →
  parse_inline c s = Some (c', s', NEED_MORE) → agree (parse_inline c (s ++ t)) (parse_inline c' (s' ++ t)).
Proof.
  intros Hs Ht Hmax. unfold parse_inline at 1. cbn [src_input bytes_source id].
  destruct (find_from [10] s 0) as [pos|] eqn:E; [by repeat case_match|].
  case_match; [done|]. intros; simplify_eq. rewrite bytes_consume, drop_all_z by lia. simpl app.
  assert (0 < zlen s) as Hl by (destruct s; [done|]; rewrite zlen_cons; pose proof (zlen_nonneg s); lia).
  pose proof (find1_none_app 10 s t E) as Ef. destruct (find_from [10] t 0) as [p|] eqn:Et; simpl in Ef.
  - pose proof (parse_inline_found c (s ++ t) _ Ef) as H1.
    pose proof (parse_inline_found (c <| parse_stash_ ::= λ r, r ++ s |>) t _ Et) as H2.
    apply find1_app with (t := []) in Et as [_ Hp]. unfold line_end in *.
    rewrite (proj2 (Z.ltb_lt 0 (zlen s + p))) in H1 by lia. cbn [andb] in H1.
    destruct (Z.ltb_spec 0 p) as [Hp0|Hp0]; cbn [andb] in H2.
    + rewrite byte_at_app_at in H1 by lia. replace (zlen s + p - 1 - zlen s) with (p - 1) in H1 by lia.
      assert (∀ q k, 0 ≤ q → 0 ≤ k → agree (inline_line c ((parse_stash_ c ++ take (Z.to_nat (zlen s + q)) (s ++ t)) ++ [0])
                  (drop (Z.to_nat (zlen s + q + k)) (s ++ t)))
                (inline_line (c <| parse_stash_ ::= λ r, r ++ s |>)
                  (((parse_stash_ c ++ s) ++ take (Z.to_nat q) t) ++ [0]) (drop (Z.to_nat (q + k)) t))) as Hq.
      { intros q k Hq0 Hk. apply inline_line_agree; [|done|].
        - by rewrite take_past, app_assoc by lia.
        - rewrite <-Z.add_assoc. apply drop_past. lia. }
      destruct (byte_at t (p - 1) =? 13); rewrite H1, H2.
      * replace (zlen s + p - 1) with (zlen s + (p - 1)) by lia. apply Hq; lia.
      * apply Hq; lia.
    + assert (p = 0) as -> by lia. rewrite Z.add_0_r in *. rewrite byte_at_app_l in H1 by lia.
      rewrite H2. destruct (Z.eqb_spec (byte_at s (zlen s - 1)) 13) as [Hcr|Hcr].
      * rewrite H1. destruct (last_cr s Hcr Hl) as (s0 & -> & Hl0). rewrite zlen_app in *. change (zlen [13]) with 1 in *.
        replace (zlen s0 + 1 - 1) with (zlen s0) by lia. apply inline_line_agree; [|done|].
        -- change (Z.to_nat 0) with 0%nat. rewrite take_0, app_nil_r, !sdssplitargs_nul, <-app_assoc.
           cbn [parse_stash_ set setter]. unfold set, setter. simpl.
           rewrite to_nat_zlen, take_app_length, app_assoc. by rewrite sdssplitargs_cr.
        -- replace (zlen s0 + 2) with (zlen (s0 ++ [13]) + 1) by (rewrite zlen_app; change (zlen [13]) with 1; lia).
           by rewrite drop_past by lia.
      * rewrite H1. apply inline_line_agree; [|done|].
        -- change (Z.to_nat 0) with 0%nat. rewrite take_0, app_nil_r, to_nat_zlen, take_app_length. done.
        -- by rewrite drop_past by lia.
  - left. unfold parse_inline. cbn [src_input bytes_source id]. rewrite Ef, Et.
    rewrite (proj2 (Z.ltb_ge PROTO_INLINE_MAX_SIZE (zlen (s ++ t)))) by lia. rewrite zlen_app in Hmax.
    rewrite (proj2 (Z.ltb_ge PROTO_INLINE_MAX_SIZE (zlen t))) by lia.
    rewrite !bytes_consume, !drop_all_z by lia. simpl. by rewrite app_assoc.
Qed.

(** [parse_turn] in three parts: the state for a new command, one of the two
    parsers, the checks after it. *)
Definition enter c s : Connection :=
  if bool_decide (state_ c = INIT) then
    c <| state_ := if byte_at s 0 =? 42 then PARSE_MULTIBULK else PARSE_INLINE |>
  else c.

Definition turn_body c s : option (Connection * bytes * ParserStatus) :=
  if bool_decide (state_ c = PARSE_INLINE) then parse_inline c s else Some (ParseMultiBulk c s).

Definition turn_end (r : option (Connection * bytes * ParserStatus)) : option (Connection * bytes * ParserStatus) :=
  '(c, s, status) ← r;
  match status with
  | ParserOK =>
      if (multibulk_len_ c =? 0) && (bulk_len_ c =? -1) then Some (c <| state_ := INIT |>, s, ParserOK) else None
  | _ => Some (c, s, status)
  end.

Lemma parse_turn_parts c s : parse_turn c s = turn_end (turn_body (enter c s) s).
Proof. done. Qed.

#[export] Instance turn_end_agree : Proper (agree ==> agree) turn_end.
Proof. intros r r' [->|(x & y & x' & y' & -> & ->)]; [done|]. right. by do 4 eexists. Qed.

Definition turn_ok c s : Prop :=
  lens_ok c ∧ (state_ c = PARSE_MULTIBULK → multibulk_len_ c = 0 → byte_at s 0 = 42).

Lemma byte_at_0_app s t : s ≠ [] → byte_at (s ++ t) 0 = byte_at s 0.
Proof. by destruct s. Qed.

Lemma enter_app c s t : s ≠ [] → enter c (s ++ t) = enter c s.
Proof. intros Hs. unfold enter. by rewrite byte_at_0_app. Qed.

Lemma enter_ok c s : turn_ok c s → turn_ok (enter c s) s ∧ state_ (enter c s) ≠ INIT.
Proof.
  intros [Hl Hh]. unfold enter, turn_ok. case_bool_decide as E; [|done].
  destruct (Z.eqb_spec (byte_at s 0) 42); (split; [split; [exact Hl|]|]); simpl; auto; done.
Qed.

Lemma turn_end_status r c s st :
  turn_end r = Some (c, s, st) → st ≠ ParserOK → r = Some (c, s, st).
Proof. unfold turn_end. intros H Hst. apply bind_Some in H as ([[c1 s1] st1] & -> & H). by repeat case_match; simplify_eq. Qed.

Lemma turn_end_ok r c s :
  turn_end r = Some (c, s, ParserOK) → ∃ c1, r = Some (c1, s, ParserOK) ∧
    multibulk_len_ c1 = 0 ∧ bulk_len_ c1 = -1 ∧ c = c1 <| state_ := INIT |>.
Proof.
  unfold turn_end. intros H. apply bind_Some in H as ([[c1 s1] st1] & -> & H).
  repeat case_match; simplify_eq. bool_norm. by exists c1.
Qed.

Lemma parse_turn_app c s t :
  turn_ok c s → s ≠ [] → match parse_turn c s with Some (_, _, st) => settled s st | None => True end →
  parse_turn c (s ++ t) = (λ '(c', s', st), (c', s' ++ t, st)) <$> parse_turn c s.
Proof.
  intros Hok Hs. rewrite !parse_turn_parts, enter_app by done.
  destruct (enter_ok c s Hok) as [[Hl Hh] Hst]. generalize dependent (enter c s). clear c Hok. intros c Hl Hh Hst Hset.
  assert (match turn_body c s with Some (_, _, st) => settled s st | None => True end) as Hset'.
  { destruct (turn_body c s) as [[[c1 s1] st]|]; [|done]. by destruct st. }
  assert (turn_body c (s ++ t) = (λ '(c', s', st), (c', s' ++ t, st)) <$> turn_body c s) as ->.
  { unfold turn_body in *. case_bool_decide as E; [by apply parse_inline_app|].
    destruct (ParseMultiBulk c s) as [[c1 s1] st] eqn:Ep. simpl. f_equal.
    apply ParseMultiBulk_app; [|done|done]. split; [done|]. apply Hh. by destruct (state_ _). }
  destruct (turn_body c s) as [[[c1 s1] st]|]; [|done]. cbn [fmap option_fmap option_map].
  unfold turn_end. cbn [mbind option_bind]. destruct st; try done.
  by destruct ((multibulk_len_ c1 =? 0) && (bulk_len_ c1 =? -1)).
Qed.

Lemma parse_inline_more_state c s c' s' :
  parse_inline c s = Some (c', s', NEED_MORE) →
  state_ c' = state_ c ∧ multibulk_len_ c' = multibulk_len_ c ∧ bulk_len_ c' = bulk_len_ c.
Proof. unfold parse_inline. repeat case_match; intros; by simplify_eq. Qed.

Lemma parse_turn_resume c s t c' s' :
  turn_ok c s → s ≠ [] → t ≠ [] → parse_turn c s = Some (c', s', NEED_MORE) →
  (state_ c' = PARSE_INLINE → zlen (s ++ t) ≤ PROTO_INLINE_MAX_SIZE) →
  turn_ok c' (s' ++ t) ∧ agree (parse_turn c (s ++ t)) (parse_turn c' (s' ++ t)).
Proof.
  intros Hok Hs Ht. rewrite !parse_turn_parts, enter_app by done.
  destruct (enter_ok c s Hok) as [[Hl Hh] Hst]. intros H%turn_end_status Hmax; [|done].
  generalize dependent (enter c s). clear c Hok. intros c Hl Hh Hst H.
  unfold turn_body in H. case_bool_decide as E.
  - destruct (parse_inline_more_state c s c' s' H) as (E1 & E2 & E3). split.
    { split; [split; rewrite ?E2, ?E3; apply Hl|]. rewrite E1, E. done. }
    unfold enter. rewrite bool_decide_false by (by rewrite E1). unfold turn_body. rewrite E1, E, bool_decide_true by done.
    apply turn_end_agree, parse_inline_resume; auto. apply Hmax. by rewrite E1.
  - simplify_eq. pose proof (ParseMultiBulk_state c s) as E1. rewrite H in E1. cbn [fst] in E1.
    assert (state_ c = PARSE_MULTIBULK) as E2 by (by destruct (state_ c)).
    destruct (ParseMultiBulk_resume c s t c' s') as [[Hl' Hh'] Hr]; [split; auto|done|done|].
    split; [by split|]. unfold enter. rewrite E1, E2, bool_decide_false by done.
    unfold turn_body. rewrite E1, E2, bool_decide_false by done. by rewrite Hr.
Qed.

(** *** Termination *)

Lemma multibulk_loop_shrinks n c s c' s' :
  -1 ≤ bulk_len_ c → multibulk_loop n c s = (c', s', ParserOK) → (length s' + 2 * n ≤ length s)%nat.
Proof.
  revert c s. induction n as [|n IH]; intros c s Hb; cbn [multibulk_loop]; [intros; simplify_eq; lia|].
  destruct (read_bulk_len c s) as [[c1 s1] [st|]] eqn:E.
  { intros; simplify_eq. by destruct (header_stop_not_ok c s c' s' ParserOK (or_intror E)). }
  pose proof (read_bulk_len_le _ _ _ _ E). pose proof (read_bulk_len_nonneg c s c1 s1 Hb E).
  cbn [src_input bytes_source id]. destruct (Z.ltb_spec (zlen s1) (bulk_len_ c1 + 2)) as [|Hl]; [done|].
  intros H'. apply IH in H'; [|done]. rewrite bytes_consume, length_drop in H'. unfold zlen in Hl. lia.
Qed.

Lemma ParseMultiBulk_shrinks c s c' s' :
  lens_ok c → s ≠ [] → ParseMultiBulk c s = (c', s', ParserOK) → (length s' < length s)%nat.
Proof.
  intros [Hm Hb] Hs. unfold ParseMultiBulk.
  destruct (read_multibulk_len c s) as [[c1 s1] [st|]] eqn:E.
  { intros; simplify_eq. by destruct (header_stop_not_ok c s c' s' ParserOK (or_introl E)). }
  pose proof E as E'. apply read_multibulk_len_pos in E' as (Hm1 & Hb1 & _); [|done].
  intros H%multibulk_loop_shrinks; [|lia].
  apply read_multibulk_len_le in E. lia.
Qed.

Lemma parse_inline_shrinks c s c' s' :
  s ≠ [] → parse_inline c s = Some (c', s', ParserOK) → (length s' < length s)%nat.
Proof.
  intros Hs. unfold parse_inline. cbn [src_input bytes_source id].
  destruct (find_from [10] s 0) as [pos|] eqn:E; [|by case_match].
  apply find1_app with (t := []) in E as [_ Hp].
  destruct ((0 <? pos) && (byte_at s (pos - 1) =? 13)) eqn:Ec; bool_norm;
    (destruct (sdssplitargs _) as [[|a argv]|]; [done| |done]); intros; simplify_eq;
    rewrite bytes_consume, length_drop; destruct s; simpl; lia || done.
Qed.

Lemma parse_turn_shrinks c s c' s' :
  lens_ok c → s ≠ [] → parse_turn c s = Some (c', s', ParserOK) → (length s' < length s)%nat.
Proof.
  intros Hl Hs. rewrite parse_turn_parts. intros (c1 & H & _)%turn_end_ok.
  assert (lens_ok (enter c s)) by (unfold enter; case_bool_decide; exact Hl). unfold turn_body in H.
  case_bool_decide; [by eapply parse_inline_shrinks|]. simplify_eq. by eapply ParseMultiBulk_shrinks.
Qed.

Lemma parse_turn_ok_lens_ok c s c' s' : parse_turn c s = Some (c', s', ParserOK) → lens_ok c' ∧ state_ c' = INIT.
Proof. intros H. apply parse_turn_ok_lens in H as (H1 & H2 & H3). split; [unfold lens_ok; lia|done]. Qed.

(** The number of turns that [ParseRedis] allows is never reached. *)
Lemma parse_turns_enough n c s :
  lens_ok c → (length s ≤ n)%nat → parse_turns n c s = ParseRedis c s.
Proof.
  unfold ParseRedis. cbn [src_input bytes_source id].
  enough (∀ k c s n m, lens_ok c → (length s ≤ k)%nat → (length s ≤ n)%nat → (length s ≤ m)%nat →
            parse_turns n c s = parse_turns m c s) by eauto.
  clear. induction k as [|k IH]; intros c s n m Hl Hk Hn Hm.
  { destruct s; [by destruct n, m|simpl in Hk; lia]. }
  destruct s as [|a s]; [by destruct n, m|]. destruct n as [|n], m as [|m]; try (simpl in *; lia).
  cbn [parse_turns]. cbn [src_input bytes_source id].
  destruct (parse_turn c (a :: s)) as [[[c1 s1] st]|] eqn:E; [|done]. simpl. destruct st; try done.
  pose proof (parse_turn_shrinks c (a :: s) c1 s1 Hl ltac:(done) E). apply parse_turn_ok_lens_ok in E as [Hl1 _].
  simpl in *. apply IH; [done|lia..].
Qed.

Lemma ParseRedis_nil c : ParseRedis c [] = Some (c, [], ParserOK).
Proof. done. Qed.

Lemma ParseRedis_cons c s :
  lens_ok c → s ≠ [] →
  ParseRedis c s = ('(c, s, status) ← parse_turn c s;
                    match status with ParserOK => ParseRedis c s | _ => Some (c, s, status) end).
Proof.
  intros Hl Hs. destruct s as [|a s]; [done|]. unfold ParseRedis at 1. cbn [src_input bytes_source id length parse_turns].
  destruct (parse_turn c (a :: s)) as [[[c1 s1] st]|] eqn:E; [|done]. simpl. destruct st; try done.
  pose proof (parse_turn_shrinks c (a :: s) c1 s1 Hl ltac:(done) E). apply parse_turn_ok_lens_ok in E as [Hl1 _].
  apply parse_turns_enough; [done|]. simpl in *. lia.
Qed.

(** *** Chunks *)

Lemma ParseRedis_resume_aux c s t c' s' st :
  turn_ok c s → t ≠ [] → st ≠ ParserERROR → ParseRedis c s = Some (c', s', st) →
  (state_ c' = PARSE_INLINE → zlen (s ++ t) ≤ PROTO_INLINE_MAX_SIZE) →
  turn_ok c' (s' ++ t) ∧ agree (ParseRedis c (s ++ t)) (ParseRedis c' (s' ++ t)).
Proof.
  remember (length s) as n eqn:Hn. revert c s Hn.
  induction n as [n IH] using lt_wf_ind. intros c s -> Hok Ht Hst Hp Hmax.
  destruct (decide (s = [])) as [->|Hs].
  { rewrite ParseRedis_nil in Hp. simplify_eq. split; [|done]. destruct Hok as [Hl Hh].
    split; [done|]. intros E1 E2. by specialize (Hh E1 E2). }
  pose proof Hok as [Hl _]. rewrite ParseRedis_cons in Hp by done.
  destruct (parse_turn c s) as [[[c1 s1] st1]|] eqn:E; [|done]. simpl in Hp.
  assert (s ++ t ≠ []) as Hst' by (by destruct s).
  destruct st1; [| |by simplify_eq].
  - rewrite (ParseRedis_cons c (s ++ t)), (parse_turn_app c s t) by (done || by rewrite E). rewrite E. simpl.
    pose proof (parse_turn_shrinks _ _ _ _ Hl Hs E) as Hlt. apply parse_turn_ok_lens_ok in E as [Hl1 E1].
    apply (IH (length s1)); [done|done| |done|done|done|].
    + split; [done|]. by rewrite E1.
    + intros H'. apply Hmax in H'. rewrite zlen_app in *. unfold zlen in *. lia.
  - simplify_eq. destruct (parse_turn_resume c s t c' s') as [Hok' Hag]; [done..|]. split; [done|].
    assert (s' ++ t ≠ []) as Hst'' by (destruct s', t; done). pose proof Hok' as [Hl' _].
    rewrite !ParseRedis_cons by done. destruct Hag as [->|(x & y & x' & y' & -> & ->)]; [done|].
    right. by do 4 eexists.
Qed.

(** One read: the bytes are added to the buffer and parsed. *)
Definition feed c s (chunk : bytes) := ParseRedis c (s ++ chunk).

(** Read after read, as long as the connection is not closed for an error. *)
Fixpoint feed_all c s (chunks : list bytes) : option (Connection * bytes * ParserStatus) :=
  match chunks with
  | [] => Some (c, s, NEED_MORE)
  | chunk :: chunks =>
      '(c', s', st) ← feed c s chunk;
      match chunks, st with
      | [], _ | _, ParserERROR => Some (c', s', st)
      | _, _ => feed_all c' s' chunks
      end
  end.

(** The unread input only gets shorter. *)
Lemma header_le c s : (length (read_bulk_len c s).1.2 ≤ length s ∧ length (read_multibulk_len c s).1.2 ≤ length s)%nat.
Proof.
  unfold read_bulk_len, read_multibulk_len.
  split; repeat case_match; cbn [fst snd]; rewrite ?bytes_consume, ?length_drop; lia.
Qed.

Lemma multibulk_loop_le n c s : (length (multibulk_loop n c s).1.2 ≤ length s)%nat.
Proof.
  revert c s. induction n as [|n IH]; intros c s; [done|]. cbn [multibulk_loop].
  pose proof (proj1 (header_le c s)) as Hle. destruct (read_bulk_len c s) as [[c1 s1] [st|]]; cbn [fst snd] in *; [done|].
  case_match; [done|]. etransitivity; [apply IH|]. rewrite bytes_consume, length_drop. lia.
Qed.

Lemma parse_turn_le c s c' s' st : parse_turn c s = Some (c', s', st) → (length s' ≤ length s)%nat.
Proof.
  rewrite parse_turn_parts. generalize (enter c s). clear c. intros c H.
  assert (∃ c1, turn_body c s = Some (c1, s', st)) as [c1 Hb].
  { unfold turn_end in H. apply bind_Some in H as ([[c1 s1] st1] & -> & H).
    repeat case_match; simplify_eq; by eexists. }
  unfold turn_body in Hb. case_bool_decide.
  - revert Hb. unfold parse_inline. repeat case_match; intros; simplify_eq; rewrite ?bytes_consume, ?length_drop; lia.
  - simplify_eq. revert Hb. unfold ParseMultiBulk. pose proof (proj2 (header_le c s)) as Hle.
    destruct (read_multibulk_len c s) as [[c2 s2] [st2|]]; cbn [fst snd] in *; [by intros; simplify_eq|].
    intros Hb. pose proof (multibulk_loop_le (Z.to_nat (multibulk_len_ c2)) c2 s2) as Hl. rewrite Hb in Hl.
    cbn [fst snd] in Hl. lia.
Qed.

(** Induction over the turns of one call. *)
Lemma ParseRedis_ind (P : Connection → bytes → Prop) :
  (∀ c s, lens_ok c → (∀ c' s', s ≠ [] → parse_turn c s = Some (c', s', ParserOK) → P c' s') → P c s) →
  ∀ c s, lens_ok c → P c s.
Proof.
  intros Hstep c s. remember (length s) as n eqn:Hn. revert c s Hn.
  induction n as [n IH] using lt_wf_ind. intros c s -> Hl. apply Hstep; [done|].
  intros c' s' Hs Ht. eapply IH; [|done|by apply parse_turn_ok_lens_ok in Ht as [? _]].
  by eapply parse_turn_shrinks.
Qed.

Lemma ParseRedis_le c s c' s' st : lens_ok c → ParseRedis c s = Some (c', s', st) → (length s' ≤ length s)%nat.
Proof.
  intros Hl. revert c s Hl. apply (ParseRedis_ind (λ c s, ParseRedis c s = Some (c', s', st) → (length s' ≤ length s)%nat)).
  intros c s Hl IH H. destruct (decide (s = [])) as [->|Hs]; [by rewrite ParseRedis_nil in H; simplify_eq|].
  rewrite ParseRedis_cons in H by done. apply bind_Some in H as ([[c1 s1] st1] & Ht & H).
  pose proof (parse_turn_le _ _ _ _ _ Ht). destruct st1; simplify_eq; [|done..].
  specialize (IH _ _ Hs Ht H). lia.
Qed.

(** A failure is not undone by more input. *)
Lemma ParseRedis_fails_app c s t :
  turn_ok c s → zlen s ≤ PROTO_INLINE_MAX_SIZE →
  match ParseRedis c s with Some (_, _, ParserERROR) | None => True | _ => False end →
  agree (ParseRedis c (s ++ t)) (ParseRedis c s).
Proof.
  intros Hok. pose proof (proj1 Hok) as Hl. revert c s Hl Hok.
  apply (ParseRedis_ind (λ c s, turn_ok c s → zlen s ≤ PROTO_INLINE_MAX_SIZE →
    match ParseRedis c s with Some (_, _, ParserERROR) | None => True | _ => False end →
    agree (ParseRedis c (s ++ t)) (ParseRedis c s))).
  intros c s Hl IH Hok Hmax. destruct (decide (s = [])) as [->|Hs]; [by rewrite ParseRedis_nil|].
  assert (s ++ t ≠ []) as Hst by (by destruct s). rewrite !ParseRedis_cons by done.
  pose proof (parse_turn_app c s t Hok Hs) as Ha.
  destruct (parse_turn c s) as [[[c1 s1] st1]|] eqn:Ht; cbn [mbind option_bind]; [|intros _; by rewrite Ha].
  destruct st1; [|done|intros _; rewrite Ha by done; right; by do 4 eexists].
  rewrite Ha by done. cbn [mbind option_bind fmap option_fmap option_map]. intros H.
  pose proof (parse_turn_le _ _ _ _ _ Ht). pose proof (parse_turn_ok_lens_ok _ _ _ _ Ht) as [Hl1 E1].
  apply IH; [done|done| |unfold zlen in *; lia|done]. split; [done|]. by rewrite E1.
Qed.

End chunks.

Section examples.
#[local] Existing Instance decimal_atoi.

End examples.
