(* ===== verification/CommandStream.v ===== *)
(** Pipelines of commands: what a connection makes of the RESP encoding of any
    commands, in whatever pieces it arrives. *)
From stdpp Require Import base list strings.
From S2P Require Import Prelude Absl Sds IoBuf DbSlice ReplyBuilder ConnContext CommandEncoder Connection.

Open Scope Z_scope.

Section stream.
Context {absl : Absl} {absl_spec : AbslSpec absl}.
Implicit Types (c : Connection) (s t : bytes) (args : list bytes).

(** The command the parser has to put in the queue. *)
Definition full_command args : ParsedCommand :=
  mkParsedCommand (Some <$> args) (zlen args) true false false Monostate false false.

(** The same command when the first [k] arguments have arrived. *)
Definition partial_command args (k : nat) : ParsedCommand :=
  mkParsedCommand ((Some <$> take k args) ++ replicate (length args - k) None) (zlen args)
    false false false Monostate false false.

Definition add_command c (cmd : ParsedCommand) : Connection :=
  c <| cc_ ::= λ cc, cc <| parsed ::= λ l, l ++ [cmd] |> |>.

Definition command_ok args : Prop :=
  args ≠ [] ∧ zlen args ≤ INT32_MAX ∧ Forall (λ a, zlen a ≤ INT64_MAX) args.

(** Between two commands. *)
Definition ready c : Prop :=
  state_ c = INIT ∧ multibulk_len_ c = 0 ∧ bulk_len_ c = -1.

(** ** Headers *)

Lemma to_string_no_cr n : 0 ≤ n → Forall (λ x, x ≠ 13) (to_string n).
Proof. intros Hn. apply to_string_ne; [done|lia]. Qed.

Lemma find_cr_header x n t :
  x ≠ 13 → 0 ≤ n → find_from [13] (x :: to_string n ++ CRLF ++ t) 0 = Some (1 + zlen (to_string n)).
Proof.
  intros Hx Hn. pose proof (find_from_first 13 [] [] (x :: to_string n) (10 :: t)) as H.
  cbn [app] in H. rewrite zlen_cons, zlen_nil in H. apply H. constructor; [done|by apply to_string_no_cr].
Qed.

Lemma find_cr_none (h : bytes) : Forall (λ x, x ≠ 13) h → find_from [13] h 0 = None.
Proof. intros Hh. unfold find_from. simpl. by rewrite find_nat_none. Qed.

Lemma zlen_to_string n : zlen (to_string n) ≤ 20.
Proof.
  assert (∀ fuel n acc, zlen (dec_aux fuel n acc) ≤ Z.of_nat fuel + zlen acc) as H.
  { induction fuel as [|fuel IH]; intros m acc; cbn [dec_aux]; [lia|].
    case_match; [rewrite zlen_cons; lia|]. etransitivity; [apply IH|]. rewrite zlen_cons. lia. }
  specialize (H 20%nat n []). unfold to_string. change (zlen []) with 0 in H. lia.
Qed.

(** A header [x<n>\r\n], cut off. *)
Lemma header_prefix x n (p : bytes) :
  x ≠ 13 → 0 ≤ n → p `prefix_of` x :: to_string n ++ CRLF → p ≠ x :: to_string n ++ CRLF →
  zlen p ≤ PROTO_INLINE_MAX_SIZE ∧
  (find_from [13] p 0 = None ∨ ∃ pos, find_from [13] p 0 = Some pos ∧ pos + 1 = zlen p).
Proof.
  intros Hx Hn Hp Hne. pose proof (zlen_to_string n).
  assert (Forall (λ y, y ≠ 13) (x :: to_string n)) as Hcr by (constructor; [done|by apply to_string_no_cr]).
  change (x :: to_string n ++ CRLF) with ((x :: to_string n) ++ [13] ++ [10]) in *.
  assert (p `prefix_of` x :: to_string n ∨ p = (x :: to_string n) ++ [13]) as [Hh| ->].
  { destruct Hp as [k Hk]. destruct k as [|z k _] using rev_ind; [rewrite app_nil_r in Hk; congruence|].
    rewrite !app_assoc in Hk. apply app_inj_tail in Hk as [Hk _].
    destruct k as [|z' k _] using rev_ind; [right; by rewrite app_nil_r in Hk|].
    rewrite app_assoc in Hk. apply app_inj_tail in Hk as [Hk _]. left. by exists k. }
  - split.
    + apply prefix_length in Hh. cbn [length] in Hh. unfold zlen, PROTO_INLINE_MAX_SIZE in *. lia.
    + left. apply find_cr_none. destruct Hh as [k Hk]. rewrite Hk, Forall_app in Hcr. apply Hcr.
  - rewrite zlen_app, zlen_cons. change (zlen [13]) with 1. split; [unfold PROTO_INLINE_MAX_SIZE; lia|].
    right. exists (1 + zlen (to_string n)). split; [|lia].
    pose proof (find_from_first 13 [] [] (x :: to_string n) []) as H1. cbn [app] in H1.
    rewrite zlen_cons, zlen_nil in H1. by apply H1.
Qed.

Lemma header_digits x n t :
  0 ≤ n ≤ U64_MAX → substr (x :: to_string n ++ CRLF ++ t) 1 (u64 (1 + zlen (to_string n) - 1)) = to_string n.
Proof.
  intros Hn. replace (1 + zlen (to_string n) - 1) with (zlen (to_string n)) by lia.
  pose proof (zlen_to_string n). pose proof (zlen_nonneg (to_string n)).
  rewrite u64_small by (unfold U64_MAX; lia). exact (substr_app [x] (to_string n) (CRLF ++ t)).
Qed.

Lemma header_rest x n t :
  drop (Z.to_nat (1 + zlen (to_string n) + 2)) (x :: to_string n ++ CRLF ++ t) = t.
Proof.
  pose proof (drop_zlen_app (x :: to_string n ++ CRLF) t) as H.
  rewrite zlen_cons, zlen_app in H. change (zlen CRLF) with 2 in H. cbn [app] in H. rewrite <-app_assoc in H.
  by replace (1 + zlen (to_string n) + 2) with (1 + (zlen (to_string n) + 2)) by lia.
Qed.

(** ** One command *)

(** The connection when the first [k] arguments of a command have arrived. *)
Definition mid c args (k : nat) : Connection :=
  (add_command c (partial_command args k)) <| multibulk_len_ := zlen args - Z.of_nat k |> <| bulk_len_ := -1 |>.

Lemma on_tail_add f c cmd : on_tail f (add_command c cmd) = add_command c (f cmd).
Proof.
  unfold on_tail, add_command. simpl. destruct c as [[l te cl rb] e m b st sta]; simpl. unfold set, setter; simpl.
  do 2 f_equal. rewrite length_app. replace (pred (length l + length [cmd])) with (length l + 0)%nat by (simpl; lia).
  rewrite alter_app_r. done.
Qed.

Lemma partial_command_insert done a rest :
  (partial_command (done ++ a :: rest) (length done))
    <| tokens ::= λ l, <[length done := Some a]> l |> = partial_command (done ++ a :: rest) (S (length done)).
Proof.
  unfold partial_command. simpl. f_equal.
  replace (length (done ++ a :: rest) - length done)%nat with (S (length rest)) by (rewrite length_app; simpl; lia).
  replace (length (done ++ a :: rest) - S (length done))%nat with (length rest) by (rewrite length_app; simpl; lia).
  rewrite take_app_length. rewrite (cons_middle a done rest), app_assoc.
  replace (S (length done)) with (length (done ++ [a])) by (rewrite length_app; simpl; lia).
  rewrite take_app_length, fmap_app.
  replace (length done) with (length (Some <$> done) + 0)%nat by (rewrite length_fmap; lia).
  rewrite insert_app_r. simpl. by rewrite <-app_assoc.
Qed.

Lemma mid_lens c args k : multibulk_len_ (mid c args k) = zlen args - Z.of_nat k ∧ bulk_len_ (mid c args k) = -1.
Proof. done. Qed.

Lemma zlen_split done (a : bytes) rest : zlen (done ++ a :: rest) = Z.of_nat (length done) + 1 + zlen rest.
Proof. unfold zlen. rewrite length_app. simpl. lia. Qed.

Lemma mid_store c done a rest t :
  store_token (a ++ t) ((mid c (done ++ a :: rest) (length done)) <| bulk_len_ := zlen a |>) =
  mid c (done ++ a :: rest) (S (length done)).
Proof.
  unfold store_token, mid. simpl bulk_len_. rewrite to_nat_zlen, take_app_length.
  set (args := done ++ a :: rest). set (k := length done).
  assert (∀ c' x y, on_tail (λ cmd, cmd <| tokens ::= λ l, <[Z.to_nat (argc cmd - (zlen args - Z.of_nat k)) := Some a]> l |>)
            (c' <| multibulk_len_ := x |> <| bulk_len_ := y |>) =
          (on_tail (λ cmd, cmd <| tokens ::= λ l, <[Z.to_nat (argc cmd - (zlen args - Z.of_nat k)) := Some a]> l |>) c')
            <| multibulk_len_ := x |> <| bulk_len_ := y |>) as Hcomm by done.
  pose proof (on_tail_add (λ cmd, cmd <| tokens ::= λ l, <[Z.to_nat (argc cmd - (zlen args - Z.of_nat k)) := Some a]> l |>)
    c (partial_command args k)) as Ht. cbv beta in Ht.
  match type of Ht with _ = add_command c (?x) => assert (x = partial_command args (S k)) as Hp end.
  { change (argc (partial_command args k)) with (zlen args).
    replace (zlen args - (zlen args - Z.of_nat k)) with (Z.of_nat k) by lia. rewrite Nat2Z.id.
    apply partial_command_insert. }
  rewrite Hp in Ht. clear Hp.
  transitivity ((on_tail (λ cmd, cmd <| tokens ::= λ l, <[Z.to_nat (argc cmd - (zlen args - Z.of_nat k)) := Some a]> l |>)
    (add_command c (partial_command args k))) <| multibulk_len_ := zlen args - Z.of_nat k - 1 |> <| bulk_len_ := -1 |>); [done|].
  rewrite Ht. replace (zlen args - Z.of_nat k - 1) with (zlen args - Z.of_nat (S k)) by lia. done.
Qed.

Lemma read_bulk_header c args k n t :
  0 ≤ n ≤ INT64_MAX →
  read_bulk_len (mid c args k) (36 :: to_string n ++ CRLF ++ t) = ((mid c args k) <| bulk_len_ := n |>, t, None).
Proof.
  intros Hn. unfold read_bulk_len.
  change (bulk_len_ (mid c args k) =? -1) with true. cbn [negb src_input bytes_source id].
  rewrite find_cr_header by lia. rewrite zlen_cons, !zlen_app. change (zlen CRLF) with 2.
  pose proof (zlen_nonneg t). pose proof (zlen_nonneg (to_string n)).
  rewrite (proj2 (Z.eqb_neq _ _)) by lia. change (byte_at (36 :: ?x) 0 =? 36) with true.
  assert (byte_at (36 :: to_string n ++ CRLF ++ t) (1 + zlen (to_string n) + 1) = 10) as ->.
  { pose proof (byte_at_app (36 :: to_string n ++ [13]) 10 t) as Hb.
    rewrite zlen_cons, zlen_app in Hb. change (zlen [13]) with 1 in Hb. cbn [app] in Hb. rewrite <-app_assoc in Hb.
    by replace (1 + zlen (to_string n) + 1) with (1 + (zlen (to_string n) + 1)) by lia. }
  change (negb true || negb (10 =? 10)) with false. cbv iota.
  rewrite header_digits by (unfold U64_MAX, INT64_MAX in *; lia).
  rewrite atoi_to_string by (unfold U64_MAX, INT64_MAX, INT64_MIN in *; lia).
  rewrite (proj2 (Z.ltb_ge n 0)) by lia. by rewrite bytes_consume, header_rest.
Qed.

Lemma read_bulk_mid c args k a t :
  zlen a ≤ INT64_MAX →
  read_bulk_len (mid c args k) (EncodeBulk a ++ t) = ((mid c args k) <| bulk_len_ := zlen a |>, a ++ CRLF ++ t, None).
Proof.
  intros Ha. pose proof (zlen_nonneg a). unfold EncodeBulk. rewrite <-!app_assoc.
  change (str "$" ++ ?x) with (36 :: x). by apply read_bulk_header.
Qed.

(** One argument is consumed. *)
Lemma multibulk_loop_arg n c done a rest t :
  zlen a ≤ INT64_MAX →
  multibulk_loop (S n) (mid c (done ++ a :: rest) (length done)) (EncodeBulk a ++ t) =
  multibulk_loop n (mid c (done ++ a :: rest) (S (length done))) t.
Proof.
  intros Ha. cbn [multibulk_loop]. rewrite read_bulk_mid by done. cbn [src_input bytes_source id].
  pose proof (zlen_nonneg t). change (bulk_len_ (_ <| bulk_len_ := zlen a |>)) with (zlen a).
  rewrite !zlen_app. change (zlen CRLF) with 2. rewrite (proj2 (Z.ltb_ge _ _)) by lia.
  rewrite mid_store, bytes_consume. f_equal.
  pose proof (drop_zlen_app (a ++ CRLF) t) as Hd. rewrite zlen_app, <-app_assoc in Hd. exact Hd.
Qed.

Lemma mid_end c args :
  on_tail (λ cmd, cmd <| parse_complete := true |>) (mid c args (length args)) =
  (add_command c (full_command args)) <| multibulk_len_ := 0 |> <| bulk_len_ := -1 |>.
Proof.
  unfold mid.
  transitivity ((on_tail (λ cmd, cmd <| parse_complete := true |>) (add_command c (partial_command args (length args))))
    <| multibulk_len_ := zlen args - Z.of_nat (length args) |> <| bulk_len_ := -1 |>); [done|].
  rewrite on_tail_add. unfold zlen. rewrite Z.sub_diag. unfold partial_command, full_command. simpl.
  by rewrite firstn_all, Nat.sub_diag, app_nil_r.
Qed.

(** The arguments that are left, complete or cut off. *)
Lemma multibulk_loop_args c done rest t :
  Forall (λ a, zlen a ≤ INT64_MAX) rest →
  multibulk_loop (length rest) (mid c (done ++ rest) (length done)) (concat (map EncodeBulk rest) ++ t) =
  ((add_command c (full_command (done ++ rest))) <| multibulk_len_ := 0 |> <| bulk_len_ := -1 |>, t, ParserOK).
Proof.
  intros Hr. revert done. induction Hr as [|a rest Ha Hr IH]; intros done.
  { cbn [length multibulk_loop map concat app]. rewrite app_nil_r. by rewrite mid_end. }
  cbn [length map concat]. rewrite <-app_assoc, multibulk_loop_arg by done.
  specialize (IH (done ++ [a])). rewrite length_app, <-app_assoc in IH. simpl in IH.
  by rewrite Nat.add_1_r in IH.
Qed.

Lemma strict_prefix_zlen (p a : bytes) : p `prefix_of` a → p ≠ a → zlen p < zlen a.
Proof.
  intros [k ->] Hne. rewrite zlen_app. destruct k as [|x k]; [by rewrite app_nil_r in Hne|].
  rewrite zlen_cons. pose proof (zlen_nonneg k). lia.
Qed.

Lemma prefix_app_cases (p a b : bytes) :
  p `prefix_of` a ++ b → (p `prefix_of` a ∧ p ≠ a) ∨ ∃ q, p = a ++ q ∧ q `prefix_of` b.
Proof.
  revert p. induction a as [|x a IH]; intros p Hp; [right; by exists p|].
  destruct p as [|y p]; [left; split; [apply prefix_nil|done]|].
  simpl in Hp. pose proof (prefix_cons_inv_1 _ _ _ _ Hp) as ->. apply prefix_cons_inv_2 in Hp.
  destruct (IH p Hp) as [[H1 H2]|(q & -> & Hq)].
  - left. split; [by apply prefix_cons|congruence].
  - right. by exists q.
Qed.

Lemma multibulk_loop_args_prefix c done rest (p : bytes) :
  Forall (λ a, zlen a ≤ INT64_MAX) rest → p `prefix_of` concat (map EncodeBulk rest) →
  p ≠ concat (map EncodeBulk rest) →
  (multibulk_loop (length rest) (mid c (done ++ rest) (length done)) p).2 = NEED_MORE.
Proof.
  intros Hr. revert done p. induction Hr as [|a rest Ha Hr IH]; intros done p Hp Hne.
  { by apply prefix_nil_inv in Hp. }
  cbn [length map concat] in *. pose proof (zlen_nonneg a).
  apply prefix_app_cases in Hp as [[Hp Hpne]|(q & -> & Hq)].
  - unfold EncodeBulk in Hp, Hpne. change (str "$" ++ ?x) with (36 :: x) in *.
    rewrite app_assoc, app_comm_cons in Hp, Hpne.
    apply prefix_app_cases in Hp as [[Hp Hhne]|(q & -> & Hq)].
    + destruct (header_prefix 36 (zlen a) p) as [Hsz Hf]; [done..|].
      cbn [multibulk_loop]. unfold read_bulk_len.
      change (bulk_len_ (mid c (done ++ a :: rest) (length done)) =? -1) with true.
      cbn [negb src_input bytes_source id].
      destruct Hf as [->|(pos & -> & Hpos)]; [by rewrite (proj2 (Z.ltb_ge _ _)) by lia|].
      by rewrite (proj2 (Z.eqb_eq _ _)) by lia.
    + cbn [multibulk_loop].
      cbn [app]. rewrite <-app_assoc, read_bulk_header by done. cbn [src_input bytes_source id].
      change (bulk_len_ (_ <| bulk_len_ := zlen a |>)) with (zlen a).
      rewrite (proj2 (Z.ltb_lt _ _)); [done|]. apply strict_prefix_zlen in Hq; [|congruence].
      rewrite zlen_app in Hq. exact Hq.
  - rewrite multibulk_loop_arg by done. specialize (IH (done ++ [a])).
    rewrite length_app, <-app_assoc in IH. simpl in IH. rewrite Nat.add_1_r in IH. apply IH; [done|]. congruence.
Qed.

(** ** The queue *)

Lemma read_multibulk_header c args t :
  multibulk_len_ c = 0 → bulk_len_ c = -1 → command_ok args →
  read_multibulk_len c (42 :: to_string (zlen args) ++ CRLF ++ t) = (mid c args 0, t, None).
Proof.
  intros Hm Hb (Hne & Hl & _). unfold read_multibulk_len. rewrite Hm. cbn [Z.eqb negb src_input bytes_source id].
  pose proof (zlen_nonneg args) as Hnn. pose proof (zlen_nonneg t). pose proof (zlen_nonneg (to_string (zlen args))).
  assert (0 < zlen args) by (destruct args; [done|]; rewrite zlen_cons; pose proof (zlen_nonneg args); lia).
  rewrite find_cr_header by lia. rewrite zlen_cons, !zlen_app. change (zlen CRLF) with 2.
  rewrite (proj2 (Z.eqb_neq _ _)) by lia.
  rewrite header_digits by (unfold U64_MAX, INT32_MAX in *; lia).
  rewrite atoi_to_string by (unfold U64_MAX, INT32_MAX, INT64_MAX, INT64_MIN in *; lia).
  rewrite (proj2 (Z.ltb_ge _ _)), (proj2 (Z.leb_gt _ _)) by lia. cbn [orb].
  rewrite bytes_consume, header_rest. f_equal. f_equal.
  unfold mid, add_command, partial_command, AddParsedCommand. rewrite take_0, to_nat_zlen, Nat.sub_0_r, Z.sub_0_r.
  destruct c; simpl in *; subst. done.
Qed.

Lemma ParseMultiBulk_command c args t :
  multibulk_len_ c = 0 → bulk_len_ c = -1 → command_ok args →
  ParseMultiBulk c (EncodeRespArray args ++ t) = (add_command c (full_command args), t, ParserOK).
Proof.
  intros Hm Hb Hok. unfold ParseMultiBulk, EncodeRespArray. rewrite <-!app_assoc. change (str "*" ++ ?x) with (42 :: x).
  rewrite read_multibulk_header by done. rewrite (proj1 (mid_lens c args 0)), Z.sub_0_r, to_nat_zlen.
  pose proof (multibulk_loop_args c [] args t (proj2 (proj2 Hok))) as H. cbn [app length] in H. rewrite H.
  do 2 f_equal. destruct c; simpl in *; by subst.
Qed.

Lemma ParseMultiBulk_cut c args (p : bytes) :
  multibulk_len_ c = 0 → bulk_len_ c = -1 → command_ok args →
  p `prefix_of` EncodeRespArray args → p ≠ EncodeRespArray args → (ParseMultiBulk c p).2 = NEED_MORE.
Proof.
  intros Hm Hb Hok Hp Hne. unfold EncodeRespArray in *. change (str "*" ++ ?x) with (42 :: x) in *.
  rewrite app_assoc, app_comm_cons in Hp, Hne. apply prefix_app_cases in Hp as [[Hp Hhne]|(q & -> & Hq)].
  - unfold ParseMultiBulk, read_multibulk_len. rewrite Hm. cbn [Z.eqb negb src_input bytes_source id].
    destruct (header_prefix 42 (zlen args) p) as [Hsz Hf]; [done|apply zlen_nonneg|done..|].
    rewrite (proj2 (Z.ltb_ge _ _)) by lia.
    destruct Hf as [->|(pos & -> & Hpos)]; [done|]. by rewrite (proj2 (Z.eqb_eq _ _)) by lia.
  - unfold ParseMultiBulk. cbn [app]. rewrite <-app_assoc, read_multibulk_header by done.
    rewrite (proj1 (mid_lens c args 0)), Z.sub_0_r, to_nat_zlen.
    apply (multibulk_loop_args_prefix c [] args q); [apply Hok|done|congruence].
Qed.

Definition enqueue c (cmds : list (list bytes)) : Connection :=
  c <| cc_ ::= λ cc, cc <| parsed ::= λ l, l ++ (full_command <$> cmds) |> |>.

Definition encode_all (cmds : list (list bytes)) : bytes := concat (EncodeRespArray <$> cmds).

Lemma enqueue_nil c : enqueue c [] = c.
Proof. destruct c as [[l te cl rb] e m b st sta]. unfold enqueue, set, setter. simpl. by rewrite app_nil_r. Qed.

Lemma enqueue_cons c args cmds : enqueue (add_command c (full_command args)) cmds = enqueue c (args :: cmds).
Proof.
  destruct c as [[l te cl rb] e m b st sta]. unfold enqueue, add_command, set, setter. simpl. by rewrite <-app_assoc.
Qed.

Lemma parse_turn_command c args t :
  ready c → command_ok args →
  parse_turn c (EncodeRespArray args ++ t) = Some (add_command c (full_command args), t, ParserOK).
Proof.
  intros (Hi & Hm & Hb) Hok. rewrite parse_turn_parts. unfold enter. rewrite Hi, bool_decide_true by done.
  change (byte_at (EncodeRespArray args ++ t) 0 =? 42) with true. cbv iota. unfold turn_body.
  rewrite bool_decide_false by done. rewrite ParseMultiBulk_command by done.
  unfold turn_end. cbn [mbind option_bind].
  change (multibulk_len_ (add_command _ _)) with (multibulk_len_ c). change (bulk_len_ (add_command _ _)) with (bulk_len_ c).
  rewrite Hm, Hb. cbn [Z.eqb andb Pos.eqb]. do 3 f_equal. destruct c; simpl in *; by subst.
Qed.

Lemma ready_lens_ok c : ready c → lens_ok c.
Proof. intros (_ & Hm & Hb). unfold lens_ok. lia. Qed.

Lemma ParseRedis_commands c cmds t :
  ready c → Forall command_ok cmds → ParseRedis c (encode_all cmds ++ t) = ParseRedis (enqueue c cmds) t.
Proof.
  intros Hc Hok. unfold encode_all. revert c Hc. induction Hok as [|args cmds Ha Hok IH]; intros c Hc.
  { by rewrite enqueue_nil. }
  cbn [fmap list_fmap concat]. rewrite <-app_assoc, ParseRedis_cons; [|by apply ready_lens_ok|done].
  rewrite parse_turn_command by done. cbn [mbind option_bind]. rewrite <-enqueue_cons. by apply IH.
Qed.

(** Whatever part of the pipeline has arrived, there is no error, and a command
    in progress is a multi bulk command. *)
Lemma ParseRedis_commands_prefix c cmds (p : bytes) :
  ready c → Forall command_ok cmds → p `prefix_of` encode_all cmds →
  ∃ c' s' st, ParseRedis c p = Some (c', s', st) ∧ st ≠ ParserERROR ∧ state_ c' ≠ PARSE_INLINE.
Proof.
  intros Hc Hok. unfold encode_all. revert c Hc p. induction Hok as [|args cmds Ha Hok IH]; intros c Hc p Hp.
  { apply prefix_nil_inv in Hp as ->. rewrite ParseRedis_nil. destruct Hc as [Hi _]. do 3 eexists.
    split; [done|]. by rewrite Hi. }
  cbn [fmap list_fmap concat] in Hp. apply prefix_app_cases in Hp as [[Hp Hne]|(q & -> & Hq)].
  - destruct (decide (p = [])) as [->|Hp0].
    { rewrite ParseRedis_nil. destruct Hc as [Hi _]. do 3 eexists. split; [done|]. by rewrite Hi. }
    pose proof Hc as (Hi & Hm & Hb). set (c1 := c <| state_ := PARSE_MULTIBULK |>).
    pose proof (ParseMultiBulk_cut c1 args p Hm Hb Ha Hp Hne) as Hcut. pose proof (ParseMultiBulk_state c1 p) as Hst.
    destruct (ParseMultiBulk c1 p) as [[c2 s2] st] eqn:Ep. cbn [fst snd] in *. subst st. exists c2, s2, NEED_MORE.
    split; [|by rewrite Hst]. rewrite ParseRedis_cons; [|by apply ready_lens_ok|done]. rewrite parse_turn_parts.
    assert (byte_at p 0 = 42) as Hb0 by (destruct Hp as [k Hk]; destruct p; [done|]; by injection Hk).
    unfold enter. rewrite Hi, bool_decide_true, Hb0 by done. cbn [Z.eqb Pos.eqb]. fold c1. unfold turn_body.
    change (state_ c1) with PARSE_MULTIBULK. rewrite bool_decide_false by done. by rewrite Ep.
  - rewrite ParseRedis_cons; [|by apply ready_lens_ok|done]. rewrite parse_turn_command by done.
    cbn [mbind option_bind]. by apply IH.
Qed.

Lemma agree_ok {X Y} (r r' : option (X * Y * ParserStatus)) x y st :
  agree r r' → r = Some (x, y, st) → st ≠ ParserERROR → r' = r.
Proof. intros [->|(? & ? & ? & ? & -> & ->)] H Hst; [done|]. by simplify_eq. Qed.

Lemma feed_all_commands c cmds chunks :
  ready c → Forall command_ok cmds → chunks ≠ [] → Forall (λ ch, ch ≠ []) chunks →
  concat chunks = encode_all cmds → feed_all c [] chunks = Some (enqueue c cmds, [], ParserOK).
Proof.
  intros Hc Hok Hne Hch Hcat. pose proof (ready_lens_ok c Hc) as Hl.
  assert (ParseRedis c (encode_all cmds) = Some (enqueue c cmds, [], ParserOK)) as Hwhole.
  { pose proof (ParseRedis_commands c cmds [] Hc Hok) as H. by rewrite app_nil_r, ParseRedis_nil in H. }
  (* [done] has been read; the parser is at [c1] with [s1] unread. *)
  enough (∀ done c1 s1, done ++ concat chunks = encode_all cmds → turn_ok c1 (s1 ++ concat chunks) →
            (∀ t, t ≠ [] → agree (ParseRedis c (done ++ t)) (ParseRedis c1 (s1 ++ t))) →
            feed_all c1 s1 chunks = Some (enqueue c cmds, [], ParserOK)) as H.
  { apply (H [] c []); [done| |done]. destruct Hc as [Hi _]. split; [done|]. by rewrite Hi. }
  clear Hcat. induction Hch as [|ch chunks Hch Hchs IH]; [done|]. intros done c1 s1 Hcat Hok1 Hag.
  cbn [concat] in *. set (t := concat chunks) in *.
  destruct (ParseRedis_commands_prefix c cmds (done ++ ch)) as (c2 & s2 & st & Hp & Hst & Hin); [done..|by exists t; rewrite <-app_assoc|].
  pose proof (agree_ok _ _ _ _ _ (Hag ch Hch) Hp Hst) as Hp1. rewrite Hp in Hp1.
  cbn [feed_all]. unfold feed. rewrite Hp1. cbn [mbind option_bind].
  destruct chunks as [|ch2 chunks].
  { unfold t in Hcat. cbn [concat] in Hcat. rewrite app_nil_r in Hcat. rewrite Hcat, Hwhole in Hp. by simplify_eq. }
  assert (t ≠ []) as Ht by (unfold t; apply Forall_cons_1 in Hchs as [Hc2 _]; by destruct ch2).
  assert (turn_ok c1 (s1 ++ ch)) as Hok1'.
  { destruct Hok1 as [Hl1 Hh]. split; [done|]. intros E1 E2. rewrite <-(Hh E1 E2), app_assoc.
    symmetry. apply byte_at_0_app. by destruct s1, ch. }
  assert (∀ u, u ≠ [] → turn_ok c2 (s2 ++ u) ∧ agree (ParseRedis c1 ((s1 ++ ch) ++ u)) (ParseRedis c2 (s2 ++ u))) as Hres.
  { intros u Hu. by apply (ParseRedis_resume_aux c1 (s1 ++ ch) u c2 s2 st). }
  assert (feed_all c2 s2 (ch2 :: chunks) = Some (enqueue c cmds, [], ParserOK)) as Hrec.
  { apply (IH ltac:(done) (done ++ ch) c2 s2); [by rewrite <-app_assoc|by apply Hres|].
    intros u Hu. rewrite <-app_assoc, (Hag (ch ++ u)), app_assoc by (by destruct ch). by apply Hres. }
  by destruct st.
Qed.
End stream.

(** ** On the buffer of the connection *)

Section receive.
Context {absl : Absl} {absl_spec : AbslSpec absl}.
Implicit Types (c : Connection) (io : IoBuf).

(** Data that the socket hands over is appended to the buffer and parsed, read
    after read, until the connection is closed for an error. *)
Fixpoint receive_all c io (chunks : list bytes) : option (Connection * IoBuf * ParserStatus) :=
  match chunks with
  | [] => Some (c, io, NEED_MORE)
  | chunk :: chunks =>
      '(c', io', st) ← ParseRedis c (WriteAndCommit io chunk);
      match chunks, st with
      | [], _ | _, ParserERROR => Some (c', io', st)
      | _, _ => receive_all c' io' chunks
      end
  end.

Lemma multibulk_loop_bulk n c (s : bytes) : -1 ≤ bulk_len_ c → -1 ≤ bulk_len_ (multibulk_loop n c s).1.1.
Proof.
  revert c s. induction n as [|n IH]; intros c s Hb; [done|]. cbn [multibulk_loop].
  assert (-1 ≤ bulk_len_ (read_bulk_len c s).1.1) as Hb1.
  { unfold read_bulk_len. repeat case_match; simpl; bool_norm; lia. }
  destruct (read_bulk_len c s) as [[c1 s1] [st|]]; cbn [fst] in *; [done|]. case_match; [done|].
  apply IH. change (-1 ≤ -1). lia.
Qed.

Lemma parse_turn_bulk c (s : bytes) c' s' st :
  -1 ≤ bulk_len_ c → parse_turn c s = Some (c', s', st) → -1 ≤ bulk_len_ c'.
Proof.
  rewrite parse_turn_parts. intros Hb.
  assert (-1 ≤ bulk_len_ (enter c s)) as Hb1 by (unfold enter; by case_bool_decide).
  generalize dependent (enter c s). clear c Hb. intros c Hb H.
  assert (∃ c1, turn_body c s = Some (c1, s', st) ∧ bulk_len_ c' = bulk_len_ c1) as (c1 & Ht & ->).
  { unfold turn_end in H. apply bind_Some in H as ([[c1 s1] st1] & Ht & H).
    repeat case_match; simplify_eq; eexists; by rewrite Ht. }
  unfold turn_body in Ht. case_bool_decide.
  - revert Ht. unfold parse_inline. repeat case_match; intros; by simplify_eq.
  - simplify_eq. revert Ht. unfold ParseMultiBulk. pose proof (read_multibulk_len_bulk c s) as Hr.
    destruct (read_multibulk_len c s) as [[c2 s2] [st2|]]; cbn [fst] in Hr; [intros; simplify_eq; lia|].
    intros Ht. pose proof (multibulk_loop_bulk (Z.to_nat (multibulk_len_ c2)) c2 s2 ltac:(lia)) as Hl.
    rewrite Ht in Hl. exact Hl.
Qed.

Lemma ParseRedis_bulk c (s : bytes) c' s' st :
  -1 ≤ bulk_len_ c → ParseRedis c s = Some (c', s', st) → -1 ≤ bulk_len_ c'.
Proof.
  unfold ParseRedis. generalize (length (src_input s)). intros n. revert c s.
  induction n as [|n IH]; intros c s Hb; cbn [parse_turns]; [by intros; simplify_eq|].
  case_match; [by intros; simplify_eq|]. intros H'. apply bind_Some in H' as ([[c1 s1] st1] & Ht & H').
  pose proof (parse_turn_bulk _ _ _ _ _ Hb Ht). destruct st1; simplify_eq; [by eapply IH|done..].
Qed.

Lemma receive_all_same c io chunks :
  io_ok io → -1 ≤ bulk_len_ c → same_opt (receive_all c io chunks) (feed_all c (InputBuffer io) chunks).
Proof.
  intros Hio Hb. revert c io Hio Hb. induction chunks as [|ch chunks IH]; intros c io Hio Hb; [done|].
  cbn [receive_all feed_all]. unfold feed.
  pose proof (WriteAndCommit_ok io ch Hio) as Hio1.
  pose proof (ParseRedis_same c (WriteAndCommit io ch) Hio1 Hb) as Hs. cbn [src_input IoBuf_source] in Hs.
  rewrite WriteAndCommit_input in Hs by done.
  destruct (ParseRedis c (WriteAndCommit io ch)) as [[[c1 io1] st1]|];
    destruct (ParseRedis c (InputBuffer io ++ ch)) as [[[c2 s2] st2]|] eqn:Ep; try done.
  destruct Hs as [[= -> -> ->] Hv]. cbn [fst snd] in *. cbn [mbind option_bind].
  apply ParseRedis_bulk in Ep; [|done]. destruct chunks as [|ch2 chunks]; [done|].
  destruct st1; try done; by apply IH.
Qed.

End receive.

Section examples.
#[local] Existing Instance decimal_atoi.

Definition example_cmds : list (list bytes) :=
  [[str "SET"; str "k"; [13; 10; 0; 255]]; [str "GET"; str ""]].

Definition example_connection : Connection := Connection_new REDIS (mkSink [] []).

End examples.
