(* ===== verification/RedisParser.v ===== *)
(** * The RESP parser of the protocol library

    (src/server/protocol/redis_parser.h, redis_parser.cc, resp_expr.h.)  A parser
    that is called with the bytes at hand, says how many it consumed, and keeps the
    expressions it has so far when it needs more.  A buffer is its bytes; whether it
    points into the input of the caller or into memory of the parser is the flag
    [re_has_support] of its expression.  The caller passes the same result vector in
    every call, and less than 4 GB of input.

    Theorems: a command comes out whatever pieces it arrives in, and between calls
    the parser keeps no pointer into the input. *)

From stdpp Require Import base list strings.
From S2P Require Import Prelude Absl Json CommandEncoder CommandStream.

Open Scope Z_scope.

Definition kMaxArrayLen : Z := 1024.
Definition kMaxBulkLen : Z := 64 * 1048576.

Inductive RespType : Type := STRING | ARRAY | INT64 | NIL | NIL_ARRAY | ERROR.

#[export] Instance RespType_eq_dec : EqDecision RespType.
Proof. solve_decision. Defined.

Record RespExpr : Type := mkRespExpr {
  re_type : RespType;
  re_has_support : bool;
  re_buf : bytes
}.
#[export] Instance RespExpr_eta : Eta RespExpr := fun e => mkRespExpr (re_type e) (re_has_support e) (re_buf e).

Definition RespExpr_new (t : RespType) : RespExpr := mkRespExpr t false [].

Inductive Result : Type := OK | INPUT_PENDING | BAD_ARRAYLEN | BAD_BULKLEN | BAD_STRING | BAD_INT.

#[export] Instance Result_eq_dec : EqDecision Result.
Proof. solve_decision. Defined.

Inductive State : Type := INIT_S | INLINE_S | ARRAY_LEN_S | PARSE_ARG_S | BULK_STR_S | FINISH_ARG_S | CMD_COMPLETE_S.

#[export] Instance State_eq_dec : EqDecision State.
Proof. solve_decision. Defined.

(** [rp_vec] is what [cached_expr_] points to: the vector of [stash_] if there is
    one ([rp_stashed]), the result vector of the caller otherwise.  Arrays are not
    nested, so [stash_] has at most one vector and [parse_stack_] one level. *)
Record RedisParser : Type := mkRedisParser {
  rp_state : State;
  rp_last_result : Result;
  rp_bulk_len : Z;
  rp_stashed_index : nat;
  rp_parse_stack : list Z;
  rp_stashed : bool;
  rp_vec : list RespExpr;
  rp_is_broken_token : bool
}.
#[export] Instance RedisParser_eta : Eta RedisParser := fun p =>
  mkRedisParser (rp_state p) (rp_last_result p) (rp_bulk_len p) (rp_stashed_index p) (rp_parse_stack p)
    (rp_stashed p) (rp_vec p) (rp_is_broken_token p).

Definition RedisParser_new : RedisParser := mkRedisParser INIT_S OK 0 0 [] false [] false.

(** The last expression of the vector. *)
Definition alter_back (f : RespExpr → RespExpr) (v : list RespExpr) : list RespExpr := alter f (length v - 1)%nat v.

Definition InitStart (p : RedisParser) (prefix_b : Z) : RedisParser :=
  let p := p <| rp_stashed := false |> <| rp_vec := [] |> <| rp_parse_stack := [] |> <| rp_stashed_index := 0%nat |> in
  if prefix_b =? 36 then p <| rp_state := PARSE_ARG_S |> <| rp_parse_stack := [1] |>
  else if prefix_b =? 42 then p <| rp_state := ARRAY_LEN_S |>
  else p <| rp_state := INLINE_S |>.

(** The loop of [StashState] over the expressions from [last_stashed_index_] on:
    buffers are copied; how many were passed. *)
Fixpoint stash_exprs (v : list RespExpr) : list RespExpr * nat :=
  match v with
  | [] => ([], 0%nat)
  | e :: rest =>
      if bool_decide (re_type e = STRING) && bool_decide (re_buf e = []) && bool_decide (rest = []) then (e :: rest, 0%nat)
      else
        let e := if bool_decide (re_type e = STRING) && negb (bool_decide (re_buf e = []))
                 then e <| re_has_support := true |> else e in
        let '(rest, n) := stash_exprs rest in (e :: rest, S n)
  end.

Definition StashState (p : RedisParser) : RedisParser :=
  if bool_decide (rp_vec p = []) && negb (rp_stashed p) then p
  else
    let '(v, n) := stash_exprs (drop (rp_stashed_index p) (rp_vec p)) in
    p <| rp_stashed := true |> <| rp_vec := take (rp_stashed_index p) (rp_vec p) ++ v |>
      <| rp_stashed_index := (rp_stashed_index p + n)%nat |>.

(** ** Inline commands *)

Definition is_token_byte (c : Z) : bool := 32 <? c.
Definition is_blank (c : Z) : bool := (c <=? 32) && negb (c =? 10).

(** The loop of [ParseInline]: the tokens, and what is left from a newline on. *)
Fixpoint inline_tokens (fuel : nat) (s : bytes) : list bytes * bytes :=
  match fuel with
  | O => ([], s)
  | S fuel' =>
      let s := drop_while is_blank s in
      match s with
      | [] => ([], [])
      | c :: _ =>
          if c =? 10 then ([], s)
          else
            let '(tokens, rest) := inline_tokens fuel' (drop_while is_token_byte s) in
            (take_while is_token_byte s :: tokens, rest)
      end
  end.

(** The token that the last call left open goes on: [ExtendLastString], and where the
    scan continues. *)
Definition extend_token (p : RedisParser) (s : bytes) : RedisParser * bytes :=
  if rp_is_broken_token p then
    let ptr := drop_while is_token_byte s in
    let p := p <| rp_vec ::= alter_back (fun e => e <| re_buf ::= fun b => b ++ take_while is_token_byte s |>) |> in
    (if bool_decide (ptr = []) then p else p <| rp_is_broken_token := false |>, ptr)
  else (p, s).

Definition ParseInline (p : RedisParser) (s : bytes) : RedisParser * Result * Z :=
  let '(p, ptr) := extend_token p s in
  let '(tokens, rest) := inline_tokens (S (length ptr)) ptr in
  let p := p <| rp_vec ::= fun v => v ++ map (mkRespExpr STRING false) tokens |> in
  match rest with
  | [] =>
      let p := if is_token_byte (default 0 (last s)) then p <| rp_is_broken_token := true |> else p in
      (p, INPUT_PENDING, zlen s)
  | _ => (p <| rp_state := CMD_COMPLETE_S |>, OK, zlen s - zlen rest + 1)
  end.

(** ** Arrays *)

Section parser.
Context {absl : Absl}.

(** The value and the number of bytes consumed. *)
Definition ParseNum (s : bytes) : Result * Z * Z :=
  if zlen s <? 4 then (INPUT_PENDING, 0, 0)
  else match find_from [10] (drop 1 s) 0 with
       | None => ((if zlen s <? 32 then INPUT_PENDING else BAD_INT), 0, 0)
       | Some pos =>
           if negb (byte_at s pos =? 13) then (BAD_INT, 0, 0)
           else match atoi64 (substr s 1 (pos - 1)) with
                | None => (BAD_INT, 0, 0)
                | Some n => (OK, n, pos + 2)
                end
       end.

Definition ConsumeArrayLen (p : RedisParser) (s : bytes) : RedisParser * Result * Z :=
  match ParseNum s with
  | (OK, len, c) =>
      if (len <? -1) || (kMaxArrayLen <? len) then (p, BAD_ARRAYLEN, c)
      else if negb (bool_decide (rp_parse_stack p = [])) then (p, BAD_STRING, c)
      else if negb (bool_decide (rp_vec p = [])) then (p, BAD_STRING, c)
      else if len <=? 0 then
        (p <| rp_vec := [RespExpr_new (if len =? -1 then NIL_ARRAY else ARRAY)] |> <| rp_state := CMD_COMPLETE_S |>, OK, c)
      else (p <| rp_parse_stack := [len] |> <| rp_state := PARSE_ARG_S |>, OK, c)
  | (INPUT_PENDING, _, c) => (p, INPUT_PENDING, c)
  | (_, _, c) => (p, BAD_ARRAYLEN, c)
  end.

Definition ParseArg (p : RedisParser) (s : bytes) : RedisParser * Result * Z :=
  if byte_at s 0 =? 36 then
    match ParseNum s with
    | (OK, len, c) =>
        if (len <? -1) || (kMaxBulkLen <? len) then (p, BAD_ARRAYLEN, c)
        else if len <? 0 then
          (p <| rp_state := FINISH_ARG_S |> <| rp_vec ::= fun v => v ++ [RespExpr_new NIL] |>, OK, c)
        else
          (p <| rp_vec ::= fun v => v ++ [RespExpr_new STRING] |> <| rp_bulk_len := len |>
             <| rp_state := BULK_STR_S |>, OK, c)
    | (INPUT_PENDING, _, c) => (p, INPUT_PENDING, c)
    | (_, _, c) => (p, BAD_ARRAYLEN, c)
    end
  else (p, BAD_BULKLEN, 0).

Definition ConsumeBulk (p : RedisParser) (s : bytes) : RedisParser * Result * Z :=
  let bulk_len := rp_bulk_len p in
  if bulk_len + 2 <=? zlen s then
    if negb (byte_at s bulk_len =? 13) || negb (byte_at s (bulk_len + 1) =? 10) then (p, BAD_STRING, 0)
    else
      let data := take (Z.to_nat bulk_len) s in
      let p := if bulk_len =? 0 then p
               else if rp_is_broken_token p then p <| rp_vec ::= alter_back (fun e => e <| re_buf ::= fun b => b ++ data |>) |>
               else p <| rp_vec ::= alter_back (fun e => e <| re_buf := data |>) |> in
      (p <| rp_is_broken_token := false |> <| rp_state := FINISH_ARG_S |> <| rp_bulk_len := 0 |>, OK, bulk_len + 2)
  else if 32 <=? zlen s then
    let len := Z.min (zlen s) bulk_len in
    let data := take (Z.to_nat len) s in
    let p := if rp_is_broken_token p then p <| rp_vec ::= alter_back (fun e => e <| re_buf ::= fun b => b ++ data |>) |>
             else p <| rp_vec ::= alter_back (fun e => e <| re_buf := data |> <| re_has_support := true |>) |>
                    <| rp_is_broken_token := true |> in
    (p <| rp_bulk_len := bulk_len - len |>, INPUT_PENDING, len)
  else (p, INPUT_PENDING, 0).

(** One level: the loop ends in its first round. *)
Definition HandleFinishArg (p : RedisParser) : RedisParser :=
  match rp_parse_stack p with
  | n :: stack =>
      if negb (u32 (n - 1) =? 0) then p <| rp_parse_stack := u32 (n - 1) :: stack |> <| rp_state := PARSE_ARG_S |>
      else p <| rp_parse_stack := stack |> <| rp_state := CMD_COMPLETE_S |>
  | [] => p
  end.

(** One turn of the loop of [Parse]: the parser, and [last_consumed_]. *)
Definition parse_step (p : RedisParser) (s : bytes) : RedisParser * Z :=
  let run r := let '(p, res, c) := r in (p <| rp_last_result := res |>, c) in
  match rp_state p with
  | ARRAY_LEN_S => run (ConsumeArrayLen p s)
  | PARSE_ARG_S => if zlen s <? 4 then (p <| rp_last_result := INPUT_PENDING |>, 0) else run (ParseArg p s)
  | INLINE_S => run (ParseInline p s)
  | BULK_STR_S => run (ConsumeBulk p s)
  | FINISH_ARG_S => (HandleFinishArg p, 0)
  | INIT_S | CMD_COMPLETE_S => (p, 0)
  end.

(** [None] when the fuel does not last. *)
Fixpoint parse_loop (fuel : nat) (p : RedisParser) (s : bytes) (consumed : Z) : option (RedisParser * Z) :=
  match fuel with
  | O => None
  | S fuel' =>
      if bool_decide (rp_state p = CMD_COMPLETE_S) then Some (p, consumed)
      else
        let '(p, c) := parse_step p s in
        let consumed := consumed + c in
        if negb (bool_decide (rp_last_result p = OK)) then Some (p, consumed)
        else parse_loop fuel' p (drop (Z.to_nat c) s) consumed
  end.

(** Every turn but that of [FINISH_ARG_S] consumes input. *)
Definition parse_fuel (s : bytes) : nat := (2 * length s + 3)%nat.

(** The result, the number of bytes consumed, and the result vector. *)
Definition Parse (p : RedisParser) (s : bytes) : option (RedisParser * Result * Z * list RespExpr) :=
  if zlen s <? 2 then Some (p, INPUT_PENDING, 0, [])
  else
    let p := if bool_decide (rp_state p = CMD_COMPLETE_S) then p <| rp_state := INIT_S |> else p in
    let p := if rp_stashed p then p else p <| rp_vec := [] |> in
    let p := if bool_decide (rp_state p = INIT_S) then InitStart p (byte_at s 0) else p in
    '(p, consumed) ← parse_loop (parse_fuel s) p s 0;
    let res := if rp_stashed p && negb (bool_decide (rp_last_result p = OK)) then [] else rp_vec p in
    let p := if bool_decide (rp_last_result p = INPUT_PENDING) then StashState p else p in
    Some (p, rp_last_result p, consumed, res).
End parser.

(** ** A command in pieces *)

(** Bytes at hand and bytes to come, against a text: either the text has arrived,
    or what is at hand is a proper part of it. *)
Lemma arrived (s fut t rest : bytes) : s ++ fut = t ++ rest →
  (∃ s', s = t ++ s') ∨ (zlen s < zlen t ∧ ∃ t', t = s ++ t').
Proof.
  intros H. destruct (decide (zlen t ≤ zlen s)) as [Hle|Hlt].
  - left. apply app_eq_inv in H as [(k & -> & _)|(k & Hk & _)]; [by exists k|].
    exists []. rewrite app_nil_r. destruct k as [|c k]; [by rewrite app_nil_r in Hk|].
    rewrite Hk, zlen_app, zlen_cons in Hle. pose proof (zlen_nonneg k). lia.
  - right. split; [lia|]. apply app_eq_inv in H as [(k & -> & _)|(k & -> & _)]; [|by exists k].
    rewrite zlen_app in Hlt. pose proof (zlen_nonneg k). lia.
Qed.

Section stream.
Context {absl : Absl} {absl_spec : AbslSpec absl}.

(** A header, [x<n>\r\n]. *)
Definition header (x n : Z) : bytes := x :: to_string n ++ CRLF.

Lemma zlen_header x n : zlen (header x n) = zlen (to_string n) + 3 ∧ 4 ≤ zlen (header x n) ≤ 23.
Proof.
  unfold header. rewrite zlen_cons, zlen_app. change (zlen CRLF) with 2.
  pose proof (zlen_to_string n). destruct (to_string_cons n) as (c & t & E). rewrite E in *.
  rewrite zlen_cons in *. pose proof (zlen_nonneg t). lia.
Qed.

Lemma ParseNum_arrived x n s : 0 ≤ n ≤ INT64_MAX →
  ParseNum (header x n ++ s) = (OK, n, zlen (header x n)).
Proof.
  intros Hn. unfold INT64_MAX in Hn. destruct (zlen_header x n) as [Hlen Hb]. unfold ParseNum.
  pose proof (zlen_nonneg s). rewrite (proj2 (Z.ltb_ge _ _)) by (rewrite zlen_app; lia).
  assert (Hno : Forall (λ y, y ≠ 10) (to_string n ++ [13])).
  { apply Forall_app. split; [apply to_string_ne; lia|by repeat constructor]. }
  assert (Htext : header x n ++ s = x :: (to_string n ++ [13]) ++ [10] ++ s).
  { unfold header. cbn [app]. by rewrite <- !app_assoc. }
  rewrite Htext. cbn [drop]. pose proof (find_from_first 10 [] [] (to_string n ++ [13]) s Hno) as Hf.
  cbn [app] in Hf. rewrite zlen_nil, Z.add_0_l in Hf. cbn [app]. rewrite drop_0, Hf.
  rewrite zlen_app. change (zlen [13]) with 1.
  assert (Hcr : byte_at (x :: (to_string n ++ [13]) ++ 10 :: s) (zlen (to_string n) + 1) = 13).
  { pose proof (byte_at_app (x :: to_string n) 13 (10 :: s)) as H'. cbn [app] in H'. rewrite zlen_cons in H'.
    rewrite Z.add_comm. by rewrite <- app_assoc. }
  rewrite Hcr. cbn [negb Z.eqb].
  replace (zlen (to_string n) + 1 - 1) with (zlen (to_string n)) by lia. rewrite <- app_assoc.
  pose proof (substr_app [x] (to_string n) ([13] ++ 10 :: s)) as Hsub. cbn [app] in Hsub |- *.
  change (zlen [x]) with 1 in Hsub. rewrite Hsub.
  rewrite atoi_to_string by (unfold U64_MAX, INT64_MIN, INT64_MAX; lia).
  do 2 f_equal. lia.
Qed.

Lemma ParseNum_pending x n s t : 0 ≤ n → header x n = s ++ t → zlen s < zlen (header x n) →
  ParseNum s = (INPUT_PENDING, 0, 0).
Proof.
  intros Hn Hs Hlt. destruct (zlen_header x n) as [_ Hb]. unfold ParseNum.
  destruct (Z.ltb_spec (zlen s) 4) as [|H4]; [done|].
  assert (Hno : find_from [10] (drop 1 s) 0 = None).
  { unfold find_from. cbn [Z.to_nat drop]. rewrite find_nat_none; [done|].
    destruct t as [|z t _] using rev_ind; [rewrite app_nil_r in Hs; rewrite Hs in Hlt; lia|].
    assert (Hh : header x n = (x :: to_string n ++ [13]) ++ [10]).
    { unfold header. cbn [app]. by rewrite <- app_assoc. }
    rewrite Hh, app_assoc in Hs. apply app_inj_tail in Hs as [Hs _].
    destruct s as [|y s]; [done|]. injection Hs as _ Hs. cbn [drop].
    assert (Hall : Forall (λ y, y ≠ 10) (to_string n ++ [13])).
    { apply Forall_app. split; [apply to_string_ne; lia|by repeat constructor]. }
    rewrite Hs in Hall. by apply Forall_app in Hall as [? _]. }
  rewrite Hno. by rewrite (proj2 (Z.ltb_lt _ _)) by lia.
Qed.

Context (args : list bytes).
Context (Hlen : 1 ≤ zlen args ≤ kMaxArrayLen).
Context (Hbulk : Forall (fun a => zlen a ≤ kMaxBulkLen) args).

(** Types and contents of expressions. *)
Definition values (v : list RespExpr) : list (RespType * bytes) := (fun e => (re_type e, re_buf e)) <$> v.

(** The expressions are these strings. *)
Definition strings (v : list RespExpr) (l : list bytes) : Prop := values v = (fun b => (STRING, b)) <$> l.

(** The texts of the arguments from the [k]-th on. *)
Definition args_text (k : nat) : bytes := concat (map EncodeBulk (drop k args)).

(** What the parser still has to read of the command. *)
Inductive at_text (p : RedisParser) : bytes → Prop :=
  | at_array :
      rp_state p = ARRAY_LEN_S → rp_parse_stack p = [] → rp_vec p = [] → rp_is_broken_token p = false →
      at_text p (EncodeRespArray args)
  | at_arg k :
      (k < length args)%nat → rp_state p = PARSE_ARG_S → rp_parse_stack p = [zlen args - Z.of_nat k] →
      strings (rp_vec p) (take k args) → rp_is_broken_token p = false →
      at_text p (args_text k)
  | at_bulk k a j :
      args !! k = Some a → rp_state p = BULK_STR_S → rp_parse_stack p = [zlen args - Z.of_nat k] →
      strings (rp_vec p) (take k args ++ [take j a]) → (j ≤ length a)%nat →
      rp_bulk_len p = zlen a - Z.of_nat j → (rp_is_broken_token p = false → j = 0%nat) →
      at_text p (drop j a ++ CRLF ++ args_text (S k))
  | at_finish k :
      (k < length args)%nat → rp_state p = FINISH_ARG_S → rp_parse_stack p = [zlen args - Z.of_nat k] →
      strings (rp_vec p) (take (S k) args) → rp_is_broken_token p = false →
      at_text p (args_text (S k))
  | at_done :
      rp_state p = CMD_COMPLETE_S → strings (rp_vec p) args → rp_is_broken_token p = false →
      at_text p [].

Lemma args_text_cons k a : args !! k = Some a →
  args_text k = header 36 (zlen a) ++ a ++ CRLF ++ args_text (S k).
Proof.
  intros Ha. unfold args_text. rewrite (drop_S _ _ _ Ha). cbn [map concat]. unfold EncodeBulk, header.
  change (str "$") with [36]. cbn [app]. by rewrite <- !app_assoc.
Qed.

Lemma array_text : EncodeRespArray args = header 42 (zlen args) ++ args_text 0.
Proof.
  unfold EncodeRespArray, header, args_text. rewrite drop_0. change (str "*") with [42]. cbn [app].
  by rewrite <- app_assoc.
Qed.

Lemma strings_app v v' l l' : strings v l → strings v' l' → strings (v ++ v') (l ++ l').
Proof. unfold strings, values. rewrite !fmap_app. by intros -> ->. Qed.

Lemma strings_back v l b f b' : strings v (l ++ [b]) →
  (∀ e, re_type e = STRING → re_buf e = b → re_type (f e) = STRING ∧ re_buf (f e) = b') →
  strings (alter_back f v) (l ++ [b']).
Proof.
  unfold strings, values. rewrite !fmap_app. cbn [fmap list_fmap]. intros H Hf.
  destruct v as [|e v _] using rev_ind; [by destruct l|].
  rewrite fmap_app in H. cbn [fmap list_fmap] in H. apply app_inj_tail in H as [Hv [= Ht Hb]].
  destruct (Hf e Ht Hb) as [Ht' Hb']. unfold alter_back. rewrite length_app. cbn [length].
  replace (length v + 1 - 1)%nat with (length v + 0)%nat by lia. rewrite alter_app_r.
  rewrite fmap_app, Hv. cbn. by rewrite Ht', Hb'.
Qed.

(** What decreases in the loop of [Parse]. *)
Definition weight (p : RedisParser) (s : bytes) : nat :=
  (2 * length s + if bool_decide (rp_state p = FINISH_ARG_S) then 1 else 0)%nat.

(** What a turn does with the bytes [s] when the text [T] is due: it reads [T1]. *)
Record turn (p : RedisParser) (s T : bytes) (p' : RedisParser) (c : Z) (T1 T' s' : bytes) : Prop := {
  tn_text : T = T1 ++ T';
  tn_input : s = T1 ++ s';
  tn_consumed : c = zlen T1;
  tn_at : at_text p' T'
}.

Definition turn_ok p s T p' c : Prop :=
  ∃ T1 T' s', turn p s T p' c T1 T' s' ∧ rp_last_result p' = OK ∧ (weight p' s' < weight p s)%nat.

Definition turn_pending p s T p' c : Prop :=
  ∃ T1 T' s', turn p s T p' c T1 T' s' ∧ rp_last_result p' = INPUT_PENDING ∧ zlen s < zlen T ∧
    rp_state p' ≠ FINISH_ARG_S.

Lemma at_text_result p T r : at_text p T → at_text (p <| rp_last_result := r |>) T.
Proof. destruct 1; [eapply at_array|eapply at_arg|eapply at_bulk|eapply at_finish|eapply at_done]; done. Qed.

(** A turn that waits for more. *)
Lemma turn_wait p s T : at_text p T → zlen s < zlen T → rp_state p ≠ FINISH_ARG_S →
  turn_pending p s T (p <| rp_last_result := INPUT_PENDING |>) 0.
Proof.
  intros H Hlt Hst. exists [], T, s. split_and!; [|done|done|done]. split; [done|done|done|].
  by apply at_text_result.
Qed.

Lemma weight_read p p' T1 s : rp_state p ≠ FINISH_ARG_S → T1 ≠ [] → (weight p' s < weight p (T1 ++ s))%nat.
Proof.
  intros Hp HT. unfold weight. rewrite (bool_decide_eq_false_2 _ Hp), length_app.
  destruct T1; [done|]. cbn [length]. case_bool_decide; lia.
Qed.

Lemma weight_finish p p' s : rp_state p = FINISH_ARG_S → rp_state p' ≠ FINISH_ARG_S → (weight p' s < weight p s)%nat.
Proof. intros Hp Hp'. unfold weight. rewrite bool_decide_eq_false_2, bool_decide_eq_true_2 by done. lia. Qed.

Lemma array_turn p s fut rest :
  rp_state p = ARRAY_LEN_S → rp_parse_stack p = [] → rp_vec p = [] → rp_is_broken_token p = false →
  s ++ fut = EncodeRespArray args ++ rest →
  let '(p', c) := parse_step p s in
  turn_ok p s (EncodeRespArray args) p' c ∨ turn_pending p s (EncodeRespArray args) p' c.
Proof.
  intros Hst Hstack Hvec Hbr Heq. unfold parse_step. rewrite Hst. unfold kMaxArrayLen in Hlen.
  destruct (zlen_header 42 (zlen args)) as [_ Hh]. rewrite array_text, <- app_assoc in Heq.
  destruct (arrived _ _ _ _ Heq) as [[s' ->]|[Hlt [t Ht]]]; unfold ConsumeArrayLen.
  - rewrite ParseNum_arrived by (unfold INT64_MAX; lia).
    replace ((zlen args <? -1) || (kMaxArrayLen <? zlen args)) with false by (unfold kMaxArrayLen; lia).
    rewrite Hstack, Hvec. cbn [bool_decide decide decide_rel negb].
    rewrite !bool_decide_eq_true_2 by done. cbn [negb]. rewrite (proj2 (Z.leb_gt _ _)) by lia.
    left. exists (header 42 (zlen args)), (args_text 0), s'. split_and!; [|done|].
    + split; [by rewrite array_text|done|done|]. apply (at_arg _ 0); cbn; [unfold zlen in *; lia|done|by rewrite Z.sub_0_r|by rewrite Hvec|done].
    + apply weight_read; [by rewrite Hst|]. unfold header. done.
  - rewrite (ParseNum_pending 42 (zlen args) s t) by (done || lia). right. apply turn_wait; [by apply at_array| |by rewrite Hst].
    rewrite array_text, zlen_app. pose proof (zlen_nonneg (args_text 0)). lia.
Qed.

Lemma arg_turn p s fut rest k :
  (k < length args)%nat → rp_state p = PARSE_ARG_S → rp_parse_stack p = [zlen args - Z.of_nat k] →
  strings (rp_vec p) (take k args) → rp_is_broken_token p = false →
  s ++ fut = args_text k ++ rest →
  let '(p', c) := parse_step p s in
  turn_ok p s (args_text k) p' c ∨ turn_pending p s (args_text k) p' c.
Proof.
  intros Hk Hst Hstack Hvec Hbr Heq. destruct (lookup_lt_is_Some_2 args k Hk) as [a Ha].
  pose proof (Forall_lookup_1 _ _ _ _ Hbulk Ha) as Hal. cbn beta in Hal. unfold kMaxBulkLen in Hal.
  pose proof (zlen_nonneg a) as Ha0. destruct (zlen_header 36 (zlen a)) as [_ Hh].
  assert (Hat : at_text p (args_text k)) by by apply at_arg.
  assert (Hshort : ∀ n, n < zlen (header 36 (zlen a)) → n < zlen (args_text k)).
  { intros n Hn. rewrite (args_text_cons _ _ Ha), zlen_app. pose proof (zlen_nonneg (a ++ CRLF ++ args_text (S k))). lia. }
  unfold parse_step. rewrite Hst. destruct (Z.ltb_spec (zlen s) 4) as [H4|H4].
  { right. apply turn_wait; [done|apply Hshort; lia|by rewrite Hst]. }
  rewrite (args_text_cons _ _ Ha), <- app_assoc in Heq.
  assert (Hb : byte_at s 0 = 36).
  { destruct s as [|c s0]; [by cbn in H4|]. by injection Heq as -> _. }
  unfold ParseArg. rewrite Hb. change (36 =? 36) with true. cbv iota.
  destruct (arrived _ _ _ _ Heq) as [[s' ->]|[Hlt [t Ht]]].
  - rewrite ParseNum_arrived by (unfold INT64_MAX; lia).
    replace ((zlen a <? -1) || (kMaxBulkLen <? zlen a)) with false by (unfold kMaxBulkLen; lia).
    rewrite (proj2 (Z.ltb_ge _ _)) by lia.
    left. exists (header 36 (zlen a)), (a ++ CRLF ++ args_text (S k)), s'. split_and!; [|done|].
    + split; [by apply args_text_cons|done|done|].
      apply (at_bulk _ k a 0); cbn; [done|done|done| |lia|lia|done].
      rewrite take_0. apply strings_app; [done|reflexivity].
    + apply weight_read; [by rewrite Hst|done].
  - rewrite (ParseNum_pending 36 (zlen a) s t) by (done || lia).
    right. apply turn_wait; [done|by apply Hshort|by rewrite Hst].
Qed.


(** The end of a bulk string has arrived. *)
Lemma bulk_done p s k a j :
  args !! k = Some a → rp_state p = BULK_STR_S → rp_parse_stack p = [zlen args - Z.of_nat k] →
  strings (rp_vec p) (take k args ++ [take j a]) → (j ≤ length a)%nat →
  rp_bulk_len p = zlen a - Z.of_nat j → (rp_is_broken_token p = false → j = 0%nat) →
  ∃ p', ConsumeBulk p (drop j a ++ CRLF ++ s) = (p', OK, zlen (drop j a ++ CRLF)) ∧ at_text p' (args_text (S k)).
Proof.
  intros Ha Hst Hstack Hvec Hj Hbl Hbr. unfold ConsumeBulk.
  assert (Hd : rp_bulk_len p = zlen (drop j a)) by (rewrite Hbl; unfold zlen; rewrite length_drop; lia).
  rewrite Hd. rewrite (proj2 (Z.leb_le _ _)).
  2: { rewrite !zlen_app. change (zlen CRLF) with 2. pose proof (zlen_nonneg s). lia. }
  change (drop j a ++ CRLF ++ s) with (drop j a ++ 13 :: 10 :: s). rewrite byte_at_app.
  rewrite byte_at_app_at by lia. replace (zlen (drop j a) + 1 - zlen (drop j a)) with 1 by lia.
  change (byte_at (13 :: 10 :: s) 1) with 10. cbn [negb orb Z.eqb].
  change (negb (13 =? 13) || negb (10 =? 10)) with false. cbv iota.
  assert (Htake : take (Z.to_nat (zlen (drop j a))) (drop j a ++ 13 :: 10 :: s) = drop j a).
  { unfold zlen. rewrite Nat2Z.id. apply take_app_length. }
  rewrite Htake. rewrite zlen_app. change (zlen CRLF) with 2.
  eexists. split; [done|]. apply at_finish; cbn; [by eapply lookup_lt_Some|done| | |done].
  { by destruct (zlen (drop j a) =? 0), (rp_is_broken_token p). }
  rewrite (take_S_r _ _ _ Ha).
  destruct (Z.eqb_spec (zlen (drop j a)) 0) as [Hz|Hz].
  - assert (take j a = a) as E; [|by rewrite E in Hvec].
    unfold zlen in Hz. rewrite length_drop in Hz. apply take_ge. lia.
  - destruct (rp_is_broken_token p); cbn.
    + eapply strings_back; [exact Hvec|]. intros e He Hb. split; [done|]. cbn. rewrite Hb. apply take_drop.
    + rewrite (Hbr eq_refl) in *. eapply strings_back; [exact Hvec|]. intros e He Hb. done.
Qed.

(** A part of it has arrived that is worth storing. *)
Lemma bulk_part p s t k a j :
  args !! k = Some a → rp_state p = BULK_STR_S → rp_parse_stack p = [zlen args - Z.of_nat k] →
  strings (rp_vec p) (take k args ++ [take j a]) → (j ≤ length a)%nat →
  rp_bulk_len p = zlen a - Z.of_nat j → (rp_is_broken_token p = false → j = 0%nat) →
  drop j a ++ CRLF = s ++ t → zlen s < zlen (drop j a ++ CRLF) → 32 ≤ zlen s →
  ∃ p' T1 t' s', ConsumeBulk p s = (p', INPUT_PENDING, zlen T1) ∧ drop j a = T1 ++ t' ∧ s = T1 ++ s' ∧
    rp_state p' = BULK_STR_S ∧ at_text p' (t' ++ CRLF ++ args_text (S k)).
Proof.
  intros Ha Hst Hstack Hvec Hj Hbl Hbr Hs Hlt H32. unfold ConsumeBulk.
  assert (Hd : rp_bulk_len p = zlen (drop j a)) by (rewrite Hbl; unfold zlen; rewrite length_drop; lia).
  rewrite zlen_app in Hlt. change (zlen CRLF) with 2 in Hlt. pose proof (zlen_nonneg (drop j a)).
  rewrite Hd, (proj2 (Z.leb_gt _ _)) by lia. rewrite (proj2 (Z.leb_le 32 _)) by done.
  set (len := Z.min (zlen s) (zlen (drop j a))). set (T1 := take (Z.to_nat len) s).
  assert (HT1 : T1 = take (Z.to_nat len) (drop j a)).
  { transitivity (take (Z.to_nat len) (drop j a ++ CRLF)).
    - rewrite Hs, take_app_le; [done|]. unfold len, zlen. lia.
    - rewrite take_app_le; [done|]. unfold len, zlen. lia. }
  assert (Hl : zlen T1 = len) by (rewrite HT1; apply zlen_take; unfold len; lia).
  assert (Hjl : take (j + Z.to_nat len) a = take j a ++ T1) by (rewrite HT1; symmetry; apply take_take_drop).
  eexists _, T1, (drop (Z.to_nat len) (drop j a)), (drop (Z.to_nat len) s).
  split_and!; [by rewrite Hl|by rewrite HT1, take_drop|unfold T1; by rewrite take_drop| |].
  { by destruct (rp_is_broken_token p). }
  rewrite drop_drop. apply (at_bulk _ k a); cbn.
  - done.
  - by destruct (rp_is_broken_token p).
  - by destruct (rp_is_broken_token p).
  - rewrite Hjl. destruct (rp_is_broken_token p); cbn.
    + eapply strings_back; [exact Hvec|]. intros e He Hb. split; [done|]. cbn. by rewrite Hb.
    + rewrite (Hbr eq_refl) in *. eapply strings_back; [exact Hvec|]. intros e He Hb. done.
  - unfold len, zlen. rewrite length_drop. lia.
  - rewrite <- Hd, Hbl. unfold len. rewrite Hd in *. unfold zlen in *. rewrite length_drop in *. lia.
  - by destruct (rp_is_broken_token p) eqn:?; cbn.
Qed.

Lemma bulk_turn p s fut rest k a j :
  args !! k = Some a → rp_state p = BULK_STR_S → rp_parse_stack p = [zlen args - Z.of_nat k] →
  strings (rp_vec p) (take k args ++ [take j a]) → (j ≤ length a)%nat →
  rp_bulk_len p = zlen a - Z.of_nat j → (rp_is_broken_token p = false → j = 0%nat) →
  s ++ fut = (drop j a ++ CRLF ++ args_text (S k)) ++ rest →
  let '(p', c) := parse_step p s in
  turn_ok p s (drop j a ++ CRLF ++ args_text (S k)) p' c ∨
  turn_pending p s (drop j a ++ CRLF ++ args_text (S k)) p' c.
Proof.
  intros Ha Hst Hstack Hvec Hj Hbl Hbr Heq. set (T := drop j a ++ CRLF ++ args_text (S k)) in *.
  assert (Hat : at_text p T) by by eapply at_bulk.
  assert (HT : T = (drop j a ++ CRLF) ++ args_text (S k)) by (unfold T; by rewrite <- app_assoc).
  assert (Hlong : zlen (drop j a ++ CRLF) ≤ zlen T).
  { rewrite HT, (zlen_app (_ ++ _)). pose proof (zlen_nonneg (args_text (S k))). lia. }
  unfold parse_step. rewrite Hst. rewrite HT, <- app_assoc in Heq.
  destruct (arrived _ _ _ _ Heq) as [[s' ->]|[Hlt [t Ht]]].
  - rewrite <- app_assoc. destruct (bulk_done p s' k a j) as (p' & -> & Hat'); [done..|].
    left. exists (drop j a ++ CRLF), (args_text (S k)), s'. split_and!; [|done|].
    + split; [done|by rewrite <- app_assoc|done|by apply at_text_result].
    + rewrite app_assoc. apply weight_read; [by rewrite Hst|]. by destruct (drop j a).
  - destruct (Z.leb_spec 32 (zlen s)) as [H32|H32].
    + destruct (bulk_part p s t k a j) as (p' & T1 & t' & s' & -> & Hd & Hs & Hst' & Hat'); [done..|].
      right. exists T1, (t' ++ CRLF ++ args_text (S k)), s'. split_and!; [|done|lia|cbn; by rewrite Hst'].
      split; [unfold T; by rewrite Hd, <- app_assoc|done|done|by apply at_text_result].
    + unfold ConsumeBulk.
      assert (Hd : rp_bulk_len p = zlen (drop j a)) by (rewrite Hbl; unfold zlen; rewrite length_drop; lia).
      rewrite zlen_app in Hlt, Hlong. change (zlen CRLF) with 2 in Hlt, Hlong.
      rewrite (proj2 (Z.leb_gt _ _)) by lia. rewrite (proj2 (Z.leb_gt 32 _)) by lia.
      right. apply turn_wait; [done|lia|by rewrite Hst].
Qed.

Lemma finish_turn p s k :
  (k < length args)%nat → rp_state p = FINISH_ARG_S → rp_parse_stack p = [zlen args - Z.of_nat k] →
  strings (rp_vec p) (take (S k) args) → rp_is_broken_token p = false → rp_last_result p = OK →
  let '(p', c) := parse_step p s in turn_ok p s (args_text (S k)) p' c.
Proof.
  intros Hk Hst Hstack Hvec Hbr Hres. unfold parse_step. rewrite Hst. unfold HandleFinishArg. rewrite Hstack.
  unfold kMaxArrayLen in Hlen. rewrite u32_small by (unfold U32_MAX, zlen in *; lia).
  exists [], (args_text (S k)), s.
  destruct (Z.eqb_spec (zlen args - Z.of_nat k - 1) 0) as [Hz|Hz]; cbn [negb].
  - assert (S k = length args) as Hlast by (unfold zlen in Hz; lia).
    split_and!; [|done|].
    + split; [done|done|done|]. unfold args_text. rewrite drop_ge by lia. cbn [map concat].
      apply at_done; cbn; [done| |done]. by rewrite take_ge in Hvec by lia.
    + by apply weight_finish.
  - split_and!; [|done|].
    + split; [done|done|done|]. apply at_arg; [unfold zlen in *; lia|done| |done|done].
      change ([zlen args - Z.of_nat k - 1] = [zlen args - Z.of_nat (S k)]). f_equal. lia.
    + by apply weight_finish.
Qed.

Lemma step_turn p s fut T rest :
  at_text p T → rp_state p ≠ CMD_COMPLETE_S → (rp_state p = FINISH_ARG_S → rp_last_result p = OK) →
  s ++ fut = T ++ rest →
  let '(p', c) := parse_step p s in turn_ok p s T p' c ∨ turn_pending p s T p' c.
Proof.
  intros Hat Hst Hres Heq. destruct Hat.
  - by apply (array_turn p s fut rest).
  - by apply (arg_turn p s fut rest k).
  - by apply (bulk_turn p s fut rest k a j).
  - pose proof (finish_turn p s k) as H'. destruct (parse_step p s) as [p' c]. left. apply H'; auto.
  - done.
Qed.

(** The loop reads the text, or all that is at hand. *)
Lemma loop_turn fuel : ∀ p s T fut rest consumed,
  at_text p T → (rp_state p = FINISH_ARG_S → rp_last_result p = OK) →
  (rp_state p = CMD_COMPLETE_S → rp_last_result p = OK) →
  s ++ fut = T ++ rest → (weight p s < fuel)%nat →
  ∃ p' T1 T' s', parse_loop fuel p s consumed = Some (p', consumed + zlen T1) ∧
    T = T1 ++ T' ∧ s = T1 ++ s' ∧ at_text p' T' ∧
    ((rp_last_result p' = OK ∧ rp_state p' = CMD_COMPLETE_S) ∨
     (rp_last_result p' = INPUT_PENDING ∧ zlen s < zlen T ∧ rp_state p' ≠ FINISH_ARG_S)).
Proof.
  induction fuel as [|fuel IH]; intros p s T fut rest consumed Hat Hfin Hdone Heq Hw; [lia|].
  cbn [parse_loop]. case_bool_decide as Hst.
  { exists p, [], T, s. rewrite zlen_nil, Z.add_0_r. split_and!; [done..|]. left. auto. }
  pose proof (step_turn p s fut T rest Hat Hst Hfin Heq) as Hturn.
  destruct (parse_step p s) as [p1 c]. destruct Hturn as [(T1 & T' & s' & [HT Hs Hc Hat'] & Hok & Hlt)|
    (T1 & T' & s' & [HT Hs Hc Hat'] & Hp & Hlt & Hnf)].
  - rewrite Hok. rewrite bool_decide_eq_true_2 by done. cbn [negb].
    assert (Hdrop : drop (Z.to_nat c) s = s') by (rewrite Hs, Hc; apply drop_zlen_app).
    rewrite Hdrop. destruct (IH p1 s' T' fut rest (consumed + c)) as (p' & U1 & U' & u' & -> & HU & Hu & Hat2 & Hend).
    + done.
    + done.
    + done.
    + subst T s. rewrite <- !app_assoc in Heq. by apply app_inv_head in Heq.
    + lia.
    + exists p', (T1 ++ U1), U', u'. rewrite zlen_app, <- Hc. split_and!.
      * by rewrite Z.add_assoc.
      * by rewrite HT, HU, app_assoc.
      * by rewrite Hs, Hu, app_assoc.
      * done.
      * destruct Hend as [?|(? & Hlt' & ?)]; [by left|right]. split_and!; [done| |done].
        subst T s. rewrite !zlen_app. lia.
  - rewrite Hp. rewrite bool_decide_eq_false_2 by done. cbn [negb].
    exists p1, T1, T', s'. rewrite <- Hc. split_and!; [done..|]. by right.
Qed.

(** ** Between calls *)

Lemma stash_exprs_values v : values (stash_exprs v).1 = values v.
Proof.
  unfold values. induction v as [|e rest IH]; [done|]. cbn [stash_exprs]. destruct (_ && _ && _); [done|].
  destruct (stash_exprs rest) as [rest' n]. cbn in *. rewrite IH. by destruct (_ && _).
Qed.

Lemma StashState_values p : values (rp_vec (StashState p)) = values (rp_vec p).
Proof.
  unfold StashState. destruct (_ && _); [done|].
  pose proof (stash_exprs_values (drop (rp_stashed_index p) (rp_vec p))) as Hval.
  destruct (stash_exprs _) as [v n]. cbn [fst] in Hval. cbn [rp_vec].
  change (values (take (rp_stashed_index p) (rp_vec p) ++ v) = values (rp_vec p)).
  rewrite <- (take_drop (rp_stashed_index p) (rp_vec p)) at 2.
  unfold values in *. by rewrite !fmap_app, Hval.
Qed.

Lemma StashState_fields p :
  rp_state (StashState p) = rp_state p ∧ rp_parse_stack (StashState p) = rp_parse_stack p ∧
  rp_bulk_len (StashState p) = rp_bulk_len p ∧ rp_is_broken_token (StashState p) = rp_is_broken_token p ∧
  rp_last_result (StashState p) = rp_last_result p ∧
  (rp_stashed (StashState p) = true ∨ rp_vec (StashState p) = []).
Proof.
  unfold StashState. destruct (bool_decide (rp_vec p = []) && negb (rp_stashed p)) eqn:Hcase.
  - apply andb_prop in Hcase as [Hv%bool_decide_eq_true _]. auto 10.
  - destruct (stash_exprs _) as [v n]. cbn. auto 10.
Qed.

Lemma StashState_at p T : at_text p T → at_text (StashState p) T.
Proof.
  intros Hat. destruct (StashState_fields p) as (E1 & E2 & E3 & E4 & _). pose proof (StashState_values p) as Hv.
  destruct Hat as [? ? Hnil|k|k a j|k|];
    [apply at_array|eapply (at_arg _ k)|eapply (at_bulk _ k a j)|eapply (at_finish _ k)|eapply at_done];
    unfold strings in *; rewrite ?E4; try congruence; try done.
  rewrite Hnil in Hv. by apply fmap_nil_inv in Hv.
Qed.

(** Ready for a command, or in the middle of one with the text [T] to come. *)
Definition ready (p : RedisParser) : Prop :=
  (rp_state p = INIT_S ∨ rp_state p = CMD_COMPLETE_S) ∧ rp_is_broken_token p = false.

Definition expects (p : RedisParser) (T : bytes) : Prop :=
  (ready p ∧ T = EncodeRespArray args) ∨
  (at_text p T ∧ (rp_stashed p = true ∨ rp_vec p = []) ∧ rp_state p ≠ FINISH_ARG_S ∧ rp_state p ≠ CMD_COMPLETE_S).

Lemma at_text_long p T : at_text p T → rp_state p ≠ FINISH_ARG_S → rp_state p ≠ CMD_COMPLETE_S → 2 ≤ zlen T.
Proof.
  intros Hat Hf Hc. destruct Hat as [|k Hk|k a j| |]; [| | |done|done].
  - rewrite array_text, zlen_app. pose proof (zlen_header 42 (zlen args)). pose proof (zlen_nonneg (args_text 0)). lia.
  - destruct (lookup_lt_is_Some_2 args k Hk) as [a Ha]. rewrite (args_text_cons _ _ Ha), zlen_app.
    pose proof (zlen_header 36 (zlen a)). pose proof (zlen_nonneg (a ++ CRLF ++ args_text (S k))). lia.
  - rewrite !zlen_app. change (zlen CRLF) with 2. pose proof (zlen_nonneg (drop j a)).
    pose proof (zlen_nonneg (args_text (S k))). lia.
Qed.

Lemma expects_long p T : expects p T → 2 ≤ zlen T.
Proof.
  intros [[_ ->]|(Hat & _ & Hf & Hc)]; [|by eapply at_text_long].
  rewrite array_text, zlen_app. pose proof (zlen_header 42 (zlen args)). pose proof (zlen_nonneg (args_text 0)). lia.
Qed.

(** The start of [Parse]. *)
Definition parse_begin (p : RedisParser) (s : bytes) : RedisParser :=
  let p := if bool_decide (rp_state p = CMD_COMPLETE_S) then p <| rp_state := INIT_S |> else p in
  let p := if rp_stashed p then p else p <| rp_vec := [] |> in
  if bool_decide (rp_state p = INIT_S) then InitStart p (byte_at s 0) else p.

Lemma parse_begin_at p s fut T rest : expects p T → s ++ fut = T ++ rest → 2 ≤ zlen s →
  at_text (parse_begin p s) T ∧ rp_state (parse_begin p s) ≠ FINISH_ARG_S ∧ rp_state (parse_begin p s) ≠ CMD_COMPLETE_S.
Proof.
  intros Hexp Heq Hs. destruct Hexp as [[[Hst Hbr] ->]|(Hat & Hvec & Hf & Hc)].
  - assert (Hb : byte_at s 0 = 42).
    { destruct s as [|c s0]; [by cbn in Hs|]. rewrite array_text in Heq. by injection Heq as -> _. }
    assert (∃ q, parse_begin p s = InitStart q 42 ∧ rp_is_broken_token q = false) as (q & -> & Hq).
    { unfold parse_begin. rewrite Hb. clear Hb. destruct p as [st lr bl si ps sd v br]. cbn in Hst, Hbr.
      destruct Hst; subst st br; destruct sd; (eexists; split; [reflexivity|reflexivity]). }
    split_and!; [by apply at_array|done|done].
  - assert (Hi : rp_state p ≠ INIT_S) by (destruct Hat; congruence).
    assert (Hp : parse_begin p s = p).
    { unfold parse_begin. rewrite (bool_decide_eq_false_2 _ Hc). cbv zeta.
      assert ((if rp_stashed p then p else p <| rp_vec := [] |>) = p) as ->.
      { destruct Hvec as [-> |Hv]; [done|]. destruct (rp_stashed p) eqn:E; [done|]. destruct p; cbn in *; congruence. }
      by rewrite (bool_decide_eq_false_2 _ Hi). }
    rewrite Hp. done.
Qed.

(** One call: the command is complete, or all that can be used is used. *)
Lemma Parse_turn p s fut T rest : expects p T → s ++ fut = T ++ rest →
  (∃ p' res s', Parse p s = Some (p', OK, zlen T, res) ∧ s = T ++ s' ∧ ready p' ∧ strings res args) ∨
  (∃ p' T1 T' s' res, Parse p s = Some (p', INPUT_PENDING, zlen T1, res) ∧ T = T1 ++ T' ∧ s = T1 ++ s' ∧
     expects p' T' ∧ zlen s < zlen T).
Proof.
  intros Hexp Heq. pose proof (expects_long p T Hexp) as HT. unfold Parse.
  destruct (Z.ltb_spec (zlen s) 2) as [Hshort|Hs].
  { right. exists p, [], T, s, []. split_and!; [done|done|done|done|lia]. }
  fold (parse_begin p s). destruct (parse_begin_at p s fut T rest Hexp Heq Hs) as (Hat & Hf & Hc).
  destruct (loop_turn (parse_fuel s) (parse_begin p s) s T fut rest 0) as
    (p' & T1 & T' & s' & Hloop & HTe & Hse & Hat' & Hend); [done|done|done|done| |].
  { unfold weight, parse_fuel. case_bool_decide; lia. }
  cbv zeta. fold (parse_begin p s). rewrite Hloop. cbn [mbind option_bind]. rewrite Z.add_0_l.
  destruct Hend as [[Hok Hst]|(Hp & Hlt & Hst)].
  - rewrite Hok. rewrite (bool_decide_eq_true_2 (OK = OK)) by done.
    rewrite (bool_decide_eq_false_2 (OK = INPUT_PENDING)) by done. rewrite Hok. cbn [negb]. rewrite andb_false_r.
    left. destruct Hat'; try congruence. rewrite app_nil_r in HTe. subst T1.
    exists p', (rp_vec p'), s'. split_and!; [done|done| |done]. split; [by right|done].
  - rewrite Hp. rewrite (bool_decide_eq_true_2 (INPUT_PENDING = INPUT_PENDING)) by done.
    destruct (StashState_fields p') as (E1 & E2 & E3 & E4 & E5 & E6). rewrite E5, Hp.
    right. eexists (StashState p'), T1, T', s', _. split_and!; [done|done|done| |done].
    right. split_and!; [by apply StashState_at|done|congruence|].
    rewrite E1. intros Hd. destruct Hat'; try congruence. rewrite app_nil_r in HTe. subst T1.
    rewrite Hse, zlen_app in Hlt. pose proof (zlen_nonneg s'). lia.
Qed.
End stream.

(** The caller: it appends every piece to the bytes that were not consumed, and
    stops at a command: its expressions, the bytes that were not consumed, and the
    pieces that are left. *)
Fixpoint feed {absl : Absl} (p : RedisParser) (unread : bytes) (pieces : list bytes)
    : option (RedisParser * list RespExpr * bytes * list bytes) :=
  match pieces with
  | [] => None
  | piece :: pieces =>
      let s := unread ++ piece in
      match Parse p s with
      | Some (p, OK, c, res) => Some (p, res, drop (Z.to_nat c) s, pieces)
      | Some (p, INPUT_PENDING, c, _) => feed p (drop (Z.to_nat c) s) pieces
      | _ => None
      end
  end.

Lemma feed_ok {absl : Absl} {absl_spec : AbslSpec absl} args :
  1 ≤ zlen args ≤ kMaxArrayLen → Forall (fun a => zlen a ≤ kMaxBulkLen) args →
  ∀ pieces p unread T rest, expects args p T → unread ++ concat pieces = T ++ rest → zlen unread < zlen T →
  ∃ p' res unread' left, feed p unread pieces = Some (p', res, unread', left) ∧
    ready p' ∧ strings res args ∧ unread' ++ concat left = rest.
Proof.
  intros Hlen Hbulk pieces. induction pieces as [|piece pieces IH]; intros p unread T rest Hexp Heq Hlt.
  { exfalso. cbn in Heq. rewrite app_nil_r in Heq. rewrite Heq, zlen_app in Hlt. pose proof (zlen_nonneg rest). lia. }
  cbn [concat] in Heq. rewrite app_assoc in Heq. cbn [feed].
  destruct (Parse_turn args Hlen Hbulk p (unread ++ piece) (concat pieces) T rest Hexp Heq) as
    [(p' & res & s' & -> & Hs & Hr & Hstr)|(p' & T1 & T' & s' & res & -> & HT & Hs & Hexp' & Hlt')].
  - exists p', res, s', pieces. rewrite Hs, drop_zlen_app. split_and!; [done|done|done|].
    rewrite Hs, <- app_assoc in Heq. by apply app_inv_head in Heq.
  - rewrite Hs, drop_zlen_app. apply (IH p' s' T' rest Hexp').
    + rewrite Hs, HT, <- !app_assoc in Heq. by apply app_inv_head in Heq.
    + rewrite Hs, HT, !zlen_app in Hlt'. lia.
Qed.

(** C19. A command comes out whole, whatever pieces its bytes arrive in: the
    expressions are its arguments, every byte of it and none after it is consumed,
    and the parser is ready for the next command. *)
Theorem parser_streams {absl : Absl} {absl_spec : AbslSpec absl} p args pieces rest :
  ready p → 1 ≤ zlen args ≤ kMaxArrayLen → Forall (fun a => zlen a ≤ kMaxBulkLen) args →
  concat pieces = EncodeRespArray args ++ rest →
  ∃ p' res unread left, feed p [] pieces = Some (p', res, unread, left) ∧
    ready p' ∧ strings res args ∧ unread ++ concat left = rest.
Proof.
  intros Hp Hlen Hbulk Heq. apply (feed_ok args Hlen Hbulk pieces p [] (EncodeRespArray args) rest); [by left|done|].
  rewrite zlen_nil, array_text, zlen_app. pose proof (zlen_header 42 (zlen args)).
  pose proof (zlen_nonneg (args_text args 0)). lia.
Qed.

#[local] Existing Instance decimal_atoi.

(** A command with an empty argument and a long one, in pieces that cut headers,
    the long string and its end. *)
Definition example_args : list bytes := [str "SET"; []; replicate 50 120].

Definition example_pieces : list bytes :=
  let s := EncodeRespArray example_args ++ str "*1" in
  [take 1 s; take 9 (drop 1 s); take 50 (drop 10 s); take 18 (drop 60 s); drop 78 s].

Lemma parser_streams_witness :
  concat example_pieces = EncodeRespArray example_args ++ str "*1" ∧
  ∃ p' res unread left, feed RedisParser_new [] example_pieces = Some (p', res, unread, left) ∧
    strings res example_args ∧ unread ++ concat left = str "*1".
Proof.
  assert (H : concat example_pieces = EncodeRespArray example_args ++ str "*1") by by_compute.
  split; [exact H|].
  destruct (parser_streams RedisParser_new example_args example_pieces (str "*1")) as (p' & res & u & l & Hf & _ & Hs & Hu).
  - split; [by left|done].
  - by_decide.
  - by_decide.
  - exact H.
  - exists p', res, u, l. split_and!; [exact Hf|exact Hs|exact Hu].
Defined.

(** ** No pointer into the input is kept *)

(** A string that is not empty is in memory of the parser. *)
Definition supported (e : RespExpr) : Prop := re_type e = STRING → re_buf e ≠ [] → re_has_support e = true.

(** The last expression, by what the parser is doing; [owned]: an inline token
    that goes on has been copied.  The parser does not stop in [FINISH_ARG_S], so
    there nothing is left to copy. *)
Definition back_ok (owned : bool) (p : RedisParser) : Prop :=
  match rp_state p with
  | BULK_STR_S => ∃ v e, rp_vec p = v ++ [e] ∧ re_type e = STRING ∧
      if rp_is_broken_token p then re_has_support e = true
      else re_buf e = [] ∧ (rp_stashed_index p ≤ length v)%nat
  | INLINE_S => rp_is_broken_token p = true → ∃ v e, rp_vec p = v ++ [e] ∧ re_type e = STRING ∧ re_buf e ≠ [] ∧
      (owned = true → re_has_support e = true)
  | FINISH_ARG_S => owned = true ∧ rp_is_broken_token p = false
  | _ => rp_is_broken_token p = false
  end.

(** In the middle of a command. *)
Record live (owned : bool) (p : RedisParser) : Prop := {
  lv_state : rp_state p ≠ INIT_S ∧ rp_state p ≠ CMD_COMPLETE_S;
  lv_index : (rp_stashed_index p ≤ length (rp_vec p))%nat;
  lv_low : Forall supported (take (rp_stashed_index p) (rp_vec p));
  lv_stack : rp_state p = PARSE_ARG_S ∨ rp_state p = BULK_STR_S ∨ rp_state p = FINISH_ARG_S → rp_parse_stack p ≠ [];
  lv_len : rp_state p = BULK_STR_S → 0 ≤ rp_bulk_len p;
  lv_back : back_ok owned p
}.

Lemma alter_back_snoc f v e : alter_back f (v ++ [e]) = v ++ [f e].
Proof.
  unfold alter_back. rewrite length_app. cbn [length].
  replace (length v + 1 - 1)%nat with (length v + 0)%nat by lia. by rewrite alter_app_r.
Qed.

Lemma stash_exprs_supported v : Forall supported (stash_exprs v).1 ∧
  ((stash_exprs v).2 ≤ length v)%nat ∧ length (stash_exprs v).1 = length v.
Proof.
  induction v as [|e rest (IH1 & IH2 & IH3)]; [by repeat constructor|]. cbn [stash_exprs].
  destruct (_ && _ && _) eqn:Hlast.
  - apply andb_prop in Hlast as [[_ Hb%bool_decide_eq_true]%andb_prop ->%bool_decide_eq_true].
    cbn. split_and!; [|lia|done]. constructor; [by intros _ []|constructor].
  - destruct (stash_exprs rest) as [rest' n]. cbn in *. split_and!; [|lia|lia]. constructor; [|done].
    destruct (bool_decide (re_type e = STRING) && negb (bool_decide (re_buf e = []))) eqn:E; [by intros _ _|].
    intros Ht Hb. by rewrite bool_decide_eq_true_2, bool_decide_eq_false_2 in E by done.
Qed.

Lemma stash_exprs_last u e : ∃ u' e', (stash_exprs (u ++ [e])).1 = u' ++ [e'] ∧ length u' = length u ∧
  re_type e' = re_type e ∧ re_buf e' = re_buf e ∧ (re_has_support e = true → re_has_support e' = true) ∧
  (re_type e = STRING → re_buf e = [] → ((stash_exprs (u ++ [e])).2 ≤ length u)%nat).
Proof.
  induction u as [|e0 u IH].
  - cbn. destruct (bool_decide (re_type e = STRING)) eqn:Ht, (bool_decide (re_buf e = [])) eqn:Hb; cbn.
    all: eexists [], _; split_and!; [reflexivity|try done..].
    all: intros; rewrite ?bool_decide_eq_false in *; done.
  - destruct IH as (u' & e' & H1 & H2 & H3 & H4 & H5 & H6). cbn [app stash_exprs].
    rewrite (bool_decide_eq_false_2 (u ++ [e] = [])) by (by destruct u). rewrite andb_false_r.
    destruct (stash_exprs (u ++ [e])) as [v' n]. cbn [fst snd] in *. subst v'.
    eexists (_ :: u'), e'. cbn [app fst snd length]. split_and!; [reflexivity|lia|done|done|done|].
    intros Ht Hb. specialize (H6 Ht Hb). lia.
Qed.

(** [StashState] when there is something to keep. *)
Definition stashed_vec (p : RedisParser) : list RespExpr :=
  take (rp_stashed_index p) (rp_vec p) ++ (stash_exprs (drop (rp_stashed_index p) (rp_vec p))).1.

Definition stashed_index (p : RedisParser) : nat :=
  (rp_stashed_index p + (stash_exprs (drop (rp_stashed_index p) (rp_vec p))).2)%nat.

Lemma StashState_eq p : bool_decide (rp_vec p = []) && negb (rp_stashed p) = false →
  StashState p = p <| rp_stashed := true |> <| rp_vec := stashed_vec p |> <| rp_stashed_index := stashed_index p |>.
Proof.
  intros H. unfold StashState, stashed_vec, stashed_index. rewrite H.
  by destruct (stash_exprs (drop (rp_stashed_index p) (rp_vec p))) as [v n].
Qed.

Lemma stashed_last p v e : rp_vec p = v ++ [e] → (rp_stashed_index p ≤ length (rp_vec p))%nat →
  ∃ w e', stashed_vec p = w ++ [e'] ∧ length w = length v ∧ re_type e' = re_type e ∧ re_buf e' = re_buf e ∧
    (re_has_support e = true → re_has_support e' = true) ∧
    (re_type e = STRING → re_buf e = [] → (rp_stashed_index p ≤ length v)%nat → (stashed_index p ≤ length v)%nat).
Proof.
  intros Hv Hi. unfold stashed_vec, stashed_index. rewrite Hv in *. rewrite length_app in Hi. cbn [length] in Hi.
  destruct (decide (rp_stashed_index p ≤ length v)%nat) as [Hle|Hgt].
  - rewrite take_app_le, drop_app_le by done.
    destruct (stash_exprs_last (drop (rp_stashed_index p) v) e) as (u & e' & -> & Hl & Ht & Hb & Hs & Hn).
    exists (take (rp_stashed_index p) v ++ u), e'. rewrite app_assoc, length_app, Hl, length_take, length_drop.
    split_and!; [done|lia|done|done|done|]. intros Ht' Hb' _. specialize (Hn Ht' Hb').
    rewrite length_drop in Hn. lia.
  - rewrite take_ge, drop_ge by (rewrite length_app; cbn; lia). exists v, e. cbn [stash_exprs fst snd].
    rewrite app_nil_r. split_and!; [done..|lia].
Qed.

Lemma StashState_live p : live false p →
  live true (StashState p) ∧ Forall supported (rp_vec (StashState p)) ∧
  (rp_stashed (StashState p) = true ∨ rp_vec (StashState p) = []).
Proof.
  intros [Hst Hi Hlow Hstack Hlen Hback].
  destruct (bool_decide (rp_vec p = []) && negb (rp_stashed p)) eqn:Hcase.
  - assert (StashState p = p) as -> by (unfold StashState; by rewrite Hcase).
    apply andb_prop in Hcase as [Hv%bool_decide_eq_true _]. rewrite Hv. split_and!; [|constructor|by right].
    split; [done..|]. unfold back_ok in *. destruct (rp_state p); try done; try (by destruct Hback).
    intros Hb. destruct (Hback Hb) as (v & e & Hve & _). rewrite Hv in Hve. by destruct v.
  - rewrite StashState_eq by done.
    destruct (stash_exprs_supported (drop (rp_stashed_index p) (rp_vec p))) as (Hs1 & Hs2 & Hs3).
    assert (Hsup : Forall supported (stashed_vec p)) by (unfold stashed_vec; apply Forall_app; done).
    cbn [rp_vec rp_stashed]. split_and!; [|done|by left]. split.
    + done.
    + cbn. unfold stashed_index, stashed_vec. rewrite length_app, length_take, Hs3, length_drop in *. lia.
    + cbn. by apply Forall_take.
    + done.
    + done.
    + unfold back_ok in *. cbn. destruct (rp_state p); try done; try (by destruct Hback).
      * intros Hb. destruct (Hback Hb) as (v & e & Hve & Ht & Hbuf & _).
        destruct (stashed_last p v e Hve Hi) as (w & e' & Hw & Hwl & Ht' & Hb' & _ & _).
        exists w, e'. rewrite Ht', Hb'. split_and!; [done|done|done|]. intros _.
        rewrite Hw in Hsup. apply Forall_app in Hsup as [_ Hsup]. inversion_clear Hsup as [|? ? Hse].
        apply Hse; congruence.
      * destruct Hback as (v & e & Hve & Ht & Hbr).
        destruct (stashed_last p v e Hve Hi) as (w & e' & Hw & Hwl & Ht' & Hb' & Hs' & Hidx).
        exists w, e'. split_and!; [done|congruence|]. destruct (rp_is_broken_token p); [by apply Hs'|].
        destruct Hbr as [Hbuf Hidx']. split; [congruence|]. rewrite Hwl. by apply Hidx.
Qed.

Lemma live_weaken p : live true p → rp_state p ≠ FINISH_ARG_S → live false p.
Proof.
  intros [H1 H2 H3 H4 H5 H6] Hst. split; [done..|]. unfold back_ok in *. destruct (rp_state p); try done.
  intros Hb. destruct (H6 Hb) as (v & e & ? & ? & ? & _). by exists v, e.
Qed.

Lemma supported_take_snoc i v e e' : Forall supported (take i (v ++ [e])) → re_has_support e' = true →
  Forall supported (take i (v ++ [e'])).
Proof.
  intros H He. rewrite take_app in *. apply Forall_app in H as [H _]. apply Forall_app. split; [done|].
  apply Forall_take. constructor; [by intros _ _|constructor].
Qed.

Lemma supported_take_low i v w : (i ≤ length v)%nat → Forall supported (take i (v ++ w)) → ∀ w', Forall supported (take i (v ++ w')).
Proof. intros Hi H w'. by rewrite take_app_le in * by done. Qed.

Lemma inline_tokens_spec fuel s :
  (length (inline_tokens fuel s).2 ≤ length s)%nat ∧ Forall (fun t => t ≠ []) (inline_tokens fuel s).1.
Proof.
  revert s. induction fuel as [|fuel IH]; intros s; [by repeat constructor|]. cbn [inline_tokens].
  pose proof (drop_while_le is_blank s) as Hl. destruct (drop_while is_blank s) as [|c s'] eqn:Hd; [cbn; split; [lia|done]|].
  destruct (Z.eqb_spec c 10) as [|Hc]; [by split; [cbn in *; lia|]|].
  destruct (IH (drop_while is_token_byte (c :: s'))) as [IH1 IH2].
  pose proof (drop_while_le is_token_byte (c :: s')).
  destruct (inline_tokens fuel _) as [tokens rest]. cbn [fst snd] in *. split; [lia|]. constructor; [|done].
  pose proof (drop_while_head _ _ _ _ Hd) as Hb.
  cbn. unfold is_token_byte. unfold is_blank in Hb. destruct (Z.ltb_spec 32 c); [done|].
  exfalso. apply Z.eqb_neq in Hc. rewrite Hc, (proj2 (Z.leb_le c 32)) in Hb by lia. done.
Qed.

(** Nothing but blanks, to the end. *)
Lemma inline_tokens_nil fuel s : inline_tokens (S fuel) s = ([], []) → Forall (fun c => is_blank c = true) s.
Proof.
  cbn [inline_tokens]. destruct (drop_while is_blank s) as [|c s'] eqn:Hd; [intros _; by apply drop_while_nil|].
  destruct (c =? 10); [done|]. by destruct (inline_tokens fuel _).
Qed.

Lemma find_nat_lt c s i : find_nat [c] s = Some i → (i < length s)%nat.
Proof.
  revert i. induction s as [|x s IH]; intros i; cbn [find_nat].
  - rewrite bool_decide_eq_false_2; [done|]. by intros [k ?].
  - case_bool_decide; [intros [= <-]; cbn; lia|]. destruct (find_nat [c] s) as [j|]; [|done].
    intros [= <-]. specialize (IH j eq_refl). cbn. lia.
Qed.

Section safety.
Context {absl : Absl}.

Lemma ParseNum_bounds s r n c : ParseNum s = (r, n, c) → (r = OK → 2 ≤ c ≤ zlen s) ∧ (r ≠ OK → c = 0).
Proof.
  unfold ParseNum. destruct (Z.ltb_spec (zlen s) 4); [by intros [= <- <- <-]|].
  destruct (find_from [10] (drop 1 s) 0) as [pos|] eqn:Hf; [|by destruct (zlen s <? 32); intros [= <- <- <-]].
  destruct (negb _); [by intros [= <- <- <-]|]. destruct (atoi64 _); [|by intros [= <- <- <-]].
  intros [= <- <- <-]. split; [|done]. intros _. rewrite find_from_0 in Hf.
  destruct (find_nat [10] (drop 1 s)) as [i|] eqn:Hi; [|done]. injection Hf as <-.
  apply find_nat_lt in Hi. rewrite length_drop in Hi. unfold zlen in *. lia.
Qed.

(** What a turn of the loop guarantees on any input. *)
Definition turn_safe (p : RedisParser) (s : bytes) (p' : RedisParser) (c : Z) : Prop :=
  0 ≤ c ≤ zlen s ∧
  match rp_last_result p' with
  | OK => (rp_state p' = CMD_COMPLETE_S ∧ rp_is_broken_token p' = false) ∨
          (live true p' ∧ rp_state p' ≠ INLINE_S ∧ (weight p' (drop (Z.to_nat c) s) < weight p s)%nat)
  | INPUT_PENDING => live false p'
  | _ => True
  end.

Lemma weight_consume p p' s c : rp_state p ≠ FINISH_ARG_S → 1 ≤ c ≤ zlen s →
  (weight p' (drop (Z.to_nat c) s) < weight p s)%nat.
Proof.
  intros Hp Hc. unfold weight. rewrite (bool_decide_eq_false_2 _ Hp), length_drop. unfold zlen in Hc.
  case_bool_decide; lia.
Qed.

Lemma live_result b p r : live b p → live b (p <| rp_last_result := r |>).
Proof. intros [H1 H2 H3 H4 H5 H6]. by split. Qed.

Lemma array_safe p s : live true p → rp_state p = ARRAY_LEN_S →
  let '(p', c) := parse_step p s in turn_safe p s p' c.
Proof.
  intros Hl Hst. unfold parse_step. rewrite Hst. unfold ConsumeArrayLen.
  destruct (ParseNum s) as [[r n] c] eqn:Hn. destruct (ParseNum_bounds _ _ _ _ Hn) as [Hok Hno].
  assert (Hbr : rp_is_broken_token p = false) by (pose proof (lv_back _ _ Hl) as H; unfold back_ok in H; by rewrite Hst in H).
  pose proof (zlen_nonneg s). destruct r; try (specialize (Hno ltac:(done)); subst c); try (split; [lia|done]).
  2: { split; [lia|]. apply live_result, live_weaken; [done|by rewrite Hst]. }
  specialize (Hok eq_refl). destruct (_ || _); [split; [lia|done]|]. destruct (negb _); [split; [lia|done]|].
  destruct (bool_decide (rp_vec p = [])) eqn:Hv; cbn [negb]; [|split; [lia|done]].
  apply bool_decide_eq_true in Hv. destruct (n <=? 0); (split; [lia|]); [by left|].
  right. split_and!; [|done|apply weight_consume; [by rewrite Hst|lia]].
  destruct Hl as [H1 H2 H3 H4 H5 H6]. by split.
Qed.

Lemma arg_safe p s : live true p → rp_state p = PARSE_ARG_S →
  let '(p', c) := parse_step p s in turn_safe p s p' c.
Proof.
  intros Hl Hst. unfold parse_step. rewrite Hst. pose proof (zlen_nonneg s).
  destruct (zlen s <? 4); [split; [lia|apply live_result, live_weaken; [done|by rewrite Hst]]|].
  unfold ParseArg. destruct (byte_at s 0 =? 36); [|split; [lia|done]].
  destruct (ParseNum s) as [[r n] c] eqn:Hn. destruct (ParseNum_bounds _ _ _ _ Hn) as [Hok Hno].
  destruct r; try (specialize (Hno ltac:(done)); subst c); try (split; [lia|done]).
  2: { split; [lia|]. apply live_result, live_weaken; [done|by rewrite Hst]. }
  specialize (Hok eq_refl). destruct (_ || _); [split; [lia|done]|].
  destruct Hl as [H1 H2 H3 H4 H5 H6]. unfold back_ok in H6. rewrite Hst in H6.
  specialize (H4 (or_introl Hst)).
  destruct (Z.ltb_spec n 0); (split; [lia|]); right; (split_and!; [|done|apply weight_consume; [by rewrite Hst|lia]]).
  - split; cbn; [done|rewrite length_app; cbn; lia| |done|done|done].
    rewrite take_app_le by done. done.
  - split; cbn; [done|rewrite length_app; cbn; lia| |done|done|].
    + rewrite take_app_le by done. done.
    + unfold back_ok. cbn. exists (rp_vec p), (RespExpr_new STRING). rewrite H6. done.
Qed.

Lemma bulk_safe p s : live true p → rp_state p = BULK_STR_S →
  let '(p', c) := parse_step p s in turn_safe p s p' c.
Proof.
  intros Hl Hst. unfold parse_step. rewrite Hst. pose proof (zlen_nonneg s). pose proof Hl as [H1 H2 H3 H4 H5 H6].
  unfold back_ok in H6. rewrite Hst in H6. destruct H6 as (v & e & Hv & Ht & Hbr). specialize (H5 Hst).
  specialize (H4 (or_intror (or_introl Hst))). rewrite Hv in H2, H3. rewrite length_app in H2. cbn [length] in H2.
  unfold ConsumeBulk. destruct (Z.leb_spec (rp_bulk_len p + 2) (zlen s)).
  { destruct (_ || _); [split; [lia|done]|]. split; [lia|]. right. split_and!; [|done|apply weight_consume; [by rewrite Hst|lia]].
    destruct (rp_bulk_len p =? 0); [|destruct (rp_is_broken_token p) eqn:Hb].
    - split; cbn; [done|rewrite Hv, length_app; cbn; lia|by rewrite Hv|done|done|done].
    - split; cbn; rewrite ?Hv, ?alter_back_snoc; [done|rewrite length_app; cbn; lia| |done|done|done].
      by eapply supported_take_snoc.
    - destruct Hbr as [_ Hidx].
      split; cbn; rewrite ?Hv, ?alter_back_snoc; [done|rewrite length_app; cbn; lia| |done|done|done].
      by eapply supported_take_low. }
  destruct (32 <=? zlen s); [|split; [lia|apply live_result, live_weaken; [done|by rewrite Hst]]].
  split; [lia|]. destruct (rp_is_broken_token p) eqn:Hb.
  - split; cbn; rewrite ?Hv, ?alter_back_snoc.
    + by rewrite Hst.
    + rewrite length_app. cbn. lia.
    + by eapply supported_take_snoc.
    + done.
    + lia.
    + unfold back_ok. cbn. rewrite ?Hst, ?Hb, ?Hv, ?alter_back_snoc. eexists _, _. split_and!; [reflexivity|done|done].
  - destruct Hbr as [_ Hidx]. split; cbn; rewrite ?Hv, ?alter_back_snoc.
    + by rewrite Hst.
    + rewrite length_app. cbn. lia.
    + by eapply supported_take_low.
    + done.
    + lia.
    + unfold back_ok. cbn. rewrite ?Hst, ?Hv, ?alter_back_snoc. eexists _, _. split_and!; [reflexivity|done|done].
Qed.

Lemma finish_safe p s : live true p → rp_state p = FINISH_ARG_S → rp_last_result p = OK →
  let '(p', c) := parse_step p s in turn_safe p s p' c.
Proof.
  intros Hl Hst Hres. unfold parse_step. rewrite Hst. pose proof (zlen_nonneg s). pose proof Hl as [H1 H2 H3 H4 H5 H6].
  unfold back_ok in H6. rewrite Hst in H6. destruct H6 as [_ H6]. specialize (H4 (or_intror (or_intror Hst))).
  unfold HandleFinishArg. destruct (rp_parse_stack p) as [|n stack]; [done|].
  destruct (negb _); (split; [lia|]); cbn [rp_last_result set]; rewrite Hres.
  - right. split_and!; [by split|done|]. by apply weight_finish.
  - by left.
Qed.

Lemma extend_token_live p s : live true p → rp_state p = INLINE_S → s ≠ [] →
  ∃ q ptr, extend_token p s = (q, ptr) ∧
    live false q ∧ rp_state q = INLINE_S ∧ (length ptr ≤ length s)%nat ∧
    (rp_is_broken_token q = true ↔ ptr = []) ∧ (ptr = [] → is_token_byte (default 0 (last s)) = true) ∧
    (ptr ≠ [] → last ptr = last s).
Proof.
  intros Hl Hst Hs. pose proof Hl as [H1 H2 H3 H4 H5 H6]. unfold back_ok in H6. rewrite Hst in H6.
  unfold extend_token. destruct (rp_is_broken_token p) eqn:Hb.
  2: { exists p, s. split_and!; [done|apply live_weaken; [done|by rewrite Hst]|done|done|by rewrite Hb|done|done]. }
  destruct (H6 eq_refl) as (v & e & Hv & Ht & Hbuf & Hsup). cbv zeta.
  set (q := p <| rp_vec ::= alter_back (fun e => e <| re_buf ::= fun b => b ++ take_while is_token_byte s |>) |>).
  assert (Hq : live false q).
  { split; cbn; rewrite ?Hv, ?alter_back_snoc; [done| | |done|done|].
    - rewrite Hv, length_app in H2. rewrite length_app. done.
    - rewrite Hv in H3. eapply supported_take_snoc; [exact H3|]. by apply Hsup.
    - unfold back_ok. cbn. rewrite Hst, ?Hv, ?alter_back_snoc. intros _. eexists _, _.
      split_and!; [reflexivity|done| |done]. cbn. by destruct (re_buf e). }
  pose proof (drop_while_le is_token_byte s) as Hle. pose proof (take_while_drop_while is_token_byte s) as Htd.
  destruct (drop_while is_token_byte s) as [|c ptr] eqn:Hd.
  - exists q, []. rewrite bool_decide_eq_true_2 by done. split_and!; [done|done|done|done|done| |done].
    intros _. apply drop_while_nil in Hd. destruct s as [|z s _] using rev_ind; [done|].
    apply Forall_app in Hd as [_ Hd]. inversion_clear Hd as [|? ? Hz]. by rewrite last_snoc.
  - exists (q <| rp_is_broken_token := false |>), (c :: ptr). rewrite bool_decide_eq_false_2 by done.
    split_and!; [done| |done|done|done|done|].
    + destruct Hq as [Q1 Q2 Q3 Q4 Q5 Q6]. split; [done..|]. unfold back_ok. cbn. by rewrite Hst.
    + intros _. by rewrite <- Htd, last_app_cons.
Qed.

Lemma last_blank (s : bytes) : s ≠ [] → Forall (fun c => is_blank c = true) s → is_token_byte (default 0 (last s)) = false.
Proof.
  intros Hs Hall. destruct s as [|z s _] using rev_ind; [done|]. rewrite last_snoc. cbn.
  apply Forall_app in Hall as [_ Hz]. inversion_clear Hz as [|? ? Hz']. unfold is_blank, is_token_byte in *. lia.
Qed.

Lemma inline_safe p s : live true p → rp_state p = INLINE_S → s ≠ [] →
  let '(p', c) := parse_step p s in turn_safe p s p' c.
Proof.
  intros Hl Hst Hs. unfold parse_step. rewrite Hst. unfold ParseInline.
  destruct (extend_token_live p s Hl Hst Hs) as (q & ptr & -> & [Q1 Q2 Q3 Q4 Q5 Q6] & Hqst & Hle & Hbr & Htok & Hlast).
  unfold back_ok in Q6. rewrite Hqst in Q6.
  pose proof (inline_tokens_spec (S (length ptr)) ptr) as [Hrest Htokens].
  pose proof (inline_tokens_nil (length ptr) ptr) as Hnil.
  destruct (inline_tokens (S (length ptr)) ptr) as [tokens rest]. cbn [fst snd] in *.
  destruct rest as [|c0 rest].
  2: { split; [unfold zlen; cbn [length] in *; lia|]. left. split; [done|].
       cbn. destruct (rp_is_broken_token q); [|done]. rewrite (proj1 Hbr eq_refl) in Hrest. cbn in Hrest. lia. }
  pose proof (zlen_nonneg s). split; [lia|].
  change (live false ((if is_token_byte (default 0 (last s))
    then (q <| rp_vec ::= fun v => v ++ map (mkRespExpr STRING false) tokens |>) <| rp_is_broken_token := true |>
    else q <| rp_vec ::= fun v => v ++ map (mkRespExpr STRING false) tokens |>) <| rp_last_result := INPUT_PENDING |>)).
  apply live_result.
  assert (Hlow : Forall supported (take (rp_stashed_index q) (rp_vec q ++ map (mkRespExpr STRING false) tokens)))
    by (by rewrite take_app_le).
  destruct (is_token_byte (default 0 (last s))) eqn:Htb.
  - split; cbn; [done|rewrite length_app; lia|done|done|done|]. unfold back_ok. cbn. rewrite Hqst. intros _.
    destruct tokens as [|t tokens _] using rev_ind.
    + cbn [map]. rewrite app_nil_r. destruct (decide (ptr = [])) as [Hp|Hp].
      * by apply Q6, Hbr.
      * exfalso. rewrite <- (Hlast Hp) in Htb. rewrite last_blank in Htb; [done|done|by apply Hnil].
    + rewrite map_app, app_assoc. cbn [map]. eexists _, _. split_and!; [reflexivity|done| |done]. cbn.
      apply Forall_app in Htokens as [_ Ht]. by inversion_clear Ht.
  - split; cbn; [done|rewrite length_app; lia|done|done|done|]. unfold back_ok. cbn. rewrite Hqst.
    intros Hb. apply Hbr in Hb. apply Htok in Hb. congruence.
Qed.

Lemma step_safe p s : live true p → (rp_state p = FINISH_ARG_S → rp_last_result p = OK) →
  (rp_state p = INLINE_S → s ≠ []) → let '(p', c) := parse_step p s in turn_safe p s p' c.
Proof.
  intros Hl Hfin Hin. destruct (lv_state _ _ Hl) as [Hi Hc]. destruct (rp_state p) eqn:Hst; try done.
  - apply inline_safe; auto.
  - by apply array_safe.
  - by apply arg_safe.
  - by apply bulk_safe.
  - apply finish_safe; auto.
Qed.

(** The loop ends, within the input. *)
Lemma loop_safe fuel : ∀ p s consumed,
  (rp_state p = CMD_COMPLETE_S ∧ rp_is_broken_token p = false ∧ rp_last_result p = OK ∧ (0 < fuel)%nat) ∨
  (live true p ∧ (rp_state p = FINISH_ARG_S → rp_last_result p = OK) ∧ (rp_state p = INLINE_S → s ≠ []) ∧
   (weight p s + 1 < fuel)%nat) →
  ∃ p' c, parse_loop fuel p s consumed = Some (p', consumed + c) ∧ 0 ≤ c ≤ zlen s ∧
    match rp_last_result p' with OK => ready p' | INPUT_PENDING => live false p' | _ => True end.
Proof.
  induction fuel as [|fuel IH]; intros p s consumed [(Hst & Hb & Hr & Hf)|(Hl & Hfin & Hin & Hw)]; [lia|lia|..];
    cbn [parse_loop].
  { rewrite bool_decide_eq_true_2 by done. exists p, 0. pose proof (zlen_nonneg s). rewrite Z.add_0_r, Hr.
    split_and!; [done|lia|lia|]. split; [by right|done]. }
  rewrite bool_decide_eq_false_2 by apply (lv_state _ _ Hl).
  pose proof (step_safe p s Hl Hfin Hin) as Hstep. destruct (parse_step p s) as [p1 c1].
  destruct Hstep as [Hc1 Hstep]. destruct (rp_last_result p1) eqn:Hr1.
  1: { rewrite bool_decide_eq_true_2 by done. cbn [negb].
       destruct (IH p1 (drop (Z.to_nat c1) s) (consumed + c1)) as (p' & c & -> & Hc & Hend).
       { destruct Hstep as [[Hst Hb]|(Hl1 & Hni & Hlt)]; [left|right]; split_and!; try done; lia. }
       exists p', (c1 + c). rewrite zlen_drop in Hc by lia. split_and!; [f_equal; f_equal; lia|lia|lia|done]. }
  all: rewrite bool_decide_eq_false_2 by done; exists p1, c1; rewrite Hr1; split_and!; [done|lia|lia|done].
Qed.

(** Between calls: no command is under way, or all that is kept of it is in memory
    of the parser. *)
Definition at_rest (p : RedisParser) : Prop :=
  ready p ∨
  (live true p ∧ rp_state p ≠ FINISH_ARG_S ∧ Forall supported (rp_vec p) ∧ (rp_stashed p = true ∨ rp_vec p = [])).

Lemma InitStart_live p c : rp_is_broken_token p = false → live true (InitStart p c) ∧ rp_state (InitStart p c) ≠ FINISH_ARG_S.
Proof.
  intros Hb. unfold InitStart. destruct (c =? 36), (c =? 42); (split; [|done]);
    (split; [done|done|constructor|try by intros [?|[?|?]]|done|]); try done.
  all: unfold back_ok; cbn; rewrite Hb; done.
Qed.

Lemma parse_begin_live p s : at_rest p → live true (parse_begin p s) ∧ rp_state (parse_begin p s) ≠ FINISH_ARG_S.
Proof.
  intros [[Hst Hbr]|(Hl & Hf & _ & Hvec)].
  - destruct p as [st lr bl si ps sd v br]. cbn in Hst, Hbr.
    destruct Hst; subst st br; destruct sd; by apply InitStart_live.
  - destruct (lv_state _ _ Hl) as [Hi Hc].
    assert (parse_begin p s = p) as ->; [|done]. unfold parse_begin. rewrite (bool_decide_eq_false_2 _ Hc). cbv zeta.
    assert ((if rp_stashed p then p else p <| rp_vec := [] |>) = p) as ->.
    { destruct Hvec as [-> |Hv]; [done|]. destruct (rp_stashed p) eqn:E; [done|]. destruct p; cbn in *; congruence. }
    by rewrite (bool_decide_eq_false_2 _ Hi).
Qed.

Lemma Parse_safe p s : at_rest p →
  ∃ p' r c res, Parse p s = Some (p', r, c, res) ∧ 0 ≤ c ≤ zlen s ∧ (r = OK ∨ r = INPUT_PENDING → at_rest p').
Proof.
  intros Hp. unfold Parse. pose proof (zlen_nonneg s). destruct (Z.ltb_spec (zlen s) 2) as [|Hs].
  { exists p, INPUT_PENDING, 0, []. split_and!; [done|lia|lia|done]. }
  cbv zeta. fold (parse_begin p s). destruct (parse_begin_live p s Hp) as [Hl Hf].
  destruct (loop_safe (parse_fuel s) (parse_begin p s) s 0) as (p' & c & -> & Hc & Hend).
  { right. split_and!; [done|done|by intros _ ->|]. unfold weight, parse_fuel. case_bool_decide; lia. }
  cbn [mbind option_bind]. rewrite Z.add_0_l. destruct (rp_last_result p') eqn:Hr.
  2: { rewrite (bool_decide_eq_true_2 (INPUT_PENDING = INPUT_PENDING)) by done.
       destruct (StashState_fields p') as (E1 & _ & _ & _ & E5 & _). rewrite E5, Hr.
       destruct (StashState_live p' Hend) as (Hl' & Hsup & Hst).
       eexists _, _, _, _. split_and!; [done|lia|lia|]. intros _. right. split_and!; [done| |done|done].
       rewrite E1. intros Hfin. pose proof (lv_back _ _ Hend) as Hb. unfold back_ok in Hb. rewrite Hfin in Hb.
       by destruct Hb. }
  all: rewrite (bool_decide_eq_false_2 (_ = INPUT_PENDING)) by done; rewrite Hr;
    eexists _, _, _, _; split_and!; [done|lia|lia|].
  1: intros _; by left.
  all: by intros [?|?].
Qed.

(** The states after any calls that did not fail. *)
Inductive reached : RedisParser → Prop :=
  | reached_new : reached RedisParser_new
  | reached_call p s p' r c res :
      reached p → Parse p s = Some (p', r, c, res) → r = OK ∨ r = INPUT_PENDING → reached p'.

Lemma reached_at_rest p : reached p → at_rest p.
Proof.
  induction 1 as [|p s p' r c res _ IH HP Hr]; [left; by split; [left|]|].
  destruct (Parse_safe p s IH) as (? & ? & ? & ? & HP' & _ & Hrest). rewrite HP in HP'. simplify_eq. by apply Hrest.
Qed.

(** C20. On any input, in any state that calls without an error lead to, [Parse] ends
    and consumes no more than it was given; and between calls every string that the
    parser keeps of a command under way is in its own memory, so the caller may drop
    the consumed bytes. *)
Theorem parser_bounded p s : reached p →
  (∃ p' r c res, Parse p s = Some (p', r, c, res) ∧ 0 ≤ c ≤ zlen s) ∧
  (ready p ∨ Forall supported (rp_vec p)).
Proof.
  intros Hp%reached_at_rest. split.
  - destruct (Parse_safe p s Hp) as (p' & r & c & res & H & Hc & _). by exists p', r, c, res.
  - destruct Hp as [?|(_ & _ & ? & _)]; [by left|by right].
Qed.
End safety.

(** After a first piece that ends inside of a long string. *)
Definition example_parser : RedisParser :=
  match Parse RedisParser_new (take 60 (EncodeRespArray example_args)) with
  | Some (p, _, _, _) => p
  | None => RedisParser_new
  end.

Lemma parser_bounded_witness :
  map re_buf (rp_vec example_parser) = [str "SET"; []; replicate 36 120] ∧
  (ready example_parser ∨ Forall supported (rp_vec example_parser)).
Proof.
  split; [by_compute|].
  apply (parser_bounded example_parser []).
  eapply (reached_call RedisParser_new (take 60 (EncodeRespArray example_args))); [apply reached_new| |by right].
  vm_compute. reflexivity.
Defined.

(** A newline that arrives alone after the rest of an inline command is not read:
    [Parse] wants two bytes.  The command waits for a byte that does not belong to
    it. *)
Theorem lone_newline_waits :
  (∃ p, feed RedisParser_new [] [str "PING" ++ [10]] = Some (p, [mkRespExpr STRING false (str "PING")], [], [])) ∧
  feed RedisParser_new [] [str "PING"; [10]] = None.
Proof. split; [eexists|]; vm_compute; reflexivity. Qed.
