(* ===== verification/ConnectionInv.v ===== *)
(** What a connection's parser guarantees for every input: the commands it marks
    as complete are complete, and it stops the process only for a blank line.
    And two limits: the error it reports is always the same one, and a value of
    more than 64 KB never arrives when the buffer is filled by [TryRecv]. *)
From stdpp Require Import base list strings.
From S2P Require Import Prelude Absl Sds IoBuf DbSlice ReplyBuilder ConnContext Connection.

Open Scope Z_scope.

Section invariant.
Context {absl : Absl}.
Implicit Types (c : Connection) (s : bytes) (cmd : ParsedCommand).

(** What [DispatchCommand] and the handlers rely on. *)
Definition complete_ok cmd : Prop :=
  parse_complete cmd = true ∧ argc cmd = zlen (tokens cmd) ∧ 0 < argc cmd ∧ Forall is_Some (tokens cmd).

(** The command at the tail while [left] arguments are missing. *)
Definition partial_ok cmd (left : Z) : Prop :=
  parse_complete cmd = false ∧ argc cmd = zlen (tokens cmd) ∧ 0 < left ≤ argc cmd ∧
  Forall is_Some (take (Z.to_nat (argc cmd - left)) (tokens cmd)).

Definition queue_ok c : Prop :=
  if multibulk_len_ c =? 0 then Forall complete_ok (parsed (cc_ c))
  else ∃ q cmd, parsed (cc_ c) = q ++ [cmd] ∧ Forall complete_ok q ∧ partial_ok cmd (multibulk_len_ c).

Definition conn_wf c : Prop :=
  0 ≤ multibulk_len_ c ∧ -1 ≤ bulk_len_ c ∧ (multibulk_len_ c = 0 → bulk_len_ c = -1) ∧
  (state_ c ≠ PARSE_MULTIBULK → multibulk_len_ c = 0) ∧ (state_ c ≠ PARSE_INLINE → parse_stash_ c = []) ∧
  queue_ok c.

Lemma on_tail_app f c q cmd :
  parsed (cc_ c) = q ++ [cmd] → parsed (cc_ (on_tail f c)) = q ++ [f cmd].
Proof.
  intros Hp. unfold on_tail. simpl. rewrite Hp, length_app.
  replace (pred (length q + length [cmd])) with (length q + 0)%nat by (simpl; lia). by rewrite alter_app_r.
Qed.

(** The part of the invariant that the multi bulk loop maintains. *)
Definition loop_ok c (left : Z) : Prop :=
  multibulk_len_ c = left ∧ -1 ≤ bulk_len_ c ∧
  ∃ q cmd, parsed (cc_ c) = q ++ [cmd] ∧ Forall complete_ok q ∧
    parse_complete cmd = false ∧ argc cmd = zlen (tokens cmd) ∧ 0 ≤ left ≤ argc cmd ∧ 0 < argc cmd ∧
    Forall is_Some (take (Z.to_nat (argc cmd - left)) (tokens cmd)).

Lemma take_insert_some {A} (l : list (option A)) k x :
  (k < length l)%nat → Forall is_Some (take k l) → Forall is_Some (take (S k) (<[k := Some x]> l)).
Proof.
  intros Hk Hl. rewrite (take_S_r _ k (Some x)) by (by apply list_lookup_insert_eq).
  rewrite take_insert_ge by lia. apply Forall_app. split; [done|]. by repeat constructor.
Qed.

Lemma store_token_ok input c left :
  loop_ok c left → 0 < left → loop_ok (store_token input c) (left - 1).
Proof.
  intros (Hm & Hb & q & cmd & Hp & Hq & Hpc & Ha & Hl & Hpos & Ht) Hleft.
  unfold store_token. split; [simpl; rewrite Hm; done|]. split; [simpl; lia|].
  eexists q, _. split; [by apply on_tail_app|]. split; [done|].
  assert (argc cmd - (left - 1) = argc cmd - left + 1) as He by lia.
  simpl. rewrite Hm. unfold zlen in *. rewrite length_insert. repeat split; try done; try lia.
  rewrite He, Z2Nat.inj_add, Nat.add_1_r by lia. apply take_insert_some; [lia|done].
Qed.

Lemma read_bulk_len_ok c s left :
  loop_ok c left → loop_ok (read_bulk_len c s).1.1 left.
Proof. intros H. unfold read_bulk_len. repeat case_match; try done. destruct H as (?&?&?). bool_norm. split; [done|split; [simpl; lia|done]]. Qed.

(** The loop ends with a complete command or keeps the invariant. *)
Lemma multibulk_loop_ok n c s c' s' st :
  loop_ok c (Z.of_nat n) → (n = 0%nat → bulk_len_ c = -1) → multibulk_loop n c s = (c', s', st) →
  if decide (st = ParserOK) then multibulk_len_ c' = 0 ∧ bulk_len_ c' = -1 ∧ Forall complete_ok (parsed (cc_ c'))
  else ∃ left, 0 < left ∧ loop_ok c' left.
Proof.
  revert c s. induction n as [|n IH]; intros c s Hok Hn; cbn [multibulk_loop].
  { intros; simplify_eq. rewrite decide_True by done.
    destruct Hok as (Hm & Hb & q & cmd & Hp & Hq & Hpc & Ha & Hl & Hpos & Ht).
    split; [done|]. split; [by apply Hn|]. rewrite (on_tail_app _ _ _ _ Hp). apply Forall_app. split; [done|].
    constructor; [|constructor]. repeat split; try done. simpl. rewrite Z.sub_0_r, Ha, to_nat_zlen, firstn_all in Ht. done. }
  pose proof (read_bulk_len_ok c s _ Hok) as Hok1.
  destruct (read_bulk_len c s) as [[c1 s1] [st1|]] eqn:E; cbn [fst] in Hok1.
  { intros; simplify_eq. rewrite decide_False by (eapply header_stop_not_ok; eauto).
    exists (Z.of_nat (S n)). split; [lia|done]. }
  destruct (zlen (src_input s1) <? bulk_len_ c1 + 2); [intros; simplify_eq; rewrite decide_False by done; exists (Z.of_nat (S n)); split; [lia|done]|].
  apply IH; [|done]. replace (Z.of_nat n) with (Z.of_nat (S n) - 1) by lia. apply store_token_ok; [done|lia].
Qed.

Lemma ParseMultiBulk_stash c s : parse_stash_ (ParseMultiBulk c s).1.1 = parse_stash_ c.
Proof.
  unfold ParseMultiBulk.
  assert (parse_stash_ (read_multibulk_len c s).1.1 = parse_stash_ c) as H1
    by (unfold read_multibulk_len; by repeat case_match).
  destruct (read_multibulk_len c s) as [[c1 s1] [st|]]; cbn [fst] in *; [done|]. rewrite <-H1. clear.
  generalize (Z.to_nat (multibulk_len_ c1)). intros n. revert c1 s1.
  induction n as [|n IH]; intros c s; [done|]. cbn [multibulk_loop].
  assert (parse_stash_ (read_bulk_len c s).1.1 = parse_stash_ c) as H2 by (unfold read_bulk_len; by repeat case_match).
  destruct (read_bulk_len c s) as [[c1 s1] [st|]]; cbn [fst] in *; [done|].
  case_match; [done|]. by rewrite IH.
Qed.

Lemma ParseMultiBulk_wf c s c' s' st :
  conn_wf c → state_ c = PARSE_MULTIBULK → ParseMultiBulk c s = (c', s', st) →
  conn_wf c' ∧ (st = ParserOK → multibulk_len_ c' = 0 ∧ bulk_len_ c' = -1).
Proof.
  intros (Hm & Hb & Hmb & Hst & Hstash & Hq) E H. pose proof (ParseMultiBulk_state c s) as E'.
  pose proof (ParseMultiBulk_stash c s) as E2. rewrite H in E', E2. cbn [fst] in E', E2. rewrite E in E'.
  rewrite <-E2 in Hstash.
  unfold ParseMultiBulk in H. destruct (read_multibulk_len c s) as [[c1 s1] r] eqn:Er.
  assert (match r with Some st => c1 = c ∧ st ≠ ParserOK | None => loop_ok c1 (multibulk_len_ c1) ∧ 0 < multibulk_len_ c1 end) as Hr.
  { revert Er. unfold read_multibulk_len, queue_ok in *.
    destruct (Z.eqb_spec (multibulk_len_ c) 0) as [H0|H0]; cbn [negb].
    - repeat case_match; intros; simplify_eq; try done. bool_norm. split; [|simpl; lia].
      split; [done|]. split; [done|]. eexists _, _. split; [done|]. split; [done|]. simpl.
      unfold zlen. rewrite length_replicate, Z.sub_diag. repeat split; try lia. constructor.
    - intros; simplify_eq. split; [|lia]. destruct Hq as (q & cmd & Hp & Hq & H1 & H2 & H3 & H4).
      split; [done|]. split; [done|]. exists q, cmd. repeat split; try done; lia. }
  destruct r as [st1|].
  { simplify_eq. destruct Hr as [-> Hr]. split; [|done]. unfold conn_wf. rewrite E in *. by repeat split. }
  destruct Hr as [Hr Hr0]. rewrite <-(Z2Nat.id (multibulk_len_ c1)) in Hr by lia.
  eapply multibulk_loop_ok in H; [|done|lia].
  destruct (decide (st = ParserOK)) as [->|Hne].
  - destruct H as (H1 & H2 & H3). split; [|done]. unfold conn_wf, queue_ok. rewrite H1, H2, E'. rewrite E in Hstash. by repeat split.
  - split; [|done]. destruct H as (left & Hl & H1 & H2 & q & cmd & H3 & H4 & H5 & H6 & H7 & H8 & H9).
    unfold conn_wf, queue_ok. rewrite H1, E'. rewrite E in Hstash. repeat split; try lia; try done.
    rewrite (proj2 (Z.eqb_neq left 0)) by lia. exists q, cmd. repeat split; try done; lia.
Qed.

(** *** What is consumed *)

Lemma header_suffix c s : (read_bulk_len c s).1.2 `suffix_of` s ∧ (read_multibulk_len c s).1.2 `suffix_of` s.
Proof.
  unfold read_bulk_len, read_multibulk_len.
  split; repeat case_match; cbn [fst snd]; rewrite ?bytes_consume; first [done | apply suffix_drop].
Qed.

Lemma multibulk_loop_suffix n c s : (multibulk_loop n c s).1.2 `suffix_of` s.
Proof.
  revert c s. induction n as [|n IH]; intros c s; [done|]. cbn [multibulk_loop].
  pose proof (proj1 (header_suffix c s)) as Hle. destruct (read_bulk_len c s) as [[c1 s1] [st|]]; cbn [fst snd] in *; [done|].
  case_match; [done|]. etransitivity; [apply IH|]. etransitivity; [apply suffix_drop|done].
Qed.

Lemma ParseMultiBulk_suffix c s : (ParseMultiBulk c s).1.2 `suffix_of` s.
Proof.
  unfold ParseMultiBulk. pose proof (proj2 (header_suffix c s)) as Hle.
  destruct (read_multibulk_len c s) as [[c2 s2] [st2|]]; cbn [fst snd] in *; [done|].
  etransitivity; [apply multibulk_loop_suffix|done].
Qed.

(** *** Blank lines *)

Lemma get_token_plain_blank p n vector :
  split_args n p vector = Some [] → vector = [] ∧ Forall (λ x, is_space x = true) p.
Proof.
  revert p vector. induction n as [|n IH]; intros p vector; cbn [split_args];
    destruct (drop_while is_space p) as [|a p'] eqn:E.
  1, 3: intros; simplify_eq; split; [done|]; clear -E; induction p as [|x p IHp]; [constructor|];
    simpl in E; destruct (is_space x) eqn:Ex; [|done]; constructor; auto.
  - done.
  - destruct (get_token Plain (a :: p') []) as [[t rest]|]; [|done]. intros [Hv _]%IH. by destruct vector.
Qed.

Lemma sdssplitargs_blank line : sdssplitargs line = Some [] → Forall (λ x, is_space x = true) (c_str line).
Proof. intros H. by apply get_token_plain_blank in H as [_ H]. Qed.

(** ** One call *)

Definition blank_line_in (s : bytes) : Prop :=
  ∃ pre line post, s = pre ++ line ++ 10 :: post ∧ Forall (λ x, is_space x = true) (c_str line).

Lemma find1_split x s pos : find_from [x] s 0 = Some pos → ∃ post, s = take (Z.to_nat pos) s ++ x :: post.
Proof.
  revert pos. induction s as [|a s IH]; intros pos; [done|]. rewrite find1_cons. case_decide as E.
  - intros; simplify_eq. by exists s.
  - destruct (find_from [x] s 0) as [p|] eqn:Ep; [|done]. simpl. intros; simplify_eq.
    destruct (IH p eq_refl) as [post Hp]. exists post. apply find1_app with (t := []) in Ep as [_ ?].
    replace (Z.to_nat (1 + p)) with (S (Z.to_nat p)) by lia. simpl. by f_equal.
Qed.

Lemma parse_inline_wf c s :
  conn_wf c → state_ c = PARSE_INLINE →
  match parse_inline c s with
  | Some (c', s', st) =>
      s' `suffix_of` s ∧ conn_wf (if decide (st = ParserOK) then c' <| state_ := INIT |> else c') ∧
      multibulk_len_ c' = 0 ∧ bulk_len_ c' = -1
  | None => blank_line_in (parse_stash_ c ++ s)
  end.
Proof.
  intros (Hm & Hb & Hmb & Hst & Hstash & Hq) E. specialize (Hst ltac:(by rewrite E)). specialize (Hmb Hst).
  unfold queue_ok in Hq. rewrite Hst in Hq. cbn [Z.eqb] in Hq.
  assert (∀ c', cc_ c' = cc_ c → multibulk_len_ c' = 0 → bulk_len_ c' = -1 → state_ c' = PARSE_INLINE → conn_wf c') as Hkeep.
  { intros c' H1 H2 H3 H4. unfold conn_wf, queue_ok. rewrite H1, H2, H3, H4. by repeat split. }
  unfold parse_inline. cbn [src_input bytes_source id].
  destruct (find_from [10] s 0) as [pos|] eqn:Ef.
  2: { destruct (PROTO_INLINE_MAX_SIZE <? zlen s); rewrite decide_False by done.
       - split; [done|]. split; [by apply Hkeep|done].
       - split; [rewrite bytes_consume; apply suffix_drop|]. split; [by apply Hkeep|done]. }
  assert (∀ q l : Z, let stash := (parse_stash_ c ++ take (Z.to_nat q) s) ++ [0] in
    match match sdssplitargs stash with
          | None => Some (c <| parse_stash_ := stash |>, s, ParserERROR)
          | Some [] => None
          | Some argv => Some (c <| parse_stash_ := [] |> <| cc_ ::= λ cc, AddParsedCommand cc (Some <$> argv) (zlen argv) true |>,
                drop (Z.to_nat (q + l)) s, ParserOK)
          end with
    | Some (c', s', st) =>
        s' `suffix_of` s ∧ conn_wf (if decide (st = ParserOK) then c' <| state_ := INIT |> else c') ∧
        multibulk_len_ c' = 0 ∧ bulk_len_ c' = -1
    | None => Forall (λ x, is_space x = true) (c_str (parse_stash_ c ++ take (Z.to_nat q) s))
    end) as Hline.
  { intros q l stash. destruct (sdssplitargs stash) as [[|a argv]|] eqn:Es.
    - unfold stash in Es. rewrite sdssplitargs_nul in Es. by apply sdssplitargs_blank.
    - rewrite decide_True by done. split; [apply suffix_drop|]. split; [|done].
      unfold conn_wf, queue_ok. simpl. rewrite Hst. cbn [Z.eqb]. repeat split; try done; try lia.
      apply Forall_app. split; [done|]. constructor; [|constructor].
      unfold complete_ok. simpl. split; [done|].
      split; [unfold zlen; simpl; by rewrite length_fmap|]. split; [rewrite zlen_cons; pose proof (zlen_nonneg argv); lia|].
      constructor; [done|]. apply Forall_fmap, Forall_true. intros x. by exists x.
    - rewrite decide_False by done. split; [done|]. split; [by apply Hkeep|done]. }
  destruct (find1_split 10 s pos Ef) as [post Hpost]. apply find1_app with (t := []) in Ef as [_ Hp].
  destruct ((0 <? pos) && (byte_at s (pos - 1) =? 13)) eqn:Ec; cbv zeta iota beta.
  - specialize (Hline (pos - 1) 2). cbv zeta in Hline. simpl parse_stash_.
    destruct (sdssplitargs _) as [[|a argv]|]; try done. bool_norm.
    exists [], (parse_stash_ c ++ take (Z.to_nat pos) s), post. split; [by rewrite <-app_assoc, <-Hpost|].
    assert (take (Z.to_nat pos) s = take (Z.to_nat (pos - 1)) s ++ [13]) as ->.
    { replace (Z.to_nat pos) with (S (Z.to_nat (pos - 1))) by lia. apply take_S_r.
      destruct (s !! Z.to_nat (pos - 1)) as [x|] eqn:El.
      - f_equal. unfold byte_at in *. rewrite El in *. done.
      - apply lookup_ge_None in El. unfold zlen in Hp. lia. }
    rewrite app_assoc. destruct (decide (c_str (parse_stash_ c ++ take (Z.to_nat (pos - 1)) s) = parse_stash_ c ++ take (Z.to_nat (pos - 1)) s)) as [E2|E2].
    + rewrite c_str_app_nonul by done. rewrite E2 in Hline. apply Forall_app. split; [done|]. by repeat constructor.
    + by rewrite c_str_nul.
  - specialize (Hline pos 1). cbv zeta in Hline. simpl parse_stash_.
    destruct (sdssplitargs _) as [[|a argv]|]; try done.
    exists [], (parse_stash_ c ++ take (Z.to_nat pos) s), post. split; [by rewrite <-app_assoc, <-Hpost|done].
Qed.

Lemma enter_wf c s : conn_wf c → conn_wf (enter c s) ∧ parse_stash_ (enter c s) = parse_stash_ c ∧ state_ (enter c s) ≠ INIT.
Proof.
  intros H. unfold enter. case_bool_decide as E; [|done]. destruct H as (H1 & H2 & H3 & H4 & H5 & H6).
  specialize (H4 ltac:(by rewrite E)). specialize (H5 ltac:(by rewrite E)).
  unfold conn_wf, queue_ok in *. destruct (byte_at s 0 =? 42); simpl; by repeat split.
Qed.

Lemma parse_turn_wf c s :
  conn_wf c →
  match parse_turn c s with
  | Some (c', s', st) => s' `suffix_of` s ∧ conn_wf c' ∧ (st = ParserOK → parse_stash_ c' = [])
  | None => blank_line_in (parse_stash_ c ++ s)
  end.
Proof.
  intros H. rewrite parse_turn_parts. destruct (enter_wf c s H) as (H1 & <- & H2).
  generalize dependent (enter c s). clear c H. intros c Hwf Hst. unfold turn_body. case_bool_decide as E.
  - pose proof (parse_inline_wf c s Hwf E) as Hi.
    destruct (parse_inline c s) as [[[c1 s1] st]|]; [|done]. destruct Hi as (Hs & Hw & Hm & Hb).
    unfold turn_end. cbn [mbind option_bind]. destruct (decide (st = ParserOK)) as [->|Hne].
    + rewrite Hm, Hb. cbn [Z.eqb Pos.eqb andb]. split; [done|]. split; [done|]. intros _.
      destruct Hw as (_ & _ & _ & _ & Hw & _). by apply Hw.
    + destruct st; [done|(split; [done|split; done])..].
  - assert (state_ c = PARSE_MULTIBULK) as E1 by (by destruct (state_ c)).
    pose proof (ParseMultiBulk_suffix c s) as Hs.
    destruct (ParseMultiBulk c s) as [[c1 s1] st] eqn:Ep. cbn [fst snd] in Hs.
    destruct (ParseMultiBulk_wf c s c1 s1 st Hwf E1 Ep) as [Hw Hok].
    unfold turn_end. cbn [mbind option_bind]. destruct st; [|(split; [done|split; done])..].
    destruct (Hok eq_refl) as [Hm Hb]. rewrite Hm, Hb. cbn [Z.eqb Pos.eqb andb]. split; [done|].
    assert (parse_stash_ c1 = []) as Hst1.
    { pose proof (ParseMultiBulk_stash c s) as Hss. rewrite Ep in Hss. cbn [fst] in Hss. rewrite Hss.
      destruct Hwf as (_ & _ & _ & _ & Hx & _). apply Hx. by rewrite E1. }
    split; [|done]. destruct Hw as (W1 & W2 & W3 & W4 & W5 & W6). unfold conn_wf, queue_ok in *. simpl. by repeat split.
Qed.


(** ** A blank line *)

Lemma split_args_blank n p vector : Forall (λ x, is_space x = true) p → split_args n p vector = Some vector.
Proof.
  intros Hp. assert (drop_while is_space p = []) as E.
  { induction Hp as [|x p Hx Hp IH]; [done|]. simpl. by rewrite Hx. }
  destruct n; cbn [split_args]; by rewrite E.
Qed.

Lemma c_str_space p : Forall (λ x, is_space x = true) p → c_str p = p.
Proof. intros Hp. apply c_str_id. eapply Forall_impl; [exact Hp|]. intros x Hx ->. done. Qed.

(** A line of blanks stops the process: whoever can connect can send it. *)
Theorem blank_line_aborts c (blanks rest : bytes) :
  state_ c = INIT → lens_ok c → parse_stash_ c = [] → Forall (λ x, x = 32 ∨ x = 9) blanks →
  ParseRedis c (blanks ++ CRLF ++ rest) = None.
Proof.
  intros Hi Hl Hs Hb. rewrite ParseRedis_cons by (done || by destruct blanks). rewrite parse_turn_parts.
  assert ((byte_at (blanks ++ CRLF ++ rest) 0 =? 42) = false) as H0.
  { destruct Hb as [|x blanks Hx]; [done|]. by destruct Hx as [-> | ->]. }
  unfold enter. rewrite Hi, bool_decide_true, H0 by done. unfold turn_body. rewrite bool_decide_true by done.
  assert (find_from [10] (blanks ++ CRLF ++ rest) 0 = Some (zlen blanks + 1)) as Hf.
  { pose proof (find_from_first 10 [] [] (blanks ++ [13]) rest) as H. rewrite <-app_assoc, zlen_app in H.
    apply H. apply Forall_app. split; [|by repeat constructor].
    eapply Forall_impl; [exact Hb|]. intros x Hx. cbn in Hx. lia. }
  unfold parse_inline. cbn [src_input bytes_source id]. rewrite Hf. pose proof (zlen_nonneg blanks).
  rewrite (proj2 (Z.ltb_lt 0 (zlen blanks + 1))) by lia. replace (zlen blanks + 1 - 1) with (zlen blanks) by lia.
  change (CRLF ++ rest) with (13 :: 10 :: rest). rewrite byte_at_app. cbn [Z.eqb Pos.eqb andb]. cbv zeta.
  assert (sdssplitargs ((parse_stash_ c ++ take (Z.to_nat (zlen blanks)) (blanks ++ 13 :: 10 :: rest)) ++ [0]) = Some []) as Hsp.
  { rewrite Hs, sdssplitargs_nul, to_nat_zlen, take_app_length. simpl app.
    assert (Forall (λ x, is_space x = true) blanks) as Hsp.
    { eapply Forall_impl; [exact Hb|]. by intros x [-> | ->]. }
    unfold sdssplitargs. rewrite c_str_space by done. by apply split_args_blank. }
  simpl parse_stash_. rewrite Hsp. done.
Qed.

(** ** The error that is reported *)

(** [RedisParser::Result], in the order of the enumeration. *)
Definition protocol_error_text (pres : Z) : bytes :=
  str "-ERR Protocol error: " ++
  (if pres =? 3 then str "invalid bulk length" else if pres =? 2 then str "invalid multibulk length"
   else if pres =? 4 then str "invalid string" else if pres =? 5 then str "invalid integer"
   else str "malformed request") ++ CRLF.

Lemma parse_turn_error c s c' s' st : parse_turn c s = Some (c', s', st) → parser_error_ c' = parser_error_ c.
Proof.
  rewrite parse_turn_parts. assert (parser_error_ (enter c s) = parser_error_ c) as <- by (unfold enter; by case_bool_decide).
  generalize (enter c s). clear c. intros c H.
  assert (∃ c1, turn_body c s = Some (c1, s', st) ∧ parser_error_ c' = parser_error_ c1) as (c1 & Ht & ->).
  { unfold turn_end in H. apply bind_Some in H as ([[c1 s1] st1] & Ht & H).
    repeat case_match; simplify_eq; eexists; by rewrite Ht. }
  unfold turn_body in Ht. case_bool_decide.
  - revert Ht. unfold parse_inline. repeat case_match; intros; by simplify_eq.
  - simplify_eq. revert Ht. unfold ParseMultiBulk.
    assert (parser_error_ (read_multibulk_len c s).1.1 = parser_error_ c) as H1
      by (unfold read_multibulk_len; by repeat case_match).
    destruct (read_multibulk_len c s) as [[c2 s2] [st2|]]; cbn [fst] in *; [by intros; simplify_eq|]. rewrite <-H1. clear.
    generalize (Z.to_nat (multibulk_len_ c2)). intros n. revert c2 s2.
    induction n as [|n IH]; intros c s; cbn [multibulk_loop]; [by intros; simplify_eq|].
    assert (parser_error_ (read_bulk_len c s).1.1 = parser_error_ c) as H2 by (unfold read_bulk_len; by repeat case_match).
    destruct (read_bulk_len c s) as [[c3 s3] [st4|]]; cbn [fst] in *; [by intros; simplify_eq|].
    case_match; [by intros; simplify_eq|]. rewrite <-H2. by intros H'%IH.
Qed.

(** Whatever is wrong with a request, the client is told the same: the parser
    never sets [parser_error_], from which the text of the error is chosen. *)
Theorem protocol_error_unspecific c s c' s' st :
  lens_ok c → parser_error_ c = 0 → ParseRedis c s = Some (c', s', st) →
  protocol_error_text (parser_error_ c') = str "-ERR Protocol error: malformed request" ++ CRLF.
Proof.
  intros Hl He H. enough (parser_error_ c' = parser_error_ c) as -> by (by rewrite He).
  clear He. revert c s Hl H.
  apply (ParseRedis_ind (λ c s, ParseRedis c s = Some (c', s', st) → parser_error_ c' = parser_error_ c)).
  intros c s Hl IH. destruct (decide (s = [])) as [->|Hs]; [rewrite ParseRedis_nil; by intros; simplify_eq|].
  rewrite ParseRedis_cons by done. intros H. apply bind_Some in H as ([[c1 s1] st1] & Ht & H).
  rewrite <-(parse_turn_error _ _ _ _ _ Ht). destruct st1; simplify_eq; [|done..]. by apply (IH c1 s1).
Qed.

(** ** Values that do not fit in the buffer *)

Definition kMinReadSize : Z := 256.
Definition kMaxReadBufferSize : Z := 65536.

(** The start of a turn of the input loop: more room when little is left. *)
Definition grow (io : IoBuf) : IoBuf :=
  if (AppendLen io <? kMinReadSize) && (io_capacity io <? kMaxReadBufferSize)
  then EnsureCapacity io (io_capacity io * 2) else io.

(** [DoRead] on a socket without provided buffers: [TryRecv] takes what is there,
    up to the free space; with no free space nothing is read. *)
Definition TryRecv (io : IoBuf) (available : bytes) : IoBuf * bytes :=
  (CommitWrite io (take (Z.to_nat (AppendLen io)) available), drop (Z.to_nat (AppendLen io)) available).

(** A turn of the input loop as far as the parser goes; the second component is
    what has not been read from the socket. *)
Definition epoll_turn c (io : IoBuf) (available : bytes)
    : option (Connection * IoBuf * ParserStatus) * bytes :=
  let '(io, rest) := TryRecv (grow io) available in (ParseRedis c io, rest).

(** The sizes the buffer goes through: they quadruple. *)
Definition io_bounded (io : IoBuf) : Prop :=
  io_ok io ∧ (io_capacity io = 256 ∨ io_capacity io = 1024 ∨ io_capacity io = 4096 ∨
              io_capacity io = 16384 ∨ io_capacity io = 65536).

Lemma bit_ceil_quadruple k sz : 1 ≤ k → 0 < sz ≤ 2 ^ k → bit_ceil (sz + 2 ^ k * 2) = 2 ^ (k + 2).
Proof.
  intros Hk Hs. unfold bit_ceil. f_equal. apply Z.log2_up_unique; [lia|].
  replace (Z.pred (k + 2)) with (k + 1) by lia. rewrite !Z.pow_add_r by lia. lia.
Qed.

Lemma grow_bounded io :
  io_bounded io → io_bounded (grow io) ∧ InputBuffer (grow io) = InputBuffer io.
Proof.
  intros [Hok Hc]. unfold grow. destruct (_ && _) eqn:E; [|split; [by split|done]]. bool_norm.
  destruct (Reserve_spec io (io_size io + io_capacity io * 2) Hok) as (Hi & _ & Hr).
  unfold EnsureCapacity. split; [|done]. pose proof Hok as [[Ho1 Ho2] Ho3].
  unfold AppendLen, kMinReadSize, kMaxReadBufferSize in *. split; [apply Hr; lia|].
  assert (io_capacity (Reserve io (io_size io + io_capacity io * 2)) = bit_ceil (io_size io + io_capacity io * 2)) as ->.
  { unfold Reserve. by rewrite (proj2 (Z.ltb_ge _ _)) by lia. }
  destruct Hc as [Hc | [Hc | [Hc | [Hc | Hc]]]]; [| | | |lia]; rewrite Hc in *.
  - rewrite (bit_ceil_quadruple 8) by lia. auto.
  - rewrite (bit_ceil_quadruple 10) by lia. auto.
  - rewrite (bit_ceil_quadruple 12) by lia. auto.
  - rewrite (bit_ceil_quadruple 14) by lia. auto 6.
Qed.

Lemma TryRecv_bounded io available : io_bounded io → io_bounded (TryRecv io available).1.
Proof.
  intros [Hok Hc]. split; [|done]. unfold TryRecv. cbn [fst]. apply CommitWrite_ok; [done|].
  destruct Hok as [_ Hle]. unfold AppendLen, zlen. rewrite length_take. unfold AppendLen in *. lia.
Qed.

Lemma bounded_input io : io_bounded io → zlen (InputBuffer io) ≤ 65536.
Proof.
  intros [Hok Hc]. rewrite <-InputLen_zlen by done. destruct Hok as [Ho Hle]. unfold InputLen. lia.
Qed.

(** A connection that has read the header of a bulk string of more than 65534
    bytes. *)
Definition awaits_large c : Prop :=
  state_ c = PARSE_MULTIBULK ∧ 0 < multibulk_len_ c ∧ 65534 < bulk_len_ c.

Lemma awaits_large_parse c io :
  awaits_large c → zlen (InputBuffer io) ≤ 65536 → InputBuffer io ≠ [] →
  ParseRedis c io = Some (c, io, NEED_MORE).
Proof.
  intros (Hst & Hm & Hb) Hl Hne. unfold ParseRedis. cbn [src_input IoBuf_source].
  destruct (InputBuffer io) as [|a s] eqn:E; [done|]. cbn [length parse_turns]. cbn [src_input IoBuf_source]. rewrite E.
  unfold parse_turn. rewrite (bool_decide_false (state_ c = INIT)) by (by rewrite Hst). cbv zeta.
  rewrite (bool_decide_false (state_ c = PARSE_INLINE)) by (by rewrite Hst).
  unfold ParseMultiBulk, read_multibulk_len. rewrite (proj2 (Z.eqb_neq (multibulk_len_ c) 0)) by lia. cbn [negb].
  destruct (Z.to_nat (multibulk_len_ c)) as [|n] eqn:En; [lia|]. cbn [multibulk_loop]. unfold read_bulk_len.
  rewrite (proj2 (Z.eqb_neq (bulk_len_ c) (-1))) by lia. cbn [negb]. cbn [src_input IoBuf_source]. rewrite E.
  rewrite (proj2 (Z.ltb_lt _ _)) by lia. done.
Qed.

(** Any number of turns, with whatever arrives at the socket meanwhile. *)
Fixpoint epoll_run c io (available : bytes) (arrivals : list bytes) : option (Connection * IoBuf) :=
  match arrivals with
  | [] => Some (c, io)
  | new :: arrivals =>
      match epoll_turn c io (available ++ new) with
      | (Some (c, io, ParserERROR), _) => Some (c, io)
      | (Some (c, io, _), rest) => epoll_run c io rest arrivals
      | (None, _) => None
      end
  end.

(** A value of more than 65534 bytes never arrives through the classic read
    path: the buffer stops growing at 64 KB, the parser waits for the whole
    value, and nothing that the client sends changes the connection any more. *)
Theorem large_value_never_arrives c io available arrivals :
  awaits_large c → io_bounded io → InputBuffer io ≠ [] →
  ∃ io', epoll_run c io available arrivals = Some (c, io') ∧ io_bounded io'.
Proof.
  intros Hc. revert io available. induction arrivals as [|new arrivals IH]; intros io available Hio Hne; [by eexists|].
  cbn [epoll_run]. unfold epoll_turn. destruct (grow_bounded io Hio) as [Hg Hgi].
  pose proof (TryRecv_bounded (grow io) (available ++ new) Hg) as Ht.
  destruct (TryRecv (grow io) (available ++ new)) as [io1 rest] eqn:E. cbn [fst] in Ht.
  assert (InputBuffer io1 ≠ []) as Hne1.
  { unfold TryRecv in E. simplify_eq. rewrite CommitWrite_input by apply Hg. rewrite Hgi.
    by destruct (InputBuffer io). }
  rewrite awaits_large_parse by (done || by apply bounded_input). by apply IH.
Qed.
End invariant.

(** ** Examples *)

Section examples.
#[local] Existing Instance decimal_atoi.

Definition example_new : Connection := Connection_new REDIS (mkSink [] []).

Lemma example_new_wf : conn_wf example_new.
Proof. unfold conn_wf, queue_ok. by_decide. Qed.


Lemma blank_line_aborts_witness : ParseRedis example_new (str "  " ++ CRLF ++ str "PING") = None.
Proof. apply (blank_line_aborts example_new (str "  ") (str "PING")); [done|by vm_compute|done|by_decide]. Defined.

Definition example_bad : option (Connection * bytes * ParserStatus) :=
  ParseRedis example_new (str "*1" ++ CRLF ++ str "$x" ++ CRLF).

Lemma protocol_error_unspecific_witness :
  match example_bad with
  | Some (c', _, ParserERROR) =>
      protocol_error_text (parser_error_ c') = str "-ERR Protocol error: malformed request" ++ CRLF
  | _ => False
  end.
Proof.
  destruct example_bad as [[[c' s'] st]|] eqn:E; [|vm_compute in E; discriminate E].
  pose proof (protocol_error_unspecific example_new (str "*1" ++ CRLF ++ str "$x" ++ CRLF) c' s' st) as H.
  destruct st; [vm_compute in E; discriminate E..|]. apply H; [by vm_compute|done|exact E].
Defined.

(** The connection after [*1 $70000]. *)
Definition example_large : Connection :=
  example_new <| state_ := PARSE_MULTIBULK |> <| multibulk_len_ := 1 |> <| bulk_len_ := 70000 |>.

Lemma large_value_never_arrives_witness :
  ∃ io', epoll_run example_large (CommitWrite (IoBuf_new 256) [120]) [] [replicate (Z.to_nat 70000) 120; CRLF] =
         Some (example_large, io') ∧ io_bounded io'.
Proof.
  apply (large_value_never_arrives example_large (CommitWrite (IoBuf_new 256) [120])).
  - done.
  - unfold io_bounded, io_ok. by_decide.
  - done.
Defined.
End examples.
