(* ===== verification/KvStateMachine.v ===== *)
(** * The key-value state machine (src/server/state_machine/kv_state_machine.cc)

    [KvStateMachine] over its shards, the snapshot format (snapshot_writer.cc,
    state_serializer.cc), and the flat map that the shards implement.  Each
    shard task runs alone on its shard, so [Await] is a function call.  The
    write barrier is not part of this file. *)

From S2P Require Import Prelude Absl RaftTypes StateMachine CommandEncoder DbSlice.

(** xxhash and abseil: any hash serves. *)
Class KvLib := {
  XXH64 : bytes → Z;
  kv_absl :: Absl
}.

(** [kv_now] is what [NowMs()] returns while an operation runs. *)
Record KvStateMachine : Type := mkKvStateMachine {
  kv_now : Z;
  kv_shards : list DbSlice
}.
#[export] Instance KvStateMachine_eta : Eta KvStateMachine := fun s =>
  mkKvStateMachine (kv_now s) (kv_shards s).

Definition KvStateMachine_new (now : Z) (shards : nat) : KvStateMachine :=
  mkKvStateMachine now (map (λ i, DbSlice_new (Z.of_nat i)) (seq 0 shards)).

Section kv.
Context {lib : KvLib}.
Implicit Types (sm : KvStateMachine) (key val : bytes).

Definition kv_Shard sm key : nat := Z.to_nat (XXH64 key mod zlen (kv_shards sm)).

(** [shard_set_->Await(Shard(key), f)]; [dflt] when there is no such shard. *)
Definition Await {A} sm key (dflt : A) (f : DbSlice → DbSlice * A) : KvStateMachine * A :=
  match kv_shards sm !! kv_Shard sm key with
  | None => (sm, dflt)
  | Some d => let '(d, a) := f d in (sm <| kv_shards ::= <[kv_Shard sm key := d]> |>, a)
  end.

(** ** Operations *)

Definition kv_Set sm (db : nat) key val : KvStateMachine :=
  (Await sm key tt (fun d =>
     let '(d, _) := AddOrFind (kv_now sm) d db key in (set_value d db key val, tt))).1.

Definition kv_Del sm (db : nat) key : KvStateMachine * bool :=
  Await sm key false (fun d => DbSlice_Del d db key).

Definition kv_Expire sm (db : nat) key (expire_at_ms : Z) : KvStateMachine * bool :=
  Await sm key false (fun d =>
    let '(d, st) := SetExpire d db key expire_at_ms in (d, bool_decide (st = StatusOK))).

Definition ApplySet sm (db : nat) key val (nx xx : bool) (expire_at_ms : Z) : KvStateMachine * bool :=
  Await sm key false (fun d =>
    let '(d, inserted) := AddOrFind (kv_now sm) d db key in
    if nx && negb inserted then (d, false)
    else if xx && inserted then (d, false)
    else
      let d := set_value d db key val in
      let d := if 0 <? expire_at_ms then (SetExpire d db key expire_at_ms).1 else d in
      (d, true)).

Definition kv_Get sm (db : nat) key : KvStateMachine * option bytes :=
  Await sm key None (fun d =>
    let '(d, res) := DbSlice_Find (kv_now sm) d db key in (d, pv_value <$> res)).

Definition kv_DbSize sm (db : nat) : Z := fold_left (fun acc d => acc + DbSize d db) (kv_shards sm) 0.

(** ** Applying log entries *)

(** What [ApplyLogEntry] calls of the store, and the passing of time. *)
Class KvStore (S : Type) := {
  store_now : S → Z;
  store_ApplySet : S → bytes → bytes → bool → bool → Z → S * bool;
  store_Del : S → bytes → S * bool;
  store_Expire : S → bytes → Z → S * bool;
  store_tick : S → Z → S
}.

#[export] Instance kv_store : KvStore KvStateMachine := {|
  store_now := kv_now;
  store_ApplySet sm := ApplySet sm 0;
  store_Del sm := kv_Del sm 0;
  store_Expire sm := kv_Expire sm 0;
  store_tick sm now := sm <| kv_now := now |>
|}.

(** The arguments of a command; [None] is a malformed one. *)
Definition entry_args (command : bytes) : option (list bytes) :=
  let '(ok, args) := ParseRespArray command in
  if ok && bool_decide (args = []) then None
  else
    let args := if bool_decide (args = []) then legacy_args (length command) command else args in
    if bool_decide (args = []) then None else Some args.

(** The options of SET from the fourth argument on: [nx], [xx] and
    [expire_at_ms]; [None] is a bad number. *)
Fixpoint set_options (now : Z) (opts : list bytes) (acc : bool * bool * Z) : option (bool * bool * Z) :=
  let '(nx, xx, ex) := acc in
  match opts with
  | [] => Some acc
  | opt :: rest =>
      if bool_decide (opt = str "NX") then set_options now rest (true, xx, ex)
      else if bool_decide (opt = str "XX") then set_options now rest (nx, true, ex)
      else if bool_decide (opt = str "EX") || bool_decide (opt = str "PX") then
        match rest with
        | [] => Some acc
        | arg :: rest =>
            match atoi64 arg with
            | None => None
            | Some ttl =>
                if ttl <? 0 then None
                else
                  let ttl_ms := if bool_decide (opt = str "EX") then u64 (ttl * 1000) else ttl in
                  set_options now rest (nx, xx, u64 (now + ttl_ms))
            end
        end
      else set_options now rest acc
  end.

Section apply.
Context {S : Type} `{!KvStore S}.
Implicit Types st : S.

Definition del_all st (keys : list bytes) : S * Z :=
  fold_left (fun '(st, deleted) key =>
    let '(st, ok) := store_Del st key in (st, if ok then u32 (deleted + 1) else deleted))
    keys (st, 0).

Definition apply_args st (args : list bytes) : S * ApplyResult :=
  let fail := (st, mkApplyResult ERROR 0) in
  match args with
  | [] => fail
  | name :: args =>
      if bool_decide (name = str "SET") then
        match args with
        | key :: val :: opts =>
            match set_options (store_now st) opts (false, false, 0) with
            | None => fail
            | Some (nx, xx, expire_at_ms) =>
                let '(st, applied) := store_ApplySet st key val nx xx expire_at_ms in
                (st, mkApplyResult OK (if applied then 1 else 0))
            end
        | _ => fail
        end
      else if bool_decide (name = str "DEL") then
        match args with
        | [] => fail
        | _ => let '(st, deleted) := del_all st args in (st, mkApplyResult OK deleted)
        end
      else if bool_decide (name = str "EXPIRE") then
        match args with
        | key :: secs :: _ =>
            match atoi64 secs with
            | None => fail
            | Some seconds =>
                if seconds <? 0 then fail
                else
                  let '(st, found) := store_Expire st key (u64 (store_now st + u64 (seconds * 1000))) in
                  (st, mkApplyResult OK (if found then 1 else 0))
            end
        | _ => fail
        end
      else fail
  end.

Definition apply_entry_command st (entry : LogEntry) : S * ApplyResult :=
  match entry_args (le_command entry) with
  | None => (st, mkApplyResult ERROR 0)
  | Some args => apply_args st args
  end.

(** Applies entries one after the other, each at its own time. *)
Fixpoint apply_log st (log : list (Z * LogEntry)) : S * list ApplyResult :=
  match log with
  | [] => (st, [])
  | (now, entry) :: log =>
      let '(st, r) := apply_entry_command (store_tick st now) entry in
      let '(st, rs) := apply_log st log in (st, r :: rs)
  end.
End apply.

Definition kv_ApplyLogEntry sm (entry : LogEntry) : KvStateMachine * ApplyResult :=
  apply_entry_command sm entry.

(** The pre-consensus path, [Apply(cid, args)]; [args] includes the name. *)
Definition kv_Apply sm (name : bytes) (args : list bytes) : KvStateMachine * ApplyResult :=
  if bool_decide (name = str "SET") then
    (kv_Set sm 0 (nth 1 args []) (nth 2 args []), mkApplyResult OK 1)
  else if bool_decide (name = str "DEL") then
    let '(sm, deleted) := kv_Del sm 0 (nth 1 args []) in
    (sm, mkApplyResult OK (if deleted then 1 else 0))
  else (sm, mkApplyResult ERROR 0).

(** ** Snapshots *)

(** [StateSerializer::Export]: the entries of every active database. *)
Definition Export (d : DbSlice) : list (bytes * PrimeValue) :=
  concat (map (λ i, if IsDbValid d i then Traverse d i else []) (seq 0 (db_array_size d))).

(** [StateSerializer::Import]. *)
Definition Import (now : Z) (d : DbSlice) (entries : list (bytes * PrimeValue)) : DbSlice :=
  fold_left (fun d '(key, v) =>
    let '(d, _) := AddOrFind now d 0 key in
    set_expire_ms (set_value d 0 key (pv_value v)) 0 key (pv_expire_ms v)) entries d.

(** [SnapshotWriter::Add]. *)
Definition WriterAdd (record : bytes * PrimeValue) : bytes :=
  let '(key, v) := record in
  let key_len := u32 (zlen key) in
  let value_len := u32 (zlen (pv_value v)) in
  le_bytes 4 key_len ++ le_bytes 4 value_len ++ le_bytes 8 (pv_expire_ms v) ++
  take (Z.to_nat key_len) key ++ take (Z.to_nat value_len) (pv_value v).

(** The file that [Open], [Add] for every record and [Finalize] leave. *)
Definition WriterFile (records : list (bytes * PrimeValue)) : bytes :=
  le_bytes 4 kSnapshotMagic ++ le_bytes 4 (u32 (zlen records)) ++ concat (map WriterAdd records).

Definition kv_SaveSnapshot sm : option bytes :=
  Some (WriterFile (concat (map Export (kv_shards sm)))).

(** [fread] of an [n]-byte integer, and of [n] bytes. *)
Definition read_uint (n : nat) (s : bytes) : option (Z * bytes) :=
  if (length s <? n)%nat then None else Some (le_val (take n s), drop n s).

Definition read_bytes (n : Z) (s : bytes) : option (bytes * bytes) :=
  if zlen s <? n then None else Some (take (Z.to_nat n) s, drop (Z.to_nat n) s).

Definition read_record (s : bytes) : option (bytes * bytes * Z * bytes) :=
  '(key_len, s) ← read_uint 4 s;
  '(value_len, s) ← read_uint 4 s;
  '(expire_at, s) ← read_uint 8 s;
  '(key, s) ← read_bytes key_len s;
  '(value, s) ← read_bytes value_len s;
  Some (key, value, expire_at, s).

(** The task that stores a record. *)
Definition load_record sm key val (expire_at : Z) : KvStateMachine :=
  (Await sm key tt (fun d =>
     let '(d, _) := AddOrFind (kv_now sm) d 0 key in
     let d := set_value d 0 key val in
     (if 0 <? expire_at then (SetExpire d 0 key expire_at).1 else d, tt))).1.

Fixpoint load_records sm (n : nat) (s : bytes) (loaded : Z) : KvStateMachine * Z :=
  match n with
  | O => (sm, loaded)
  | S n =>
      match read_record s with
      | None => (sm, loaded)
      | Some (key, value, expire_at, s) =>
          if (0 <? expire_at) && (expire_at <? kv_now sm) then load_records sm n s loaded
          else load_records (load_record sm key value expire_at) n s (u32 (loaded + 1))
      end
  end.

Definition kv_LoadSnapshot sm (bin : bytes) : KvStateMachine * bool :=
  match read_uint 4 bin with
  | None => (sm, false)
  | Some (magic, s) =>
      if negb (magic =? kSnapshotMagic) then (sm, false)
      else match read_uint 4 s with
      | None => (sm, false)
      | Some (num_records, s) =>
          let '(sm, loaded) := load_records sm (Z.to_nat num_records) s 0 in
          (sm, loaded =? num_records)
      end
  end.

#[export] Instance kv_state_machine : StateMachine KvStateMachine := {|
  ApplyLogEntry := kv_ApplyLogEntry;
  SaveSnapshot := kv_SaveSnapshot;
  LoadSnapshot := kv_LoadSnapshot
|}.

(** ** The flat map *)

(** An operation on one key, seen on the entry of that key: what the entry
    becomes, and the result. *)
Definition cell (A : Type) : Type := option PrimeValue → option PrimeValue * A.

Definition cell_add (now : Z) (e : option PrimeValue) : PrimeValue * bool :=
  match e with
  | Some v => if is_expired now v then (mkPrimeValue [] 0, true) else (v, false)
  | None => (mkPrimeValue [] 0, true)
  end.

Definition cell_set (now : Z) (val : bytes) (nx xx : bool) (expire_at_ms : Z) : cell bool := fun e =>
  let '(v, inserted) := cell_add now e in
  if (nx && negb inserted) || (xx && inserted) then (Some v, false)
  else (Some (mkPrimeValue val (if 0 <? expire_at_ms then expire_at_ms else pv_expire_ms v)), true).

Definition cell_del : cell bool := fun e => (None, bool_decide (is_Some e)).

Definition cell_expire (ms : Z) : cell bool := fun e =>
  ((fun v => v <| pv_expire_ms := ms |>) <$> e, bool_decide (is_Some e)).

Definition cell_get (now : Z) : cell (option bytes) := fun e =>
  match e with
  | Some v => if is_expired now v then (None, None) else (Some v, Some (pv_value v))
  | None => (None, None)
  end.

Record FlatStore : Type := mkFlatStore {
  fl_now : Z;
  fl_map : MainTable
}.
#[export] Instance FlatStore_eta : Eta FlatStore := fun f => mkFlatStore (fl_now f) (fl_map f).

Definition fl_cell {A} (f : FlatStore) key (c : cell A) : FlatStore * A :=
  (f <| fl_map ::= partial_alter (fun e => (c e).1) key |>, (c (fl_map f !! key)).2).

#[export] Instance flat_store : KvStore FlatStore := {|
  store_now := fl_now;
  store_ApplySet f key val nx xx ex := fl_cell f key (cell_set (fl_now f) val nx xx ex);
  store_Del f key := fl_cell f key cell_del;
  store_Expire f key ms := fl_cell f key (cell_expire ms);
  store_tick f now := f <| fl_now := now |>
|}.

(** ** Sharding *)

(** Every shard has database 0 only, and holds keys that hash to it. *)
Record kv_wf sm : Prop := {
  kv_nonempty : kv_shards sm ≠ [];
  kv_valid i d : kv_shards sm !! i = Some d → ∃ t, ds_db_arr d = [Some t];
  kv_home i d key : kv_shards sm !! i = Some d → is_Some (main_table d 0 !! key) → kv_Shard sm key = i
}.

Definition kv_lookup sm key : option PrimeValue :=
  d ← kv_shards sm !! kv_Shard sm key; main_table d 0 !! key.

(** The sharded machine holds exactly the entries of the flat map. *)
Record kv_rep sm (f : FlatStore) : Prop := {
  kr_wf : kv_wf sm;
  kr_now : kv_now sm = fl_now f;
  kr_lookup key : kv_lookup sm key = fl_map f !! key
}.

(** [f], a task for [key], does what [c] does to the entry of [key]. *)
Definition implements {A} key (f : DbSlice → DbSlice * A) (c : cell A) : Prop :=
  ∀ d t, ds_db_arr d = [Some t] →
    ds_db_arr (f d).1 = [Some (partial_alter (fun e => (c e).1) key t)] ∧ (f d).2 = (c (t !! key)).2.

Lemma single_table d t : ds_db_arr d = [Some t] →
  main_table d 0 = t ∧ IsDbValid d 0 = true ∧ ∀ t', ds_db_arr (with_table d 0 t') = [Some t'].
Proof.
  intros E. unfold main_table, IsDbValid, with_table, IsDbValid. rewrite E. split_and!; [done..|].
  intros t'. simpl. by rewrite E.
Qed.

Lemma kv_Shard_lookup sm key : kv_wf sm → is_Some (kv_shards sm !! kv_Shard sm key).
Proof.
  intros Hwf. apply lookup_lt_is_Some. unfold kv_Shard, zlen.
  pose proof (kv_nonempty sm Hwf). destruct (kv_shards sm); [done|].
  pose proof (Z.mod_pos_bound (XXH64 key) (Z.of_nat (length (d :: l))) ltac:(simpl; lia)). lia.
Qed.

Lemma kv_Shard_insert sm key i d : kv_Shard (sm <| kv_shards ::= <[i := d]> |>) key = kv_Shard sm key.
Proof. unfold kv_Shard, zlen. simpl. by rewrite length_insert. Qed.

(** A task on the shard of a key is an operation on the entry of that key. *)
Lemma Await_rep {A} sm f key (dflt : A) (task : DbSlice → DbSlice * A) (c : cell A) :
  kv_rep sm f → implements key task c →
  kv_rep (Await sm key dflt task).1 (fl_cell f key c).1 ∧
  (Await sm key dflt task).2 = (fl_cell f key c).2.
Proof.
  intros [Hwf Hnow Hl] Himp. unfold Await.
  destruct (kv_Shard_lookup sm key Hwf) as [d Hd]. rewrite Hd.
  destruct (kv_valid sm Hwf _ _ Hd) as [t Ht]. destruct (Himp d t Ht) as [Ht' Ha].
  destruct (task d) as [d' a]. cbn [fst snd] in *.
  destruct (single_table d t Ht) as (Em & _ & _). destruct (single_table _ _ Ht') as (Em' & _ & _).
  assert (fl_map f !! key = t !! key) as Hk by (rewrite <-Hl; unfold kv_lookup; rewrite Hd; simpl; by rewrite Em).
  pose proof (lookup_lt_Some _ _ _ Hd) as Hlt. split; [|simpl; by rewrite Hk].
  split; [split| |].
  - simpl. pose proof (kv_nonempty sm Hwf). by destruct (kv_shards sm), (kv_Shard sm key).
  - intros i d0. simpl. rewrite list_lookup_insert. case_decide as Hi; intros E.
    + simplify_eq. eauto.
    + eapply kv_valid; eauto.
  - intros i d0 key0. rewrite kv_Shard_insert. simpl. rewrite list_lookup_insert.
    case_decide as Hi; intros E; [|by eapply kv_home; eauto]. destruct Hi as [<- _]. injection E as <-.
    rewrite Em'. destruct (decide (key0 = key)) as [->|]; [done|].
    rewrite lookup_partial_alter_ne by done. intros Hs. apply (kv_home sm Hwf _ d); [done|by rewrite Em].
  - done.
  - intros key0. unfold kv_lookup. rewrite kv_Shard_insert. simpl.
    destruct (decide (kv_Shard sm key0 = kv_Shard sm key)) as [E|E].
    + rewrite E, list_lookup_insert_eq by done. simpl. rewrite Em'.
      destruct (decide (key0 = key)) as [->|]; [by rewrite !lookup_partial_alter_eq, Hk|].
      rewrite !lookup_partial_alter_ne by done. rewrite <-Hl. unfold kv_lookup. rewrite E, Hd. simpl. by rewrite Em.
    + rewrite list_lookup_insert_ne by done. rewrite lookup_partial_alter_ne by congruence. apply Hl.
Qed.

Lemma AddOrFind_single now d t key :
  ds_db_arr d = [Some t] →
  ds_db_arr (AddOrFind now d 0 key).1 = [Some (<[key := (cell_add now (t !! key)).1]> t)] ∧
  (AddOrFind now d 0 key).2 = (cell_add now (t !! key)).2.
Proof.
  intros Hd. destruct (single_table d t Hd) as (Em & _ & Et). unfold AddOrFind, cell_add. rewrite Em.
  destruct (t !! key) as [v|] eqn:E; [|by simpl; rewrite Et].
  case_match; simpl.
  - by rewrite Et, insert_delete_eq.
  - by rewrite insert_id.
Qed.

Lemma set_value_single d t key val v :
  ds_db_arr d = [Some (<[key := v]> t)] →
  ds_db_arr (set_value d 0 key val) = [Some (<[key := v <| pv_value := val |>]> t)].
Proof.
  intros Hd. destruct (single_table _ _ Hd) as (Em & _ & Et). unfold set_value. rewrite Et, Em.
  do 2 f_equal. apply map_eq. intros k. destruct (decide (k = key)) as [->|].
  - by rewrite lookup_alter_eq, !lookup_insert_eq.
  - by rewrite lookup_alter_ne, !lookup_insert_ne.
Qed.

Lemma SetExpire_single d t key ms v :
  ds_db_arr d = [Some (<[key := v]> t)] →
  ds_db_arr (SetExpire d 0 key ms).1 = [Some (<[key := v <| pv_expire_ms := ms |>]> t)].
Proof.
  intros Hd. destruct (single_table _ _ Hd) as (Em & _ & Et). unfold SetExpire, set_expire_ms.
  rewrite Em, lookup_insert_eq. simpl. rewrite Et. do 2 f_equal. apply map_eq. intros k.
  destruct (decide (k = key)) as [->|].
  - by rewrite lookup_alter_eq, !lookup_insert_eq.
  - by rewrite lookup_alter_ne, !lookup_insert_ne.
Qed.

Lemma insert_partial_alter (t : MainTable) key (g : option PrimeValue → option PrimeValue) e v :
  t !! key = e → g e = Some v → <[key := v]> t = partial_alter g key t.
Proof.
  intros He E. apply map_eq. intros k. destruct (decide (k = key)) as [->|].
  - rewrite lookup_insert_eq, lookup_partial_alter_eq, He. done.
  - by rewrite lookup_insert_ne, lookup_partial_alter_ne.
Qed.

(** The shard task of [ApplySet] and of [LoadSnapshot]. *)
Definition set_task (now : Z) key val (nx xx : bool) (expire_at_ms : Z) (d : DbSlice) : DbSlice * bool :=
  let '(d, inserted) := AddOrFind now d 0 key in
  if nx && negb inserted then (d, false)
  else if xx && inserted then (d, false)
  else
    let d := set_value d 0 key val in
    let d := if 0 <? expire_at_ms then (SetExpire d 0 key expire_at_ms).1 else d in
    (d, true).

Lemma set_task_implements now key val nx xx ex :
  implements key (set_task now key val nx xx ex) (cell_set now val nx xx ex).
Proof.
  intros d t Hd. unfold set_task. destruct (AddOrFind_single now d t key Hd) as [H1 H2].
  destruct (AddOrFind now d 0 key) as [d1 ins]. cbn [fst snd] in *. subst ins.
  destruct (cell_add now (t !! key)) as [v ins] eqn:Ec. cbn [fst snd] in *.
  assert (∀ w b, cell_set now val nx xx ex (t !! key) = (Some w, b) →
    <[key := w]> t = partial_alter (fun e => (cell_set now val nx xx ex e).1) key t ∧
    b = (cell_set now val nx xx ex (t !! key)).2) as Hw.
  { intros w b E. split; [|by rewrite E]. eapply insert_partial_alter; [reflexivity|]. exact (f_equal fst E). }
  unfold cell_set at 1 in Hw. rewrite Ec in Hw.
  destruct (nx && negb ins) eqn:En; cbn [orb fst snd] in *; [by destruct (Hw _ _ eq_refl) as [<- <-]|].
  destruct (xx && ins) eqn:Ex; cbn [fst snd] in *; [by destruct (Hw _ _ eq_refl) as [<- <-]|].
  destruct (Hw _ _ eq_refl) as [<- <-]. split; [|done].
  pose proof (set_value_single d1 t key val v H1) as H3. destruct (0 <? ex).
  - rewrite (SetExpire_single _ _ _ _ _ H3). done.
  - rewrite H3. done.
Qed.

Lemma del_implements key : implements key (fun d => DbSlice_Del d 0 key) cell_del.
Proof.
  intros d t Hd. destruct (single_table d t Hd) as (Em & _ & Et). unfold DbSlice_Del. rewrite Em.
  destruct (t !! key) eqn:E; simpl; rewrite ?Et; split; try done.
  rewrite Hd. do 2 f_equal. apply map_eq. intros k. destruct (decide (k = key)) as [->|].
  - by rewrite lookup_partial_alter_eq.
  - by rewrite lookup_partial_alter_ne.
Qed.

Lemma expire_implements key ms :
  implements key (fun d => let '(d, st) := SetExpire d 0 key ms in (d, bool_decide (st = StatusOK)))
    (cell_expire ms).
Proof.
  intros d t Hd. destruct (single_table d t Hd) as (Em & _ & Et).
  destruct (t !! key) as [v|] eqn:E.
  - assert (ds_db_arr d = [Some (<[key := v]> t)]) as Hd' by (by rewrite insert_id).
    pose proof (SetExpire_single d t key ms v Hd') as Hs.
    assert ((SetExpire d 0 key ms).2 = StatusOK) as Hst by (unfold SetExpire; by rewrite Em, E).
    destruct (SetExpire d 0 key ms) as [d' st]. cbn [fst snd] in *. rewrite Hst, Hs. split; [|done].
    do 2 f_equal. by eapply insert_partial_alter.
  - unfold SetExpire. rewrite Em, E. simpl. split; [|done]. rewrite Hd. do 2 f_equal.
    apply map_eq. intros k. destruct (decide (k = key)) as [->|].
    + by rewrite lookup_partial_alter_eq, E.
    + by rewrite lookup_partial_alter_ne.
Qed.

Lemma get_implements now key :
  implements key (fun d => let '(d, res) := DbSlice_Find now d 0 key in (d, pv_value <$> res)) (cell_get now).
Proof.
  intros d t Hd. destruct (single_table d t Hd) as (Em & _ & Et). unfold DbSlice_Find. rewrite Em.
  destruct (t !! key) as [v|] eqn:E; [destruct (is_expired now v) eqn:Ex|]; simpl; rewrite ?Ex, ?Et, ?Hd;
    (split; [|done]); do 2 f_equal; apply map_eq; intros k;
    (destruct (decide (k = key)) as [->|]; [|by rewrite ?lookup_delete_ne, lookup_partial_alter_ne]);
    by rewrite ?lookup_delete_eq, lookup_partial_alter_eq, E; simpl; rewrite ?Ex.
Qed.

(** ** The store operations *)

Lemma ApplySet_rep sm f key val nx xx ex :
  kv_rep sm f →
  kv_rep (store_ApplySet sm key val nx xx ex).1 (store_ApplySet f key val nx xx ex).1 ∧
  (store_ApplySet sm key val nx xx ex).2 = (store_ApplySet f key val nx xx ex).2.
Proof.
  intros H. cbn [store_ApplySet kv_store flat_store]. rewrite <-(kr_now _ _ H).
  apply Await_rep; [done|]. apply set_task_implements.
Qed.

Lemma Del_rep sm f key :
  kv_rep sm f →
  kv_rep (store_Del sm key).1 (store_Del f key).1 ∧ (store_Del sm key).2 = (store_Del f key).2.
Proof. intros. apply Await_rep; [done|]. apply del_implements. Qed.

Lemma Expire_rep sm f key ms :
  kv_rep sm f →
  kv_rep (store_Expire sm key ms).1 (store_Expire f key ms).1 ∧
  (store_Expire sm key ms).2 = (store_Expire f key ms).2.
Proof. intros. apply Await_rep; [done|]. apply expire_implements. Qed.

Lemma Get_rep sm f key :
  kv_rep sm f → (kv_Get sm 0 key).2 = (cell_get (fl_now f) (fl_map f !! key)).2.
Proof.
  intros H. rewrite <-(kr_now _ _ H).
  exact (proj2 (Await_rep sm f key None _ _ H (get_implements (kv_now sm) key))).
Qed.

Lemma del_all_rep sm f keys :
  kv_rep sm f →
  kv_rep (del_all sm keys).1 (del_all f keys).1 ∧ (del_all sm keys).2 = (del_all f keys).2.
Proof.
  unfold del_all. generalize 0 as k. revert sm f. induction keys as [|key keys IH]; intros sm f k H; [done|].
  simpl. destruct (Del_rep sm f key H) as [H' E]. revert H' E.
  simpl. destruct (kv_Del sm 0 key) as [sm' b], (fl_cell f key cell_del) as [f' b']. simpl.
  intros H' ->. by apply IH.
Qed.

Lemma apply_args_rep sm f args :
  kv_rep sm f →
  kv_rep (apply_args sm args).1 (apply_args f args).1 ∧ (apply_args sm args).2 = (apply_args f args).2.
Proof.
  intros H. unfold apply_args.
  replace (store_now sm) with (store_now f) by (symmetry; apply kr_now, H).
  destruct args as [|name args]; [done|]. repeat case_bool_decide; [| | |done].
  - destruct args as [|key [|val opts]]; [done..|]. destruct (set_options _ _ _) as [[[nx xx] ex]|]; [|done].
    destruct (ApplySet_rep sm f key val nx xx ex H) as [H' E].
    destruct (store_ApplySet sm _ _ _ _ _), (store_ApplySet f _ _ _ _ _). cbn [fst snd] in *. by subst.
  - destruct args as [|key keys]; [done|]. destruct (del_all_rep sm f (key :: keys) H) as [H' E].
    destruct (del_all sm _), (del_all f _). cbn [fst snd] in *. by subst.
  - destruct args as [|key [|secs rest]]; [done..|]. destruct (atoi64 secs) as [z|]; [|done].
    destruct (z <? 0); [done|].
    destruct (Expire_rep sm f key (u64 (store_now f + u64 (z * 1000))) H) as [H' E].
    destruct (store_Expire sm _ _), (store_Expire f _ _). cbn [fst snd] in *. by subst.
Qed.

Lemma tick_rep sm f now : kv_rep sm f → kv_rep (store_tick sm now) (store_tick f now).
Proof. intros [[] ? ?]. split; [by split|done|done]. Qed.

Lemma apply_log_rep sm f log :
  kv_rep sm f →
  kv_rep (apply_log sm log).1 (apply_log f log).1 ∧ (apply_log sm log).2 = (apply_log f log).2.
Proof.
  revert sm f. induction log as [|[now e] log IH]; intros sm f H; [done|]. cbn [apply_log].
  pose proof (tick_rep sm f now H) as Ht. revert Ht.
  generalize (store_tick sm now) as sm1, (store_tick f now) as f1. intros sm1 f1 Ht.
  assert (kv_rep (apply_entry_command sm1 e).1 (apply_entry_command f1 e).1 ∧
    (apply_entry_command sm1 e).2 = (apply_entry_command f1 e).2) as [H1 E1].
  { unfold apply_entry_command. case_match; [by apply apply_args_rep|done]. }
  destruct (apply_entry_command sm1 e) as [sm2 r], (apply_entry_command f1 e) as [f2 r'].
  cbn [fst snd] in *. destruct (IH sm2 f2 H1) as [H2 E2].
  destruct (apply_log sm2 log), (apply_log f2 log). cbn [fst snd] in *. by subst.
Qed.

Lemma kv_shards_new now n i d :
  kv_shards (KvStateMachine_new now n) !! i = Some d → d = DbSlice_new (Z.of_nat i).
Proof.
  simpl. rewrite list_lookup_fmap. intros (j & Hj & ->)%fmap_Some. by apply lookup_seq in Hj as [-> _].
Qed.

Lemma kv_rep_new now n : (0 < n)%nat → kv_rep (KvStateMachine_new now n) (mkFlatStore now ∅).
Proof.
  intros Hn. split; [split|done|].
  - by destruct n; [lia|].
  - intros i d ->%kv_shards_new. by eexists.
  - intros i d key ->%kv_shards_new. rewrite (proj1 (main_table_new _)), lookup_empty. by intros [].
  - intros key. unfold kv_lookup. simpl fl_map. rewrite lookup_empty.
    destruct (kv_shards _ !! _) as [d|] eqn:E; [|done]. apply kv_shards_new in E as ->. simpl.
    rewrite (proj1 (main_table_new _)). apply lookup_empty.
Qed.

(** ** All entries of a machine *)

Lemma NoDup_concat_home {A} (h : A → nat) (ls : list (list A)) k :
  (∀ i l, ls !! i = Some l → NoDup l ∧ ∀ x, x ∈ l → h x = (k + i)%nat) → NoDup (concat ls).
Proof.
  revert k. induction ls as [|l ls IH]; intros k H; [constructor|]. simpl. apply NoDup_app. split_and!.
  - by apply (H 0%nat).
  - intros x Hx (l' & Hl' & Hx')%list_elem_of_In%in_concat. apply list_elem_of_In in Hl', Hx'.
    apply list_elem_of_lookup in Hl' as [i Hi].
    pose proof (proj2 (H 0%nat l eq_refl) x Hx). pose proof (proj2 (H (S i) l' Hi) x Hx'). lia.
  - apply (IH (S k)). intros i l' Hi. destruct (H (S i) l' Hi) as [? Hh]. split; [done|].
    intros x Hx. rewrite (Hh x Hx). lia.
Qed.

Definition all_entries sm : list (bytes * PrimeValue) := concat (map Export (kv_shards sm)).

Lemma Export_single d t : ds_db_arr d = [Some t] → Export d = map_to_list t.
Proof.
  intros Hd. destruct (single_table d t Hd) as (Em & Ev & _). unfold Export, db_array_size. rewrite Hd.
  simpl. rewrite Ev. unfold Traverse. by rewrite Em, app_nil_r.
Qed.

Lemma elem_of_all_entries sm f k v : kv_rep sm f → (k, v) ∈ all_entries sm ↔ fl_map f !! k = Some v.
Proof.
  intros [Hwf _ Hl]. unfold all_entries. rewrite list_elem_of_In, in_concat, <-Hl. unfold kv_lookup. split.
  - intros (l & Hin & Hkv). apply in_map_iff in Hin as (d & <- & Hd).
    apply list_elem_of_In, list_elem_of_lookup in Hd as [i Hd]. destruct (kv_valid sm Hwf i d Hd) as [t Ht].
    rewrite (Export_single d t Ht) in Hkv. apply list_elem_of_In, elem_of_map_to_list in Hkv.
    destruct (single_table d t Ht) as (Em & _). rewrite (kv_home sm Hwf i d k), Hd; [|done|by rewrite Em].
    simpl. by rewrite Em.
  - intros Hk. destruct (kv_shards sm !! kv_Shard sm k) as [d|] eqn:Hd; [|done]. simpl in Hk.
    destruct (kv_valid sm Hwf _ d Hd) as [t Ht]. destruct (single_table d t Ht) as (Em & _).
    exists (Export d). split; [apply in_map, list_elem_of_In, list_elem_of_lookup; eauto|].
    rewrite (Export_single d t Ht). apply list_elem_of_In, elem_of_map_to_list. by rewrite <-Em.
Qed.

Lemma NoDup_all_entries sm : kv_wf sm → NoDup (all_entries sm).
Proof.
  intros Hwf. apply (NoDup_concat_home (fun '(k, _) => kv_Shard sm k) _ 0). intros i l Hl.
  rewrite list_lookup_fmap in Hl. apply fmap_Some in Hl as (d & Hd & ->).
  destruct (kv_valid sm Hwf i d Hd) as [t Ht]. rewrite (Export_single d t Ht).
  split; [apply NoDup_map_to_list|]. intros [k v] Hkv%elem_of_map_to_list.
  destruct (single_table d t Ht) as (Em & _). apply (kv_home sm Hwf i d k Hd). by rewrite Em.
Qed.

Lemma all_entries_perm sm f : kv_rep sm f → all_entries sm ≡ₚ map_to_list (fl_map f).
Proof.
  intros H. apply NoDup_Permutation.
  - apply NoDup_all_entries, H.
  - apply NoDup_map_to_list.
  - intros [k v]. by rewrite (elem_of_all_entries sm f) by done; rewrite elem_of_map_to_list.
Qed.

Lemma DbSize_rep sm f : kv_rep sm f → kv_DbSize sm 0 = Z.of_nat (size (fl_map f)).
Proof.
  intros H. rewrite <-length_map_to_list, <-(all_entries_perm sm f H). unfold kv_DbSize, all_entries.
  assert (∀ ds acc, (∀ d, d ∈ ds → ∃ t, ds_db_arr d = [Some t]) →
    fold_left (fun acc d => acc + DbSize d 0) ds acc = acc + Z.of_nat (length (concat (map Export ds)))) as Hgen.
  { induction ds as [|d ds IH]; intros acc Hd; simpl; [lia|].
    destruct (Hd d) as [t Ht]; [by left|]. destruct (single_table d t Ht) as (Em & Ev & _).
    rewrite IH by (intros; apply Hd; by right). rewrite length_app, (Export_single d t Ht).
    unfold DbSize. rewrite Ev, Em, length_map_to_list. lia. }
  rewrite Hgen; [lia|]. intros d [i Hd]%list_elem_of_lookup. by apply (kv_valid sm (kr_wf _ _ H) i).
Qed.

(** C8. Sharding is invisible: on any number of shards and with any hash, a log
    has the same results, the same values and the same number of keys as on a
    single map, at every moment of time. *)
Theorem sharding_transparent (start : Z) (n : nat) (log : list (Z * LogEntry)) :
  (0 < n)%nat →
  let '(sm, results) := apply_log (KvStateMachine_new start n) log in
  let '(f, results') := apply_log (mkFlatStore start ∅) log in
  results = results' ∧ kv_DbSize sm 0 = Z.of_nat (size (fl_map f)) ∧
  ∀ now key, (kv_Get (store_tick sm now) 0 key).2 = (cell_get now (fl_map f !! key)).2.
Proof.
  intros Hn. destruct (apply_log_rep _ _ log (kv_rep_new start n Hn)) as [H E].
  destruct (apply_log (KvStateMachine_new start n) log), (apply_log (mkFlatStore start ∅) log).
  cbn [fst snd] in *. split_and!; [done|by apply DbSize_rep|]. intros now key.
  exact (Get_rep _ _ key (tick_rep _ _ now H)).
Qed.

(** ** Snapshot round trip *)

Definition stale (now : Z) (v : PrimeValue) : bool :=
  (0 <? pv_expire_ms v) && (pv_expire_ms v <? now).

(** A record fits the 32-bit lengths and the 64-bit time of the format. *)
Definition record_ok (key : bytes) (v : PrimeValue) : Prop :=
  zlen key ≤ U32_MAX ∧ zlen (pv_value v) ≤ U32_MAX ∧ 0 ≤ pv_expire_ms v ≤ U64_MAX.

#[export] Instance record_ok_dec key v : Decision (record_ok key v).
Proof. unfold record_ok. apply _. Defined.

Lemma read_uint_app n v s :
  0 ≤ v < 256 ^ Z.of_nat n → read_uint n (le_bytes n v ++ s) = Some (v, s).
Proof.
  intros Hv. unfold read_uint. rewrite length_app, length_le_bytes.
  destruct (Nat.ltb_spec (n + length s) n); [lia|].
  rewrite take_app_length', drop_app_length' by (by rewrite length_le_bytes). by rewrite le_val_bytes_small.
Qed.

Lemma read_bytes_app b s : read_bytes (zlen b) (b ++ s) = Some (b, s).
Proof.
  unfold read_bytes. rewrite zlen_app. destruct (Z.ltb_spec (zlen b + zlen s) (zlen b)).
  - unfold zlen in *. lia.
  - unfold zlen. rewrite Nat2Z.id. by rewrite take_app_length, drop_app_length.
Qed.

Lemma read_record_app key v s :
  record_ok key v → read_record (WriterAdd (key, v) ++ s) = Some (key, pv_value v, pv_expire_ms v, s).
Proof.
  intros (Hk & Hv & He). unfold WriterAdd, read_record.
  assert (∀ b : bytes, zlen b ≤ U32_MAX → u32 (zlen b) = zlen b ∧ take (Z.to_nat (zlen b)) b = b) as Hb.
  { intros b Hb. split; [apply u32_small; unfold zlen in *; lia|]. unfold zlen. by rewrite Nat2Z.id, take_ge. }
  destruct (Hb key Hk) as [-> ->]. destruct (Hb (pv_value v) Hv) as [-> ->]. rewrite <-!app_assoc.
  assert (∀ b : bytes, 0 ≤ zlen b) by (unfold zlen; lia). unfold U32_MAX, U64_MAX in *.
  rewrite read_uint_app by (change (256 ^ Z.of_nat 4) with 4294967296; auto with lia). cbn [mbind option_bind].
  rewrite read_uint_app by (change (256 ^ Z.of_nat 4) with 4294967296; auto with lia). cbn [mbind option_bind].
  rewrite read_uint_app by (change (256 ^ Z.of_nat 8) with 18446744073709551616; lia). cbn [mbind option_bind].
  rewrite read_bytes_app. cbn [mbind option_bind]. by rewrite read_bytes_app.
Qed.

Lemma load_record_rep sm f key v :
  kv_rep sm f → fl_map f !! key = None → 0 ≤ pv_expire_ms v →
  kv_rep (load_record sm key (pv_value v) (pv_expire_ms v)) (f <| fl_map ::= <[key := v]> |>).
Proof.
  intros H Hk He.
  set (c := fun e => ((cell_set (kv_now sm) (pv_value v) false false (pv_expire_ms v) e).1, tt)).
  replace (f <| fl_map ::= <[key := v]> |>) with (fl_cell f key c).1.
  - refine (proj1 (Await_rep sm f key tt _ c H _)). intros d t Hd.
    destruct (set_task_implements (kv_now sm) key (pv_value v) false false (pv_expire_ms v) d t Hd) as [E _].
    unfold set_task in E. destruct (AddOrFind (kv_now sm) d 0 key). split; [exact E|done].
  - destruct f as [now m]. unfold fl_cell. simpl in *. f_equal. symmetry.
    apply (insert_partial_alter m key _ None v); [exact Hk|]. unfold c, cell_set. destruct v as [val ex]. simpl.
    destruct (Z.ltb_spec 0 ex); [done|]. by replace ex with 0 by (simpl in He; lia).
Qed.

(** What [load_records] leaves when it reads the records [rs]. *)
Lemma load_records_rep (rs : list (bytes * PrimeValue)) sm f loaded tail :
  kv_rep sm f → NoDup rs.*1 → (∀ k v, (k, v) ∈ rs → record_ok k v ∧ fl_map f !! k = None) →
  0 ≤ loaded → loaded + zlen rs ≤ U32_MAX →
  let live := filter (fun kv => stale (fl_now f) kv.2 = false) rs in
  let '(sm', loaded') := load_records sm (length rs) (concat (map WriterAdd rs) ++ tail) loaded in
  kv_rep sm' (f <| fl_map ::= fun m => list_to_map live ∪ m |>) ∧ loaded' = loaded + zlen live.
Proof.
  revert sm f loaded. induction rs as [|[k v] rs IH]; intros sm f loaded H Hnd Hrs Hl0 Hl.
  { simpl. split; [|unfold zlen; simpl; lia]. destruct f. by rewrite (left_id_L ∅ (∪)). }
  cbn [length map concat load_records]. rewrite <-app_assoc.
  destruct (Hrs k v) as [Hok Hk]; [by left|]. rewrite read_record_app by done.
  apply NoDup_cons in Hnd as [Hnk Hnd]. rewrite zlen_cons in Hl. rewrite (kr_now _ _ H).
  rewrite filter_cons. change ((0 <? pv_expire_ms v) && (pv_expire_ms v <? fl_now f)) with (stale (fl_now f) v).
  cbn [snd]. destruct (stale (fl_now f) v) eqn:Est.
  - rewrite decide_False by done. apply IH; [done|done| |lia|lia].
    intros k' v' Hin. apply Hrs. by right.
  - rewrite decide_True by done. rewrite u32_small by (unfold zlen in *; lia).
    pose proof (IH (load_record sm k (pv_value v) (pv_expire_ms v)) (f <| fl_map ::= <[k := v]> |>)
      (loaded + 1)) as IH'. simpl fl_now in IH'.
    destruct (load_records _ _ _ _) as [sm' loaded']. destruct IH' as [Hr ->].
    + apply load_record_rep; [done|done|apply Hok].
    + done.
    + intros k' v' Hin. destruct (Hrs k' v') as [? Hk']; [by right|]. split; [done|]. simpl.
      rewrite lookup_insert_ne; [done|]. intros <-. apply Hnk. apply list_elem_of_fmap. by exists (k, v').
    + lia.
    + lia.
    + split; [|rewrite zlen_cons; lia]. revert Hr. destruct f as [now m]. simpl.
      match goal with |- kv_rep _ (mkFlatStore _ ?a) → kv_rep _ (mkFlatStore _ ?b) => replace b with a; [done|] end.
      rewrite <-insert_union_l. rewrite <-insert_union_r; [done|]. apply not_elem_of_list_to_map.
      intros Hin. apply Hnk. apply list_elem_of_fmap in Hin as ([k' v'] & -> & Hin).
      apply list_elem_of_filter in Hin as [_ Hin]. apply list_elem_of_fmap. by exists (k', v').
Qed.

Lemma NoDup_all_keys sm f : kv_rep sm f → NoDup (all_entries sm).*1.
Proof. intros H. rewrite (all_entries_perm sm f H). apply NoDup_fst_map_to_list. Qed.

(** The live records of the file are the live entries of the map. *)
Lemma live_entries sm f now :
  kv_rep sm f →
  list_to_map (filter (fun kv => stale now kv.2 = false) (all_entries sm)) =@{MainTable}
    filter (fun kv => stale now kv.2 = false) (fl_map f).
Proof.
  intros H. apply map_eq. intros k. apply option_eq. intros v. rewrite map_lookup_filter_Some.
  rewrite <-(elem_of_all_entries sm f k v H). rewrite <-elem_of_list_to_map.
  - rewrite list_elem_of_filter. simpl. tauto.
  - eapply sublist_NoDup; [apply (NoDup_all_keys sm f H)|]. apply fmap_sublist, sublist_filter.
Qed.

Lemma filter_length_all {A} (P : A → Prop) `{∀ x, Decision (P x)} (l : list A) :
  zlen (filter P l) = zlen l ↔ Forall P l.
Proof.
  induction l as [|x l IH]; [done|]. rewrite filter_cons, Forall_cons.
  pose proof (length_filter P l). unfold zlen in *. case_decide; simpl in *; [rewrite <-IH|]; intuition lia.
Qed.

(** C26. A snapshot restores the state: what [SaveSnapshot] writes on one machine,
    [LoadSnapshot] on a new one with any number of shards turns back into the
    same entries, except those that have expired by then.  It reports success
    only if none had: one expired key in the file makes recovery treat the
    snapshot as unusable, although every other entry was loaded. *)
Theorem snapshot_roundtrip sm f now (n : nat) bin :
  kv_rep sm f → map_Forall record_ok (fl_map f) → Z.of_nat (size (fl_map f)) ≤ U32_MAX →
  (0 < n)%nat → kv_SaveSnapshot sm = Some bin →
  let '(sm', ok) := kv_LoadSnapshot (KvStateMachine_new now n) bin in
  kv_rep sm' (mkFlatStore now (filter (fun kv => stale now kv.2 = false) (fl_map f))) ∧
  (ok = true ↔ map_Forall (fun _ v => stale now v = false) (fl_map f)).
Proof.
  intros H Hok Hsize Hn Hsave. unfold kv_SaveSnapshot in Hsave. injection Hsave as <-.
  change (concat (map Export (kv_shards sm))) with (all_entries sm).
  assert (zlen (all_entries sm) = Z.of_nat (size (fl_map f))) as Hlen.
  { unfold zlen. by rewrite (all_entries_perm sm f H), length_map_to_list. }
  unfold kv_LoadSnapshot, WriterFile.
  rewrite read_uint_app by (by unfold kSnapshotMagic). rewrite Z.eqb_refl. cbn [negb].
  rewrite u32_small by lia.
  rewrite read_uint_app by (change (256 ^ Z.of_nat 4) with 4294967296; unfold U32_MAX in *; lia).
  rewrite <-(app_nil_r (concat (map WriterAdd (all_entries sm)))).
  replace (Z.to_nat (zlen (all_entries sm))) with (length (all_entries sm)) by (unfold zlen; lia).
  pose proof (load_records_rep (all_entries sm) (KvStateMachine_new now n) (mkFlatStore now ∅) 0 []
    (kv_rep_new now n Hn) (NoDup_all_keys sm f H)) as Hl. cbv zeta in Hl.
  destruct (load_records _ _ _ _) as [sm' loaded]. destruct Hl as [Hr ->].
  - intros k v Hin%(elem_of_all_entries sm f k v H). split; [by apply Hok|apply lookup_empty].
  - lia.
  - lia.
  - simpl fl_now in *. split.
    + revert Hr. simpl. by rewrite (live_entries sm f now H), (right_id_L ∅ (∪)).
    + rewrite Z.eqb_eq, Z.add_0_l, filter_length_all, Forall_forall. split.
      * intros Hf k v Hk%(elem_of_all_entries sm f k v H). by apply (Hf (k, v)).
      * intros Hf [k v] Hin%(elem_of_all_entries sm f k v H). by apply (Hf k v).
Qed.

(** ** Two corners *)

(** [SET ... XX] on a key that does not exist is refused, and yet creates the
    key, with an empty value. *)
Theorem set_xx_creates_key sm f key val expire_at_ms :
  kv_rep sm f → fl_map f !! key = None →
  let '(sm', applied) := ApplySet sm 0 key val false true expire_at_ms in
  applied = false ∧ (kv_Get sm' 0 key).2 = Some [] ∧ kv_DbSize sm' 0 = kv_DbSize sm 0 + 1.
Proof.
  intros H Hk. pose proof (ApplySet_rep sm f key val false true expire_at_ms H) as [H' E].
  revert H' E. cbn [store_ApplySet kv_store flat_store].
  destruct (ApplySet sm 0 key val false true expire_at_ms) as [sm' applied]. cbn [fst snd]. intros H' ->.
  rewrite (DbSize_rep sm f H), (DbSize_rep _ _ H'), (Get_rep _ _ key H'). destruct f as [now m]. simpl in *.
  rewrite lookup_partial_alter_eq, Hk. split_and!; [done|done|].
  rewrite <-(insert_partial_alter m key _ None (mkPrimeValue [] 0)) by done.
  rewrite map_size_insert_None by done. lia.
Qed.

(** A log entry that is cut off is not rejected: the state machine runs the
    command made of the arguments that arrived, so a DEL of several keys deletes
    the first ones. *)
Theorem truncated_entry_applied sm (term index : Z) (args : list bytes) :
  args ≠ [] → let command := resp_prefix (zlen args + 1) args in
  zlen command < U64_MAX →
  kv_ApplyLogEntry sm (mkLogEntry term index command) = apply_args sm args.
Proof.
  intros Ha command Hl. unfold kv_ApplyLogEntry, apply_entry_command, entry_args. simpl le_command.
  unfold command. rewrite ParseRespArray_truncated by done. cbn [andb].
  by rewrite !bool_decide_false by (rewrite ?bool_decide_false by done; done).
Qed.
End kv.

(** ** Examples *)

Definition example_lib : KvLib := {|
  XXH64 := fun s => fold_left Z.add s 7;
  kv_absl := decimal_atoi
|}.

Section examples.
#[local] Existing Instance example_lib.

Definition resp_entry (args : list bytes) : LogEntry := mkLogEntry 1 1 (EncodeRespArray args).

Definition example_log : list (Z * LogEntry) :=
  [(10, resp_entry [str "SET"; str "a"; str "1"]);
   (20, resp_entry [str "SET"; str "b"; str "2"; str "EX"; str "1"]);
   (30, resp_entry [str "SET"; str "a"; str "3"; str "NX"]);
   (40, resp_entry [str "DEL"; str "a"; str "x"]);
   (50, resp_entry [str "SET"; str "c"; str "4"; str "PX"; str "100"]);
   (60, resp_entry [str "EXPIRE"; str "b"; str "9"])].

Lemma sharding_transparent_witness :
  (apply_log (KvStateMachine_new 0 3) example_log).2 = (apply_log (mkFlatStore 0 ∅) example_log).2 ∧
  map ar_affected_rows (apply_log (KvStateMachine_new 0 3) example_log).2 = [1; 1; 0; 1; 1; 1].
Proof.
  split; [|by vm_compute]. pose proof (sharding_transparent 0 3 example_log ltac:(lia)) as H.
  destruct (apply_log (KvStateMachine_new 0 3) example_log), (apply_log (mkFlatStore 0 ∅) example_log).
  apply H.
Defined.

Lemma snapshot_roundtrip_witness :
  let sm := (apply_log (KvStateMachine_new 0 3) example_log).1 in
  let f := (apply_log (mkFlatStore 0 ∅) example_log).1 in
  let bin := default [] (kv_SaveSnapshot sm) in
  let '(sm', ok) := kv_LoadSnapshot (KvStateMachine_new 1000 2) bin in
  kv_rep sm' (mkFlatStore 1000 (filter (fun kv => stale 1000 kv.2 = false) (fl_map f))) ∧
  (ok = true ↔ map_Forall (fun _ v => stale 1000 v = false) (fl_map f)).
Proof.
  intros sm f bin. apply (snapshot_roundtrip sm f 1000 2 bin);
    [|by_decide|by vm_compute|lia|vm_compute; reflexivity].
  apply apply_log_rep, kv_rep_new. lia.
Defined.

Lemma set_xx_creates_key_witness :
  let '(sm', applied) := ApplySet (KvStateMachine_new 0 3) 0 (str "k") (str "v") false true 0 in
  applied = false ∧ (kv_Get sm' 0 (str "k")).2 = Some [] ∧
  kv_DbSize sm' 0 = kv_DbSize (KvStateMachine_new 0 3) 0 + 1.
Proof. apply (set_xx_creates_key _ (mkFlatStore 0 ∅)); [apply kv_rep_new; lia|done]. Defined.

Lemma truncated_entry_applied_witness :
  let sm := (apply_log (KvStateMachine_new 0 3) example_log).1 in
  kv_ApplyLogEntry sm (mkLogEntry 1 7 (resp_prefix 3 [str "DEL"; str "b"])) =
    apply_args sm [str "DEL"; str "b"] ∧
  ar_affected_rows (apply_args sm [str "DEL"; str "b"]).2 = 1.
Proof.
  split; [|by vm_compute]. apply (truncated_entry_applied _ 1 7 [str "DEL"; str "b"]); [done|by vm_compute].
Defined.
End examples.
