(* ===== verification/ServerSnapshot.v ===== *)
(** * The snapshot file of the classic mode

    src/server/persistence/snapshot_manager.cc (the file format) and
    [CreateSnapshot] and [LoadSnapshot] of src/server/service/main_service.cc.
    Theorems: the decoder accepts exactly the files that the encoder writes, and
    a server that loads the snapshot of another one, with any number of shards
    on either side, holds the same entries. *)

From S2P Require Import Prelude Absl RaftTypes StateMachine DbSlice KvStateMachine.

(** A snapshot entry: the key, and the value with its expiry time. *)
Abbreviation SnapshotEntry := (bytes * PrimeValue)%type.

(** ** The format *)

Definition WriteU32 (v : Z) : bytes := le_bytes 4 (u32 v).
Definition WriteU64 (v : Z) : bytes := le_bytes 8 v.

Definition encode_entry (e : SnapshotEntry) : bytes :=
  WriteU32 (zlen e.1) ++ e.1 ++ WriteU32 (zlen (pv_value e.2)) ++ pv_value e.2 ++ WriteU64 (pv_expire_ms e.2).

Definition SnapshotEncoder_Encode (entries : list SnapshotEntry) : bytes :=
  WriteU32 (zlen entries) ++ concat (map encode_entry entries).

(** The readers take the bytes from [pos] to [end] and return the rest. *)
Definition ReadU32 (s : bytes) : option (Z * bytes) := read_uint 4 s.
Definition ReadU64 (s : bytes) : option (Z * bytes) := read_uint 8 s.

Definition ReadString (s : bytes) : option (bytes * bytes) :=
  '(len, s) ← ReadU32 s; read_bytes len s.

Definition decode_entry (s : bytes) : option (SnapshotEntry * bytes) :=
  '(key, s) ← ReadString s;
  '(value, s) ← ReadString s;
  '(expire_ms, s) ← ReadU64 s;
  Some ((key, mkPrimeValue value expire_ms), s).

Fixpoint decode_entries (n : nat) (s : bytes) : option (list SnapshotEntry * bytes) :=
  match n with
  | O => Some ([], s)
  | S n =>
      '(e, s) ← decode_entry s;
      '(es, s) ← decode_entries n s;
      Some (e :: es, s)
  end.

Definition SnapshotDecoder_Decode (s : bytes) : option (list SnapshotEntry) :=
  '(num_entries, s) ← ReadU32 s;
  '(entries, s) ← decode_entries (Z.to_nat num_entries) s;
  if bool_decide (s = []) then Some entries else None.

(** [SnapshotManager::Load] of a file with this content. *)
Definition SnapshotManager_Load (file : option bytes) : option (list SnapshotEntry) :=
  match file with
  | None => None
  | Some content => if zlen content <=? 0 then None else SnapshotDecoder_Decode content
  end.

Section codec.
Implicit Types (s rest : bytes) (entries : list SnapshotEntry).

Definition entries_ok entries : Prop :=
  zlen entries ≤ U32_MAX ∧ Forall (λ e, record_ok e.1 e.2) entries.

#[local] Ltac width :=
  change (256 ^ Z.of_nat 4) with 4294967296; change (256 ^ Z.of_nat 8) with 18446744073709551616;
  unfold U32_MAX, U64_MAX in *; lia.

Lemma ReadString_app b rest : zlen b ≤ U32_MAX → ReadString (WriteU32 (zlen b) ++ b ++ rest) = Some (b, rest).
Proof.
  intros Hb. pose proof (zlen_nonneg b). unfold ReadString, ReadU32, WriteU32. rewrite u32_small by lia.
  rewrite read_uint_app by width. apply read_bytes_app.
Qed.

Lemma decode_entry_app e rest :
  record_ok e.1 e.2 → decode_entry (encode_entry e ++ rest) = Some (e, rest).
Proof.
  destruct e as [key [value ex]]. intros (Hk & Hv & He). unfold decode_entry, encode_entry.
  cbn [fst snd pv_value pv_expire_ms] in *.
  rewrite <-!app_assoc. rewrite ReadString_app by done. cbn [mbind option_bind].
  rewrite ReadString_app by done. cbn [mbind option_bind].
  unfold ReadU64, WriteU64. by rewrite read_uint_app by width.
Qed.

Lemma decode_entries_app entries rest :
  Forall (λ e, record_ok e.1 e.2) entries →
  decode_entries (length entries) (concat (map encode_entry entries) ++ rest) = Some (entries, rest).
Proof.
  induction 1 as [|e entries He _ IH]; [done|]. cbn [length map concat decode_entries].
  rewrite <-app_assoc, decode_entry_app by done. cbn [mbind option_bind]. by rewrite IH.
Qed.

Lemma Decode_Encode entries :
  entries_ok entries → SnapshotDecoder_Decode (SnapshotEncoder_Encode entries) = Some entries.
Proof.
  intros [Hn Hok]. pose proof (zlen_nonneg entries). unfold SnapshotDecoder_Decode, SnapshotEncoder_Encode, ReadU32, WriteU32.
  rewrite u32_small by lia. rewrite read_uint_app by width. cbn [mbind option_bind].
  rewrite to_nat_zlen, <-(app_nil_r (concat _)), decode_entries_app by done. done.
Qed.

(** ** What the decoder accepts *)

Lemma le_bytes_val s : is_bytes s → le_bytes (length s) (le_val s) = s ∧ 0 ≤ le_val s < 256 ^ zlen s.
Proof.
  induction 1 as [|c s Hc _ [IH1 IH2]]; [done|]. cbn [length le_bytes le_val]. rewrite zlen_cons, Z.pow_add_r by (unfold zlen; lia).
  rewrite (Z.mul_comm 256), Z.mod_add, Z.mod_small, Z.div_add, (Z.div_small c 256) by lia.
  rewrite Z.add_0_l, IH1. split; [done|]. lia.
Qed.

Lemma read_uint_inv n s v rest :
  is_bytes s → read_uint n s = Some (v, rest) →
  s = le_bytes n v ++ rest ∧ 0 ≤ v < 256 ^ Z.of_nat n ∧ is_bytes rest.
Proof.
  intros Hs. unfold read_uint. destruct (Nat.ltb_spec (length s) n); [done|]. intros E. injection E as <- <-.
  pose proof Hs as Hs'. rewrite <-(take_drop n s) in Hs'. apply Forall_app in Hs' as [Ht Hd].
  destruct (le_bytes_val _ Ht) as [E1 E2]. unfold zlen in E2. rewrite length_take_le in E1, E2 by lia.
  split; [by rewrite E1, take_drop|done].
Qed.

Lemma ReadString_inv s b rest :
  is_bytes s → ReadString s = Some (b, rest) →
  s = WriteU32 (zlen b) ++ b ++ rest ∧ zlen b ≤ U32_MAX ∧ is_bytes rest.
Proof.
  intros Hs. unfold ReadString, ReadU32. destruct (read_uint 4 s) as [[len s1]|] eqn:E; [|done].
  cbn [mbind option_bind]. apply read_uint_inv in E as (-> & Hlen & Hs1); [|done].
  change (256 ^ Z.of_nat 4) with 4294967296 in Hlen.
  unfold read_bytes. destruct (Z.ltb_spec (zlen s1) len); [done|]. intros E. injection E as <- <-.
  assert (zlen (take (Z.to_nat len) s1) = len) as El by (apply zlen_take; lia). rewrite El.
  unfold WriteU32. rewrite u32_small by width. rewrite take_drop. split; [done|]. split; [width|].
  rewrite <-(take_drop (Z.to_nat len) s1) in Hs1. by apply Forall_app in Hs1 as [_ ?].
Qed.

Lemma decode_entry_inv s e rest :
  is_bytes s → decode_entry s = Some (e, rest) →
  s = encode_entry e ++ rest ∧ record_ok e.1 e.2 ∧ is_bytes rest.
Proof.
  intros Hs. unfold decode_entry. destruct (ReadString s) as [[k s1]|] eqn:E1; [|done].
  apply ReadString_inv in E1 as (-> & Hk & Hs1); [|done]. cbn [mbind option_bind].
  destruct (ReadString s1) as [[v s2]|] eqn:E2; [|done].
  apply ReadString_inv in E2 as (-> & Hv & Hs2); [|done]. cbn [mbind option_bind].
  unfold ReadU64. destruct (read_uint 8 s2) as [[ex s3]|] eqn:E3; [|done].
  apply read_uint_inv in E3 as (-> & Hex & Hs3); [|done]. cbn [mbind option_bind]. intros E. injection E as <- <-.
  change (256 ^ Z.of_nat 8) with 18446744073709551616 in Hex.
  unfold encode_entry, WriteU64. cbn [fst snd pv_value pv_expire_ms]. rewrite <-!app_assoc. split; [done|]. split; [|done].
  split; [done|]. split; [done|]. simpl. width.
Qed.

Lemma decode_entries_inv n : ∀ s es rest,
  is_bytes s → decode_entries n s = Some (es, rest) →
  s = concat (map encode_entry es) ++ rest ∧ Forall (λ e, record_ok e.1 e.2) es ∧ length es = n.
Proof.
  induction n as [|n IH]; intros s es rest Hs; cbn [decode_entries].
  - intros E. injection E as <- <-. split_and!; [done|constructor|done].
  - destruct (decode_entry s) as [[e s1]|] eqn:E1; [|done]. cbn [mbind option_bind].
    apply decode_entry_inv in E1 as (-> & He & Hs1); [|done].
    destruct (decode_entries n s1) as [[es1 s2]|] eqn:E2; [|done]. cbn [mbind option_bind].
    apply IH in E2 as (-> & Hes & Hn); [|done]. intros E. injection E as <- <-. cbn [map concat].
    rewrite <-app_assoc. split_and!; [done|by constructor|simpl; lia].
Qed.

(** The decoder accepts exactly what the encoder writes: a file is decoded
    into [entries] if and only if it is the encoding of [entries], so a file
    that is truncated, has bytes left over, or has a wrong length is rejected. *)
Theorem snapshot_codec s entries :
  is_bytes s →
  SnapshotDecoder_Decode s = Some entries ↔ s = SnapshotEncoder_Encode entries ∧ entries_ok entries.
Proof.
  intros Hs. split; [|intros [-> Hok]; by apply Decode_Encode].
  unfold SnapshotDecoder_Decode, ReadU32. destruct (read_uint 4 s) as [[n s1]|] eqn:E; [|done].
  apply read_uint_inv in E as (-> & Hn & Hs1); [|done]. cbn [mbind option_bind].
  change (256 ^ Z.of_nat 4) with 4294967296 in Hn.
  destruct (decode_entries (Z.to_nat n) s1) as [[es s2]|] eqn:E; [|done]. cbn [mbind option_bind].
  apply decode_entries_inv in E as (-> & Hes & Hlen); [|done]. case_bool_decide; [|done]. subst s2.
  intros E. injection E as ->. assert (zlen entries = n) as <- by (unfold zlen; lia).
  unfold SnapshotEncoder_Encode, WriteU32. rewrite u32_small by width. rewrite app_nil_r.
  split; [done|]. split; [width|done].
Qed.
End codec.

(** ** Saving and loading a server *)

Section server.
Context {lib : KvLib}.
Implicit Types sm : KvStateMachine.

(** [CreateSnapshot]: what is written to snapshot.bin. *)
Definition CreateSnapshot sm : bytes := SnapshotEncoder_Encode (concat (map Export (kv_shards sm))).

(** [shard_entries[sid]]. *)
Definition shard_entries sm (entries : list SnapshotEntry) (sid : nat) : list SnapshotEntry :=
  filter (λ e, kv_Shard sm e.1 = sid) entries.

(** [LoadSnapshot] with the given content of snapshot.bin. *)
Definition Service_LoadSnapshot sm (file : option bytes) : KvStateMachine :=
  match SnapshotManager_Load file with
  | None => sm
  | Some entries =>
      sm <| kv_shards ::= imap (λ sid d,
              let es := shard_entries sm entries sid in
              if bool_decide (es = []) then d else Import (kv_now sm) d es) |>
  end.

(** Importing into a shard is inserting into its table. *)
Lemma Import_single now d t es :
  ds_db_arr d = [Some t] →
  ds_db_arr (Import now d es) = [Some (fold_left (λ t e, <[e.1 := e.2]> t) es t)].
Proof.
  revert d t. induction es as [|[key v] es IH]; intros d t Hd; [done|]. unfold Import. cbn [fold_left fst snd].
  destruct (AddOrFind_single now d t key Hd) as [H1 _]. destruct (AddOrFind now d 0 key) as [d1 ins].
  cbn [fst] in H1. apply IH. pose proof (set_value_single d1 t key (pv_value v) _ H1) as H2.
  destruct (single_table _ _ H2) as (Em & _ & Et). unfold set_expire_ms. rewrite Et, Em. do 2 f_equal.
  apply map_eq. intros k. destruct (decide (k = key)) as [->|].
  - rewrite lookup_alter_eq, !lookup_insert_eq. simpl. by destruct v.
  - by rewrite lookup_alter_ne, !lookup_insert_ne.
Qed.

Definition entry_map (es : list SnapshotEntry) : MainTable := list_to_map es.

Lemma fold_insert_lookup (es : list SnapshotEntry) : ∀ (t : MainTable) k,
  fold_left (λ t e, <[e.1 := e.2]> t) es t !! k =
    match entry_map (reverse es) !! k with Some v => Some v | None => t !! k end.
Proof.
  induction es as [|[key v] es IH]; intros t k; [done|]. cbn [fold_left fst snd]. rewrite IH, reverse_cons. unfold entry_map at 2. rewrite list_to_map_app, lookup_union. fold (entry_map (reverse es)).
  destruct (decide (k = key)) as [->|].
  - change (list_to_map [(key, v)] : MainTable) with (<[key := v]> (∅ : MainTable)). rewrite !lookup_insert_eq.
    by destruct (entry_map (reverse es) !! key).
  - change (list_to_map [(key, v)] : MainTable) with (<[key := v]> (∅ : MainTable)).
    rewrite !lookup_insert_ne, lookup_empty by done.
    by destruct (entry_map (reverse es) !! k).
Qed.

Lemma option_union_match {A} (o1 o2 : option A) :
  match o1 with Some v => Some v | None => o2 end = o1 ∪ o2.
Proof. by destruct o1, o2. Qed.

(** The entries of one shard, as a map. *)
Lemma shard_entries_lookup sm (entries : list SnapshotEntry) i k :
  NoDup entries.*1 →
  entry_map (reverse (shard_entries sm entries i)) !! k =
    if decide (kv_Shard sm k = i) then entry_map entries !! k else None.
Proof.
  intros Hnd. assert (NoDup (reverse (shard_entries sm entries i)).*1) as Hnd'.
  { rewrite reverse_Permutation. eapply sublist_NoDup; [exact Hnd|].
    apply fmap_sublist, sublist_filter. }
  apply option_eq. intros v. unfold entry_map. rewrite <-elem_of_list_to_map by done.
  rewrite (reverse_Permutation (shard_entries sm entries i)). unfold shard_entries. rewrite list_elem_of_filter. cbn [fst]. case_decide as Hk.
  - rewrite <-elem_of_list_to_map by done. tauto.
  - split; [by intros []|done].
Qed.

Lemma load_entries_rep sm f entries file :
  kv_rep sm f → NoDup entries.*1 → SnapshotManager_Load file = Some entries →
  kv_rep (Service_LoadSnapshot sm file) (f <| fl_map ::= λ m, entry_map entries ∪ m |>).
Proof.
  intros [Hwf Hnow Hl] Hnd Hfile. unfold Service_LoadSnapshot. rewrite Hfile.
  set (g := λ sid d, let es := shard_entries sm entries sid in
             if bool_decide (es = []) then d else Import (kv_now sm) d es).
  set (sm' := sm <| kv_shards ::= imap g |>).
  assert (∀ key, kv_Shard sm' key = kv_Shard sm key) as Hsh.
  { intros key. unfold kv_Shard, zlen. simpl. by rewrite length_imap. }
  assert (∀ i d, kv_shards sm' !! i = Some d → ∃ d0 t, kv_shards sm !! i = Some d0 ∧ ds_db_arr d0 = [Some t] ∧
            ds_db_arr d = [Some (fold_left (λ t e, <[e.1 := e.2]> t) (shard_entries sm entries i) t)]) as Hg.
  { intros i d Hd. simpl in Hd. rewrite list_lookup_imap in Hd. apply fmap_Some in Hd as (d0 & Hd0 & ->).
    destruct (kv_valid sm Hwf i d0 Hd0) as [t Ht]. exists d0, t. split_and!; [done..|]. unfold g.
    case_bool_decide as He; [by rewrite He|by apply Import_single]. }
  assert (∀ i d k, kv_shards sm' !! i = Some d → main_table d 0 !! k =
            if decide (kv_Shard sm k = i) then (entry_map entries ∪ fl_map f) !! k else None) as Ht.
  { intros i d k Hd. destruct (Hg i d Hd) as (d0 & t & Hd0 & Ht0 & Hd'). destruct (single_table _ _ Hd') as (-> & _).
    destruct (single_table _ _ Ht0) as (Em0 & _).
    rewrite fold_insert_lookup, shard_entries_lookup by done. case_decide as Hk.
    - rewrite lookup_union, <-Hl. unfold kv_lookup. rewrite Hk, Hd0. cbn [mbind option_bind]. rewrite Em0.
      apply option_union_match.
    - destruct (t !! k) eqn:E; [|done]. exfalso. apply Hk, (kv_home sm Hwf i d0); [done|]. rewrite Em0. eauto. }
  split; [split|done|].
  - simpl. pose proof (kv_nonempty sm Hwf). destruct (kv_shards sm); done.
  - intros i d Hd. destruct (Hg i d Hd) as (d0 & t & _ & _ & ->). eauto.
  - intros i d key Hd. rewrite (Ht i d key Hd), Hsh. case_decide; [done|]. by intros [].
  - intros key. unfold kv_lookup. rewrite Hsh.
    assert (is_Some (kv_shards sm' !! kv_Shard sm key)) as [d Hd].
    { simpl. rewrite list_lookup_imap. destruct (kv_Shard_lookup sm key Hwf) as [d ->]. eauto. }
    rewrite Hd. simpl. rewrite (Ht _ d key Hd), decide_True by done. done.
Qed.

(** C34. The classic snapshot restores the whole store: loaded into an empty
    server with any number of shards, the file that [CreateSnapshot] writes
    gives back every entry with its value and expiry time. *)
Theorem server_snapshot_roundtrip sm f now (n : nat) :
  kv_rep sm f → map_Forall record_ok (fl_map f) → Z.of_nat (size (fl_map f)) ≤ U32_MAX → (0 < n)%nat →
  kv_rep (Service_LoadSnapshot (KvStateMachine_new now n) (Some (CreateSnapshot sm))) (mkFlatStore now (fl_map f)).
Proof.
  intros H Hok Hsize Hn. pose proof (NoDup_all_keys sm f H) as Hnd.
  assert (entries_ok (all_entries sm)) as Heo.
  { split; [unfold zlen; by rewrite (all_entries_perm sm f H), length_map_to_list|].
    apply Forall_forall. intros [k v] Hin%(elem_of_all_entries sm f k v H). by apply Hok. }
  replace (fl_map f) with (entry_map (all_entries sm) ∪ (∅ : MainTable)).
  - apply (load_entries_rep _ (mkFlatStore now ∅)); [by apply kv_rep_new|done|].
    unfold SnapshotManager_Load. change (CreateSnapshot sm) with (SnapshotEncoder_Encode (all_entries sm)).
    rewrite (proj2 (Z.leb_gt _ 0)); [by apply Decode_Encode|].
    unfold SnapshotEncoder_Encode, WriteU32. rewrite zlen_app, zlen_le_bytes.
    pose proof (zlen_nonneg (concat (map encode_entry (all_entries sm)))). lia.
  - rewrite (right_id_L ∅ (∪)). apply map_eq. intros k. apply option_eq. intros v. unfold entry_map.
    rewrite <-elem_of_list_to_map by done. by apply elem_of_all_entries.
Qed.
End server.

(** ** Examples *)

Section examples.
#[local] Existing Instance example_lib.

Lemma snapshot_codec_witness :
  let e := [(str "k", mkPrimeValue (str "v") 7)] in
  SnapshotDecoder_Decode (SnapshotEncoder_Encode e) = Some e.
Proof.
  intros e. apply snapshot_codec; [by_decide|]. split; [done|]. split; [by_compute|]. repeat constructor; by_compute.
Defined.

Lemma server_snapshot_roundtrip_witness :
  kv_rep (Service_LoadSnapshot (KvStateMachine_new 1000 2)
            (Some (CreateSnapshot (apply_log (KvStateMachine_new 0 3) example_log).1)))
         (mkFlatStore 1000 (fl_map (apply_log (mkFlatStore 0 ∅) example_log).1)).
Proof.
  apply server_snapshot_roundtrip; [|by_decide|by vm_compute|lia]. apply apply_log_rep, kv_rep_new. lia.
Defined.
End examples.
