(* ===== verification/RaftNode.v ===== *)
(** * The consensus node (src/server/raft/raft_node.h, raft_node.cc)

    The state of [RaftNode] and the operations that run under its mutex: role
    transitions, elections, and the handlers of the RPCs.  An operation that
    releases the mutex to send RPCs is split where it does, one definition per
    locked phase.  Leader-side replication is in Replication.v.

    The clock is an argument [now] ([NowMs()]), read once per locked phase.  The
    order in which an unordered set is visited is that of [elements].  The log,
    the state machine and the snapshot receiver are reached through pointers
    that may be null ([option]); the transport through [n_transport], which says
    whether one is set. *)

From S2P Require Import Prelude RaftTypes LogStorage StateMachine RaftStorage ApplyProgress ElectionTimer SnapshotTransfer CommandEncoder.

(** [n_aborted] records that an exception left a handler (a configuration entry
    whose numbers do not parse). *)
Record RaftNode (L SM : Type) : Type := mkRaftNode {
  n_leader_lease_expire : Z;
  n_lease_ms : Z;
  n_last_majority_ack_ms : Z;
  n_check_quorum_ms : Z;
  n_apply_meta_flush_interval_ms : Z;
  n_last_apply_meta_flush_ms : Z;
  n_next_read_index_request_id : Z;
  n_transfer_ctx : LeaderTransferContext;
  n_transfer_timeout_ms : Z;
  n_group_id : Z;
  n_joint_config : JointConfig;
  n_cluster_config : ClusterConfig;
  n_config_state : ConfigState;
  n_joint_entry_index : Z;
  n_joint_finalize_appended : bool;
  n_storage : RaftStorage;
  n_apply_progress : ApplyProgress;
  n_node_id : NodeId;
  n_role : RaftRole;
  n_leader_term : Z;
  n_vote_count : Z;
  n_old_config_votes : Z;
  n_new_config_votes : Z;
  n_transport : bool;
  n_log_storage : option L;
  n_state_machine : option SM;
  n_snapshot_receiver : option SnapshotReceiver;
  n_commit_index : Z;
  n_last_applied : Z;
  n_last_snapshot_index : Z;
  n_last_snapshot_term : Z;
  n_last_peer_ids : list NodeId;
  n_peer_next_index : list Z;
  n_peer_last_log_index : list Z;
  n_peer_hb_ok : list bool;
  n_shutdown : bool;
  n_heartbeat_stop : bool;
  n_heartbeat_epoch : Z;
  n_heartbeat_interval_ms : Z;
  n_election_timer : ElectionTimer;
  n_election_started : bool;
  n_aborted : bool
}.
Arguments mkRaftNode {L SM}.
Arguments n_leader_lease_expire {L SM}.
Arguments n_lease_ms {L SM}.
Arguments n_last_majority_ack_ms {L SM}.
Arguments n_check_quorum_ms {L SM}.
Arguments n_apply_meta_flush_interval_ms {L SM}.
Arguments n_last_apply_meta_flush_ms {L SM}.
Arguments n_next_read_index_request_id {L SM}.
Arguments n_transfer_ctx {L SM}.
Arguments n_transfer_timeout_ms {L SM}.
Arguments n_group_id {L SM}.
Arguments n_joint_config {L SM}.
Arguments n_cluster_config {L SM}.
Arguments n_config_state {L SM}.
Arguments n_joint_entry_index {L SM}.
Arguments n_joint_finalize_appended {L SM}.
Arguments n_storage {L SM}.
Arguments n_apply_progress {L SM}.
Arguments n_node_id {L SM}.
Arguments n_role {L SM}.
Arguments n_leader_term {L SM}.
Arguments n_vote_count {L SM}.
Arguments n_old_config_votes {L SM}.
Arguments n_new_config_votes {L SM}.
Arguments n_transport {L SM}.
Arguments n_log_storage {L SM}.
Arguments n_state_machine {L SM}.
Arguments n_snapshot_receiver {L SM}.
Arguments n_commit_index {L SM}.
Arguments n_last_applied {L SM}.
Arguments n_last_snapshot_index {L SM}.
Arguments n_last_snapshot_term {L SM}.
Arguments n_last_peer_ids {L SM}.
Arguments n_peer_next_index {L SM}.
Arguments n_peer_last_log_index {L SM}.
Arguments n_peer_hb_ok {L SM}.
Arguments n_shutdown {L SM}.
Arguments n_heartbeat_stop {L SM}.
Arguments n_heartbeat_epoch {L SM}.
Arguments n_heartbeat_interval_ms {L SM}.
Arguments n_election_timer {L SM}.
Arguments n_election_started {L SM}.
Arguments n_aborted {L SM}.

#[export] Instance RaftNode_eta L SM : Eta (RaftNode L SM) := fun n =>
  mkRaftNode (n_leader_lease_expire n) (n_lease_ms n) (n_last_majority_ack_ms n) (n_check_quorum_ms n)
    (n_apply_meta_flush_interval_ms n) (n_last_apply_meta_flush_ms n) (n_next_read_index_request_id n) (n_transfer_ctx n)
    (n_transfer_timeout_ms n) (n_group_id n) (n_joint_config n) (n_cluster_config n)
    (n_config_state n) (n_joint_entry_index n) (n_joint_finalize_appended n) (n_storage n)
    (n_apply_progress n) (n_node_id n) (n_role n) (n_leader_term n)
    (n_vote_count n) (n_old_config_votes n) (n_new_config_votes n) (n_transport n)
    (n_log_storage n) (n_state_machine n) (n_snapshot_receiver n) (n_commit_index n)
    (n_last_applied n) (n_last_snapshot_index n) (n_last_snapshot_term n) (n_last_peer_ids n)
    (n_peer_next_index n) (n_peer_last_log_index n) (n_peer_hb_ok n) (n_shutdown n)
    (n_heartbeat_stop n) (n_heartbeat_epoch n) (n_heartbeat_interval_ms n) (n_election_timer n)
    (n_election_started n) (n_aborted n).

(** [RaftNode(node_id)] with the default member initializers. *)
Definition RaftNode_new {L SM} (node_id : NodeId) : RaftNode L SM :=
  mkRaftNode 0 100 0 600 0 0 0 (mkLeaderTransferContext [] kNone 0)
    3000 0 default_JointConfig default_ClusterConfig kStable 0 false (RaftStorage_new [] [])
    (mkApplyProgress [] 0 []) node_id Follower 0 0 0 0 false
    None None None 0 0 0 0 []
    [] [] [] false true 0 50 ElectionTimer_new
    false false.

Section node.
Context {L SM : Type} `{!LogStorage L, !StateMachine SM}.
Implicit Types n : RaftNode L SM.

Definition kMaxAppendBatch : Z := 128.

Definition n_term n : Z := rs_current_term (n_storage n).
Definition n_voted_for n : NodeId := rs_voted_for (n_storage n).

(** [log_storage_ ? log_storage_->LastIndex() : 0], and the same for the term. *)
Definition log_last_index n : Z := match n_log_storage n with Some l => LastIndex l | None => 0 end.
Definition log_last_term n : Z := match n_log_storage n with Some l => LastTerm l | None => 0 end.

Definition voters_size (c : ClusterConfig) : Z := Z.of_nat (size (cc_voters c)).

Definition GetPeerIdsLocked n : list NodeId :=
  match n_config_state n with
  | kJoint =>
      elements ((cc_voters (jc_old_config (n_joint_config n)) ∪
                 cc_voters (jc_new_config (n_joint_config n))) ∖ {[ n_node_id n ]})
  | kStable => filter (λ v, v ≠ n_node_id n) (elements (cc_voters (n_cluster_config n)))
  end.

(** ** Role transitions *)

Definition CancelTransferLocked n : RaftNode L SM :=
  if IsActive (n_transfer_ctx n) then n <| n_transfer_ctx ::= transfer_Reset |> else n.

Definition StopHeartbeat n : RaftNode L SM := n <| n_heartbeat_stop := true |>.

Definition StartHeartbeat n (interval_ms : Z) : RaftNode L SM :=
  n <| n_heartbeat_interval_ms := interval_ms |> <| n_heartbeat_stop := false |>
    <| n_heartbeat_epoch ::= fun e => u64 (e + 1) |>.

Definition SetRoleLocked n (new_role : RaftRole) : RaftNode L SM :=
  let n := n <| n_role := new_role |> in
  match new_role with
  | Follower =>
      let n := n <| n_leader_term := 0 |> <| n_vote_count := 0 |> in
      let n := CancelTransferLocked n in
      let n := if negb (n_shutdown n) then
                 let n := if negb (n_election_started n)
                          then n <| n_election_started := true |>
                                 <| n_election_timer ::= ElectionTimer_Start |>
                          else n in
                 n <| n_election_timer ::= ElectionTimer_Reset |>
               else n <| n_election_timer ::= ElectionTimer_Stop false |> in
      StopHeartbeat n
  | Candidate =>
      let n := n <| n_vote_count := 1 |> in
      let n := CancelTransferLocked n in
      let n := n <| n_election_timer ::= ElectionTimer_Deactivate |> in
      StopHeartbeat n
  | Leader =>
      let n := n <| n_leader_term := n_term n |> in
      let n := n <| n_election_timer ::= ElectionTimer_Deactivate |> in
      let n := CancelTransferLocked n in
      let n := StopHeartbeat n in
      if negb (n_shutdown n) then StartHeartbeat n (n_heartbeat_interval_ms n) else n
  end.

Definition BecomeFollowerLocked n (term : Z) : RaftNode L SM :=
  let n := if n_term n <? term then n <| n_storage ::= fun s => SetState s term [] |> else n in
  SetRoleLocked n Follower.

Definition BecomeCandidateNewTermLocked n : RaftNode L SM :=
  let n := n <| n_storage ::= fun s => SetState s (u64 (rs_current_term s + 1)) (n_node_id n) |> in
  SetRoleLocked n Candidate.

Definition BecomeCandidateLocked n : RaftNode L SM :=
  if bool_decide (n_role n = Candidate) then n
  else
    let n := n <| n_storage ::= fun s => SetState s (u64 (rs_current_term s + 1)) (n_node_id n) |> in
    SetRoleLocked n Candidate.

Definition BecomeLeaderInitPeersLocked n : RaftNode L SM :=
  let peers := GetPeerIdsLocked n in
  let n := n <| n_last_peer_ids := peers |>
             <| n_peer_next_index := replicate (length peers) 0 |>
             <| n_peer_last_log_index := replicate (length peers) 0 |> in
  match n_log_storage n with
  | Some l => n <| n_peer_next_index := replicate (length peers) (u64 (LastIndex l + 1)) |>
  | None => n
  end.

Definition BecomeLeaderLocked n (now : Z) : RaftNode L SM :=
  let n := SetRoleLocked n Leader in
  let n := BecomeLeaderInitPeersLocked n in
  n <| n_last_majority_ack_ms := now |>.

(** The public, test-facing [SetRole]: [Follower] also clears the vote. *)
Definition SetRole n (now : Z) (new_role : RaftRole) : RaftNode L SM :=
  if bool_decide (new_role = n_role n) then n
  else match new_role with
  | Follower =>
      let n := SetRoleLocked n Follower in
      n <| n_storage ::= fun s => SetState s (rs_current_term s) [] |>
  | Candidate => BecomeCandidateLocked n
  | Leader =>
      let n := if bool_decide (n_role n = Candidate) then n else BecomeCandidateLocked n in
      BecomeLeaderLocked n now
  end.

Definition BootstrapSingleNode n (now : Z) : RaftNode L SM * bool :=
  if bool_decide (n_role n = Leader) then (n, true)
  else if negb (bool_decide (GetPeerIdsLocked n = [])) then (n, false)
  else (BecomeLeaderLocked (BecomeCandidateLocked n) now, true).

Definition OnElectionTimeout n : RaftNode L SM :=
  if n_shutdown n then n
  else if negb (bool_decide (n_role n = Follower)) then n
  else BecomeCandidateLocked n.

Definition StepDownLocked n : RaftNode L SM :=
  if negb (bool_decide (n_role n = Leader)) then n else BecomeFollowerLocked n (n_term n).

(** [Shutdown], without the waits for fibers and in-flight RPCs. *)
Definition Shutdown n : RaftNode L SM :=
  let n := n <| n_shutdown := true |> <| n_transport := false |> in
  let n := StopHeartbeat n in
  n <| n_election_timer ::= ElectionTimer_Stop false |>.

(** ** Votes *)

Definition OnRequestVote n (request : VoteRequest) : RaftNode L SM * VoteResponse :=
  let cur_term := n_term n in
  if vreq_term request <? cur_term then
    (n, mkVoteResponse (n_group_id n) cur_term false)
  else
    let n := if cur_term <? vreq_term request then BecomeFollowerLocked n (vreq_term request) else n in
    let voted := n_voted_for n in
    if negb (bool_decide (voted = [])) && negb (bool_decide (voted = vreq_candidate_id request)) then
      (n, mkVoteResponse (n_group_id n) (n_term n) false)
    else
      let local_last_term := log_last_term n in
      let local_last_index := log_last_index n in
      if vreq_last_log_term request <? local_last_term then
        (n, mkVoteResponse (n_group_id n) (n_term n) false)
      else if (vreq_last_log_term request =? local_last_term) &&
              (vreq_last_log_index request <? local_last_index) then
        (n, mkVoteResponse (n_group_id n) (n_term n) false)
      else
        let n := n <| n_storage ::= fun s => set_voted_for s (vreq_candidate_id request) |> in
        (n, mkVoteResponse (n_group_id n) (n_term n) true).

(** ** Elections *)

(** [StartElection], phase 1: become candidate in a new term and capture the
    request and the peers; [None] when no election starts. *)
Definition StartElection_begin n : RaftNode L SM * option (VoteRequest * list NodeId) :=
  if n_shutdown n then (n, None)
  else
    let n := match n_role n with
             | Follower => BecomeCandidateLocked n
             | Candidate => BecomeCandidateNewTermLocked n
             | Leader => n
             end in
    if negb (bool_decide (n_role n = Candidate)) then (n, None)
    else (n, Some (mkVoteRequest (n_group_id n) (n_term n) (n_node_id n)
                     (log_last_index n) (log_last_term n), GetPeerIdsLocked n)).

(** The local variables of phase 2. *)
Record ElectionTally : Type := mkElectionTally {
  ev_votes_received : Z;
  ev_votes_rejected : Z;
  ev_granters : list NodeId;
  ev_max_peer_term : Z
}.
#[export] Instance ElectionTally_eta : Eta ElectionTally := fun t =>
  mkElectionTally (ev_votes_received t) (ev_votes_rejected t) (ev_granters t) (ev_max_peer_term t).

Definition tally_init (req : VoteRequest) : ElectionTally := mkElectionTally 1 0 [] (vreq_term req).

(** Phase 2, for one peer: the response is counted. *)
Definition tally_vote (t : ElectionTally) (peer : NodeId) (rsp : VoteResponse) : ElectionTally :=
  let t := if vrsp_vote_granted rsp
           then t <| ev_votes_received ::= fun v => u32 (v + 1) |> <| ev_granters ::= fun g => g ++ [peer] |>
           else t <| ev_votes_rejected ::= fun v => u32 (v + 1) |> in
  if ev_max_peer_term t <? vrsp_term rsp then t <| ev_max_peer_term := vrsp_term rsp |> else t.

Definition TryBecomeLeaderLocked n (now : Z) : RaftNode L SM :=
  match n_config_state n with
  | kJoint =>
      let old_total := voters_size (jc_old_config (n_joint_config n)) + 1 in
      let new_total := voters_size (jc_new_config (n_joint_config n)) + 1 in
      let old_majority := old_total / 2 + 1 in
      let new_majority := new_total / 2 + 1 in
      if (old_majority <=? n_old_config_votes n) && (new_majority <=? n_new_config_votes n)
      then BecomeLeaderLocked n now else n
  | kStable =>
      let total_nodes := voters_size (n_cluster_config n) + 1 in
      let majority := total_nodes / 2 + 1 in
      if majority <=? n_vote_count n then BecomeLeaderLocked n now else n
  end.

(** [TryBecomeLeader(result)]. *)
Definition TryBecomeLeader n (now votes_received : Z) : RaftNode L SM * bool :=
  let n := n <| n_vote_count := votes_received |> in
  let n := TryBecomeLeaderLocked n now in
  (n, bool_decide (n_role n = Leader)).

(** The votes a configuration starts with: this node's own. *)
Definition self_vote (c : ClusterConfig) (id : NodeId) : Z :=
  if bool_decide (cc_voters c = ∅) || bool_decide (id ∈ cc_voters c) then 1 else 0.

Definition count_votes (c : ClusterConfig) (id : NodeId) (granters : list NodeId) : Z :=
  fold_left (fun v g => if bool_decide (g ∈ cc_voters c) then u32 (v + 1) else v)
    granters (self_vote c id).

(** Phase 3: process the tally of the election that [req] opened. *)
Definition StartElection_finish n (now : Z) (req : VoteRequest) (t : ElectionTally) : RaftNode L SM :=
  if n_term n <? ev_max_peer_term t then BecomeFollowerLocked n (ev_max_peer_term t)
  else if negb (bool_decide (n_role n = Candidate)) || negb (n_term n =? vreq_term req) then n
  else
    let n := n <| n_vote_count := ev_votes_received t |> in
    let n := match n_config_state n with
             | kJoint =>
                 n <| n_old_config_votes :=
                      count_votes (jc_old_config (n_joint_config n)) (n_node_id n) (ev_granters t) |>
                   <| n_new_config_votes :=
                      count_votes (jc_new_config (n_joint_config n)) (n_node_id n) (ev_granters t) |>
             | kStable => n
             end in
    let n := TryBecomeLeaderLocked n now in
    if bool_decide (n_role n = Candidate) && negb (n_shutdown n) then SetRoleLocked n Follower else n.

(** [StartElection] when nothing else runs on the node meanwhile: [send] gives
    each peer's response. *)
Definition StartElection n (now : Z) (send : NodeId → VoteRequest → VoteResponse)
    : RaftNode L SM * option ElectionTally :=
  let '(n, started) := StartElection_begin n in
  match started with
  | None => (n, None)
  | Some (req, peers) =>
      let peers := if n_transport n then peers else [] in
      let t := fold_left (fun t p => tally_vote t p (send p req)) peers (tally_init req) in
      (StartElection_finish n now req t, Some t)
  end.
End node.

(** ** Applying committed entries *)

Section apply.
Context {L SM : Type} `{!LogStorage L, !StateMachine SM}.
Implicit Types n : RaftNode L SM.

Definition kConfigChange : bytes := str "CONFIG_CHANGE".

(** One entry of the loop body; [None] when deserializing a configuration entry
    throws.  The second component is [result]. *)
Definition apply_entry n (sm : SM) (entry : LogEntry) (result : ApplyResult)
    : option (RaftNode L SM * SM * ApplyResult) :=
  if bool_decide (kConfigChange `prefix_of` le_command entry) then
    target ← ConfigChange_Deserialize (le_command entry);
    let n := match n_config_state n with
             | kJoint =>
                 n <| n_cluster_config := target |> <| n_joint_config := default_JointConfig |>
                   <| n_joint_entry_index := 0 |> <| n_joint_finalize_appended := false |>
                   <| n_config_state := kStable |>
                   <| n_storage ::= fun s => SetJointConfigState s kStable default_JointConfig |>
             | kStable =>
                 let joint := mkJointConfig (n_cluster_config n) target in
                 n <| n_joint_config := joint |>
                   <| n_joint_entry_index := le_index entry |> <| n_joint_finalize_appended := false |>
                   <| n_config_state := kJoint |>
                   <| n_storage ::= fun s => SetJointConfigState s kJoint joint |>
             end in
    Some (n <| n_last_applied := le_index entry |>, sm, result)
  else
    let '(sm, result) := ApplyLogEntry sm entry in
    Some (n <| n_last_applied := le_index entry |>, sm, result).

Fixpoint apply_entries n (sm : SM) (entries : list LogEntry) (result : ApplyResult)
    : RaftNode L SM * SM * ApplyResult :=
  match entries with
  | [] => (n, sm, result)
  | e :: es =>
      match apply_entry n sm e result with
      | Some (n, sm, result) => apply_entries n sm es result
      | None => (n <| n_aborted := true |>, sm, result)
      end
  end.

(** The bookkeeping after each batch. *)
Definition flush_progress n (now : Z) : RaftNode L SM :=
  let n := n <| n_apply_progress ::= fun p => UpdateMemoryOnly p (n_last_applied n) |> in
  let interval := n_apply_meta_flush_interval_ms n in
  if (interval =? 0) || (interval <=? u64 (now - n_last_apply_meta_flush_ms n)) then
    let n := if 0 <? interval
             then n <| n_log_storage ::= fmap (fun l => (Flush l).1) |> else n in
    n <| n_apply_progress ::= ApplyProgress_Flush |> <| n_last_apply_meta_flush_ms := now |>
  else n.

Definition kApplyBatchSize : Z := 128.

(** The loop of [ApplyCommittedLogsLocked]. *)
Fixpoint apply_loop (fuel : nat) n (sm : SM) (now : Z) (result : ApplyResult)
    : RaftNode L SM * SM * ApplyResult :=
  match fuel with
  | O => (n, sm, result)
  | S fuel' =>
      match n_log_storage n with
      | None => (n, sm, result)
      | Some l =>
          if (n_last_applied n <? n_commit_index n) && (n_last_applied n <? LastIndex l) then
            let start := n_last_applied n + 1 in
            let limit := Z.min kApplyBatchSize (n_commit_index n - n_last_applied n) in
            match GetRange l start limit with
            | [] => (n, sm, result)
            | entries =>
                let '(n, sm, result) := apply_entries n sm entries result in
                if n_aborted n then (n, sm, result)
                else apply_loop fuel' (flush_progress n now) sm now result
            end
          else (n, sm, result)
      end
  end.

(** Every round applies at least one of the entries up to [commit_index_]. *)
Definition ApplyCommittedLogsLocked n (now : Z) : RaftNode L SM * ApplyResult :=
  match n_state_machine n, n_log_storage n with
  | Some sm, Some l =>
      let fuel := S (Z.to_nat (n_commit_index n - n_last_applied n)) in
      let '(n, sm, result) := apply_loop fuel n sm now default_ApplyResult in
      (n <| n_state_machine := Some sm |>, result)
  | _, _ => (n, default_ApplyResult)
  end.

Definition ReplayUnappliedLogs n (now : Z) : RaftNode L SM :=
  match n_log_storage n, n_state_machine n with
  | Some l, Some _ =>
      let last := LastIndex l in
      if last <=? n_last_applied n then n
      else if negb (bool_decide (n_role n = Leader)) && negb (bool_decide (GetPeerIdsLocked n = []))
      then n
      else (ApplyCommittedLogsLocked (n <| n_commit_index := last |>) now).1
  | _, _ => n
  end.

Definition ResetApplyProgress n (to : Z) : RaftNode L SM :=
  n <| n_last_applied := to |> <| n_apply_progress ::= fun p => ApplyProgress_Reset p to |>.

(** ** RPC handlers *)

Definition OnHeartbeat n (now : Z) (request : HeartbeatRequest) : RaftNode L SM * HeartbeatResponse :=
  let cur_term := n_term n in
  if hreq_term request <? cur_term then
    (n, mkHeartbeatResponse (n_group_id n) cur_term false (log_last_index n))
  else if (cur_term <? hreq_term request) || negb (bool_decide (n_role n = Leader)) then
    let n := BecomeFollowerLocked n (hreq_term request) in
    let n := n <| n_election_timer ::= ElectionTimer_Reset |> in
    let n := match n_log_storage n with
             | Some l =>
                 if n_commit_index n <? hreq_leader_commit request then
                   if LastIndex l <? hreq_leader_commit request then n
                   else (ApplyCommittedLogsLocked
                           (n <| n_commit_index := hreq_leader_commit request |>) now).1
                 else n
             | None => n
             end in
    (n, mkHeartbeatResponse (n_group_id n) (n_term n) true (log_last_index n))
  else
    let n := n <| n_election_timer ::= ElectionTimer_Reset |> in
    (n, mkHeartbeatResponse (n_group_id n) (n_term n) true (log_last_index n)).

(** [resp.group_id] keeps its default. *)
Definition OnReadIndex n (request : ReadIndexRequest) : ReadIndexResponse :=
  mkReadIndexResponse 0 (n_term n)
    ((n_term n <=? rreq_term request) && negb (bool_decide (n_role n = Candidate)))
    (n_commit_index n).

(** The locked part of [OnTimeoutNow]: the response, and whether [StartElection]
    runs before it is returned. *)
Definition OnTimeoutNow n (request : TimeoutNowRequest) : RaftNode L SM * TimeoutNowResponse * bool :=
  if treq_term request <? n_term n then
    (n, mkTimeoutNowResponse (n_group_id n) (n_term n) false, false)
  else
    let n := if n_term n <? treq_term request then BecomeFollowerLocked n (treq_term request) else n in
    (n, mkTimeoutNowResponse (n_group_id n) (treq_term request) true,
     negb (bool_decide (n_role n = Leader))).

(** The entry loop of [OnAppendEntries]; [false] when a gap stops it. *)
Fixpoint append_entries_loop (l : L) (entries : list LogEntry) : L * bool :=
  match entries with
  | [] => (l, true)
  | entry :: rest =>
      if le_index entry <=? LastIndex l then
        if match Get l (le_index entry) with
           | Some existing => le_term existing =? le_term entry
           | None => false
           end
        then append_entries_loop l rest
        else
          let l := TruncateFrom l (u64 (le_index entry - 1)) in
          append_entries_loop (Append l entry true).1 rest
      else if le_index entry =? u64 (LastIndex l + 1) then
        append_entries_loop (Append l entry true).1 rest
      else (l, false)
  end.

(** The log after the entry loop: a local tail beyond the last entry of the
    request is removed. *)
Definition truncate_tail (l : L) (entries : list LogEntry) : L :=
  match last entries with
  | Some e => if le_index e <? LastIndex l then TruncateFrom l (le_index e) else l
  | None => l
  end.

Definition OnAppendEntries n (now : Z) (req : AppendEntriesRequest)
    : RaftNode L SM * AppendEntriesResponse :=
  let cur_term := n_term n in
  if areq_term req <? cur_term then
    (n, mkAppendEntriesResponse (n_group_id n) cur_term false (log_last_index n))
  else
    let n := if cur_term <? areq_term req then BecomeFollowerLocked n (areq_term req)
             else if negb (bool_decide (n_role n = Leader))
             then n <| n_election_timer ::= ElectionTimer_Reset |> else n in
    match n_log_storage n with
    | None => (n, mkAppendEntriesResponse (n_group_id n) (n_term n) true 0)
    | Some l =>
        let my_last := LastIndex l in
        if my_last <? areq_prev_log_index req then
          (n, mkAppendEntriesResponse (n_group_id n) (n_term n) false my_last)
        else if (0 <? areq_prev_log_index req) &&
                negb (GetTerm l (areq_prev_log_index req) =? areq_prev_log_term req) then
          (n, mkAppendEntriesResponse (n_group_id n) (n_term n) false (areq_prev_log_index req - 1))
        else
          let '(l, ok) := append_entries_loop l (take (Z.to_nat kMaxAppendBatch) (areq_entries req)) in
          if negb ok then
            (n <| n_log_storage := Some l |>,
             mkAppendEntriesResponse (n_group_id n) (n_term n) false (LastIndex l))
          else
            let l := truncate_tail l (areq_entries req) in
            let my_last := LastIndex l in
            let n := n <| n_log_storage := Some l |> in
            let n := if n_commit_index n <? areq_leader_commit req
                     then (ApplyCommittedLogsLocked
                             (n <| n_commit_index := Z.min (areq_leader_commit req) my_last |>) now).1
                     else n in
            (n, mkAppendEntriesResponse (n_group_id n) (n_term n) true my_last)
    end.

(** The installation once the last chunk has been received. *)
Definition install_snapshot n (req : InstallSnapshotRequest) : RaftNode L SM :=
  let n := n <| n_last_applied := sreq_last_included_index req |>
             <| n_commit_index ::= Z.max (sreq_last_included_index req) |>
             <| n_last_snapshot_index := sreq_last_included_index req |>
             <| n_last_snapshot_term := sreq_last_included_term req |> in
  let n := n <| n_apply_progress ::= fun p => ApplyProgress_Update p (n_last_applied n) |> in
  n <| n_log_storage ::= fmap (fun l =>
         SetSnapshotAnchor (Clear l) (n_last_snapshot_index n) (n_last_snapshot_term n)) |>.

Definition OnInstallSnapshot n (req : InstallSnapshotRequest)
    : RaftNode L SM * InstallSnapshotResponse :=
  let cur_term := n_term n in
  if sreq_term req <? cur_term then
    (n, mkInstallSnapshotResponse (n_group_id n) cur_term false)
  else
    let n := if cur_term <? sreq_term req then BecomeFollowerLocked n (sreq_term req) else n in
    match n_snapshot_receiver n with
    | None => (n, mkInstallSnapshotResponse (n_group_id n) (n_term n) false)
    | Some r =>
        let '(r, rsp) := HandleChunk r req in
        let n := n <| n_snapshot_receiver := Some r |> in
        if srsp_success rsp && sreq_done req then
          match n_state_machine n with
          | Some sm =>
              let '(sm, ok) := LoadSnapshot sm (default [] (sr_bin r)) in
              let n := n <| n_state_machine := Some sm |> in
              if negb ok then (n, rsp <| srsp_success := false |>)
              else (install_snapshot n req, rsp)
          | None => (install_snapshot n req, rsp)
          end
        else (n, rsp)
    end.

(** ** Configuration *)

Definition SetClusterConfig n (config : ClusterConfig) : RaftNode L SM :=
  n <| n_cluster_config := config |>.

Definition AddPeer n (id : NodeId) : RaftNode L SM :=
  n <| n_cluster_config ::= fun c => c <| cc_voters ::= fun v => {[ id ]} ∪ v |> |>.

Definition RemovePeer n (id : NodeId) : RaftNode L SM * bool :=
  (n <| n_cluster_config ::= fun c => c <| cc_voters ::= fun v => v ∖ {[ id ]} |> |>,
   bool_decide (id ∈ cc_voters (n_cluster_config n))).

Definition config_entry n (target : ClusterConfig) : LogEntry :=
  mkLogEntry (n_term n) 0 (ConfigChange_Serialize target).

Definition BeginConfigChange n (target : ClusterConfig) : RaftNode L SM * bool :=
  match n_log_storage n with
  | None => (n, false)
  | Some l =>
      if negb (bool_decide (n_role n = Leader)) then (n, false)
      else match n_config_state n with
      | kJoint =>
          let new := jc_new_config (n_joint_config n) in
          if negb (bool_decide (cc_voters target = cc_voters new)) ||
             negb (bool_decide (cc_learners target = cc_learners new)) ||
             negb (cc_version target =? cc_version new)
          then (n, false)
          else
            let l := (Append l (config_entry n target) true).1 in
            (n <| n_log_storage := Some l |> <| n_joint_finalize_appended := true |>, true)
      | kStable =>
          let n := n <| n_joint_config := mkJointConfig (n_cluster_config n) target |> in
          let l := (Append l (config_entry n target) true).1 in
          (n <| n_log_storage := Some l |>, true)
      end
  end.

Definition MaybeAutoFinalizeJointLocked n : RaftNode L SM :=
  match n_log_storage n with
  | None => n
  | Some l =>
      if negb (bool_decide (n_config_state n = kJoint)) || negb (bool_decide (n_role n = Leader)) ||
         n_joint_finalize_appended n then n
      else if (n_joint_entry_index n =? 0) || (n_commit_index n <? n_joint_entry_index n) then n
      else if negb (GetTerm l (n_joint_entry_index n) =? n_term n) then n
      else
        let l := (Append l (config_entry n (jc_new_config (n_joint_config n))) true).1 in
        n <| n_log_storage := Some l |> <| n_joint_finalize_appended := true |>
  end.
End apply.
