(* ===== verification/Replication.v ===== *)
(** * Leader-side replication (src/server/raft/raft_node.cc)

    Heartbeats, log replication, commit advancement, linearizable reads, leader
    transfer and client submission.  As in RaftNode.v, an operation is split
    where it releases the mutex: [..._begin] and [..._finish] are its locked
    phases, and what it does between them is a function of the responses. *)

From S2P Require Import Prelude RaftTypes LogStorage StateMachine RaftStorage ApplyProgress ElectionTimer SnapshotTransfer CommandEncoder RaftNode.

Section replication.
Context {L SM : Type} `{!LogStorage L, !StateMachine SM}.
Implicit Types n : RaftNode L SM.

(** ** Peer progress *)

Definition ResizePeerArraysLocked n (k : nat) : RaftNode L SM :=
  let first := match n_log_storage n with Some l => u64 (LastIndex l + 1) | None => 1 end in
  n <| n_peer_next_index ::= fun a => map (fun x => if x =? 0 then first else x) (resize k 0 a) |>
    <| n_peer_last_log_index ::= resize k 0 |>
    <| n_peer_hb_ok ::= resize k true |>.

(** ** Commit index *)

(** [std::sort(indexes.rbegin(), indexes.rend())]: largest first. *)
Definition sort_desc (l : list Z) : list Z := merge_sort Z.ge l.

(** The index that a majority of [total] members has reached; [None] when there
    are fewer indices than a majority. *)
Definition majority_index (indexes : list Z) (total : Z) : option Z :=
  let majority := total / 2 + 1 in
  sort_desc indexes !! Z.to_nat (majority - 1).

(** The Figure 8 guard and the assignment shared by both variants. *)
Definition commit_candidate n (l : L) (candidate : Z) : RaftNode L SM :=
  if n_commit_index n <? candidate then
    let candidate_term := GetTerm l candidate in
    if negb (candidate_term =? 0) && (candidate_term <? n_term n) then n
    else n <| n_commit_index := candidate |>
  else n.

(** [calc_config_commit]. *)
Definition calc_config_commit n (l : L) (config : ClusterConfig) : Z :=
  let peers := zip (n_last_peer_ids n) (n_peer_last_log_index n) in
  let indexes := LastIndex l ::
    (filter (λ p : NodeId * Z, p.1 ∈ cc_voters config) peers).*2 in
  default 0 (majority_index indexes (voters_size config + 1)).

Definition AdvanceCommitIndexJointLocked n (l : L) : RaftNode L SM :=
  let old_commit := calc_config_commit n l (jc_old_config (n_joint_config n)) in
  let new_commit := calc_config_commit n l (jc_new_config (n_joint_config n)) in
  commit_candidate n l (Z.min old_commit new_commit).

Definition AdvanceCommitIndexLocked n : RaftNode L SM :=
  match n_log_storage n with
  | None => n
  | Some l =>
      match n_config_state n with
      | kJoint => AdvanceCommitIndexJointLocked n l
      | kStable =>
          let indexes := LastIndex l :: n_peer_last_log_index n in
          match majority_index indexes (voters_size (n_cluster_config n) + 1) with
          | None => n
          | Some candidate => commit_candidate n l candidate
          end
      end
  end.

Definition AdvanceCommitIndex n : RaftNode L SM :=
  if negb (bool_decide (n_role n = Leader)) then n else AdvanceCommitIndexLocked n.

(** ** Leader transfer *)

Definition IsTransferReadyLocked n (target : NodeId) : bool :=
  match n_log_storage n with
  | None => false
  | Some l =>
      match list_find (λ p : NodeId * Z, p.1 = target)
              (zip (n_last_peer_ids n) (n_peer_last_log_index n)) with
      | Some (_, (_, idx)) => LastIndex l <=? idx
      | None => false
      end
  end.

Definition CheckTransferTimeoutLocked n (now : Z) : RaftNode L SM :=
  if negb (IsActive (n_transfer_ctx n)) then n
  else if n_transfer_timeout_ms n <=? u64 (now - lt_start_ms (n_transfer_ctx n))
  then CancelTransferLocked n else n.

(** [SendTimeoutNowToTarget], before and after its RPC. *)
Definition SendTimeoutNow_begin n : option TimeoutNowRequest :=
  if negb (n_transport n) || bool_decide (lt_target (n_transfer_ctx n) = []) ||
     negb (bool_decide (n_role n = Leader))
  then None
  else Some (mkTimeoutNowRequest (n_group_id n) (n_term n) (n_node_id n)).

Definition SendTimeoutNow_finish n (resp : TimeoutNowResponse) : RaftNode L SM :=
  if negb (bool_decide (n_role n = Leader)) then n
  else if negb (trsp_accepted resp) then CancelTransferLocked n else n.

(** [StartTransfer], first locked phase. *)
Definition StartTransfer_begin n (now : Z) (target : NodeId) : RaftNode L SM * bool :=
  if negb (bool_decide (n_role n = Leader)) then (n, false)
  else if IsActive (n_transfer_ctx n) then (n, false)
  else if negb (bool_decide (target ∈ GetPeerIdsLocked n)) then (n, false)
  else (n <| n_transfer_ctx := mkLeaderTransferContext target kRequested now |>, true).

(** The phase after [ReplicateLog]: the result of [StartTransfer] and whether
    TimeoutNow is sent. *)
Definition StartTransfer_finish n (target : NodeId) : RaftNode L SM * bool * bool :=
  if negb (bool_decide (n_role n = Leader)) || negb (IsActive (n_transfer_ctx n)) then (n, false, false)
  else if IsTransferReadyLocked n target
  then (n <| n_transfer_ctx ::= fun c => c <| lt_state := kWaitingElection |> |>, true, true)
  else (n <| n_transfer_ctx ::= fun c => c <| lt_state := kWaitingCatchUp |> |>, true, false).

(** ** Heartbeats *)

Definition ExtendLeaderLeaseLocked n (now : Z) : RaftNode L SM :=
  n <| n_leader_lease_expire := u64 (now + n_lease_ms n) |>.

(** [HeartbeatTickImpl], phase 1; [None] stops the loop. *)
Definition HeartbeatTick_begin n (is_loop : bool) (epoch : Z) : option (HeartbeatRequest * list NodeId) :=
  if is_loop && negb (n_heartbeat_epoch n =? epoch) then None
  else if negb (bool_decide (n_role n = Leader)) then None
  else Some (mkHeartbeatRequest (n_group_id n) (n_term n) (n_node_id n) (n_commit_index n),
             GetPeerIdsLocked n).

(** The local variables of phase 2. *)
Record HeartbeatTally : Type := mkHeartbeatTally {
  ht_ack_count : Z;
  ht_max_peer_term : Z;
  ht_rsp_last_log : list (NodeId * Z)
}.
#[export] Instance HeartbeatTally_eta : Eta HeartbeatTally := fun t =>
  mkHeartbeatTally (ht_ack_count t) (ht_max_peer_term t) (ht_rsp_last_log t).

Definition hb_tally_init (req : HeartbeatRequest) : HeartbeatTally := mkHeartbeatTally 1 (hreq_term req) [].

Definition tally_heartbeat (req : HeartbeatRequest) (t : HeartbeatTally) (peer : NodeId)
    (rsp : HeartbeatResponse) : HeartbeatTally :=
  let t := if hrsp_success rsp && (hrsp_term rsp =? hreq_term req)
           then t <| ht_ack_count ::= Z.add 1 |>
                  <| ht_rsp_last_log ::= fun r => r ++ [(peer, hrsp_last_log_index rsp)] |>
           else t in
  if ht_max_peer_term t <? hrsp_term rsp then t <| ht_max_peer_term := hrsp_term rsp |> else t.

(** The ACK of one peer; the boolean is [need_replicate]. *)
Definition record_ack (my_last : Z) (acc : RaftNode L SM * bool) (ack : NodeId * Z) : RaftNode L SM * bool :=
  let '(n, need) := acc in
  match list_find (λ p, p = ack.1) (n_last_peer_ids n) with
  | None => (n, need)
  | Some (i, _) =>
      (n <| n_peer_hb_ok ::= <[i := true]> |> <| n_peer_last_log_index ::= <[i := ack.2]> |>,
       need || (ack.2 <? my_last))
  end.

Definition record_acks n (acks : list (NodeId * Z)) : RaftNode L SM * bool :=
  let peer_ids := GetPeerIdsLocked n in
  let n := ResizePeerArraysLocked n (length peer_ids) in
  let n := n <| n_last_peer_ids := peer_ids |> in
  let n := n <| n_peer_hb_ok ::= map (fun _ => false) |> in
  fold_left (record_ack (log_last_index n)) acks (n, false).

(** The number of ACKs the tick asks for. *)
Definition heartbeat_majority n : Z :=
  match n_config_state n with
  | kJoint =>
      let old_total := voters_size (jc_old_config (n_joint_config n)) + 1 in
      let new_total := voters_size (jc_new_config (n_joint_config n)) + 1 in
      Z.max (old_total / 2 + 1) (new_total / 2 + 1)
  | kStable => voters_size (n_cluster_config n) / 2 + 1
  end.

(** What the tick does after phase 3: stop the loop, send TimeoutNow, replicate. *)
Record TickResult : Type := mkTickResult {
  tr_stop : bool;
  tr_send_timeout_now : bool;
  tr_need_replicate : bool
}.

(** The leader transfer part of phase 3. *)
Definition tick_transfer n (now : Z) (need_replicate : bool) : RaftNode L SM * TickResult :=
  if IsActive (n_transfer_ctx n) then
    let n := CheckTransferTimeoutLocked n now in
    if bool_decide (lt_state (n_transfer_ctx n) = kWaitingCatchUp) && bool_decide (n_role n = Leader) then
      if IsTransferReadyLocked n (lt_target (n_transfer_ctx n))
      then (n <| n_transfer_ctx ::= fun c => c <| lt_state := kWaitingElection |> |>,
            mkTickResult false true need_replicate)
      else (n, mkTickResult false false true)
    else (n, mkTickResult false false need_replicate)
  else (n, mkTickResult false false need_replicate).

Definition HeartbeatTick_finish n (now : Z) (is_loop : bool) (epoch : Z) (t : HeartbeatTally)
    : RaftNode L SM * TickResult :=
  if is_loop && negb (n_heartbeat_epoch n =? epoch) then (n, mkTickResult true false false)
  else if negb (bool_decide (n_role n = Leader)) then (n, mkTickResult true false false)
  else if n_term n <? ht_max_peer_term t then
    (BecomeFollowerLocked n (ht_max_peer_term t), mkTickResult true false false)
  else
    let '(n, need_replicate) := record_acks n (ht_rsp_last_log t) in
    let n := AdvanceCommitIndexLocked n in
    if heartbeat_majority n <=? ht_ack_count t then
      let n := n <| n_last_majority_ack_ms := now |> in
      let n := ExtendLeaderLeaseLocked n now in
      tick_transfer n now need_replicate
    else if n_check_quorum_ms n <? u64 (now - n_last_majority_ack_ms n) then
      (StepDownLocked n, mkTickResult true false false)
    else tick_transfer n now need_replicate.

(** ** Linearizable reads *)

(** [ReadIndex], phase 1. *)
Inductive ReadIndexStart : Type :=
  | RINotLeader
  | RIFast (read_index : Z)
  | RISlow (req : ReadIndexRequest) (peers : list NodeId).

Definition ReadIndex_begin n (now : Z) : RaftNode L SM * ReadIndexStart :=
  if negb (bool_decide (n_role n = Leader)) then (n, RINotLeader)
  else if now <? n_leader_lease_expire n then (n, RIFast (n_commit_index n))
  else
    let n := n <| n_next_read_index_request_id ::= fun r => u64 (r + 1) |> in
    (n, RISlow (mkReadIndexRequest (n_group_id n) (n_term n) (n_node_id n)
                  (n_next_read_index_request_id n)) (GetPeerIdsLocked n)).

(** Phase 2, one response: the success count and the highest peer term. *)
Definition tally_read_index (req : ReadIndexRequest) (t : Z * Z) (rsp : ReadIndexResponse) : Z * Z :=
  let '(success_count, max_peer_term) := t in
  (if rrsp_success rsp && (rrsp_term rsp =? rreq_term req) then success_count + 1 else success_count,
   if max_peer_term <? rrsp_term rsp then rrsp_term rsp else max_peer_term).

(** Phase 3: the read index, 0 when leadership is not confirmed. *)
Definition ReadIndex_finish n (now : Z) (req : ReadIndexRequest) (t : Z * Z) : RaftNode L SM * Z :=
  let '(success_count, max_peer_term) := t in
  if n_term n <? max_peer_term then (BecomeFollowerLocked n max_peer_term, 0)
  else if negb (bool_decide (n_role n = Leader)) || negb (n_term n =? rreq_term req) then (n, 0)
  else
    let total := voters_size (n_cluster_config n) + 1 in
    let majority := total / 2 + 1 in
    if success_count <? majority then (n, 0)
    else
      let read_index := n_commit_index n in
      let n := n <| n_last_majority_ack_ms := now |> in
      (ExtendLeaderLeaseLocked n now, read_index).
(** One round of [WaitForApplied]: apply, and whether the target is reached. *)
Definition WaitForApplied_poll n (now target : Z) : RaftNode L SM * bool :=
  let '(n, _) := ApplyCommittedLogsLocked n now in (n, target <=? n_last_applied n).

(** ** Log replication *)

Record PeerReq : Type := mkPeerReq {
  pr_id : NodeId;
  pr_idx : nat;
  pr_next : Z;
  pr_prev : LogEntry;
  pr_need_snapshot : bool;
  pr_snapshot_index : Z;
  pr_snapshot_term : Z;
  pr_entries : list LogEntry
}.

Definition ShouldInstallSnapshot (next_index snapshot_index : Z) : bool :=
  (0 <? snapshot_index) && (next_index <=? snapshot_index).

(** [std::stable_sort] by "ACKed the last heartbeat": the healthy peers keep
    their order, then the others keep theirs. *)
Definition peer_order (hb_ok : list bool) (k : nat) : list nat :=
  let ok i := default false (hb_ok !! i) in
  filter (λ i, ok i = true) (seq 0 k) ++ filter (λ i, ok i = false) (seq 0 k).

Definition build_peer_req n (l : L) (peer_ids : list NodeId) (i : nat) : PeerReq :=
  let id := default [] (peer_ids !! i) in
  let next := default 0 (n_peer_next_index n !! i) in
  let next := if next <=? 1 then 1 else next in
  if ShouldInstallSnapshot next (n_last_snapshot_index n) then
    mkPeerReq id i next default_LogEntry true (n_last_snapshot_index n) (n_last_snapshot_term n) []
  else
    let prev := if 1 <? next then
                  match Get l (next - 1) with
                  | Some e => e
                  | None => mkLogEntry (GetTerm l (next - 1)) (next - 1) []
                  end
                else default_LogEntry in
    mkPeerReq id i next prev false 0 0 (GetRange l next kMaxAppendBatch).

(** The local variables that phase 1 of [ReplicateLog] captures. *)
Record Round : Type := mkRound {
  rd_current_term : Z;
  rd_majority : Z;
  rd_my_last : Z;
  rd_preq : list PeerReq
}.

Definition Replicate_begin n : RaftNode L SM * option Round :=
  match n_log_storage n with
  | None => (n, None)
  | Some l =>
      if negb (bool_decide (n_role n = Leader)) then (n, None)
      else
        let peer_ids := GetPeerIdsLocked n in
        let n := ResizePeerArraysLocked n (length peer_ids) in
        let n := n <| n_last_peer_ids := peer_ids |> in
        let order := peer_order (n_peer_hb_ok n) (length peer_ids) in
        (n, Some (mkRound (n_term n) (voters_size (n_cluster_config n) / 2 + 1) (LastIndex l)
                    (map (build_peer_req n l peer_ids) order)))
  end.

(** The round of a leader without peers. *)
Definition Replicate_single n (now : Z) : RaftNode L SM * ApplyResult :=
  if negb (bool_decide (n_role n = Leader)) then (n, default_ApplyResult)
  else ApplyCommittedLogsLocked (MaybeAutoFinalizeJointLocked (AdvanceCommitIndexLocked n)) now.

(** What phase 2 keeps of a peer: [rsp_attempted], [rsp_ok], [rsp_match],
    [rsp_term]. *)
Record PeerRsp : Type := mkPeerRsp {
  pp_attempted : bool;
  pp_ok : bool;
  pp_match : Z;
  pp_term : Z
}.

Definition skipped : PeerRsp := mkPeerRsp false false 0 0.

Definition append_request n (rd : Round) (r : PeerReq) : AppendEntriesRequest :=
  mkAppendEntriesRequest (n_group_id n) (rd_current_term rd) (n_node_id n)
    (le_index (pr_prev r)) (le_term (pr_prev r)) (pr_entries r) (n_commit_index n).

Definition append_outcome (r : PeerReq) (resp : AppendEntriesResponse) : PeerRsp :=
  let m := if arsp_success resp then le_index (pr_prev r) + zlen (pr_entries r) else 0 in
  let m := if negb (arsp_success resp) && (arsp_last_log_index resp <? pr_next r - 1)
           then arsp_last_log_index resp else m in
  mkPeerRsp true (arsp_success resp) m (arsp_term resp).

(** Phase 2.  [send] delivers AppendEntries, [send_snapshot] runs a
    [SnapshotSender]. *)
Fixpoint Replicate_send n (low_latency : bool) (rd : Round)
    (send : NodeId → AppendEntriesRequest → AppendEntriesResponse)
    (send_snapshot : NodeId → Z → Z → bool)
    (preq : list PeerReq) (successes : Z) : list PeerRsp :=
  match preq with
  | [] => []
  | r :: rest =>
      let stop := negb (n_transport n) || (low_latency && (rd_majority rd <=? successes)) in
      if stop then map (fun _ => skipped) preq
      else if negb low_latency &&
              (negb (default false (n_peer_hb_ok n !! pr_idx r)) || (rd_my_last rd <? pr_next r))
      then skipped :: Replicate_send n low_latency rd send send_snapshot rest successes
      else
        let rsp := if pr_need_snapshot r then
                     if send_snapshot (pr_id r) (pr_snapshot_index r) (pr_snapshot_term r)
                     then mkPeerRsp true true (pr_snapshot_index r) 0
                     else mkPeerRsp true false 0 0
                   else append_outcome r (send (pr_id r) (append_request n rd r)) in
        rsp :: Replicate_send n low_latency rd send send_snapshot rest
                 (if pp_ok rsp then successes + 1 else successes)
  end.

(** Phase 3, one peer; the boolean is [retry_needed]. *)
Definition process_rsp (acc : RaftNode L SM * bool) (rr : PeerReq * PeerRsp) : RaftNode L SM * bool :=
  let '(n, retry) := acc in
  let '(r, rsp) := rr in
  if negb (pp_attempted rsp) then (n, retry)
  else if pp_ok rsp then
    (n <| n_peer_last_log_index ::= <[pr_idx r := pp_match rsp]> |>
       <| n_peer_next_index ::= <[pr_idx r := u64 (pp_match rsp + 1)]> |>, retry)
  else
    let hint := u64 (pp_match rsp + 1) in
    let backoff := Z.min (u64 (default 0 (n_peer_next_index n !! pr_idx r) - 1)) hint in
    let backoff := if backoff <? 1 then 1 else backoff in
    let n := n <| n_peer_next_index ::= <[pr_idx r := backoff]> |> in
    let n := if backoff <=? n_last_snapshot_index n
             then n <| n_peer_last_log_index ::= <[pr_idx r := n_last_snapshot_index n]> |> else n in
    (n, true).

(** Phase 3.  [None] when [ReplicateLog] returns with the result of the round
    before; otherwise the new result and whether another round follows. *)
Definition Replicate_finish n (now : Z) (rd : Round) (rsps : list PeerRsp)
    : RaftNode L SM * option (ApplyResult * bool) :=
  let max_term := fold_left Z.max (map pp_term rsps) (rd_current_term rd) in
  if n_term n <? max_term then (BecomeFollowerLocked n max_term, None)
  else if negb (bool_decide (n_role n = Leader)) || negb (n_term n =? rd_current_term rd) then (n, None)
  else
    let '(n, retry) := fold_left process_rsp (zip (rd_preq rd) rsps) (n, false) in
    let n := MaybeAutoFinalizeJointLocked (AdvanceCommitIndexLocked n) in
    let '(n, result) := ApplyCommittedLogsLocked n now in
    (n, Some (result, retry)).

(** The rounds of [ReplicateLog] when nothing else runs on the node meanwhile. *)
Fixpoint Replicate_rounds (rounds : nat) n (now : Z) (low_latency : bool)
    (send : NodeId → AppendEntriesRequest → AppendEntriesResponse)
    (send_snapshot : NodeId → Z → Z → bool) (result : ApplyResult) : RaftNode L SM * ApplyResult :=
  match rounds with
  | O => (n, result)
  | S rounds' =>
      match Replicate_begin n with
      | (n, None) => (n, result)
      | (n, Some rd) =>
          if bool_decide (rd_preq rd = []) then Replicate_single n now
          else
            let rsps := Replicate_send n low_latency rd send send_snapshot (rd_preq rd) 1 in
            match Replicate_finish n now rd rsps with
            | (n, None) => (n, result)
            | (n, Some (result, retry)) =>
                if retry && negb (n_aborted n) then Replicate_rounds rounds' n now low_latency send send_snapshot result
                else (n, result)
            end
      end
  end.

Definition ReplicateLog n (now : Z) (low_latency : bool)
    (send : NodeId → AppendEntriesRequest → AppendEntriesResponse)
    (send_snapshot : NodeId → Z → Z → bool) : RaftNode L SM * ApplyResult :=
  Replicate_rounds 8 n now low_latency send send_snapshot default_ApplyResult.

(** ** Client submission *)

(** The locked part of [SubmitEntry]: the index the entry got, [None] when the
    submission is refused. *)
Definition SubmitEntry_append n (entry : LogEntry) : RaftNode L SM * option Z :=
  match n_log_storage n with
  | None => (n, None)
  | Some l =>
      if negb (bool_decide (n_role n = Leader)) then (n, None)
      else
        let entry := entry <| le_term := n_term n |> <| le_index := 0 |> in
        let l := (Append l entry false).1 in
        (n <| n_log_storage := Some l |>, Some (LastIndex l))
  end.

(** The rounds of [CoordinatorCommit]; the second component is
    [applied_snapshot].  An exception ends them, with [applied_snapshot = 0]. *)
Fixpoint coordinator_rounds (rounds : nat) n (now : Z)
    (send : NodeId → AppendEntriesRequest → AppendEntriesResponse)
    (send_snapshot : NodeId → Z → Z → bool) (batch : list Z) (applied : Z) : RaftNode L SM * Z :=
  match rounds with
  | O => (n, applied)
  | S rounds' =>
      let '(n, _) := ReplicateLog n now true send send_snapshot in
      let '(n, _) := ApplyCommittedLogsLocked n now in
      if n_aborted n then (n <| n_aborted := false |>, 0)
      else
        let applied := n_last_applied n in
        if fold_left Z.max batch 0 <=? applied then (n, applied)
        else coordinator_rounds rounds' n now send send_snapshot batch applied
  end.

(** [CoordinatorCommit] for a batch of waiting indices, and what each waiter is
    told. *)
Definition CoordinatorCommit n (now : Z)
    (send : NodeId → AppendEntriesRequest → AppendEntriesResponse)
    (send_snapshot : NodeId → Z → Z → bool) (batch : list Z) : RaftNode L SM * list ApplyResult :=
  let n := n <| n_log_storage ::= fmap Persist |> in
  let '(n, applied) := coordinator_rounds 16 n now send send_snapshot batch 0 in
  (n, map (fun idx => if idx <=? applied then mkApplyResult OK 1 else mkApplyResult ERROR 0) batch).

(** [SubmitEntry] of a caller that leads its own batch. *)
Definition SubmitEntry n (now : Z)
    (send : NodeId → AppendEntriesRequest → AppendEntriesResponse)
    (send_snapshot : NodeId → Z → Z → bool) (entry : LogEntry) : RaftNode L SM * ApplyResult :=
  match SubmitEntry_append n entry with
  | (n, None) => (n, mkApplyResult ERROR 0)
  | (n, Some idx) =>
      let '(n, rs) := CoordinatorCommit n now send send_snapshot [idx] in
      (n, default (mkApplyResult ERROR 0) (head rs))
  end.
End replication.
