(* ===== verification/HardState.v ===== *)
(** * Hard-state discipline of the node

    How every operation of [RaftNode] may move the hard state: the term never
    goes back, a vote never changes within a term, no operation but an election
    makes a candidate or a leader, and what is in memory is on disk.  The
    operations are gathered in one event type, [run_event]. *)

From S2P Require Import Prelude RaftTypes LogStorage StateMachine RaftStorage ApplyProgress ElectionTimer SnapshotTransfer CommandEncoder RaftNode Replication.

Section hard_state.
Context {L SM : Type} `{!LogStorage L, !StateMachine SM}.
Implicit Types n : RaftNode L SM.

Definition storage_ok n : Prop :=
  durable (n_storage n) ∧ 0 ≤ n_term n ≤ U64_MAX ∧ nul_free (n_voted_for n).

Definition term_ok (t : Z) : Prop := 0 ≤ t ≤ U64_MAX.

Record hs_step n n' : Prop := {
  hs_id : n_node_id n' = n_node_id n;
  hs_term : n_term n ≤ n_term n';
  hs_vote : n_term n' = n_term n → n_voted_for n' = n_voted_for n;
  hs_role : n_role n' ≠ Follower → n_role n' = n_role n ∧ n_term n' = n_term n;
  hs_store : storage_ok n → storage_ok n'
}.

#[export] Instance hs_step_preorder : PreOrder hs_step.
Proof.
  split.
  - intros n. by split.
  - intros n1 n2 n3 [a1 b1 c1 d1 e1] [a2 b2 c2 d2 e2]. split; [congruence|lia| | |auto].
    + intros E. rewrite c2, c1 by lia. done.
    + intros H. destruct (d2 H) as [E2 F2]. rewrite E2 in H.
      destruct (d1 H) as [E1 F1]. split; congruence.
Qed.

(** The operation leaves storage, role and identity alone. *)
Definition same_hard n n' : Prop :=
  n_storage n' = n_storage n ∧ n_role n' = n_role n ∧ n_node_id n' = n_node_id n.

Lemma same_hard_step n n' : same_hard n n' → hs_step n n'.
Proof.
  intros (Es & Er & Ei). unfold n_term, n_voted_for.
  split; unfold storage_ok, n_term, n_voted_for; rewrite ?Es, ?Er, ?Ei; auto; lia || done.
Qed.

Lemma same_hard_trans n1 n2 n3 : same_hard n1 n2 → same_hard n2 n3 → same_hard n1 n3.
Proof. unfold same_hard. intuition congruence. Qed.

(** ** Role transitions *)

(** Splits every conditional of a node expression and compares the results
    field by field, without normalising the records. *)
Ltac node_cases :=
  cbv zeta;
  repeat match goal with
  | |- context [if ?b then _ else _] => destruct b
  end;
  repeat split; reflexivity.

(** The goal [hs_step n n'] for an update of other fields. *)
Ltac unchanged := apply same_hard_step; split; [|split]; reflexivity.

Lemma CancelTransferLocked_same n : same_hard n (CancelTransferLocked n).
Proof. unfold CancelTransferLocked. node_cases. Qed.

Lemma SetRoleLocked_fields n r :
  n_storage (SetRoleLocked n r) = n_storage n ∧ n_role (SetRoleLocked n r) = r ∧
  n_node_id (SetRoleLocked n r) = n_node_id n ∧
  n_config_state (SetRoleLocked n r) = n_config_state n ∧
  n_cluster_config (SetRoleLocked n r) = n_cluster_config n ∧
  n_shutdown (SetRoleLocked n r) = n_shutdown n ∧
  n_log_storage (SetRoleLocked n r) = n_log_storage n.
Proof.
  unfold SetRoleLocked, CancelTransferLocked, StopHeartbeat, StartHeartbeat. destruct r; node_cases.
Qed.

Lemma SetRoleLocked_step n : hs_step n (SetRoleLocked n Follower).
Proof.
  destruct (SetRoleLocked_fields n Follower) as (Es & Er & Ei & _).
  split; unfold storage_ok, n_term, n_voted_for; rewrite ?Es, ?Er, ?Ei; auto; lia || done.
Qed.

Lemma storage_ok_Flush n s :
  rs_path s ≠ [] → term_ok (rs_current_term s) → nul_free (rs_voted_for s) →
  n_storage n = RaftStorage_Flush s → storage_ok n.
Proof.
  intros Hp Ht Hv E. unfold storage_ok, n_term, n_voted_for. rewrite E.
  destruct (Flush_fields s) as (_ & -> & -> & _). split; [by apply Flush_durable|done].
Qed.

(** The first half of [BecomeFollowerLocked]: a newer term is stored. *)
Definition adopt_term n (term : Z) : RaftNode L SM :=
  if n_term n <? term then n <| n_storage ::= fun s => SetState s term [] |> else n.

Lemma BecomeFollowerLocked_adopt n term :
  BecomeFollowerLocked n term = SetRoleLocked (adopt_term n term) Follower.
Proof. reflexivity. Qed.

Lemma SetState_fields s term vote :
  rs_current_term (SetState s term vote) = term ∧ rs_voted_for (SetState s term vote) = vote.
Proof. unfold SetState. by destruct (Flush_fields (s <| rs_current_term := term |> <| rs_voted_for := vote |>))
  as (_ & -> & -> & _). Qed.

Lemma adopt_term_fields n term :
  n_term (adopt_term n term) = Z.max (n_term n) term ∧
  n_node_id (adopt_term n term) = n_node_id n ∧
  n_log_storage (adopt_term n term) = n_log_storage n ∧
  n_voted_for (adopt_term n term) = if n_term n <? term then [] else n_voted_for n.
Proof.
  unfold adopt_term. destruct (Z.ltb_spec (n_term n) term); [|split_and!; done || lia].
  destruct (SetState_fields (n_storage n) term []) as [E1 E2]. split_and!; [|done|done|exact E2].
  etrans; [exact E1|lia].
Qed.

Lemma BecomeFollowerLocked_fields n term :
  n_term (BecomeFollowerLocked n term) = Z.max (n_term n) term ∧
  n_role (BecomeFollowerLocked n term) = Follower ∧
  n_node_id (BecomeFollowerLocked n term) = n_node_id n ∧
  n_log_storage (BecomeFollowerLocked n term) = n_log_storage n ∧
  n_voted_for (BecomeFollowerLocked n term) = if n_term n <? term then [] else n_voted_for n.
Proof.
  rewrite BecomeFollowerLocked_adopt. destruct (adopt_term_fields n term) as (Et & Ei & El & Ev).
  destruct (SetRoleLocked_fields (adopt_term n term) Follower) as (Fs & Fr & Fi & _ & _ & _ & Fl).
  unfold n_term, n_voted_for in *. rewrite Fs, Fr, Fi, Fl. done.
Qed.

Lemma BecomeFollowerLocked_step n term : term_ok term → hs_step n (BecomeFollowerLocked n term).
Proof.
  intros Ht. destruct (BecomeFollowerLocked_fields n term) as (Et & Er & Ei & _ & Ev).
  split; [done|lia| |by rewrite Er|].
  - intros E. rewrite Ev. case_match; bool_norm; [lia|done].
  - intros (Hd & Hto & Hv). rewrite BecomeFollowerLocked_adopt.
    destruct (SetRoleLocked_fields (adopt_term n term) Follower) as (Fs & _).
    unfold storage_ok, n_term, n_voted_for. rewrite Fs. unfold adopt_term. case_match; [|done].
    destruct (SetState_fields (n_storage n) term []) as [E1 E2].
    change (n_storage (n <| n_storage ::= fun s => SetState s term [] |>)) with (SetState (n_storage n) term []).
    rewrite E1, E2. split; [|split; [exact Ht|constructor]].
    destruct Hd as [Hp _]. apply SetState_durable; [done|done|constructor].
Qed.

Lemma StepDownLocked_step n : hs_step n (StepDownLocked n).
Proof.
  unfold StepDownLocked. case_match; [reflexivity|].
  rewrite BecomeFollowerLocked_adopt. unfold adopt_term. rewrite Z.ltb_irrefl. apply SetRoleLocked_step.
Qed.

(** ** Applying entries *)

Lemma keep_step n n' :
  n_role n' = n_role n → n_node_id n' = n_node_id n → n_term n' = n_term n →
  n_voted_for n' = n_voted_for n → (storage_ok n → durable (n_storage n')) → hs_step n n'.
Proof.
  intros Er Ei Et Ev Hd. split; [done|lia|done|done|].
  intros Hok. split; [by apply Hd|]. rewrite Et, Ev. apply Hok.
Qed.

Lemma SetJointConfigState_fields s st j :
  rs_current_term (SetJointConfigState s st j) = rs_current_term s ∧
  rs_voted_for (SetJointConfigState s st j) = rs_voted_for s.
Proof.
  unfold SetJointConfigState.
  by destruct (Flush_fields (s <| rs_config_state := st |> <| rs_joint_config := j |>))
    as (_ & -> & -> & _).
Qed.

Lemma joint_step n n' st j :
  n_role n' = n_role n → n_node_id n' = n_node_id n →
  n_storage n' = SetJointConfigState (n_storage n) st j → hs_step n n'.
Proof.
  intros Er Ei Es. destruct (SetJointConfigState_fields (n_storage n) st j) as [E1 E2].
  apply keep_step; [done|done|unfold n_term; congruence|unfold n_voted_for; congruence|].
  intros ((Hp & _) & Ht & Hv). rewrite Es. by apply Flush_durable.
Qed.

Lemma apply_entry_step n sm e r n' sm' r' :
  apply_entry n sm e r = Some (n', sm', r') → hs_step n n'.
Proof.
  unfold apply_entry. case_bool_decide.
  - destruct (ConfigChange_Deserialize _) as [target|]; [|done]. simpl mbind.
    destruct (n_config_state n); intros [= <- _ _]; by eapply joint_step.
  - destruct (ApplyLogEntry sm e). intros [= <- _ _]. unchanged.
Qed.

Lemma apply_entries_step es : ∀ n sm r, hs_step n (apply_entries n sm es r).1.1.
Proof.
  induction es as [|e es IH]; intros n sm r; cbn [apply_entries]; [reflexivity|].
  destruct (apply_entry n sm e r) as [[[n' sm'] r']|] eqn:E.
  - apply apply_entry_step in E. etrans; [exact E|apply IH].
  - unchanged.
Qed.

Lemma flush_progress_same n now : same_hard n (flush_progress n now).
Proof. unfold flush_progress. node_cases. Qed.

Lemma apply_loop_step fuel : ∀ n sm now r, hs_step n (apply_loop fuel n sm now r).1.1.
Proof.
  induction fuel as [|fuel IH]; intros n sm now r; cbn [apply_loop]; [reflexivity|].
  destruct (n_log_storage n) as [l|]; [|reflexivity]. case_match; [|reflexivity].
  destruct (GetRange l _ _) as [|e es] eqn:Eg; [reflexivity|].
  pose proof (apply_entries_step (e :: es) n sm r) as Hs.
  destruct (apply_entries n sm (e :: es) r) as [[n' sm'] r']. cbn [fst] in Hs.
  destruct (n_aborted n'); [exact Hs|]. etrans; [exact Hs|].
  etrans; [apply same_hard_step, (flush_progress_same n' now)|]. apply IH.
Qed.

Lemma ApplyCommittedLogsLocked_step n now : hs_step n (ApplyCommittedLogsLocked n now).1.
Proof.
  unfold ApplyCommittedLogsLocked. destruct (n_state_machine n) as [sm|]; [|reflexivity].
  destruct (n_log_storage n); [|reflexivity].
  pose proof (apply_loop_step (S (Z.to_nat (n_commit_index n - n_last_applied n))) n sm now
    default_ApplyResult) as Hs.
  destruct (apply_loop _ n sm now _) as [[n' sm'] r']. cbn [fst] in *.
  etrans; [exact Hs|]. unchanged.
Qed.

Lemma ReplayUnappliedLogs_step n now : hs_step n (ReplayUnappliedLogs n now).
Proof.
  unfold ReplayUnappliedLogs. destruct (n_log_storage n); [|reflexivity].
  destruct (n_state_machine n); [|reflexivity]. repeat (case_match; [reflexivity|]).
  etrans; [|apply ApplyCommittedLogsLocked_step]. unchanged.
Qed.

(** ** Handlers *)

Lemma OnHeartbeat_step n now req : term_ok (hreq_term req) → hs_step n (OnHeartbeat n now req).1.
Proof.
  intros Ht. unfold OnHeartbeat. case_match; [reflexivity|]. case_match; [|unchanged].
  cbv zeta. cbn [fst]. pose proof (BecomeFollowerLocked_step n _ Ht) as H1.
  generalize dependent (BecomeFollowerLocked n (hreq_term req)). intros n1 H1.
  assert (hs_step n (n1 <| n_election_timer ::= ElectionTimer_Reset |>)) as H2
    by (etrans; [exact H1|]; unchanged).
  generalize dependent (n1 <| n_election_timer ::= ElectionTimer_Reset |>). intros n2 H2. destruct (n_log_storage n2) as [l|]; [|exact H2].
  case_match; [|exact H2]. case_match; [exact H2|]. etrans; [exact H2|].
  etrans; [|apply ApplyCommittedLogsLocked_step]. unchanged.
Qed.

Lemma OnTimeoutNow_step n req : term_ok (treq_term req) → hs_step n (OnTimeoutNow n req).1.1.
Proof.
  intros Ht. unfold OnTimeoutNow. case_match; [reflexivity|]. cbn [fst]. case_match; [|reflexivity].
  by apply BecomeFollowerLocked_step.
Qed.

Lemma OnAppendEntries_step n now req : term_ok (areq_term req) → hs_step n (OnAppendEntries n now req).1.
Proof.
  intros Ht. unfold OnAppendEntries. case_match; [reflexivity|]. cbv zeta.
  match goal with |- context [match n_log_storage ?m with _ => _ end] => set (n1 := m) end.
  assert (hs_step n n1) as H1.
  { unfold n1. case_match; [by apply BecomeFollowerLocked_step|].
    case_match; [unchanged|reflexivity]. }
  clearbody n1. destruct (n_log_storage n1) as [l|]; [|exact H1].
  case_match; [exact H1|]. case_match; [exact H1|].
  destruct (append_entries_loop l _) as [l' ok]. case_match; cbn [fst].
  - etrans; [exact H1|]. unchanged.
  - case_match.
    + etrans; [exact H1|]. etrans; [|apply ApplyCommittedLogsLocked_step]. unchanged.
    + etrans; [exact H1|]. unchanged.
Qed.

Lemma OnInstallSnapshot_step n req : term_ok (sreq_term req) → hs_step n (OnInstallSnapshot n req).1.
Proof.
  intros Ht. unfold OnInstallSnapshot. case_match; [reflexivity|]. cbv zeta.
  match goal with |- context [match n_snapshot_receiver ?m with _ => _ end] => set (n1 := m) end.
  assert (hs_step n n1) as H1.
  { unfold n1. case_match; [by apply BecomeFollowerLocked_step|reflexivity]. }
  clearbody n1. destruct (n_snapshot_receiver n1) as [r|]; [|exact H1].
  destruct (HandleChunk r req) as [r' rsp]. case_match; cbn [fst].
  - match goal with |- context [match n_state_machine ?m with _ => _ end] => set (n2 := m) end.
    assert (hs_step n n2) as H2 by (etrans; [exact H1|]; unchanged).
    clearbody n2. destruct (n_state_machine n2) as [sm|].
    + destruct (LoadSnapshot sm _) as [sm' ok]. case_match; cbn [fst];
        (etrans; [exact H2|]; unchanged).
    + etrans; [exact H2|]. unchanged.
  - etrans; [exact H1|]. unchanged.
Qed.
(** ** Leader side *)

Lemma MaybeAutoFinalizeJointLocked_step n : hs_step n (MaybeAutoFinalizeJointLocked n).
Proof.
  unfold MaybeAutoFinalizeJointLocked. destruct (n_log_storage n); [|reflexivity].
  repeat (case_match; [reflexivity|]). unchanged.
Qed.

Lemma BeginConfigChange_step n target : hs_step n (BeginConfigChange n target).1.
Proof.
  unfold BeginConfigChange. destruct (n_log_storage n); [|reflexivity].
  case_match; [reflexivity|]. destruct (n_config_state n); [unchanged|].
  case_match; [reflexivity|unchanged].
Qed.

Lemma commit_candidate_same n l c : same_hard n (commit_candidate n l c).
Proof. unfold commit_candidate. node_cases. Qed.

Lemma AdvanceCommitIndexLocked_same n : same_hard n (AdvanceCommitIndexLocked n).
Proof.
  unfold AdvanceCommitIndexLocked. destruct (n_log_storage n); [|done].
  destruct (n_config_state n); [|apply commit_candidate_same].
  destruct (majority_index _ _); [apply commit_candidate_same|done].
Qed.

Lemma record_acks_same n acks : same_hard n (record_acks n acks).1.
Proof.
  unfold record_acks. cbv zeta.
  match goal with |- context [fold_left _ _ (?m, false)] => set (n1 := m) end.
  assert (same_hard n n1) as H1 by (split; [|split]; reflexivity).
  generalize (log_last_index n1), false. clearbody n1. intros last b. revert n1 b H1.
  induction acks as [|[p i] acks IH]; intros n1 b H1; [done|]. cbn [fold_left]. unfold record_ack at 2.
  cbn [fst snd]. destruct (list_find _ _) as [[k ?]|]; apply IH; [|done].
  eapply same_hard_trans; [exact H1|]. split; [|split]; reflexivity.
Qed.

Lemma CheckTransferTimeoutLocked_same n now : same_hard n (CheckTransferTimeoutLocked n now).
Proof.
  unfold CheckTransferTimeoutLocked. case_match; [done|]. case_match; [|done].
  apply CancelTransferLocked_same.
Qed.

Lemma tick_transfer_same n now b : same_hard n (tick_transfer n now b).1.
Proof.
  unfold tick_transfer. case_match; [|done]. cbv zeta.
  pose proof (CheckTransferTimeoutLocked_same n now) as Hr1.
  generalize dependent (CheckTransferTimeoutLocked n now). intros n1 Hr1.
  case_match; [|exact Hr1]. case_match; [|exact Hr1].
  eapply same_hard_trans; [exact Hr1|]. split; [|split]; reflexivity.
Qed.

Lemma HeartbeatTick_finish_step n now is_loop epoch t :
  term_ok (ht_max_peer_term t) → hs_step n (HeartbeatTick_finish n now is_loop epoch t).1.
Proof.
  intros Ht. unfold HeartbeatTick_finish. do 2 (case_match; [reflexivity|]).
  case_match; [by apply BecomeFollowerLocked_step|].
  pose proof (record_acks_same n (ht_rsp_last_log t)) as Hr1.
  destruct (record_acks n (ht_rsp_last_log t)) as [n1 need]. cbn [fst] in Hr1. cbv zeta.
  pose proof (AdvanceCommitIndexLocked_same n1) as Hr2.
  pose proof (same_hard_trans _ _ _ Hr1 Hr2) as Hr3. clear Hr1 Hr2.
  generalize dependent (AdvanceCommitIndexLocked n1). intros n2 Hr2.
  apply same_hard_step in Hr2. case_match; [|case_match].
  - etrans; [exact Hr2|]. etrans; [|apply same_hard_step, tick_transfer_same]. unchanged.
  - etrans; [exact Hr2|]. apply StepDownLocked_step.
  - etrans; [exact Hr2|]. apply same_hard_step, tick_transfer_same.
Qed.

Lemma ReadIndex_finish_step n now req t : term_ok t.2 → hs_step n (ReadIndex_finish n now req t).1.
Proof.
  intros Ht. unfold ReadIndex_finish. destruct t as [c m]. case_match; [by apply BecomeFollowerLocked_step|].
  case_match; [reflexivity|]. cbv zeta. case_match; [reflexivity|unchanged].
Qed.

Lemma Replicate_begin_step n : hs_step n (Replicate_begin n).1.
Proof.
  unfold Replicate_begin. destruct (n_log_storage n); [|reflexivity].
  case_match; [reflexivity|]. unchanged.
Qed.

Lemma commit_and_apply_step n now :
  hs_step n (ApplyCommittedLogsLocked (MaybeAutoFinalizeJointLocked (AdvanceCommitIndexLocked n)) now).1.
Proof.
  etrans; [apply same_hard_step, AdvanceCommitIndexLocked_same|].
  etrans; [apply MaybeAutoFinalizeJointLocked_step|]. apply ApplyCommittedLogsLocked_step.
Qed.

Lemma Replicate_single_step n now : hs_step n (Replicate_single n now).1.
Proof. unfold Replicate_single. case_match; [reflexivity|]. apply commit_and_apply_step. Qed.

Lemma process_rsp_same acc rr : same_hard acc.1 (process_rsp acc rr).1.
Proof.
  destruct acc as [n b], rr as [r rsp]. unfold process_rsp. cbv zeta.
  repeat (case_match; [split; [|split]; reflexivity|]). split; [|split]; reflexivity.
Qed.

Lemma process_rsps_same rrs : ∀ acc, same_hard acc.1 (fold_left process_rsp rrs acc).1.
Proof.
  induction rrs as [|rr rrs IH]; intros acc; [done|]. cbn [fold_left].
  eapply same_hard_trans; [apply process_rsp_same|apply IH].
Qed.

Lemma Replicate_finish_step n now rd rsps :
  term_ok (rd_current_term rd) → Forall (λ r, term_ok (pp_term r)) rsps →
  hs_step n (Replicate_finish n now rd rsps).1.
Proof.
  intros Hr Ht. unfold Replicate_finish. cbv zeta.
  assert (term_ok (fold_left Z.max (map pp_term rsps) (rd_current_term rd))) as Hm.
  { revert Hr. generalize (rd_current_term rd).
    induction Ht as [|r rsps Hx _ IH]; intros z Hz; simpl; [done|]. apply IH. unfold term_ok in *. lia. }
  case_match; [by apply BecomeFollowerLocked_step|]. case_match; [reflexivity|].
  pose proof (process_rsps_same (zip (rd_preq rd) rsps) (n, false)) as Hr1.
  destruct (fold_left process_rsp _ _) as [n1 retry]. cbn [fst] in Hr1. apply same_hard_step in Hr1.
  pose proof (commit_and_apply_step n1 now) as Hr2.
  destruct (ApplyCommittedLogsLocked _ now) as [n2 res]. cbn [fst] in *. by etrans.
Qed.

Lemma SubmitEntry_append_step n e : hs_step n (SubmitEntry_append n e).1.
Proof.
  unfold SubmitEntry_append. destruct (n_log_storage n); [|reflexivity].
  case_match; [reflexivity|unchanged].
Qed.

Lemma StartTransfer_begin_step n now target : hs_step n (StartTransfer_begin n now target).1.
Proof. unfold StartTransfer_begin. repeat (case_match; [reflexivity|]). unchanged. Qed.

Lemma StartTransfer_finish_step n target : hs_step n (StartTransfer_finish n target).1.1.
Proof. unfold StartTransfer_finish. case_match; [reflexivity|]. case_match; unchanged. Qed.

Lemma SendTimeoutNow_finish_step n rsp : hs_step n (SendTimeoutNow_finish n rsp).
Proof.
  unfold SendTimeoutNow_finish. case_match; [reflexivity|]. case_match; [|reflexivity].
  apply same_hard_step, CancelTransferLocked_same.
Qed.

Lemma ReadIndex_begin_step n now : hs_step n (ReadIndex_begin n now).1.
Proof. unfold ReadIndex_begin. repeat (case_match; [reflexivity|]). unchanged. Qed.

(** ** Events *)

(** Everything that can happen to a node under its mutex, elections and votes
    apart. *)
Inductive event : Type :=
  | EvHeartbeat (now : Z) (req : HeartbeatRequest)
  | EvAppendEntries (now : Z) (req : AppendEntriesRequest)
  | EvInstallSnapshot (req : InstallSnapshotRequest)
  | EvTimeoutNow (req : TimeoutNowRequest)
  | EvTickFinish (now : Z) (is_loop : bool) (epoch : Z) (t : HeartbeatTally)
  | EvReadBegin (now : Z)
  | EvReadFinish (now : Z) (req : ReadIndexRequest) (t : Z * Z)
  | EvReplicateBegin
  | EvReplicateSingle (now : Z)
  | EvReplicateFinish (now : Z) (rd : Round) (rsps : list PeerRsp)
  | EvSubmit (entry : LogEntry)
  | EvApply (now : Z)
  | EvReplay (now : Z)
  | EvAdvanceCommit
  | EvBeginConfigChange (target : ClusterConfig)
  | EvTransferBegin (now : Z) (target : NodeId)
  | EvTransferFinish (target : NodeId)
  | EvTimeoutNowSent (rsp : TimeoutNowResponse)
  | EvCancelTransfer
  | EvStepDown
  | EvShutdown.

Definition run_event (ev : event) n : RaftNode L SM :=
  match ev with
  | EvHeartbeat now req => (OnHeartbeat n now req).1
  | EvAppendEntries now req => (OnAppendEntries n now req).1
  | EvInstallSnapshot req => (OnInstallSnapshot n req).1
  | EvTimeoutNow req => (OnTimeoutNow n req).1.1
  | EvTickFinish now is_loop epoch t => (HeartbeatTick_finish n now is_loop epoch t).1
  | EvReadBegin now => (ReadIndex_begin n now).1
  | EvReadFinish now req t => (ReadIndex_finish n now req t).1
  | EvReplicateBegin => (Replicate_begin n).1
  | EvReplicateSingle now => (Replicate_single n now).1
  | EvReplicateFinish now rd rsps => (Replicate_finish n now rd rsps).1
  | EvSubmit entry => (SubmitEntry_append n entry).1
  | EvApply now => (ApplyCommittedLogsLocked n now).1
  | EvReplay now => ReplayUnappliedLogs n now
  | EvAdvanceCommit => AdvanceCommitIndex n
  | EvBeginConfigChange target => (BeginConfigChange n target).1
  | EvTransferBegin now target => (StartTransfer_begin n now target).1
  | EvTransferFinish target => (StartTransfer_finish n target).1.1
  | EvTimeoutNowSent rsp => SendTimeoutNow_finish n rsp
  | EvCancelTransfer => CancelTransferLocked n
  | EvStepDown => StepDownLocked n
  | EvShutdown => Shutdown n
  end.

(** The terms that the event carries are 64-bit values. *)
Definition event_ok (ev : event) : Prop :=
  match ev with
  | EvHeartbeat _ req => term_ok (hreq_term req)
  | EvAppendEntries _ req => term_ok (areq_term req)
  | EvInstallSnapshot req => term_ok (sreq_term req)
  | EvTimeoutNow req => term_ok (treq_term req)
  | EvTickFinish _ _ _ t => term_ok (ht_max_peer_term t)
  | EvReadFinish _ _ t => term_ok t.2
  | EvReplicateFinish _ rd rsps =>
      term_ok (rd_current_term rd) ∧ Forall (λ r, term_ok (pp_term r)) rsps
  | _ => True
  end.

#[export] Instance term_ok_dec t : Decision (term_ok t).
Proof. unfold term_ok. apply _. Defined.

#[export] Instance event_ok_dec ev : Decision (event_ok ev).
Proof. destruct ev; simpl; apply _. Defined.

Lemma run_event_step ev n : event_ok ev → hs_step n (run_event ev n).
Proof.
  destruct ev; simpl; intros Hok.
  - by apply OnHeartbeat_step.
  - by apply OnAppendEntries_step.
  - by apply OnInstallSnapshot_step.
  - by apply OnTimeoutNow_step.
  - by apply HeartbeatTick_finish_step.
  - apply ReadIndex_begin_step.
  - by apply ReadIndex_finish_step.
  - apply Replicate_begin_step.
  - apply Replicate_single_step.
  - destruct Hok. by apply Replicate_finish_step.
  - apply SubmitEntry_append_step.
  - apply ApplyCommittedLogsLocked_step.
  - apply ReplayUnappliedLogs_step.
  - unfold AdvanceCommitIndex. case_match; [reflexivity|].
    apply same_hard_step, AdvanceCommitIndexLocked_same.
  - apply BeginConfigChange_step.
  - apply StartTransfer_begin_step.
  - apply StartTransfer_finish_step.
  - apply SendTimeoutNow_finish_step.
  - apply same_hard_step, CancelTransferLocked_same.
  - apply StepDownLocked_step.
  - unchanged.
Qed.
(** ** Votes and elections *)

Definition same_config n n' : Prop :=
  n_config_state n' = n_config_state n ∧ n_cluster_config n' = n_cluster_config n.

Lemma BecomeFollowerLocked_config n term : same_config n (BecomeFollowerLocked n term).
Proof.
  rewrite BecomeFollowerLocked_adopt.
  destruct (SetRoleLocked_fields (adopt_term n term) Follower) as (_ & _ & _ & Ec & Ev & _).
  split; [rewrite Ec|rewrite Ev]; unfold adopt_term; by case_match.
Qed.

Record vote_spec n (req : VoteRequest) n' (rsp : VoteResponse) : Prop := {
  vs_id : n_node_id n' = n_node_id n;
  vs_rsp_term : vrsp_term rsp = n_term n';
  vs_term : n_term n ≤ n_term n';
  vs_store : storage_ok n → storage_ok n';
  vs_role : n_role n' ≠ Follower → n_role n' = n_role n ∧ n_term n' = n_term n;
  vs_config : same_config n n';
  vs_denied : vrsp_vote_granted rsp = false → n_term n' = n_term n → n_voted_for n' = n_voted_for n;
  vs_granted : vrsp_vote_granted rsp = true →
    n_term n' = vreq_term req ∧ n_voted_for n' = vreq_candidate_id req ∧
    (n_term n' = n_term n → n_voted_for n = [] ∨ n_voted_for n = vreq_candidate_id req)
}.

Lemma vote_denied n n' req t :
  hs_step n n' → same_config n n' → t = n_term n' →
  vote_spec n req n' (mkVoteResponse (n_group_id n') t false).
Proof. intros [] Hc ->. by split. Qed.

Lemma set_voted_for_fields s v :
  rs_current_term (set_voted_for s v) = rs_current_term s ∧ rs_voted_for (set_voted_for s v) = v.
Proof.
  unfold set_voted_for. by destruct (Flush_fields (s <| rs_voted_for := v |>)) as (_ & -> & -> & _).
Qed.

Lemma vote_granted n n1 req :
  hs_step n n1 → same_config n n1 → n_term n1 = vreq_term req → nul_free (vreq_candidate_id req) →
  (n_voted_for n1 = [] ∨ n_voted_for n1 = vreq_candidate_id req) →
  let n' := n1 <| n_storage ::= fun s => set_voted_for s (vreq_candidate_id req) |> in
  vote_spec n req n' (mkVoteResponse (n_group_id n') (n_term n') true).
Proof.
  intros [Hi Ht Hv Hr Hs] Hc E Hn Hvote n'.
  destruct (set_voted_for_fields (n_storage n1) (vreq_candidate_id req)) as [E1 E2].
  assert (n_term n' = n_term n1) as Et by exact E1.
  assert (n_voted_for n' = vreq_candidate_id req) as Ev by exact E2.
  split; rewrite ?Et; try done.
  - intros Hok. destruct (Hs Hok) as ((Hp & _) & Hto & _). split; [|by rewrite Et, Ev].
    by apply set_voted_for_durable.
  - intros _. split_and!; [done..|]. intros E'. by rewrite <-(Hv E').
Qed.

Lemma OnRequestVote_spec n req :
  term_ok (vreq_term req) → nul_free (vreq_candidate_id req) →
  vote_spec n req (OnRequestVote n req).1 (OnRequestVote n req).2.
Proof.
  intros Ht Hn. unfold OnRequestVote. case_match; bool_norm.
  { apply vote_denied; [reflexivity|done|done]. }
  cbv zeta. match goal with |- context [n_voted_for ?m] => set (n1 := m) end.
  assert (hs_step n n1 ∧ same_config n n1 ∧ n_term n1 = vreq_term req) as (Hs & Hc & Et).
  { unfold n1. case_match; bool_norm; [|split_and!; [reflexivity|done|lia]].
    split_and!; [by apply BecomeFollowerLocked_step|apply BecomeFollowerLocked_config|].
    destruct (BecomeFollowerLocked_fields n (vreq_term req)) as (-> & _). lia. }
  clearbody n1. do 3 (case_match; [by apply vote_denied|]). cbn [fst snd].
  apply vote_granted; [done..|].
  match goal with H : negb (bool_decide (_ = [])) && _ = false |- _ =>
    apply andb_false_iff in H as [H|H] end; bool_norm; auto.
Qed.

Lemma GetPeerIdsLocked_cong n n' :
  n_config_state n' = n_config_state n → n_cluster_config n' = n_cluster_config n →
  n_node_id n' = n_node_id n → n_config_state n = kStable →
  GetPeerIdsLocked n' = GetPeerIdsLocked n.
Proof. intros Ec Ev Ei Es. unfold GetPeerIdsLocked. by rewrite Ec, Es, Ev, Ei. Qed.

(** Becoming a candidate: the next term, with a vote for itself. *)
Record campaign_spec n n' : Prop := {
  cs_id : n_node_id n' = n_node_id n;
  cs_term : n_term n' = n_term n + 1;
  cs_vote : n_voted_for n' = n_node_id n;
  cs_role : n_role n' = Candidate;
  cs_store : storage_ok n → storage_ok n';
  cs_config : same_config n n'
}.

Lemma BecomeCandidateNewTermLocked_spec n :
  0 ≤ n_term n < U64_MAX → nul_free (n_node_id n) → campaign_spec n (BecomeCandidateNewTermLocked n).
Proof.
  intros Ht Hn. unfold BecomeCandidateNewTermLocked. cbv zeta.
  match goal with |- context [SetRoleLocked ?m Candidate] => set (n1 := m) end.
  destruct (SetRoleLocked_fields n1 Candidate) as (Es & Er & Ei & Ec & Ev & _).
  destruct (SetState_fields (n_storage n) (u64 (n_term n + 1)) (n_node_id n)) as [E1 E2].
  assert (n_term (SetRoleLocked n1 Candidate) = n_term n + 1) as Et.
  { unfold n_term at 1. rewrite Es. etrans; [exact E1|]. apply u64_small. lia. }
  assert (n_voted_for (SetRoleLocked n1 Candidate) = n_node_id n) as Evo
    by (unfold n_voted_for at 1; rewrite Es; exact E2).
  split; [by rewrite Ei|done|done|done| |split; [by rewrite Ec|by rewrite Ev]].
  intros ((Hp & _) & _ & _). unfold storage_ok. rewrite Et, Evo, Es.
  split; [|split; [lia|done]].
  change (n_storage n1) with (SetState (n_storage n) (u64 (n_term n + 1)) (n_node_id n)).
  apply SetState_durable; [done| |done]. apply u64_range.
Qed.

Lemma BecomeCandidateLocked_spec n :
  n_role n ≠ Candidate → 0 ≤ n_term n < U64_MAX → nul_free (n_node_id n) →
  campaign_spec n (BecomeCandidateLocked n).
Proof.
  intros Hr Ht Hn. unfold BecomeCandidateLocked. rewrite bool_decide_false by done.
  by apply (BecomeCandidateNewTermLocked_spec n).
Qed.

Lemma StartElection_begin_spec n :
  0 ≤ n_term n < U64_MAX → nul_free (n_node_id n) →
  match StartElection_begin n with
  | (n', None) => n' = n
  | (n', Some (req, peers)) =>
      campaign_spec n n' ∧ vreq_term req = n_term n' ∧ vreq_candidate_id req = n_node_id n ∧
      (n_config_state n = kStable → peers = GetPeerIdsLocked n)
  end.
Proof.
  intros Ht Hn. unfold StartElection_begin. destruct (n_shutdown n); [done|]. cbv zeta.
  destruct (n_role n) eqn:Er; cbv iota.
  - pose proof (BecomeCandidateLocked_spec n ltac:(congruence) Ht Hn) as Hc.
    generalize dependent (BecomeCandidateLocked n). intros n' [? ? ? Ec ? []].
    rewrite Ec, bool_decide_true by done. simpl. split_and!; [by split|done|congruence|].
    intros. by apply GetPeerIdsLocked_cong.
  - pose proof (BecomeCandidateNewTermLocked_spec n Ht Hn) as Hc.
    generalize dependent (BecomeCandidateNewTermLocked n). intros n' [? ? ? Ec ? []].
    rewrite Ec, bool_decide_true by done. simpl. split_and!; [by split|done|congruence|].
    intros. by apply GetPeerIdsLocked_cong.
  - by rewrite Er, bool_decide_false.
Qed.

Lemma BecomeLeaderLocked_fields n now :
  n_storage (BecomeLeaderLocked n now) = n_storage n ∧
  n_role (BecomeLeaderLocked n now) = Leader ∧
  n_node_id (BecomeLeaderLocked n now) = n_node_id n ∧ same_config n (BecomeLeaderLocked n now).
Proof.
  unfold BecomeLeaderLocked. cbv zeta.
  destruct (SetRoleLocked_fields n Leader) as (Es & Er & Ei & Ec & Ev & _).
  generalize dependent (SetRoleLocked n Leader). intros n1 Es Er Ei Ec Ev.
  unfold BecomeLeaderInitPeersLocked. cbv zeta.
  match goal with |- context [match ?x with Some _ => _ | None => _ end] => destruct x end;
    unfold same_config; split_and!; assumption.
Qed.

(** How an election ends in a stable configuration: leadership is won by a
    majority of votes in the term the election was started in, or not at all. *)
Lemma StartElection_finish_spec n now req t :
  n_config_state n = kStable → term_ok (ev_max_peer_term t) →
  let n' := StartElection_finish n now req t in
  same_config n n' ∧
  (hs_step n n' ∨
   (n_role n = Candidate ∧ n_term n = vreq_term req ∧ n_storage n' = n_storage n ∧
    n_node_id n' = n_node_id n ∧ n_role n' = Leader ∧
    (voters_size (n_cluster_config n) + 1) / 2 + 1 ≤ ev_votes_received t)).
Proof.
  intros Hst Ht n'. unfold n', StartElection_finish. clear n'.
  case_match.
  { split; [apply BecomeFollowerLocked_config|left; by apply BecomeFollowerLocked_step]. }
  destruct (bool_decide (n_role n = Candidate)) eqn:Hc; cbn [negb orb]; [|split; [done|by left]].
  destruct (n_term n =? vreq_term req) eqn:Hq; cbn [negb orb]; [|split; [done|by left]]. bool_norm.
  set (n1 := n <| n_vote_count := ev_votes_received t |>).
  change (n_config_state n1) with (n_config_state n). rewrite Hst. unfold TryBecomeLeaderLocked.
  change (n_config_state n1) with (n_config_state n). rewrite Hst. cbv zeta.
  change (n_cluster_config n1) with (n_cluster_config n).
  change (n_vote_count n1) with (ev_votes_received t).
  destruct (_ <=? ev_votes_received t) eqn:?; bool_norm.
  - destruct (BecomeLeaderLocked_fields n1 now) as (Es & Er & Ei & Ec).
    rewrite Er, bool_decide_false by done. cbn [andb]. split; [exact Ec|]. right. split_and!; assumption.
  - destruct (bool_decide _ && _).
    + destruct (SetRoleLocked_fields n1 Follower) as (_ & _ & _ & Ec & Ev & _).
      split; [by split; [rewrite Ec|rewrite Ev]|]. left. etrans; [|apply SetRoleLocked_step]. unchanged.
    + split; [done|]. left. unchanged.
Qed.

(** A tally counts each granting peer once. *)
Lemma tally_vote_spec t peer rsp :
  ev_granters (tally_vote t peer rsp) =
    (if vrsp_vote_granted rsp then ev_granters t ++ [peer] else ev_granters t) ∧
  (0 ≤ ev_votes_received t → ev_votes_received (tally_vote t peer rsp) ≤
    (if vrsp_vote_granted rsp then ev_votes_received t + 1 else ev_votes_received t)) ∧
  (0 ≤ ev_votes_received t → 0 ≤ ev_votes_received (tally_vote t peer rsp)) ∧
  ev_max_peer_term (tally_vote t peer rsp) = Z.max (ev_max_peer_term t) (vrsp_term rsp).
Proof.
  assert (∀ x, 0 ≤ x → 0 ≤ u32 (x + 1) ≤ x + 1) as Hu.
  { intros x Hx. unfold wrapu. split; [apply Z.mod_pos_bound; lia|apply Z.mod_le; lia]. }
  unfold tally_vote. destruct (vrsp_vote_granted rsp); simpl; split_and!;
    case_match; bool_norm; simpl; try done; try lia; intros Hx; specialize (Hu _ Hx); lia.
Qed.

(** When a vote is granted: the candidate's term is not behind, no other
    candidate has this node's vote in that term, and the candidate's log is at
    least as up-to-date as the local one (last term first, then last index). *)
Theorem OnRequestVote_grants_iff n req :
  vrsp_vote_granted (OnRequestVote n req).2 = true ↔
  n_term n ≤ vreq_term req ∧
  (n_term n < vreq_term req ∨ n_voted_for n = [] ∨ n_voted_for n = vreq_candidate_id req) ∧
  (log_last_term n < vreq_last_log_term req ∨
   log_last_term n = vreq_last_log_term req ∧ log_last_index n ≤ vreq_last_log_index req).
Proof.
  unfold OnRequestVote. cbv zeta. destruct (Z.ltb_spec (vreq_term req) (n_term n)); [simpl; intuition lia|].
  set (n1 := if n_term n <? vreq_term req then _ else n).
  assert (log_last_term n1 = log_last_term n ∧ log_last_index n1 = log_last_index n ∧
    n_voted_for n1 = if n_term n <? vreq_term req then [] else n_voted_for n) as (E1 & E2 & E3).
  { unfold n1. destruct (n_term n <? vreq_term req) eqn:Hlt; [|done].
    destruct (BecomeFollowerLocked_fields n (vreq_term req)) as (_ & _ & _ & El & Ev).
    unfold log_last_term, log_last_index. by rewrite El, Ev, Hlt. }
  clearbody n1. rewrite E1, E2, E3.
  destruct (Z.ltb_spec (n_term n) (vreq_term req)), (Z.ltb_spec (vreq_last_log_term req) (log_last_term n)),
    (Z.eqb_spec (vreq_last_log_term req) (log_last_term n)),
    (Z.ltb_spec (vreq_last_log_index req) (log_last_index n));
    rewrite ?(bool_decide_true ([] = [])) by done; repeat case_bool_decide; cbn; intuition (done || lia).
Qed.

End hard_state.
