(* ===== verification/Recovery.v ===== *)
(** * Snapshots of a group and recovery from them

    (src/server/raft/snapshot_meta.cc, snapshot_loader.cc, snapshot_manager.cc,
    raft_group.cc, and [SetStoragePath] and [CreateSnapshotIfNeeded] of
    raft_node.cc.)  The files are a map from paths to contents. *)

From S2P Require Import Prelude RaftTypes Json LogStorage StateMachine RaftStorage ApplyProgress KvStateMachine RaftNode CommandLog.

(** File contents by path.  The tmp-file and rename sequences write a file in
    one step; write errors are not modelled. *)
Abbreviation files := (gmap bytes bytes).

(** [ReadFile]: the empty string when there is no file. *)
Definition ReadFile (fs : files) (path : bytes) : bytes := default [] (fs !! path).

Lemma tuple2 {A B} (x : A * B) b : x.2 = b → x = (x.1, b).
Proof. intros <-. by destruct x. Qed.

Lemma tuple3 {A B C} (x : A * B * C) : x = (x.1.1, x.1.2, x.2).
Proof. by destruct x as [[? ?] ?]. Qed.

Lemma tuple4 {A B C D} (x : A * B * C * D) d : x.2 = d → x = (x.1.1.1, x.1.1.2, x.1.2, d).
Proof. intros <-. by destruct x as [[[? ?] ?] ?]. Qed.

(** The trailing slash that the constructors add. *)
Definition with_slash (dir : bytes) : bytes :=
  if negb (bool_decide (dir = [])) && negb (bool_decide (last dir = Some 47)) then dir ++ [47] else dir.

(** ** SnapshotMetaStorage *)

Record SnapshotMeta : Type := mkSnapshotMeta {
  sm_index : Z;
  sm_term : Z;
  sm_timestamp_ms : Z
}.
#[export] Instance SnapshotMeta_eta : Eta SnapshotMeta := fun m =>
  mkSnapshotMeta (sm_index m) (sm_term m) (sm_timestamp_ms m).

Record SnapshotMetaStorage : Type := mkSnapshotMetaStorage {
  sms_path : bytes;
  sms_meta : SnapshotMeta
}.
#[export] Instance SnapshotMetaStorage_eta : Eta SnapshotMetaStorage := fun s =>
  mkSnapshotMetaStorage (sms_path s) (sms_meta s).

Definition SnapshotMetaStorage_new (path : bytes) : SnapshotMetaStorage :=
  mkSnapshotMetaStorage path (mkSnapshotMeta 0 0 0).

Definition SnapshotMeta_Serialize (m : SnapshotMeta) : bytes :=
  str "{" ++ quoted (str "index") ++ [COLON] ++ to_string (sm_index m) ++
  COMMA :: quoted (str "term") ++ [COLON] ++ to_string (sm_term m) ++
  COMMA :: quoted (str "timestamp_ms") ++ [COLON] ++ to_string (sm_timestamp_ms m) ++ [125; 10].

Definition SnapshotMeta_Deserialize (m : SnapshotMeta) (data : bytes) : SnapshotMeta :=
  let m := match parse_uint data (str "index") with
           | Some v => m <| sm_index := v |> | None => m end in
  let m := match parse_uint data (str "term") with
           | Some v => m <| sm_term := v |> | None => m end in
  match parse_uint data (str "timestamp_ms") with
  | Some v => m <| sm_timestamp_ms := v |> | None => m end.

Definition SnapshotMeta_Flush (fs : files) (s : SnapshotMetaStorage) : files :=
  if bool_decide (sms_path s = []) then fs
  else <[sms_path s := SnapshotMeta_Serialize (sms_meta s)]> fs.

(** [Load], which always succeeds when writes do. *)
Definition SnapshotMeta_Load (fs : files) (s : SnapshotMetaStorage) : files * SnapshotMetaStorage :=
  if bool_decide (sms_path s = []) then (fs, s)
  else
    let data := ReadFile fs (sms_path s) in
    if bool_decide (data = []) then (SnapshotMeta_Flush fs s, s)
    else (fs, s <| sms_meta ::= fun m => SnapshotMeta_Deserialize m data |>).

Definition SetMeta (fs : files) (s : SnapshotMetaStorage) (m : SnapshotMeta)
    : files * SnapshotMetaStorage :=
  let s := s <| sms_meta := m |> in (SnapshotMeta_Flush fs s, s).

(** ** SnapshotLoader *)

Inductive SnapshotLoadStatus : Type := LoadOK | NoSnapshot | Corrupted.

(** The bytes of the file at [bin_path] stand for [LoadedSnapshot.bin_path]. *)
Record LoadedSnapshot : Type := mkLoadedSnapshot {
  ls_meta : SnapshotMeta;
  ls_bin : bytes
}.

Definition ValidateBin (fs : files) (bin_path : bytes) : bool :=
  match fs !! bin_path with
  | None => false
  | Some bin =>
      if zlen bin =? 0 then false
      else (4 <=? zlen bin) && (le_val (take 4 bin) =? kSnapshotMagic)
  end.

(** [SnapshotLoader(dir).Load]: the status, with the snapshot when it is OK. *)
Definition SnapshotLoader_Load (fs : files) (dir : bytes)
    : files * SnapshotLoadStatus * option LoadedSnapshot :=
  let dir := with_slash dir in
  let meta_path := dir ++ str "snapshot.meta" in
  let bin_path := dir ++ str "snapshot.bin" in
  match fs !! meta_path with
  | None => (fs, NoSnapshot, None)
  | Some _ =>
      let '(fs, s) := SnapshotMeta_Load fs (SnapshotMetaStorage_new meta_path) in
      if sm_index (sms_meta s) =? 0 then (fs, NoSnapshot, None)
      else if sm_term (sms_meta s) =? 0 then (fs, Corrupted, None)
      else if negb (ValidateBin fs bin_path) then (fs, Corrupted, None)
      else (fs, LoadOK, Some (mkLoadedSnapshot (sms_meta s) (ReadFile fs bin_path)))
  end.

(** ** RaftSnapshotManager *)

(** [mgr_has_sm] says that [state_machine_] is set; it then points to the state
    machine of the node. *)
Record RaftSnapshotManager : Type := mkRaftSnapshotManager {
  mgr_dir : bytes;
  mgr_has_sm : bool;
  mgr_meta_storage : SnapshotMetaStorage;
  mgr_log_gap : Z
}.
#[export] Instance RaftSnapshotManager_eta : Eta RaftSnapshotManager := fun m =>
  mkRaftSnapshotManager (mgr_dir m) (mgr_has_sm m) (mgr_meta_storage m) (mgr_log_gap m).

Definition RaftSnapshotManager_new (fs : files) (dir : bytes) (has_sm : bool)
    : files * RaftSnapshotManager :=
  let dir := with_slash dir in
  let '(fs, s) := SnapshotMeta_Load fs (SnapshotMetaStorage_new (dir ++ str "snapshot.meta")) in
  (fs, mkRaftSnapshotManager dir has_sm s 100000).

Section recovery.
Context {L SM : Type} `{!LogStorage L, !StateMachine SM}.
Implicit Types n : RaftNode L SM.

(** The write barrier around the export is in Concurrency.v. *)
Definition CreateSnapshot (fs : files) (mgr : RaftSnapshotManager) (sm : option SM) (log : option L)
    (now bound_index : Z) : files * RaftSnapshotManager * option L * bool :=
  match sm, log with
  | Some sm, Some l =>
      let log_last := LastIndex l in
      let bound := if 0 <? bound_index then Z.min bound_index log_last else log_last in
      let bound_term := if bound =? log_last then LastTerm l else GetTerm l bound in
      match SaveSnapshot sm with
      | None => (fs, mgr, log, false)
      | Some bin =>
          let fs := <[mgr_dir mgr ++ str "snapshot.bin" := bin]> fs in
          let '(fs, s) := SetMeta fs (mgr_meta_storage mgr) (mkSnapshotMeta bound bound_term now) in
          (fs, mgr <| mgr_meta_storage := s |>, Some (CompactLogs l bound bound_term), true)
      end
  | _, _ => (fs, mgr, log, false)
  end.

Definition ScheduleCreateIfNeeded (fs : files) (mgr : RaftSnapshotManager) (sm : option SM)
    (log : option L) (now bound_index : Z) : files * RaftSnapshotManager * option L * bool :=
  match sm, log with
  | Some _, Some l =>
      if LastIndex l <? u64 (sm_index (sms_meta (mgr_meta_storage mgr)) + mgr_log_gap mgr)
      then (fs, mgr, log, false)
      else CreateSnapshot fs mgr sm log now bound_index
  | _, _ => (fs, mgr, log, false)
  end.

Definition CreateSnapshotIfNeeded n (fs : files) (mgr : option RaftSnapshotManager) (now : Z)
    : RaftNode L SM * files * option RaftSnapshotManager * bool :=
  match mgr with
  | None => (n, fs, None, false)
  | Some mgr =>
      let '(fs, mgr, log, ok) :=
        ScheduleCreateIfNeeded fs mgr (if mgr_has_sm mgr then n_state_machine n else None)
          (n_log_storage n) now (n_last_applied n) in
      let n := n <| n_log_storage := log |> in
      let m := sms_meta (mgr_meta_storage mgr) in
      let n := if ok && (n_last_snapshot_index n <? sm_index m)
               then n <| n_last_snapshot_index := sm_index m |> <| n_last_snapshot_term := sm_term m |>
               else n in
      (n, fs, Some mgr, ok)
  end.

(** ** SetStoragePath *)

(** The part that restores the state machine. *)
Definition recover_snapshot n (fs : files) (path : bytes) : RaftNode L SM * files :=
  match n_state_machine n with
  | None => (n, fs)
  | Some sm =>
      match SnapshotLoader_Load fs path with
      | (fs, LoadOK, Some loaded) =>
          let '(sm, ok) := LoadSnapshot sm (ls_bin loaded) in
          let n := n <| n_state_machine := Some sm |> in
          if ok then
            let last_applied := Z.max (n_last_applied n) (sm_index (ls_meta loaded)) in
            let n := n <| n_last_applied := last_applied |>
                       <| n_last_snapshot_index := sm_index (ls_meta loaded) |>
                       <| n_last_snapshot_term := sm_term (ls_meta loaded) |>
                       <| n_apply_progress ::= fun p => ApplyProgress_Update p last_applied |> in
            (n <| n_log_storage ::= fmap (fun l =>
                    PruneCompacted (SetSnapshotAnchor l (sm_index (ls_meta loaded))
                      (sm_term (ls_meta loaded)))) |>, fs)
          else (n, fs)
      | (fs, _, _) => (n, fs)
      end
  end.

Definition SetStoragePath n (fs : files) (path : bytes) : RaftNode L SM * files :=
  let path := with_slash path in
  let meta_json := path ++ str "meta.json" in
  let apply_meta := path ++ str "apply.meta" in
  let s := RaftStorage_Load (RaftStorage_new meta_json (ReadFile fs meta_json)) in
  let n := n <| n_storage := s |> <| n_config_state := rs_config_state s |>
             <| n_joint_config := rs_joint_config s |> in
  let p := ApplyProgress_Load (mkApplyProgress apply_meta 0 (ReadFile fs apply_meta)) in
  let n := n <| n_apply_progress := p |> <| n_last_applied := ap_last_applied p |> in
  let '(n, fs) := recover_snapshot n fs path in
  (n <| n_commit_index := n_last_applied n |>, fs).

(** The directory layout of [RaftGroup::InitStorage]. *)
Definition group_dir (base_path : bytes) (group_id : Z) : bytes :=
  with_slash base_path ++ str "raft/group_" ++ to_string group_id ++ str "/".

Definition group_snapshot_dir (base_path : bytes) (group_id : Z) : bytes :=
  group_dir base_path group_id ++ str "snapshot/".

(** [InitStorage] from the call of [SetStoragePath] on, the log being open.
    [owned]: [RaftGroup::state_machine_] is set (by [RaftGroup::SetStateMachine];
    [RaftEngine] calls the one of the node instead). *)
Definition InitStorage (owned : bool) n (fs : files) (base_path : bytes) (group_id : Z)
    : RaftNode L SM * files * RaftSnapshotManager :=
  let '(n, fs) := SetStoragePath n fs (group_dir base_path group_id) in
  let '(fs, mgr) := RaftSnapshotManager_new fs (group_snapshot_dir base_path group_id) owned in
  (n, fs, mgr).

(** ** Facts *)

Lemma with_slash_app dir s : last s = Some 47 → with_slash (dir ++ s) = dir ++ s.
Proof.
  intros Hs. unfold with_slash. rewrite (bool_decide_true (last _ = _)); [by rewrite andb_false_r|].
  rewrite last_app. by rewrite Hs.
Qed.

Lemma with_slash_idem dir : with_slash (with_slash dir) = with_slash dir.
Proof.
  unfold with_slash at 2 3. destruct (_ && _) eqn:E; [by apply with_slash_app|].
  unfold with_slash. by rewrite E.
Qed.

Definition meta_ok (m : SnapshotMeta) : Prop :=
  0 ≤ sm_index m ≤ U64_MAX ∧ 0 ≤ sm_term m ≤ U64_MAX ∧ 0 ≤ sm_timestamp_ms m ≤ U64_MAX.

#[local] Opaque quoted to_string.

Lemma SnapshotMeta_roundtrip m m0 :
  meta_ok m → SnapshotMeta_Deserialize m0 (SnapshotMeta_Serialize m) = m.
Proof.
  intros (Hi & Ht & Hs). destruct m as [i t ts]. cbn [sm_index sm_term sm_timestamp_ms] in *.
  set (data := SnapshotMeta_Serialize (mkSnapshotMeta i t ts)).
  assert (parse_uint data (str "index") = Some i) as E1.
  { eapply (record_uint (str "index")) with (open := 123) (fs := []);
      [by_decide..|reflexivity|by_decide|constructor|done|done]. }
  assert (parse_uint data (str "term") = Some t) as E2.
  { eapply (record_uint (str "term")) with (open := 123) (fs := [JUint (str "index") i])
      (rest := COMMA :: quoted (str "timestamp_ms") ++ [COLON] ++ to_string ts ++ [125; 10]);
      [by_decide..| |by_decide|repeat constructor; try by_decide; lia|done|done].
    unfold data, SnapshotMeta_Serialize. cbn. rewrite <-?app_assoc. reflexivity. }
  assert (parse_uint data (str "timestamp_ms") = Some ts) as E3.
  { eapply (record_uint (str "timestamp_ms")) with (open := 123)
      (fs := [JUint (str "index") i; JUint (str "term") t]) (rest := [125; 10]);
      [by_decide..| |by_decide|repeat constructor; try by_decide; lia|done|done].
    unfold data, SnapshotMeta_Serialize. cbn. rewrite <-?app_assoc. reflexivity. }
  unfold SnapshotMeta_Deserialize. by rewrite E1, E2, E3.
Qed.

Lemma CreateSnapshot_inv fs mgr sm l now bound_index fs' mgr' log' :
  CreateSnapshot fs mgr (Some sm) (Some l) now bound_index = (fs', mgr', log', true) →
  ∃ bin, SaveSnapshot sm = Some bin ∧ mgr_dir mgr' = mgr_dir mgr ∧
    sms_path (mgr_meta_storage mgr') = sms_path (mgr_meta_storage mgr) ∧
    fs' = SnapshotMeta_Flush (<[mgr_dir mgr ++ str "snapshot.bin" := bin]> fs) (mgr_meta_storage mgr') ∧
    ∃ i t, log' = Some (CompactLogs l i t).
Proof.
  unfold CreateSnapshot. cbv zeta. destruct (SaveSnapshot sm) as [bin|]; [|done].
  intros. simplify_eq/=. eauto 10.
Qed.

(** What the loader finds where a snapshot and its metadata were written. *)
Lemma SnapshotLoader_Load_written fs dir bin m :
  meta_ok m → 0 < sm_index m → 0 < sm_term m → 4 ≤ zlen bin → le_val (take 4 bin) = kSnapshotMagic →
  let fs' := <[with_slash dir ++ str "snapshot.meta" := SnapshotMeta_Serialize m]>
               (<[with_slash dir ++ str "snapshot.bin" := bin]> fs) in
  SnapshotLoader_Load fs' dir = (fs', LoadOK, Some (mkLoadedSnapshot m bin)).
Proof.
  intros Hm Hi Ht Hb Hmagic fs'. unfold SnapshotLoader_Load. cbv zeta.
  set (meta := with_slash dir ++ str "snapshot.meta").
  assert (fs' !! meta = Some (SnapshotMeta_Serialize m)) as Em by apply lookup_insert_eq.
  assert (fs' !! (with_slash dir ++ str "snapshot.bin") = Some bin) as Eb.
  { unfold fs'. rewrite lookup_insert_ne; [apply lookup_insert_eq|]. by intros E%app_inv_head. }
  assert (SnapshotMeta_Load fs' (SnapshotMetaStorage_new meta) = (fs', mkSnapshotMetaStorage meta m)) as El.
  { unfold SnapshotMeta_Load, ReadFile. cbn [sms_path SnapshotMetaStorage_new].
    rewrite Em, bool_decide_false by (unfold meta; by intros [_ ?]%app_eq_nil).
    cbn [default]. rewrite bool_decide_false by done.
    etrans; [|apply (f_equal (λ m, (fs', mkSnapshotMetaStorage meta m)) (SnapshotMeta_roundtrip m (mkSnapshotMeta 0 0 0) Hm))].
    reflexivity. }
  rewrite Em, El. cbn [sms_meta]. unfold ValidateBin, ReadFile. rewrite Eb.
  repeat (case_match; bool_norm; try lia); done.
Qed.


(** ** The snapshot directory of a group *)

Lemma group_dir_slash base g : with_slash (group_dir base g) = group_dir base g.
Proof. unfold group_dir. rewrite !app_assoc. by apply with_slash_app. Qed.

Lemma group_snapshot_dir_slash base g : with_slash (group_snapshot_dir base g) = group_snapshot_dir base g.
Proof. unfold group_snapshot_dir. by apply with_slash_app. Qed.

(** Where [SetStoragePath] looks for the metadata, and what a manager of the
    group writes. *)
Definition group_meta_absent (fs : files) base g : Prop :=
  fs !! (group_dir base g ++ str "snapshot.meta") = None.

Lemma group_meta_absent_insert fs base g name content :
  group_meta_absent fs base g →
  group_meta_absent (<[group_snapshot_dir base g ++ name := content]> fs) base g.
Proof.
  unfold group_meta_absent, group_snapshot_dir. rewrite <-app_assoc. intros.
  rewrite lookup_insert_ne; [done|]. by intros E%app_inv_head.
Qed.

Lemma recover_snapshot_absent n fs base g :
  group_meta_absent fs base g → recover_snapshot n fs (group_dir base g) = (n, fs).
Proof.
  intros Ha. unfold recover_snapshot, SnapshotLoader_Load. cbv zeta. rewrite group_dir_slash, Ha.
  by case_match.
Qed.

Lemma InitStorage_absent o n fs base g :
  group_meta_absent fs base g →
  n_state_machine (InitStorage o n fs base g).1.1 = n_state_machine n ∧
  n_last_snapshot_index (InitStorage o n fs base g).1.1 = n_last_snapshot_index n ∧
  n_log_storage (InitStorage o n fs base g).1.1 = n_log_storage n ∧
  group_meta_absent (InitStorage o n fs base g).1.2 base g ∧
  mgr_dir (InitStorage o n fs base g).2 = group_snapshot_dir base g ∧
  sms_path (mgr_meta_storage (InitStorage o n fs base g).2)
    = group_snapshot_dir base g ++ str "snapshot.meta".
Proof.
  intros Ha. unfold InitStorage, SetStoragePath. cbv zeta. rewrite group_dir_slash.
  rewrite recover_snapshot_absent by done. unfold RaftSnapshotManager_new. cbv zeta.
  rewrite group_snapshot_dir_slash. unfold SnapshotMeta_Load. cbn [sms_path SnapshotMetaStorage_new].
  rewrite bool_decide_false by (by intros [_ ?]%app_eq_nil). case_bool_decide.
  - split_and!; try reflexivity. unfold SnapshotMeta_Flush. cbn [sms_path SnapshotMetaStorage_new].
    rewrite bool_decide_false by (by intros [_ ?]%app_eq_nil). by apply group_meta_absent_insert.
  - split_and!; try reflexivity. exact Ha.
Qed.

Lemma InitStorage_mgr o n fs base g : mgr_has_sm (InitStorage o n fs base g).2 = o.
Proof.
  unfold InitStorage, RaftSnapshotManager_new. cbv zeta.
  generalize (SetStoragePath n fs (group_dir base g)). intros [n' fs'].
  generalize (SnapshotMeta_Load fs' (SnapshotMetaStorage_new
    (with_slash (group_snapshot_dir base g) ++ str "snapshot.meta"))). by intros [].
Qed.

Lemma CreateSnapshotIfNeeded_no_sm n fs mgr now :
  mgr_has_sm mgr = false →
  (CreateSnapshotIfNeeded n fs (Some mgr) now).2 = false ∧
  (CreateSnapshotIfNeeded n fs (Some mgr) now).1.1.2 = fs.
Proof.
  intros Hm. assert (ScheduleCreateIfNeeded fs mgr (if mgr_has_sm mgr then n_state_machine n else None)
    (n_log_storage n) now (n_last_applied n) = (fs, mgr, n_log_storage n, false)) as E by (by rewrite Hm).
  unfold CreateSnapshotIfNeeded. rewrite E. split; reflexivity.
Qed.

(** The snapshot manager that [RaftEngine] gets never makes a snapshot: its
    state machine is the group's, which only [RaftGroup::SetStateMachine] sets. *)
Theorem engine_never_snapshots n fs base g n' fs' now :
  let mgr := (InitStorage false n fs base g).2 in
  (CreateSnapshotIfNeeded n' fs' (Some mgr) now).2 = false ∧
  (CreateSnapshotIfNeeded n' fs' (Some mgr) now).1.1.2 = fs'.
Proof. apply CreateSnapshotIfNeeded_no_sm, InitStorage_mgr. Qed.

Lemma group_snapshot_unseen o n fs base g gap now n1 fs1 mgr1 n2 fs2 mgr2 n3 :
  group_meta_absent fs base g →
  InitStorage o n fs base g = (n1, fs1, mgr1) →
  CreateSnapshotIfNeeded n1 fs1 (Some (mgr1 <| mgr_log_gap := gap |>)) now = (n2, fs2, mgr2, true) →
  (∃ l i t, n_log_storage n1 = Some l ∧ n_log_storage n2 = Some (CompactLogs l i t)) ∧
  n_state_machine (InitStorage o n3 fs2 base g).1.1 = n_state_machine n3 ∧
  n_last_snapshot_index (InitStorage o n3 fs2 base g).1.1 = n_last_snapshot_index n3.
Proof.
  intros Ha Hi Hc. destruct (InitStorage_absent o n fs base g Ha) as (_ & _ & _ & Ha1 & Hd & Hp).
  rewrite Hi in Ha1, Hd, Hp. cbn [fst snd] in Ha1, Hd, Hp. clear Hi.
  set (m := mgr1 <| mgr_log_gap := gap |>) in Hc.
  assert (mgr_dir m = mgr_dir mgr1 ∧ mgr_meta_storage m = mgr_meta_storage mgr1) as [Em1 Em2] by done.
  rewrite <-Em1 in Hd. rewrite <-Em2 in Hp. clearbody m.
  unfold CreateSnapshotIfNeeded, ScheduleCreateIfNeeded in Hc. cbv zeta in Hc.
  destruct (if mgr_has_sm m then _ else _) as [sm|]; [|done]. destruct (n_log_storage n1) as [l|] eqn:El; [|done].
  destruct (_ <? _); [done|].
  destruct (CreateSnapshot fs1 _ _ _ _ _) as [[[fs' mgr'] log'] ok] eqn:E. injection Hc as E1 Ef _ Eo. subst fs' ok.
  destruct (CreateSnapshot_inv _ _ _ _ _ _ _ _ _ E) as (bin & _ & _ & Hp' & Hfs & i & t & ->). split.
  - exists l, i, t. split; [done|]. rewrite <-E1. by case_match.
  - destruct (InitStorage_absent o n3 fs2 base g) as (F1 & F2 & _); [|done].
    rewrite Hfs. unfold SnapshotMeta_Flush. rewrite Hp', Hp, Hd. case_bool_decide; auto using group_meta_absent_insert.
Qed.

(** A group never recovers its own snapshots.  The manager that
    [InitStorage] creates writes them to the group's snapshot/ directory, while
    [SetStoragePath] looks for snapshot.meta in the group directory itself: a
    restarted group keeps the state machine it starts with, although the log was
    compacted up to the snapshot ([gap] is the log gap that triggers one). *)
Theorem group_snapshot_not_recovered o n fs base g gap now n' :
  group_meta_absent fs base g →
  let i := InitStorage o n fs base g in
  let c := CreateSnapshotIfNeeded i.1.1 i.1.2 (Some (i.2 <| mgr_log_gap := gap |>)) now in
  let r := InitStorage o n' c.1.1.2 base g in
  c.2 = true →
  (∃ l k t, n_log_storage i.1.1 = Some l ∧ n_log_storage c.1.1.1 = Some (CompactLogs l k t)) ∧
  n_state_machine r.1.1 = n_state_machine n' ∧ n_last_snapshot_index r.1.1 = n_last_snapshot_index n'.
Proof.
  intros Ha i c r Hc. eapply (group_snapshot_unseen o n fs base g gap now i.1.1 i.1.2 i.2); [done|..].
  - unfold i. apply tuple3.
  - fold c. by apply tuple4.
Qed.
End recovery.

(** ** Examples *)

Section examples.
#[local] Existing Instance example_lib.

Definition example_sm : KvStateMachine := (apply_log (KvStateMachine_new 0 3) example_log).1.

Definition example_command_log : CommandLog :=
  fold_left (fun l e => (CommandLog_Append l e true).1) (map snd example_log) CommandLog_new.

(** A manager for the directory "d/". *)
Definition example_mgr : RaftSnapshotManager := (RaftSnapshotManager_new ∅ (str "d") true).2.

(** A node with a state machine and a log. *)
Definition example_node (sm : KvStateMachine) (l : CommandLog) : RaftNode CommandLog KvStateMachine :=
  (RaftNode_new (str "n1")) <| n_state_machine := Some sm |> <| n_log_storage := Some l |>.

Definition example_created : files * RaftSnapshotManager * option CommandLog * bool :=
  CreateSnapshot ∅ example_mgr (Some example_sm) (Some example_command_log) 70 5.

Definition example_bin : bytes := default [] (SaveSnapshot example_sm).


Definition example_group : RaftNode CommandLog KvStateMachine * files * RaftSnapshotManager :=
  InitStorage true (example_node example_sm example_command_log) ∅ (str "data") 0.

Definition example_snapshotted
    : RaftNode CommandLog KvStateMachine * files * option RaftSnapshotManager * bool :=
  CreateSnapshotIfNeeded example_group.1.1 example_group.1.2
    (Some (example_group.2 <| mgr_log_gap := 5 |>)) 70.

Lemma group_snapshot_not_recovered_witness :
  n_state_machine (InitStorage true (example_node (KvStateMachine_new 80 2) CommandLog_new)
    example_snapshotted.1.1.2 (str "data") 0).1.1 = Some (KvStateMachine_new 80 2).
Proof.
  apply (group_snapshot_not_recovered true (example_node example_sm example_command_log) ∅ (str "data") 0
    5 70 (example_node (KvStateMachine_new 80 2) CommandLog_new)); vm_compute; reflexivity.
Defined.
End examples.
