(* ===== verification/Cluster.v ===== *)
(** * Election safety

    A cluster of nodes that run the operations of RaftNode.v and Replication.v
    in any order over a network that may lose, duplicate, delay and reorder
    messages, and that may crash and restart from their files.  Theorem: no
    term ever has two leaders.

    Membership is fixed ([kStable]); the test-facing setters [SetRole],
    [BecomeLeader] and [TryBecomeLeader] are not part of the transitions. *)

From S2P Require Import Prelude RaftTypes LogStorage StateMachine RaftStorage ApplyProgress ElectionTimer SnapshotTransfer CommandEncoder CommandLog KvStateMachine RaftNode Replication HardState Recovery.

(** An election whose votes are being collected (phase 2 of [StartElection]):
    the peers still to be asked, and the tally. *)
Record Election : Type := mkElection {
  el_candidate : NodeId;
  el_req : VoteRequest;
  el_todo : list NodeId;
  el_tally : ElectionTally
}.

Section cluster.
Context {L SM : Type} `{!LogStorage L, !StateMachine SM}.
Context (members : gset NodeId).
Implicit Types n : RaftNode L SM.

(** [cl_reqs]: the vote requests ever sent.  [cl_rsps]: the responses ever
    given, with the voter and the request.  [cl_campaigns]: who campaigned in
    which term. *)
Record Cluster : Type := mkCluster {
  cl_nodes : gmap NodeId (RaftNode L SM);
  cl_reqs : list VoteRequest;
  cl_rsps : list (NodeId * VoteRequest * VoteResponse);
  cl_elections : list Election;
  cl_campaigns : list (NodeId * Z)
}.

#[export] Instance Cluster_eta : Eta Cluster := fun s =>
  mkCluster (cl_nodes s) (cl_reqs s) (cl_rsps s) (cl_elections s) (cl_campaigns s).

Implicit Types s : Cluster.

(** ** Transitions *)

(** A process that starts again after a crash: a new node on the files of the
    old one, with the log and the state machine it recovers. *)
Definition restart_node n (log : option L) (sm : option SM) (fs : files) (path : bytes) : RaftNode L SM :=
  (SetStoragePath ((RaftNode_new (n_node_id n)) <| n_log_storage := log |> <| n_state_machine := sm |>
     <| n_cluster_config := n_cluster_config n |>) fs path).1.

Inductive action : Type :=
  | ActStartElection (i : NodeId)
  | ActElectionTimeout (i : NodeId)
  | ActRequestVote (p : NodeId) (k : nat)
  | ActVoteReply (e r : nat)
  | ActVoteFailed (e : nat)
  | ActFinishElection (e : nat) (now : Z)
  | ActBootstrap (i : NodeId) (now : Z)
  | ActEvent (i : NodeId) (ev : event)
  | ActRestart (i : NodeId) (log : option L) (sm : option SM) (fs : files) (path : bytes).

Definition set_node s i n : Cluster := s <| cl_nodes ::= <[i := n]> |>.

(** Records the answer of the next peer of election [k]. *)
Definition tally_reply s (k : nat) (e : Election) (peer : NodeId) (todo : list NodeId) (rsp : VoteResponse)
    : Cluster :=
  s <| cl_elections ::= <[k := mkElection (el_candidate e) (el_req e) todo
                                 (tally_vote (el_tally e) peer rsp)]> |>.

(** What a peer that cannot be reached counts as. *)
Definition no_response : VoteResponse := mkVoteResponse 0 0 false.

(** [None]: the action is not possible in this state. *)
Definition run_action (a : action) s : option Cluster :=
  match a with
  | ActStartElection i =>
      n ← cl_nodes s !! i;
      if n_term n <? U64_MAX then
        match StartElection_begin n with
        | (n', Some (req, peers)) =>
            Some ((set_node s i n') <| cl_reqs ::= fun rs => rs ++ [req] |>
                    <| cl_elections ::= fun es => es ++ [mkElection i req peers (tally_init req)] |>
                    <| cl_campaigns ::= cons (i, n_term n') |>)
        | (_, None) => None
        end
      else None
  | ActElectionTimeout i =>
      n ← cl_nodes s !! i;
      if (n_term n <? U64_MAX) && negb (n_shutdown n) && bool_decide (n_role n = Follower) then
        let n' := OnElectionTimeout n in
        Some ((set_node s i n') <| cl_campaigns ::= cons (i, n_term n') |>)
      else None
  | ActRequestVote p k =>
      n ← cl_nodes s !! p;
      req ← cl_reqs s !! k;
      let '(n', rsp) := OnRequestVote n req in
      Some ((set_node s p n') <| cl_rsps ::= fun rs => rs ++ [(p, req, rsp)] |>)
  | ActVoteReply k r =>
      e ← cl_elections s !! k;
      '(p, req, rsp) ← cl_rsps s !! r;
      match el_todo e with
      | peer :: todo =>
          if bool_decide (p = peer) && bool_decide (req = el_req e)
          then Some (tally_reply s k e peer todo rsp) else None
      | [] => None
      end
  | ActVoteFailed k =>
      e ← cl_elections s !! k;
      match el_todo e with
      | peer :: todo => Some (tally_reply s k e peer todo no_response)
      | [] => None
      end
  | ActFinishElection k now =>
      e ← cl_elections s !! k;
      n ← cl_nodes s !! el_candidate e;
      Some ((set_node s (el_candidate e) (StartElection_finish n now (el_req e) (el_tally e)))
              <| cl_elections ::= delete k |>)
  | ActBootstrap i now =>
      n ← cl_nodes s !! i;
      if (n_term n <? U64_MAX) && negb (bool_decide (n_role n = Leader)) then
        match BootstrapSingleNode n now with
        | (n', true) => Some ((set_node s i n') <| cl_campaigns ::= cons (i, n_term n') |>)
        | (_, false) => None
        end
      else None
  | ActEvent i ev =>
      n ← cl_nodes s !! i;
      let n' := run_event ev n in
      if bool_decide (event_ok ev) && bool_decide (n_config_state n' = kStable) &&
         bool_decide (cc_voters (n_cluster_config n') = cc_voters (n_cluster_config n))
      then Some (set_node s i n') else None
  | ActRestart i log sm fs path =>
      n ← cl_nodes s !! i;
      let n' := restart_node n log sm fs path in
      if bool_decide (ReadFile fs (with_slash path ++ str "meta.json") = rs_disk (n_storage n)) &&
         bool_decide (n_config_state n' = kStable)
      then Some ((set_node s i n') <| cl_elections ::= filter (fun e => el_candidate e ≠ i) |>) else None
  end.

Fixpoint run_actions (tr : list action) s : option Cluster :=
  match tr with
  | [] => Some s
  | a :: tr => s' ← run_action a s; run_actions tr s'
  end.

Definition leader s (i : NodeId) (t : Z) : Prop :=
  ∃ n, cl_nodes s !! i = Some n ∧ n_role n = Leader ∧ n_term n = t.

(** ** Initial states *)

(** The configuration of node [i]: the members, itself counted in or not. *)
Definition config_ok (i : NodeId) n : Prop :=
  n_config_state n = kStable ∧ cc_voters (n_cluster_config n) ∪ {[ i ]} = members.

Definition cluster_init s : Prop :=
  (∀ i, i ∈ members → i ≠ [] ∧ nul_free i) ∧
  (∀ i n, cl_nodes s !! i = Some n →
     i ∈ members ∧ n_node_id n = i ∧ n_role n = Follower ∧ storage_ok n ∧ config_ok i n) ∧
  cl_reqs s = [] ∧ cl_rsps s = [] ∧ cl_elections s = [] ∧ cl_campaigns s = [].

(** ** Votes *)

(** [p] voted for [c] in term [t]: it granted a request, or campaigned. *)
Definition voted s (p : NodeId) (t : Z) (c : NodeId) : Prop :=
  (∃ req rsp, (p, req, rsp) ∈ cl_rsps s ∧ vrsp_vote_granted rsp = true ∧
     vreq_term req = t ∧ vreq_candidate_id req = c) ∨
  (p = c ∧ (c, t) ∈ cl_campaigns s).

(** More than half of the members voted for [c]. *)
Definition won s (c : NodeId) (t : Z) : Prop :=
  ∃ q : gset NodeId, q ⊆ members ∧ (size members < 2 * size q)%nat ∧ ∀ p, p ∈ q → voted s p t c.

Definition node_ok (i : NodeId) n : Prop :=
  i ∈ members ∧ n_node_id n = i ∧ storage_ok n ∧ config_ok i n.

Record election_ok s (e : Election) : Prop := {
  eo_req : vreq_candidate_id (el_req e) = el_candidate e;
  eo_campaign : (el_candidate e, vreq_term (el_req e)) ∈ cl_campaigns s;
  eo_nodup : NoDup (ev_granters (el_tally e) ++ el_todo e);
  eo_peers p : p ∈ ev_granters (el_tally e) ++ el_todo e → p ∈ members ∧ p ≠ el_candidate e;
  eo_voted p : p ∈ ev_granters (el_tally e) → voted s p (vreq_term (el_req e)) (el_candidate e);
  eo_count : 0 ≤ ev_votes_received (el_tally e) ≤ 1 + zlen (ev_granters (el_tally e));
  eo_max : term_ok (ev_max_peer_term (el_tally e))
}.

Record inv s : Prop := {
  inv_ids i : i ∈ members → i ≠ [] ∧ nul_free i;
  inv_nodes i n : cl_nodes s !! i = Some n → node_ok i n;
  inv_reqs req : req ∈ cl_reqs s → term_ok (vreq_term req) ∧ vreq_candidate_id req ∈ members;
  inv_rsps p req rsp : (p, req, rsp) ∈ cl_rsps s → term_ok (vrsp_term rsp);
  inv_vote p t c : voted s p t c →
    c ∈ members ∧ ∃ n, cl_nodes s !! p = Some n ∧ t ≤ n_term n ∧ (t = n_term n → n_voted_for n = c);
  inv_unique p t c c' : voted s p t c → voted s p t c' → c = c';
  inv_elections e : e ∈ cl_elections s → election_ok s e;
  inv_candidate i n : cl_nodes s !! i = Some n → n_role n = Candidate → (i, n_term n) ∈ cl_campaigns s;
  inv_leader i n : cl_nodes s !! i = Some n → n_role n = Leader → won s i (n_term n)
}.

(** Votes and campaigns are never taken back. *)
Record grows s s' : Prop := {
  gr_voted p t c : voted s p t c → voted s' p t c;
  gr_campaigns x : x ∈ cl_campaigns s → x ∈ cl_campaigns s'
}.

Lemma won_mono s s' c t : grows s s' → won s c t → won s' c t.
Proof. intros [Hg _] (q & ? & ? & Hq). exists q. split_and!; auto. Qed.

Lemma election_ok_mono s s' e : grows s s' → election_ok s e → election_ok s' e.
Proof. intros [Hv Hc] []. split; auto. Qed.

(** A transition that changes one node.  Whatever is new is a vote of that node,
    in its present term, which its stored vote allowed. *)
Lemma inv_update s s' i n n' :
  inv s → cl_nodes s !! i = Some n → cl_nodes s' = <[i := n']> (cl_nodes s) →
  node_ok i n' → n_term n ≤ n_term n' →
  (n_term n' = n_term n → n_voted_for n' = n_voted_for n ∨ n_voted_for n = []) →
  grows s s' →
  (∀ p t c, voted s' p t c → voted s p t c ∨
     (p = i ∧ t = n_term n' ∧ c = n_voted_for n' ∧ c ∈ members)) →
  (n_role n' = Candidate → (i, n_term n') ∈ cl_campaigns s') →
  (n_role n' = Leader → won s' i (n_term n')) →
  (∀ req, req ∈ cl_reqs s' → req ∈ cl_reqs s ∨ term_ok (vreq_term req) ∧ vreq_candidate_id req ∈ members) →
  (∀ p req rsp, (p, req, rsp) ∈ cl_rsps s' → (p, req, rsp) ∈ cl_rsps s ∨ term_ok (vrsp_term rsp)) →
  (∀ e, e ∈ cl_elections s' → e ∈ cl_elections s ∨ election_ok s' e) →
  inv s'.
Proof.
  intros Hinv Hi Hn Hok Ht Hvote Hg Hnew Hcand Hlead Hreq Hrsp Hel.
  assert (∀ p t c, voted s p t c → c ∈ members ∧ ∃ m, cl_nodes s' !! p = Some m ∧ t ≤ n_term m ∧
    (t = n_term m → n_voted_for m = c)) as Hold.
  { intros p t c Hv. destruct (inv_vote s Hinv p t c Hv) as (Hc & m & Hm & Hle & Heq). split; [done|].
    rewrite Hn. destruct (decide (p = i)) as [->|]; [|rewrite lookup_insert_ne by done; eauto].
    rewrite lookup_insert_eq. exists n'. simplify_eq. split_and!; [done|lia|]. intros ->.
    destruct Hvote as [->|E]; [lia|apply Heq; lia|].
    destruct (inv_ids s Hinv c Hc) as [Hne _]. exfalso. apply Hne. rewrite <-E. symmetry. apply Heq. lia. }
  assert (∀ c, voted s i (n_term n') c → c = n_voted_for n') as Hi_old.
  { intros c Hv. destruct (Hold i _ c Hv) as (_ & m & Hm & _ & E). rewrite Hn, lookup_insert_eq in Hm.
    simplify_eq. symmetry. by apply E. }
  split.
  - apply Hinv.
  - intros j m. rewrite Hn, lookup_insert_Some. intros [[<- <-]|[_ Hm]]; [done|by apply Hinv].
  - intros req [?|?]%Hreq; [by apply Hinv|done].
  - intros p req rsp [?|?]%Hrsp; [by eapply inv_rsps|done].
  - intros p t c [Hv|(-> & -> & -> & Hm)]%Hnew; [by apply Hold|]. split; [done|].
    exists n'. rewrite Hn, lookup_insert_eq. split_and!; [done|lia|done].
  - intros p t c c' [Hv|(-> & -> & -> & _)]%Hnew [Hv'|(? & ? & ? & _)]%Hnew; subst; auto.
    + by eapply inv_unique.
    + symmetry. by apply Hi_old.
  - intros e [He|He]%Hel; [|done]. apply (election_ok_mono s); [done|]. by apply Hinv.
  - intros j m. rewrite Hn, lookup_insert_Some. intros [[<- <-]|[_ Hm]] Hr; [auto|].
    apply Hg. by eapply inv_candidate.
  - intros j m. rewrite Hn, lookup_insert_Some. intros [[<- <-]|[_ Hm]] Hr; [auto|].
    eapply won_mono; [done|]. by eapply inv_leader.
Qed.

(** ** Transitions without new votes *)

Lemma same_votes s s' :
  cl_rsps s' = cl_rsps s → cl_campaigns s' = cl_campaigns s →
  grows s s' ∧ ∀ p t c, voted s' p t c → voted s p t c.
Proof. intros E1 E2. split; [split|]; unfold voted; rewrite ?E1, ?E2; auto. Qed.

Lemma same_config_ok i n n' : same_config n n' → config_ok i n → config_ok i n'.
Proof. intros [E1 E2] []. unfold config_ok. by rewrite E1, E2. Qed.

Lemma inv_quiet s s' i n n' :
  inv s → cl_nodes s !! i = Some n → cl_nodes s' = <[i := n']> (cl_nodes s) →
  hs_step n n' → config_ok i n' →
  cl_reqs s' = cl_reqs s → cl_rsps s' = cl_rsps s → cl_campaigns s' = cl_campaigns s →
  (∀ e, e ∈ cl_elections s' → e ∈ cl_elections s) → inv s'.
Proof.
  intros Hinv Hi Hn [Hid Ht Hv Hr Hs] Hc E1 E2 E3 He.
  destruct (same_votes s s' E2 E3) as [Hg Hb]. destruct (inv_nodes s Hinv i n Hi) as (Hm & Hni & Hst & _).
  apply (inv_update s s' i n n'); auto.
  - split_and!; [done|congruence|auto|done].
  - intros Hc'. destruct Hr as [E E']; [congruence|]. rewrite E3, E'. apply (inv_candidate s Hinv i n); congruence.
  - intros Hl. destruct Hr as [E E']; [congruence|]. apply (won_mono s); [done|]. rewrite E'.
    apply (inv_leader s Hinv i n); congruence.
  - intros req. rewrite E1. auto.
  - intros p req rsp. rewrite E2. auto.
Qed.

Lemma inv_event s i ev s' : inv s → run_action (ActEvent i ev) s = Some s' → inv s'.
Proof.
  intros Hinv. simpl. destruct (cl_nodes s !! i) as [n|] eqn:Hi; [|done]. simpl.
  destruct (_ && _) eqn:Hg; [|done]. intros Hs. injection Hs as <-.
  apply andb_true_iff in Hg as [[H1%bool_decide_eq_true H2%bool_decide_eq_true]%andb_true_iff H3%bool_decide_eq_true].
  destruct (inv_nodes s Hinv i n Hi) as (_ & _ & _ & _ & Hm).
  apply (inv_quiet s _ i n (run_event ev n)); try done; [by apply run_event_step|].
  split; [done|]. by rewrite H3.
Qed.

(** Only the elections change. *)
Lemma inv_same_nodes s s' :
  inv s → cl_nodes s' = cl_nodes s → cl_reqs s' = cl_reqs s → cl_rsps s' = cl_rsps s →
  cl_campaigns s' = cl_campaigns s → (∀ e, e ∈ cl_elections s' → election_ok s e) → inv s'.
Proof.
  intros Hinv E1 E2 E3 E4 He. destruct (same_votes s s' E3 E4) as [Hg Hb].
  split; rewrite ?E1, ?E2, ?E3, ?E4.
  - apply Hinv.
  - apply Hinv.
  - apply Hinv.
  - apply Hinv.
  - intros p t c Hv%Hb. by apply Hinv.
  - intros p t c c' Hv%Hb Hv'%Hb. by eapply inv_unique.
  - intros e Hin%He. by apply (election_ok_mono s).
  - apply Hinv.
  - intros i n Hi Hr. apply (won_mono s); [done|]. by apply (inv_leader s Hinv).
Qed.

Lemma tally_reply_ok s e peer todo rsp :
  election_ok s e → el_todo e = peer :: todo → term_ok (vrsp_term rsp) →
  (vrsp_vote_granted rsp = true → voted s peer (vreq_term (el_req e)) (el_candidate e)) →
  election_ok s (mkElection (el_candidate e) (el_req e) todo (tally_vote (el_tally e) peer rsp)).
Proof.
  intros [H1 H2 H3 H4 H5 H6 H7] Htodo Ht Hg. rewrite Htodo in *.
  destruct (tally_vote_spec (el_tally e) peer rsp) as (E1 & E2 & E3 & E4).
  split; cbn [el_candidate el_req el_todo el_tally]; rewrite ?E1, ?E4; [done|done|..].
  - destruct (vrsp_vote_granted rsp); [by rewrite <-app_assoc|].
    eapply sublist_NoDup; [exact H3|]. apply sublist_app; [done|by constructor].
  - intros p Hp. apply H4. destruct (vrsp_vote_granted rsp); [by rewrite <-app_assoc in Hp|].
    rewrite elem_of_app in *. rewrite elem_of_cons. tauto.
  - intros p Hp. destruct (vrsp_vote_granted rsp); [|by apply H5].
    apply elem_of_app in Hp as [Hp| ->%list_elem_of_singleton]; auto.
  - split; [apply E3; lia|]. destruct (vrsp_vote_granted rsp); [rewrite zlen_app, zlen_cons|];
      specialize (E2 ltac:(lia)); unfold zlen in *; simpl; lia.
  - unfold term_ok in *. lia.
Qed.

Lemma inv_tally_reply s k e peer todo rsp :
  inv s → cl_elections s !! k = Some e → el_todo e = peer :: todo → term_ok (vrsp_term rsp) →
  (vrsp_vote_granted rsp = true → voted s peer (vreq_term (el_req e)) (el_candidate e)) →
  inv (tally_reply s k e peer todo rsp).
Proof.
  intros Hinv Hk Ht Hr Hg. apply (inv_same_nodes s); try done. intros e' Hin.
  apply list_elem_of_lookup in Hin as [j Hj]. simpl in Hj. apply list_lookup_insert_Some in Hj as [(_ & <- & _)|[_ Hj]].
  - apply tally_reply_ok; try done. apply (inv_elections s Hinv). by eapply list_elem_of_lookup_2.
  - apply (inv_elections s Hinv). by eapply list_elem_of_lookup_2.
Qed.

Lemma inv_reply s k r s' : inv s → run_action (ActVoteReply k r) s = Some s' → inv s'.
Proof.
  intros Hinv. simpl. destruct (cl_elections s !! k) as [e|] eqn:Hk; [|done]. simpl.
  destruct (cl_rsps s !! r) as [[[p req] rsp]|] eqn:Hr; [|done]. simpl.
  destruct (el_todo e) as [|peer todo] eqn:Ht; [done|]. destruct (_ && _) eqn:Hg; [|done].
  intros Hs. injection Hs as <-. apply andb_true_iff in Hg as [->%bool_decide_eq_true ->%bool_decide_eq_true].
  apply list_elem_of_lookup_2 in Hr. apply inv_tally_reply; try done; [by eapply inv_rsps|].
  intros Hg. left. exists (el_req e), rsp. split_and!; try done.
  apply (inv_elections s Hinv). by eapply list_elem_of_lookup_2.
Qed.

Lemma inv_failed s k s' : inv s → run_action (ActVoteFailed k) s = Some s' → inv s'.
Proof.
  intros Hinv. simpl. destruct (cl_elections s !! k) as [e|] eqn:Hk; [|done]. simpl.
  destruct (el_todo e) as [|peer todo] eqn:Ht; [done|]. intros Hs. injection Hs as <-.
  by apply inv_tally_reply.
Qed.

(** ** Transitions with a vote *)

(** The node votes for itself in the term it now has. *)
Lemma inv_self_vote s s' i n n' :
  inv s → cl_nodes s !! i = Some n → cl_nodes s' = <[i := n']> (cl_nodes s) →
  n_node_id n' = i → storage_ok n' → same_config n n' → n_term n ≤ n_term n' → n_voted_for n' = i →
  (n_term n' = n_term n → n_voted_for n = i) →
  cl_rsps s' = cl_rsps s → cl_campaigns s' = (i, n_term n') :: cl_campaigns s →
  (n_role n' = Leader → members = {[ i ]}) →
  (∀ req, req ∈ cl_reqs s' → req ∈ cl_reqs s ∨ term_ok (vreq_term req) ∧ vreq_candidate_id req ∈ members) →
  (grows s s' → ∀ e, e ∈ cl_elections s' → e ∈ cl_elections s ∨ election_ok s' e) →
  inv s'.
Proof.
  intros Hinv Hi Hn Hid Hst Hc Ht Hv Hv' E1 E2 Hl Hreq Hel.
  destruct (inv_nodes s Hinv i n Hi) as (Hm & _ & _ & Hc0).
  assert (grows s s') as Hg.
  { split; [|intros x; rewrite E2, elem_of_cons; auto]. unfold voted. rewrite E1, E2. intros p t c [?|[-> ?]]; [by left|].
    right. split; [done|]. by right. }
  apply (inv_update s s' i n n'); auto.
  - split_and!; [done..|]. by apply (same_config_ok i n).
  - intros E. left. rewrite Hv. symmetry. auto.
  - intros p t c [Hr|[-> Hin]]; [left; left; by rewrite <-E1|]. rewrite E2 in Hin.
    apply elem_of_cons in Hin as [Heq|Hin]; [|left; by right]. injection Heq as -> ->. right. by rewrite Hv.
  - intros _. rewrite E2. by left.
  - intros Hr. exists {[ i ]}. rewrite (Hl Hr), size_singleton. split_and!; [done|lia|].
    intros p ->%elem_of_singleton. right. rewrite E2. split; [done|by left].
  - intros p req rsp. rewrite E1. auto.
Qed.

Lemma peers_members i n p :
  config_ok i n → n_node_id n = i → p ∈ GetPeerIdsLocked n → p ∈ members ∧ p ≠ i.
Proof.
  intros [Hs Hm] Hid Hp. unfold GetPeerIdsLocked in Hp. rewrite Hs, Hid in Hp.
  apply list_elem_of_filter in Hp as [Hne Hp]. apply elem_of_elements in Hp. split; [|done].
  rewrite <-Hm. by apply elem_of_union_l.
Qed.

Lemma inv_start s i s' : inv s → run_action (ActStartElection i) s = Some s' → inv s'.
Proof.
  intros Hinv. simpl. destruct (cl_nodes s !! i) as [n|] eqn:Hi; [|done]. simpl.
  destruct (Z.ltb_spec (n_term n) U64_MAX) as [Hlt|]; [|done].
  destruct (inv_nodes s Hinv i n Hi) as (Hm & Hid & Hst & Hc).
  destruct (inv_ids s Hinv i Hm) as [Hne Hnul].
  assert (0 ≤ n_term n < U64_MAX) as Hrange by (destruct Hst as (_ & ? & _); lia).
  pose proof (StartElection_begin_spec n Hrange ltac:(by rewrite Hid)) as Hspec.
  destruct (StartElection_begin n) as [n' [[req peers]|]]; [|done].
  destruct Hspec as ([Hi' Ht' Hv' Hr' Hs' Hc'] & Et & Ecand & Ep). specialize (Ep (proj1 Hc)).
  intros Hs. injection Hs as <-.
  assert (vreq_candidate_id req = i) as Ei by congruence.
  apply (inv_self_vote s _ i n n'); try done; try congruence; try lia; auto.
  - intros req0. simpl. rewrite elem_of_app, list_elem_of_singleton. intros [?| ->]; [by left|right].
    rewrite Et, Ei. split; [unfold term_ok; lia|done].
  - intros Hg e. simpl. rewrite elem_of_app, list_elem_of_singleton. intros [?| ->]; [by left|right].
    split; simpl; rewrite ?Et; auto.
    + by left.
    + rewrite Ep. unfold GetPeerIdsLocked. rewrite (proj1 Hc). apply NoDup_filter, NoDup_elements.
    + intros p. rewrite Ep. by apply peers_members.
    + by intros p ?%elem_of_nil.
    + unfold zlen. simpl. lia.
    + unfold term_ok. lia.
Qed.

Lemma inv_timeout s i s' : inv s → run_action (ActElectionTimeout i) s = Some s' → inv s'.
Proof.
  intros Hinv. simpl. destruct (cl_nodes s !! i) as [n|] eqn:Hi; [|done]. simpl.
  destruct (_ && _) eqn:Hg; [|done]. intros Hs. injection Hs as <-.
  apply andb_true_iff in Hg as [[Hlt Hsd]%andb_true_iff Hr%bool_decide_eq_true].
  destruct (inv_nodes s Hinv i n Hi) as (Hm & Hid & Hst & Hc). destruct (inv_ids s Hinv i Hm) as [Hne Hnul].
  assert (campaign_spec n (OnElectionTimeout n)) as [Hi' Ht' Hv' Hr' Hs' Hc'].
  { unfold OnElectionTimeout. apply negb_true_iff in Hsd. rewrite Hsd, bool_decide_true by done. cbn [negb].
    apply BecomeCandidateLocked_spec; [congruence| |by rewrite Hid].
    destruct Hst as (_ & ? & _). apply Z.ltb_lt in Hlt. lia. }
  apply (inv_self_vote s _ i n (OnElectionTimeout n)); try done; try congruence; try lia; auto.
Qed.

Lemma inv_request s p k s' : inv s → run_action (ActRequestVote p k) s = Some s' → inv s'.
Proof.
  intros Hinv. simpl. destruct (cl_nodes s !! p) as [n|] eqn:Hi; [|done]. simpl.
  destruct (cl_reqs s !! k) as [req|] eqn:Hk; [|done]. simpl. apply list_elem_of_lookup_2 in Hk.
  destruct (inv_reqs s Hinv req Hk) as [Hrt Hrc]. destruct (inv_ids s Hinv _ Hrc) as [Hne Hnul].
  destruct (inv_nodes s Hinv p n Hi) as (Hm & Hid & Hst & Hc).
  destruct (OnRequestVote_spec n req Hrt Hnul) as [V1 V2 V3 V4 V5 V6 V7 V8].
  destruct (OnRequestVote n req) as [n' rsp]. cbn [fst snd] in *. intros Hs. injection Hs as <-.
  match goal with |- inv ?x => set (s' := x) end.
  assert (cl_rsps s' = cl_rsps s ++ [(p, req, rsp)]) as E1 by done.
  assert (cl_campaigns s' = cl_campaigns s) as E2 by done.
  assert (grows s s') as Hg.
  { split; [|by rewrite E2]. unfold voted. rewrite E1, E2. intros q t c [(rq & rp & ? & ?)|?]; [left|by right].
    exists rq, rp. rewrite elem_of_app. auto. }
  apply (inv_update s s' p n n'); auto.
  - split_and!; [done|congruence|auto|by apply (same_config_ok p n)].
  - intros E. destruct (vrsp_vote_granted rsp); [|left; auto]. destruct V8 as (_ & Ev & Hd); [done|].
    destruct (Hd E) as [?|Ev']; [by right|left; congruence].
  - intros q t c [(rq & rp & Hin & Hgr & <- & <-)|[-> Hin]]; [|left; right; by rewrite <-E2].
    rewrite E1 in Hin. apply elem_of_app in Hin as [Hin|Hin%list_elem_of_singleton]; [left; left; by exists rq, rp|].
    injection Hin as -> -> ->. right. destruct (V8 Hgr) as (-> & -> & _). done.
  - intros Hcand. destruct V5 as [E E']; [congruence|]. rewrite E2, E'. apply (inv_candidate s Hinv p n); congruence.
  - intros Hl. destruct V5 as [E E']; [congruence|]. apply (won_mono s); [done|]. rewrite E'.
    apply (inv_leader s Hinv p n); congruence.
  - intros q rq rp. rewrite E1, elem_of_app, list_elem_of_singleton. intros [?|Heq]; [by left|right].
    injection Heq as -> -> ->. rewrite V2. destruct (V4 Hst) as (_ & ? & _). done.
Qed.

(** ** Winning *)

(** Enough granted votes, with the candidate's own, are a majority. *)
Lemma election_won s e i n :
  election_ok s e → el_candidate e = i → i ∈ members → config_ok i n →
  (voters_size (n_cluster_config n) + 1) / 2 + 1 ≤ ev_votes_received (el_tally e) →
  won s i (vreq_term (el_req e)).
Proof.
  intros [H1 H2 H3 H4 H5 H6 _] <- Hm [_ Hc] Hmaj. apply NoDup_app in H3 as (Hnd & _ & _).
  set (g := ev_granters (el_tally e)) in *.
  assert (∀ p, p ∈ g → p ∈ members ∧ p ≠ el_candidate e) as Hg
    by (intros p Hp; apply H4; rewrite elem_of_app; by left).
  exists ({[ el_candidate e ]} ∪ list_to_set g). split_and!.
  - intros p. rewrite elem_of_union, elem_of_singleton, elem_of_list_to_set. intros [->|Hp]; [done|by apply Hg].
  - rewrite size_union, size_singleton, (size_list_to_set g Hnd).
    + assert (size members ≤ S (size (cc_voters (n_cluster_config n))))%nat as Hsz.
      { rewrite <-Hc, size_union_alt. 
        pose proof (subseteq_size ({[ el_candidate e ]} ∖ cc_voters (n_cluster_config n)) {[ el_candidate e ]}
          (subseteq_difference_l _ _ _ (reflexivity _))) as Hd.
        rewrite size_singleton in Hd. lia. }
      unfold voters_size, zlen in *. Z.to_euclidean_division_equations. lia.
    + intros p ->%elem_of_singleton Hp%elem_of_list_to_set. by destruct (Hg _ Hp).
  - intros p. rewrite elem_of_union, elem_of_singleton, elem_of_list_to_set. intros [->|Hp]; [by right|by apply H5].
Qed.

Lemma inv_finish s k now s' : inv s → run_action (ActFinishElection k now) s = Some s' → inv s'.
Proof.
  intros Hinv. simpl. destruct (cl_elections s !! k) as [e|] eqn:Hk; [|done]. simpl.
  destruct (cl_nodes s !! el_candidate e) as [n|] eqn:Hi; [|done]. simpl. intros Hs. injection Hs as <-.
  assert (e ∈ cl_elections s) as He by (by eapply list_elem_of_lookup_2).
  pose proof (inv_elections s Hinv e He) as Hok.
  destruct (inv_nodes s Hinv _ n Hi) as (Hm & Hid & Hst & Hc).
  pose proof (StartElection_finish_spec n now (el_req e) (el_tally e) (proj1 Hc) (eo_max s e Hok)) as [Hsc Hcase].
  generalize dependent (StartElection_finish n now (el_req e) (el_tally e)). intros n' Hsc Hcase.
  match goal with |- inv ?x => set (s' := x) end.
  assert (∀ x, x ∈ cl_elections s' → x ∈ cl_elections s) as Hel.
  { intros x. apply list_elem_of_delete_inv. }
  destruct Hcase as [Hh|(Hr & Ht & Es & Ei & Hl & Hmaj)].
  { apply (inv_quiet s s' (el_candidate e) n n'); try done. by apply (same_config_ok _ n). }
  assert (n_term n' = n_term n ∧ n_voted_for n' = n_voted_for n) as [Et Ev]
    by (unfold n_term, n_voted_for; by rewrite Es).
  destruct (same_votes s s' eq_refl eq_refl) as [Hg Hb].
  apply (inv_update s s' (el_candidate e) n n'); try done; try lia; auto.
  - split_and!; [done|congruence| |by apply (same_config_ok _ n)]. unfold storage_ok. by rewrite Et, Ev, Es.
  - congruence.
  - intros _. apply (won_mono s); [done|]. rewrite Et, Ht. by eapply election_won.
Qed.

Lemma inv_bootstrap s i now s' : inv s → run_action (ActBootstrap i now) s = Some s' → inv s'.
Proof.
  intros Hinv. simpl. destruct (cl_nodes s !! i) as [n|] eqn:Hi; [|done]. simpl.
  destruct (_ && _) eqn:Hg; [|done].
  apply andb_true_iff in Hg as [Hlt%Z.ltb_lt Hnl%negb_true_iff%bool_decide_eq_false].
  destruct (inv_nodes s Hinv i n Hi) as (Hm & Hid & Hst & Hc). destruct (inv_ids s Hinv i Hm) as [Hne Hnul].
  unfold BootstrapSingleNode. rewrite bool_decide_false by done.
  destruct (bool_decide (GetPeerIdsLocked n = [])) eqn:Hp; cbn [negb]; [|done]. apply bool_decide_eq_true in Hp.
  intros Hs. injection Hs as <-.
  assert (members = {[ i ]}) as Hone.
  { destruct Hc as [Hst' Hc]. apply set_eq. intros x. rewrite elem_of_singleton. split; [|by intros ->].
    rewrite <-Hc, elem_of_union, elem_of_singleton. intros [Hx|?]; [|done]. apply dec_stable. intros Hx'.
    assert (x ∈ GetPeerIdsLocked n) as Hin; [|by rewrite Hp in Hin; apply elem_of_nil in Hin].
    unfold GetPeerIdsLocked. rewrite Hst', Hid. apply list_elem_of_filter. by rewrite elem_of_elements. }
  assert (∃ n1, n1 = BecomeCandidateLocked n ∧ n_node_id n1 = n_node_id n ∧ storage_ok n1 ∧ same_config n n1 ∧
    n_term n ≤ n_term n1 ∧ n_voted_for n1 = i ∧ (n_term n1 = n_term n → n_voted_for n = i))
    as (n1 & <- & F1 & F2 & F3 & F4 & F5 & F6).
  { eexists. split; [reflexivity|]. destruct (decide (n_role n = Candidate)) as [Hcd|Hcd].
    - unfold BecomeCandidateLocked. rewrite bool_decide_true by done.
      destruct (inv_vote s Hinv i (n_term n) i) as (_ & m & Hmi & _ & Hv).
      { right. split; [done|]. by apply (inv_candidate s Hinv). }
      simplify_eq. specialize (Hv eq_refl). split_and!; try done; lia.
    - destruct (BecomeCandidateLocked_spec n Hcd) as [C1 C2 C3 C4 C5 C6].
      + destruct Hst as (_ & ? & _). lia.
      + by rewrite Hid.
      + split_and!; auto; try congruence; lia. }
  destruct (BecomeLeaderLocked_fields n1 now) as (E1 & E2 & E3 & E4 & E5).
  generalize dependent (BecomeLeaderLocked n1 now). intros n' E1 E2 E3 E4 E5.
  assert (n_term n' = n_term n1 ∧ n_voted_for n' = n_voted_for n1) as [Et Ev]
    by (unfold n_term, n_voted_for; by rewrite E1).
  apply (inv_self_vote s _ i n n'); try done; auto; try congruence.
  - unfold storage_ok. by rewrite E1, Et, Ev.
  - destruct F3. split; congruence.
  - rewrite Et. auto.
Qed.

(** ** Restarts *)

Lemma Load_same_disk st path :
  durable st → path ≠ [] →
  let s' := RaftStorage_Load (RaftStorage_new path (rs_disk st)) in
  durable s' ∧ rs_current_term s' = rs_current_term st ∧ rs_voted_for s' = rs_voted_for st.
Proof.
  intros (Hp & Ht & Hv) Hpath s'.
  assert (rs_current_term s' = rs_current_term (RaftStorage_restart st) ∧
          rs_voted_for s' = rs_voted_for (RaftStorage_restart st)) as [E1 E2].
  { unfold s', RaftStorage_restart, RaftStorage_Load. simpl.
    rewrite (bool_decide_false (path = [])), (bool_decide_false (rs_path st = [])) by done.
    case_bool_decide.
    - unfold RaftStorage_Flush. simpl. by repeat case_bool_decide.
    - destruct (Deserialize_hard_state (RaftStorage_new path (rs_disk st)) (rs_disk st)) as (-> & -> & _).
      by destruct (Deserialize_hard_state (RaftStorage_new (rs_path st) (rs_disk st)) (rs_disk st)) as (-> & -> & _). }
  rewrite E1, E2, Ht, Hv. split; [|done].
  change (durable (RaftStorage_restart (st <| rs_path := path |>))). apply restart_durable.
  split_and!; [done|..]; simpl.
  - etrans; [exact E1|done].
  - etrans; [exact E2|done].
Qed.

Lemma SetStoragePath_fields n fs path :
  let n' := (SetStoragePath n fs path).1 in
  let meta := with_slash path ++ str "meta.json" in
  n_storage n' = RaftStorage_Load (RaftStorage_new meta (ReadFile fs meta)) ∧
  n_role n' = n_role n ∧ n_node_id n' = n_node_id n ∧ n_cluster_config n' = n_cluster_config n.
Proof.
  unfold SetStoragePath, recover_snapshot. cbv zeta.
  destruct (n_state_machine _) as [sm|]; [|split_and!; reflexivity].
  destruct (SnapshotLoader_Load _ _) as [[fs' st] loaded].
  destruct st; [|split_and!; reflexivity..]. destruct loaded as [loaded|]; [|split_and!; reflexivity].
  destruct (LoadSnapshot _ _) as [sm' ok]. destruct ok; split_and!; reflexivity.
Qed.

Lemma inv_restart s i log sm fs path s' :
  inv s → run_action (ActRestart i log sm fs path) s = Some s' → inv s'.
Proof.
  intros Hinv. simpl. destruct (cl_nodes s !! i) as [n|] eqn:Hi; [|done]. simpl.
  destruct (_ && _) eqn:Hg; [|done]. intros Hs. injection Hs as <-.
  apply andb_true_iff in Hg as [Hd%bool_decide_eq_true Hst'%bool_decide_eq_true].
  destruct (inv_nodes s Hinv i n Hi) as (Hm & Hid & (Hdur & Hto & Hvo) & _ & Hc).
  revert Hst'. unfold restart_node.
  match goal with |- context [SetStoragePath ?m] => set (n0 := m) end. intros Hst'.
  destruct (SetStoragePath_fields n0 fs path) as (Es & Er & Ei & Ec).
  destruct (Load_same_disk (n_storage n) (with_slash path ++ str "meta.json") Hdur) as (Hdur' & Et & Ev);
    [by intros [_ ?]%app_eq_nil|]. rewrite <-Hd, <-Es in Hdur', Et, Ev.
  generalize dependent (SetStoragePath n0 fs path).1. intros n' Hst' Es Er Ei Ec Hdur' Et Ev.
  apply (inv_quiet s _ i n n'); try done.
  - change (n_node_id n0) with (n_node_id n) in Ei. change (n_role n0) with Follower in Er.
    split; [done| |intros _; exact Ev|congruence|]; unfold storage_ok, n_term, n_voted_for in *;
      rewrite ?Et, ?Ev; [lia|done].
  - split; [done|]. by rewrite Ec.
  - intros e. simpl. by intros [_ ?]%list_elem_of_filter.
Qed.

(** ** The theorem *)

Lemma inv_init s : cluster_init s → inv s.
Proof.
  intros (Hids & Hn & E1 & E2 & E3 & E4).
  assert (∀ p t c, ¬ voted s p t c) as Hno.
  { intros p t c [(rq & rp & Hin & _)|[_ Hin]]; rewrite ?E2, ?E4 in Hin; by apply elem_of_nil in Hin. }
  split; rewrite ?E1, ?E2, ?E3, ?E4; try (by intros * ?%elem_of_nil); try (by intros * ?%Hno).
  - done.
  - intros i n Hi. destruct (Hn i n Hi) as (? & ? & ? & ? & ?). by split_and!.
  - intros i n Hi Hr. destruct (Hn i n Hi) as (_ & _ & E & _). congruence.
  - intros i n Hi Hr. destruct (Hn i n Hi) as (_ & _ & E & _). congruence.
Qed.

Lemma inv_action a s s' : inv s → run_action a s = Some s' → inv s'.
Proof.
  destruct a; [apply inv_start|apply inv_timeout|apply inv_request|apply inv_reply|apply inv_failed|
    apply inv_finish|apply inv_bootstrap|apply inv_event|apply inv_restart].
Qed.

Lemma inv_actions tr s s' : inv s → run_actions tr s = Some s' → inv s'.
Proof.
  revert s. induction tr as [|a tr IH]; intros s Hinv; simpl; [by intros [= <-]|].
  destruct (run_action a s) as [s1|] eqn:E; [|done]. simpl. eauto using inv_action.
Qed.

Lemma grows_sub s s' :
  (∀ x, x ∈ cl_rsps s → x ∈ cl_rsps s') → (∀ x, x ∈ cl_campaigns s → x ∈ cl_campaigns s') → grows s s'.
Proof. intros H1 H2. split; [|done]. intros p t c [(rq & rp & ? & ?)|[-> ?]]; [left; eauto 10|right; auto]. Qed.

Lemma grows_action a s s' : run_action a s = Some s' → grows s s'.
Proof.
  intros H. apply grows_sub; intros x Hx; revert H; destruct a; simpl;
    repeat (let E := fresh "E" in
            match goal with |- context [@mbind _ _ _ _ _ ?o] => destruct o eqn:E; [simpl|done] end);
    repeat case_match; intros; simplify_eq; simpl; rewrite ?elem_of_app, ?elem_of_cons; auto.
Qed.

Lemma grows_actions tr s s' : run_actions tr s = Some s' → grows s s'.
Proof.
  revert s. induction tr as [|a tr IH]; intros s; simpl; [by intros [= <-]; split|].
  destruct (run_action a s) as [s1|] eqn:E; [|done]. simpl. intros H.
  destruct (grows_action a s s1 E), (IH s1 H). split; auto.
Qed.

Lemma won_unique s c c' t : inv s → won s c t → won s c' t → c = c'.
Proof.
  intros Hinv (q & Hq & Hs & Hv) (q' & Hq' & Hs' & Hv').
  assert (∃ p, p ∈ q ∧ p ∈ q') as (p & Hp & Hp').
  { destruct (set_choose_or_empty (q ∩ q')) as [[p Hp]|He];
      [exists p; by apply elem_of_intersection|].
    exfalso. assert (size (q ∪ q') = size q + size q')%nat as E
      by (apply size_union; intros x Hx Hx'; apply (not_elem_of_empty (C := gset NodeId) x), He; by apply elem_of_intersection).
    assert (size (q ∪ q') ≤ size members)%nat by (by apply subseteq_size, union_least). lia. }
  by eapply inv_unique; eauto.
Qed.


(** One vote per term: a node that granted its vote to a candidate never
    grants it to another one in the same term, across crashes and restarts. *)
Theorem one_vote_per_term s0 s tr p req rsp req' rsp' :
  cluster_init s0 → run_actions tr s0 = Some s →
  (p, req, rsp) ∈ cl_rsps s → (p, req', rsp') ∈ cl_rsps s →
  vrsp_vote_granted rsp = true → vrsp_vote_granted rsp' = true →
  vreq_term req = vreq_term req' → vreq_candidate_id req = vreq_candidate_id req'.
Proof.
  intros Hi Hr Hin Hin' Hg Hg' Ht.
  apply (inv_unique s (inv_actions tr s0 s (inv_init s0 Hi) Hr) p (vreq_term req)); left.
  - by exists req, rsp.
  - by exists req', rsp'.
Qed.
End cluster.

(** ** Example: three nodes, two elections and a restart *)

Section examples.
#[local] Existing Instance example_lib.

Definition example_ids : list NodeId := [str "n1"; str "n2"; str "n3"].

Definition example_member (i : NodeId) : RaftNode CommandLog KvStateMachine :=
  (SetStoragePath ((example_node (KvStateMachine_new 0 2) CommandLog_new) <| n_node_id := i |>
     <| n_cluster_config := mkClusterConfig 1 (list_to_set example_ids ∖ {[ i ]}) ∅ |>) ∅ i).1.

Definition example_cluster : Cluster (L := CommandLog) (SM := KvStateMachine) :=
  mkCluster (list_to_map (map (λ i, (i, example_member i)) example_ids)) [] [] [] [].

(** n1 campaigns, n2 and n3 grant their votes, the answer of n2 is lost. *)
Definition example_trace1 : list (action (L := CommandLog) (SM := KvStateMachine)) :=
  [ActStartElection (str "n1"); ActRequestVote (str "n2") 0; ActRequestVote (str "n3") 0;
   ActVoteReply 0 1; ActVoteFailed 0; ActFinishElection 0 100].

Definition example_state1 : Cluster (L := CommandLog) (SM := KvStateMachine) :=
  default example_cluster (run_actions example_trace1 example_cluster).

Definition meta_json (i : NodeId) : bytes := with_slash i ++ str "meta.json".

(** The files of node [i]. *)
Definition example_files (i : NodeId) : files :=
  match cl_nodes example_state1 !! i with
  | Some n => {[ meta_json i := rs_disk (n_storage n) ]}
  | None => ∅
  end.

(** n2 restarts, gets the request of n1 once more, and then campaigns itself. *)
Definition example_trace2 : list (action (L := CommandLog) (SM := KvStateMachine)) :=
  [ActRestart (str "n2") None None (example_files (str "n2")) (str "n2"); ActRequestVote (str "n2") 0;
   ActStartElection (str "n2")].

Definition example_state2 : Cluster (L := CommandLog) (SM := KvStateMachine) :=
  default example_state1 (run_actions example_trace2 example_state1).

Definition is_leader (s : Cluster (L := CommandLog) (SM := KvStateMachine)) (i : NodeId) (t : Z) : bool :=
  match cl_nodes s !! i with
  | Some n => bool_decide (n_role n = Leader) && (n_term n =? t)
  | None => false
  end.

Lemma is_leader_spec s i t : is_leader s i t = true → leader s i t.
Proof. unfold is_leader, leader. case_match; [|done]. intros [Hr Ht]%andb_true_iff. bool_norm. eauto. Qed.
Lemma some_default {A} (d : A) (o : option A) :
  match o with Some _ => true | None => false end = true → o = Some (default d o).
Proof. by destruct o. Qed.

#[local] Instance durable_dec st : Decision (durable st).
Proof. unfold durable. apply _. Defined.

#[local] Instance storage_ok_dec (n : RaftNode CommandLog KvStateMachine) : Decision (storage_ok n).
Proof. unfold storage_ok. apply _. Defined.

#[local] Instance config_ok_dec ms i (n : RaftNode CommandLog KvStateMachine) : Decision (config_ok ms i n).
Proof. unfold config_ok. apply _. Defined.

Definition example_members : gset NodeId := list_to_set example_ids.

Lemma example_init : cluster_init example_members example_cluster.
Proof.
  assert (set_Forall (λ i, i ≠ [] ∧ nul_free i) example_members) as H1 by by_decide.
  assert (map_Forall (λ i n, i ∈ example_members ∧ n_node_id n = i ∧ n_role n = Follower ∧ storage_ok n ∧
    config_ok example_members i n) (cl_nodes example_cluster)) as H2 by by_decide.
  split; [exact H1|]. split; [exact H2|done].
Qed.


Definition example_request : VoteRequest := mkVoteRequest 0 1 (str "n1") 0 0.

Definition example_state12 : Cluster (L := CommandLog) (SM := KvStateMachine) :=
  default example_cluster (run_actions (example_trace1 ++ example_trace2) example_cluster).

(** n2 granted the request before its restart and again after it. *)
Lemma one_vote_per_term_witness :
  cl_rsps example_state12 !! 0%nat = Some (str "n2", example_request, mkVoteResponse 0 1 true) ∧
  cl_rsps example_state12 !! 2%nat = Some (str "n2", example_request, mkVoteResponse 0 1 true) ∧
  vreq_candidate_id example_request = vreq_candidate_id example_request.
Proof.
  assert (cl_rsps example_state12 !! 0%nat = Some (str "n2", example_request, mkVoteResponse 0 1 true)) as H0
    by (vm_compute; reflexivity).
  assert (cl_rsps example_state12 !! 2%nat = Some (str "n2", example_request, mkVoteResponse 0 1 true)) as H2
    by (vm_compute; reflexivity).
  split; [exact H0|]. split; [exact H2|].
  apply (one_vote_per_term example_members example_cluster example_state12 (example_trace1 ++ example_trace2)
    (str "n2") example_request (mkVoteResponse 0 1 true) example_request (mkVoteResponse 0 1 true)).
  - apply example_init.
  - apply some_default. vm_compute. reflexivity.
  - exact (list_elem_of_lookup_2 _ _ _ H0).
  - exact (list_elem_of_lookup_2 _ _ _ H2).
  - reflexivity.
  - reflexivity.
  - reflexivity.
Defined.

End examples.
