(* ===== verification/FollowerLog.v ===== *)
(** * The log of a follower

    What [OnAppendEntries], [ApplyCommittedLogsLocked] and [OnInstallSnapshot]
    do to the log and the state machine, for every log that meets the contract
    of LogStorage.v. *)

From S2P Require Import Prelude RaftTypes LogStorage StateMachine RaftStorage ApplyProgress ElectionTimer SnapshotTransfer CommandEncoder CommandLog KvStateMachine RaftNode Replication HardState Recovery.

Section follower.
Context {L SM : Type} `{!LogStorage L, !StateMachine SM, !LogStorageSpec L}.
Implicit Types n : RaftNode L SM.

(** ** The entry loop *)

(** The entries carry the indices [k + 1], [k + 2], ... *)
Definition entries_from (k : Z) (es : list LogEntry) : Prop :=
  ∀ i e, es !! i = Some e → le_index e = k + 1 + Z.of_nat i.

Lemma entries_from_cons k e es :
  entries_from k (e :: es) → le_index e = k + 1 ∧ entries_from (k + 1) es.
Proof.
  intros H. split; [rewrite (H 0%nat e eq_refl); lia|]. intros i x Hx. rewrite (H (S i) x Hx). lia.
Qed.

(** The entries of [a] up to index [k]. *)
Definition al_upto (a : alog) (k : Z) : list LogEntry := take (Z.to_nat (k - al_base a)) (al_entries a).

(** Where the log already has an entry of that index and term, it is the same
    entry (the Log Matching property of the protocol). *)
Definition log_matches (a : alog) (es : list LogEntry) : Prop :=
  ∀ e x, e ∈ es → al_get a (le_index e) = Some x → le_term x = le_term e → x = e.

Lemma al_upto_next a k x :
  al_base a ≤ k → al_get a (k + 1) = Some x → al_upto a (k + 1) = al_upto a k ++ [x].
Proof.
  intros Hk Hx. unfold al_get in Hx. destruct (Z.leb_spec (k + 1) (al_base a)); [done|].
  unfold al_upto. replace (Z.to_nat (k + 1 - al_base a)) with (S (Z.to_nat (k - al_base a))) by lia.
  apply take_S_r. rewrite <-Hx. f_equal. lia.
Qed.

Lemma al_upto_all a k : al_last a ≤ k → al_upto a k = al_entries a.
Proof. unfold al_upto, al_last, zlen. intros. apply take_ge. lia. Qed.

(** [Append] right after index [k]. *)
Lemma append_upto a k e :
  al_last a = k → le_index e = k + 1 → al_upto (al_append a e) (k + 1) = al_upto a k ++ [e].
Proof.
  intros Hk He. rewrite (al_upto_all a k) by lia. rewrite al_upto_all by (rewrite al_last_append; lia).
  destruct e as [t i c]. simpl in *. by rewrite Hk, He.
Qed.

(** [TruncateFrom] to an index that the contract covers. *)
Lemma truncate_rep l a k :
  log_rep l a → al_base a ≤ k ≤ al_last a → al_base a < k ∨ al_base a = 0 →
  ∃ a', log_rep (TruncateFrom l k) a' ∧ al_base a' = al_base a ∧ al_entries a' = al_upto a k ∧ al_last a' = k ∧
    kept_anchor (al_anchor a) (al_anchor a').
Proof.
  intros Hr Hk Hb. destruct (decide (al_base a < k)) as [Hlt|].
  - exists (al_truncate a k). split_and!; [apply rep_TruncateFrom; [done|lia]|done|done| |by left].
    apply al_last_truncate. lia.
  - assert (k = 0 ∧ al_base a = 0) as [-> Hb0] by lia. destruct (rep_TruncateFrom_0 l a Hr Hb0) as (an & Han & Hk0).
    exists (mkAlog 0 [] an). split_and!; [done|done| |done|done]. unfold al_upto. by rewrite Hb0.
Qed.

Lemma append_entries_loop_spec es : ∀ l a k,
  log_rep l a → al_base a ≤ k ≤ al_last a → al_base a < k ∨ al_base a = 0 →
  entries_from k es → k + zlen es + 1 < U64_MAX → log_matches a es →
  ∃ l' a', append_entries_loop l es = (l', true) ∧ log_rep l' a' ∧ al_base a' = al_base a ∧
    al_upto a' (k + zlen es) = al_upto a k ++ es ∧ k + zlen es ≤ al_last a' ∧
    kept_anchor (al_anchor a) (al_anchor a').
Proof.
  induction es as [|e es IH]; intros l a k Hr Hk Hb Hidx Hmax Hm.
  { exists l, a. rewrite zlen_nil, Z.add_0_r, app_nil_r. split_and!; auto; [lia|by left]. }
  destruct (entries_from_cons k e es Hidx) as [He Hes]. rewrite zlen_cons in *.
  pose proof (zlen_nonneg es) as Hnn. cbn [append_entries_loop]. rewrite (rep_LastIndex l a Hr), He.
  assert (∀ l1 a1, log_rep l1 a1 → al_base a1 = al_base a → k + 1 ≤ al_last a1 →
    al_upto a1 (k + 1) = al_upto a k ++ [e] → log_matches a1 es → kept_anchor (al_anchor a) (al_anchor a1) →
    ∃ l' a', append_entries_loop l1 es = (l', true) ∧ log_rep l' a' ∧ al_base a' = al_base a ∧
      al_upto a' (k + (1 + zlen es)) = al_upto a k ++ e :: es ∧ k + (1 + zlen es) ≤ al_last a' ∧
      kept_anchor (al_anchor a) (al_anchor a')) as Hstep.
  { intros l1 a1 Hr1 Hb1 Hl1 Hu1 Hm1 Hk1. destruct (IH l1 a1 (k + 1)) as (l' & a' & E & Hr' & Hb' & Hu & Hl' & Hk');
      [done|lia|lia|done|lia|done|]. exists l', a'. rewrite Hu1, <-app_assoc in Hu.
    replace (k + (1 + zlen es)) with (k + 1 + zlen es) by lia.
    split_and!; try (congruence || done). by apply (kept_anchor_trans _ (al_anchor a1)). }
  assert (∀ l1 a1, log_rep l1 a1 → al_base a1 = al_base a → al_last a1 = k → al_entries a1 = al_upto a k →
    kept_anchor (al_anchor a) (al_anchor a1) →
    ∃ l' a', append_entries_loop (Append l1 e true).1 es = (l', true) ∧ log_rep l' a' ∧ al_base a' = al_base a ∧
      al_upto a' (k + (1 + zlen es)) = al_upto a k ++ e :: es ∧ k + (1 + zlen es) ≤ al_last a' ∧
      kept_anchor (al_anchor a) (al_anchor a')) as Happ.
  { intros l1 a1 Hr1 Hb1 Hl1 He1 Hk1. destruct (rep_Append l1 a1 e true Hr1) as [Hr2 _]; [lia|].
    apply (Hstep _ (al_append a1 e)); [done|done|rewrite al_last_append; lia| | |done].
    - rewrite (append_upto a1 k e) by done. f_equal. by rewrite al_upto_all by lia.
    - intros x y Hx Hy _. apply list_elem_of_lookup in Hx as [i Hx]. specialize (Hes i x Hx).
      apply al_get_Some in Hy. rewrite al_last_append in Hy. lia. }
  destruct (Z.leb_spec (k + 1) (al_last a)) as [Hle|Hgt].
  - rewrite (rep_Get l a (k + 1) Hr) by lia. destruct (al_get_is_Some a (k + 1)) as [x Hx]; [lia|]. rewrite Hx.
    destruct (le_term x =? le_term e) eqn:Ht; bool_norm.
    + apply (Hstep l a); [done|done|lia| |intros ? ? ?; apply Hm; by right|by left].
      assert (x = e) as <- by (apply Hm; [by left|by rewrite He|done]). apply al_upto_next; [lia|done].
    + replace (u64 (k + 1 - 1)) with k by (rewrite u64_small by (pose proof (al_base_nonneg a (rep_wf l a Hr)); lia); lia).
      destruct (truncate_rep l a k Hr Hk Hb) as (a1 & ? & ? & ? & ? & ?). by apply (Happ _ a1).
  - rewrite u64_small by (pose proof (al_base_nonneg a (rep_wf l a Hr)); lia).
    assert (al_last a = k) as E by lia. rewrite E, Z.eqb_refl. apply (Happ l a); [done|done|done| |by left].
    by rewrite al_upto_all by lia.
Qed.

(** The whole of what the request does to the log: the entries up to
    [prev_log_index], then those of the request, and nothing after them. *)
Lemma append_to_log_spec l a prev es :
  log_rep l a → al_base a ≤ prev ≤ al_last a → al_base a < prev ∨ al_base a = 0 →
  entries_from prev es → es ≠ [] → prev + zlen es + 1 < U64_MAX → log_matches a es →
  ∃ l1, append_entries_loop l es = (l1, true) ∧
  ∃ a', log_rep (truncate_tail l1 es) a' ∧ al_base a' = al_base a ∧
    al_entries a' = al_upto a prev ++ es ∧ al_last a' = prev + zlen es ∧ kept_anchor (al_anchor a) (al_anchor a').
Proof.
  intros Hr Hp Hb Hidx Hne Hmax Hm.
  destruct (append_entries_loop_spec es l a prev Hr Hp Hb Hidx Hmax Hm) as (l1 & a1 & E & Hr1 & Hb1 & Hu & Hl & Hk1).
  exists l1. split; [done|]. unfold truncate_tail.
  destruct (last es) as [e|] eqn:Hlast; [|by apply last_None in Hlast].
  assert (le_index e = prev + zlen es) as He.
  { rewrite last_lookup in Hlast. rewrite (Hidx _ e Hlast).
    destruct es; [done|]. unfold zlen. simpl length. simpl pred. lia. }
  rewrite (rep_LastIndex l1 a1 Hr1), He. pose proof (zlen_nonneg es).
  assert (0 < zlen es) by (destruct es; [done|rewrite zlen_cons; pose proof (zlen_nonneg es); lia]).
  destruct (Z.ltb_spec (prev + zlen es) (al_last a1)).
  - destruct (truncate_rep l1 a1 (prev + zlen es) Hr1) as (a' & Hr' & Hb' & He' & Hl' & Hk'); [lia|lia|].
    exists a'. split_and!; [congruence..|]. by apply (kept_anchor_trans _ (al_anchor a1)).
  - exists a1. split_and!; [done|done| |lia|done]. by rewrite <-Hu, al_upto_all by lia.
Qed.

(** ** Applying committed entries *)

Definition is_config (e : LogEntry) : bool := bool_decide (kConfigChange `prefix_of` le_command e).

(** A configuration entry does not reach the state machine. *)
Definition sm_step (sm : SM) (e : LogEntry) : SM := if is_config e then sm else (ApplyLogEntry sm e).1.

Definition config_parses (e : LogEntry) : Prop :=
  is_config e = true → is_Some (ConfigChange_Deserialize (le_command e)).

(** The entries with an index in (i, j]. *)
Definition al_slice (a : alog) (i j : Z) : list LogEntry :=
  take (Z.to_nat (j - i)) (drop (Z.to_nat (i - al_base a)) (al_entries a)).

(** What applying does not touch. *)
Definition kept n n' : Prop :=
  n_log_storage n' = n_log_storage n ∧ n_commit_index n' = n_commit_index n ∧ n_aborted n' = n_aborted n.

Lemma apply_entry_spec n sm e r :
  config_parses e →
  ∃ n' r', apply_entry n sm e r = Some (n', sm_step sm e, r') ∧ n_last_applied n' = le_index e ∧ kept n n'.
Proof.
  intros Hp. unfold apply_entry, sm_step, config_parses, is_config, kept in *. case_bool_decide as Hc.
  - destruct (Hp eq_refl) as [target Ht]. rewrite Ht. cbn [mbind option_bind].
    destruct (n_config_state n); eexists _, _; (split; [reflexivity|split_and!; reflexivity]).
  - destruct (ApplyLogEntry sm e) as [sm' r']. eexists _, _. split; [reflexivity|split_and!; reflexivity].
Qed.

Lemma apply_entries_spec es : ∀ n sm r,
  Forall config_parses es →
  ∃ n' r', apply_entries n sm es r = (n', fold_left sm_step es sm, r') ∧ kept n n' ∧
    n_last_applied n' = match last es with Some e => le_index e | None => n_last_applied n end.
Proof.
  induction es as [|e es IH]; intros n sm r Hp; [by exists n, r|]. apply Forall_cons in Hp as [He Hes].
  cbn [apply_entries fold_left]. destruct (apply_entry_spec n sm e r He) as (n1 & r1 & E & Hl & K1 & K2 & K3).
  rewrite E. destruct (IH n1 (sm_step sm e) r1 Hes) as (n' & r' & E' & (K1' & K2' & K3') & Hl').
  exists n', r'. split; [done|]. split; [split_and!; congruence|]. rewrite Hl'.
  destruct es as [|e1 es]; [done|]. rewrite last_cons_cons.
  destruct (last (e1 :: es)) eqn:E1; [done|]. by apply last_None in E1.
Qed.

Lemma flush_progress_spec n now l a :
  n_log_storage n = Some l → log_rep l a →
  n_last_applied (flush_progress n now) = n_last_applied n ∧
  n_commit_index (flush_progress n now) = n_commit_index n ∧
  n_aborted (flush_progress n now) = n_aborted n ∧
  ∃ l', n_log_storage (flush_progress n now) = Some l' ∧ log_rep l' a.
Proof.
  intros Hl Hr. unfold flush_progress. cbv zeta.
  match goal with |- context [if ?b then (if ?c then _ else _) <| n_apply_progress ::= _ |> <| n_last_apply_meta_flush_ms := _ |> else _] =>
    destruct b; [destruct c|] end; (split_and!; [reflexivity..|]).
  - exists (Flush l).1. split; [|by apply rep_Flush]. change (fmap (M := option) (λ l, (Flush l).1) (n_log_storage n) = Some (Flush l).1).
    by rewrite Hl.
  - exists l. split; [exact Hl|done].
  - exists l. split; [exact Hl|done].
Qed.

Lemma al_slice_app a i j k :
  al_base a ≤ i ≤ j → j ≤ k → al_slice a i k = al_slice a i j ++ al_slice a j k.
Proof.
  intros Hi Hj. unfold al_slice.
  replace (drop (Z.to_nat (j - al_base a)) (al_entries a))
    with (drop (Z.to_nat (j - i)) (drop (Z.to_nat (i - al_base a)) (al_entries a)))
    by (rewrite drop_drop; f_equal; lia).
  rewrite take_take_drop. f_equal. lia.
Qed.

Lemma al_range_slice a la limit :
  al_base a ≤ la → 0 < limit → al_range a (la + 1) limit = al_slice a la (la + limit).
Proof.
  intros Hla Hl. unfold al_range, al_slice. destruct (Z.eqb_spec limit 0); [lia|].
  f_equal; [lia|]. f_equal. lia.
Qed.

Lemma al_slice_clip a i j : al_base a ≤ i ≤ j → al_slice a i j = al_slice a i (Z.max i (Z.min j (al_last a))).
Proof.
  intros Hi. unfold al_slice. destruct (decide (j ≤ al_last a)); [f_equal; lia|].
  rewrite !take_ge; [done|..]; rewrite length_drop; unfold al_last, zlen in *; lia.
Qed.

Lemma al_slice_last a i j :
  al_wf a → al_base a ≤ i < j → j ≤ al_last a →
  ∃ e, last (al_slice a i j) = Some e ∧ le_index e = j.
Proof.
  intros Hwf Hi Hj. unfold al_last, zlen in Hj.
  assert (length (al_slice a i j) = Z.to_nat (j - i)) as Hlen.
  { unfold al_slice. rewrite length_take, length_drop. lia. }
  destruct (last (al_slice a i j)) as [e|] eqn:E; [|apply last_None in E; rewrite E in Hlen; simpl in Hlen; lia].
  exists e. split; [done|]. rewrite last_lookup, Hlen in E. unfold al_slice in E.
  apply lookup_take_Some in E as [E _]. rewrite lookup_drop in E. rewrite (al_indices a Hwf _ e E). lia.
Qed.

(** The index up to which entries get applied. *)
Definition apply_target n (a : alog) : Z :=
  Z.max (n_last_applied n) (Z.min (n_commit_index n) (al_last a)).

Lemma apply_loop_spec fuel : ∀ n sm now r l a,
  n_log_storage n = Some l → log_rep l a → n_aborted n = false →
  al_base a ≤ n_last_applied n → n_commit_index n < U64_MAX →
  Forall config_parses (al_slice a (n_last_applied n) (apply_target n a)) →
  (Z.to_nat (n_commit_index n - n_last_applied n) < fuel)%nat →
  ∃ n' r' l', apply_loop fuel n sm now r =
      (n', fold_left sm_step (al_slice a (n_last_applied n) (apply_target n a)) sm, r') ∧
    n_last_applied n' = apply_target n a ∧ n_commit_index n' = n_commit_index n ∧
    n_aborted n' = false ∧ n_log_storage n' = Some l' ∧ log_rep l' a.
Proof.
  induction fuel as [|fuel IH]; intros n sm now r l a Hl Hr Ha Hb Hc Hp Hf; [lia|].
  cbn [apply_loop]. rewrite Hl, (rep_LastIndex l a Hr). pose proof (rep_wf l a Hr) as Hwf.
  pose proof (al_base_nonneg a Hwf). pose proof (al_last_bound a Hwf). unfold apply_target in *.
  destruct (Z.ltb_spec (n_last_applied n) (n_commit_index n)); cbn [andb];
    [|rewrite Z.max_l by lia; unfold al_slice; rewrite Z.sub_diag; by exists n, r, l].
  destruct (Z.ltb_spec (n_last_applied n) (al_last a)); cbn [andb];
    [|rewrite Z.max_l by lia; unfold al_slice; rewrite Z.sub_diag; by exists n, r, l].
  set (la := n_last_applied n) in *. set (limit := Z.min kApplyBatchSize (n_commit_index n - la)).
  assert (0 < limit) by (unfold limit, kApplyBatchSize; lia).
  rewrite (rep_GetRange l a (la + 1) limit Hr) by (unfold limit; lia).
  rewrite al_range_slice, al_slice_clip by lia.
  set (mid := Z.max la (Z.min (la + limit) (al_last a))).
  assert (la < mid ≤ Z.min (n_commit_index n) (al_last a)) by (unfold mid, limit, kApplyBatchSize in *; lia).
  rewrite (al_slice_app a la mid (Z.max la (Z.min (n_commit_index n) (al_last a)))) in * by lia. apply Forall_app in Hp as [Hp1 Hp2]. rewrite fold_left_app.
  destruct (al_slice_last a la mid Hwf) as (e & He & Hi); [lia|lia|].
  destruct (apply_entries_spec (al_slice a la mid) n sm r Hp1) as (n1 & r1 & E1 & (K1 & K2 & K3) & Hla).
  destruct (al_slice a la mid) as [|e0 es0] eqn:Es; [done|]. cbv iota. rewrite E1. rewrite He, Hi in Hla.
  rewrite K3, Ha. destruct (flush_progress_spec n1 now l a) as (F1 & F2 & F3 & l1 & Hl1 & Hr1); [congruence|done|].
  destruct (IH (flush_progress n1 now) (fold_left sm_step (e0 :: es0) sm) now r1 l1 a) as
    (n' & r' & l' & E' & G1 & G2 & G3 & G4 & G5); rewrite ?F1, ?F2, ?F3, ?Hla, ?K2, ?K3 in *; try done; try lia.
  - rewrite Z.max_r by lia. rewrite Z.max_r in Hp2 by lia. done.
  - exists n', r', l'. rewrite E', G1, G2, Z.max_r by lia. rewrite Z.max_r by lia. done.
Qed.

(** C14. Committed entries are applied in order and without gaps, each exactly
    once: the loop ends at the commit index (or at the end of the log), having
    run the state machine on precisely the entries in between; configuration
    entries are not given to it. *)
Theorem ApplyCommittedLogsLocked_spec n now l a sm :
  n_log_storage n = Some l → log_rep l a → n_state_machine n = Some sm → n_aborted n = false →
  al_base a ≤ n_last_applied n → n_commit_index n < U64_MAX →
  Forall config_parses (al_slice a (n_last_applied n) (apply_target n a)) →
  let n' := (ApplyCommittedLogsLocked n now).1 in
  n_last_applied n' = apply_target n a ∧
  n_state_machine n' = Some (fold_left sm_step (al_slice a (n_last_applied n) (apply_target n a)) sm) ∧
  n_commit_index n' = n_commit_index n ∧ n_aborted n' = false ∧
  ∃ l', n_log_storage n' = Some l' ∧ log_rep l' a.
Proof.
  intros Hl Hr Hsm Ha Hb Hc Hp n'. unfold n', ApplyCommittedLogsLocked. rewrite Hsm, Hl.
  destruct (apply_loop_spec (S (Z.to_nat (n_commit_index n - n_last_applied n))) n sm now default_ApplyResult l a)
    as (n1 & r1 & l1 & E & H1 & H2 & H3 & H4 & H5); try done; [lia|].
  rewrite E. split_and!; [exact H1|reflexivity|exact H2|exact H3|]. exists l1. split; [exact H4|done].
Qed.

(** ** Applying leaves the log alone *)

Lemma apply_entry_kept n sm e r n' sm' r' : apply_entry n sm e r = Some (n', sm', r') → kept n n'.
Proof.
  unfold apply_entry. case_bool_decide.
  - destruct (ConfigChange_Deserialize _); [|done]. cbn [mbind option_bind].
    destruct (n_config_state n); intros E; injection E as <- <- <-; split_and!; reflexivity.
  - destruct (ApplyLogEntry sm e). intros E. injection E as <- <- <-. split_and!; reflexivity.
Qed.

Definition same_log n n' : Prop :=
  n_log_storage n' = n_log_storage n ∧ n_commit_index n' = n_commit_index n.

Lemma apply_entries_same_log es : ∀ n sm r, same_log n (apply_entries n sm es r).1.1.
Proof.
  induction es as [|e es IH]; intros n sm r; [done|]. cbn [apply_entries].
  destruct (apply_entry n sm e r) as [[[n1 sm1] r1]|] eqn:E; [|split; reflexivity].
  destruct (apply_entry_kept _ _ _ _ _ _ _ E) as (K1 & K2 & _). destruct (IH n1 sm1 r1).
  split; congruence.
Qed.

Lemma apply_loop_keeps fuel : ∀ n sm now r l a,
  n_log_storage n = Some l → log_rep l a →
  n_commit_index (apply_loop fuel n sm now r).1.1 = n_commit_index n ∧
  ∃ l', n_log_storage (apply_loop fuel n sm now r).1.1 = Some l' ∧ log_rep l' a.
Proof.
  induction fuel as [|fuel IH]; intros n sm now r l a Hl Hr; [by eauto|]. cbn [apply_loop]. rewrite Hl.
  destruct (_ && _); [|by eauto]. destruct (GetRange _ _ _) as [|e es]; [by eauto|]. cbv iota.
  destruct (apply_entries_same_log (e :: es) n sm r) as [K1 K2].
  destruct (apply_entries n sm (e :: es) r) as [[n1 sm1] r1]. cbn [fst] in K1, K2.
  destruct (n_aborted n1); [cbn [fst]; rewrite K1, K2; eauto|].
  destruct (flush_progress_spec n1 now l a) as (_ & F2 & _ & l1 & Hl1 & Hr1); [congruence|done|].
  destruct (IH (flush_progress n1 now) sm1 now r1 l1 a Hl1 Hr1) as [G1 G2]. split; [congruence|done].
Qed.

Lemma ApplyCommittedLogsLocked_keeps n now l a :
  n_log_storage n = Some l → log_rep l a →
  n_commit_index (ApplyCommittedLogsLocked n now).1 = n_commit_index n ∧
  ∃ l', n_log_storage (ApplyCommittedLogsLocked n now).1 = Some l' ∧ log_rep l' a.
Proof.
  intros Hl Hr. unfold ApplyCommittedLogsLocked. rewrite Hl. destruct (n_state_machine n) as [sm|]; [|by eauto].
  pose proof (apply_loop_keeps (S (Z.to_nat (n_commit_index n - n_last_applied n))) n sm now default_ApplyResult l a Hl Hr) as H.
  destruct (apply_loop _ _ _ _ _) as [[n1 sm1] r1]. exact H.
Qed.

(** ** AppendEntries *)

Lemma SetRoleLocked_same_log n r : same_log n (SetRoleLocked n r).
Proof.
  unfold SetRoleLocked, CancelTransferLocked, StopHeartbeat, StartHeartbeat, same_log.
  destruct r; cbv zeta;
    repeat match goal with |- context [if ?b then _ else _] => destruct b end; split; reflexivity.
Qed.

Lemma BecomeFollowerLocked_same_log n t : same_log n (BecomeFollowerLocked n t).
Proof.
  unfold same_log. rewrite BecomeFollowerLocked_adopt.
  destruct (SetRoleLocked_same_log (adopt_term n t) Follower) as [-> ->].
  unfold adopt_term. case_match; split; reflexivity.
Qed.

(** The node after the term of the request has been handled. *)
Definition ae_node n (req : AppendEntriesRequest) : RaftNode L SM :=
  if n_term n <? areq_term req then BecomeFollowerLocked n (areq_term req)
  else if negb (bool_decide (n_role n = Leader))
  then n <| n_election_timer ::= ElectionTimer_Reset |> else n.

Lemma ae_node_same_log n req : same_log n (ae_node n req).
Proof.
  unfold ae_node. case_match; [apply BecomeFollowerLocked_same_log|]. case_match; split; reflexivity.
Qed.

(** An AppendEntries that the log can take. *)
Lemma OnAppendEntries_accepts n now req l a :
  let prev := areq_prev_log_index req in
  let es := areq_entries req in
  n_log_storage n = Some l → log_rep l a → n_term n ≤ areq_term req →
  al_base a ≤ prev ≤ al_last a → al_base a < prev ∨ al_base a = 0 →
  prev = 0 ∨ al_term a prev = areq_prev_log_term req →
  entries_from prev es → es ≠ [] → zlen es ≤ kMaxAppendBatch → prev + zlen es + 1 < U64_MAX →
  log_matches a es →
  let '(n', rsp) := OnAppendEntries n now req in
  arsp_success rsp = true ∧ arsp_last_log_index rsp = prev + zlen es ∧
  n_commit_index n' = (if n_commit_index n <? areq_leader_commit req
                       then Z.min (areq_leader_commit req) (prev + zlen es) else n_commit_index n) ∧
  ∃ l' a', n_log_storage n' = Some l' ∧ log_rep l' a' ∧ al_base a' = al_base a ∧
    al_entries a' = al_upto a prev ++ es ∧
    kept_anchor (al_anchor a) (al_anchor a').
Proof.
  intros prev es Hl Hr Ht Hp Hb Hpt Hidx Hne Hlen Hmax Hm. unfold OnAppendEntries. cbv zeta.
  destruct (Z.ltb_spec (areq_term req) (n_term n)); [lia|].
  change (if n_term n <? areq_term req then _ else _) with (ae_node n req).
  destruct (ae_node_same_log n req) as [El Ec]. generalize dependent (ae_node n req). intros n1 El Ec.
  rewrite El, Hl. fold prev es. rewrite (rep_LastIndex l a Hr). destruct (Z.ltb_spec (al_last a) prev); [lia|].
  assert ((0 <? prev) && negb (GetTerm l prev =? areq_prev_log_term req) = false) as ->.
  { destruct (Z.ltb_spec 0 prev); [|done]. rewrite (rep_GetTerm l a prev Hr) by lia.
    destruct Hpt as [?| ->]; [lia|]. by rewrite Z.eqb_refl. }
  rewrite (take_ge es) by (unfold kMaxAppendBatch, zlen in *; lia).
  destruct (append_to_log_spec l a prev es Hr Hp Hb Hidx Hne Hmax Hm) as (l1 & E & a' & Hr' & Hb' & He' & Hl' & Hk').
  rewrite E. cbn [negb]. rewrite (rep_LastIndex _ a' Hr'), Hl'.
  change (n_commit_index (n1 <| n_log_storage := Some (truncate_tail l1 es) |>)) with (n_commit_index n1).
  rewrite Ec. destruct (n_commit_index n <? areq_leader_commit req).
  - match goal with |- context [ApplyCommittedLogsLocked ?m now] => set (n2 := m) end.
    destruct (ApplyCommittedLogsLocked_keeps n2 now (truncate_tail l1 es) a' eq_refl Hr') as [Hc (l2 & Hl2 & Hr2)].
    generalize dependent (ApplyCommittedLogsLocked n2 now).1. intros n3 Hc Hl2.
    split_and!; [done|done|exact Hc|]. exists l2, a'. split_and!; done.
  - split_and!; [done|done|exact Ec|]. exists (truncate_tail l1 es), a'. split_and!; done.
Qed.


(** An AppendEntries whose previous entry the follower does not have, or has
    with another term, is rejected, and the log and the commit index stay. *)
Theorem OnAppendEntries_rejects n now req l a :
  let prev := areq_prev_log_index req in
  n_log_storage n = Some l → log_rep l a →
  al_last a < prev ∨ (al_base a < prev ∧ al_term a prev ≠ areq_prev_log_term req) →
  let '(n', rsp) := OnAppendEntries n now req in
  arsp_success rsp = false ∧ n_log_storage n' = Some l ∧ n_commit_index n' = n_commit_index n.
Proof.
  intros prev Hl Hr Hbad. unfold OnAppendEntries. cbv zeta. destruct (areq_term req <? n_term n); [done|].
  change (if n_term n <? areq_term req then _ else _) with (ae_node n req).
  destruct (ae_node_same_log n req) as [El Ec]. generalize dependent (ae_node n req). intros n1 El Ec.
  rewrite El, Hl. fold prev. rewrite (rep_LastIndex l a Hr).
  destruct (Z.ltb_spec (al_last a) prev); [by rewrite El, Ec|].
  destruct Hbad as [?|[Hb Hne]]; [lia|]. pose proof (al_base_nonneg a (rep_wf l a Hr)).
  rewrite (rep_GetTerm l a prev Hr), (proj2 (Z.ltb_lt 0 prev)), (proj2 (Z.eqb_neq _ _) Hne) by lia.
  cbn [negb andb]. by rewrite El, Ec.
Qed.

(** ** Heartbeats *)

Lemma ApplyCommittedLogsLocked_run n now l a sm :
  n_log_storage n = Some l → log_rep l a → n_state_machine n = Some sm → n_aborted n = false →
  al_base a ≤ n_last_applied n → n_commit_index n < U64_MAX →
  Forall config_parses (al_slice a (n_last_applied n) (apply_target n a)) →
  n_state_machine (ApplyCommittedLogsLocked n now).1 =
    Some (fold_left sm_step (al_slice a (n_last_applied n) (apply_target n a)) sm) ∧
  n_commit_index (ApplyCommittedLogsLocked n now).1 = n_commit_index n.
Proof.
  intros Hl Hr Hsm Ha Hb Hc Hp. unfold ApplyCommittedLogsLocked. rewrite Hsm, Hl.
  destruct (apply_loop_spec (S (Z.to_nat (n_commit_index n - n_last_applied n))) n sm now default_ApplyResult l a)
    as (n1 & r1 & l1 & E & H1 & H2 & H3 & H4 & H5); try done; [lia|].
  rewrite E. split; [reflexivity|exact H2].
Qed.

Lemma BecomeFollowerLocked_kept n t :
  n_state_machine (BecomeFollowerLocked n t) = n_state_machine n ∧
  n_aborted (BecomeFollowerLocked n t) = n_aborted n ∧
  n_last_applied (BecomeFollowerLocked n t) = n_last_applied n.
Proof.
  unfold BecomeFollowerLocked, SetRoleLocked, CancelTransferLocked, StopHeartbeat. cbv zeta.
  repeat match goal with |- context [if ?b then _ else _] => destruct b end; split_and!; reflexivity.
Qed.

(** A heartbeat commits whatever the follower has: up to the leader's commit
    index it applies the entries of its own log, with no check that they are the
    leader's. *)
Theorem OnHeartbeat_commits_unchecked n now req l a sm :
  n_log_storage n = Some l → log_rep l a → n_state_machine n = Some sm → n_aborted n = false →
  n_term n ≤ hreq_term req → n_term n < hreq_term req ∨ n_role n ≠ Leader →
  al_base a ≤ n_last_applied n ≤ n_commit_index n →
  n_commit_index n < hreq_leader_commit req ≤ al_last a →
  Forall config_parses (al_slice a (n_last_applied n) (hreq_leader_commit req)) →
  let '(n', rsp) := OnHeartbeat n now req in
  hrsp_success rsp = true ∧ n_commit_index n' = hreq_leader_commit req ∧
  n_state_machine n' = Some (fold_left sm_step (al_slice a (n_last_applied n) (hreq_leader_commit req)) sm).
Proof.
  intros Hl Hr Hsm Ha Ht Hrole Hla Hc Hp. unfold OnHeartbeat. cbv zeta.
  destruct (Z.ltb_spec (hreq_term req) (n_term n)); [lia|].
  assert ((n_term n <? hreq_term req) || negb (bool_decide (n_role n = Leader)) = true) as ->.
  { destruct Hrole as [?|?]; [by rewrite (proj2 (Z.ltb_lt _ _))|].
    rewrite bool_decide_false by done. apply orb_true_r. }
  destruct (BecomeFollowerLocked_same_log n (hreq_term req)) as [El Ec].
  destruct (BecomeFollowerLocked_kept n (hreq_term req)) as (Es & Eab & Ela).
  generalize dependent (BecomeFollowerLocked n (hreq_term req)). intros n0 El Ec Es Eab Ela.
  match goal with |- context [match n_log_storage ?m with _ => _ end] => set (n1 := m) end.
  assert (n_log_storage n1 = Some l ∧ n_commit_index n1 = n_commit_index n ∧ n_state_machine n1 = Some sm ∧
    n_aborted n1 = false ∧ n_last_applied n1 = n_last_applied n) as (F1 & F2 & F3 & F4 & F5).
  { rewrite Hl in El. rewrite Hsm in Es. rewrite Ha in Eab. split_and!; assumption. }
  clearbody n1. rewrite F1, F2, (rep_LastIndex l a Hr), (proj2 (Z.ltb_lt (n_commit_index n) _)) by lia.
  rewrite (proj2 (Z.ltb_ge _ _)) by lia. set (n2 := n1 <| n_commit_index := hreq_leader_commit req |>).
  assert (apply_target n2 a = hreq_leader_commit req ∧ n_last_applied n2 = n_last_applied n) as [Et Ela2].
  { change (apply_target n2 a) with (Z.max (n_last_applied n1) (Z.min (hreq_leader_commit req) (al_last a))).
    change (n_last_applied n2) with (n_last_applied n1). rewrite F5. lia. }
  destruct (ApplyCommittedLogsLocked_run n2 now l a sm) as [G1 G2]; [exact F1|done|exact F3|exact F4|..].
  - rewrite Ela2. lia.
  - change (n_commit_index n2) with (hreq_leader_commit req). pose proof (al_last_bound a (rep_wf l a Hr)). lia.
  - by rewrite Et, Ela2.
  - rewrite Et, Ela2 in G1. generalize dependent (ApplyCommittedLogsLocked n2 now).1. intros n3 G1 G2.
    split_and!; [reflexivity|exact G2|exact G1].
Qed.

(** ** InstallSnapshot *)

(** What an accepted last chunk leaves behind. *)
Lemma OnInstallSnapshot_done n req n' rsp :
  OnInstallSnapshot n req = (n', rsp) → srsp_success rsp = true → sreq_done req = true →
  ∃ n1, n_log_storage n1 = n_log_storage n ∧ n' = install_snapshot n1 req.
Proof.
  unfold OnInstallSnapshot. cbv zeta. case_match; [intros E; by injection E as <- <-|].
  set (n0 := if n_term n <? sreq_term req then BecomeFollowerLocked n (sreq_term req) else n).
  assert (n_log_storage n0 = n_log_storage n) as El
    by (unfold n0; case_match; [apply BecomeFollowerLocked_same_log|done]).
  clearbody n0. destruct (n_snapshot_receiver n0) as [r|]; [|intros E; by injection E as <- <-].
  destruct (HandleChunk r req) as [r' rsp'].
  set (n1 := n0 <| n_snapshot_receiver := Some r' |>).
  assert (n_log_storage n1 = n_log_storage n) as El1 by exact El. clearbody n1.
  destruct (srsp_success rsp' && sreq_done req) eqn:Es.
  - destruct (n_state_machine n1) as [sm|]; [|intros E _ _; injection E as <- <-; eauto].
    destruct (LoadSnapshot sm _) as [sm' ok]. destruct ok; cbn [negb]; intros E; injection E as <- <-; [|done].
    intros _ _. eexists. split; [|reflexivity]. exact El1.
  - intros E. injection E as <- <-. intros E1 E2. by rewrite E1, E2 in Es.
Qed.

(** A follower that has installed a snapshot cannot continue from it: its log
    is empty with last index 0, so the next AppendEntries, which starts right
    after the snapshot, is rejected as a gap, and the leader is told that the
    follower has nothing. *)
Theorem snapshot_then_append_rejected n req l a now ae :
  let n' := (OnInstallSnapshot n req).1 in
  n_log_storage n = Some l → log_rep l a →
  srsp_success (OnInstallSnapshot n req).2 = true → sreq_done req = true →
  0 < sreq_last_included_index req →
  areq_prev_log_index ae = sreq_last_included_index req →
  areq_prev_log_term ae = sreq_last_included_term req → n_term n' ≤ areq_term ae →
  n_last_applied n' = sreq_last_included_index req ∧
  arsp_success (OnAppendEntries n' now ae).2 = false ∧
  arsp_last_log_index (OnAppendEntries n' now ae).2 = 0.
Proof.
  intros n' Hl Hr Hs Hd Hpos Hprev _ Ht.
  destruct (OnInstallSnapshot_done n req n' _ (surjective_pairing _) Hs Hd) as (n1 & El & E).
  rewrite E in *. clear E n'. split; [reflexivity|].
  destruct (rep_Clear l a Hr) as [an Hrc].
  apply (rep_SetSnapshotAnchor _ _ (sreq_last_included_index req) (sreq_last_included_term req)) in Hrc.
  set (l' := SetSnapshotAnchor (Clear l) (sreq_last_included_index req) (sreq_last_included_term req)) in *.
  assert (n_log_storage (install_snapshot n1 req) = Some l') as El'.
  { change (fmap (M := option) (λ l, SetSnapshotAnchor (Clear l) (sreq_last_included_index req)
      (sreq_last_included_term req)) (n_log_storage n1) = Some l'). by rewrite El, Hl. }
  generalize dependent (install_snapshot n1 req). intros n2 Ht El'.
  unfold OnAppendEntries. cbv zeta. destruct (Z.ltb_spec (areq_term ae) (n_term n2)); [lia|].
  change (if n_term n2 <? areq_term ae then _ else _) with (ae_node n2 ae).
  destruct (ae_node_same_log n2 ae) as [El2 _]. generalize dependent (ae_node n2 ae). intros n3 El2.
  rewrite El2, El', (rep_LastIndex l' _ Hrc), Hprev.
  change (al_last _) with 0. destruct (Z.ltb_spec 0 (sreq_last_included_index req)); [done|lia].
Qed.
End follower.

(** ** Examples *)

Section examples.
#[local] Existing Instance example_lib.

Definition set_entry (term index : Z) (key val : string) : LogEntry :=
  mkLogEntry term index (EncodeRespArray [str "SET"; str key; str val]).

Definition follower_ops : list log_op :=
  [OpAppend (set_entry 1 1 "k" "old") true; OpAppend (set_entry 1 2 "k" "junk") true;
   OpAppend (set_entry 1 3 "j" "junk") true].

Definition follower_alog : alog := default alog_empty (al_ops alog_empty follower_ops).

Definition follower_log : CommandLog := fold_left run_op follower_ops CommandLog_new.

Lemma follower_log_rep : log_rep follower_log follower_alog.
Proof. apply (run_ops_rep follower_ops _ alog_empty); [apply CommandLog_new_rep|vm_compute; reflexivity]. Qed.

(** A follower with two entries that a former leader left behind. *)
Definition follower_node : RaftNode CommandLog KvStateMachine :=
  (example_node (KvStateMachine_new 0 2) follower_log) <| n_last_applied := 0 |>.

Lemma ApplyCommittedLogsLocked_spec_witness :
  let n := follower_node <| n_commit_index := 2 |> in
  n_last_applied (ApplyCommittedLogsLocked n 5).1 = 2 ∧
  (λ sm, (kv_Get sm 0 (str "k")).2) <$> n_state_machine (ApplyCommittedLogsLocked n 5).1 = Some (Some (str "junk")).
Proof.
  intros n.
  destruct (ApplyCommittedLogsLocked_spec n 5 follower_log follower_alog (KvStateMachine_new 0 2))
    as (H1 & H2 & _); [reflexivity|apply follower_log_rep|reflexivity|reflexivity|by_decide|by_decide|by_decide|].
  rewrite H1, H2. split; vm_compute; reflexivity.
Defined.

(** The new leader sends its second entry. *)
Definition leader_request : AppendEntriesRequest :=
  mkAppendEntriesRequest 0 2 (str "n1") 1 1 [set_entry 2 2 "k" "new"] 2.


Lemma OnAppendEntries_rejects_witness :
  let req := mkAppendEntriesRequest 0 2 (str "n1") 3 2 [set_entry 2 4 "k" "new"] 2 in
  let '(n', rsp) := OnAppendEntries follower_node 5 req in
  arsp_success rsp = false ∧ n_log_storage n' = Some follower_log ∧ n_commit_index n' = 0.
Proof.
  apply (OnAppendEntries_rejects follower_node 5
    (mkAppendEntriesRequest 0 2 (str "n1") 3 2 [set_entry 2 4 "k" "new"] 2) follower_log follower_alog).
  - reflexivity.
  - apply follower_log_rep.
  - right. by_decide.
Defined.

(** The leader of term 2 has committed its own second entry, [leader_request],
    but the follower applies the one that a former leader left behind. *)
Lemma OnHeartbeat_commits_unchecked_witness :
  let '(n', rsp) := OnHeartbeat follower_node 5 (mkHeartbeatRequest 0 2 (str "n1") 2) in
  hrsp_success rsp = true ∧ n_commit_index n' = 2 ∧
  (λ sm, (kv_Get sm 0 (str "k")).2) <$> n_state_machine n' = Some (Some (str "junk")).
Proof.
  pose proof (OnHeartbeat_commits_unchecked follower_node 5 (mkHeartbeatRequest 0 2 (str "n1") 2)
    follower_log follower_alog (KvStateMachine_new 0 2)) as H.
  destruct (OnHeartbeat follower_node 5 (mkHeartbeatRequest 0 2 (str "n1") 2)) as [n' rsp].
  destruct H as (H1 & H2 & H3);
    [reflexivity|apply follower_log_rep|reflexivity|reflexivity|by_decide|left; by_decide|by_decide|by_decide|
     by_decide|].
  rewrite H3. split_and!; [exact H1|exact H2|vm_compute; reflexivity].
Defined.

(** The state machine of the leader, sent in one chunk. *)
Definition snapshot_request : InstallSnapshotRequest :=
  mkInstallSnapshotRequest 0 2 (str "n1") 6 1 0 true example_bin.

Definition receiving_node : RaftNode CommandLog KvStateMachine :=
  follower_node <| n_snapshot_receiver := Some (mkSnapshotReceiver None None) |>.

Lemma snapshot_then_append_rejected_witness :
  let n' := (OnInstallSnapshot receiving_node snapshot_request).1 in
  let req := mkAppendEntriesRequest 0 2 (str "n1") 6 1 [set_entry 2 7 "k" "v"] 6 in
  n_last_applied n' = 6 ∧ arsp_success (OnAppendEntries n' 5 req).2 = false ∧
  arsp_last_log_index (OnAppendEntries n' 5 req).2 = 0.
Proof.
  apply (snapshot_then_append_rejected receiving_node snapshot_request follower_log follower_alog 5
    (mkAppendEntriesRequest 0 2 (str "n1") 6 1 [set_entry 2 7 "k" "v"] 6)).
  - reflexivity.
  - apply follower_log_rep.
  - vm_compute. reflexivity.
  - reflexivity.
  - by_decide.
  - reflexivity.
  - reflexivity.
  - vm_compute. discriminate.
Defined.
End examples.
