(* ===== verification/LeaderCommit.v ===== *)
(** * Commit, lease and reads on the leader

    When [AdvanceCommitIndexLocked] moves the commit index, when a heartbeat
    round renews the lease, and when [ReadIndex] answers. *)

From S2P Require Import Prelude RaftTypes LogStorage StateMachine RaftStorage ApplyProgress ElectionTimer SnapshotTransfer CommandEncoder CommandLog KvStateMachine RaftNode Replication HardState Recovery FollowerLog.

(** ** Order statistics *)

(** How many of [xs] have reached [c]. *)
Definition reached (c : Z) (xs : list Z) : Z := zlen (filter (λ x, c ≤ x) xs).

#[local] Instance ge_dec : RelDecision Z.ge.
Proof. intros x y. destruct (decide (y ≤ x)); [left|right]; lia. Defined.
#[local] Instance ge_total : Total Z.ge.
Proof. intros x y. lia. Qed.
#[local] Instance ge_trans : Transitive Z.ge.
Proof. intros x y z. lia. Qed.

Lemma reached_perm c xs ys : xs ≡ₚ ys → reached c xs = reached c ys.
Proof. intros H. unfold reached, zlen. by rewrite H. Qed.

Lemma reached_take c xs k :
  (∀ i x, (i < k)%nat → xs !! i = Some x → c ≤ x) → (k ≤ length xs)%nat → Z.of_nat k ≤ reached c xs.
Proof.
  revert k. induction xs as [|x xs IH]; intros k H Hk; simpl in *; [unfold reached, zlen; simpl; lia|].
  destruct k as [|k]; [unfold reached, zlen; lia|]. unfold reached. rewrite filter_cons.
  rewrite decide_True by (by apply (H 0%nat); [lia|]). rewrite zlen_cons.
  assert (Z.of_nat k ≤ reached c xs); [|unfold reached in *; lia].
  apply IH; [|lia]. intros i y Hi Hy. apply (H (S i)); [lia|done].
Qed.

Lemma StronglySorted_lookup (xs : list Z) i j x y :
  StronglySorted Z.ge xs → (i ≤ j)%nat → xs !! i = Some x → xs !! j = Some y → y ≤ x.
Proof.
  intros Hs. revert i j. induction Hs as [|z zs Hs IH Hz]; intros i j Hij Hx Hy; [done|].
  destruct i as [|i], j as [|j]; simpl in *; simplify_eq; try lia.
  - rewrite Forall_forall in Hz. specialize (Hz y (list_elem_of_lookup_2 _ _ _ Hy)). lia.
  - apply (IH i j); [lia|done..].
Qed.

Lemma sort_desc_sorted xs : StronglySorted Z.ge (sort_desc xs).
Proof. apply StronglySorted_merge_sort; apply _. Qed.

(** The [k]-th largest element has been reached by [k + 1] of them. *)
Lemma sort_desc_reached xs k c : sort_desc xs !! k = Some c → Z.of_nat (S k) ≤ reached c xs.
Proof.
  intros Hk. rewrite <-(reached_perm c (sort_desc xs)) by (apply merge_sort_Permutation).
  apply reached_take; [|apply lookup_lt_Some in Hk; lia].
  intros i x Hi Hx. eapply StronglySorted_lookup; [apply sort_desc_sorted| |exact Hx|exact Hk]. lia.
Qed.

Lemma majority_index_reached xs total c :
  0 ≤ total → majority_index xs total = Some c → total / 2 + 1 ≤ reached c xs.
Proof.
  intros Ht Hc. unfold majority_index in Hc. apply sort_desc_reached in Hc.
  Z.to_euclidean_division_equations. lia.
Qed.

Section leader.
Context {L SM : Type} `{!LogStorage L, !StateMachine SM}.
Implicit Types n : RaftNode L SM.

(** ** Commit index *)

(** The progress of the members of [config] that the leader knows of. *)
Definition config_progress n (l : L) (config : ClusterConfig) : list Z :=
  LastIndex l :: (filter (λ p : NodeId * Z, p.1 ∈ cc_voters config)
                    (zip (n_last_peer_ids n) (n_peer_last_log_index n))).*2.

(** A majority of a configuration with [config]'s voters and the leader. *)
Definition majority_of (config : ClusterConfig) (count : Z) : Prop :=
  (voters_size config + 1) / 2 + 1 ≤ count.

(** More than half of the members have stored [c], as far as the leader knows;
    in a joint configuration, more than half of both. *)
Definition majority_reached n (l : L) (c : Z) : Prop :=
  match n_config_state n with
  | kStable => majority_of (n_cluster_config n) (reached c (LastIndex l :: n_peer_last_log_index n))
  | kJoint =>
      majority_of (jc_old_config (n_joint_config n))
        (reached c (config_progress n l (jc_old_config (n_joint_config n)))) ∧
      majority_of (jc_new_config (n_joint_config n))
        (reached c (config_progress n l (jc_new_config (n_joint_config n))))
  end.

Lemma reached_mono c c' xs : c ≤ c' → reached c' xs ≤ reached c xs.
Proof.
  intros Hc. unfold reached. induction xs as [|x xs IH]; [done|]. rewrite !filter_cons.
  repeat case_decide; rewrite ?zlen_cons; lia.
Qed.

Lemma commit_candidate_cases n l c :
  commit_candidate n l c = n ∨
  (commit_candidate n l c = n <| n_commit_index := c |> ∧ n_commit_index n < c ∧
   (GetTerm l c = 0 ∨ n_term n ≤ GetTerm l c)).
Proof.
  unfold commit_candidate. destruct (Z.ltb_spec (n_commit_index n) c); [|by left].
  destruct (Z.eqb_spec (GetTerm l c) 0); cbn [negb andb]; [right; auto|].
  destruct (Z.ltb_spec (GetTerm l c) (n_term n)); [by left|right; auto].
Qed.

Lemma calc_config_commit_reached n l config c :
  0 < c → c ≤ calc_config_commit n l config → majority_of config (reached c (config_progress n l config)).
Proof.
  intros Hc. unfold calc_config_commit, majority_of. fold (config_progress n l config).
  destruct (majority_index _ _) as [m|] eqn:E; simpl; [|lia]. intros Hm.
  apply majority_index_reached in E; [|unfold voters_size; lia]. pose proof (reached_mono c m (config_progress n l config) Hm). lia.
Qed.

(** C15. The commit index never goes back, and it only moves to an index that a
    majority has reported (two majorities in a joint configuration) and whose
    entry in the leader's log, if there is one, is of the current term or later
    (Figure 8 of the Raft paper). *)
Theorem AdvanceCommitIndexLocked_majority n l :
  n_log_storage n = Some l → 0 ≤ n_commit_index n →
  let n' := AdvanceCommitIndexLocked n in
  let c := n_commit_index n' in
  n_commit_index n ≤ c ∧
  (n_commit_index n < c →
   majority_reached n l c ∧ (GetTerm l c = 0 ∨ n_term n ≤ GetTerm l c)).
Proof.
  intros Hl Hc. unfold AdvanceCommitIndexLocked, majority_reached. rewrite Hl.
  destruct (n_config_state n) eqn:Ec.
  - destruct (majority_index _ _) as [c|] eqn:Em; [|cbv zeta; lia]. cbv zeta.
    destruct (commit_candidate_cases n l c) as [->|(-> & Hlt & Ht)]; [lia|].
    change (n_commit_index (n <| n_commit_index := c |>)) with c. split; [lia|]. intros _. split; [|done].
    apply majority_index_reached; [unfold voters_size; lia|done].
  - unfold AdvanceCommitIndexJointLocked. cbv zeta.
    set (c := Z.min _ _). destruct (commit_candidate_cases n l c) as [->|(-> & Hlt & Ht)]; [lia|].
    change (n_commit_index (n <| n_commit_index := c |>)) with c. split; [lia|]. intros _. split; [|done].
    split; apply calc_config_commit_reached; unfold c in *; lia.
Qed.

(** The leader counts progress beyond its own log: when a majority reports a
    last index that the leader itself does not have, the commit index moves past
    the end of the leader's log, and whatever is appended there later counts as
    committed at once. *)
Theorem commit_beyond_log `{!LogStorageSpec L} n l a c :
  n_log_storage n = Some l → log_rep l a → n_config_state n = kStable →
  2 ≤ voters_size (n_cluster_config n) →
  n_peer_last_log_index n = replicate (Z.to_nat (voters_size (n_cluster_config n))) c →
  al_last a < c → n_commit_index n < c → anchor_index (al_anchor a) ≤ al_last a →
  n_commit_index (AdvanceCommitIndexLocked n) = c.
Proof.
  intros Hl Hr Hs Hv Hp Hlast Hc Han. unfold AdvanceCommitIndexLocked. rewrite Hl, Hs, (rep_LastIndex l a Hr), Hp.
  set (v := voters_size (n_cluster_config n)) in *.
  assert (sort_desc (al_last a :: replicate (Z.to_nat v) c) = replicate (Z.to_nat v) c ++ [al_last a]) as Es.
  { apply (StronglySorted_unique_strong Z.ge); [intros; lia|apply sort_desc_sorted| |].
    - clear -Hlast. induction (Z.to_nat v) as [|k IH]; simpl; [repeat constructor|]. constructor; [done|].
      apply Forall_app. split; [apply Forall_replicate; lia|by constructor; [lia|]].
    - unfold sort_desc. rewrite merge_sort_Permutation. by rewrite Permutation_cons_append. }
  unfold majority_index. rewrite Es, lookup_app_l.
  - rewrite lookup_replicate_2 by (Z.to_euclidean_division_equations; lia).
    unfold commit_candidate. rewrite (proj2 (Z.ltb_lt _ _)) by lia.
    pose proof (al_base_nonneg a (rep_wf l a Hr)).
    rewrite (rep_GetTerm l a c Hr) by (unfold al_last in *; pose proof (zlen_nonneg (al_entries a)); lia).
    unfold al_term. destruct (Z.eqb_spec c (anchor_index (al_anchor a))); [lia|]. cbn [andb].
    rewrite (proj2 (al_get_None a c)) by lia. reflexivity.
  - rewrite length_replicate. Z.to_euclidean_division_equations. lia.
Qed.

(** ** The lease *)

(** What the ACKs and the commit index leave alone. *)
Definition same_lease n n' : Prop :=
  n_config_state n' = n_config_state n ∧ n_cluster_config n' = n_cluster_config n ∧
  n_joint_config n' = n_joint_config n ∧ n_lease_ms n' = n_lease_ms n.

Lemma same_lease_trans n1 n2 n3 : same_lease n1 n2 → same_lease n2 n3 → same_lease n1 n3.
Proof. unfold same_lease. intuition congruence. Qed.

Lemma record_acks_same_lease n acks : same_lease n (record_acks n acks).1.
Proof.
  unfold record_acks, ResizePeerArraysLocked. cbv zeta.
  match goal with |- context [fold_left _ _ (?m, _)] => set (n1 := m) end.
  assert (same_lease n n1) as H1 by (split_and!; reflexivity). revert H1.
  generalize (log_last_index n1) as my_last, false as b. intros my_last b. clearbody n1. revert n1 b.
  induction acks as [|ack acks IH]; intros n1 b H1; [done|]. cbn [fold_left]. unfold record_ack at 2.
  destruct (list_find _ _) as [[i p]|]; apply IH; [|done].
  eapply same_lease_trans; [exact H1|split_and!; reflexivity].
Qed.

Lemma AdvanceCommitIndexLocked_same_lease n : same_lease n (AdvanceCommitIndexLocked n).
Proof.
  unfold AdvanceCommitIndexLocked. destruct (n_log_storage n) as [l|]; [|split_and!; reflexivity].
  assert (∀ c, same_lease n (commit_candidate n l c)) as Hc.
  { intros c. destruct (commit_candidate_cases n l c) as [->|(-> & _)]; split_and!; reflexivity. }
  destruct (n_config_state n); [|apply Hc]. destruct (majority_index _ _); [apply Hc|split_and!; reflexivity].
Qed.

Lemma tick_transfer_lease n now need :
  n_leader_lease_expire (tick_transfer n now need).1 = n_leader_lease_expire n.
Proof.
  unfold tick_transfer, CheckTransferTimeoutLocked, CancelTransferLocked. cbv zeta.
  repeat match goal with |- context [if ?b then _ else _] => destruct b end; reflexivity.
Qed.

Lemma SetRoleLocked_lease n r : n_leader_lease_expire (SetRoleLocked n r) = n_leader_lease_expire n.
Proof.
  unfold SetRoleLocked, CancelTransferLocked, StopHeartbeat, StartHeartbeat. destruct r; cbv zeta;
    repeat match goal with |- context [if ?b then _ else _] => destruct b end; reflexivity.
Qed.

Lemma StepDownLocked_lease n : n_leader_lease_expire (StepDownLocked n) = n_leader_lease_expire n.
Proof.
  unfold StepDownLocked. case_match; [done|]. rewrite BecomeFollowerLocked_adopt, SetRoleLocked_lease.
  unfold adopt_term. by case_match.
Qed.

Lemma record_acks_lease n acks : n_leader_lease_expire (record_acks n acks).1 = n_leader_lease_expire n.
Proof.
  unfold record_acks, ResizePeerArraysLocked. cbv zeta.
  match goal with |- context [fold_left _ _ (?m, _)] => set (n1 := m) end.
  change (n_leader_lease_expire n) with (n_leader_lease_expire n1).
  generalize (log_last_index n1) as my_last, false as b. intros my_last b. clearbody n1. revert n1 b.
  induction acks as [|ack acks IH]; intros n1 b; [done|]. cbn [fold_left]. unfold record_ack at 2.
  destruct (list_find _ _) as [[i p]|]; [|apply IH]. etrans; [apply IH|reflexivity].
Qed.

Lemma AdvanceCommitIndexLocked_lease n :
  n_leader_lease_expire (AdvanceCommitIndexLocked n) = n_leader_lease_expire n.
Proof.
  unfold AdvanceCommitIndexLocked. destruct (n_log_storage n) as [l|]; [|reflexivity].
  assert (∀ c, n_leader_lease_expire (commit_candidate n l c) = n_leader_lease_expire n) as Hc.
  { intros c. destruct (commit_candidate_cases n l c) as [->|(-> & _)]; reflexivity. }
  destruct (n_config_state n); [|apply Hc]. destruct (majority_index _ _); [apply Hc|reflexivity].
Qed.

(** Phase 3 of a heartbeat round whose answers carry no newer term renews the
    lease exactly when it counts [voters / 2 + 1] ACKs, the leader's included. *)
Lemma HeartbeatTick_finish_lease n now t :
  n_role n = Leader → n_config_state n = kStable → ht_max_peer_term t ≤ n_term n →
  n_leader_lease_expire (HeartbeatTick_finish n now false 0 t).1 =
    (if voters_size (n_cluster_config n) / 2 + 1 <=? ht_ack_count t
     then u64 (now + n_lease_ms n) else n_leader_lease_expire n).
Proof.
  intros Hr Hs Ht. unfold HeartbeatTick_finish. cbn [andb]. rewrite bool_decide_true by done. cbn [negb].
  rewrite (proj2 (Z.ltb_ge _ _)) by lia.
  pose proof (record_acks_same_lease n (ht_rsp_last_log t)) as H1.
  pose proof (record_acks_lease n (ht_rsp_last_log t)) as E1.
  destruct (record_acks n (ht_rsp_last_log t)) as [n1 need]. cbn [fst] in *. cbv zeta.
  pose proof (same_lease_trans _ _ _ H1 (AdvanceCommitIndexLocked_same_lease n1)) as (F1 & F2 & _ & F4).
  pose proof (AdvanceCommitIndexLocked_lease n1) as E2.
  generalize dependent (AdvanceCommitIndexLocked n1). intros n2 F1 F2 F4 E2.
  unfold heartbeat_majority. rewrite F1, Hs, F2. destruct (_ <=? ht_ack_count t).
  - rewrite tick_transfer_lease. rewrite <-F4. reflexivity.
  - case_match; cbn [fst]; rewrite ?StepDownLocked_lease, ?tick_transfer_lease; congruence.
Qed.

(** In a cluster with an odd number of nodes, a heartbeat round renews the
    leader's lease only when more than half of the nodes acknowledged it. *)
Theorem lease_needs_majority n now t :
  n_role n = Leader → n_config_state n = kStable → ht_max_peer_term t ≤ n_term n →
  let total := voters_size (n_cluster_config n) + 1 in
  Z.odd total = true →
  n_leader_lease_expire (HeartbeatTick_finish n now false 0 t).1 ≠ n_leader_lease_expire n →
  total < 2 * ht_ack_count t.
Proof.
  intros Hr Hs Ht total Hodd. rewrite HeartbeatTick_finish_lease by done.
  destruct (Z.leb_spec (voters_size (n_cluster_config n) / 2 + 1) (ht_ack_count t)) as [Hle|]; [|done].
  intros _. apply Zodd_bool_iff, Zodd_ex_iff in Hodd as [m Hm]. unfold total in *.
  Z.to_euclidean_division_equations. lia.
Qed.

(** With an even number of nodes half of them is enough: the lease is renewed
    although no majority has acknowledged the round. *)
Theorem lease_with_half n now t :
  n_role n = Leader → n_config_state n = kStable → ht_max_peer_term t ≤ n_term n →
  let total := voters_size (n_cluster_config n) + 1 in
  Z.even total = true → 2 * ht_ack_count t = total →
  n_leader_lease_expire (HeartbeatTick_finish n now false 0 t).1 = u64 (now + n_lease_ms n).
Proof.
  intros Hr Hs Ht total Heven Hhalf. rewrite HeartbeatTick_finish_lease by done.
  destruct (Z.leb_spec (voters_size (n_cluster_config n) / 2 + 1) (ht_ack_count t)) as [|Hlt]; [done|].
  unfold total in *. Z.to_euclidean_division_equations. lia.
Qed.

(** ** Linearizable reads *)

End leader.

(** ** Examples *)

Section examples.
#[local] Existing Instance example_lib.

(** The leader of term 2, with one entry of its own term in its log, and [peers]
    as the other members. *)
Definition leader_ops : list log_op := [OpAppend (set_entry 2 1 "k" "v") true].

Definition leader_alog : alog := default alog_empty (al_ops alog_empty leader_ops).

Definition leader_log : CommandLog := fold_left run_op leader_ops CommandLog_new.

Lemma leader_log_rep : log_rep leader_log leader_alog.
Proof. apply (run_ops_rep leader_ops _ alog_empty); [apply CommandLog_new_rep|vm_compute; reflexivity]. Qed.

Definition leader_node (peers : list NodeId) (progress : list Z) : RaftNode CommandLog KvStateMachine :=
  (example_node (KvStateMachine_new 0 2) leader_log) <| n_role := Leader |>
    <| n_storage ::= fun s => s <| rs_current_term := 2 |> |>
    <| n_cluster_config := mkClusterConfig 1 (list_to_set peers) ∅ |>
    <| n_last_peer_ids := peers |> <| n_peer_last_log_index := progress |>.

Lemma AdvanceCommitIndexLocked_majority_witness :
  let n := leader_node [str "n2"; str "n3"] [1; 0] in
  n_commit_index (AdvanceCommitIndexLocked n) = 1 ∧ majority_reached n leader_log 1.
Proof.
  intros n.
  assert (n_commit_index (AdvanceCommitIndexLocked n) = 1) as E by (vm_compute; reflexivity).
  split; [exact E|].
  destruct (AdvanceCommitIndexLocked_majority n leader_log) as [_ H]; [reflexivity|by_decide|].
  rewrite E in H. apply H. by_decide.
Defined.

Lemma commit_beyond_log_witness :
  let n := leader_node [str "n2"; str "n3"] [5; 5] in
  n_commit_index (AdvanceCommitIndexLocked n) = 5 ∧ log_last_index n = 1.
Proof.
  intros n. split; [|vm_compute; reflexivity].
  apply (commit_beyond_log n leader_log leader_alog 5); [reflexivity|apply leader_log_rep|reflexivity|by_decide|
    vm_compute; reflexivity|by_decide|by_decide|by_decide].
Defined.

(** Heartbeat answers like the ones of the examples above: both followers still
    have five entries of a former leader. *)
Example heartbeat_acks_commit_beyond_log :
  let n := leader_node [str "n2"; str "n3"] [0; 0] in
  let t := mkHeartbeatTally 3 2 [(str "n2", 5); (str "n3", 5)] in
  n_commit_index (HeartbeatTick_finish n 100 false 0 t).1 = 5.
Proof. vm_compute. reflexivity. Qed.

Lemma lease_needs_majority_witness :
  let n := leader_node [str "n2"; str "n3"] [0; 0] in
  let t := mkHeartbeatTally 2 2 [(str "n2", 1)] in
  voters_size (n_cluster_config n) + 1 < 2 * ht_ack_count t.
Proof.
  intros n t. apply (lease_needs_majority n 1000 t); [reflexivity|reflexivity|by_decide|vm_compute; reflexivity|].
  vm_compute. discriminate.
Defined.

Lemma lease_with_half_witness :
  let n := leader_node [str "n2"; str "n3"; str "n4"] [0; 0; 0] in
  let t := mkHeartbeatTally 2 2 [(str "n2", 1)] in
  n_leader_lease_expire (HeartbeatTick_finish n 1000 false 0 t).1 = 1100.
Proof.
  intros n t. apply (lease_with_half n 1000 t); [reflexivity|reflexivity|by_decide|vm_compute; reflexivity..].
Defined.

End examples.
