(* ===== verification/SoloLeader.v ===== *)
(** * A leader without peers

    The write path of the single-node deployment, end to end: [SubmitEntry]
    through the group commit ([CoordinatorCommit]), [ReplicateLog], the commit
    rule and [ApplyCommittedLogsLocked] (src/server/raft/raft_node.cc), for every
    log that meets the contract of LogStorage.v. *)

From S2P Require Import Prelude RaftTypes LogStorage StateMachine RaftStorage ApplyProgress ElectionTimer CommandLog CommandEncoder KvStateMachine RaftNode Replication Recovery FollowerLog.

Section solo.
Context {L SM : Type} `{!LogStorage L, !StateMachine SM, !LogStorageSpec L}.
Implicit Types (n : RaftNode L SM) (a : alog) (sm : SM).

(** The fields that the write path of a leader leaves alone. *)
Definition same_role n n' : Prop :=
  n_role n' = n_role n ∧ n_config_state n' = n_config_state n ∧
  n_cluster_config n' = n_cluster_config n ∧ n_storage n' = n_storage n.

(** What a submission needs of a node: it leads a cluster of itself alone. *)
Record solo n : Prop := {
  so_role : n_role n = Leader;
  so_stable : n_config_state n = kStable;
  so_voters : cc_voters (n_cluster_config n) = ∅
}.

(** All of the log [a] is committed and applied, and [sm] is the result. *)
Record caught_up n a sm : Prop := {
  cu_solo : solo n;
  cu_log : ∃ l, n_log_storage n = Some l ∧ log_rep l a;
  cu_sm : n_state_machine n = Some sm;
  cu_running : n_aborted n = false;
  cu_commit : n_commit_index n = al_last a;
  cu_applied : n_last_applied n = al_last a;
  cu_anchor : anchor_index (al_anchor a) ≤ al_last a
}.

Lemma solo_same n n' : solo n → same_role n n' → solo n'.
Proof. intros [H1 H2 H3] (E1 & E2 & E3 & _). split; congruence. Qed.

Lemma same_role_trans n1 n2 n3 : same_role n1 n2 → same_role n2 n3 → same_role n1 n3.
Proof. unfold same_role. intros (-> & -> & -> & ->). done. Qed.

Lemma solo_peers n : solo n → GetPeerIdsLocked n = [].
Proof. intros [_ Hs Hv]. unfold GetPeerIdsLocked. rewrite Hs, Hv, elements_empty. done. Qed.

(** ** Applying the one new entry *)

(** The log ends with [e], which alone is not applied yet. *)
Record one_behind n a sm (e : LogEntry) : Prop := {
  ob_log : ∃ l, n_log_storage n = Some l ∧ log_rep l a;
  ob_sm : n_state_machine n = Some sm;
  ob_running : n_aborted n = false;
  ob_entry : al_range a (al_last a) 1 = [e];
  ob_index : le_index e = al_last a;
  ob_plain : is_config e = false;
  ob_base : al_base a < al_last a;
  ob_commit : n_commit_index n = al_last a;
  ob_applied : n_last_applied n = al_last a - 1
}.

Lemma flush_progress_role n now : same_role n (flush_progress n now).
Proof.
  unfold flush_progress. cbv zeta.
  match goal with |- context [if ?b then (if ?c then _ else _) <| n_apply_progress ::= _ |> <| n_last_apply_meta_flush_ms := _ |> else _] =>
    destruct b; [destruct c|] end; (split_and!; reflexivity).
Qed.

Lemma apply_loop_done fuel n sm now r :
  n_commit_index n ≤ n_last_applied n → apply_loop fuel n sm now r = (n, sm, r).
Proof.
  intros Hle. destruct fuel; [done|]. cbn [apply_loop]. destruct (n_log_storage n); [|done].
  by rewrite (proj2 (Z.ltb_ge _ _) Hle).
Qed.

Lemma apply_one n a sm e now :
  one_behind n a sm e →
  let n' := (ApplyCommittedLogsLocked n now).1 in
  same_role n n' ∧ (∃ l, n_log_storage n' = Some l ∧ log_rep l a) ∧
  n_state_machine n' = Some (ApplyLogEntry sm e).1 ∧ n_aborted n' = false ∧
  n_commit_index n' = al_last a ∧ n_last_applied n' = al_last a.
Proof.
  intros [(l & Hl & Hr) Hsm Hab He Hi Hp Hb Hc Ha] n'. pose proof (rep_wf l a Hr) as Hwf.
  pose proof (al_base_nonneg a Hwf). pose proof (al_last_bound a Hwf). unfold U64_MAX in *.
  unfold n', ApplyCommittedLogsLocked. rewrite Hsm, Hl.
  replace (Z.to_nat (n_commit_index n - n_last_applied n)) with 1%nat by lia.
  cbn [apply_loop]. rewrite Hl, (rep_LastIndex l a Hr), Hc, Ha.
  rewrite (proj2 (Z.ltb_lt (al_last a - 1) (al_last a))) by lia. cbn [andb]. cbv zeta.
  replace (al_last a - 1 + 1) with (al_last a) by lia.
  replace (Z.min kApplyBatchSize (al_last a - (al_last a - 1))) with 1 by (unfold kApplyBatchSize; lia).
  rewrite (rep_GetRange l a (al_last a) 1 Hr) by (unfold U64_MAX; lia). rewrite He. cbv iota.
  cbn [apply_entries]. unfold apply_entry. unfold is_config in Hp.
  rewrite bool_decide_eq_false in Hp. rewrite bool_decide_false by done.
  destruct (ApplyLogEntry sm e) as [sm1 r1]. cbv iota.
  set (n1 := n <| n_last_applied := le_index e |>).
  change (n_aborted n1) with (n_aborted n). rewrite Hab.
  destruct (flush_progress_spec n1 now l a) as (F1 & F2 & F3 & l1 & Hl1 & Hr1); [exact Hl|done|].
  change (n_last_applied n1) with (le_index e) in F1. change (n_commit_index n1) with (n_commit_index n) in F2.
  rewrite Hl1, F1, F2, Hi, Hc, Z.ltb_irrefl. cbn [andb fst].
  split; [exact (flush_progress_role n1 now)|]. split; [exists l1; split; [exact Hl1|done]|].
  split; [reflexivity|]. split; [change (n_aborted (flush_progress n1 now) = false); rewrite F3; exact Hab|].
  split; [change (n_commit_index (flush_progress n1 now) = al_last a); by rewrite F2|].
  change (n_last_applied (flush_progress n1 now) = al_last a). by rewrite F1.
Qed.

Lemma apply_none n sm l now :
  n_log_storage n = Some l → n_state_machine n = Some sm → n_commit_index n ≤ n_last_applied n →
  ApplyCommittedLogsLocked n now = (n <| n_state_machine := Some sm |>, default_ApplyResult).
Proof. intros Hl Hsm Hle. unfold ApplyCommittedLogsLocked. by rewrite Hsm, Hl, apply_loop_done. Qed.

(** ** Committing without peers *)

Lemma majority_alone x : majority_index [x] (voters_size (mkClusterConfig 0 ∅ ∅) + 1) = Some x.
Proof. reflexivity. Qed.

(** The commit index of a leader without peers is the end of its log, as soon as
    the last entry is of its own term. *)
Lemma AdvanceCommitIndexLocked_alone n l a :
  solo n → n_peer_last_log_index n = [] → n_log_storage n = Some l → log_rep l a →
  al_base a < al_last a → n_term n ≤ al_term a (al_last a) → n_commit_index n < al_last a →
  AdvanceCommitIndexLocked n = n <| n_commit_index := al_last a |>.
Proof.
  intros [_ Hs Hv] Hp Hl Hr Hb Ht Hc. unfold AdvanceCommitIndexLocked. rewrite Hl, Hs, Hp.
  unfold voters_size. rewrite Hv. rewrite (majority_alone (LastIndex l)).
  unfold commit_candidate. rewrite (rep_LastIndex l a Hr), (proj2 (Z.ltb_lt _ _) Hc). cbv zeta.
  rewrite (rep_GetTerm l a _ Hr) by lia. rewrite (proj2 (Z.ltb_ge _ _) Ht). by rewrite andb_false_r.
Qed.

Lemma MaybeAutoFinalize_stable n : n_config_state n = kStable → MaybeAutoFinalizeJointLocked n = n.
Proof. intros Hs. unfold MaybeAutoFinalizeJointLocked. rewrite Hs. by destruct (n_log_storage n). Qed.

(** What the first phase of a round leaves of a node without peers. *)
Definition no_peers n : RaftNode L SM := (ResizePeerArraysLocked n 0) <| n_last_peer_ids := [] |>.

Lemma Replicate_rounds_alone k n l now ll send ss r :
  solo n → n_log_storage n = Some l →
  Replicate_rounds (S k) n now ll send ss r = Replicate_single (no_peers n) now.
Proof.
  intros Hso Hl. cbn [Replicate_rounds]. unfold Replicate_begin. rewrite Hl, bool_decide_true by apply Hso.
  rewrite (solo_peers n Hso). reflexivity.
Qed.

Lemma no_peers_kept n :
  same_role n (no_peers n) ∧ n_log_storage (no_peers n) = n_log_storage n ∧
  n_state_machine (no_peers n) = n_state_machine n ∧ n_aborted (no_peers n) = n_aborted n ∧
  n_commit_index (no_peers n) = n_commit_index n ∧ n_last_applied (no_peers n) = n_last_applied n ∧
  n_peer_last_log_index (no_peers n) = [].
Proof. unfold same_role. split_and!; try reflexivity. apply resize_0. Qed.

(** ** One submission *)

(** The entry as it is stored. *)
Definition stored_entry n a (entry : LogEntry) : LogEntry :=
  mkLogEntry (n_term n) (al_last a + 1) (le_command entry).

Lemma al_append_last_entry n a entry :
  0 ≤ al_base a →
  al_range (al_append a (entry <| le_term := n_term n |> <| le_index := 0 |>)) (al_last a + 1) 1 =
    [stored_entry n a entry].
Proof.
  intros Hb. change (take 1 (drop (Z.to_nat (al_last a + 1 - al_base a - 1))
    (al_entries a ++ [stored_entry n a entry])) = [stored_entry n a entry]).
  replace (Z.to_nat (al_last a + 1 - al_base a - 1)) with (length (al_entries a))
    by (unfold al_last, zlen; lia).
  by rewrite drop_app_length.
Qed.

Lemma al_append_last_term n a entry :
  al_base a ≤ al_last a → anchor_index (al_anchor a) ≤ al_last a →
  al_term (al_append a (entry <| le_term := n_term n |> <| le_index := 0 |>)) (al_last a + 1) = n_term n.
Proof.
  intros Hb Han. unfold al_term. simpl. rewrite (proj2 (Z.eqb_neq (al_last a + 1) _)) by lia. cbn [andb].
  unfold al_get. simpl. rewrite (proj2 (Z.leb_gt _ _)) by lia.
  rewrite lookup_app_r by (unfold al_last, zlen; lia).
  replace (Z.to_nat (al_last a + 1 - al_base a - 1) - length (al_entries a))%nat with 0%nat; [done|].
  unfold al_last, zlen. lia.
Qed.

Lemma coordinator_round_alone k n a sm e now send ss idx :
  solo n → one_behind (n <| n_commit_index := al_last a |>) a sm e →
  n_commit_index n < al_last a → n_term n ≤ al_term a (al_last a) → idx = al_last a →
  let r := coordinator_rounds (S k) n now send ss [idx] 0 in
  r.2 = al_last a ∧ same_role n r.1 ∧ (∃ l, n_log_storage r.1 = Some l ∧ log_rep l a) ∧
  n_state_machine r.1 = Some (ApplyLogEntry sm e).1 ∧ n_aborted r.1 = false ∧
  n_commit_index r.1 = al_last a ∧ n_last_applied r.1 = al_last a.
Proof.
  intros Hso Hob Hc Ht -> r. destruct (ob_log _ _ _ _ Hob) as (l & Hl & Hr).
  change (n_log_storage n = Some l) in Hl. destruct (no_peers_kept n) as (K1 & K2 & K3 & K4 & K5 & K6 & K7).
  pose proof (solo_same _ _ Hso K1) as Hso1. set (n1 := no_peers n) in *.
  assert (Replicate_single n1 now = ApplyCommittedLogsLocked (n1 <| n_commit_index := al_last a |>) now) as E.
  { unfold Replicate_single. rewrite bool_decide_true by apply Hso1. cbn [negb].
    rewrite (AdvanceCommitIndexLocked_alone n1 l a Hso1 K7); [|congruence|done|apply (ob_base _ _ _ _ Hob)| |by rewrite K5].
    - by rewrite MaybeAutoFinalize_stable by exact (so_stable n1 Hso1).
    - unfold n_term in *. destruct K1 as (_ & _ & _ & ->). done. }
  destruct (apply_one (n1 <| n_commit_index := al_last a |>) a sm e now) as
    (A1 & (l2 & A2 & A3) & A4 & A5 & A6 & A7).
  { destruct Hob as [_ H2 H3 H4 H5 H6 H7 H8 H9]. split; try done; simpl in *; [|congruence..].
    exists l. split; [congruence|done]. }
  unfold r. cbn [coordinator_rounds]. unfold ReplicateLog.
  rewrite (Replicate_rounds_alone 7 n l now true send ss _ Hso Hl). fold n1. rewrite E.
  destruct (ApplyCommittedLogsLocked (n1 <| n_commit_index := al_last a |>) now) as [n2 r2]. cbn [fst] in *.
  rewrite (apply_none n2 _ l2 now A2 A4) by lia.
  change (n_aborted (n2 <| n_state_machine := Some (ApplyLogEntry sm e).1 |>)) with (n_aborted n2). rewrite A5.
  change (n_last_applied (n2 <| n_state_machine := Some (ApplyLogEntry sm e).1 |>)) with (n_last_applied n2).
  rewrite A7. pose proof (al_base_nonneg a (rep_wf l a Hr)). pose proof (ob_base _ _ _ _ Hob).
  cbn [fold_left]. rewrite Z.max_r, Z.leb_refl by lia. cbn [fst snd].
  split; [done|]. split; [exact (same_role_trans _ _ _ K1 A1)|]. split; [by exists l2|].
  split; [reflexivity|]. split_and!; done.
Qed.

Lemma SubmitEntry_run n a sm now send ss entry :
  caught_up n a sm → is_config entry = false → al_last a + 1 < U64_MAX →
  let e := stored_entry n a entry in
  let '(n', r) := SubmitEntry n now send ss entry in
  r = mkApplyResult OK 1 ∧ same_role n n' ∧
  caught_up n' (al_append a (entry <| le_term := n_term n |> <| le_index := 0 |>)) (ApplyLogEntry sm e).1.
Proof.
  intros [Hso (l & Hl & Hr) Hsm Hab Hc Ha Han] Hp Hlt e.
  set (e0 := entry <| le_term := n_term n |> <| le_index := 0 |>).
  pose proof (rep_wf l a Hr) as Hwf. pose proof (al_base_nonneg a Hwf) as Hb.
  assert (al_base a ≤ al_last a) as Hb' by (unfold al_last, zlen; lia).
  destruct (rep_Append l a e0 false Hr Hlt) as [Hr1 _].
  unfold SubmitEntry, SubmitEntry_append. rewrite Hl, bool_decide_true by apply Hso. cbn [negb]. cbv zeta.
  fold e0. set (l1 := (Append l e0 false).1) in *. set (a1 := al_append a e0) in *.
  assert (al_last a1 = al_last a + 1) as E1 by apply al_last_append.
  unfold CoordinatorCommit. set (n1 := (n <| n_log_storage := Some l1 |>) <| n_log_storage ::= fmap Persist |>).
  rewrite (rep_LastIndex l1 a1 Hr1).
  pose proof (coordinator_round_alone 15 n1 a1 sm e now send ss (al_last a1)) as H.
  destruct H as (R1 & R2 & (l2 & Hl2 & Hr2) & R4 & R5 & R6 & R7); [..|done|].
  - apply (solo_same n); [done|]. split_and!; reflexivity.
  - split; try done.
    + exists (Persist l1). split; [reflexivity|by apply rep_Persist].
    + rewrite E1. apply al_append_last_entry. done.
    + rewrite E1. change (al_base a < al_last a + 1). lia.
    + change (n_last_applied n = al_last a1 - 1). lia.
  - change (n_commit_index n < al_last a1). lia.
  - rewrite E1. unfold a1, e0. rewrite al_append_last_term by done. done.
  - destruct (coordinator_rounds 16 n1 now send ss [al_last a1] 0) as [n2 applied]. cbn [fst snd] in *.
    cbn [map head default]. rewrite R1, Z.leb_refl. split; [done|]. split; [exact R2|].
    assert (same_role n n2) as Hsame by exact R2.
    split; try done; [by apply (solo_same n)|by exists l2|]. change (anchor_index (al_anchor a) ≤ al_last a1). lia.
Qed.
(** ** Any number of submissions *)

(** Callers one after the other. *)
Fixpoint submit_all n now send ss (entries : list LogEntry) : RaftNode L SM * list ApplyResult :=
  match entries with
  | [] => (n, [])
  | e :: es =>
      let '(n, r) := SubmitEntry n now send ss e in
      let '(n, rs) := submit_all n now send ss es in (n, r :: rs)
  end.

(** The entries as they are stored, from index [k + 1] on. *)
Definition stored_entries (term k : Z) (entries : list LogEntry) : list LogEntry :=
  imap (λ i e, mkLogEntry term (k + 1 + Z.of_nat i) (le_command e)) entries.

(** C11. On a node that leads alone the write path always completes: every one of
    any number of submitted commands is appended at the next index in the
    leader's term, committed within its own call, applied to the state machine
    exactly once and in order, and acknowledged. *)
Theorem submissions_complete n a sm now send ss entries :
  caught_up n a sm → Forall (λ e, is_config e = false) entries → al_last a + zlen entries < U64_MAX →
  let stored := stored_entries (n_term n) (al_last a) entries in
  let '(n', rs) := submit_all n now send ss entries in
  rs = replicate (length entries) (mkApplyResult OK 1) ∧
  ∃ a', al_base a' = al_base a ∧ al_entries a' = al_entries a ++ stored ∧
    caught_up n' a' (fold_left (λ sm e, (ApplyLogEntry sm e).1) stored sm).
Proof.
  intros Hc Hp. revert n a sm Hc. induction Hp as [|e es He Hp IH]; intros n a sm Hc Hlen; cbn zeta.
  - cbn [submit_all]. split; [done|]. exists a. by rewrite app_nil_r.
  - rewrite zlen_cons in Hlen. pose proof (zlen_nonneg es) as Hz.
    cbn [submit_all]. pose proof (SubmitEntry_run n a sm now send ss e Hc He ltac:(lia)) as H. cbv zeta in H.
    destruct (SubmitEntry n now send ss e) as [n1 r]. destruct H as (-> & Hs & Hc1).
    set (a1 := al_append a (e <| le_term := n_term n |> <| le_index := 0 |>)) in *.
    assert (al_last a1 = al_last a + 1) as El by apply al_last_append.
    assert (n_term n1 = n_term n) as Et by (unfold n_term; by destruct Hs as (_ & _ & _ & ->)).
    pose proof (IH n1 a1 _ Hc1 ltac:(lia)) as H1. cbv zeta in H1. rewrite Et, El in H1.
    destruct (submit_all n1 now send ss es) as [n2 rs]. destruct H1 as (-> & a' & Hb & Hen & Hc2).
    assert (stored_entries (n_term n) (al_last a) (e :: es) =
      stored_entry n a e :: stored_entries (n_term n) (al_last a + 1) es) as ->.
    { unfold stored_entries. rewrite imap_cons. unfold stored_entry. f_equal; [f_equal; lia|].
      apply imap_ext. intros i x _. simpl. f_equal. lia. }
    split; [done|]. exists a'. split; [done|]. split; [|done].
    rewrite Hen. change (al_entries a1) with (al_entries a ++ [stored_entry n a e]). by rewrite <-app_assoc.
Qed.
End solo.

(** ** Becoming the leader of a single node *)

Section bootstrap.
Context {L SM : Type} `{!LogStorage L, !StateMachine SM, !LogStorageSpec L}.
Implicit Types n : RaftNode L SM.

(** A follower without peers whose log is applied up to its end. *)
Record idle n (a : alog) (sm : SM) : Prop := {
  id_role : n_role n = Follower;
  id_stable : n_config_state n = kStable;
  id_voters : cc_voters (n_cluster_config n) = ∅;
  id_log : ∃ l, n_log_storage n = Some l ∧ log_rep l a;
  id_sm : n_state_machine n = Some sm;
  id_running : n_aborted n = false;
  id_commit : n_commit_index n = al_last a;
  id_applied : n_last_applied n = al_last a;
  id_anchor : anchor_index (al_anchor a) ≤ al_last a
}.

(** The fields that a change of role leaves alone. *)
Definition same_data n n' : Prop :=
  n_config_state n' = n_config_state n ∧ n_cluster_config n' = n_cluster_config n ∧
  n_log_storage n' = n_log_storage n ∧ n_state_machine n' = n_state_machine n ∧
  n_aborted n' = n_aborted n ∧ n_commit_index n' = n_commit_index n ∧ n_last_applied n' = n_last_applied n.

Lemma SetRoleLocked_data n r : same_data n (SetRoleLocked n r) ∧ n_role (SetRoleLocked n r) = r.
Proof.
  unfold same_data, SetRoleLocked, CancelTransferLocked, StopHeartbeat, StartHeartbeat. cbv zeta. destruct r;
  repeat match goal with |- context [if ?b then _ else _] => destruct b end; split_and!; reflexivity.
Qed.

Lemma same_data_trans n1 n2 n3 : same_data n1 n2 → same_data n2 n3 → same_data n1 n3.
Proof. unfold same_data. intros (-> & -> & -> & -> & -> & -> & ->). done. Qed.

Lemma BecomeLeaderLocked_data n now : same_data n (BecomeLeaderLocked n now) ∧ n_role (BecomeLeaderLocked n now) = Leader.
Proof.
  destruct (SetRoleLocked_data n Leader) as [H1 H2]. unfold BecomeLeaderLocked, BecomeLeaderInitPeersLocked. cbv zeta.
  generalize dependent (SetRoleLocked n Leader). intros n1 H1 H2.
  match goal with |- context [match ?x with Some _ => _ | None => _ end] => destruct x end;
    (split; [apply (same_data_trans _ _ _ H1); unfold same_data; split_and!; reflexivity|exact H2]).
Qed.

Lemma BecomeCandidateLocked_data n : same_data n (BecomeCandidateLocked n).
Proof.
  unfold BecomeCandidateLocked. case_bool_decide; [unfold same_data; by split_and!|]. cbv zeta.
  match goal with |- same_data _ (SetRoleLocked ?m _) => destruct (SetRoleLocked_data m Candidate) as [Hd _] end.
  eapply same_data_trans; [|exact Hd]. unfold same_data. split_and!; reflexivity.
Qed.

(** [BootstrapSingleNode] makes a node without peers a leader that is ready. *)
Lemma bootstrap_caught_up n a sm now :
  idle n a sm → ∃ n', BootstrapSingleNode n now = (n', true) ∧ caught_up n' a sm.
Proof.
  intros [Hr Hs Hv Hl Hsm Hab Hc Ha Han]. unfold BootstrapSingleNode. rewrite bool_decide_false by congruence.
  assert (GetPeerIdsLocked n = []) as -> by (unfold GetPeerIdsLocked; by rewrite Hs, Hv, elements_empty).
  rewrite bool_decide_true by done. cbn [negb]. eexists. split; [reflexivity|].
  destruct (BecomeLeaderLocked_data (BecomeCandidateLocked n) now) as [H1 H2].
  pose proof (same_data_trans _ _ _ (BecomeCandidateLocked_data n) H1) as (E1 & E2 & E3 & E4 & E5 & E6 & E7).
  split; [split; [done|congruence|congruence]|by rewrite E3|congruence..|done].
Qed.
End bootstrap.

(** ** Examples *)

Section examples.
#[local] Existing Instance example_lib.

Definition solo_node : RaftNode CommandLog KvStateMachine :=
  (BootstrapSingleNode (example_node (KvStateMachine_new 0 2) CommandLog_new) 7).1.

Lemma solo_node_caught_up : caught_up solo_node alog_empty (KvStateMachine_new 0 2).
Proof.
  destruct (bootstrap_caught_up (example_node (KvStateMachine_new 0 2) CommandLog_new) alog_empty (KvStateMachine_new 0 2) 7)
    as (n & E & Hc).
  - split; try reflexivity. exists CommandLog_new. split; [reflexivity|apply CommandLog_new_rep].
  - unfold solo_node. by rewrite E.
Qed.

Definition example_send : NodeId → AppendEntriesRequest → AppendEntriesResponse :=
  λ _ _, mkAppendEntriesResponse 0 0 false 0.

Lemma submissions_complete_witness :
  (submit_all solo_node 8 example_send (λ _ _ _, false)
     [mkLogEntry 0 0 (EncodeRespArray [str "SET"; str "a"; str "1"]);
      mkLogEntry 0 0 (EncodeRespArray [str "DEL"; str "a"])]).2 = [mkApplyResult OK 1; mkApplyResult OK 1].
Proof.
  pose proof (submissions_complete solo_node alog_empty (KvStateMachine_new 0 2) 8 example_send (λ _ _ _, false)
    [mkLogEntry 0 0 (EncodeRespArray [str "SET"; str "a"; str "1"]); mkLogEntry 0 0 (EncodeRespArray [str "DEL"; str "a"])]
    solo_node_caught_up) as H.
  cbv zeta in H. destruct (submit_all _ _ _ _ _) as [n' rs]. apply H; by_decide.
Defined.
End examples.
