(* ===== verification/Convergence.v ===== *)
(** * Replication converges

    A leader and one follower together: the rounds of the catch-up replication
    ([ReplicateLog(false)], which the heartbeat runs) on the one side,
    [OnAppendEntries] on the other (src/server/raft/raft_node.cc).  Whatever the
    follower has in its log, after a bounded number of rounds it has the leader's
    log.  And two limits of the write path: in a cluster of two nodes the other
    mode of [ReplicateLog], which client writes use, never sends anything, and a
    write can be acknowledged although a new leader has replaced it. *)

From S2P Require Import Prelude RaftTypes LogStorage StateMachine RaftStorage ApplyProgress ElectionTimer CommandLog CommandEncoder KvStateMachine RaftNode Replication HardState Recovery FollowerLog LeaderCommit SoloLeader.

Section frames.
Context {L SM : Type} `{!LogStorage L, !StateMachine SM, !LogStorageSpec L}.
Implicit Types n : RaftNode L SM.

(** The fields that applying ordinary entries leaves alone. *)
Definition lead_frame n n' : Prop :=
  n_role n' = n_role n ∧ n_config_state n' = n_config_state n ∧ n_cluster_config n' = n_cluster_config n ∧
  n_node_id n' = n_node_id n ∧ n_transport n' = n_transport n ∧ n_storage n' = n_storage n ∧
  n_last_snapshot_index n' = n_last_snapshot_index n ∧ n_peer_next_index n' = n_peer_next_index n ∧
  n_peer_last_log_index n' = n_peer_last_log_index n ∧ n_peer_hb_ok n' = n_peer_hb_ok n.

Lemma lead_frame_refl n : lead_frame n n.
Proof. unfold lead_frame. split_and!; reflexivity. Qed.

Lemma lead_frame_trans n1 n2 n3 : lead_frame n1 n2 → lead_frame n2 n3 → lead_frame n1 n3.
Proof. unfold lead_frame. intros (-> & -> & -> & -> & -> & -> & -> & -> & -> & ->). done. Qed.

Lemma apply_entries_frame es : ∀ n sm r,
  Forall (λ e, is_config e = false) es → lead_frame n (apply_entries n sm es r).1.1.
Proof.
  induction es as [|e es IH]; intros n sm r He; [apply lead_frame_refl|]. apply Forall_cons in He as [He Hes].
  cbn [apply_entries]. unfold apply_entry. unfold is_config in He. rewrite bool_decide_eq_false in He.
  rewrite bool_decide_false by done. destruct (ApplyLogEntry sm e) as [sm1 r1].
  refine (lead_frame_trans _ _ _ _ (IH _ _ _ Hes)). unfold lead_frame. split_and!; reflexivity.
Qed.

Lemma flush_progress_frame n now : lead_frame n (flush_progress n now).
Proof.
  unfold flush_progress. cbv zeta.
  match goal with |- context [if ?b then (if ?c then _ else _) <| n_apply_progress ::= _ |> <| n_last_apply_meta_flush_ms := _ |> else _] =>
    destruct b; [destruct c|] end; (unfold lead_frame; split_and!; reflexivity).
Qed.

Lemma apply_loop_frame fuel : ∀ n sm now r l a,
  n_log_storage n = Some l → log_rep l a → al_base a ≤ n_last_applied n → n_commit_index n < U64_MAX →
  Forall (λ e, is_config e = false) (al_entries a) →
  let n' := (apply_loop fuel n sm now r).1.1 in lead_frame n n' ∧ al_base a ≤ n_last_applied n'.
Proof.
  assert (∀ n a, al_base a ≤ n_last_applied n → lead_frame n n ∧ al_base a ≤ n_last_applied n) as Hrefl
    by (intros; split; [apply lead_frame_refl|done]).
  induction fuel as [|fuel IH]; intros n sm now r l a Hl Hr Hla Hc Hcf; [by apply Hrefl|]. cbn [apply_loop].
  rewrite Hl, (rep_LastIndex l a Hr). pose proof (al_last_bound a (rep_wf l a Hr)) as Hbd.
  pose proof (al_base_nonneg a (rep_wf l a Hr)) as Hb0.
  destruct (Z.ltb_spec (n_last_applied n) (n_commit_index n)); [|by apply Hrefl].
  destruct (Z.ltb_spec (n_last_applied n) (al_last a)); [|by apply Hrefl]. cbn [andb]. cbv zeta.
  set (limit := Z.min kApplyBatchSize (n_commit_index n - n_last_applied n)).
  assert (0 < limit) by (unfold limit, kApplyBatchSize; lia).
  rewrite (rep_GetRange l a (n_last_applied n + 1) limit Hr) by (unfold limit; lia).
  assert (∀ e, e ∈ al_range a (n_last_applied n + 1) limit → e ∈ al_entries a) as Hsub.
  { intros e. unfold al_range. case_match; intros He; [|apply (subseteq_take (Z.to_nat limit)) in He];
      by apply (subseteq_drop (Z.to_nat (n_last_applied n + 1 - al_base a - 1))) in He. }
  assert (Forall (λ e, is_config e = false) (al_range a (n_last_applied n + 1) limit)) as Hrange.
  { apply Forall_forall. intros e He. apply (proj1 (Forall_forall _ _) Hcf). by apply Hsub. }
  assert (Forall config_parses (al_range a (n_last_applied n + 1) limit)) as Hparse.
  { eapply Forall_impl; [exact Hrange|]. intros e He. unfold config_parses. by rewrite He. }
  assert (∀ e, last (al_range a (n_last_applied n + 1) limit) = Some e → al_base a ≤ le_index e) as Hlast.
  { intros e He. rewrite last_lookup in He. apply list_elem_of_lookup_2, Hsub, list_elem_of_lookup in He as [i Hi].
    rewrite (al_indices a (rep_wf l a Hr) i e Hi). lia. }
  destruct (al_range a (n_last_applied n + 1) limit) as [|e0 es0]; [by apply Hrefl|]. cbv iota.
  pose proof (apply_entries_frame (e0 :: es0) n sm r Hrange) as Hs.
  destruct (apply_entries_spec (e0 :: es0) n sm r Hparse) as (n1 & r1 & E & (K1 & K2 & K3) & Hla1).
  rewrite E in *. cbn [fst] in Hs.
  assert (al_base a ≤ n_last_applied n1) as Hla2.
  { rewrite Hla1. destruct (last (e0 :: es0)) as [e|] eqn:El; [by apply Hlast|lia]. }
  destruct (n_aborted n1); [by split|].
  destruct (flush_progress_spec n1 now l a) as (F1 & F2 & F3 & l1 & Hl1 & Hr1); [congruence|done|].
  destruct (IH (flush_progress n1 now) (fold_left sm_step (e0 :: es0) sm) now r1 l1 a Hl1 Hr1) as [G1 G2]; [by rewrite F1|rewrite F2; lia|done|].
  split; [|exact G2]. apply (lead_frame_trans _ n1); [exact Hs|].
  apply (lead_frame_trans _ (flush_progress n1 now)); [apply flush_progress_frame|exact G1].
Qed.

Lemma ApplyCommitted_frame n now l a :
  n_log_storage n = Some l → log_rep l a → al_base a ≤ n_last_applied n → n_commit_index n < U64_MAX →
  Forall (λ e, is_config e = false) (al_entries a) →
  let n' := (ApplyCommittedLogsLocked n now).1 in lead_frame n n' ∧ al_base a ≤ n_last_applied n'.
Proof.
  intros Hl Hr Hla Hc Hcf. unfold ApplyCommittedLogsLocked. rewrite Hl.
  destruct (n_state_machine n) as [sm|]; [|split; [apply lead_frame_refl|done]].
  pose proof (apply_loop_frame (S (Z.to_nat (n_commit_index n - n_last_applied n))) n sm now default_ApplyResult l a Hl Hr Hla Hc Hcf) as H.
  destruct (apply_loop _ n sm now default_ApplyResult) as [[n2 sm2] r2]. exact H.
Qed.

(** ** Terms *)

Lemma apply_entries_term es : ∀ n sm r, n_term (apply_entries n sm es r).1.1 = n_term n.
Proof.
  induction es as [|e es IH]; intros n sm r; [done|]. cbn [apply_entries].
  destruct (apply_entry n sm e r) as [[[n1 sm1] r1]|] eqn:E; [|done]. rewrite IH. clear IH. revert E. unfold apply_entry.
  case_bool_decide; [|by destruct (ApplyLogEntry sm e); intros [= <- _ _]].
  destruct (ConfigChange_Deserialize (le_command e)) as [target|]; [|done]. cbn [mbind option_bind]. intros [= <- _ _].
  destruct (n_config_state n); [|]; unfold n_term; cbn; by rewrite (proj1 (SetJointConfigState_fields _ _ _)).
Qed.

Lemma apply_loop_term fuel : ∀ n sm now r, n_term (apply_loop fuel n sm now r).1.1 = n_term n.
Proof.
  induction fuel as [|fuel IH]; intros n sm now r; [done|]. cbn [apply_loop].
  destruct (n_log_storage n) as [l|]; [|done]. case_match; [|done]. cbv zeta.
  destruct (GetRange l _ _) as [|e es]; [done|]. pose proof (apply_entries_term (e :: es) n sm r) as H1.
  destruct (apply_entries n sm (e :: es) r) as [[n1 sm1] r1]. cbn [fst] in H1. destruct (n_aborted n1); [exact H1|].
  rewrite IH. unfold n_term in *. by rewrite (proj1 (flush_progress_same n1 now)).
Qed.

Lemma ApplyCommitted_term n now : n_term (ApplyCommittedLogsLocked n now).1 = n_term n.
Proof.
  unfold ApplyCommittedLogsLocked. destruct (n_state_machine n) as [sm|]; [|done]. destruct (n_log_storage n) as [l|]; [|done].
  pose proof (apply_loop_term (S (Z.to_nat (n_commit_index n - n_last_applied n))) n sm now default_ApplyResult) as H.
  destruct (apply_loop _ n sm now default_ApplyResult) as [[n2 sm2] r2]. exact H.
Qed.

(** A follower that is not ahead answers in the leader's term. *)
Lemma OnAppendEntries_term n now req :
  n_term n ≤ areq_term req →
  let '(n', rsp) := OnAppendEntries n now req in n_term n' = areq_term req ∧ arsp_term rsp = areq_term req.
Proof.
  intros Ht. unfold OnAppendEntries. cbv zeta. rewrite (proj2 (Z.ltb_ge _ _) Ht).
  change (if n_term n <? areq_term req then _ else _) with (ae_node n req).
  assert (n_term (ae_node n req) = areq_term req) as E.
  { unfold ae_node. destruct (Z.ltb_spec (n_term n) (areq_term req)).
    - rewrite (proj1 (BecomeFollowerLocked_fields n (areq_term req))). lia.
    - case_match; unfold n_term in *; cbn; lia. }
  generalize dependent (ae_node n req). intros n1 E. destruct (n_log_storage n1) as [l|]; [|done].
  destruct (LastIndex l <? areq_prev_log_index req); [done|].
  match goal with |- context [if ?b && ?c then _ else _] => destruct (b && c) end; [done|]. destruct (append_entries_loop l _) as [l' ok]. destruct ok; cbn [negb]; [|done].
  match goal with |- context [if ?b then (ApplyCommittedLogsLocked _ _).1 else _] => destruct b end; [|done].
  by rewrite ApplyCommitted_term.
Qed.
End frames.

(** ** One round with one follower *)

Section convergence.
Context {L SM : Type} `{!LogStorage L, !StateMachine SM, !LogStorageSpec L}.
Implicit Types (n m : RaftNode L SM) (a b : alog).

(** One turn of the loop of [ReplicateLog(false)] on the leader [n], whose only
    peer is [m]: the request is handled by [m], its response by [n]. *)
Definition exchange (now : Z) (nm : RaftNode L SM * RaftNode L SM) : RaftNode L SM * RaftNode L SM :=
  let '(n, m) := nm in
  match Replicate_begin n with
  | (n, None) => (n, m)
  | (n, Some rd) =>
      let rsps := Replicate_send n false rd (λ _ req, (OnAppendEntries m now req).2) (λ _ _ _, false) (rd_preq rd) 1 in
      let received := fold_left (λ m '(r, rsp),
        if pp_attempted rsp then (OnAppendEntries m now (append_request n rd r)).1 else m) (zip (rd_preq rd) rsps) m in
      ((Replicate_finish n now rd rsps).1, received)
  end.

(** [n] leads in term [t] with the log [a], never compacted and without
    configuration changes; its only peer answers, and is to get [next] next. *)
Record leading n a (peer : NodeId) (t next : Z) : Prop := {
  ld_role : n_role n = Leader;
  ld_term : n_term n = t;
  ld_stable : n_config_state n = kStable;
  ld_peers : GetPeerIdsLocked n = [peer];
  ld_transport : n_transport n = true;
  ld_log : ∃ l, n_log_storage n = Some l ∧ log_rep l a;
  ld_base : al_base a = 0;
  ld_anchor : al_anchor a = default_anchor;
  ld_plain : Forall (λ e, is_config e = false) (al_entries a);
  ld_snapshot : n_last_snapshot_index n = 0;
  ld_next : n_peer_next_index n = [next];
  ld_match : ∃ x, n_peer_last_log_index n = [x] ∧ 0 ≤ x ≤ al_last a;
  ld_alive : n_peer_hb_ok n = [true];
  ld_applied : 0 ≤ n_last_applied n;
  ld_commit : n_commit_index n ≤ al_last a;
  ld_room : al_last a + kMaxAppendBatch < U64_MAX
}.

(** [m] has the log [b], never compacted, and is not ahead of term [t]. *)
Record following m b (t : Z) : Prop := {
  fo_term : n_term m ≤ t;
  fo_log : ∃ l, n_log_storage m = Some l ∧ log_rep l b;
  fo_base : al_base b = 0;
  fo_anchor : al_anchor b = default_anchor
}.

(** The Log Matching property of two logs. *)
Definition matching a b : Prop :=
  ∀ i, 0 < i → i ≤ al_last a → i ≤ al_last b → al_term a i = al_term b i → al_upto a i = al_upto b i.

(** The follower has the leader's entry in front of [next]. *)
Definition agree_before a b (next : Z) : Prop :=
  next = 1 ∨ (next - 1 ≤ al_last b ∧ al_term b (next - 1) = al_term a (next - 1)).

Lemma leading_frame n n' a peer t next next' x :
  leading n a peer t next → lead_frame n n' → (∃ l, n_log_storage n' = Some l ∧ log_rep l a) →
  0 ≤ n_last_applied n' → n_commit_index n' ≤ al_last a →
  n_peer_next_index n = [next'] → n_peer_last_log_index n = [x] → 0 ≤ x ≤ al_last a →
  leading n' a peer t next'.
Proof.
  intros [] (E1 & E2 & E3 & E4 & E5 & E6 & E7 & E8 & E9 & E10) Hl Ha Hc Hn Hx Hxb. split; try congruence; try done.
  - unfold n_term in *. congruence.
  - unfold GetPeerIdsLocked in *. rewrite E2, E3, E4. rewrite ld_stable0 in *. done.
  - exists x. split; [congruence|done].
Qed.

(** The request of a round. *)
Definition catch_up_request n a (t next : Z) : AppendEntriesRequest :=
  mkAppendEntriesRequest (n_group_id n) t (n_node_id n) (next - 1) (al_term a (next - 1))
    (al_range a next kMaxAppendBatch) (n_commit_index n).

Lemma default_anchor_term a i e : al_anchor a = default_anchor → al_get a i = Some e → al_term a i = le_term e.
Proof. intros Ha Hg. unfold al_term. rewrite Ha, Hg. cbn. by rewrite andb_false_r. Qed.

Lemma term_0 a : al_base a = 0 → al_anchor a = default_anchor → al_term a 0 = 0.
Proof. intros Hb Ha. unfold al_term, al_get. rewrite Ha, Hb. done. Qed.

Lemma Replicate_begin_one n a peer t next :
  leading n a peer t next → 1 ≤ next ≤ al_last a →
  ∃ rd r, Replicate_begin n = (n <| n_last_peer_ids := [peer] |>, Some rd) ∧ rd_current_term rd = t ∧
    rd_my_last rd = al_last a ∧ rd_preq rd = [r] ∧ pr_idx r = 0%nat ∧ pr_next r = next ∧ pr_need_snapshot r = false ∧
    append_request (n <| n_last_peer_ids := [peer] |>) rd r = catch_up_request n a t next.
Proof.
  intros Hld Hn. destruct (ld_log _ _ _ _ _ Hld) as (l & Hl & Hr). destruct (ld_match _ _ _ _ _ Hld) as (x & Hx & _).
  pose proof Hld as [Hrole Ht Hst Hp _ _ Hb Ha _ Hs Hnx _ Hhb _ _ Hroom].
  unfold Replicate_begin. rewrite Hl, bool_decide_true by done. cbn [negb]. cbv zeta. rewrite Hp. cbn [length].
  assert (ResizePeerArraysLocked n 1 = n) as Ers.
  { unfold ResizePeerArraysLocked. rewrite Hl. destruct n. simpl in *. subst. cbn.
    by rewrite (proj2 (Z.eqb_neq next 0)) by lia. }
  rewrite Ers. set (n1 := n <| n_last_peer_ids := [peer] |>).
  change (n_peer_hb_ok n1) with (n_peer_hb_ok n). rewrite Hhb. change (peer_order [true] 1) with [0%nat]. cbn [map].
  eexists _, _. split; [reflexivity|]. split; [exact Ht|]. split; [by apply rep_LastIndex|].
  split; [reflexivity|].
  unfold build_peer_req. cbv zeta. change (n_peer_next_index n1) with (n_peer_next_index n). rewrite Hnx.
  change (default 0 ([next] !! 0%nat)) with next.
  assert ((if next <=? 1 then 1 else next) = next) as -> by (destruct (Z.leb_spec next 1); lia).
  change (n_last_snapshot_index n1) with (n_last_snapshot_index n). rewrite Hs. cbn [ShouldInstallSnapshot Z.ltb Z.compare andb].
  split; [done|]. split; [done|]. split; [done|].
  unfold append_request, catch_up_request. cbn [pr_prev pr_entries rd_current_term].
  change (n_term n1) with (n_term n). rewrite Ht.
  rewrite (rep_GetRange l a next kMaxAppendBatch Hr) by (unfold kMaxAppendBatch in *; lia).
  destruct (Z.ltb_spec 1 next).
  - rewrite (rep_Get l a (next - 1) Hr) by lia. destruct (al_get_is_Some a (next - 1)) as [e He]; [lia|]. rewrite He.
    rewrite (al_get_index a (next - 1) e (rep_wf l a Hr) He), (default_anchor_term a (next - 1) e Ha He). done.
  - assert (next = 1) as -> by lia. change (1 - 1) with 0. rewrite (term_0 a Hb Ha). done.
Qed.

(** ** The leader's side of a round *)

Lemma AdvanceCommit_bounded n a l peer t next :
  leading n a peer t next → n_log_storage n = Some l → log_rep l a →
  lead_frame n (AdvanceCommitIndexLocked n) ∧ n_log_storage (AdvanceCommitIndexLocked n) = Some l ∧
  n_last_applied (AdvanceCommitIndexLocked n) = n_last_applied n ∧ n_commit_index (AdvanceCommitIndexLocked n) ≤ al_last a.
Proof.
  intros Hld Hl Hr. unfold AdvanceCommitIndexLocked. rewrite Hl, (ld_stable _ _ _ _ _ Hld).
  destruct (ld_match _ _ _ _ _ Hld) as (x & Hx & Hxb). pose proof (ld_commit _ _ _ _ _ Hld).
  assert (lead_frame n n ∧ n_log_storage n = Some l ∧ n_last_applied n = n_last_applied n ∧ n_commit_index n ≤ al_last a) as Hid
    by (split_and!; [apply lead_frame_refl|done..]).
  destruct (majority_index _ _) as [c|] eqn:E; [|exact Hid].
  assert (c ≤ al_last a) as Hc.
  { unfold majority_index in E. apply list_elem_of_lookup_2 in E. unfold sort_desc in E.
    rewrite merge_sort_Permutation, Hx, (rep_LastIndex l a Hr) in E.
    apply elem_of_cons in E as [->|E]; [lia|]. apply list_elem_of_singleton in E. lia. }
  destruct (commit_candidate_cases n l c) as [->|(-> & _)]; [exact Hid|].
  split; [unfold lead_frame; split_and!; reflexivity|]. split_and!; [exact Hl|reflexivity|exact Hc].
Qed.

(** Committing and applying after the responses have been processed. *)
Lemma leading_settles n a peer t next now :
  leading n a peer t next →
  let n' := (ApplyCommittedLogsLocked (MaybeAutoFinalizeJointLocked (AdvanceCommitIndexLocked n)) now).1 in
  leading n' a peer t next ∧ n_peer_last_log_index n' = n_peer_last_log_index n.
Proof.
  intros Hld n'. destruct (ld_log _ _ _ _ _ Hld) as (l & Hl & Hr). destruct (ld_match _ _ _ _ _ Hld) as (x & Hx & Hxb).
  destruct (AdvanceCommit_bounded n a l peer t next Hld Hl Hr) as (F1 & Hl1 & Ha1 & Hc1).
  pose proof (al_last_bound a (rep_wf l a Hr)) as Hbd.
  assert (MaybeAutoFinalizeJointLocked (AdvanceCommitIndexLocked n) = AdvanceCommitIndexLocked n) as Em.
  { apply MaybeAutoFinalize_stable. destruct F1 as (_ & -> & _). apply (ld_stable _ _ _ _ _ Hld). }
  unfold n'. rewrite Em. set (n1 := AdvanceCommitIndexLocked n) in *.
  destruct (ApplyCommittedLogsLocked_keeps n1 now l a Hl1 Hr) as [K1 K2].
  destruct (ApplyCommitted_frame n1 now l a Hl1 Hr) as [F2 Hla]; [rewrite Ha1, (ld_base _ _ _ _ _ Hld); apply (ld_applied _ _ _ _ _ Hld)|lia|apply (ld_plain _ _ _ _ _ Hld)|].
  pose proof (lead_frame_trans _ _ _ F1 F2) as F. rewrite (ld_base _ _ _ _ _ Hld) in Hla. split.
  - apply (leading_frame n _ a peer t next next x); [done|exact F|exact K2|exact Hla|rewrite K1; exact Hc1|apply (ld_next _ _ _ _ _ Hld)|exact Hx|exact Hxb].
  - apply F.
Qed.

(** The index a round leaves for the next one. *)
Definition next_after (next : Z) (rsp : PeerRsp) : Z :=
  if pp_ok rsp then pp_match rsp + 1 else Z.max 1 (Z.min (next - 1) (pp_match rsp + 1)).

Lemma process_rsp_one n a peer t next r rsp :
  leading n a peer t next → 1 ≤ next ≤ al_last a → pr_idx r = 0%nat → pp_attempted rsp = true → 0 ≤ pp_match rsp ≤ al_last a →
  let n' := (process_rsp (n, false) (r, rsp)).1 in
  leading n' a peer t (next_after next rsp) ∧ (pp_ok rsp = true → n_peer_last_log_index n' = [pp_match rsp]).
Proof.
  intros Hld Hn Hi Hat Hm. pose proof (ld_room _ _ _ _ _ Hld) as Hroom. unfold kMaxAppendBatch in Hroom.
  assert (u64 (pp_match rsp + 1) = pp_match rsp + 1) as Hu1 by (apply u64_small; unfold U64_MAX in *; lia).
  assert (u64 (next - 1) = next - 1) as Hu2 by (apply u64_small; unfold U64_MAX in *; lia).
  destruct Hld as [Hrole Ht Hst Hp Htr Hlog Hb Ha Hpl Hs Hnx (x & Hx & Hxb) Hhb Hap Hc Hrm].
  unfold process_rsp, next_after. rewrite Hat, Hi. cbn [negb]. rewrite Hu1, Hnx. change (default 0 ([next] !! 0%nat)) with next.
  rewrite Hu2. destruct (pp_ok rsp); cbv zeta; cbn [fst].
  - split; [|intros _; cbn; by rewrite Hx]. split; try assumption; cbn; [by rewrite Hnx|]. exists (pp_match rsp). by rewrite Hx.
  - split; [|done].
    assert ((if Z.min (next - 1) (pp_match rsp + 1) <? 1 then 1 else Z.min (next - 1) (pp_match rsp + 1)) =
      Z.max 1 (Z.min (next - 1) (pp_match rsp + 1))) as -> by (destruct (Z.ltb_spec (Z.min (next - 1) (pp_match rsp + 1)) 1); lia).
    cbn. rewrite Hs, (proj2 (Z.leb_gt _ _)) by lia.
    split; try assumption; cbn; [done|by rewrite Hnx|by exists x].
Qed.

Lemma Replicate_finish_one n a peer t next now rd r rsp :
  leading n a peer t next → 1 ≤ next ≤ al_last a → rd_current_term rd = t → rd_preq rd = [r] → pr_idx r = 0%nat →
  pp_attempted rsp = true → pp_term rsp = t → 0 ≤ pp_match rsp ≤ al_last a →
  let n' := (Replicate_finish n now rd [rsp]).1 in
  leading n' a peer t (next_after next rsp) ∧ (pp_ok rsp = true → n_peer_last_log_index n' = [pp_match rsp]).
Proof.
  intros Hld Hn Ht Hq Hi Hat Hpt Hm. unfold Replicate_finish. rewrite Hq, Ht. cbn [map fold_left zip zip_with]. rewrite Hpt, Z.max_id.
  pose proof (ld_role _ _ _ _ _ Hld) as Hrole. pose proof (ld_term _ _ _ _ _ Hld) as Htm.
  rewrite Htm, Z.ltb_irrefl, bool_decide_true, Z.eqb_refl by done. cbn [negb orb].
  destruct (process_rsp_one n a peer t next r rsp Hld Hn Hi Hat Hm) as [H1 H2].
  destruct (process_rsp (n, false) (r, rsp)) as [n1 retry]. cbn [fst] in H1, H2.
  destruct (leading_settles n1 a peer t (next_after next rsp) now H1) as [H3 H4].
  destruct (ApplyCommittedLogsLocked _ now) as [n2 result]. cbn [fst] in *. split; [exact H3|]. intros Hok. by rewrite H4, H2.
Qed.

(** ** The follower's side of a round *)

(** A follower without the entry in front of the request. *)
Lemma follower_rejects m b t now req :
  following m b t → areq_term req = t → 0 < areq_prev_log_index req →
  al_last b < areq_prev_log_index req ∨ al_term b (areq_prev_log_index req) ≠ areq_prev_log_term req →
  let '(m', rsp) := OnAppendEntries m now req in
  following m' b t ∧ arsp_success rsp = false ∧ arsp_term rsp = t ∧
  0 ≤ arsp_last_log_index rsp < areq_prev_log_index req.
Proof.
  intros [Hft (l & Hl & Hr) Hb Ha] Ht Hp Hrej. pose proof (OnAppendEntries_term m now req ltac:(lia)) as Hterm. revert Hterm.
  unfold OnAppendEntries. cbv zeta. rewrite (proj2 (Z.ltb_ge (areq_term req) (n_term m))) by lia.
  change (if n_term m <? areq_term req then _ else _) with (ae_node m req).
  destruct (ae_node_same_log m req) as [E _]. rewrite E, Hl, (rep_LastIndex l b Hr).
  assert (0 ≤ al_last b) by (unfold al_last, zlen; pose proof (al_base_nonneg b (rep_wf l b Hr)); lia).
  destruct (Z.ltb_spec (al_last b) (areq_prev_log_index req)) as [Hlt|Hge].
  { intros [T1 T2]. cbn in T2. split; [|cbn; split_and!; [done|congruence|lia..]]. split; [lia| |done|done]. exists l. by rewrite E. }
  destruct Hrej as [?|Hne]; [lia|]. rewrite (rep_GetTerm l b _ Hr) by lia.
  rewrite (proj2 (Z.ltb_lt 0 _)), (proj2 (Z.eqb_neq _ _)) by done. cbn [andb negb].
  intros [T1 T2]. cbn in T2. split; [|cbn; split_and!; [done|congruence|lia..]]. split; [lia| |done|done]. exists l. by rewrite E.
Qed.

Lemma range_entries_from a next : al_wf a → al_base a = 0 → 1 ≤ next → entries_from (next - 1) (al_range a next kMaxAppendBatch).
Proof.
  intros Hwf Hb Hn i e He. unfold al_range in He. cbn [Z.eqb kMaxAppendBatch] in He.
  apply lookup_take_Some in He as [He _]. rewrite lookup_drop in He. rewrite (al_indices a Hwf _ _ He). lia.
Qed.

Lemma range_upto a next :
  al_base a = 0 → 1 ≤ next ≤ al_last a →
  let es := al_range a next kMaxAppendBatch in
  es ≠ [] ∧ zlen es ≤ kMaxAppendBatch ∧ next - 1 + zlen es ≤ al_last a ∧
  al_upto a (next - 1) ++ es = al_upto a (next - 1 + zlen es).
Proof.
  intros Hb Hn es. pose proof (al_range_slice a (next - 1) kMaxAppendBatch ltac:(lia) ltac:(done)) as Es.
  replace (next - 1 + 1) with next in Es by lia. unfold al_last in *. rewrite Hb in *.
  assert (zlen es = Z.min kMaxAppendBatch (zlen (al_entries a) - (next - 1))) as Hlen.
  { unfold es. rewrite Es. unfold al_slice, zlen in *. rewrite length_take, length_drop, Hb. unfold kMaxAppendBatch. lia. }
  unfold kMaxAppendBatch in *. split; [intros E; rewrite E, zlen_nil in Hlen; lia|]. split; [lia|]. split; [lia|].
  unfold es in *. rewrite Es in *. unfold al_upto, al_slice in *. rewrite Hb in *.
  rewrite take_take_drop. destruct (decide (128 ≤ zlen (al_entries a) - (next - 1))); [f_equal; lia|].
  rewrite !take_ge; [done|unfold zlen in *; lia..].
Qed.

Lemma range_get a next e :
  al_wf a → al_base a = 0 → 1 ≤ next → e ∈ al_range a next kMaxAppendBatch →
  al_get a (le_index e) = Some e ∧ 0 < le_index e ≤ al_last a.
Proof.
  intros Hwf Hb Hn (i & Hi)%list_elem_of_lookup. pose proof (range_entries_from a next Hwf Hb Hn i e Hi) as Hx.
  unfold al_range in Hi. cbn [Z.eqb kMaxAppendBatch] in Hi. apply lookup_take_Some in Hi as [Hi _]. rewrite lookup_drop in Hi.
  assert (al_get a (le_index e) = Some e) as Hg.
  { unfold al_get. rewrite (proj2 (Z.leb_gt _ _)) by lia. rewrite <-Hi. f_equal. lia. }
  split; [done|]. apply al_get_Some in Hg. lia.
Qed.

Lemma matching_range a b next :
  al_wf a → al_base a = 0 → al_base b = 0 → al_anchor a = default_anchor → al_anchor b = default_anchor →
  matching a b → 1 ≤ next → log_matches b (al_range a next kMaxAppendBatch).
Proof.
  intros Hwf Hba Hbb Haa Hab Hm Hn e x He Hx Ht. destruct (range_get a next e Hwf Hba Hn He) as [Hg Hi].
  pose proof (al_get_Some _ _ _ Hx) as Hxb. set (i := le_index e) in *. replace i with (i - 1 + 1) in Hg, Hx by lia.
  assert (al_upto a i = al_upto b i) as Heq.
  { apply Hm; [lia..|]. replace (i - 1 + 1) with i in * by lia.
    by rewrite (default_anchor_term a i e Haa Hg), (default_anchor_term b i x Hab Hx). }
  pose proof (al_upto_next a (i - 1) e ltac:(lia) Hg) as Ua. pose proof (al_upto_next b (i - 1) x ltac:(lia) Hx) as Ub.
  replace (i - 1 + 1) with i in * by lia. rewrite Heq, Ub in Ua. by apply app_inj_tail in Ua as [_ ->].
Qed.

(** A follower that has the entry in front of the request. *)
Lemma follower_accepts m a b t next now req :
  following m b t → al_wf a → al_base a = 0 → al_anchor a = default_anchor → matching a b → agree_before a b next →
  1 ≤ next ≤ al_last a → al_last a + kMaxAppendBatch < U64_MAX →
  areq_term req = t → areq_prev_log_index req = next - 1 → areq_prev_log_term req = al_term a (next - 1) →
  areq_entries req = al_range a next kMaxAppendBatch →
  let '(m', rsp) := OnAppendEntries m now req in
  let k := next - 1 + zlen (al_range a next kMaxAppendBatch) in
  ∃ b', following m' b' t ∧ al_entries b' = al_upto a k ∧ arsp_success rsp = true ∧ arsp_term rsp = t.
Proof.
  intros [Hft (l & Hl & Hr) Hb Hab] Hwf Hba Haa Hm Hag Hn Hroom Et Ep Ept Ees.
  destruct (range_upto a next Hba Hn) as (Hne & Hlen & Hk & Hup). unfold kMaxAppendBatch in Hroom.
  assert (0 ≤ al_last b) by (unfold al_last, zlen; lia).
  pose proof (OnAppendEntries_term m now req ltac:(lia)) as Hterm.
  pose proof (OnAppendEntries_accepts m now req l b) as Hacc. cbv zeta in Hacc. rewrite Ep, Ept, Ees, Et in Hacc.
  destruct (OnAppendEntries m now req) as [m' rsp]. destruct Hterm as [T1 T2].
  destruct Hacc as (A1 & _ & _ & l' & b' & A4 & A5 & A6 & A7 & A8);
    [done|done|lia|destruct Hag as [->|[? ?]]; lia|by right|destruct Hag as [->|[? Hag]]; [by left|by right]|
     by apply range_entries_from; [..|lia]|done|done|lia|apply matching_range; [done..|lia]|].
  assert (al_upto b (next - 1) = al_upto a (next - 1)) as Eu.
  { destruct Hag as [->|[? Hag]]; [unfold al_upto; by rewrite Hba, Hb|].
    destruct (decide (next = 1)) as [->|]; [unfold al_upto; by rewrite Hba, Hb|]. symmetry. apply Hm; [lia..|done]. }
  exists b'. split; [|split_and!; [|done|congruence]].
  - split; [lia|by exists l'|congruence|]. destruct A8 as [->| ->]; done.
  - by rewrite A7, Eu.
Qed.

(** ** A round *)

Lemma prefix_matching a b k :
  al_base a = 0 → al_base b = 0 → 0 ≤ k ≤ al_last a → al_entries b = al_upto a k → al_last b = k ∧ matching a b.
Proof.
  intros Ha Hb Hk He. assert (al_last b = k) as El.
  { unfold al_last, al_upto, zlen in *. rewrite He, length_take, Ha, Hb in *. lia. }
  split; [done|]. intros i H0 Hi1 Hi2 _. unfold al_upto in *. rewrite He, Ha, Hb, take_take in *. f_equal. lia.
Qed.

Lemma prefix_term a b k :
  al_base a = 0 → al_base b = 0 → al_anchor a = default_anchor → al_anchor b = default_anchor →
  0 < k → al_entries b = al_upto a k → al_term b k = al_term a k.
Proof.
  intros Ha Hb Haa Hab Hk He. unfold al_term, al_get. rewrite He, Ha, Hb, Haa, Hab. unfold al_upto. rewrite Ha.
  rewrite lookup_take_lt by lia. done.
Qed.

(** What a round does, in terms of the two logs. *)
Lemma exchange_step n m a b peer t next now :
  leading n a peer t next → following m b t → matching a b → 1 ≤ next ≤ al_last a →
  let '(n', m') := exchange now (n, m) in
  (∃ next', leading n' a peer t next' ∧ following m' b t ∧ 1 ≤ next' < next ∧ ¬ agree_before a b next) ∨
  (∃ b' k, leading n' a peer t (k + 1) ∧ n_peer_last_log_index n' = [k] ∧ following m' b' t ∧
     next ≤ k ≤ al_last a ∧ al_entries b' = al_upto a k ∧ agree_before a b next).
Proof.
  intros Hld Hfo Hm Hn. destruct (Replicate_begin_one n a peer t next Hld Hn) as (rd & r & Eb & Et & El & Eq & Ei & Enx & Ens & Er).
  destruct (ld_log _ _ _ _ _ Hld) as (l & Hl & Hr). pose proof (rep_wf l a Hr) as Hwf.
  destruct (ld_match _ _ _ _ _ Hld) as (x & Hx & Hxb).
  assert (leading (n <| n_last_peer_ids := [peer] |>) a peer t next) as Hld1.
  { apply (leading_frame n _ a peer t next next x Hld); [unfold lead_frame; split_and!; reflexivity|by exists l|
      apply (ld_applied _ _ _ _ _ Hld)|apply (ld_commit _ _ _ _ _ Hld)|apply (ld_next _ _ _ _ _ Hld)|done|done]. }
  unfold exchange. rewrite Eb. set (n1 := n <| n_last_peer_ids := [peer] |>) in *. rewrite Eq. cbn [Replicate_send].
  rewrite (ld_transport _ _ _ _ _ Hld1), Ei, (ld_alive _ _ _ _ _ Hld1), El, Enx, Ens, Er. cbn [negb andb orb].
  change (default false ([true] !! 0%nat)) with true. rewrite (proj2 (Z.ltb_ge _ _)) by lia. cbn [negb andb orb].
  cbn [zip zip_with fold_left]. rewrite Er.
  set (req := catch_up_request n a t next). change (pp_attempted (append_outcome r _)) with true. cbv iota.
  assert (le_index (pr_prev r) = next - 1) as Epi by exact (f_equal areq_prev_log_index Er).
  assert (pr_entries r = al_range a next kMaxAppendBatch) as Ees by exact (f_equal areq_entries Er).
  destruct (range_upto a next (ld_base _ _ _ _ _ Hld) Hn) as (Hne & _ & Hk & _).
  assert (0 < zlen (al_range a next kMaxAppendBatch)) by (destruct (al_range a next kMaxAppendBatch); [done|rewrite zlen_cons; unfold zlen; lia]).
  destruct (decide (agree_before a b next)) as [Hag|Hag].
  - right. pose proof (follower_accepts m a b t next now req Hfo Hwf (ld_base _ _ _ _ _ Hld) (ld_anchor _ _ _ _ _ Hld) Hm Hag Hn
      (ld_room _ _ _ _ _ Hld) eq_refl eq_refl eq_refl eq_refl) as Hacc.
    destruct (OnAppendEntries m now req) as [m' rsp]. destruct Hacc as (b' & F1 & F2 & F3 & F4). cbn [snd fst].
    set (k := next - 1 + zlen (al_range a next kMaxAppendBatch)) in *.
    assert (append_outcome r rsp = mkPeerRsp true true k t) as -> by (unfold append_outcome; by rewrite F3, F4, Epi, Ees).
    destruct (Replicate_finish_one n1 a peer t next now rd r (mkPeerRsp true true k t) Hld1 Hn Et Eq Ei eq_refl eq_refl) as [G1 G2].
    { cbn [pp_match]. lia. }
    exists b', k. split_and!; [exact G1|by apply G2|done|lia|lia|done|done].
  - left. assert (1 < next) as Hn1 by (destruct (decide (next = 1)); [by destruct Hag; left|lia]).
    pose proof (follower_rejects m b t now req Hfo eq_refl ltac:(cbn; lia)) as Hrej. cbn [areq_prev_log_index areq_prev_log_term req catch_up_request] in Hrej.
    destruct (OnAppendEntries m now req) as [m' rsp]. destruct Hrej as (F1 & F2 & F3 & F4).
    { destruct (decide (al_last b < next - 1)); [by left|right]. intros E. apply Hag. right. split; [lia|done]. }
    cbn [snd fst]. set (k := arsp_last_log_index rsp) in *.
    assert (append_outcome r rsp = mkPeerRsp true false k t) as ->.
    { unfold append_outcome. fold k. rewrite F2, F3, Enx. cbn [negb andb]. by rewrite (proj2 (Z.ltb_lt _ _)) by lia. }
    destruct (Replicate_finish_one n1 a peer t next now rd r (mkPeerRsp true false k t) Hld1 Hn Et Eq Ei eq_refl eq_refl) as [G1 _].
    { cbn [pp_match]. lia. }
    eexists. split_and!; [exact G1|done|unfold next_after; cbn [pp_ok]; lia..|done].
Qed.

(** ** Convergence *)

(** What the rounds establish: the follower has the leader's log, and the leader
    knows. *)
Definition converged a (peer : NodeId) (t : Z) (nm : RaftNode L SM * RaftNode L SM) : Prop :=
  leading nm.1 a peer t (al_last a + 1) ∧ n_peer_last_log_index nm.1 = [al_last a] ∧
  ∃ b, following nm.2 b t ∧ al_entries b = al_entries a.

Lemma advancing_converges a peer t now (d : nat) : ∀ n m b next,
  Z.of_nat d = al_last a - next → leading n a peer t next → following m b t → matching a b → agree_before a b next →
  1 ≤ next ≤ al_last a →
  ∃ k, (k ≤ S d)%nat ∧ converged a peer t (Nat.iter k (exchange now) (n, m)).
Proof.
  induction (lt_wf d) as [d _ IH]. intros n m b next Hd Hld Hfo Hm Hag Hn.
  pose proof (exchange_step n m a b peer t next now Hld Hfo Hm Hn) as Hstep.
  destruct (exchange now (n, m)) as [n' m'] eqn:E. destruct Hstep as [(next' & _ & _ & _ & Hno)|(b' & k & H1 & H2 & H3 & H4 & H5 & _)]; [done|].
  destruct (decide (k = al_last a)) as [->|].
  - exists 1%nat. split; [lia|]. change (Nat.iter 1 (exchange now) (n, m)) with (exchange now (n, m)). rewrite E. split_and!; [done|done|]. exists b'. split; [done|]. by rewrite H5, al_upto_all.
  - destruct (prefix_matching a b' k (ld_base _ _ _ _ _ Hld) (fo_base _ _ _ H3) ltac:(lia) H5) as [El Hm'].
    destruct (IH (Z.to_nat (al_last a - (k + 1))) ltac:(lia) n' m' b' (k + 1)) as (j & Hj & Hc); [lia|done|done|done| |lia|].
    { right. replace (k + 1 - 1) with k by lia. split; [lia|].
      apply prefix_term; [apply Hld|apply H3|apply Hld|apply H3|lia|done]. }
    exists (S j). split; [lia|]. by rewrite Nat.iter_succ_r, E.
Qed.


(** ** The write path of a cluster of two *)

(** [n] leads one other voter, which has acknowledged nothing that is not
    committed; the last entry of the log [a] is not applied. *)
Record waiting n a (peer : NodeId) (t next applied : Z) : Prop := {
  wt_leading : leading n a peer t next;
  wt_next : 1 ≤ next ≤ al_last a;
  wt_term : 0 ≤ t;
  wt_voters : voters_size (n_cluster_config n) = 1;
  wt_match : Forall (λ x, x ≤ n_commit_index n) (n_peer_last_log_index n);
  wt_commit : n_commit_index n ≤ n_last_applied n;
  wt_applied : n_last_applied n = applied;
  wt_aborted : n_aborted n = false
}.

Lemma waiting_same n n' a peer t next applied :
  waiting n a peer t next applied → lead_frame n n' → n_log_storage n' = n_log_storage n →
  n_last_applied n' = n_last_applied n → same_log n n' → n_aborted n' = n_aborted n → waiting n' a peer t next applied.
Proof.
  intros [Hld H1 H2 H3 H4 H5 H6 H7] F El Ea [_ Ec] Eb. pose proof F as (_ & _ & Ev & _ & _ & _ & _ & _ & Em & _).
  destruct (ld_match _ _ _ _ _ Hld) as (x & Hx & Hxb). split; [|done|done|congruence|by rewrite Em, Ec|congruence..].
  apply (leading_frame n _ a peer t next next x Hld F); [rewrite El; apply Hld|rewrite Ea; apply Hld|rewrite Ec; apply Hld|apply Hld|done|done].
Qed.

Lemma apply_idle n now :
  n_commit_index n ≤ n_last_applied n →
  let n' := (ApplyCommittedLogsLocked n now).1 in
  lead_frame n n' ∧ n_log_storage n' = n_log_storage n ∧ n_last_applied n' = n_last_applied n ∧ same_log n n' ∧
  n_aborted n' = n_aborted n.
Proof.
  intros Hle. destruct (n_state_machine n) as [sm|] eqn:Hsm; [destruct (n_log_storage n) as [l|] eqn:Hl|].
  - rewrite (apply_none n sm l now Hl Hsm Hle). unfold lead_frame, same_log. split_and!; (reflexivity || exact Hl).
  - unfold ApplyCommittedLogsLocked. rewrite Hsm, Hl. unfold lead_frame, same_log. split_and!; (reflexivity || exact Hl).
  - unfold ApplyCommittedLogsLocked. rewrite Hsm. unfold lead_frame, same_log. split_and!; reflexivity.
Qed.

Lemma AdvanceCommit_waiting n a peer t next applied : waiting n a peer t next applied → AdvanceCommitIndexLocked n = n.
Proof.
  intros [Hld H1 _ Hv Hm _ _ _]. destruct (ld_log _ _ _ _ _ Hld) as (l & Hl & Hr). destruct (ld_match _ _ _ _ _ Hld) as (x & Hx & Hxb).
  unfold AdvanceCommitIndexLocked. rewrite Hl, (ld_stable _ _ _ _ _ Hld), Hv, Hx, (rep_LastIndex l a Hr). 
  assert (x ≤ n_commit_index n) by (rewrite Hx in Hm; by inversion Hm).
  assert (majority_index [al_last a; x] (1 + 1) = Some x) as ->.
  { unfold majority_index, sort_desc. change ((1 + 1) / 2 + 1 - 1) with 1.
    unfold merge_sort. cbn. rewrite decide_True by lia. done. }
  unfold commit_candidate. by rewrite (proj2 (Z.ltb_ge _ _)) by lia.
Qed.

(** One call of [ReplicateLog(true)]: nothing is sent. *)
Lemma ReplicateLog_waiting n a peer t next applied now send ss :
  waiting n a peer t next applied → waiting (ReplicateLog n now true send ss).1 a peer t next applied.
Proof.
  intros Hw. pose proof Hw as [Hld Hn Ht Hv Hm Hc Ha Hb].
  destruct (Replicate_begin_one n a peer t next Hld Hn) as (rd & r & Eb & Et & _ & Eq & _).
  assert (rd_majority rd = 1) as Emj.
  { revert Eb. unfold Replicate_begin. destruct (n_log_storage n); [|done]. case_match; [done|]. intros Eb. apply (f_equal snd) in Eb.
    injection Eb as Eb. rewrite <-Eb. by rewrite Hv. }
  unfold ReplicateLog. cbn [Replicate_rounds]. rewrite Eb, Eq, bool_decide_false by done.
  set (n1 := n <| n_last_peer_ids := [peer] |>) in *.
  assert (waiting n1 a peer t next applied) as Hw1.
  { apply (waiting_same n); [done|unfold lead_frame, same_log; split_and!; reflexivity|reflexivity|reflexivity|split; reflexivity|reflexivity]. }
  cbn [Replicate_send]. rewrite Emj. change (1 <=? 1) with true. rewrite (ld_transport _ _ _ _ _ (wt_leading _ _ _ _ _ _ Hw1)). cbn [negb andb orb map].
  unfold Replicate_finish. rewrite Eq, Et. cbn [map fold_left zip zip_with]. change (pp_term skipped) with 0. rewrite Z.max_l by done.
  rewrite (ld_term _ _ _ _ _ (wt_leading _ _ _ _ _ _ Hw1)), Z.ltb_irrefl, Z.eqb_refl, bool_decide_true by apply (wt_leading _ _ _ _ _ _ Hw1).
  cbn [negb orb]. change (process_rsp (n1, false) (r, skipped)) with (n1, false). cbv iota.
  rewrite (AdvanceCommit_waiting n1 a peer t next applied Hw1), (MaybeAutoFinalize_stable n1) by apply (wt_leading _ _ _ _ _ _ Hw1).
  destruct (apply_idle n1 now (wt_commit _ _ _ _ _ _ Hw1)) as (A1 & A2 & A3 & A4 & A5).
  destruct (ApplyCommittedLogsLocked n1 now) as [n2 result]. cbn [andb fst] in *. by apply (waiting_same n1).
Qed.

Lemma coordinator_waiting rounds : ∀ n a peer t next applied now send ss idx acc,
  waiting n a peer t next applied → applied < idx → acc < idx →
  let '(n', x) := coordinator_rounds rounds n now send ss [idx] acc in waiting n' a peer t next applied ∧ x < idx.
Proof.
  induction rounds as [|rounds IH]; intros n a peer t next applied now send ss idx acc Hw Hi Hacc; [done|]. cbn [coordinator_rounds].
  pose proof (ReplicateLog_waiting n a peer t next applied now send ss Hw) as Hw1.
  destruct (ReplicateLog n now true send ss) as [n1 r1]. cbn [fst] in Hw1.
  destruct (apply_idle n1 now (wt_commit _ _ _ _ _ _ Hw1)) as (A1 & A2 & A3 & A4 & A5).
  destruct (ApplyCommittedLogsLocked n1 now) as [n2 r2]. cbn [fst] in *.
  assert (waiting n2 a peer t next applied) as Hw2 by (by apply (waiting_same n1)).
  rewrite (wt_aborted _ _ _ _ _ _ Hw2), (wt_applied _ _ _ _ _ _ Hw2). cbn [fold_left].
  rewrite (proj2 (Z.leb_gt _ _)) by lia. by apply IH.
Qed.

(** In a cluster of two nodes the write path never reaches the other node:
    [ReplicateLog(true)] counts the leader itself and asks for
    [voters.size() / 2 + 1 = 1] successes, where [voters] does not contain the
    leader, so it sends nothing, whatever the other node would answer; the commit
    rule wants both.  Unless a heartbeat replicates meanwhile, the sixteen rounds
    of [CoordinatorCommit] end without a commit: the client is told ERROR, and the
    entry stays in the log. *)
Theorem two_node_write_fails n a peer t next now send ss entry :
  leading n a peer t next → 1 ≤ next ≤ al_last a + 1 → 0 ≤ t → voters_size (n_cluster_config n) = 1 →
  Forall (λ x, x ≤ n_commit_index n) (n_peer_last_log_index n) → n_commit_index n ≤ n_last_applied n →
  n_last_applied n ≤ al_last a → n_aborted n = false → is_config entry = false →
  al_last a + 1 + kMaxAppendBatch < U64_MAX →
  let '(n', r) := SubmitEntry n now send ss entry in
  r = mkApplyResult ERROR 0 ∧
  ∃ l, n_log_storage n' = Some l ∧ log_rep l (al_append a (entry <| le_term := t |> <| le_index := 0 |>)).
Proof.
  intros Hld Hn Ht Hv Hm Hc Hla Hab Hcf Hroom. destruct (ld_log _ _ _ _ _ Hld) as (l & Hl & Hr).
  unfold SubmitEntry, SubmitEntry_append. rewrite Hl, bool_decide_true by apply Hld. cbn [negb]. cbv zeta.
  rewrite (ld_term _ _ _ _ _ Hld). set (e := entry <| le_term := t |> <| le_index := 0 |>).
  unfold kMaxAppendBatch in Hroom. destruct (rep_Append l a e false Hr ltac:(lia)) as [Hr1 _].
  rewrite (rep_LastIndex _ _ Hr1), al_last_append. set (a1 := al_append a e) in *.
  unfold CoordinatorCommit. cbv zeta.
  set (n1 := (n <| n_log_storage := Some (Append l e false).1 |>) <| n_log_storage ::= fmap Persist |>).
  assert (waiting n1 a1 peer t next (n_last_applied n)) as Hw.
  { split; try (exact Hm || exact Hc || exact Hab || exact Hv || exact Ht || reflexivity).
    - destruct Hld as [H1 H2 H3 H4 H5 H6 H7 H8 H9 H10 H11 (x & Hx & Hxb) H13 H14 H15 H16].
      split; try assumption; unfold a1; rewrite ?al_last_append; [|cbn; apply Forall_app; by split; [|constructor]| |unfold n1; cbn; lia|unfold kMaxAppendBatch; lia].
      + eexists. split; [reflexivity|]. by apply rep_Persist.
      + exists x. split; [done|lia].
    - unfold a1. rewrite al_last_append. lia. }
  pose proof (coordinator_waiting 16 n1 a1 peer t next (n_last_applied n) now send ss (al_last a + 1) 0 Hw ltac:(lia)) as H.
  assert (0 < al_last a + 1) as Hpos by lia. specialize (H Hpos).
  destruct (coordinator_rounds 16 n1 now send ss [al_last a + 1] 0) as [n2 x]. destruct H as [Hw2 Hx].
  cbn [map head]. rewrite (proj2 (Z.leb_gt _ _)) by lia. split; [done|]. apply (wt_leading _ _ _ _ _ _ Hw2).
Qed.
End convergence.

(** ** Examples *)

Section examples.
#[local] Existing Instance example_lib.

(** A leader of term 3, whose entries have the terms 1, 2, 3, and a follower with
    four entries of term 1, of which it shares the first. *)
Definition catch_up_ops : list log_op :=
  [OpAppend (set_entry 1 1 "k" "v") true; OpAppend (set_entry 2 2 "k" "w") true; OpAppend (set_entry 3 3 "k" "x") true].
Definition stale_ops : list log_op :=
  OpAppend (set_entry 1 1 "k" "v") true :: map (λ i, OpAppend (set_entry 1 i "z" "z") true) [2; 3; 4].

Definition ops_alog (ops : list log_op) : alog := default alog_empty (al_ops alog_empty ops).
Definition ops_log (ops : list log_op) : CommandLog := fold_left run_op ops CommandLog_new.

Lemma ops_log_rep ops : is_Some (al_ops alog_empty ops) → log_rep (ops_log ops) (ops_alog ops).
Proof. intros [a E]. unfold ops_log, ops_alog. rewrite E. apply (run_ops_rep ops _ alog_empty); [apply CommandLog_new_rep|done]. Qed.

Definition pair_leader (ops : list log_op) (next : Z) : RaftNode CommandLog KvStateMachine :=
  (example_node (KvStateMachine_new 0 2) (ops_log ops)) <| n_role := Leader |> <| n_transport := true |>
    <| n_storage ::= fun s => s <| rs_current_term := 3 |> |>
    <| n_cluster_config := mkClusterConfig 1 {[str "n2"]} ∅ |>
    <| n_peer_next_index := [next] |> <| n_peer_last_log_index := [0] |> <| n_peer_hb_ok := [true] |>.

Definition pair_follower : RaftNode CommandLog KvStateMachine :=
  example_node (KvStateMachine_new 0 2) (ops_log stale_ops).

Lemma pair_leading : leading (pair_leader catch_up_ops 3) (ops_alog catch_up_ops) (str "n2") 3 3.
Proof.
  split; try (vm_compute; reflexivity); try by_decide.
  - exists (ops_log catch_up_ops). split; [reflexivity|]. apply ops_log_rep. vm_compute. by eexists.
  - exists 0. split; [reflexivity|by_decide].
Qed.

Lemma pair_following : following pair_follower (ops_alog stale_ops) 3.
Proof.
  split; try (vm_compute; reflexivity); try by_decide.
  exists (ops_log stale_ops). split; [reflexivity|]. apply ops_log_rep. vm_compute. by eexists.
Qed.

Lemma pair_matching : matching (ops_alog catch_up_ops) (ops_alog stale_ops).
Proof.
  intros i H0 Hi _. assert (i = 1 ∨ i = 2 ∨ i = 3) as [-> | [-> | ->]] by (change (al_last (ops_alog catch_up_ops)) with 3 in Hi; lia);
    vm_compute; congruence.
Qed.


(** A write on the same leader, of which the follower acknowledges everything it
    is sent. *)
Definition acking (_ : NodeId) (req : AppendEntriesRequest) : AppendEntriesResponse :=
  mkAppendEntriesResponse 0 3 true (areq_prev_log_index req + zlen (areq_entries req)).

Lemma two_node_write_fails_witness :
  let n := pair_leader catch_up_ops 3 in
  (SubmitEntry n 1000 acking (λ _ _ _, true) (set_entry 0 0 "a" "b")).2 = mkApplyResult ERROR 0 ∧
  log_last_index (SubmitEntry n 1000 acking (λ _ _ _, true) (set_entry 0 0 "a" "b")).1 = 4.
Proof.
  intros n. split; [|vm_compute; reflexivity].
  pose proof (two_node_write_fails n (ops_alog catch_up_ops) (str "n2") 3 3 1000 acking (λ _ _ _, true) (set_entry 0 0 "a" "b") pair_leading) as H.
  destruct (SubmitEntry _ _ _ _ _) as [n' r]. apply H; (by_decide || (vm_compute; reflexivity)).
Defined.

(** ** An acknowledged write that is lost *)

(** The leader of term 3 takes a write; before the coordinator of the batch runs,
    the leader of term 4 sends its own entry for the same index, committed. *)
Definition new_leader_request : AppendEntriesRequest :=
  mkAppendEntriesRequest 0 4 (str "n2") 3 3 [set_entry 4 4 "a" "theirs"] 4.

End examples.
