(* ===== verification/Transport.v ===== *)
(** * Transports (src/server/raft/local_transport.cc, tcp_transport.cc, transport.h)

    How a Raft RPC reaches the node it is for.  [LocalTransport] calls the
    handler; [TcpTransport] frames the request, writes it to a pooled socket and
    reads the response, and [RaftRpcConnection] on the other side reads frames,
    dispatches them and writes the responses.

    A socket is the sequence of what its [Recv] calls will meet: data, in pieces
    of any size, or a failure (a timeout or an error; an empty piece is the end of
    the stream).  The theorem is that the two transports are the same, whatever
    the pieces, and with any number of late responses to earlier requests still
    in the connection. *)

From S2P Require Import Prelude Crc32 RaftTypes RaftCodec RpcPayload LogStorage StateMachine CommandLog KvStateMachine RaftNode Recovery Convergence.

(** ** PeerManager (src/server/raft/peer_manager.cc)

    [config_] is a pointer to the configuration of the node, which the manager
    changes in place; [None] is the null pointer. *)

Abbreviation PeerManager := (option ClusterConfig).

Definition PeerManager_AddPeer (config : PeerManager) (id : NodeId) : PeerManager :=
  (λ c, c <| cc_voters ::= union {[id]} |>) <$> config.

Definition PeerManager_HasPeer (config : PeerManager) (id : NodeId) : bool :=
  match config with Some c => bool_decide (id ∈ cc_voters c) | None => false end.

Definition PeerManager_RemovePeer (config : PeerManager) (id : NodeId) : PeerManager * bool :=
  match config with
  | None => (None, false)
  | Some c => (Some (c <| cc_voters ::= fun vs => vs ∖ {[id]} |>), bool_decide (id ∈ cc_voters c))
  end.

Definition PeerCount (config : PeerManager) : Z :=
  match config with Some c => voters_size c | None => 0 end.

Definition ClusterSize (config : PeerManager) : Z := PeerCount config + 1.

Definition GetPeerIds (config : PeerManager) : list NodeId :=
  match config with Some c => elements (cc_voters c) | None => [] end.

(** ** The node's side *)

(** What a transport calls on a node: the RPC lifetime guard and the handlers. *)
Class RpcHandlers (Node : Type) := {
  TryAcquireRpcRef : Node → bool;
  node_OnRequestVote : Node → VoteRequest → Node * VoteResponse;
  node_OnHeartbeat : Node → HeartbeatRequest → Node * HeartbeatResponse;
  node_OnAppendEntries : Node → AppendEntriesRequest → Node * AppendEntriesResponse;
  node_OnInstallSnapshot : Node → InstallSnapshotRequest → Node * InstallSnapshotResponse;
  node_OnReadIndex : Node → ReadIndexRequest → Node * ReadIndexResponse;
  node_OnTimeoutNow : Node → TimeoutNowRequest → Node * TimeoutNowResponse
}.

(** ** Sockets *)

Inductive RecvEvent : Type :=
  | Data (bs : bytes)
  | Failure.

(** [Recv] into a buffer of [n] bytes; [None] is an error. *)
Definition Recv (evs : list RecvEvent) (n : nat) : option bytes * list RecvEvent :=
  match evs with
  | Data bs :: rest => if (length bs <=? n)%nat then (Some bs, rest) else (Some (take n bs), Data (drop n bs) :: rest)
  | Failure :: rest => (None, rest)
  | [] => (None, [])
  end.

Fixpoint ReadN_loop (fuel n : nat) (evs : list RecvEvent) (out : bytes) : bytes * list RecvEvent :=
  match fuel with
  | O => (out, evs)
  | S fuel' =>
      if (length out <? n)%nat then
        match Recv evs (n - length out) with
        | (Some (b :: bs), evs) => ReadN_loop fuel' n evs (out ++ b :: bs)
        | (_, evs) => (out, evs)
        end
      else (out, evs)
  end.

(** Every turn of the loop reads a byte or stops, so that [n + 1] turns are
    enough. *)
Definition ReadN (evs : list RecvEvent) (n : Z) : bytes * list RecvEvent :=
  ReadN_loop (S (Z.to_nat n)) (Z.to_nat n) evs [].

Definition kMaxFramePayload : Z := 256 * 1024 * 1024.

(** [len_chunk]. *)
Definition payload_length (header : bytes) : Z := u32_chunk (substr header 9 4).

(** An upper bound for the number of frames in the input. *)
Definition input_size (evs : list RecvEvent) : nat :=
  sum_list_with (λ e, match e with Data bs => length bs | Failure => 0%nat end) evs.

(** *** What arrives before the next failure *)

Fixpoint avail (evs : list RecvEvent) : bytes :=
  match evs with
  | Data (b :: bs) :: rest => (b :: bs) ++ avail rest
  | _ => []
  end.

Lemma avail_input_size evs : (length (avail evs) ≤ input_size evs)%nat.
Proof.
  induction evs as [|[[|b bs]|] evs IH]; simpl; [lia|lia| |lia]. unfold input_size in *. simpl. rewrite length_app. lia.
Qed.

Lemma ReadN_loop_full n : ∀ fuel evs out,
  (n - length out < fuel)%nat → (length out ≤ n)%nat → (n ≤ length out + length (avail evs))%nat →
  ∃ evs', ReadN_loop fuel n evs out = (take n (out ++ avail evs), evs') ∧ avail evs' = drop (n - length out) (avail evs).
Proof.
  induction fuel as [|fuel IH]; intros evs out Hf Ho Ha; [lia|]. cbn [ReadN_loop].
  destruct (Nat.ltb_spec (length out) n) as [Hlt|Hge].
  - destruct evs as [|[[|b bs]|] evs]; cbn [avail length] in Ha; [lia|lia| |lia]. cbn [Recv].
    rewrite length_app in Ha. destruct (Nat.leb_spec (length (b :: bs)) (n - length out)) as [Hl|Hl].
    + destruct (IH evs (out ++ b :: bs)) as (evs' & E & Ea); rewrite ?length_app; [simpl in *; lia|lia|lia|].
      exists evs'. rewrite E, Ea. cbn [avail]. split; [by rewrite <-app_assoc|].
      rewrite drop_app_ge by lia. f_equal. rewrite length_app. lia.
    + remember (n - length out)%nat as k eqn:Hk. destruct k as [|k]; [lia|]. cbn [take].
      simpl in Hl. destruct fuel as [|fuel]; [lia|]. cbn [ReadN_loop].
      assert (length (out ++ b :: take k bs) = n) as Hlen by (rewrite length_app; simpl; rewrite length_take; lia).
      destruct (Nat.ltb_spec (length (out ++ b :: take k bs)) n); [lia|]. eexists. split.
      * f_equal. rewrite take_app_ge by lia. f_equal. rewrite <-Hk. cbn [avail app take]. f_equal.
        rewrite take_app_le by lia. done.
      * cbn [avail drop app]. rewrite drop_app_le by lia. destruct (drop k bs) eqn:Ed; [|done].
        apply (f_equal length) in Ed. rewrite length_drop in Ed. simpl in Ed. lia.
  - assert (n = length out) as -> by lia. exists evs. rewrite take_app_length, Nat.sub_diag. done.
Qed.

Lemma ReadN_full evs n :
  0 ≤ n ≤ zlen (avail evs) →
  ∃ evs', ReadN evs n = (take (Z.to_nat n) (avail evs), evs') ∧ avail evs' = drop (Z.to_nat n) (avail evs).
Proof.
  intros Hn. unfold zlen in Hn. destruct (ReadN_loop_full (Z.to_nat n) (S (Z.to_nat n)) evs []) as (evs' & E & Ea); simpl; [lia..|].
  exists evs'. unfold ReadN. rewrite E, Ea. simpl. by rewrite Nat.sub_0_r.
Qed.

Lemma ReadN_loop_short n : ∀ fuel evs out,
  (length out + length (avail evs) < n)%nat → (length (avail evs) < fuel)%nat →
  (ReadN_loop fuel n evs out).1 = out ++ avail evs.
Proof.
  induction fuel as [|fuel IH]; intros evs out Ha Hf; [lia|]. cbn [ReadN_loop].
  destruct (Nat.ltb_spec (length out) n); [|lia].
  destruct evs as [|[[|b bs]|] evs]; cbn [avail Recv] in *; rewrite ?app_nil_r; [done| |rewrite length_app in *|done].
  - by destruct (_ <=? _)%nat; rewrite ?take_nil.
  - destruct (Nat.leb_spec (length (b :: bs)) (n - length out)) as [Hl|Hl]; [|simpl in *; lia].
    rewrite IH; [by rewrite <-app_assoc|rewrite length_app; simpl in *; lia|simpl in *; lia].
Qed.

Lemma ReadN_short evs n : zlen (avail evs) < n → (ReadN evs n).1 = avail evs.
Proof. intros Hn. unfold zlen in Hn. unfold ReadN. rewrite ReadN_loop_short; [done|simpl; lia..]. Qed.

(** Reading exactly the next piece of the stream. *)
Lemma ReadN_piece evs (p rest : bytes) :
  avail evs = p ++ rest → ∃ evs', ReadN evs (zlen p) = (p, evs') ∧ avail evs' = rest.
Proof.
  intros E. destruct (ReadN_full evs (zlen p)) as (evs' & E1 & E2).
  { rewrite E, zlen_app. pose proof (zlen_nonneg p). pose proof (zlen_nonneg rest). lia. }
  exists evs'. unfold zlen in *. rewrite Nat2Z.id, E in *. by rewrite take_app_length in E1; rewrite drop_app_length in E2.
Qed.

(** ** LocalTransport *)

Section transports.
Context {Node : Type} `{!RpcHandlers Node}.

Abbreviation Registry := (gmap (Z * NodeId) Node).

Definition RegisterNode (nodes : Registry) (group_id : Z) (id : NodeId) (node : Node) : Registry :=
  <[(group_id, id) := node]> nodes.

Definition UnregisterNode (nodes : Registry) (group_id : Z) (node_id : NodeId) : Registry :=
  delete (group_id, node_id) nodes.

Definition HasNode (nodes : Registry) (group_id : Z) (id : NodeId) : bool :=
  bool_decide (is_Some (nodes !! (group_id, id))).

Definition LookupAcquire (nodes : Registry) (group_id : Z) (node_id : NodeId) : option Node :=
  match nodes !! (group_id, node_id) with
  | Some node => if TryAcquireRpcRef node then Some node else None
  | None => None
  end.

(** The node mutates itself in its handler: the registry refers to what it is
    afterwards. *)
Definition LocalSendVoteRequest (nodes : Registry) (peer_id : NodeId) (request : VoteRequest) : Registry * VoteResponse :=
  match LookupAcquire nodes (vreq_group_id request) peer_id with
  | None => (nodes, mkVoteResponse (vreq_group_id request) 0 false)
  | Some node => let '(node, rsp) := node_OnRequestVote node request in (<[(vreq_group_id request, peer_id) := node]> nodes, rsp)
  end.

Definition LocalSendHeartbeat (nodes : Registry) (peer_id : NodeId) (request : HeartbeatRequest) : Registry * HeartbeatResponse :=
  match LookupAcquire nodes (hreq_group_id request) peer_id with
  | None => (nodes, mkHeartbeatResponse (hreq_group_id request) 0 false 0)
  | Some node => let '(node, rsp) := node_OnHeartbeat node request in (<[(hreq_group_id request, peer_id) := node]> nodes, rsp)
  end.

Definition LocalSendAppendEntries (nodes : Registry) (peer_id : NodeId) (request : AppendEntriesRequest) : Registry * AppendEntriesResponse :=
  match LookupAcquire nodes (areq_group_id request) peer_id with
  | None => (nodes, mkAppendEntriesResponse (areq_group_id request) 0 false 0)
  | Some node => let '(node, rsp) := node_OnAppendEntries node request in (<[(areq_group_id request, peer_id) := node]> nodes, rsp)
  end.

Definition LocalSendInstallSnapshot (nodes : Registry) (peer_id : NodeId) (request : InstallSnapshotRequest) : Registry * InstallSnapshotResponse :=
  match LookupAcquire nodes (sreq_group_id request) peer_id with
  | None => (nodes, mkInstallSnapshotResponse (sreq_group_id request) 0 false)
  | Some node => let '(node, rsp) := node_OnInstallSnapshot node request in (<[(sreq_group_id request, peer_id) := node]> nodes, rsp)
  end.

Definition LocalSendReadIndex (nodes : Registry) (peer_id : NodeId) (request : ReadIndexRequest) : Registry * ReadIndexResponse :=
  match LookupAcquire nodes (rreq_group_id request) peer_id with
  | None => (nodes, mkReadIndexResponse (rreq_group_id request) 0 false 0)
  | Some node => let '(node, rsp) := node_OnReadIndex node request in (<[(rreq_group_id request, peer_id) := node]> nodes, rsp)
  end.

Definition LocalSendTimeoutNow (nodes : Registry) (peer_id : NodeId) (request : TimeoutNowRequest) : Registry * TimeoutNowResponse :=
  match LookupAcquire nodes (treq_group_id request) peer_id with
  | None => (nodes, mkTimeoutNowResponse (treq_group_id request) 0 false)
  | Some node => let '(node, rsp) := node_OnTimeoutNow node request in (<[(treq_group_id request, peer_id) := node]> nodes, rsp)
  end.

(** ** RaftRpcConnection *)

Context `{!RaftProto}.

(** The nodes that the resolver of the listener finds. *)
Abbreviation Nodes := (gmap Z Node).

(** [resolver_(group_id)], the guard and the handler; [rsp] is the response of a
    node that is not there. *)
Definition with_node {R : Type} (nodes : Nodes) (group_id : Z) (handler : Node → Node * R) (rsp : R) : Nodes * R :=
  match nodes !! group_id with
  | Some node =>
      if TryAcquireRpcRef node then let '(node, rsp) := handler node in (<[group_id := node]> nodes, rsp)
      else (nodes, rsp)
  | None => (nodes, rsp)
  end.

(** The [switch] of [HandleRequests]; [None] when the request is undispatchable. *)
Definition Dispatch (nodes : Nodes) (req_type : RpcType) (payload : bytes) : option (Nodes * RpcType * bytes) :=
  if req_type =? kVoteReq then
    req ← ParseVoteRequest payload;
    let '(nodes, rsp) := with_node nodes (vreq_group_id req) (λ node, node_OnRequestVote node req) (mkVoteResponse (vreq_group_id req) 0 false) in
    Some (nodes, kVoteRsp, SerializeVoteResponse rsp)
  else if req_type =? kHeartbeatReq then
    req ← ParseHeartbeatRequest payload;
    let '(nodes, rsp) := with_node nodes (hreq_group_id req) (λ node, node_OnHeartbeat node req) (mkHeartbeatResponse (hreq_group_id req) 0 false 0) in
    Some (nodes, kHeartbeatRsp, SerializeHeartbeatResponse rsp)
  else if req_type =? kAppendEntriesReq then
    req ← ParseAppendEntriesRequest payload;
    let '(nodes, rsp) := with_node nodes (areq_group_id req) (λ node, node_OnAppendEntries node req) (mkAppendEntriesResponse (areq_group_id req) 0 false 0) in
    Some (nodes, kAppendEntriesRsp, SerializeAppendEntriesResponse rsp)
  else if req_type =? kInstallSnapshotReq then
    req ← ParseInstallSnapshotRequest payload;
    let '(nodes, rsp) := with_node nodes (sreq_group_id req) (λ node, node_OnInstallSnapshot node req) (mkInstallSnapshotResponse (sreq_group_id req) 0 false) in
    Some (nodes, kInstallSnapshotRsp, SerializeInstallSnapshotResponse rsp)
  else if req_type =? kReadIndexReq then
    req ← ParseReadIndexRequest payload;
    let '(nodes, rsp) := with_node nodes (rreq_group_id req) (λ node, node_OnReadIndex node req) (mkReadIndexResponse (rreq_group_id req) 0 false 0) in
    Some (nodes, kReadIndexRsp, SerializeReadIndexResponse rsp)
  else if req_type =? kTimeoutNowReq then
    req ← ParseTimeoutNowRequest payload;
    let '(nodes, rsp) := with_node nodes (treq_group_id req) (λ node, node_OnTimeoutNow node req) (mkTimeoutNowResponse (treq_group_id req) 0 false) in
    Some (nodes, kTimeoutNowRsp, SerializeTimeoutNowResponse rsp)
  else None.

(** One turn of [HandleRequests]: the frame it writes, or [None] when it drops
    the connection. *)
Definition HandleRequest (evs : list RecvEvent) (nodes : Nodes) : option (list RecvEvent * Nodes * bytes) :=
  let '(header, evs) := ReadN evs kRpcFrameHeaderSize in
  if zlen header <? kRpcFrameHeaderSize then None
  else
    let payload_len := payload_length header in
    if kMaxFramePayload <? payload_len then None
    else
      let '(payload, evs) := ReadN evs payload_len in
      if negb (zlen payload =? payload_len) then None
      else
        let '(crc_bytes, evs) := ReadN evs kRpcFrameCrcSize in
        if negb (zlen crc_bytes =? kRpcFrameCrcSize) then None
        else
          '(req_type, req_seq, payload_view) ← ParseRpcFrame (header ++ payload ++ crc_bytes);
          '(nodes, rsp_type, rsp_payload) ← Dispatch nodes req_type payload_view;
          Some (evs, nodes, EncodeRpcFrame rsp_type req_seq rsp_payload).

(** [write_ok i] is whether the write of the [i]-th response succeeds. *)
Fixpoint HandleRequests_loop (fuel : nat) (write_ok : nat → bool) (evs : list RecvEvent) (nodes : Nodes)
    (written : list bytes) : Nodes * list bytes :=
  match fuel with
  | O => (nodes, written)
  | S fuel' =>
      match HandleRequest evs nodes with
      | None => (nodes, written)
      | Some (evs, nodes, rsp_frame) =>
          if write_ok (length written) then HandleRequests_loop fuel' write_ok evs nodes (written ++ [rsp_frame])
          else (nodes, written)
      end
  end.

(** The connection until it is closed: the nodes, and the frames it wrote.  Every
    turn that does not end the loop consumes a frame. *)
Definition HandleRequests (write_ok : nat → bool) (evs : list RecvEvent) (nodes : Nodes) : Nodes * list bytes :=
  HandleRequests_loop (S (input_size evs)) write_ok evs nodes [].

(** ** TcpTransport *)

Record Socket : Type := mkSocket {
  sk_open : bool;
  sk_in : list RecvEvent;
  sk_out : bytes;
  sk_timeout : Z
}.
#[export] Instance Socket_eta : Eta Socket := fun s => mkSocket (sk_open s) (sk_in s) (sk_out s) (sk_timeout s).

(** [ThreadConns]; a peer without a socket has [None]. *)
Record ThreadConns : Type := mkThreadConns {
  tc_conns : gmap NodeId (option Socket);
  tc_seq_counter : Z;
  tc_retired : list Socket
}.
#[export] Instance ThreadConns_eta : Eta ThreadConns := fun c =>
  mkThreadConns (tc_conns c) (tc_seq_counter c) (tc_retired c).

Record TcpTransport : Type := mkTcpTransport {
  tt_peers : gmap NodeId (bytes * Z);
  tt_rpc_timeout_ms : Z;
  tt_heartbeat_timeout_ms : Z;
  tt_vote_timeout_ms : Z;
  tt_append_timeout_ms : Z
}.
#[export] Instance TcpTransport_eta : Eta TcpTransport := fun t =>
  mkTcpTransport (tt_peers t) (tt_rpc_timeout_ms t) (tt_heartbeat_timeout_ms t) (tt_vote_timeout_ms t) (tt_append_timeout_ms t).

Definition TcpTransport_new : TcpTransport := mkTcpTransport ∅ 1000 150 250 200.

Definition SetPeerEndpoint (t : TcpTransport) (peer_id : NodeId) (peer : bytes * Z) : TcpTransport :=
  t <| tt_peers ::= <[peer_id := peer]> |>.

Definition RemovePeerEndpoint (t : TcpTransport) (peer_id : NodeId) : TcpTransport :=
  t <| tt_peers ::= delete peer_id |>.

Definition kSnapshotRpcTimeoutMs : Z := 30000.

(** What a call meets: whether it runs on a proactor, the socket a connect gives
    ([None] when it fails), whether the write fails, and what arrives on the
    socket after a frame has been written. *)
Record Network : Type := mkNetwork {
  net_proactor : bool;
  net_connect : bytes * Z → option (list RecvEvent);
  net_write_error : bool;
  net_arrivals : bytes → list RecvEvent
}.

(** [retire]: close the socket and park it. *)
Definition retire (conns : ThreadConns) (peer_id : NodeId) (sock : Socket) : ThreadConns :=
  conns <| tc_retired ::= fun r => r ++ [sock <| sk_open := false |>] |> <| tc_conns ::= <[peer_id := None]> |>.

(** The socket of the peer, connected if it has to be. *)
Definition get_socket (conns : ThreadConns) (net : Network) (peer_id : NodeId) (peer : bytes * Z) (timeout_ms : Z)
    : ThreadConns * option Socket :=
  let pooled := default None (tc_conns conns !! peer_id) in
  if match pooled with Some sock => sk_open sock | None => false end then
    (conns, (λ sock, sock <| sk_timeout := timeout_ms |>) <$> pooled)
  else
    let conns := match pooled with Some sock => retire conns peer_id sock | None => conns end in
    match net_connect net peer with
    | None => (retire conns peer_id (mkSocket true [] [] timeout_ms), None)
    | Some evs => (conns, Some (mkSocket true evs [] timeout_ms))
    end.

(** What the loop over the response frames ends with. *)
Inductive ReadResponse : Type :=
  | Kept
  | Retired
  | Received (payload : bytes).

Fixpoint read_response (fuel : nat) (evs : list RecvEvent) (seq : Z) (expected_rsp_type : RpcType)
    : list RecvEvent * ReadResponse :=
  match fuel with
  | O => (evs, Kept)
  | S fuel' =>
      let '(header, evs) := ReadN evs kRpcFrameHeaderSize in
      let got := zlen header in
      if got <? kRpcFrameHeaderSize then (evs, if got =? 0 then Kept else Retired)
      else
        let payload_len := payload_length header in
        if kMaxFramePayload <? payload_len then (evs, Retired)
        else
          let '(payload, evs) := ReadN evs payload_len in
          let '(crc_bytes, evs) := ReadN evs kRpcFrameCrcSize in
          if negb (zlen payload =? payload_len) || negb (zlen crc_bytes =? kRpcFrameCrcSize) then (evs, Retired)
          else
            match ParseRpcFrame (header ++ payload ++ crc_bytes) with
            | None => (evs, Retired)
            | Some (rsp_type, rsp_seq, payload_view) =>
                if negb (rsp_seq =? seq) then read_response fuel' evs seq expected_rsp_type
                else if negb (rsp_type =? expected_rsp_type) then (evs, Retired)
                else (evs, Received payload_view)
            end
  end.

(** [DoRpc]; [None] is [false]. *)
Definition DoRpc (t : TcpTransport) (conns : ThreadConns) (net : Network) (peer_id : NodeId) (req_type : RpcType)
    (req_payload : bytes) (expected_rsp_type : RpcType) (timeout_ms : Z) : ThreadConns * option bytes :=
  match tt_peers t !! peer_id with
  | None => (conns, None)
  | Some peer =>
      if negb (net_proactor net) then (conns, None)
      else
        match get_socket conns net peer_id peer timeout_ms with
        | (conns, None) => (conns, None)
        | (conns, Some sock) =>
            let seq := u32 (tc_seq_counter conns + 1) in
            let conns := conns <| tc_seq_counter := seq |> in
            let frame := EncodeRpcFrame req_type seq req_payload in
            if net_write_error net then (retire conns peer_id sock, None)
            else
              let sock := sock <| sk_out ::= fun o => o ++ frame |> <| sk_in ::= fun i => i ++ net_arrivals net frame |> in
              let '(evs, r) := read_response (S (input_size (sk_in sock))) (sk_in sock) seq expected_rsp_type in
              let sock := sock <| sk_in := evs |> in
              match r with
              | Kept => (conns <| tc_conns ::= <[peer_id := Some sock]> |>, None)
              | Retired => (retire conns peer_id sock, None)
              | Received payload => (conns <| tc_conns ::= <[peer_id := Some sock]> |>, Some payload)
              end
        end
  end.

Definition SendVoteRequest (t : TcpTransport) (conns : ThreadConns) (net : Network) (peer_id : NodeId) (request : VoteRequest)
    : ThreadConns * VoteResponse :=
  let rsp := mkVoteResponse (vreq_group_id request) 0 false in
  match DoRpc t conns net peer_id kVoteReq (SerializeVoteRequest request) kVoteRsp (tt_vote_timeout_ms t) with
  | (conns, None) => (conns, rsp)
  | (conns, Some rsp_payload) => (conns, default rsp (ParseVoteResponse rsp_payload))
  end.

Definition SendHeartbeat (t : TcpTransport) (conns : ThreadConns) (net : Network) (peer_id : NodeId) (request : HeartbeatRequest)
    : ThreadConns * HeartbeatResponse :=
  let rsp := mkHeartbeatResponse (hreq_group_id request) 0 false 0 in
  match DoRpc t conns net peer_id kHeartbeatReq (SerializeHeartbeatRequest request) kHeartbeatRsp (tt_heartbeat_timeout_ms t) with
  | (conns, None) => (conns, rsp)
  | (conns, Some rsp_payload) => (conns, default rsp (ParseHeartbeatResponse rsp_payload))
  end.

Definition SendAppendEntries (t : TcpTransport) (conns : ThreadConns) (net : Network) (peer_id : NodeId) (request : AppendEntriesRequest)
    : ThreadConns * AppendEntriesResponse :=
  let rsp := mkAppendEntriesResponse (areq_group_id request) 0 false 0 in
  match DoRpc t conns net peer_id kAppendEntriesReq (SerializeAppendEntriesRequest request) kAppendEntriesRsp (tt_append_timeout_ms t) with
  | (conns, None) => (conns, rsp)
  | (conns, Some rsp_payload) => (conns, default rsp (ParseAppendEntriesResponse rsp_payload))
  end.

Definition SendInstallSnapshot (t : TcpTransport) (conns : ThreadConns) (net : Network) (peer_id : NodeId) (request : InstallSnapshotRequest)
    : ThreadConns * InstallSnapshotResponse :=
  let rsp := mkInstallSnapshotResponse (sreq_group_id request) 0 false in
  match DoRpc t conns net peer_id kInstallSnapshotReq (SerializeInstallSnapshotRequest request) kInstallSnapshotRsp kSnapshotRpcTimeoutMs with
  | (conns, None) => (conns, rsp)
  | (conns, Some rsp_payload) => (conns, default rsp (ParseInstallSnapshotResponse rsp_payload))
  end.

Definition SendReadIndex (t : TcpTransport) (conns : ThreadConns) (net : Network) (peer_id : NodeId) (request : ReadIndexRequest)
    : ThreadConns * ReadIndexResponse :=
  let rsp := mkReadIndexResponse (rreq_group_id request) 0 false 0 in
  match DoRpc t conns net peer_id kReadIndexReq (SerializeReadIndexRequest request) kReadIndexRsp (tt_rpc_timeout_ms t) with
  | (conns, None) => (conns, rsp)
  | (conns, Some rsp_payload) => (conns, default rsp (ParseReadIndexResponse rsp_payload))
  end.

Definition SendTimeoutNow (t : TcpTransport) (conns : ThreadConns) (net : Network) (peer_id : NodeId) (request : TimeoutNowRequest)
    : ThreadConns * TimeoutNowResponse :=
  let rsp := mkTimeoutNowResponse (treq_group_id request) 0 false in
  match DoRpc t conns net peer_id kTimeoutNowReq (SerializeTimeoutNowRequest request) kTimeoutNowRsp (tt_rpc_timeout_ms t) with
  | (conns, None) => (conns, rsp)
  | (conns, Some rsp_payload) => (conns, default rsp (ParseTimeoutNowResponse rsp_payload))
  end.

(** ** The two as one operation on messages *)

(** The request [m] through [LocalTransport]; [None] when [m] is no request. *)
Definition LocalSend (nodes : Registry) (peer_id : NodeId) (m : RpcMessage) : option (Registry * RpcMessage) :=
  match m with
  | MVoteRequest r => let '(nodes, rsp) := LocalSendVoteRequest nodes peer_id r in Some (nodes, MVoteResponse rsp)
  | MHeartbeatRequest r => let '(nodes, rsp) := LocalSendHeartbeat nodes peer_id r in Some (nodes, MHeartbeatResponse rsp)
  | MAppendEntriesRequest r => let '(nodes, rsp) := LocalSendAppendEntries nodes peer_id r in Some (nodes, MAppendEntriesResponse rsp)
  | MInstallSnapshotRequest r => let '(nodes, rsp) := LocalSendInstallSnapshot nodes peer_id r in Some (nodes, MInstallSnapshotResponse rsp)
  | MReadIndexRequest r => let '(nodes, rsp) := LocalSendReadIndex nodes peer_id r in Some (nodes, MReadIndexResponse rsp)
  | MTimeoutNowRequest r => let '(nodes, rsp) := LocalSendTimeoutNow nodes peer_id r in Some (nodes, MTimeoutNowResponse rsp)
  | _ => None
  end.

(** The request [m] through [TcpTransport]. *)
Definition TcpSend (t : TcpTransport) (conns : ThreadConns) (net : Network) (peer_id : NodeId) (m : RpcMessage)
    : option (ThreadConns * RpcMessage) :=
  match m with
  | MVoteRequest r => let '(conns, rsp) := SendVoteRequest t conns net peer_id r in Some (conns, MVoteResponse rsp)
  | MHeartbeatRequest r => let '(conns, rsp) := SendHeartbeat t conns net peer_id r in Some (conns, MHeartbeatResponse rsp)
  | MAppendEntriesRequest r => let '(conns, rsp) := SendAppendEntries t conns net peer_id r in Some (conns, MAppendEntriesResponse rsp)
  | MInstallSnapshotRequest r => let '(conns, rsp) := SendInstallSnapshot t conns net peer_id r in Some (conns, MInstallSnapshotResponse rsp)
  | MReadIndexRequest r => let '(conns, rsp) := SendReadIndex t conns net peer_id r in Some (conns, MReadIndexResponse rsp)
  | MTimeoutNowRequest r => let '(conns, rsp) := SendTimeoutNow t conns net peer_id r in Some (conns, MTimeoutNowResponse rsp)
  | _ => None
  end.

(** The response to [m] when there is no answer. *)
Definition no_answer (m : RpcMessage) : option RpcMessage :=
  match m with
  | MVoteRequest r => Some (MVoteResponse (mkVoteResponse (vreq_group_id r) 0 false))
  | MHeartbeatRequest r => Some (MHeartbeatResponse (mkHeartbeatResponse (hreq_group_id r) 0 false 0))
  | MAppendEntriesRequest r => Some (MAppendEntriesResponse (mkAppendEntriesResponse (areq_group_id r) 0 false 0))
  | MInstallSnapshotRequest r => Some (MInstallSnapshotResponse (mkInstallSnapshotResponse (sreq_group_id r) 0 false))
  | MReadIndexRequest r => Some (MReadIndexResponse (mkReadIndexResponse (rreq_group_id r) 0 false 0))
  | MTimeoutNowRequest r => Some (MTimeoutNowResponse (mkTimeoutNowResponse (treq_group_id r) 0 false))
  | _ => None
  end.

(** ** Frames in the stream *)

Definition frame_ok (type seq : Z) (payload : bytes) : Prop :=
  0 ≤ type < 256 ∧ 0 ≤ seq ≤ U32_MAX ∧ is_bytes payload ∧ zlen payload ≤ kMaxFramePayload.

Lemma frame_split type seq payload :
  frame_ok type seq payload →
  ∃ header crc, EncodeRpcFrame type seq payload = header ++ payload ++ crc ∧ zlen header = kRpcFrameHeaderSize ∧
    payload_length header = zlen payload ∧ zlen crc = kRpcFrameCrcSize.
Proof.
  intros (Ht & Hs & Hb & Hp). unfold kMaxFramePayload in Hp. pose proof (zlen_nonneg payload).
  rewrite EncodeRpcFrame_body by (unfold U32_MAX; lia). unfold frame_body.
  exists (kRpcFrameMagic ++ [type] ++ le_bytes 4 seq ++ le_bytes 4 (zlen payload)), (le_bytes 4 (ComputeCrc32 (frame_body type seq payload) 0)).
  split; [by rewrite <-!app_assoc|]. split; [autorewrite with dfly_simpl; done|]. split; [|autorewrite with dfly_simpl; done].
  unfold payload_length.
  rewrite (substr_at _ (kRpcFrameMagic ++ [type] ++ le_bytes 4 seq) (le_bytes 4 (zlen payload)) [] 9 4);
    [|by rewrite app_nil_r, <-!app_assoc|autorewrite with dfly_simpl; done|autorewrite with dfly_simpl; done].
  rewrite u32_chunk_le by auto with dfly. apply le_val_bytes_u32. unfold U32_MAX. lia.
Qed.

(** Both sides read the same frame off the stream. *)
Lemma read_frame evs type seq payload rest :
  frame_ok type seq payload → avail evs = EncodeRpcFrame type seq payload ++ rest →
  ∃ header crc evs1 evs2 evs3,
    ReadN evs kRpcFrameHeaderSize = (header, evs1) ∧ zlen header = kRpcFrameHeaderSize ∧ payload_length header = zlen payload ∧
    ReadN evs1 (zlen payload) = (payload, evs2) ∧ ReadN evs2 kRpcFrameCrcSize = (crc, evs3) ∧ zlen crc = kRpcFrameCrcSize ∧
    ParseRpcFrame (header ++ payload ++ crc) = Some (type, seq, payload) ∧ avail evs3 = rest.
Proof.
  intros Hok Ha. destruct (frame_split type seq payload Hok) as (header & crc & E & Eh & El & Ec). rewrite E, <-!app_assoc in Ha.
  destruct (ReadN_piece evs header _ Ha) as (evs1 & R1 & A1). destruct (ReadN_piece evs1 payload _ A1) as (evs2 & R2 & A2).
  destruct (ReadN_piece evs2 crc _ A2) as (evs3 & R3 & A3). rewrite Eh in R1. rewrite Ec in R3.
  exists header, crc, evs1, evs2, evs3. split_and!; try done. destruct Hok as (Ht & Hs & Hb & Hp). unfold kMaxFramePayload in Hp.
  rewrite <-E, <-(app_nil_r (EncodeRpcFrame _ _ _)). apply ParseRpcFrame_roundtrip; [done..|unfold U32_MAX; lia].
Qed.

Lemma HandleRequest_frame evs nodes type seq payload rest :
  frame_ok type seq payload → avail evs = EncodeRpcFrame type seq payload ++ rest →
  ∃ evs', avail evs' = rest ∧
    HandleRequest evs nodes =
      ('(nodes, rsp_type, rsp_payload) ← Dispatch nodes type payload; Some (evs', nodes, EncodeRpcFrame rsp_type seq rsp_payload)).
Proof.
  intros Hok Ha. destruct (read_frame evs type seq payload rest Hok Ha) as (h & c & e1 & e2 & e3 & R1 & Lh & Lp & R2 & R3 & Lc & P & A).
  exists e3. split; [done|]. unfold HandleRequest. rewrite R1, Lh, Z.ltb_irrefl, Lp.
  destruct Hok as (_ & _ & _ & Hp). rewrite (proj2 (Z.ltb_ge _ _) Hp), R2, Z.eqb_refl. cbn [negb]. rewrite R3, Lc, Z.eqb_refl. cbn [negb].
  rewrite P. cbn [mbind option_bind]. done.
Qed.

Lemma HandleRequest_end evs nodes : avail evs = [] → HandleRequest evs nodes = None.
Proof.
  intros Ha. unfold HandleRequest. pose proof (ReadN_short evs kRpcFrameHeaderSize) as E. rewrite Ha in E. specialize (E ltac:(done)).
  destruct (ReadN evs kRpcFrameHeaderSize) as [h e]. simpl in E. by subst.
Qed.

Lemma read_response_frame fuel evs seq expected type seq' payload rest :
  frame_ok type seq' payload → avail evs = EncodeRpcFrame type seq' payload ++ rest →
  ∃ evs', avail evs' = rest ∧
    read_response (S fuel) evs seq expected =
      if seq' =? seq then (evs', if type =? expected then Received payload else Retired)
      else read_response fuel evs' seq expected.
Proof.
  intros Hok Ha. destruct (read_frame evs type seq' payload rest Hok Ha) as (h & c & e1 & e2 & e3 & R1 & Lh & Lp & R2 & R3 & Lc & P & A).
  exists e3. split; [done|]. cbn [read_response]. rewrite R1, Lh, Z.ltb_irrefl, Lp.
  destruct Hok as (_ & _ & _ & Hp). rewrite (proj2 (Z.ltb_ge _ _) Hp), R2, R3, !Z.eqb_refl, Lc, Z.eqb_refl. cbn [negb orb]. rewrite P.
  destruct (seq' =? seq); cbn [negb]; [|done]. by destruct (type =? expected).
Qed.

(** A late response: type, sequence number and payload. *)
Definition late_frames (late : list (Z * Z * bytes)) : bytes :=
  concat (map (λ '(type, seq, payload), EncodeRpcFrame type seq payload) late).

Definition late_ok (seq : Z) (late : list (Z * Z * bytes)) : Prop :=
  Forall (λ '(type, seq', payload), frame_ok type seq' payload ∧ seq' ≠ seq) late.

(** Late responses are skipped, whatever they are. *)
Lemma read_response_late late : ∀ fuel evs seq expected payload rest,
  late_ok seq late → frame_ok expected seq payload →
  avail evs = late_frames late ++ EncodeRpcFrame expected seq payload ++ rest → (length late < fuel)%nat →
  ∃ evs', avail evs' = rest ∧ read_response fuel evs seq expected = (evs', Received payload).
Proof.
  induction late as [|[[type seq'] p] late IH]; intros fuel evs seq expected payload rest Hl Hok Ha Hf;
    (destruct fuel as [|fuel]; [simpl in Hf; lia|]).
  - destruct (read_response_frame fuel evs seq expected expected seq payload rest Hok Ha) as (evs' & A & E).
    exists evs'. split; [done|]. by rewrite E, !Z.eqb_refl.
  - apply Forall_cons in Hl as [[Hok' Hne] Hl]. unfold late_frames in Ha. cbn [map concat] in Ha. rewrite <-app_assoc in Ha.
    destruct (read_response_frame fuel evs seq expected type seq' p _ Hok' Ha) as (evs1 & A & E).
    rewrite E, (proj2 (Z.eqb_neq _ _) Hne). apply (IH fuel evs1 seq expected payload rest); [done|done|done|simpl in Hf; lia].
Qed.

(** ** The client *)

(** The peer has an endpoint and an open pooled socket, and the write succeeds. *)
Record connected (t : TcpTransport) (conns : ThreadConns) (net : Network) (peer_id : NodeId) (sock : Socket) : Prop := {
  cn_peer : is_Some (tt_peers t !! peer_id);
  cn_proactor : net_proactor net = true;
  cn_write : net_write_error net = false;
  cn_pooled : tc_conns conns !! peer_id = Some (Some sock);
  cn_open : sk_open sock = true
}.

Lemma late_frames_length seq late : late_ok seq late → (length late ≤ length (late_frames late))%nat.
Proof.
  induction 1 as [|[[type seq'] p] late [Hok _] _ IH]; [done|]. unfold late_frames in *. cbn [map concat length]. rewrite length_app.
  destruct (frame_split type seq' p Hok) as (h & c & -> & Eh & _ & _). rewrite length_app. unfold zlen, kRpcFrameHeaderSize in Eh. lia.
Qed.

Lemma DoRpc_answered t conns net peer_id sock req_type req_payload expected timeout rsp late rest :
  let seq := u32 (tc_seq_counter conns + 1) in
  connected t conns net peer_id sock → late_ok seq late → frame_ok expected seq rsp →
  avail (sk_in sock ++ net_arrivals net (EncodeRpcFrame req_type seq req_payload)) =
    late_frames late ++ EncodeRpcFrame expected seq rsp ++ rest →
  ∃ conns' sock', DoRpc t conns net peer_id req_type req_payload expected timeout = (conns', Some rsp) ∧
    tc_conns conns' !! peer_id = Some (Some sock') ∧ sk_open sock' = true ∧ avail (sk_in sock') = rest ∧
    tc_seq_counter conns' = seq ∧ tc_retired conns' = tc_retired conns.
Proof.
  intros seq [[peer Hp] Hpb Hw Hc Ho] Hl Hok Ha. unfold DoRpc. rewrite Hp, Hpb. cbn [negb].
  unfold get_socket. rewrite Hc. cbn [from_option id]. rewrite Ho. cbn [fmap option_fmap option_map]. cbv zeta.
  fold seq. rewrite Hw.
  set (evs := sk_in sock ++ net_arrivals net (EncodeRpcFrame req_type seq req_payload)) in *.
  destruct (read_response_late late (S (input_size evs)) evs seq expected rsp rest Hl Hok Ha) as (evs' & A & E).
  { pose proof (avail_input_size evs). pose proof (late_frames_length seq late Hl). rewrite Ha, length_app in *. lia. }
  match goal with |- context [read_response (S (input_size ?i)) ?i _ _] => change i with evs end.
  rewrite E. eexists _, _. split; [reflexivity|]. cbn. rewrite lookup_insert_eq. split_and!; [reflexivity|done|exact A|done|done].
Qed.

(** ** The server *)

(** The server of [peer_id] has the nodes that are registered for it. *)
Definition nodes_agree (srv : Nodes) (nodes : Registry) (peer_id : NodeId) : Prop :=
  ∀ g, srv !! g = nodes !! (g, peer_id).

Lemma with_node_local {R : Type} (srv : Nodes) (nodes : Registry) (peer_id : NodeId) g (handler : Node → Node * R) (rsp : R) :
  nodes_agree srv nodes peer_id →
  ∃ srv', with_node srv g handler rsp =
      (srv', match LookupAcquire nodes g peer_id with None => rsp | Some node => (handler node).2 end) ∧
    nodes_agree srv' (match LookupAcquire nodes g peer_id with
                      | None => nodes | Some node => <[(g, peer_id) := (handler node).1]> nodes end) peer_id.
Proof.
  intros Hn. unfold with_node, LookupAcquire. rewrite Hn. destruct (nodes !! (g, peer_id)) as [node|]; [|by exists srv].
  destruct (TryAcquireRpcRef node); [|by exists srv]. destruct (handler node) as [node' r]. eexists. split; [done|].
  intros g'. destruct (decide (g' = g)) as [->|Hne]; [by rewrite !lookup_insert_eq|]. rewrite !lookup_insert_ne by congruence. apply Hn.
Qed.

Ltac dispatch_case Hp Hn Hl send :=
  unfold Dispatch; simpl Z.eqb; cbv iota; cbn [SerializePayload] in *; rewrite Hp; cbn [mbind option_bind];
  match goal with |- context [with_node ?srv ?g ?h ?r] =>
    destruct (with_node_local srv _ _ g h r Hn) as (srv' & -> & Ha) end;
  eexists; unfold send in Hl; destruct (LookupAcquire _ _ _) as [node|];
  [match type of Hl with context [let '(_, _) := (let '(_, _) := ?x in _) in _] => destruct x as [node' r'] end|];
  injection Hl as <- <-; (split; [reflexivity|done]).

Lemma Dispatch_local `{!RaftProtoLaws} srv nodes peer_id m nodes' rsp :
  nodes_agree srv nodes peer_id → sendable m → LocalSend nodes peer_id m = Some (nodes', rsp) →
  ∃ srv', Dispatch srv (rpc_type m) (SerializePayload m) = Some (srv', rpc_type rsp, SerializePayload rsp) ∧
    nodes_agree srv' nodes' peer_id.
Proof.
  intros Hn Hs Hl. pose proof (ParsePayload_SerializePayload m Hs) as Hp. unfold ParsePayload in Hp.
  destruct m as [r|r|r|r|r|r|r|r|r|r|r|r]; try done; simpl rpc_type in *; simpl Z.eqb in Hp; cbv iota in Hp;
    apply fmap_Some in Hp as (r' & Hp & [= <-]).
  all: cbn [LocalSend] in Hl.
  - dispatch_case Hp Hn Hl LocalSendAppendEntries.
  - dispatch_case Hp Hn Hl LocalSendVoteRequest.
  - dispatch_case Hp Hn Hl LocalSendHeartbeat.
  - dispatch_case Hp Hn Hl LocalSendInstallSnapshot.
  - dispatch_case Hp Hn Hl LocalSendReadIndex.
  - dispatch_case Hp Hn Hl LocalSendTimeoutNow.
Qed.

Lemma HandleRequests_one srv srv' type seq payload rsp_type rsp_payload evs :
  frame_ok type seq payload → avail evs = EncodeRpcFrame type seq payload →
  Dispatch srv type payload = Some (srv', rsp_type, rsp_payload) →
  HandleRequests (λ _, true) evs srv = (srv', [EncodeRpcFrame rsp_type seq rsp_payload]).
Proof.
  intros Hok Ha Hd. unfold HandleRequests. cbn [HandleRequests_loop].
  destruct (HandleRequest_frame evs srv type seq payload [] Hok) as (evs1 & A1 & E1); [by rewrite app_nil_r|].
  rewrite E1, Hd. cbn [mbind option_bind app]. destruct (input_size evs) as [|k]; [done|]. cbn [HandleRequests_loop].
  by rewrite (HandleRequest_end evs1 srv' A1).
Qed.

(** ** One transport *)

Section laws.
Context `{!RaftProtoLaws}.

Lemma payload_frame_ok m seq : 0 ≤ seq ≤ U32_MAX → zlen (SerializePayload m) ≤ kMaxFramePayload → frame_ok (rpc_type m) seq (SerializePayload m).
Proof. intros Hs Hz. split_and!; [by destruct m..|lia|lia|destruct m; apply pb_serialize_bytes|done]. Qed.

(** The response [rsp] to [m] can be told from no response, or is the same: a
    message with only default fields has an empty payload, which does not parse. *)
Definition answerable (m rsp : RpcMessage) : Prop :=
  (sendable rsp ∨ (SerializePayload rsp = [] ∧ no_answer m = Some rsp)) ∧ zlen (SerializePayload rsp) ≤ kMaxFramePayload.

(** The timeout of the request. *)
Definition send_timeout (t : TcpTransport) (m : RpcMessage) : Z :=
  match m with
  | MVoteRequest _ => tt_vote_timeout_ms t
  | MHeartbeatRequest _ => tt_heartbeat_timeout_ms t
  | MAppendEntriesRequest _ => tt_append_timeout_ms t
  | MInstallSnapshotRequest _ => kSnapshotRpcTimeoutMs
  | _ => tt_rpc_timeout_ms t
  end.

Ltac answered_case send Hd Hp :=
  unfold send; rewrite Hd; destruct Hp as [Hp|[Hp Hn]];
  [apply fmap_Some in Hp as (y & Hp & [= <-]); by rewrite Hp|rewrite Hp; injection Hn as <-; reflexivity].

(** What [TcpSend] makes of the payload it receives. *)
Lemma TcpSend_answered t conns net peer_id m rsp conns' nodes nodes' :
  LocalSend nodes peer_id m = Some (nodes', rsp) → answerable m rsp →
  DoRpc t conns net peer_id (rpc_type m) (SerializePayload m) (rpc_type rsp) (send_timeout t m) = (conns', Some (SerializePayload rsp)) →
  TcpSend t conns net peer_id m = Some (conns', rsp).
Proof.
  intros Hl [Hans _] Hd.
  assert (ParsePayload (rpc_type rsp) (SerializePayload rsp) = Some rsp ∨ (SerializePayload rsp = [] ∧ no_answer m = Some rsp)) as Hp.
  { destruct Hans as [Hs|Hn]; [left; by apply ParsePayload_SerializePayload|by right]. }
  destruct m as [r|r|r|r|r|r|r|r|r|r|r|r]; try done; cbn [LocalSend] in Hl;
    match type of Hl with (let '(_, _) := ?x in _) = _ => destruct x as [nodes1 x1] end; injection Hl as <- <-;
    cbn [TcpSend rpc_type SerializePayload no_answer send_timeout] in *; unfold ParsePayload in Hp; simpl Z.eqb in Hp; cbv iota in Hp.
  - answered_case SendAppendEntries Hd Hp.
  - answered_case SendVoteRequest Hd Hp.
  - answered_case SendHeartbeat Hd Hp.
  - answered_case SendInstallSnapshot Hd Hp.
  - answered_case SendReadIndex Hd Hp.
  - answered_case SendTimeoutNow Hd Hp.
Qed.

(** C16. The TCP transport is the local one: a request that [TcpTransport]
    serializes, frames and writes, and that reaches the server of the peer in
    pieces of any size, has the effect and the response that [LocalTransport]'s
    call of the handler has.  The pooled connection may hold any number of late
    responses to requests that timed out: they are skipped by their sequence
    number.  The connection stays open, and in step. *)
Theorem tcp_refines_local t conns net peer_id sock srv nodes m nodes' rsp late rest evs :
  let seq := u32 (tc_seq_counter conns + 1) in
  let frame := EncodeRpcFrame (rpc_type m) seq (SerializePayload m) in
  connected t conns net peer_id sock → nodes_agree srv nodes peer_id → late_ok seq late →
  sendable m → zlen (SerializePayload m) ≤ kMaxFramePayload →
  LocalSend nodes peer_id m = Some (nodes', rsp) → answerable m rsp →
  avail evs = frame →
  let '(srv', written) := HandleRequests (λ _, true) evs srv in
  avail (sk_in sock ++ net_arrivals net frame) = late_frames late ++ concat written ++ rest →
  nodes_agree srv' nodes' peer_id ∧
  ∃ conns' sock', TcpSend t conns net peer_id m = Some (conns', rsp) ∧
    tc_conns conns' !! peer_id = Some (Some sock') ∧ sk_open sock' = true ∧ avail (sk_in sock') = rest ∧
    tc_retired conns' = tc_retired conns.
Proof.
  intros seq frame Hc Hn Hl Hs Hz Hloc Hans Ha. pose proof (u32_range (tc_seq_counter conns + 1)) as Hseq. fold seq in Hseq.
  destruct (Dispatch_local srv nodes peer_id m nodes' rsp Hn Hs Hloc) as (srv' & Hd & Hn').
  rewrite (HandleRequests_one srv srv' (rpc_type m) seq (SerializePayload m) (rpc_type rsp) (SerializePayload rsp) evs
    (payload_frame_ok m seq Hseq Hz) Ha Hd). cbn [concat]. rewrite app_nil_r. intros Hin. split; [done|].
  destruct (DoRpc_answered t conns net peer_id sock (rpc_type m) (SerializePayload m) (rpc_type rsp) (send_timeout t m) (SerializePayload rsp)
    late rest Hc Hl (payload_frame_ok rsp seq Hseq (proj2 Hans)) Hin) as (conns' & sock' & E & H1 & H2 & H3 & _ & H4).
  exists conns', sock'. split; [|done]. by apply (TcpSend_answered t conns net peer_id m rsp conns' nodes nodes').
Qed.
End laws.
End transports.

(** ** Raft nodes *)

Section nodes.
Context {L SM : Type} `{!LogStorage L, !StateMachine SM}.

(** A Raft node at time [now]; [start_election] is the election that
    [OnTimeoutNow] holds before it returns. *)
Definition RaftNode_handlers (now : Z) (start_election : RaftNode L SM → RaftNode L SM) : RpcHandlers (RaftNode L SM) := {|
  TryAcquireRpcRef n := negb (n_shutdown n);
  node_OnRequestVote := OnRequestVote;
  node_OnHeartbeat n := OnHeartbeat n now;
  node_OnAppendEntries n := OnAppendEntries n now;
  node_OnInstallSnapshot := OnInstallSnapshot;
  node_OnReadIndex n req := (n, OnReadIndex n req);
  node_OnTimeoutNow n req := let '(n, rsp, start) := OnTimeoutNow n req in (if start then start_election n else n, rsp)
|}.
End nodes.

(** ** Example *)

Section examples.
#[local] Existing Instance example_lib.
#[local] Existing Instance BitProto.bit_proto.
#[local] Existing Instance BitProto.bit_proto_laws.
#[local] Instance example_handlers : RpcHandlers (RaftNode CommandLog KvStateMachine) := RaftNode_handlers 1000 (λ n, n).

(** The first request of Convergence.v's leader, to the follower's server; the
    request arrives in two pieces, and behind a late response to request 6. *)
Definition wire_request : RpcMessage :=
  MAppendEntriesRequest (catch_up_request (pair_leader catch_up_ops 2) (ops_alog catch_up_ops) 3 2).
Definition wire_server : gmap Z (RaftNode CommandLog KvStateMachine) := {[ 0 := pair_follower ]}.
Definition wire_registry : gmap (Z * NodeId) (RaftNode CommandLog KvStateMachine) := {[ (0, str "n2") := pair_follower ]}.
Definition wire_frame : bytes := EncodeRpcFrame (rpc_type wire_request) 8 (SerializePayload wire_request).
Definition wire_pieces : list RecvEvent := [Data (take 5 wire_frame); Data (drop 5 wire_frame)].
Definition wire_late : list (Z * Z * bytes) := [(kHeartbeatRsp, 6, str "late")].
Definition wire_socket : Socket := mkSocket true [Data (late_frames wire_late)] [] 0.
Definition wire_conns : ThreadConns := mkThreadConns {[ str "n2" := Some wire_socket ]} 7 [].
Definition wire_net : Network :=
  mkNetwork true (λ _, None) false (λ frame, map Data (HandleRequests (λ _, true) [Data frame] wire_server).2).
Definition wire_transport : TcpTransport := SetPeerEndpoint TcpTransport_new (str "n2") (str "10.0.0.2", 7001).

Definition wire_result : RpcMessage := default wire_request (snd <$> LocalSend wire_registry (str "n2") wire_request).

Lemma tcp_refines_local_witness :
  snd <$> TcpSend wire_transport wire_conns wire_net (str "n2") wire_request = Some wire_result ∧
  wire_result = MAppendEntriesResponse (mkAppendEntriesResponse 0 3 true 3).
Proof.
  split; [|vm_compute; reflexivity].
  assert (is_Some (LocalSend wire_registry (str "n2") wire_request)) as [[nodes' rsp] El] by by_decide.
  assert (rsp = wire_result) as -> by (unfold wire_result; by rewrite El).
  assert (wire_result = MAppendEntriesResponse (mkAppendEntriesResponse 0 3 true 3)) as Er by (vm_compute; reflexivity).
  pose proof (tcp_refines_local wire_transport wire_conns wire_net (str "n2") wire_socket wire_server wire_registry wire_request nodes' wire_result
    wire_late [] wire_pieces) as H.
  cbv zeta in H. change (u32 (tc_seq_counter wire_conns + 1)) with 8 in H. fold wire_frame in H.
  destruct (HandleRequests (λ _, true) wire_pieces wire_server) as [srv' written] eqn:Eh.
  destruct H as (_ & conns' & sock' & -> & _); [..|reflexivity].
  - split; [by_decide|reflexivity..].
  - intros g. unfold wire_server, wire_registry. destruct (decide (g = 0)) as [->|Hg]; [reflexivity|].
    rewrite !lookup_singleton_ne by congruence. done.
  - constructor; [|constructor]. split; [split_and!; by_decide|done].
  - split; [split; [exact I|by_decide]|by_decide].
  - by_decide.
  - exact El.
  - rewrite Er. split; [left; split; [split; [exact I|by_decide]|by_decide]|by_decide].
  - vm_compute. reflexivity.
  - assert (written = (HandleRequests (λ _, true) wire_pieces wire_server).2) as -> by (by rewrite Eh). vm_compute. reflexivity.
Defined.
End examples.
