(* ===== verification/Concurrency.v ===== *)
(** * Two lock-free protocols

    The RPC lifetime guard of a Raft node (src/server/raft/raft_node.h
    [TryAcquireRpcRef], [ReleaseRpcRef]; raft_node.cc [Shutdown],
    [WaitForRpcDrain]) and the snapshot barrier
    (src/server/raft/snapshot_barrier.h), as step relations: every atomic
    operation of every thread is a step, in any interleaving, of any number of
    threads.  The operations on the shared words are taken to happen in one
    order (sequential consistency), which is more than the memory orders in the
    code ask for. *)

From stdpp Require Import relations.
From S2P Require Import Prelude.

(** The number of threads in a state that satisfies [P]. *)
Definition count {A} (P : A → bool) (ts : list A) : Z := zlen (filter (λ t, P t = true) ts).

Lemma count_insert {A} (P : A → bool) (ts : list A) i t t' :
  ts !! i = Some t → count P (<[i := t']> ts) = count P ts - (if P t then 1 else 0) + (if P t' then 1 else 0).
Proof.
  revert i. induction ts as [|x ts IH]; intros i Hi; [done|]. unfold count in *. destruct i as [|i]; simpl in Hi.
  - injection Hi as ->. simpl. rewrite !filter_cons.
    destruct (P t), (P t'); repeat case_decide; rewrite ?zlen_cons; (done || lia).
  - simpl. rewrite !filter_cons. specialize (IH i Hi). case_decide; rewrite ?zlen_cons; lia.
Qed.

Lemma count_nonneg {A} (P : A → bool) ts : 0 ≤ count P ts.
Proof. apply zlen_nonneg. Qed.

Lemma count_0 {A} (P : A → bool) ts i t : count P ts = 0 → ts !! i = Some t → P t = false.
Proof.
  intros Hc Hi. destruct (P t) eqn:E; [|done].
  assert (t ∈ filter (λ t, P t = true) ts) as Hin by (apply list_elem_of_filter; split; [done|by apply list_elem_of_lookup_2 in Hi]).
  unfold count in Hc. destruct (filter _ ts); [by apply not_elem_of_nil in Hin|rewrite zlen_cons in Hc; unfold zlen in Hc; lia].
Qed.

Lemma count_pos {A} (P : A → bool) ts i t : ts !! i = Some t → P t = true → 1 ≤ count P ts.
Proof.
  intros Hi Ht. destruct (decide (count P ts = 0)) as [Hc|]; [|pose proof (count_nonneg P ts); lia].
  by rewrite (count_0 P ts i t Hc Hi) in Ht.
Qed.

Lemma rtc_last {A} (R : relation A) x y z : R x y → y = z → rtc R x z.
Proof. intros H <-. by apply rtc_once. Qed.

(** ** The RPC lifetime guard *)

(** A thread that calls a handler: before it, in [TryAcquireRpcRef] after the
    load of [rpc_refs_], after the test of [rpc_alive_], and in the handler. *)
Inductive caller : Type :=
  | CIdle
  | CLoaded (refs : Z)
  | CTested (refs : Z)
  | CInside.

(** A thread that calls [Shutdown]: before it, after [rpc_alive_] is false, in
    [WaitForRpcDrain] after [drain_started_], after the base reference is dropped
    (with the milliseconds waited), and its three ways to return. *)
Inductive closer : Type :=
  | SIdle
  | SFlipped
  | SStarted
  | SDraining (waited : Z)
  | SDrained
  | STimedOut
  | SSecond.

Record Guard : Type := mkGuard {
  g_rpc_refs : Z;
  g_rpc_alive : bool;
  g_drain_started : bool;
  g_callers : list caller;
  g_closers : list closer
}.
#[export] Instance Guard_eta : Eta Guard := fun g =>
  mkGuard (g_rpc_refs g) (g_rpc_alive g) (g_drain_started g) (g_callers g) (g_closers g).

Definition Guard_new (callers closers : nat) : Guard :=
  mkGuard 1 true false (replicate callers CIdle) (replicate closers SIdle).

Definition kMaxWaitMs : Z := 5000.

Inductive guard_step : Guard → Guard → Prop :=
  | step_load g i :
      g_callers g !! i = Some CIdle →
      guard_step g (g <| g_callers ::= <[i := CLoaded (g_rpc_refs g)]> |>)
  | step_refused g i refs :
      g_callers g !! i = Some (CLoaded refs) → g_rpc_alive g = false ∨ refs = 0 →
      guard_step g (g <| g_callers ::= <[i := CIdle]> |>)
  | step_tested g i refs :
      g_callers g !! i = Some (CLoaded refs) → g_rpc_alive g = true → refs ≠ 0 →
      guard_step g (g <| g_callers ::= <[i := CTested refs]> |>)
  | step_cas g i refs :
      g_callers g !! i = Some (CTested refs) → g_rpc_refs g = refs →
      guard_step g (g <| g_rpc_refs := u32 (refs + 1) |> <| g_callers ::= <[i := CInside]> |>)
  (* [compare_exchange_weak] may also fail for no reason. *)
  | step_cas_failed g i refs :
      g_callers g !! i = Some (CTested refs) →
      guard_step g (g <| g_callers ::= <[i := CLoaded (g_rpc_refs g)]> |>)
  | step_release g i :
      g_callers g !! i = Some CInside →
      guard_step g (g <| g_rpc_refs ::= fun r => u32 (r - 1) |> <| g_callers ::= <[i := CIdle]> |>)
  | step_flip g j :
      g_closers g !! j = Some SIdle →
      guard_step g (g <| g_rpc_alive := false |> <| g_closers ::= <[j := SFlipped]> |>)
  | step_second g j :
      g_closers g !! j = Some SFlipped → g_drain_started g = true →
      guard_step g (g <| g_closers ::= <[j := SSecond]> |>)
  | step_start g j :
      g_closers g !! j = Some SFlipped → g_drain_started g = false →
      guard_step g (g <| g_drain_started := true |> <| g_closers ::= <[j := SStarted]> |>)
  | step_drop g j :
      g_closers g !! j = Some SStarted →
      guard_step g (g <| g_rpc_refs ::= fun r => u32 (r - 1) |> <| g_closers ::= <[j := SDraining 0]> |>)
  | step_wait g j waited :
      g_closers g !! j = Some (SDraining waited) → g_rpc_refs g ≠ 0 → waited < kMaxWaitMs →
      guard_step g (g <| g_closers ::= <[j := SDraining (waited + 1)]> |>)
  | step_timeout g j waited :
      g_closers g !! j = Some (SDraining waited) → g_rpc_refs g ≠ 0 → kMaxWaitMs ≤ waited →
      guard_step g (g <| g_closers ::= <[j := STimedOut]> |>)
  | step_drained g j waited :
      g_closers g !! j = Some (SDraining waited) → g_rpc_refs g = 0 →
      guard_step g (g <| g_closers ::= <[j := SDrained]> |>).

Definition inside (c : caller) : bool := match c with CInside => true | _ => false end.

(** The closer has passed [drain_started_.exchange]; it has dropped the base
    reference. *)
Definition started (s : closer) : bool :=
  match s with SStarted | SDraining _ | SDrained | STimedOut => true | _ => false end.
Definition dropped (s : closer) : bool :=
  match s with SDraining _ | SDrained | STimedOut => true | _ => false end.
Definition drained (s : closer) : bool := match s with SDrained => true | _ => false end.

Record guard_inv (g : Guard) : Prop := {
  gi_refs : g_rpc_refs g = 1 - count dropped (g_closers g) + count inside (g_callers g);
  gi_started : count started (g_closers g) = if g_drain_started g then 1 else 0;
  gi_drained : count drained (g_closers g) = 0 ∨ g_rpc_refs g = 0;
  gi_tested i refs : g_callers g !! i = Some (CTested refs) → refs ≠ 0;
  gi_width : zlen (g_callers g) < U32_MAX
}.

Lemma length_g_callers {A} (ts : list A) i t : zlen (<[i := t]> ts) = zlen ts.
Proof. unfold zlen. by rewrite length_insert. Qed.

Lemma count_le {A} (P : A → bool) (ts : list A) : count P ts ≤ zlen ts.
Proof. unfold count, zlen. pose proof (length_filter (λ t, P t = true) ts). lia. Qed.

Lemma guard_inv_new callers closers : Z.of_nat callers < U32_MAX → guard_inv (Guard_new callers closers).
Proof.
  intros Hc. assert (∀ A (P : A → bool) k t, P t = false → count P (replicate k t) = 0) as H0.
  { intros A P k t Ht. induction k as [|k IH]; [done|]. unfold count in *. simpl. rewrite filter_cons, decide_False by congruence. done. }
  split; simpl; rewrite ?H0; try done; [by left| |unfold zlen; rewrite length_replicate; lia].
  intros i refs Hi. apply lookup_replicate in Hi as [? _]. done.
Qed.

(** The bookkeeping of a step that moves caller [i] from [c] to [c']. *)
Lemma tested_insert g i c c' :
  (∀ i refs, g_callers g !! i = Some (CTested refs) → refs ≠ 0) →
  g_callers g !! i = Some c → (∀ refs, c' = CTested refs → refs ≠ 0) →
  ∀ k refs, <[i := c']> (g_callers g) !! k = Some (CTested refs) → refs ≠ 0.
Proof.
  intros H Hi Hc k refs Hk. destruct (decide (k = i)) as [->|Hne].
  - rewrite list_lookup_insert_eq in Hk by (by eapply lookup_lt_Some). injection Hk as Hk. by apply Hc.
  - rewrite list_lookup_insert_ne in Hk by done. by apply (H k).
Qed.

Lemma count_mono {A} (P Q : A → bool) (ts : list A) : (∀ t, P t = true → Q t = true) → count P ts ≤ count Q ts.
Proof.
  intros H. unfold count. induction ts as [|t ts IH]; [done|]. rewrite !filter_cons.
  destruct (P t) eqn:EP, (Q t) eqn:EQ; repeat case_decide; rewrite ?zlen_cons; try lia; try done. apply H in EP. congruence.
Qed.

(** The invariant after a step of caller or closer number [i], from [Hi]. *)
Ltac guard_case Hi :=
  split; cbn [g_rpc_refs g_rpc_alive g_drain_started g_callers g_closers Guard_eta set];
  rewrite ?length_g_callers, ?(count_insert _ _ _ _ _ Hi); cbn [inside started dropped drained];
  [try lia..|try (eapply tested_insert; [eassumption|exact Hi|congruence]); try assumption|lia].

Lemma guard_inv_step g g' : guard_inv g → guard_step g g' → guard_inv g'.
Proof.
  intros [Hr Hs Hz Ht Hw] Hstep.
  assert (∀ i c, 0 ≤ count inside (<[i := c]> (g_callers g)) ≤ zlen (g_callers g)) as Hin.
  { intros i c. rewrite <-(length_g_callers _ i c). split; [apply count_nonneg|apply count_le]. }
  assert (∀ ts, 0 ≤ count drained ts ≤ count dropped ts ∧ count dropped ts ≤ count started ts) as Hcnt.
  { intros ts. split; [split; [apply count_nonneg|]|]; (apply count_mono; by intros []). }
  assert (0 ≤ count started (g_closers g) ≤ 1) by (rewrite Hs; destruct (g_drain_started g); lia).
  pose proof (Hcnt (g_closers g)). pose proof (count_nonneg inside (g_callers g)).
  destruct Hstep as [g i Hi|g i refs Hi Hx|g i refs Hi Hx Hy|g i refs Hi Hx|g i refs Hi|g i Hi|g j Hj|g j Hj Hx|g j Hj Hx|g j Hj|g j w Hj Hx Hy|g j w Hj Hx Hy|g j w Hj Hx].
  - guard_case Hi.
  - guard_case Hi.
  - guard_case Hi.
  - pose proof (Ht i refs Hi). pose proof (Hin i CInside) as Hc. rewrite (count_insert _ _ _ _ _ Hi) in Hc. cbn [inside] in Hc.
    assert (u32 (refs + 1) = refs + 1) as Hu by (apply u32_small; lia). guard_case Hi.
  - guard_case Hi.
  - pose proof (count_pos inside _ _ _ Hi eq_refl). pose proof (count_le inside (g_callers g)).
    assert (u32 (g_rpc_refs g - 1) = g_rpc_refs g - 1) as Hu by (apply u32_small; lia). guard_case Hi.
  - guard_case Hj.
  - guard_case Hj.
  - rewrite Hx in Hs. guard_case Hj.
  - pose proof (Hcnt (<[j := SDraining 0]> (g_closers g))) as Hc. rewrite !(count_insert _ _ _ _ _ Hj) in Hc. cbn [started dropped drained] in Hc.
    pose proof (count_le inside (g_callers g)).
    assert (u32 (g_rpc_refs g - 1) = g_rpc_refs g - 1) as Hu by (apply u32_small; lia). guard_case Hj.
  - guard_case Hj.
  - guard_case Hj.
  - guard_case Hj.
Qed.

Lemma guard_inv_steps g g' : guard_inv g → rtc guard_step g g' → guard_inv g'.
Proof. intros Hi Hs. induction Hs; [done|]. eauto using guard_inv_step. Qed.

Lemma drained_stays g g' j : guard_step g g' → g_closers g !! j = Some SDrained → g_closers g' !! j = Some SDrained.
Proof.
  intros [] Hj; try done; cbn; (rewrite list_lookup_insert_ne; [done|]); intros ->; congruence.
Qed.

Lemma drained_empty g j i : guard_inv g → g_closers g !! j = Some SDrained → g_callers g !! i ≠ Some CInside.
Proof.
  intros [Hr Hs Hz _ _] Hj Hi. pose proof (count_pos drained _ _ _ Hj eq_refl). pose proof (count_pos inside _ _ _ Hi eq_refl).
  assert (count dropped (g_closers g) ≤ count started (g_closers g)) by (apply count_mono; by intros []).
  rewrite Hs in *. destruct (g_drain_started g); lia.
Qed.

(** C23. A node that [Shutdown] has drained is never entered again: when
    [WaitForRpcDrain] has seen [rpc_refs_] at 0, no thread is inside a handler of
    the node, and in no continuation, of any interleaving of any number of RPC
    and [Shutdown] calls, does one ever get in. *)
Theorem drained_node_not_entered callers closers g g' i j :
  Z.of_nat callers < U32_MAX → rtc guard_step (Guard_new callers closers) g →
  g_closers g !! j = Some SDrained → rtc guard_step g g' → g_callers g' !! i ≠ Some CInside.
Proof.
  intros Hc Hr Hj Hs. apply guard_inv_steps in Hr; [|by apply guard_inv_new].
  induction Hs as [g|g g1 g' H1 Hs IH]; [by eapply drained_empty|].
  apply IH; [by eapply guard_inv_step|by eapply drained_stays].
Qed.

(** Waiting does nothing but count. *)
Lemma wait_steps refs alive callers (k : nat) w :
  refs ≠ 0 → w + Z.of_nat k ≤ kMaxWaitMs →
  rtc guard_step (mkGuard refs alive true callers [SDraining w]) (mkGuard refs alive true callers [SDraining (w + Z.of_nat k)]).
Proof.
  intros Hr. revert w. induction k as [|k IH]; intros w Hk.
  - replace (w + Z.of_nat 0) with w by lia. done.
  - eapply rtc_l; [eapply (step_wait _ 0 w); [done|done|lia]|]. cbn.
    replace (w + Z.of_nat (S k)) with (w + 1 + Z.of_nat k) by lia. apply IH. lia.
Qed.

(** [Shutdown] gives up after five seconds: with a handler that is still
    running it returns, and the node, its mutex included, is destroyed under the
    handler, although the comment in [Shutdown] says that blocking there
    guarantees the opposite. *)
Theorem shutdown_leaves_running_handler :
  ∃ g, rtc guard_step (Guard_new 1 1) g ∧ g_closers g = [STimedOut] ∧ g_callers g = [CInside].
Proof.
  exists (mkGuard 1 false true [CInside] [STimedOut]). split; [|done].
  eapply rtc_l; [by apply (step_load _ 0)|]. eapply rtc_l; [by apply (step_tested _ 0 1)|].
  eapply rtc_l; [by apply (step_cas _ 0 1)|]. eapply rtc_l; [by apply (step_flip _ 0)|].
  eapply rtc_l; [by apply (step_start _ 0)|]. eapply rtc_l; [by apply (step_drop _ 0)|]. cbn.
  etransitivity; [apply (wait_steps 1 false [CInside] (Z.to_nat kMaxWaitMs) 0); [done|by_decide]|].
  apply rtc_once. set (w := 0 + Z.of_nat (Z.to_nat kMaxWaitMs)).
  apply (step_timeout (mkGuard 1 false true [CInside] [SDraining w]) 0 w); [reflexivity|done|by_decide].
Qed.

(** An RPC and the shutdown that waits for it. *)
Lemma drained_node_not_entered_witness :
  rtc guard_step (Guard_new 1 1) (mkGuard 0 false true [CIdle] [SDrained]) ∧
  g_callers (mkGuard 0 false true [CLoaded 0] [SDrained]) !! 0%nat ≠ Some CInside.
Proof.
  assert (rtc guard_step (Guard_new 1 1) (mkGuard 0 false true [CIdle] [SDrained])) as H.
  { eapply rtc_l; [by apply (step_load _ 0)|]. eapply rtc_l; [by apply (step_tested _ 0 1)|].
    eapply rtc_l; [by apply (step_cas _ 0 1)|]. eapply rtc_l; [by apply (step_flip _ 0)|].
    eapply rtc_l; [by apply (step_start _ 0)|]. eapply rtc_l; [by apply (step_drop _ 0)|].
    eapply rtc_l; [by apply (step_wait _ 0 0)|]. eapply rtc_l; [by apply (step_release _ 0)|].
    eapply rtc_last; [by apply (step_drained _ 0 1)|reflexivity]. }
  split; [exact H|].
  apply (drained_node_not_entered 1 1 (mkGuard 0 false true [CIdle] [SDrained]) _ 0 0); [by_decide|exact H|reflexivity|].
  eapply rtc_last; [by apply (step_load _ 0)|reflexivity].
Defined.

(** ** The snapshot barrier *)

(** A thread that writes to the database, in [BeginRead]: at the first loop,
    before and after the first increment, before the decrement, at the second
    loop, before the second increment; and between [BeginRead] and [EndRead],
    where the boolean says which of the increments it came by. *)
Inductive reader : Type :=
  | RIdle
  | RWaiting
  | RAdding
  | RChecking
  | RBacking
  | RWaitingAgain
  | RAddingAgain
  | RInside (again : bool).

(** The snapshot thread: before [BeginWrite], in its loop, and before [EndWrite]. *)
Inductive writer : Type :=
  | WIdle
  | WWaiting
  | WInside.

Record Barrier : Type := mkBarrier {
  b_readers : Z;
  b_writing : bool;
  b_threads : list reader;
  b_snapshot : writer
}.
#[export] Instance Barrier_eta : Eta Barrier := fun b =>
  mkBarrier (b_readers b) (b_writing b) (b_threads b) (b_snapshot b).

Definition Barrier_new (threads : nat) : Barrier := mkBarrier 0 false (replicate threads RIdle) WIdle.

Inductive barrier_step : Barrier → Barrier → Prop :=
  | BeginRead b i :
      b_threads b !! i = Some RIdle → barrier_step b (b <| b_threads ::= <[i := RWaiting]> |>)
  | BeginRead_yield b i :
      b_threads b !! i = Some RWaiting → b_writing b = true → barrier_step b b
  | BeginRead_free b i :
      b_threads b !! i = Some RWaiting → b_writing b = false → barrier_step b (b <| b_threads ::= <[i := RAdding]> |>)
  | BeginRead_add b i :
      b_threads b !! i = Some RAdding →
      barrier_step b (b <| b_readers ::= fun r => u32 (r + 1) |> <| b_threads ::= <[i := RChecking]> |>)
  | BeginRead_done b i :
      b_threads b !! i = Some RChecking → b_writing b = false →
      barrier_step b (b <| b_threads ::= <[i := RInside false]> |>)
  | BeginRead_back b i :
      b_threads b !! i = Some RChecking → b_writing b = true → barrier_step b (b <| b_threads ::= <[i := RBacking]> |>)
  | BeginRead_sub b i :
      b_threads b !! i = Some RBacking →
      barrier_step b (b <| b_readers ::= fun r => u32 (r - 1) |> <| b_threads ::= <[i := RWaitingAgain]> |>)
  | BeginRead_yield_again b i :
      b_threads b !! i = Some RWaitingAgain → b_writing b = true → barrier_step b b
  | BeginRead_free_again b i :
      b_threads b !! i = Some RWaitingAgain → b_writing b = false →
      barrier_step b (b <| b_threads ::= <[i := RAddingAgain]> |>)
  | BeginRead_add_again b i :
      b_threads b !! i = Some RAddingAgain →
      barrier_step b (b <| b_readers ::= fun r => u32 (r + 1) |> <| b_threads ::= <[i := RInside true]> |>)
  | EndRead b i again :
      b_threads b !! i = Some (RInside again) →
      barrier_step b (b <| b_readers ::= fun r => u32 (r - 1) |> <| b_threads ::= <[i := RIdle]> |>)
  | BeginWrite b :
      b_snapshot b = WIdle → barrier_step b (b <| b_writing := true |> <| b_snapshot := WWaiting |>)
  | BeginWrite_yield b :
      b_snapshot b = WWaiting → 0 < b_readers b → barrier_step b b
  | BeginWrite_done b :
      b_snapshot b = WWaiting → b_readers b = 0 → barrier_step b (b <| b_snapshot := WInside |>)
  | EndWrite b :
      b_snapshot b = WInside → barrier_step b (b <| b_writing := false |> <| b_snapshot := WIdle |>).

(** The thread is counted in [readers_]; it is inside by the first way. *)
Definition counted (r : reader) : bool :=
  match r with RChecking | RBacking | RInside _ => true | _ => false end.
Definition inside_first (r : reader) : bool := match r with RInside false => true | _ => false end.

Record barrier_inv (b : Barrier) : Prop := {
  bi_readers : b_readers b = count counted (b_threads b);
  bi_writing : b_writing b = match b_snapshot b with WIdle => false | _ => true end;
  bi_exclusive : b_snapshot b = WInside → count inside_first (b_threads b) = 0;
  bi_width : zlen (b_threads b) ≤ U32_MAX
}.

Lemma barrier_inv_new threads : Z.of_nat threads ≤ U32_MAX → barrier_inv (Barrier_new threads).
Proof.
  intros Hc. split; simpl; [|done|done|unfold zlen; rewrite length_replicate; lia].
  induction threads as [|k IH]; [done|]. unfold count in *. simpl. rewrite filter_cons, decide_False by done. apply IH. lia.
Qed.

Ltac barrier_case Hi :=
  split; cbn [b_readers b_writing b_threads b_snapshot Barrier_eta set]; rewrite ?length_g_callers;
  repeat rewrite ?(count_insert _ _ _ _ _ Hi); cbn [counted inside_first]; try done; try lia; try congruence;
  try (intros HI; match goal with He : _ = WInside → _ |- _ => specialize (He HI) end; lia).

Lemma barrier_inv_step b b' : barrier_inv b → barrier_step b b' → barrier_inv b'.
Proof.
  intros [Hr Hw He Hwd] Hstep.
  assert (∀ i r, 0 ≤ count counted (<[i := r]> (b_threads b)) ≤ zlen (b_threads b)) as Hin.
  { intros i r. rewrite <-(length_g_callers _ i r). split; [apply count_nonneg|apply count_le]. }
  assert (count inside_first (b_threads b) ≤ count counted (b_threads b)) by (apply count_mono; by intros [| | | | | | |[]]).
  pose proof (count_nonneg inside_first (b_threads b)).
  destruct Hstep as [b i Hi|b i Hi Hx|b i Hi Hx|b i Hi|b i Hi Hx|b i Hi Hx|b i Hi|b i Hi Hx|b i Hi Hx|b i Hi|b i again Hi|b Hs|b Hs Hx|b Hs Hx|b Hs].
  all: try (by split).
  all: try (pose proof (Hin i RChecking) as Hc1; pose proof (Hin i RIdle) as Hc0; rewrite (count_insert _ _ _ _ _ Hi) in Hc1; rewrite (count_insert _ _ _ _ _ Hi) in Hc0; cbn [counted] in Hc1, Hc0).
  - barrier_case Hi.
  - barrier_case Hi.
  - assert (u32 (b_readers b + 1) = b_readers b + 1) as Hu by (apply u32_small; lia). barrier_case Hi.
  - barrier_case Hi. rewrite Hx in Hw. by destruct (b_snapshot b).
  - barrier_case Hi.
  - assert (u32 (b_readers b - 1) = b_readers b - 1) as Hu by (apply u32_small; lia). barrier_case Hi.
  - barrier_case Hi.
  - assert (u32 (b_readers b + 1) = b_readers b + 1) as Hu by (apply u32_small; lia). barrier_case Hi.
  - assert (u32 (b_readers b - 1) = b_readers b - 1) as Hu by (apply u32_small; lia). barrier_case Hi.
    intros HI. specialize (He HI). destruct again; [lia|]. pose proof (count_pos inside_first _ _ _ Hi eq_refl). lia.
  - split; [exact Hr|cbn; by rewrite Hw, Hs|intros _; cbn [b_threads set]|exact Hwd]. rewrite Hr in Hx. cbn. lia.
Qed.

(** What the barrier does exclude: while a snapshot is between [BeginWrite]
    and [EndWrite], no thread is inside that came in by the first increment of
    [BeginRead]. *)
Theorem barrier_excludes_first threads b i :
  Z.of_nat threads ≤ U32_MAX → rtc barrier_step (Barrier_new threads) b →
  b_snapshot b = WInside → b_threads b !! i ≠ Some (RInside false).
Proof.
  intros Hc Hr Hs Hi.
  assert (barrier_inv b) as [_ _ He _].
  { pose proof (barrier_inv_new threads Hc) as Hinv. induction Hr; [done|]. eauto using barrier_inv_step. }
  pose proof (count_pos inside_first _ _ _ Hi eq_refl). rewrite (He Hs) in *. lia.
Qed.

(** And what it does not: a writer to the database that was sent back by the
    re-check of [BeginRead] increments [readers_] again without a re-check; it is
    inside together with the next snapshot. *)
Theorem barrier_admits_second :
  ∃ b, rtc barrier_step (Barrier_new 1) b ∧ b_snapshot b = WInside ∧ b_threads b = [RInside true].
Proof.
  eexists. split; [|split; [|]].
  - eapply rtc_l; [by apply (BeginRead _ 0)|]. eapply rtc_l; [by apply (BeginRead_free _ 0)|].
    eapply rtc_l; [by apply BeginWrite|]. eapply rtc_l; [by apply (BeginRead_add _ 0)|].
    eapply rtc_l; [by apply (BeginRead_back _ 0)|]. eapply rtc_l; [by apply (BeginRead_sub _ 0)|].
    eapply rtc_l; [by apply BeginWrite_done|]. eapply rtc_l; [by apply EndWrite|].
    eapply rtc_l; [by apply (BeginRead_free_again _ 0)|]. eapply rtc_l; [by apply BeginWrite|].
    eapply rtc_l; [by apply BeginWrite_done|]. apply rtc_once. by apply (BeginRead_add_again _ 0).
  - reflexivity.
  - reflexivity.
Qed.

(** A snapshot that has waited for a writer to leave. *)
Lemma barrier_excludes_first_witness :
  rtc barrier_step (Barrier_new 1) (mkBarrier 0 true [RIdle] WInside) ∧
  b_threads (mkBarrier 0 true [RIdle] WInside) !! 0%nat ≠ Some (RInside false).
Proof.
  assert (rtc barrier_step (Barrier_new 1) (mkBarrier 0 true [RIdle] WInside)) as H.
  { eapply rtc_l; [by apply (BeginRead _ 0)|]. eapply rtc_l; [by apply (BeginRead_free _ 0)|].
    eapply rtc_l; [by apply (BeginRead_add _ 0)|]. eapply rtc_l; [by apply (BeginRead_done _ 0)|].
    eapply rtc_l; [by apply BeginWrite|]. eapply rtc_l; [by apply (EndRead _ 0 false)|].
    eapply rtc_last; [by apply BeginWrite_done|reflexivity]. }
  split; [exact H|]. apply (barrier_excludes_first 1 (mkBarrier 0 true [RIdle] WInside) 0); [by_decide|exact H|reflexivity].
Defined.
