(* ===== verification/GroupCommit.v ===== *)
(** * Group commit (src/server/raft/raft_node.cc, [SubmitEntry] and
    [CoordinatorCommit])

    Concurrent submissions share a commit: the first caller to find
    [group_active_] unset becomes the coordinator of a batch, those that come
    before it takes the batch over join, and it releases them all.  As in
    Concurrency.v the callers' critical sections are the steps, in any
    interleaving of any number of callers; what the rounds of the coordinator do
    to the node is the step [gc_apply], which moves [last_applied_] forward. *)

From stdpp Require Import relations.
From S2P Require Import Prelude.

(** A caller: before the entry is appended, before it joins or founds a group,
    coordinator before it takes over the batch, while it commits the batch, while
    it releases it, waiting on its condition variable, and returned. *)
Inductive phase : Type :=
  | PIdle
  | PAppended
  | PLeading
  | PCommitting (batch : list nat)
  | PReleasing (batch : list nat) (applied_snapshot : Z)
  | PWaiting
  | PReturned.

(** [RaftWaiter]: [w_res] is [None] until [done]. *)
Record Waiter : Type := mkWaiter {
  w_phase : phase;
  w_idx : Z;
  w_res : option bool
}.
#[export] Instance Waiter_eta : Eta Waiter := fun w => mkWaiter (w_phase w) (w_idx w) (w_res w).

Record Group : Type := mkGroup {
  gc_active : bool;
  gc_waiters : list nat;
  gc_last : Z;
  gc_applied : Z;
  gc_callers : list Waiter
}.
#[export] Instance Group_eta : Eta Group := fun g =>
  mkGroup (gc_active g) (gc_waiters g) (gc_last g) (gc_applied g) (gc_callers g).

Definition Group_new (callers : nat) : Group := mkGroup false [] 0 0 (replicate callers (mkWaiter PIdle 0 None)).

Definition set_phase (p : phase) (w : Waiter) : Waiter := w <| w_phase := p |>.

Abbreviation at_phase g i p := (w_phase <$> gc_callers g !! i = Some p).

(** The steps of the callers, and those of the node. *)
Inductive gc_work : Group → Group → Prop :=
  (* the locked part of SubmitEntry *)
  | gc_append g i :
      at_phase g i PIdle →
      gc_work g (g <| gc_last ::= Z.add 1 |>
                   <| gc_callers ::= alter (fun w => w <| w_phase := PAppended |> <| w_idx := gc_last g + 1 |>) i |>)
  | gc_join g i :
      at_phase g i PAppended → gc_active g = true →
      gc_work g (g <| gc_waiters ::= fun ws => ws ++ [i] |> <| gc_callers ::= alter (set_phase PWaiting) i |>)
  | gc_lead g i :
      at_phase g i PAppended → gc_active g = false →
      gc_work g (g <| gc_active := true |> <| gc_waiters ::= fun ws => ws ++ [i] |>
                   <| gc_callers ::= alter (set_phase PLeading) i |>)
  | gc_swap g i :
      at_phase g i PLeading →
      gc_work g (g <| gc_active := false |> <| gc_waiters := [] |>
                   <| gc_callers ::= alter (set_phase (PCommitting (gc_waiters g))) i |>)
  | gc_committed g i batch :
      at_phase g i (PCommitting batch) →
      gc_work g (g <| gc_callers ::= alter (set_phase (PReleasing batch (gc_applied g))) i |>)
  (* an exception *)
  | gc_failed g i batch :
      at_phase g i (PCommitting batch) →
      gc_work g (g <| gc_callers ::= alter (set_phase (PReleasing batch 0)) i |>)
  | gc_release g i k batch applied_snapshot :
      at_phase g i (PReleasing (k :: batch) applied_snapshot) →
      gc_work g (g <| gc_callers ::= alter (fun w => w <| w_res := Some (w_idx w <=? applied_snapshot) |>) k |>
                   <| gc_callers ::= alter (set_phase (PReleasing batch applied_snapshot)) i |>)
  (* done: return the result *)
  | gc_finish g i applied_snapshot r :
      at_phase g i (PReleasing [] applied_snapshot) → w_res <$> gc_callers g !! i = Some (Some r) →
      gc_work g (g <| gc_callers ::= alter (set_phase PReturned) i |>)
  | gc_wake g i r :
      at_phase g i PWaiting → w_res <$> gc_callers g !! i = Some (Some r) →
      gc_work g (g <| gc_callers ::= alter (set_phase PReturned) i |>)
  (* not done: applied by a concurrent commit, or another attempt *)
  | gc_applied_anyway g i applied_snapshot :
      at_phase g i (PReleasing [] applied_snapshot) → w_res <$> gc_callers g !! i = Some None →
      (from_option w_idx 0 (gc_callers g !! i) ≤ gc_applied g) →
      gc_work g (g <| gc_callers ::= alter (fun w => w <| w_phase := PReturned |> <| w_res := Some true |>) i |>)
  | gc_again g i applied_snapshot :
      at_phase g i (PReleasing [] applied_snapshot) → w_res <$> gc_callers g !! i = Some None →
      gc_applied g < from_option w_idx 0 (gc_callers g !! i) →
      gc_work g (g <| gc_callers ::= alter (set_phase PAppended) i |>).

Inductive gc_step : Group → Group → Prop :=
  | gc_caller g g' : gc_work g g' → gc_step g g'
  | gc_apply g applied : gc_applied g ≤ applied → gc_step g (g <| gc_applied := applied |>).

(** The members of a caller's batch. *)
Definition batch_of (w : Waiter) : list nat :=
  match w_phase w with PCommitting batch | PReleasing batch _ => batch | _ => [] end.

(** The caller has not joined a group. *)
Definition fresh (w : Waiter) : bool := match w_phase w with PIdle | PAppended => true | _ => false end.

(** Caller [i] has [k] in its batch. *)
Definition in_batch (g : Group) (i k : nat) : Prop :=
  ∃ w, gc_callers g !! i = Some w ∧ k ∈ batch_of w.

(** Who is to release caller [k]: the queue, which a coordinator is going to take
    over, or a coordinator that has it in its batch. *)
Definition owned (g : Group) (k : nat) : Prop := k ∈ gc_waiters g ∨ ∃ i, in_batch g i k.

Record gc_inv (g : Group) : Prop := {
  (* a coordinator is going to take the queue over exactly when the group is active *)
  gv_active : if gc_active g then ∃ i, at_phase g i PLeading else gc_waiters g = [] ∧ ∀ i, ¬ at_phase g i PLeading;
  gv_leader i j : at_phase g i PLeading → at_phase g j PLeading → i = j;
  (* who waits without a result is in the queue or in a batch *)
  gv_wait k w : gc_callers g !! k = Some w → w_phase w = PWaiting → w_res w = None → owned g k;
  (* a coordinator without a result is in its own batch *)
  gv_own k w : gc_callers g !! k = Some w → w_res w = None →
    match w_phase w with
    | PLeading => k ∈ gc_waiters g
    | PCommitting batch | PReleasing batch _ => k ∈ batch
    | PReturned => False
    | _ => True
    end;
  gv_fresh k w : gc_callers g !! k = Some w → fresh w = true → w_res w = None;
  gv_member k : owned g k → ∃ w, gc_callers g !! k = Some w ∧ fresh w = false;
  (* a positive result, and a snapshot, are not ahead of what is applied *)
  gv_ok k w : gc_callers g !! k = Some w → w_res w = Some true → w_idx w ≤ gc_applied g;
  gv_snapshot k w batch s : gc_callers g !! k = Some w → w_phase w = PReleasing batch s → s ≤ gc_applied g;
  gv_applied : 0 ≤ gc_applied g
}.

Lemma at_phase_inv g i p : at_phase g i p → ∃ w, gc_callers g !! i = Some w ∧ w_phase w = p.
Proof. intros (w & Hw & Hp)%fmap_Some. by exists w. Qed.

Lemma alter_lookup (f : Waiter → Waiter) (i : nat) (l : list Waiter) (k : nat) w' :
  alter f i l !! k = Some w' → ∃ w, l !! k = Some w ∧ w' = if decide (k = i) then f w else w.
Proof.
  destruct (decide (k = i)) as [->|Hne].
  - rewrite list_lookup_alter_eq. intros (w & Hw & ->)%fmap_Some. by exists w.
  - rewrite list_lookup_alter_ne by done. intros Hw. by exists w'.
Qed.

Lemma alter_lookup_2 (f : Waiter → Waiter) (i : nat) (l : list Waiter) (k : nat) w :
  l !! k = Some w → alter f i l !! k = Some (if decide (k = i) then f w else w).
Proof.
  intros Hw. destruct (decide (k = i)) as [->|Hne]; [by rewrite list_lookup_alter_eq, Hw|by rewrite list_lookup_alter_ne].
Qed.

Lemma gc_inv_new callers : gc_inv (Group_new callers).
Proof.
  assert (∀ k w, gc_callers (Group_new callers) !! k = Some w → w = mkWaiter PIdle 0 None) as H.
  { intros k w Hk. by apply lookup_replicate in Hk as [-> _]. }
  split; try done; simpl.
  - split; [done|]. intros i (w & Hw & Hp)%fmap_Some. by rewrite (H i w Hw) in Hp.
  - intros i j (w & Hw & Hp)%fmap_Some. by rewrite (H i w Hw) in Hp.
  - intros k w Hk. by rewrite (H k w Hk).
  - intros k w Hk. by rewrite (H k w Hk).
  - intros k w Hk. by rewrite (H k w Hk).
  - intros k [Hk|(j & w & Hj & Hk)]; [by apply not_elem_of_nil in Hk|].
    rewrite (H j w Hj) in Hk. by apply not_elem_of_nil in Hk.
  - intros k w Hk. by rewrite (H k w Hk).
  - intros k w b s Hk. by rewrite (H k w Hk).
Qed.

(** A step that changes caller [i] from [w] to [f w] and the queue to [ws], and
    loses no one. *)
Lemma gc_inv_change g i w f active ws last :
  gc_inv g → gc_callers g !! i = Some w →
  let g' := mkGroup active ws last (gc_applied g) (alter f i (gc_callers g)) in
  (* the coordinator *)
  (if active then ∃ j, at_phase g' j PLeading else ws = [] ∧ ∀ j, ¬ at_phase g' j PLeading) →
  (∀ j k, at_phase g' j PLeading → at_phase g' k PLeading → j = k) →
  (* no one is lost *)
  (∀ k x, gc_callers g !! k = Some x → w_res x = None → k ∈ gc_waiters g ++ batch_of w → k ∈ ws ++ batch_of (f w)) →
  (∀ k, k ∈ ws ++ batch_of (f w) → k ∈ gc_waiters g ++ batch_of w ∨ (k = i ∧ fresh (f w) = false)) →
  (∀ k, k ≠ i → at_phase g k PLeading → gc_waiters g ⊆ ws) →
  (* the caller itself *)
  (w_phase (f w) = PWaiting → w_res (f w) = None → i ∈ ws ++ batch_of (f w)) →
  (w_res (f w) = None → match w_phase (f w) with
    | PLeading => i ∈ ws | PCommitting b | PReleasing b _ => i ∈ b | PReturned => False | _ => True end) →
  (fresh (f w) = true → w_res (f w) = None ∧ fresh w = true) →
  (w_res (f w) = Some true → w_idx (f w) ≤ gc_applied g) →
  (∀ b s, w_phase (f w) = PReleasing b s → s ≤ gc_applied g) →
  gc_inv g'.
Proof.
  intros [Ha Hl Hw Ho Hf Hm Hok Hs H0] Hi g' Ha' Hl' Hlost Hmem Hlead Hw' Ho' Hf' Hok' Hs'.
  assert (∀ k y, gc_callers g !! k = Some y → w_res y = None → owned g k → owned g' k) as Hown.
  { intros k y Hy Hr [Hk|(j & x & Hj & Hk)].
    - specialize (Hlost k y Hy Hr ltac:(apply elem_of_app; by left)). apply elem_of_app in Hlost as [?|Hb]; [by left|].
      right. exists i, (f w). split; [|done]. cbn. by rewrite (alter_lookup_2 f i _ i w Hi), decide_True.
    - destruct (decide (j = i)) as [->|Hne].
      + assert (x = w) as -> by congruence. specialize (Hlost k y Hy Hr ltac:(apply elem_of_app; by right)).
        apply elem_of_app in Hlost as [?|Hb]; [by left|]. right. exists i, (f w). split; [|done]. cbn. by rewrite (alter_lookup_2 f i _ i w Hi), decide_True.
      + right. exists j, x. split; [|done]. cbn. by rewrite (alter_lookup_2 f i _ j x Hj), decide_False. }
  assert (∀ k, owned g' k → ∃ x, gc_callers g' !! k = Some x ∧ fresh x = false) as Hmem'.
  { intros k Hk. assert (owned g k ∨ (k = i ∧ fresh (f w) = false)) as [Hok1|[-> Hfr]].
    - destruct Hk as [Hk|(j & x & (y & Hy & ->)%alter_lookup & Hk)].
      + destruct (Hmem k ltac:(apply elem_of_app; by left)) as [[?|?]%elem_of_app|?]; [left; by left|left; right; by exists i, w|by right].
      + destruct (decide (j = i)) as [->|]; [|left; right; by exists j, y]. assert (y = w) as -> by congruence.
        destruct (Hmem k ltac:(apply elem_of_app; by right)) as [[?|?]%elem_of_app|?]; [left; by left|left; right; by exists i, w|by right].
    - destruct (Hm k Hok1) as (x & Hx & Hfx). exists (if decide (k = i) then f x else x). split; [by apply alter_lookup_2|].
      destruct (decide (k = i)) as [->|]; [|done]. assert (x = w) as -> by congruence.
      destruct (fresh (f w)) eqn:E; [|done]. destruct (Hf' eq_refl). congruence.
    - exists (f w). split; [|done]. cbn. by rewrite (alter_lookup_2 f i _ i w Hi), decide_True. }
  split; cbn [gc_active gc_waiters gc_last gc_applied gc_callers g'] in *; try done.
  all: intros k x (y & Hy & ->)%alter_lookup || intros k x b s (y & Hy & ->)%alter_lookup.
  all: destruct (decide (k = i)) as [->|Hne]; [assert (y = w) as -> by congruence|].
  - intros Hp Hr. specialize (Hw' Hp Hr). apply elem_of_app in Hw' as [?|?]; [by left|].
    right. exists i, (f w). split; [|done]. cbn. by rewrite (alter_lookup_2 f i _ i w Hi), decide_True.
  - intros Hp Hr. by apply (Hown k y), (Hw k y).
  - done.
  - intros Hr. specialize (Ho k y Hy Hr). destruct (w_phase y) eqn:Ep; try done.
    apply (Hlead k Hne); [by rewrite Hy; simpl; rewrite Ep|done].
  - intros Hfr. by apply Hf'.
  - by apply (Hf k y).
  - done.
  - by apply (Hok k y).
  - by apply Hs'.
  - by apply (Hs k y b s).
Qed.

(** Phases after a change of caller [i]. *)
Lemma at_phase_alter g active ws last applied f i w j p :
  gc_callers g !! i = Some w →
  at_phase (mkGroup active ws last applied (alter f i (gc_callers g))) j p ↔
    if decide (j = i) then w_phase (f w) = p else at_phase g j p.
Proof.
  intros Hi. cbn. destruct (decide (j = i)) as [->|Hne].
  - rewrite (alter_lookup_2 f i _ i w Hi), decide_True by done. simpl. split; [by intros [= ->]|by intros ->].
  - by rewrite list_lookup_alter_ne.
Qed.

(** The coordinator, when caller [i] does not become or cease to be one. *)
Lemma same_leader g active ws last applied f i w :
  gc_callers g !! i = Some w → w_phase w ≠ PLeading → w_phase (f w) ≠ PLeading → gc_inv g →
  (gc_active g = false → ws = []) → active = gc_active g →
  let g' := mkGroup active ws last applied (alter f i (gc_callers g)) in
  (if active then ∃ j, at_phase g' j PLeading else ws = [] ∧ ∀ j, ¬ at_phase g' j PLeading) ∧
  (∀ j k, at_phase g' j PLeading → at_phase g' k PLeading → j = k).
Proof.
  intros Hi Hw Hf Hinv Hws -> g'. assert (∀ j, at_phase g' j PLeading ↔ at_phase g j PLeading) as Hj.
  { intros j. unfold g'. rewrite (at_phase_alter g _ _ _ _ f i w j PLeading Hi). destruct (decide (j = i)) as [->|]; [|done].
    rewrite Hi. simpl. split; [done|intros [= ?]; done]. }
  split.
  - pose proof (gv_active g Hinv) as Ha. destruct (gc_active g); [destruct Ha as [j Ha]; exists j; by apply Hj|].
    split; [by apply Hws|]. intros j. rewrite Hj. apply Ha.
  - intros j k. rewrite !Hj. apply (gv_leader g Hinv).
Qed.

Lemma gc_inv_follow g i w f ws last :
  gc_inv g → gc_callers g !! i = Some w → w_phase w ≠ PLeading → w_phase (f w) ≠ PLeading →
  ws = gc_waiters g ∨ (ws = gc_waiters g ++ [i] ∧ gc_active g = true ∧ fresh (f w) = false) →
  (∀ k x, gc_callers g !! k = Some x → w_res x = None → k ∈ batch_of w → k ∈ batch_of (f w)) →
  batch_of (f w) ⊆ batch_of w →
  (w_phase (f w) = PWaiting → w_res (f w) = None → i ∈ ws) →
  (w_res (f w) = None → match w_phase (f w) with
    | PCommitting b | PReleasing b _ => i ∈ b | PReturned => False | _ => True end) →
  (fresh (f w) = true → w_res (f w) = None ∧ fresh w = true) →
  (w_res (f w) = Some true → w_idx (f w) ≤ gc_applied g) →
  (∀ b s, w_phase (f w) = PReleasing b s → s ≤ gc_applied g) →
  gc_inv (mkGroup (gc_active g) ws last (gc_applied g) (alter f i (gc_callers g))).
Proof.
  intros Hinv Hi Hp Hp' Hws Hlost Hmem Hw Ho Hf Hok Hs.
  destruct (same_leader g (gc_active g) ws last (gc_applied g) f i w Hi Hp Hp' Hinv) as [Ha Hl]; [|done|].
  { pose proof (gv_active g Hinv) as Ha. destruct Hws as [->|(-> & E & _)]; intros Hx; rewrite Hx in *; [by destruct Ha|done]. }
  assert (gc_waiters g ⊆ ws) as Hsub.
  { destruct Hws as [->|(-> & _)]; [done|]. intros k Hk. apply elem_of_app. by left. }
  apply (gc_inv_change g i w f); try done.
  - intros k x Hk Hr [Hx|Hx]%elem_of_app; apply elem_of_app; [left; by apply Hsub|right; by apply (Hlost k x)].
  - intros k [Hk|Hk]%elem_of_app; [|left; apply elem_of_app; right; by apply Hmem].
    destruct Hws as [->|(-> & _ & Hfr)]; [left; apply elem_of_app; by left|].
    apply elem_of_app in Hk as [Hk|Hk%list_elem_of_singleton]; [left; apply elem_of_app; by left|by right].
  - intros H1 H2. apply elem_of_app. left. by apply Hw.
  - intros Hr. specialize (Ho Hr). by destruct (w_phase (f w)).
Qed.

Lemma batch_of_phase w p : w_phase w = p → batch_of w = match p with PCommitting b | PReleasing b _ => b | _ => [] end.
Proof. intros <-. by destruct w as [[] ? ?]. Qed.

(** Destructs the premise that caller [i] is in a phase. *)
Ltac caller_at H := apply at_phase_inv in H as (w & Hi & Hp).

(** The side conditions of a step of the caller [w], in phase [Hp], which is
    owned by the part [Ho] of the invariant. *)
Ltac caller_side Hi Hp :=
  cbn [w_phase w_idx w_res set_phase set Waiter_eta]; unfold batch_of, fresh; cbn [w_phase w_idx w_res set_phase set Waiter_eta];
  rewrite ?Hp; try done; try congruence; try (intros; lia).

Lemma gc_inv_lead g i w :
  gc_inv g → gc_callers g !! i = Some w → w_phase w = PAppended → gc_active g = false →
  gc_inv (mkGroup true (gc_waiters g ++ [i]) (gc_last g) (gc_applied g) (alter (set_phase PLeading) i (gc_callers g))).
Proof.
  intros Hinv Hi Hp Ha. pose proof (gv_active g Hinv) as Hact. rewrite Ha in Hact. destruct Hact as [Hq Hno].
  assert (i ∈ gc_waiters g ++ [i]) as Hin by (apply elem_of_app; right; by apply list_elem_of_singleton).
  apply (gc_inv_change g i w (set_phase PLeading)); caller_side Hi Hp.
  - exists i. apply (at_phase_alter g _ _ _ _ (set_phase PLeading) i w i PLeading Hi). by rewrite decide_True.
  - intros j k Hj Hk. apply (at_phase_alter g _ _ _ _ (set_phase PLeading) i w j PLeading Hi) in Hj.
    apply (at_phase_alter g _ _ _ _ (set_phase PLeading) i w k PLeading Hi) in Hk.
    destruct (decide (j = i)), (decide (k = i)); [congruence|by destruct (Hno k)|by destruct (Hno j)|by destruct (Hno k)].
  - intros k x _ _ Hk. rewrite app_nil_r in *. apply elem_of_app. by left.
  - intros k Hk. rewrite app_nil_r in *. apply elem_of_app in Hk as [Hk|Hk%list_elem_of_singleton]; auto.
  - apply (gv_ok g Hinv i w Hi).
Qed.

Lemma gc_inv_swap g i w :
  gc_inv g → gc_callers g !! i = Some w → w_phase w = PLeading →
  gc_inv (mkGroup false [] (gc_last g) (gc_applied g) (alter (set_phase (PCommitting (gc_waiters g))) i (gc_callers g))).
Proof.
  intros Hinv Hi Hp. set (f := set_phase (PCommitting (gc_waiters g))).
  assert (at_phase g i PLeading) as Hlead by (rewrite Hi; simpl; by rewrite Hp).
  assert (∀ j, ¬ at_phase (mkGroup false [] (gc_last g) (gc_applied g) (alter f i (gc_callers g))) j PLeading) as Hno.
  { intros j Hj. apply (at_phase_alter g _ _ _ _ f i w j PLeading Hi) in Hj. destruct (decide (j = i)); [done|].
    by pose proof (gv_leader g Hinv i j Hlead Hj). }
  apply (gc_inv_change g i w f); unfold f in *; caller_side Hi Hp.
  - intros k x _ _. by rewrite app_nil_r.
  - intros k Hk. rewrite app_nil_r. by left.
  - intros k Hk Hlk. by pose proof (gv_leader g Hinv i k Hlead Hlk).
  - intros Hr. pose proof (gv_own g Hinv i w Hi Hr) as H. by rewrite Hp in H.
  - apply (gv_ok g Hinv i w Hi).
Qed.

Lemma gc_inv_release g i w k batch s :
  gc_inv g → gc_callers g !! i = Some w → w_phase w = PReleasing (k :: batch) s →
  gc_inv (g <| gc_callers ::= alter (fun w => w <| w_res := Some (w_idx w <=? s) |>) k |>
            <| gc_callers ::= alter (set_phase (PReleasing batch s)) i |>).
Proof.
  intros Hinv Hi Hp. set (done := fun w : Waiter => w <| w_res := Some (w_idx w <=? s) |>).
  pose proof (gv_snapshot g Hinv i w _ _ Hi Hp) as Hs.
  assert (owned g k) as Hown by (right; exists i, w; split; [done|]; unfold batch_of; rewrite Hp; by left).
  destruct (gv_member g Hinv k Hown) as (x & Hk & Hfx).
  set (g1 := mkGroup (gc_active g) (gc_waiters g) (gc_last g) (gc_applied g) (alter done k (gc_callers g))).
  assert (gc_inv g1) as Hinv1.
  { assert (∀ j p, at_phase g1 j p ↔ at_phase g j p) as Hph.
    { intros j p. unfold g1. rewrite (at_phase_alter g _ _ _ _ done k x j p Hk). destruct (decide (j = k)) as [->|]; [|done].
      rewrite Hk. simpl. split; [by intros ->|by intros [= ->]]. }
    apply (gc_inv_change g k x done); try done; fold g1.
    - pose proof (gv_active g Hinv) as Ha. destruct (gc_active g); [destruct Ha as [j Hj]; exists j; by apply Hph|].
      split; [apply Ha|]. intros j. rewrite Hph. apply Ha.
    - intros a b. rewrite !Hph. apply (gv_leader g Hinv).
    - intros j Hj. by left.
    - cbn. unfold fresh in *. cbn. congruence.
    - cbn. intros [= Hle]. apply Z.leb_le in Hle. lia.
    - cbn. intros b s'. apply (gv_snapshot g Hinv k x b s' Hk). }
  set (w1 := if decide (i = k) then done w else w).
  assert (gc_callers g1 !! i = Some w1) as Hi1 by (by apply alter_lookup_2).
  assert (w_phase w1 = PReleasing (k :: batch) s) as Hp1 by (unfold w1; by destruct (decide (i = k))).
  assert (w_res w1 = None → i ≠ k ∧ w_res w = None) as Hr1 by (unfold w1; by destruct (decide (i = k))).
  apply (gc_inv_follow g1 i w1 (set_phase (PReleasing batch s))); try done; caller_side Hi1 Hp1; [by left| | | | |].
  - intros j y (z & Hz & ->)%alter_lookup Hry Hj. apply elem_of_cons in Hj as [->|Hj]; [by rewrite decide_True in Hry|done].
  - intros j Hj. by apply elem_of_cons; right.
  - intros Hr. destruct (Hr1 Hr) as [Hne Hrw]. pose proof (gv_own g Hinv i w Hi Hrw) as H. rewrite Hp in H.
    apply elem_of_cons in H as [?|?]; done.
  - apply (gv_ok g1 Hinv1 i w1 Hi1).
  - intros b s' [= _ <-]. done.
Qed.

Lemma gc_inv_step g g' : gc_inv g → gc_step g g' → gc_inv g'.
Proof.
  intros Hinv Hstep. pose proof (gv_applied g Hinv) as H0.
  destruct Hstep as [g g' Hstep|g applied Ha].
  2: { destruct Hinv as [A B C D E M F G I]. split; try done; cbn in *; [intros k w Hk Hr; specialize (F k w Hk Hr)|intros k w b s Hk Hr; specialize (G k w b s Hk Hr)|]; lia. }
  destruct Hstep as [g i H|g i H Ha|g i H Ha|g i H|g i batch H|g i batch H|g i k batch s H|g i s r H Hr|g i r H Hr|g i s H Hr Hle|g i s H Hr Hlt].
  all: caller_at H; pose proof (gv_own g Hinv _ w Hi) as Hown; pose proof (gv_fresh g Hinv _ w Hi) as Hfr;
    pose proof (gv_ok g Hinv _ w Hi) as Hok; unfold fresh in Hfr; rewrite Hp in Hown, Hfr.
  - specialize (Hfr eq_refl).
    apply (gc_inv_follow g i w (fun w => w <| w_phase := PAppended |> <| w_idx := gc_last g + 1 |>)); caller_side Hi Hp. by left.
  - apply (gc_inv_follow g i w (set_phase PWaiting) (gc_waiters g ++ [i])); caller_side Hi Hp; [by right|].
    intros _ _. apply elem_of_app. right. by apply list_elem_of_singleton.
  - exact (gc_inv_lead g i w Hinv Hi Hp Ha).
  - exact (gc_inv_swap g i w Hinv Hi Hp).
  - apply (gc_inv_follow g i w (set_phase (PReleasing batch (gc_applied g)))); caller_side Hi Hp; [by left|].
    intros b s [= _ <-]. lia.
  - apply (gc_inv_follow g i w (set_phase (PReleasing batch 0))); caller_side Hi Hp. by left.
  - exact (gc_inv_release g i w k batch s Hinv Hi Hp).
  - rewrite Hi in Hr. injection Hr as Hr.
    apply (gc_inv_follow g i w (set_phase PReturned)); caller_side Hi Hp; by left.
  - rewrite Hi in Hr. injection Hr as Hr.
    apply (gc_inv_follow g i w (set_phase PReturned)); caller_side Hi Hp; by left.
  - rewrite Hi in Hr. injection Hr as Hr. by apply not_elem_of_nil in Hown.
  - rewrite Hi in Hr. injection Hr as Hr. by apply not_elem_of_nil in Hown.
Qed.

Lemma gc_inv_steps callers g : rtc gc_step (Group_new callers) g → gc_inv g.
Proof.
  intros Hr. pose proof (gc_inv_new callers) as H. induction Hr; [done|]. eauto using gc_inv_step.
Qed.

(** C13. A submission that returns OK has been applied: whatever the interleaving
    of submissions, coordinators and appliers, a caller is told OK only when
    [last_applied_] has reached the index that its entry was given. *)
Theorem group_commit_applied callers g k w :
  rtc gc_step (Group_new callers) g → gc_callers g !! k = Some w → w_res w = Some true → w_idx w ≤ gc_applied g.
Proof. intros Hr. apply (gv_ok g (gc_inv_steps callers g Hr)). Qed.

(** ** Termination *)

(** What a caller has still to do. *)
Definition weight (w : Waiter) : nat :=
  match w_phase w with
  | PIdle => 8
  | PAppended => 7
  | PLeading => 4
  | PCommitting batch => 3 + length batch
  | PReleasing batch _ => 2 + length batch
  | PWaiting => 1
  | PReturned => 0
  end.

Definition gc_measure (g : Group) : nat := length (gc_waiters g) + sum_list_with weight (gc_callers g).

Lemma sum_alter f (i : nat) (l : list Waiter) w :
  l !! i = Some w → (sum_list_with weight (alter f i l) + weight w = sum_list_with weight l + weight (f w))%nat.
Proof.
  revert i. induction l as [|x l IH]; intros i Hi; [done|]. destruct i as [|i]; simpl in Hi.
  - injection Hi as ->. change (alter f 0%nat (w :: l)) with (f w :: l). simpl. lia.
  - specialize (IH i Hi). change (alter f (S i) (x :: l)) with (x :: alter f i l). simpl. lia.
Qed.

(** A step by the caller [i] alone. *)
Lemma measure_alter g active ws last applied f (i : nat) w :
  gc_callers g !! i = Some w →
  (length ws + weight (f w) < length (gc_waiters g) + weight w)%nat →
  (gc_measure (mkGroup active ws last applied (alter f i (gc_callers g))) < gc_measure g)%nat.
Proof. intros Hi Hlt. unfold gc_measure. cbn [gc_waiters gc_callers]. pose proof (sum_alter f i (gc_callers g) w Hi). lia. Qed.

Lemma gc_work_measure g g' : gc_inv g → gc_work g g' → (gc_measure g' < gc_measure g)%nat.
Proof.
  intros Hinv Hstep.
  destruct Hstep as [g i H|g i H Ha|g i H Ha|g i H|g i batch H|g i batch H|g i k batch s H|g i s r H Hr|g i r H Hr|g i s H Hr Hle|g i s H Hr Hlt].
  all: caller_at H; pose proof (gv_own g Hinv _ w Hi) as Hown; rewrite Hp in Hown.
  all: try (apply (measure_alter g _ _ _ _ _ i w Hi); unfold weight; rewrite Hp; cbn; rewrite ?length_app; simpl; lia).
  - set (done := fun w : Waiter => w <| w_res := Some (w_idx w <=? s) |>).
    assert (owned g k) as Hk by (right; exists i, w; split; [done|]; unfold batch_of; rewrite Hp; by left).
    destruct (gv_member g Hinv k Hk) as (x & Hx & _). pose proof (sum_alter done k (gc_callers g) x Hx) as S1.
    pose proof (alter_lookup_2 done k (gc_callers g) i w Hi) as Hi1. set (w1 := if decide (i = k) then done w else w) in *.
    assert (w_phase w1 = w_phase w) as Hp1 by (unfold w1; by destruct (decide (i = k))).
    pose proof (sum_alter (set_phase (PReleasing batch s)) i (alter done k (gc_callers g)) w1 Hi1) as S2.
    change (weight (done x)) with (weight x) in S1. unfold weight at 2 4 in S2. rewrite Hp1, Hp in S2. cbn [set_phase w_phase set Waiter_eta length] in S2.
    unfold gc_measure. cbn. unfold done in *. lia.
  - rewrite Hi in Hr. injection Hr as Hr. specialize (Hown Hr). by apply not_elem_of_nil in Hown.
Qed.

(** A coordinator can always go on. *)
Lemma batch_work g i w k : gc_inv g → gc_callers g !! i = Some w → k ∈ batch_of w → ∃ g', gc_work g g'.
Proof.
  intros Hinv Hi Hk. unfold batch_of in Hk. destruct (w_phase w) as [| | |batch|batch s| |] eqn:Hp; try by apply not_elem_of_nil in Hk.
  - eexists. apply (gc_committed g i batch). by rewrite Hi; simpl; rewrite Hp.
  - destruct batch as [|x batch]; [by apply not_elem_of_nil in Hk|]. eexists. apply (gc_release g i x batch s). by rewrite Hi; simpl; rewrite Hp.
Qed.

(** C12. Group commit terminates, and leaves no one behind: as long as a caller
    has not returned, one of the callers can take a step, and every step of a
    caller decreases a measure that is at most eight for every caller at the
    beginning.  In particular no waiter is lost when a coordinator takes a batch
    over, and the attempts after the first are never needed. *)
Theorem group_commit_terminates callers g k w :
  rtc gc_step (Group_new callers) g → gc_callers g !! k = Some w → w_phase w ≠ PReturned →
  (∃ g', gc_work g g') ∧ (∀ g', gc_work g g' → (gc_measure g' < gc_measure g)%nat) ∧
  (gc_measure g ≤ 8 * callers)%nat.
Proof.
  intros Hr Hk Hp. pose proof (gc_inv_steps callers g Hr) as Hinv. split; [|split; [intros g'; by apply gc_work_measure|]].
  - assert (∀ p, w_phase w = p → at_phase g k p) as Hat by (intros p <-; by rewrite Hk).
    destruct (w_phase w) as [| | |batch|batch s| |] eqn:E; try done.
    + eexists. by apply gc_append, Hat.
    + destruct (gc_active g) eqn:Ha; eexists; [apply (gc_join g k)|apply (gc_lead g k)]; auto.
    + eexists. by apply gc_swap, Hat.
    + eexists. by apply (gc_committed g k batch), Hat.
    + destruct batch as [|x batch]; [|eexists; by apply (gc_release g k x batch s), Hat].
      destruct (w_res w) as [r|] eqn:Er; [eexists; apply (gc_finish g k s r); [by apply Hat|by rewrite Hk; simpl; rewrite Er]|].
      pose proof (gv_own g Hinv k w Hk Er) as Ho. rewrite E in Ho. by apply not_elem_of_nil in Ho.
    + destruct (w_res w) as [r|] eqn:Er; [eexists; apply (gc_wake g k r); [by apply Hat|by rewrite Hk; simpl; rewrite Er]|].
      destruct (gv_wait g Hinv k w Hk E Er) as [Hq|(i & x & Hi & Hb)]; [|by apply (batch_work g i x k)].
      pose proof (gv_active g Hinv) as Ha. destruct (gc_active g).
      * destruct Ha as [i Hi]. eexists. by apply (gc_swap g i).
      * destruct Ha as [Hq0 _]. rewrite Hq0 in Hq. by apply not_elem_of_nil in Hq.
  - remember (Group_new callers) as g0 eqn:E0. assert (gc_measure g0 = 8 * callers)%nat as E.
    { subst. unfold gc_measure, Group_new. cbn [gc_waiters gc_callers length]. clear. induction callers as [|c IH]; [done|].
      change (weight (mkWaiter PIdle 0 None) + sum_list_with weight (replicate c (mkWaiter PIdle 0 None)) = 8 * S c)%nat.
      change (weight (mkWaiter PIdle 0 None)) with 8%nat. lia. }
    rewrite <-E. assert (gc_inv g0) as H0 by (subst; apply gc_inv_new). clear E E0 Hinv Hk Hp.
    induction Hr as [|g0 g1 g2 H1 _ IH]; [done|]. specialize (IH (gc_inv_step _ _ H0 H1)).
    destruct H1 as [g0 g1 H1|]; [pose proof (gc_work_measure _ _ H0 H1); lia|done].
Qed.

(** ** Example *)

(** Two callers; the second joins the batch of the first. *)
Definition example_released : Group :=
  mkGroup false [] 2 2 [mkWaiter (PReleasing [] 2) 1 (Some true); mkWaiter PWaiting 2 (Some true)].

Lemma example_run : rtc gc_step (Group_new 2) example_released.
Proof.
  eapply rtc_l; [by apply gc_caller, (gc_append _ 0)|]. eapply rtc_l; [by apply gc_caller, (gc_lead _ 0)|].
  eapply rtc_l; [by apply gc_caller, (gc_append _ 1)|]. eapply rtc_l; [by apply gc_caller, (gc_join _ 1)|].
  eapply rtc_l; [by apply gc_caller, (gc_swap _ 0)|]. eapply rtc_l; [by apply (gc_apply _ 2)|].
  eapply rtc_l; [by apply gc_caller, (gc_committed _ 0 [0%nat; 1%nat])|].
  eapply rtc_l; [by apply gc_caller, (gc_release _ 0 0 [1%nat] 2)|].
  eapply rtc_l; [by apply gc_caller, (gc_release _ 0 1 [] 2)|]. cbn. apply rtc_refl.
Qed.

Lemma group_commit_applied_witness : w_idx (mkWaiter PWaiting 2 (Some true)) ≤ gc_applied example_released.
Proof. exact (group_commit_applied 2 example_released 1 (mkWaiter PWaiting 2 (Some true)) example_run eq_refl eq_refl). Defined.

Lemma group_commit_terminates_witness : ∃ g', gc_work example_released g'.
Proof.
  destruct (group_commit_terminates 2 example_released 1 (mkWaiter PWaiting 2 (Some true)) example_run eq_refl) as [H _]; [discriminate|exact H].
Defined.
