(* ===== verification/Engine.v ===== *)
(** * The engine and its groups

    src/server/raft/raft_engine.cc, raft_group.cc, raft_group_manager.cc,
    shard_router.h: [RaftEngine] submits commands to the node of its group and
    reads through it; [RaftGroupManager] keeps several groups; [ShardRouter] maps
    keys to groups.  Theorems: on a node that leads alone every write command is
    executed on the state machine exactly as it was given, and linearizable reads
    are served from the applied state; a group made by the manager does not know
    its own id. *)

From S2P Require Import Prelude Absl RaftTypes LogStorage StateMachine RaftStorage CommandEncoder CommandLog DbSlice KvStateMachine RaftNode Replication Recovery FollowerLog SoloLeader.

(** The clock and the other nodes, as an operation finds them. *)
Record Net : Type := mkNet {
  net_now : Z;
  net_send : NodeId → AppendEntriesRequest → AppendEntriesResponse;
  net_send_snapshot : NodeId → Z → Z → bool;
  net_read_index : NodeId → ReadIndexRequest → ReadIndexResponse
}.

Section engine.
Context {lib : KvLib} {L : Type} `{!LogStorage L}.
Implicit Types (n : RaftNode L KvStateMachine) (net : Net).

(** ** Reads *)

Definition kWaitForAppliedTimeoutMs : Z := 5000.

(** [WaitForApplied] when nothing else runs on the node: the clock advances by
    the sleep of one millisecond per turn, so the deadline bounds the turns. *)
Fixpoint wait_for_applied (fuel : nat) n (now deadline target : Z) : RaftNode L KvStateMachine :=
  let '(n, reached) := WaitForApplied_poll n now target in
  if reached || (deadline <? now) then n
  else match fuel with
  | O => n
  | S fuel => wait_for_applied fuel n (now + 1) deadline target
  end.

Definition WaitForApplied n (now target : Z) : RaftNode L KvStateMachine :=
  wait_for_applied (S (Z.to_nat kWaitForAppliedTimeoutMs)) n now (now + kWaitForAppliedTimeoutMs) target.

(** The three phases of [RaftNode::ReadIndex] when nothing else runs on the node
    meanwhile. *)
Definition confirm_leadership net n : RaftNode L KvStateMachine * Z :=
  match ReadIndex_begin n (net_now net) with
  | (n, RINotLeader) => (n, 0)
  | (n, RIFast read_index) => (n, read_index)
  | (n, RISlow req peers) =>
      let peers := if n_transport n then peers else [] in
      let t := fold_left (λ t p, tally_read_index req t (net_read_index net p req)) peers (1, rreq_term req) in
      ReadIndex_finish n (net_now net) req t
  end.

Definition ReadIndex net n : RaftNode L KvStateMachine * Z :=
  let '(n, read_index) := confirm_leadership net n in
  (if 0 <? read_index then WaitForApplied n (net_now net) read_index else n, read_index).

(** An operation on the state machine of the engine. *)
Definition on_kv {A} n (dflt : A) (f : KvStateMachine → KvStateMachine * A) : RaftNode L KvStateMachine * A :=
  match n_state_machine n with
  | None => (n, dflt)
  | Some kv => let '(kv, a) := f kv in (n <| n_state_machine := Some kv |>, a)
  end.

(** [None] is [KEY_NOTFOUND]. *)
Definition RaftEngine_Get net n (key : bytes) (consistency : ReadConsistency) : RaftNode L KvStateMachine * option bytes :=
  let read n := on_kv n None (λ kv, kv_Get kv 0 key) in
  match consistency with
  | kLocal => read n
  | kLinearizable =>
      let '(n, ri) := ReadIndex net n in
      if ri =? 0 then (n, None) else read n
  end.

Definition RaftEngine_Expire n (key : bytes) (expire_at_ms : Z) : RaftNode L KvStateMachine * bool :=
  on_kv n false (λ kv, kv_Expire kv 0 key expire_at_ms).

Definition RaftEngine_DbSize n : Z :=
  match n_state_machine n with Some kv => kv_DbSize kv 0 | None => 0 end.

(** ** Writes *)

Definition RaftEngine_SubmitCommand net n (name : bytes) (opt_mask : Z) (args : list bytes)
    : RaftNode L KvStateMachine * ApplyResult :=
  match Encode name opt_mask args with
  | None => on_kv n (mkApplyResult ERROR 0) (λ kv, kv_Apply kv name args)
  | Some cmd =>
      SubmitEntry n (net_now net) (net_send net) (net_send_snapshot net)
        (mkLogEntry 0 0 (ReplicatedCommand_Serialize cmd))
  end.
End engine.

(** [RaftEngine(shard_set, pp)], with the in-memory log of [RaftGroup(0)]. *)
Definition RaftEngine_new (kv : KvStateMachine) : RaftNode CommandLog KvStateMachine :=
  (RaftNode_new []) <| n_log_storage := Some CommandLog_new |> <| n_group_id := 0 |>
    <| n_state_machine := Some kv |>.

(** ** The manager of groups *)

Section groups.
Context {L : Type} `{!LogStorage L} {SM : Type} `{!StateMachine SM}.

(** [RaftGroup(group_id)]: the node gets the log [l]; it keeps its own default
    group id and has no state machine. *)
Definition RaftGroup_new (l : L) : RaftNode L SM := (RaftNode_new []) <| n_log_storage := Some l |>.

Definition RaftGroup_Shutdown (n : RaftNode L SM) : RaftNode L SM :=
  (Shutdown n) <| n_log_storage ::= fmap (λ l, (Flush l).1) |>.

(** The map from group ids to groups. *)
Abbreviation Groups := (gmap Z (RaftNode L SM)).

Definition CreateGroup (groups : Groups) (l : L) (group_id : Z) : Groups * bool :=
  match groups !! group_id with
  | Some _ => (groups, false)
  | None => (<[group_id := RaftGroup_new l]> groups, true)
  end.

Definition GetGroup (groups : Groups) (group_id : Z) : option (RaftNode L SM) := groups !! group_id.

Definition LeaderCount (groups : Groups) : nat :=
  length (filter (λ g : Z * RaftNode L SM, n_role g.2 = Leader) (map_to_list groups)).

(** The group is shut down, then destroyed. *)
Definition RemoveGroup (groups : Groups) (group_id : Z) : Groups := delete group_id groups.

Definition GetAllGroupIds (groups : Groups) : list Z := (map_to_list groups).*1.
End groups.

(** ** ShardRouter *)

Definition HashSlot (key : bytes) : Z :=
  fold_left (λ hash c, u32 (u32 (u32 (Z.shiftl hash 5) + hash) + c)) key 5381.

(** [None]: division by zero. *)
Definition GetGroupForKey (num_groups : Z) (key : bytes) : option Z :=
  if num_groups =? 0 then None else Some (HashSlot key mod num_groups).

(** ** A node that leads alone *)

Section alone.
Context {lib : KvLib} {L : Type} `{!LogStorage L, !LogStorageSpec L}.
Implicit Types (n : RaftNode L KvStateMachine) (net : Net) (a : alog) (sm : KvStateMachine).

Definition is_write (name : bytes) : Prop := name = str "SET" ∨ name = str "DEL" ∨ name = str "EXPIRE".

Lemma Encode_write name mask args :
  is_write name → Z.land mask CO_WRITE ≠ 0 →
  ∃ ty, Encode name mask args = Some (mkReplicatedCommand ty args).
Proof.
  intros Hn Hm. unfold Encode. rewrite (proj2 (Z.eqb_neq _ _) Hm).
  destruct Hn as [-> | [-> | ->]]; by eexists.
Qed.

(** The log entry of a command runs the command. *)
Lemma apply_encoded sm term index args :
  args ≠ [] → zlen (EncodeRespArray args) < U64_MAX →
  kv_ApplyLogEntry sm (mkLogEntry term index (EncodeRespArray args)) = apply_args sm args.
Proof.
  intros Ha Hl. unfold kv_ApplyLogEntry, apply_entry_command, entry_args. cbn [le_command].
  pose proof (ParseRespArray_Encode args []) as E. rewrite app_nil_r in E. rewrite E by done.
  cbn [andb]. by rewrite !bool_decide_false by (rewrite ?bool_decide_false by done; done).
Qed.

Lemma resp_not_config term index args : is_config (mkLogEntry term index (EncodeRespArray args)) = false.
Proof. unfold is_config. apply bool_decide_eq_false. intros [k Hk]. simpl in Hk. discriminate Hk. Qed.

(** [caught_up] for some log of the given length. *)
Definition leads_with n (len : Z) sm : Prop := ∃ a, caught_up n a sm ∧ al_last a = len.

Lemma SubmitCommand_alone net n len sm name mask args :
  leads_with n len sm → is_write name → Z.land mask CO_WRITE ≠ 0 → args ≠ [] →
  zlen (EncodeRespArray args) < U64_MAX → len + 1 < U64_MAX →
  let '(n', r) := RaftEngine_SubmitCommand net n name mask args in
  r = mkApplyResult OK 1 ∧ leads_with n' (len + 1) (apply_args sm args).1.
Proof.
  intros (a & Hc & <-) Hn Hm Ha Hl Hlen. unfold RaftEngine_SubmitCommand.
  destruct (Encode_write name mask args Hn Hm) as [ty ->]. unfold ReplicatedCommand_Serialize. cbn [rc_args].
  pose proof (SubmitEntry_run n a sm (net_now net) (net_send net) (net_send_snapshot net)
    (mkLogEntry 0 0 (EncodeRespArray args)) Hc (resp_not_config 0 0 args) Hlen) as H. cbv zeta in H.
  destruct (SubmitEntry _ _ _ _ _) as [n' r]. destruct H as (-> & _ & Hc'). split; [done|].
  eexists. split; [|apply al_last_append]. revert Hc'. unfold stored_entry. cbn [le_command ApplyLogEntry kv_state_machine].
  by rewrite apply_encoded.
Qed.

(** Nothing is left to apply, so waiting returns at once. *)
Lemma WaitForApplied_caught_up n a sm now target :
  caught_up n a sm → target ≤ al_last a → WaitForApplied n now target = n <| n_state_machine := Some sm |>.
Proof.
  intros [_ (l & Hl & _) Hsm _ Hc Ha _] Ht. unfold WaitForApplied. cbn [wait_for_applied]. unfold WaitForApplied_poll.
  rewrite (apply_none n sm l now Hl Hsm) by lia.
  change (n_last_applied (n <| n_state_machine := Some sm |>)) with (n_last_applied n).
  by rewrite Ha, (proj2 (Z.leb_le _ _) Ht).
Qed.

Lemma caught_up_frame n n' a sm sm' :
  caught_up n a sm → same_role n n' → n_log_storage n' = n_log_storage n → n_state_machine n' = Some sm' →
  n_aborted n' = n_aborted n → n_commit_index n' = n_commit_index n → n_last_applied n' = n_last_applied n →
  caught_up n' a sm'.
Proof.
  intros [H1 H2 H3 H4 H5 H6 H7] Hs El Esm Ea Ec Eap.
  split; [by apply (solo_same n)|by rewrite El|done|congruence..|done].
Qed.

(** [ReadIndex] of a node that leads alone is its commit index; nothing changes
    but the bookkeeping of the lease. *)
Lemma ReadIndex_alone net n a sm :
  caught_up n a sm → ∃ n', ReadIndex net n = (n', al_last a) ∧ caught_up n' a sm.
Proof.
  intros Hc. pose proof Hc as [Hso (l & Hl & Hr) Hsm _ Hci Hap _].
  assert (0 ≤ al_last a) as Hpos by (unfold al_last; pose proof (al_base_nonneg a (rep_wf l a Hr)); pose proof (zlen_nonneg (al_entries a)); lia).
  assert (∃ n1, caught_up n1 a sm ∧ confirm_leadership net n = (n1, al_last a)) as (n1 & Hc1 & E).
  { unfold confirm_leadership, ReadIndex_begin. rewrite bool_decide_true by apply Hso. cbn [negb].
    destruct (net_now net <? n_leader_lease_expire n); [exists n; by rewrite Hci|].
    cbv zeta. set (n0 := n <| n_next_read_index_request_id ::= λ r, u64 (r + 1) |>).
    change (GetPeerIdsLocked n0) with (GetPeerIdsLocked n). rewrite (solo_peers n Hso).
    assert (∀ b : bool, (if b then [] else @nil NodeId) = []) as Hb by (by intros []). rewrite Hb. cbn [fold_left].
    unfold ReadIndex_finish. cbn [rreq_term]. change (n_term n0) with (n_term n). rewrite Z.ltb_irrefl.
    rewrite bool_decide_true by exact (so_role n Hso). rewrite Z.eqb_refl. cbn [negb orb].
    unfold voters_size. change (n_cluster_config n0) with (n_cluster_config n). rewrite (so_voters n Hso).
    change (1 <? (Z.of_nat (size (∅ : gset NodeId)) + 1) / 2 + 1) with false. cbv iota.
    eexists. split; [|f_equal; exact Hci]. apply (caught_up_frame n _ a sm); [done| |reflexivity|exact Hsm|reflexivity..].
    unfold same_role. split_and!; reflexivity. }
  unfold ReadIndex. rewrite E. destruct (Z.ltb_spec 0 (al_last a)) as [Hlt|]; [|by exists n1].
  rewrite (WaitForApplied_caught_up n1 a sm) by (done || lia). eexists. split; [reflexivity|].
  apply (caught_up_frame n1 _ a sm); [done|unfold same_role; split_and!; reflexivity|reflexivity..].
Qed.

(** ** What clients of the engine see *)

(** A linearizable read after writes on a node that leads alone returns what
    a single map holds, once the log is not empty. *)
Theorem linearizable_get net n len sm f key :
  leads_with n len sm → 0 < len → kv_rep sm f →
  let '(n', v) := RaftEngine_Get net n key kLinearizable in
  v = (cell_get (fl_now f) (fl_map f !! key)).2 ∧ ∃ sm', leads_with n' len sm' ∧ kv_rep sm' (fl_cell f key (cell_get (fl_now f))).1.
Proof.
  intros (a & Hc & <-) Hlen Hrep. unfold RaftEngine_Get. destruct (ReadIndex_alone net n a sm Hc) as (n1 & -> & Hc1).
  rewrite (proj2 (Z.eqb_neq _ 0)) by lia. unfold on_kv. rewrite (cu_sm _ _ _ Hc1).
  destruct (Await_rep sm f key None _ _ Hrep (get_implements (kv_now sm) key)) as [Hr Hv].
  rewrite (kr_now _ _ Hrep) in Hr, Hv. unfold kv_Get. rewrite (kr_now _ _ Hrep).
  destruct (Await sm key None _) as [sm' v]. cbn [fst snd] in *. split; [done|]. exists sm'. split; [|done].
  exists a. split; [|done]. apply (caught_up_frame n1 _ a sm); [done| |reflexivity..].
  unfold same_role. split_and!; reflexivity.
Qed.

(** Before the first write the leader of a single-node cluster refuses every
    linearizable read, although it is the leader and may hold data (for example
    from a snapshot): [ReadIndex] returns its commit index, which is 0 then, and
    0 is also its value for "not the leader". *)
Theorem fresh_leader_refuses_reads net n a sm key :
  caught_up n a sm → al_last a = 0 →
  n_role n = Leader ∧ (ReadIndex net n).2 = 0 ∧ (RaftEngine_Get net n key kLinearizable).2 = None.
Proof.
  intros Hc Hz. destruct (ReadIndex_alone net n a sm Hc) as (n1 & E & _). rewrite Hz in E.
  split; [apply Hc|]. unfold RaftEngine_Get. by rewrite E.
Qed.
End alone.

(** ** Groups *)

Section group_ids.
Context {L SM : Type} `{!LogStorage L, !StateMachine SM}.
Implicit Types n : RaftNode L SM.

Lemma SetRoleLocked_group n r : n_group_id (SetRoleLocked n r) = n_group_id n ∧ n_role (SetRoleLocked n r) = r.
Proof.
  unfold SetRoleLocked, CancelTransferLocked, StopHeartbeat, StartHeartbeat. cbv zeta. destruct r;
  repeat match goal with |- context [if ?b then _ else _] => destruct b end; split_and!; reflexivity.
Qed.

(** A follower's vote request carries the group id of its node. *)
Lemma StartElection_group n :
  n_role n = Follower → n_shutdown n = false →
  ∃ n' req peers, StartElection_begin n = (n', Some (req, peers)) ∧ vreq_group_id req = n_group_id n.
Proof.
  intros Hr Hs. unfold StartElection_begin. rewrite Hs, Hr. cbv zeta.
  assert (n_group_id (BecomeCandidateLocked n) = n_group_id n ∧ n_role (BecomeCandidateLocked n) = Candidate) as [E1 E2].
  { unfold BecomeCandidateLocked. rewrite bool_decide_false by congruence. cbv zeta.
    match goal with |- context [SetRoleLocked ?m _] => destruct (SetRoleLocked_group m Candidate) as [-> ->] end.
    split; reflexivity. }
  rewrite bool_decide_true by done. cbn [negb]. eexists _, _, _. split; [reflexivity|]. exact E1.
Qed.

(** The node of a group that [CreateGroup] makes does not learn the id of
    the group: whatever the id, its vote requests carry group 0, so that with
    several groups they are routed to another group's node. *)
Theorem group_id_not_set (groups : gmap Z (RaftNode L SM)) (l : L) g :
  groups !! g = None →
  ∃ n n' req peers, (CreateGroup groups l g).1 !! g = Some n ∧
    StartElection_begin n = (n', Some (req, peers)) ∧ vreq_group_id req = 0.
Proof.
  intros Hg. unfold CreateGroup. rewrite Hg. cbn [fst].
  destruct (StartElection_group (RaftGroup_new l)) as (n' & req & peers & E & Hid); [reflexivity..|].
  exists (RaftGroup_new l), n', req, peers. rewrite lookup_insert_eq. split; [done|]. split; [exact E|exact Hid].
Qed.
End group_ids.

(** ** Examples *)

Section examples.
#[local] Existing Instance example_lib.

Definition example_net : Net :=
  mkNet 9 example_send (λ _ _ _, false) (λ _ _, mkReadIndexResponse 0 0 false 0).

Definition written_node : RaftNode CommandLog KvStateMachine :=
  (RaftEngine_SubmitCommand example_net solo_node (str "SET") CO_WRITE [str "SET"; str "a"; str "1"]).1.

Lemma linearizable_get_witness :
  (RaftEngine_Get example_net written_node (str "a") kLinearizable).2 = Some (str "1").
Proof.
  set (args := [str "SET"; str "a"; str "1"]).
  pose proof (linearizable_get example_net written_node 1 (apply_args (KvStateMachine_new 0 2) args).1
    (apply_args (mkFlatStore 0 ∅) args).1 (str "a")) as H.
  pose proof (SubmitCommand_alone example_net solo_node 0 (KvStateMachine_new 0 2) (str "SET") CO_WRITE args) as Hw.
  destruct (RaftEngine_Get _ _ _ _) as [n' v]. apply H; [|done|].
  - unfold written_node. fold args. destruct (RaftEngine_SubmitCommand _ _ _ _ _) as [n1 r].
    apply Hw; [exists alog_empty; split; [apply solo_node_caught_up|done]|by left|by_decide..].
  - apply apply_args_rep, kv_rep_new. lia.
Defined.

Lemma fresh_leader_refuses_reads_witness :
  n_role solo_node = Leader ∧ (ReadIndex example_net solo_node).2 = 0 ∧
  (RaftEngine_Get example_net solo_node (str "a") kLinearizable).2 = None.
Proof.
  apply (fresh_leader_refuses_reads example_net solo_node alog_empty (KvStateMachine_new 0 2)).
  - apply solo_node_caught_up.
  - done.
Defined.

Lemma group_id_not_set_witness :
  ∃ (n n' : RaftNode CommandLog KvStateMachine) req peers, (CreateGroup ∅ CommandLog_new 3).1 !! 3 = Some n ∧
    StartElection_begin n = (n', Some (req, peers)) ∧ vreq_group_id req = 0.
Proof. apply group_id_not_set. by_decide. Defined.
End examples.
