(* ===== verification/GroupRecovery.v ===== *)
(** * Storage of all groups (src/server/raft/raft_group_manager.cc, raft_group.cc)

    [InitAllStorage], [RecoverFromDisk] and [ShutdownAll] of the manager of groups.
    The directory of the groups is the list of its entries, a name and whether it
    is a directory, in the order in which [readdir] gives them; opening the log of
    a directory is a parameter. *)

From S2P Require Import Prelude RaftTypes LogStorage WalRecovery StateMachine RaftNode Recovery Engine CommandLog KvStateMachine.

(** [strtol(s, &end, 10)] with the test of the manager: digits were consumed, up to
    the end of the text, and the value is not negative.  The value saturates at
    [LONG_MAX]. *)
Definition LONG_MAX : Z := 9223372036854775807.

Definition strtol_all (s : bytes) : option Z :=
  '(neg, v) ← scan_decimal s;
  if negb (bool_decide (strtoull_end s = [])) then None
  else
    let gid := if (neg : bool) then Z.max (- v) (- LONG_MAX - 1) else Z.min v LONG_MAX in
    if gid <? 0 then None else Some gid.

(** The group id of a directory entry, for those that are not skipped. *)
Definition entry_group (e : bytes * bool) : option Z :=
  let '(name, is_dir) := e in
  if (zlen name <? 7) || negb (bool_decide (take 6 name = str "group_")) then None
  else if negb is_dir then None
  else u32 <$> strtol_all (drop 6 name).

Section manager.
Context {L : Type} `{!LogStorage L} {SM : Type} `{!StateMachine SM}.

(** [SegmentLogStorage(wal_dir).Open()]. *)
Context (open_wal : bytes → option L).
(** [std::make_unique<CommandLog>()], the log of a group without storage. *)
Context (mem_log : L).

Definition group_wal_dir (base_path : bytes) (group_id : Z) : bytes := group_dir base_path group_id ++ str "wal/".

(** [RaftGroup::InitStorage] without the fibers it starts; [owned]: the group has a
    state machine of its own. *)
Definition RaftGroup_InitStorage (owned : bool) (n : RaftNode L SM) (fs : files) (base_path : bytes) (group_id : Z)
    : RaftNode L SM * files * bool :=
  match open_wal (group_wal_dir base_path group_id) with
  | None => (n, fs, false)
  | Some l =>
      let '(n, fs, _) := InitStorage owned (n <| n_log_storage := Some l |>) fs base_path group_id in
      (n, fs, true)
  end.

Record Manager : Type := mkManager {
  gm_groups : gmap Z (RaftNode L SM);
  gm_owned : gset Z;   (* the groups that had [SetStateMachine] called *)
  gm_base_path : bytes;
  gm_files : files
}.
#[local] Instance Manager_eta : Eta Manager := fun m => mkManager (gm_groups m) (gm_owned m) (gm_base_path m) (gm_files m).

(** The first group that fails ends the loop; those before it have their storage. *)
Fixpoint init_groups (m : Manager) (base_path : bytes) (ids : list Z) : Manager * bool :=
  match ids with
  | [] => (m, true)
  | g :: ids =>
      match gm_groups m !! g with
      | None => init_groups m base_path ids
      | Some n =>
          let '(n, fs, ok) := RaftGroup_InitStorage (bool_decide (g ∈ gm_owned m)) n (gm_files m) base_path g in
          let m := m <| gm_groups ::= <[g := n]> |> <| gm_files := fs |> in
          if (ok : bool) then init_groups m base_path ids else (m, false)
      end
  end.

Definition InitAllStorage (m : Manager) (base_path : bytes) : Manager * bool :=
  init_groups (m <| gm_base_path := base_path |>) base_path (GetAllGroupIds (gm_groups m)).

Fixpoint recover_entries (m : Manager) (now : Z) (base_path : bytes) (entries : list (bytes * bool)) (recovered : Z)
    : Manager * Z :=
  match entries with
  | [] => (m, recovered)
  | e :: entries =>
      match entry_group e with
      | None => recover_entries m now base_path entries recovered
      | Some g =>
          let '(n, fs, ok) := RaftGroup_InitStorage false (RaftGroup_new mem_log) (gm_files m) base_path g in
          let m := m <| gm_files := fs |> in
          if (ok : bool) then
            let n := ReplayUnappliedLogs n now in
            recover_entries (m <| gm_groups ::= <[g := n]> |> <| gm_owned ::= (.∖ {[g]}) |>) now base_path entries (recovered + 1)
          else recover_entries m now base_path entries recovered
      end
  end.

(** [None]: there is no directory. *)
Definition RecoverFromDisk (m : Manager) (now : Z) (base_path : bytes) (dir : option (list (bytes * bool))) : Manager * Z :=
  let m := m <| gm_base_path := base_path |> in
  match dir with
  | None => (m, 0)
  | Some entries => recover_entries m now base_path entries 0
  end.

(** The groups are shut down, then destroyed: the manager, and the groups as they
    are left. *)
Definition ShutdownAll (m : Manager) : Manager * gmap Z (RaftNode L SM) :=
  (m <| gm_groups := ∅ |> <| gm_owned := ∅ |>, RaftGroup_Shutdown <$> gm_groups m).

(** ** Initialization *)

Lemma init_groups_dom base ids : ∀ m, dom (gm_groups (init_groups m base ids).1) = dom (gm_groups m).
Proof.
  induction ids as [|g ids IH]; intros m; [done|]. cbn [init_groups].
  destruct (gm_groups m !! g) as [n|] eqn:Hg; [|apply IH].
  destruct (RaftGroup_InitStorage _ _ _ _ _) as [[n' fs] ok].
  assert (Hd : dom (<[g := n']> (gm_groups m)) = dom (gm_groups m)).
  { apply dom_insert_lookup_L. by exists n. }
  destruct ok; [rewrite IH|]; exact Hd.
Qed.

Lemma InitStorage_ok o (n : RaftNode L SM) fs base g :
  (RaftGroup_InitStorage o n fs base g).2 = true ↔ is_Some (open_wal (group_wal_dir base g)).
Proof.
  unfold RaftGroup_InitStorage. destruct (open_wal _) as [l|].
  - destruct (InitStorage _ _ _ _ _) as [[n' fs'] mgr]. split; [by exists l|done].
  - split; [done|by intros []].
Qed.

Lemma init_groups_ok base ids : ∀ m, (∀ g, g ∈ ids → g ∈ dom (gm_groups m)) →
  (init_groups m base ids).2 = true ↔ ∀ g, g ∈ ids → is_Some (open_wal (group_wal_dir base g)).
Proof.
  induction ids as [|g ids IH]; intros m Hin; [split; [by intros _ g ?%not_elem_of_nil|done]|].
  cbn [init_groups]. pose proof (Hin g ltac:(by left)) as [n Hn]%elem_of_dom. rewrite Hn.
  pose proof (InitStorage_ok (bool_decide (g ∈ gm_owned m)) n (gm_files m) base g) as Hok.
  destruct (RaftGroup_InitStorage _ _ _ _ _) as [[n' fs] ok]. cbn [snd] in Hok. destruct ok.
  - rewrite IH.
    + split; [intros H h [->|Hh]%elem_of_cons; [by apply Hok|by apply H]|intros H h Hh; apply H; by right].
    + intros h Hh. change (h ∈ dom (<[g := n']> (gm_groups m))). rewrite dom_insert. apply elem_of_union_r.
      apply Hin. by right.
  - split; [done|]. intros H. apply Hok, H. by left.
Qed.

Lemma elem_of_GetAllGroupIds (groups : gmap Z (RaftNode L SM)) g : g ∈ GetAllGroupIds groups ↔ g ∈ dom groups.
Proof.
  unfold GetAllGroupIds. rewrite list_elem_of_fmap, elem_of_dom. split.
  - intros ([g' n] & -> & Hn). apply elem_of_map_to_list in Hn. by exists n.
  - intros [n Hn]. exists (g, n). split; [done|]. by apply elem_of_map_to_list.
Qed.

(** The manager reports success exactly if the log of every group can be opened,
    and keeps its groups. *)
Theorem InitAllStorage_spec m base :
  ((InitAllStorage m base).2 = true ↔ ∀ g, g ∈ dom (gm_groups m) → is_Some (open_wal (group_wal_dir base g))) ∧
  dom (gm_groups (InitAllStorage m base).1) = dom (gm_groups m).
Proof.
  unfold InitAllStorage. rewrite init_groups_dom. split; [|done]. rewrite init_groups_ok.
  - split; intros H g Hg; apply H; by apply elem_of_GetAllGroupIds.
  - intros g Hg. by apply elem_of_GetAllGroupIds.
Qed.

(** ** What recovery finds *)

(** The directory of a group, as [InitStorage] names it. *)
Definition group_entry (group_id : Z) : bytes * bool := (str "group_" ++ to_string group_id, true).

Lemma strtoull_end_to_string n : 0 ≤ n → strtoull_end (to_string n) = [].
Proof.
  intros Hn. rewrite <- (app_nil_r (to_string n)).
  rewrite strtoull_end_digits; [done| |by apply to_string_digits].
  by destruct (to_string_cons n) as (c & s & ->).
Qed.

Lemma entry_group_roundtrip g : 0 ≤ g ≤ U32_MAX → entry_group (group_entry g) = Some g.
Proof.
  intros Hg. unfold U32_MAX in Hg. unfold entry_group, group_entry.
  assert (Hlen : (zlen (str "group_" ++ to_string g) <? 7) = false).
  { rewrite zlen_app. destruct (to_string_cons g) as (c & s & ->). apply Z.ltb_ge. unfold zlen. simpl. lia. }
  rewrite Hlen. change (take 6 (str "group_" ++ to_string g)) with (str "group_").
  change (drop 6 (str "group_" ++ to_string g)) with (to_string g).
  rewrite bool_decide_eq_true_2 by done. cbn [orb negb].
  unfold strtol_all. rewrite <- (app_nil_r (to_string g)) at 1.
  rewrite scan_decimal_to_string; [|unfold U64_MAX; lia|done]. cbn [mbind option_bind].
  rewrite strtoull_end_to_string by lia.
  rewrite bool_decide_eq_true_2 by done. cbn [negb]. rewrite Z.min_l by (unfold LONG_MAX; lia).
  rewrite (proj2 (Z.ltb_ge _ _)) by lia. cbn. by rewrite u32_small by (unfold U32_MAX; lia).
Qed.

Lemma recover_snapshot_no_sm (n : RaftNode L SM) fs path :
  n_state_machine n = None → recover_snapshot n fs path = (n, fs).
Proof. intros Hn. unfold recover_snapshot. by rewrite Hn. Qed.

Lemma InitStorage_no_sm o (n : RaftNode L SM) fs base g : n_state_machine n = None →
  n_state_machine (InitStorage o n fs base g).1.1 = None ∧
  n_log_storage (InitStorage o n fs base g).1.1 = n_log_storage n.
Proof.
  intros Hn. unfold InitStorage, SetStoragePath. cbv zeta.
  rewrite recover_snapshot_no_sm by exact Hn.
  destruct (RaftSnapshotManager_new _ _ _) as [fs' mgr]. split; [exact Hn|reflexivity].
Qed.

(** Without a state machine there is nothing to replay to. *)
Lemma Replay_no_sm (n : RaftNode L SM) now : n_state_machine n = None → ReplayUnappliedLogs n now = n.
Proof. intros Hn. unfold ReplayUnappliedLogs. rewrite Hn. by destruct (n_log_storage n). Qed.

(** What the manager has for a group it found: the log of its directory, and no
    state machine. *)
Definition recovered_group (base : bytes) (n : RaftNode L SM) (g : Z) : Prop :=
  n_log_storage n = open_wal (group_wal_dir base g) ∧ n_state_machine n = None.

Lemma init_recovered fs base g : is_Some (open_wal (group_wal_dir base g)) →
  ∃ n fs', RaftGroup_InitStorage false (RaftGroup_new mem_log) fs base g = (n, fs', true) ∧ recovered_group base n g.
Proof.
  intros [l Hl]. unfold RaftGroup_InitStorage. rewrite Hl.
  destruct (InitStorage_no_sm false ((RaftGroup_new mem_log) <| n_log_storage := Some l |>) fs base g) as [Hs Hg];
    [reflexivity|].
  destruct (InitStorage _ _ _ _ _) as [[n fs'] mgr]. exists n, fs'. split; [done|].
  split; [|exact Hs]. rewrite Hl. exact Hg.
Qed.

Lemma recover_entries_spec now base entries : ∀ m k ids,
  omap entry_group entries = ids → (∀ g, g ∈ ids → is_Some (open_wal (group_wal_dir base g))) →
  (recover_entries m now base entries k).2 = k + zlen ids ∧
  (∀ g, g ∈ ids → ∃ n, gm_groups (recover_entries m now base entries k).1 !! g = Some n ∧ recovered_group base n g) ∧
  (∀ g, g ∉ ids → gm_groups (recover_entries m now base entries k).1 !! g = gm_groups m !! g).
Proof.
  induction entries as [|e entries IH]; intros m k ids Hids Hopen.
  { simpl in Hids. subst ids. split_and!; [unfold zlen; simpl; lia|by intros g ?%not_elem_of_nil|done]. }
  cbn [omap list_omap recover_entries] in *. destruct (entry_group e) as [g0|]; [|by apply IH].
  subst ids. destruct (init_recovered (gm_files m) base g0) as (n & fs & -> & Hrec); [apply Hopen; by left|].
  rewrite Replay_no_sm by apply Hrec.
  edestruct IH as (H1 & H2 & H3); [reflexivity|intros g Hg; apply Hopen; by right|].
  rewrite H1. split_and!; [unfold zlen; cbn [length]; lia| |].
  - intros g Hg. destruct (decide (g ∈ omap entry_group entries)) as [Hin|Hout]; [by apply H2|].
    apply elem_of_cons in Hg as [->|Hg]; [|done]. exists n. rewrite H3 by done.
    split; [|done]. apply lookup_insert_eq.
  - intros g [Hne Hg]%not_elem_of_cons. rewrite H3 by done. by apply lookup_insert_ne.
Qed.

(** The directory of the groups: one directory per group, in any order, among
    entries that are not directories of groups. *)
Definition groups_dir (ids : list Z) (entries : list (bytes * bool)) : Prop :=
  ∃ others, Forall (fun e => entry_group e = None) others ∧ entries ≡ₚ map group_entry ids ++ others.

Lemma groups_dir_omap ids entries : groups_dir ids entries → Forall (fun g => 0 ≤ g ≤ U32_MAX) ids →
  omap entry_group entries ≡ₚ ids.
Proof.
  intros (others & Hoth & ->) Hids. rewrite omap_app.
  assert (omap entry_group (map group_entry ids) = ids) as ->.
  { induction Hids as [|g ids Hg _ IH]; [done|]. cbn [map omap list_omap].
    rewrite entry_group_roundtrip by done. by rewrite IH. }
  assert (omap entry_group others = []) as ->; [|by rewrite app_nil_r].
  induction Hoth as [|e others He _ IH]; [done|]. cbn [omap list_omap]. by rewrite He.
Qed.

End manager.

(** ** On concrete directories *)

Definition example_open (dir : bytes) : option CommandLog := Some CommandLog_new.

#[local] Existing Instance example_lib.

Definition example_manager : Manager (L := CommandLog) (SM := KvStateMachine) := mkManager ∅ ∅ [] ∅.

Definition example_entries : list (bytes * bool) :=
  [(str ".", true); group_entry 12; (str "group_7", false); (str "group_x", true); group_entry 0; (str "lost", true)].


(** Two directories may stand for one group: the number is read without regard to
    leading zeros, and cut to 32 bits.  Both are counted, and the log of the
    group's own directory is opened twice. *)
Theorem group_directories_alias :
  let r := RecoverFromDisk example_open CommandLog_new example_manager 1000 (str "data")
             (Some [group_entry 1; (str "group_01", true); (str "group_4294967297", true)]) in
  r.2 = 3 ∧ dom (gm_groups r.1) = {[1]}.
Proof. split; vm_compute; reflexivity. Qed.
