(* ===== verification/Registry.v ===== *)
(** * The command table

    src/server/service/command_registry.h, command_registry.cc and
    [RegisterCommands] of main_service.cc: the commands of the server with their
    flags, arity and key positions, and the replies of the COMMAND family.  The
    hash table [cmd_map_] is the list of its entries in the order in which it is
    visited.  Theorem: every COMMAND reply is a well-formed RESP value that lists
    each command with exactly its flags. *)

From S2P Require Import Prelude Absl Sds DbSlice ReplyBuilder CommandEncoder.

(** ** Data *)

Definition CO_READONLY : Z := 1.
Definition CO_FAST : Z := 2.
Definition CO_LOADING : Z := 8.
Definition CO_DENYOOM : Z := 0x10.
Definition CO_STALE : Z := 0x20.
Definition CO_RANDOM : Z := 0x40.

Definition OptName (fl : Z) : bytes :=
  if fl =? CO_WRITE then str "write" else
  if fl =? CO_READONLY then str "readonly" else
  if fl =? CO_DENYOOM then str "denyoom" else
  if fl =? CO_FAST then str "fast" else
  if fl =? CO_STALE then str "stale" else
  if fl =? CO_LOADING then str "loading" else
  if fl =? CO_RANDOM then str "random" else [].

(** The methods that serve as handlers. *)
Inductive Handler : Type := HCommand | HPing | HSet | HGet | HDel | HExpire | HSave | HDebug | HInfo.

Record CommandId : Type := mkCommandId {
  ci_name : bytes;
  ci_opt_mask : Z;
  ci_arity : Z;
  ci_first_key : Z;
  ci_last_key : Z;
  ci_step_key : Z;
  ci_handler : Handler
}.

(** [absl::popcount] of 32 bits. *)
Definition OptCount (mask : Z) : Z :=
  fold_left (λ n i, n + if Z.testbit mask (Z.of_nat i) then 1 else 0) (seq 0 32) 0.

(** ** The table *)

Definition CommandRegistry : Type := list CommandId.

(** [emplace] keeps an entry that is already there. *)
Definition Find (reg : CommandRegistry) (cmd : bytes) : option CommandId :=
  find (λ cd, bool_decide (ci_name cd = cmd)) reg.

Definition register (reg : CommandRegistry) (cd : CommandId) : CommandRegistry :=
  match Find reg (ci_name cd) with Some _ => reg | None => reg ++ [cd] end.

Definition CommandRegistry_new : CommandRegistry :=
  [mkCommandId (str "COMMAND") (Z.lor (Z.lor CO_RANDOM CO_LOADING) CO_STALE) 0 0 0 0 HCommand].

Definition RegisterCommands (reg : CommandRegistry) : CommandRegistry :=
  fold_left register
    [mkCommandId (str "PING") (Z.lor CO_STALE CO_FAST) (-1) 0 0 0 HPing;
     mkCommandId (str "SET") (Z.lor CO_WRITE CO_DENYOOM) (-3) 1 1 1 HSet;
     mkCommandId (str "GET") (Z.lor CO_READONLY CO_FAST) 2 1 1 1 HGet;
     mkCommandId (str "DEL") CO_WRITE (-2) 1 1 1 HDel;
     mkCommandId (str "EXPIRE") CO_WRITE 3 1 1 1 HExpire;
     mkCommandId (str "SAVE") (Z.lor CO_WRITE CO_STALE) 1 0 0 0 HSave;
     mkCommandId (str "DEBUG") (Z.lor CO_RANDOM CO_READONLY) (-2) 0 0 0 HDebug;
     mkCommandId (str "INFO") (Z.lor (Z.lor CO_READONLY CO_LOADING) CO_STALE) (-1) 0 0 0 HInfo] reg.

(** ** COMMAND *)

(** [absl::StrCat] of a length-prefixed string, and of an integer line. *)
Definition bulk (s : bytes) : bytes := str "$" ++ to_string (zlen s) ++ CRLF ++ s ++ CRLF.
Definition int_line (z : Z) : bytes := str ":" ++ FastIntToBuffer z ++ CRLF.

(** The flags, from bit 0 on. *)
Definition flag_lines (mask : Z) : bytes :=
  fold_left (λ out i, if Z.land mask (Z.shiftl 1 (Z.of_nat i)) =? 0 then out
                      else out ++ str "+" ++ OptName (Z.shiftl 1 (Z.of_nat i)) ++ CRLF) (seq 0 32) [].

Definition command_entry (cd : CommandId) : bytes :=
  str "*6" ++ CRLF ++ bulk (ci_name cd) ++ int_line (ci_arity cd) ++
  str "*" ++ to_string (OptCount (ci_opt_mask cd)) ++ CRLF ++ flag_lines (ci_opt_mask cd) ++
  int_line (ci_first_key cd) ++ int_line (ci_last_key cd) ++ int_line (ci_step_key cd).

Definition CommandList (reg : CommandRegistry) : bytes :=
  fold_left (λ resp cd, resp ++ command_entry cd) reg (str "*" ++ to_string (zlen reg) ++ CRLF).

Definition CommandDoc (reg : CommandRegistry) : bytes :=
  fold_left (λ resp cd, resp ++ bulk (ci_name cd) ++ str "*10" ++ CRLF ++
      bulk (str "summary") ++ bulk [] ++ bulk (str "since") ++ bulk (str "1") ++
      bulk (str "group") ++ bulk (str "generic") ++ bulk (str "arguments") ++ str "*0" ++ CRLF ++
      bulk (str "subcommands") ++ str "*0" ++ CRLF)
    reg (str "*" ++ to_string (zlen reg * 2) ++ CRLF).

(** [names] are the upper-cased arguments from the third on; [Find(name.data())]
    sees them up to a NUL. *)
Definition CommandInfo (reg : CommandRegistry) (names : list bytes) : bytes :=
  match names with
  | [] => CommandList reg
  | _ => fold_left (λ resp name, resp ++ match Find reg (c_str name) with
                                         | Some cid => command_entry cid
                                         | None => str "$-1" ++ CRLF
                                         end)
           names (str "*" ++ to_string (zlen names) ++ CRLF)
  end.

Definition CommandCount (reg : CommandRegistry) : bytes := str ":" ++ to_string (zlen reg) ++ CRLF.

(** The handler, on the arguments of the command: the reply that it sends, an
    error text or a raw reply. *)
Definition Command (reg : CommandRegistry) (args : list bytes) : bytes + bytes :=
  let subcmd := match args with _ :: sub :: _ => sdstoupper sub | _ => [] end in
  if bool_decide (subcmd = str "DOCS") then inr (CommandDoc reg)
  else if bool_decide (subcmd = str "INFO") then inr (CommandInfo reg (sdstoupper <$> drop 2 args))
  else if bool_decide (subcmd = str "COUNT") then inr (CommandCount reg)
  else if bool_decide (subcmd = str "GETKEYS") then inl (str "ERR unknown subcommand 'COMMAND GETKEYS'")
  else if negb (bool_decide (subcmd = [])) then inl (str "ERR unknown subcommand 'COMMAND " ++ subcmd ++ str "'")
  else inr (CommandList reg).

(** ** The replies are RESP values *)

Inductive Resp : Type :=
  | RArray (l : list Resp)
  | RBulk (s : bytes)
  | RInt (z : Z)
  | RSimple (s : bytes)
  | RNull.

Fixpoint render (v : Resp) : bytes :=
  match v with
  | RArray l => str "*" ++ to_string (zlen l) ++ CRLF ++ concat (map render l)
  | RBulk s => bulk s
  | RInt z => int_line z
  | RSimple s => str "+" ++ s ++ CRLF
  | RNull => str "$-1" ++ CRLF
  end.

(** The bits of a mask, and what a command entry says. *)
Definition flags_of (mask : Z) : list Z :=
  filter (λ b, Z.land mask b ≠ 0) ((λ i, Z.shiftl 1 (Z.of_nat i)) <$> seq 0 32).

Definition command_value (cd : CommandId) : Resp :=
  RArray [RBulk (ci_name cd); RInt (ci_arity cd); RArray ((λ b, RSimple (OptName b)) <$> flags_of (ci_opt_mask cd));
          RInt (ci_first_key cd); RInt (ci_last_key cd); RInt (ci_step_key cd)].

Lemma land_bit mask i : 0 ≤ i → Z.land mask (Z.shiftl 1 i) = 0 ↔ Z.testbit mask i = false.
Proof.
  intros Hi. assert (∀ j, 0 ≤ j → Z.testbit (Z.shiftl 1 i) j = bool_decide (j = i)) as Hb.
  { intros j Hj. rewrite Z.shiftl_1_l, Z.pow2_bits_eqb by done. rewrite Z.eqb_sym. by apply eq_true_iff_eq; rewrite Z.eqb_eq, bool_decide_eq_true. }
  split.
  - intros E. apply (f_equal (λ z, Z.testbit z i)) in E. rewrite Z.land_spec, Hb, Z.bits_0 in E by done.
    by rewrite bool_decide_true, andb_true_r in E.
  - intros E. apply Z.bits_inj'. intros j Hj. rewrite Z.land_spec, Hb, Z.bits_0 by done.
    case_bool_decide; [subst; by rewrite E|apply andb_false_r].
Qed.

Lemma flags_fold mask bits : ∀ out n,
  fold_left (λ out i, if Z.land mask (Z.shiftl 1 (Z.of_nat i)) =? 0 then out
                      else out ++ str "+" ++ OptName (Z.shiftl 1 (Z.of_nat i)) ++ CRLF) bits out =
    out ++ concat (map render ((λ b, RSimple (OptName b)) <$>
      filter (λ b, Z.land mask b ≠ 0) ((λ i, Z.shiftl 1 (Z.of_nat i)) <$> bits))) ∧
  fold_left (λ n i, n + if Z.testbit mask (Z.of_nat i) then 1 else 0) bits n =
    n + zlen (filter (λ b, Z.land mask b ≠ 0) ((λ i, Z.shiftl 1 (Z.of_nat i)) <$> bits)).
Proof.
  induction bits as [|i bits IH]; intros out n; [by rewrite app_nil_r, Z.add_0_r|].
  cbn [fold_left fmap list_fmap]. rewrite filter_cons. pose proof (land_bit mask (Z.of_nat i)) as Hl.
  destruct (Z.eqb_spec (Z.land mask (Z.shiftl 1 (Z.of_nat i))) 0) as [E|E].
  - rewrite decide_False by tauto. rewrite (proj1 (Hl ltac:(lia)) E), Z.add_0_r. apply IH.
  - rewrite decide_True by done. destruct (Z.testbit mask (Z.of_nat i)) eqn:Et; [|by destruct E; apply Hl; [lia|]].
    destruct (IH (out ++ str "+" ++ OptName (Z.shiftl 1 (Z.of_nat i)) ++ CRLF) (n + 1)) as [-> ->].
    rewrite zlen_cons, <-app_assoc. split; [done|lia].
Qed.

(** The announced number of flags is the number of flags that follow. *)
Lemma command_entry_value cd : command_entry cd = render (command_value cd).
Proof.
  unfold command_entry, command_value, flag_lines, OptCount. destruct (flags_fold (ci_opt_mask cd) (seq 0 32) [] 0) as [-> ->].
  change (filter (λ b, Z.land (ci_opt_mask cd) b ≠ 0) ((λ i, Z.shiftl 1 (Z.of_nat i)) <$> seq 0 32)) with (flags_of (ci_opt_mask cd)).
  cbn [render map concat]. rewrite Z.add_0_l, app_nil_r. unfold zlen at 3. rewrite length_fmap. fold (zlen (flags_of (ci_opt_mask cd))).
  change (to_string (zlen [RBulk (ci_name cd); RInt (ci_arity cd); RArray ((λ b, RSimple (OptName b)) <$> flags_of (ci_opt_mask cd));
          RInt (ci_first_key cd); RInt (ci_last_key cd); RInt (ci_step_key cd)])) with (str "6").
  rewrite <-!app_assoc. done.
Qed.

(** Appending one rendered value per element. *)
Lemma fold_render {A} (f : A → bytes) (g : A → list Resp) l : ∀ acc,
  (∀ x, f x = concat (map render (g x))) →
  fold_left (λ resp x, resp ++ f x) l acc = acc ++ concat (map render (concat (map g l))).
Proof.
  induction l as [|x l IH]; intros acc Hf; cbn [fold_left map concat]; [by rewrite app_nil_r|].
  by rewrite IH, Hf, map_app, concat_app, app_assoc by done.
Qed.

Lemma concat_singletons {A B} (h : A → B) l : concat (map (λ x, [h x]) l) = map h l.
Proof. induction l; simpl; congruence. Qed.

Lemma render_array l : render (RArray l) = str "*" ++ to_string (zlen l) ++ CRLF ++ concat (map render l).
Proof. done. Qed.

Lemma zlen_map {A B} (h : A → B) l : zlen (map h l) = zlen l.
Proof. unfold zlen. by rewrite length_map. Qed.

Lemma CommandList_value reg : CommandList reg = render (RArray (map command_value reg)).
Proof.
  unfold CommandList. rewrite (fold_render _ (λ cd, [command_value cd])).
  - by rewrite concat_singletons, render_array, zlen_map, <-!app_assoc.
  - intros cd. by rewrite command_entry_value; cbn [map concat]; rewrite app_nil_r.
Qed.

(** What COMMAND DOCS says of a command. *)
Definition doc_value (cd : CommandId) : list Resp :=
  [RBulk (ci_name cd);
   RArray [RBulk (str "summary"); RBulk []; RBulk (str "since"); RBulk (str "1");
           RBulk (str "group"); RBulk (str "generic"); RBulk (str "arguments"); RArray [];
           RBulk (str "subcommands"); RArray []]].

Lemma zlen_docs reg : zlen (concat (map doc_value reg)) = zlen reg * 2.
Proof. induction reg as [|cd reg IH]; [done|]. cbn [map concat]. rewrite zlen_app, zlen_cons, IH. change (zlen (doc_value cd)) with 2. lia. Qed.

Lemma CommandDoc_value reg : CommandDoc reg = render (RArray (concat (map doc_value reg))).
Proof.
  unfold CommandDoc. rewrite (fold_render _ doc_value).
  - by rewrite render_array, zlen_docs, <-!app_assoc.
  - done.
Qed.

Definition info_value (reg : CommandRegistry) (name : bytes) : Resp :=
  match Find reg (c_str name) with Some cid => command_value cid | None => RNull end.

Lemma CommandInfo_value reg names :
  CommandInfo reg names =
    render (RArray (match names with [] => map command_value reg | _ => map (info_value reg) names end)).
Proof.
  destruct names as [|name names]; [apply CommandList_value|]. unfold CommandInfo.
  rewrite (fold_render _ (λ name, [info_value reg name])).
  - by rewrite concat_singletons, render_array, zlen_map, <-!app_assoc.
  - intros x. unfold info_value. cbn [map concat]. destruct (Find reg (c_str x)); rewrite app_nil_r; [apply command_entry_value|done].
Qed.

Lemma CommandCount_value reg : CommandCount reg = render (RInt (zlen reg)).
Proof.
  unfold CommandCount, render, int_line, FastIntToBuffer. rewrite (proj2 (Z.ltb_ge (zlen reg) 0)); [done|apply zlen_nonneg].
Qed.

(** Every reply of the COMMAND family is one well-formed RESP value: all the
    announced lengths are right, and each command is listed with its arity, its
    key positions and exactly the flags of its mask. *)
Theorem Command_reply_wellformed reg args reply :
  Command reg args = inr reply →
  ∃ v, reply = render v ∧
    match v with
    | RArray l => l = map command_value reg ∨ l = concat (map doc_value reg) ∨
                  l = map (info_value reg) (sdstoupper <$> drop 2 args)
    | RInt z => z = zlen reg
    | _ => False
    end.
Proof.
  unfold Command. cbv zeta.
  repeat (case_bool_decide; [try done; intros E; injection E as <-|]); cbn [negb]; try done.
  - exists (RArray (concat (map doc_value reg))). split; [apply CommandDoc_value|by auto].
  - eexists. split; [apply CommandInfo_value|]. simpl. destruct (sdstoupper <$> drop 2 args); auto.
  - exists (RInt (zlen reg)). split; [apply CommandCount_value|done].
  - exists (RArray (map command_value reg)). split; [apply CommandList_value|by auto].
Qed.

Lemma Command_reply_wellformed_witness :
  ∃ v, CommandInfo (RegisterCommands CommandRegistry_new) [str "GET"; str "NOPE"] = render v.
Proof.
  destruct (Command_reply_wellformed (RegisterCommands CommandRegistry_new)
    [str "command"; str "info"; str "get"; str "nope"] _ eq_refl) as (v & E & _).
  exists v. exact E.
Defined.
