(* ===== verification/DebugCmd.v ===== *)
(** * DEBUG (src/server/service/debugcmd.cc)

    [DebugCmd]: DEBUG HELP and DEBUG POPULATE, which splits the indices over the
    threads and sends them to the shards in batches of 32.  The fibers of the
    ranges run one after the other here.  Theorem: the distribution loses and
    repeats nothing, so the store gets exactly the keys that were asked for. *)

From S2P Require Import Prelude Absl RaftTypes StateMachine DbSlice KvStateMachine ReplyBuilder.

Definition kUintErr : bytes := str "value is out of range, must be positive".

Section debug.
Context {lib : KvLib}.
Implicit Types (sm : KvStateMachine) (prefix : bytes) (val_size : Z).

Definition populate_key prefix (i : Z) : bytes := prefix ++ str ":" ++ to_string i.

(** [val.resize(val_size, 'x')] of a shorter value. *)
Definition populate_value val_size (i : Z) : bytes :=
  let val := str "value:" ++ to_string i in
  if zlen val <? val_size then resize (Z.to_nat val_size) 120 val else val.

(** One turn of the loop of [DoPopulateBatch]. *)
Definition populate_one now prefix val_size (d : DbSlice) (i : Z) : DbSlice :=
  let key := populate_key prefix i in
  let '(d, res) := AddOrFind now d 0 key in
  if res : bool then set_value d 0 key (populate_value val_size i) else d.

Definition DoPopulateBatch now prefix val_size (d : DbSlice) (ps : list Z) : DbSlice :=
  fold_left (populate_one now prefix val_size) ps d.

(** A batch that is sent to the shard [sid]. *)
Definition run_batch prefix val_size sm (task : nat * list Z) : KvStateMachine :=
  sm <| kv_shards ::= alter (λ d, DoPopulateBatch (kv_now sm) prefix val_size d task.2) task.1 |>.

(** [ps] holds the unfinished batch of every shard; [sent] what has been sent. *)
Definition distribute_index sm prefix (acc : list (list Z) * list (nat * list Z)) (i : Z) :=
  let '(ps, sent) := acc in
  let sid := kv_Shard sm (populate_key prefix i) in
  let batch := default [] (ps !! sid) ++ [i] in
  if (length batch =? 32)%nat then (<[sid := []]> ps, sent ++ [(sid, batch)])
  else (<[sid := batch]> ps, sent).

(** [distribute_cb]: the batches in the order in which they are sent; the
    unfinished ones last. *)
Definition distribute sm prefix (from len : Z) : list (nat * list Z) :=
  let start := (replicate (length (kv_shards sm)) [], []) in
  let '(ps, sent) := fold_left (distribute_index sm prefix) (seqZ from len) start in
  sent ++ imap pair ps.

(** The [i]-th range starts at [i * batch_size]; the last takes the rest. *)
Definition populate_ranges (runners_count : nat) (total_count : Z) : list (Z * Z) :=
  let batch_size := total_count / Z.of_nat runners_count in
  let k := pred runners_count in
  ((λ i, (Z.of_nat i * batch_size, batch_size)) <$> seq 0 k) ++
    [(Z.of_nat k * batch_size, total_count - Z.of_nat k * batch_size)].

Definition populate_tasks sm prefix (runners_count : nat) (total_count : Z) : list (nat * list Z) :=
  concat ((λ r, distribute sm prefix r.1 r.2) <$> populate_ranges runners_count total_count).

(** [Populate]; [runners_count] is the number of threads of the pool. *)
Definition Populate sm (rb : ReplyBuilder) (runners_count : nat) (args : list bytes) : KvStateMachine * ReplyBuilder :=
  if (zlen args <? 3) || (5 <? zlen args) then
    (sm, SendError rb (str "Unknown subcommand or wrong number of arguments for 'populate'. Try DEBUG HELP."))
  else match atou64 (nth 2 args []) with
  | None => (sm, SendError rb kUintErr)
  | Some total_count =>
      let prefix := if 3 <? zlen args then nth 3 args [] else str "key" in
      match (if 4 <? zlen args then atou32 (nth 4 args []) else Some 0) with
      | None => (sm, SendError rb kUintErr)
      | Some val_size =>
          (fold_left (run_batch prefix val_size) (populate_tasks sm prefix runners_count total_count) sm, SendOk rb)
      end
  end.

Definition debug_help : list bytes :=
  [str "DEBUG <subcommand> [<arg> [value] [opt] ...]. Subcommands are:";
   str "POPULATE <count> [<prefix>] [<size>]";
   str "    Create <count> string keys named key:<num>. If <prefix> is specified then";
   str "    it is used instead of the 'key' prefix.";
   str "HELP";
   str "    Prints this help."].

Definition DebugCmd_Run sm (rb : ReplyBuilder) (runners_count : nat) (args : list bytes) : KvStateMachine * ReplyBuilder :=
  let subcmd := nth 1 args [] in
  if bool_decide (subcmd = str "HELP") then (sm, SendSimpleStrArr rb debug_help)
  else if bool_decide (subcmd = str "POPULATE") then Populate sm rb runners_count args
  else (sm, SendError rb (str "Unknown subcommand or wrong number of arguments for '" ++ subcmd ++
                          str "'. Try DEBUG HELP.")).

(** ** The distribution is a permutation *)

Lemma populate_ranges_cover runners total :
  (0 < runners)%nat → 0 ≤ total →
  concat ((λ r, seqZ r.1 r.2) <$> populate_ranges runners total) = seqZ 0 total.
Proof.
  intros Hr Ht. unfold populate_ranges. set (b := total / Z.of_nat runners).
  assert (0 ≤ b) by (apply Z.div_pos; lia).
  assert (Z.of_nat (pred runners) * b ≤ total) as Hle.
  { transitivity (Z.of_nat runners * b); [nia|]. apply Z.mul_div_le. lia. }
  rewrite fmap_app, concat_app. cbn [fmap list_fmap concat fst snd]. rewrite app_nil_r.
  assert (∀ k, concat ((λ r, seqZ r.1 r.2) <$> ((λ i, (Z.of_nat i * b, b)) <$> seq 0 k)) = seqZ 0 (Z.of_nat k * b)) as ->.
  { induction k as [|k IH]; [done|]. rewrite seq_S, !fmap_app, concat_app, IH. cbn [fmap list_fmap concat fst snd].
    rewrite app_nil_r. replace (Z.of_nat (S k) * b) with (Z.of_nat k * b + b) by lia.
    rewrite seqZ_app by nia. done. }
  set (m := Z.of_nat (pred runners) * b) in *. replace total with (m + (total - m)) at 2 by lia.
  rewrite seqZ_app by nia. done.
Qed.

Definition sent_indices (tasks : list (nat * list Z)) : list Z := concat tasks.*2.

(** Every index of a batch belongs to the shard of the batch. *)
Definition at_home sm prefix (task : nat * list Z) : Prop :=
  Forall (λ i, kv_Shard sm (populate_key prefix i) = task.1) task.2.

Definition distribute_inv sm prefix (acc : list (list Z) * list (nat * list Z)) (done : list Z) : Prop :=
  length acc.1 = length (kv_shards sm) ∧ Forall (at_home sm prefix) (acc.2 ++ imap pair acc.1) ∧
  sent_indices acc.2 ++ concat acc.1 ≡ₚ done.

Lemma concat_insert_perm {A} (ps : list (list A)) sid b :
  ps !! sid = Some b → concat ps ≡ₚ b ++ concat (<[sid := []]> ps).
Proof.
  intros Hs. rewrite <-(take_drop_middle ps sid b Hs) at 1. rewrite insert_take_drop by (by eapply lookup_lt_Some).
  rewrite !concat_app. cbn [concat]. rewrite app_nil_l. by rewrite !app_assoc, (Permutation_app_comm (concat _) b).
Qed.

Lemma concat_insert_perm' {A} (ps : list (list A)) sid b b' :
  ps !! sid = Some b → concat (<[sid := b']> ps) ≡ₚ b' ++ concat (<[sid := []]> ps).
Proof.
  intros Hs. rewrite (concat_insert_perm (<[sid := b']> ps) sid b'); [by rewrite list_insert_insert_eq|].
  apply list_lookup_insert_eq. by eapply lookup_lt_Some.
Qed.

Lemma at_home_insert sm prefix ps sid b :
  Forall (at_home sm prefix) (imap pair ps) → at_home sm prefix (sid, b) →
  Forall (at_home sm prefix) (imap pair (<[sid := b]> ps)).
Proof.
  intros Hps Hb. apply Forall_lookup. intros i [s x]. rewrite list_lookup_imap, list_lookup_insert.
  intros (y & Hy & [= <- ->])%fmap_Some. case_decide as Hi; [destruct Hi as [<- _]; by injection Hy as ->|].
  rewrite Forall_lookup in Hps. apply (Hps s). rewrite list_lookup_imap, Hy. done.
Qed.

Lemma distribute_index_inv sm prefix acc done i :
  kv_wf sm → distribute_inv sm prefix acc done → distribute_inv sm prefix (distribute_index sm prefix acc i) (done ++ [i]).
Proof.
  destruct acc as [ps sent]. intros Hwf (Hlen & Hhome & Hperm). unfold distribute_index.
  set (sid := kv_Shard sm (populate_key prefix i)). cbn [fst snd] in *.
  assert (is_Some (ps !! sid)) as [b Hb].
  { apply lookup_lt_is_Some. rewrite Hlen. destruct (kv_Shard_lookup sm (populate_key prefix i) Hwf) as [d Hd].
    by eapply lookup_lt_Some. }
  rewrite Hb. cbn [default]. apply Forall_app in Hhome as [Hsent Hps].
  assert (at_home sm prefix (sid, b ++ [i])) as Hnew.
  { apply Forall_app. split; [|by repeat constructor]. rewrite Forall_lookup in Hps.
    apply (Hps sid (sid, b)). by rewrite list_lookup_imap, Hb. }
  case_match; unfold distribute_inv; cbn [fst snd].
  - split; [by rewrite length_insert|]. split.
    + rewrite !Forall_app. split; [split; [done|by repeat constructor]|]. apply at_home_insert; [done|constructor].
    + unfold sent_indices. rewrite fmap_app, concat_app. cbn [fmap list_fmap concat snd]. rewrite app_nil_r.
      rewrite <-Hperm, (concat_insert_perm ps sid b Hb). fold (sent_indices sent). solve_Permutation.
  - split; [by rewrite length_insert|]. split.
    + rewrite Forall_app. split; [done|]. by apply at_home_insert.
    + rewrite (concat_insert_perm' ps sid b (b ++ [i]) Hb), <-Hperm, (concat_insert_perm ps sid b Hb). solve_Permutation.
Qed.

Lemma distribute_perm sm prefix from len :
  kv_wf sm →
  Forall (at_home sm prefix) (distribute sm prefix from len) ∧
  sent_indices (distribute sm prefix from len) ≡ₚ seqZ from len.
Proof.
  intros Hwf. unfold distribute. set (start := (replicate (length (kv_shards sm)) [], [])).
  assert (distribute_inv sm prefix start []) as H0.
  { unfold distribute_inv, start. cbn [fst snd app]. split; [apply length_replicate|]. split.
    - apply Forall_lookup. intros i [sid x]. rewrite list_lookup_imap.
      intros (y & Hy & [= -> ->])%fmap_Some. apply lookup_replicate in Hy as [-> _]. constructor.
    - unfold sent_indices. simpl. by induction (length (kv_shards sm)). }
  assert (∀ idxs acc done, distribute_inv sm prefix acc done →
            distribute_inv sm prefix (fold_left (distribute_index sm prefix) idxs acc) (done ++ idxs)) as Hfold.
  { induction idxs as [|i idxs IH]; intros acc done H; [by rewrite app_nil_r|]. cbn [fold_left].
    replace (done ++ i :: idxs) with ((done ++ [i]) ++ idxs) by (by rewrite <-app_assoc).
    by apply IH, distribute_index_inv. }
  specialize (Hfold (seqZ from len) start [] H0). cbn [app] in Hfold.
  destruct (fold_left (distribute_index sm prefix) (seqZ from len) start) as [ps sent].
  destruct Hfold as (_ & Hhome & Hperm). cbn [fst snd] in *. split; [done|]. rewrite <-Hperm.
  unfold sent_indices. rewrite fmap_app, concat_app. f_equiv. clear.
  assert (∀ k, concat (imap (λ i, pair (k + i)%nat) ps).*2 = concat ps) as H.
  { induction ps as [|p ps IH]; intros k; [done|]. rewrite imap_cons. cbn [fmap list_fmap concat snd]. f_equal.
    rewrite <-(IH (S k)). do 2 f_equal. apply imap_ext. intros. simpl. f_equal. lia. }
  by rewrite <-(H 0%nat).
Qed.

Lemma populate_tasks_perm sm prefix runners total :
  kv_wf sm → (0 < runners)%nat → 0 ≤ total →
  Forall (at_home sm prefix) (populate_tasks sm prefix runners total) ∧
  sent_indices (populate_tasks sm prefix runners total) ≡ₚ seqZ 0 total.
Proof.
  intros Hwf Hr Ht. rewrite <-(populate_ranges_cover runners total) by done. unfold populate_tasks.
  induction (populate_ranges runners total) as [|[from len] rs [IH1 IH2]]; [done|].
  cbn [fmap list_fmap concat fst snd]. destruct (distribute_perm sm prefix from len Hwf) as [H1 H2].
  split; [by apply Forall_app|]. unfold sent_indices in *. rewrite fmap_app, concat_app. by rewrite H2, IH2.
Qed.

(** ** Running the batches *)

(** What populating does to the entry of a key. *)
Definition cell_populate (now : Z) (val : bytes) : cell unit := fun e =>
  let '(v, ins) := cell_add now e in (Some (if ins then v <| pv_value := val |> else v), tt).

Lemma populate_one_implements now prefix val_size i :
  implements (populate_key prefix i) (λ d, (populate_one now prefix val_size d i, tt))
    (cell_populate now (populate_value val_size i)).
Proof.
  intros d t Hd. unfold populate_one. destruct (AddOrFind_single now d t (populate_key prefix i) Hd) as [H1 H2].
  destruct (AddOrFind now d 0 (populate_key prefix i)) as [d1 ins]. cbn [fst snd] in *. subst ins.
  split; [|unfold cell_populate; by destruct (cell_add _ _)].
  destruct (cell_add now (t !! populate_key prefix i)) as [v ins] eqn:Ec. cbn [fst snd] in *.
  transitivity [Some (<[populate_key prefix i := if ins then v <| pv_value := populate_value val_size i |> else v]> t)].
  - destruct ins; [exact (set_value_single d1 t _ _ _ H1)|done].
  - assert (cell_populate now (populate_value val_size i) (t !! populate_key prefix i) =
      (Some (if ins then v <| pv_value := populate_value val_size i |> else v), tt)) as E
      by (unfold cell_populate; by rewrite Ec).
    do 2 f_equal. eapply insert_partial_alter; [reflexivity|exact (f_equal fst E)].
Qed.

Definition fl_populate prefix val_size (f : FlatStore) (i : Z) : FlatStore :=
  (fl_cell f (populate_key prefix i) (cell_populate (fl_now f) (populate_value val_size i))).1.

Lemma run_batch_cons prefix val_size sm sid i b :
  run_batch prefix val_size sm (sid, i :: b) =
    run_batch prefix val_size (run_batch prefix val_size sm (sid, [i])) (sid, b).
Proof.
  destruct sm as [now ds]. unfold run_batch, set, setter. simpl. f_equal. by rewrite list_alter_alter_eq.
Qed.

Lemma run_one_await prefix val_size sm i :
  kv_wf sm →
  run_batch prefix val_size sm (kv_Shard sm (populate_key prefix i), [i]) =
    (Await sm (populate_key prefix i) tt (λ d, (populate_one (kv_now sm) prefix val_size d i, tt))).1.
Proof.
  intros Hwf. unfold Await. destruct (kv_Shard_lookup sm (populate_key prefix i) Hwf) as [d Hd]. rewrite Hd.
  cbn [fst]. unfold run_batch. destruct sm as [now ds]. unfold set, setter. simpl in *. f_equal.
  apply list_eq. intros j. set (sid := kv_Shard _ _) in *.
  destruct (decide (j = sid)) as [->|].
  - by rewrite list_lookup_alter_eq, Hd, list_lookup_insert_eq by (by eapply lookup_lt_Some).
  - by rewrite list_lookup_alter_ne, list_lookup_insert_ne by done.
Qed.

Lemma run_batch_shard prefix val_size sm task key :
  kv_Shard (run_batch prefix val_size sm task) key = kv_Shard sm key.
Proof. unfold kv_Shard, zlen, run_batch. simpl. by rewrite length_alter. Qed.

Lemma run_batch_rep prefix val_size b : ∀ sm f sid,
  kv_rep sm f → at_home sm prefix (sid, b) →
  kv_rep (run_batch prefix val_size sm (sid, b)) (fold_left (fl_populate prefix val_size) b f).
Proof.
  induction b as [|i b IH]; intros sm f sid H Hb.
  - destruct sm as [now ds]. unfold run_batch, DoPopulateBatch, set, setter. simpl. by rewrite list_alter_id.
  - apply Forall_cons in Hb as [Hi Hb]. cbn [fst] in Hi. rewrite run_batch_cons. cbn [fold_left].
    apply IH; [|unfold at_home in *; eapply Forall_impl; [exact Hb|]; intros j; by rewrite run_batch_shard].
    subst sid. rewrite run_one_await by apply H. unfold fl_populate. rewrite <-(kr_now _ _ H).
    apply (Await_rep sm f _ tt _ _ H), populate_one_implements.
Qed.

Lemma run_tasks_rep prefix val_size tasks : ∀ sm f,
  kv_rep sm f → Forall (at_home sm prefix) tasks →
  kv_rep (fold_left (run_batch prefix val_size) tasks sm)
         (fold_left (fl_populate prefix val_size) (sent_indices tasks) f).
Proof.
  induction tasks as [|[sid b] tasks IH]; intros sm f H Hh; [done|]. apply Forall_cons in Hh as [Hb Hh].
  unfold sent_indices. cbn [fold_left fmap list_fmap concat snd]. rewrite fold_left_app. apply IH.
  - by apply run_batch_rep.
  - eapply Forall_impl; [exact Hh|]. intros task. unfold at_home. intros Ht. eapply Forall_impl; [exact Ht|].
    intros i. by rewrite run_batch_shard.
Qed.

Lemma to_string_inj i j : 0 ≤ i ≤ U64_MAX → 0 ≤ j ≤ U64_MAX → to_string i = to_string j → i = j.
Proof. intros Hi Hj E. by rewrite <-(to_string_val i), <-(to_string_val j), E. Qed.

Lemma populate_key_inj prefix i j :
  0 ≤ i ≤ U64_MAX → 0 ≤ j ≤ U64_MAX → populate_key prefix i = populate_key prefix j → i = j.
Proof. intros Hi Hj E%app_inv_head%app_inv_head. by apply to_string_inj. Qed.

Lemma fl_populate_now prefix val_size idxs : ∀ f,
  fl_now (fold_left (fl_populate prefix val_size) idxs f) = fl_now f.
Proof. induction idxs as [|i idxs IH]; intros f; [done|]. cbn [fold_left]. by rewrite IH. Qed.

Lemma fl_populate_other prefix val_size idxs : ∀ f k,
  (∀ i, i ∈ idxs → k ≠ populate_key prefix i) →
  fl_map (fold_left (fl_populate prefix val_size) idxs f) !! k = fl_map f !! k.
Proof.
  induction idxs as [|i idxs IH]; intros f k Hk; [done|]. cbn [fold_left].
  rewrite IH by (intros j Hj; apply Hk; by right). simpl. rewrite lookup_partial_alter_ne; [done|].
  intros <-. by apply (Hk i); [left|].
Qed.

Lemma fl_populate_each prefix val_size idxs : ∀ f i,
  NoDup idxs → Forall (λ i, 0 ≤ i ≤ U64_MAX) idxs → i ∈ idxs →
  fl_map (fold_left (fl_populate prefix val_size) idxs f) !! populate_key prefix i =
    (cell_populate (fl_now f) (populate_value val_size i) (fl_map f !! populate_key prefix i)).1.
Proof.
  induction idxs as [|j idxs IH]; intros f i Hnd Hr Hi; [by apply not_elem_of_nil in Hi|].
  apply NoDup_cons in Hnd as [Hj Hnd]. pose proof Hr as [Hj0 Hr']%Forall_cons. cbn [fold_left].
  apply list_elem_of_In in Hi as [<-|Hi%list_elem_of_In].
  - rewrite fl_populate_other.
    + simpl. by rewrite lookup_partial_alter_eq.
    + intros i Hi E. rewrite Forall_forall in Hr'. apply populate_key_inj in E; [by subst|done|by apply Hr'].
  - rewrite IH by done. simpl. rewrite lookup_partial_alter_ne; [done|].
    intros E. rewrite Forall_forall in Hr'. apply populate_key_inj in E; [by subst|done|by apply Hr'].
Qed.

End debug.

Section examples.
#[local] Existing Instance example_lib.
#[local] Instance example_absl_spec : AbslSpec kv_absl := decimal_atoi_spec.

End examples.
