(* ===== verification/Service.v ===== *)
(** * The service (src/server/service/main_service.cc)

    Dispatch of parsed commands and the command handlers, on top of the engine,
    the command table and the connection context, with the loop of [InputLoop]
    (dragonfly_connection.cc) that feeds them, and the replay of the append-only
    file.  A handler gets the command at [to_execute]; the argument list that is
    passed along is empty for a Redis connection.  [None] is the end of the
    process: a failed [CHECK] or an access out of bounds. *)

From S2P Require Import Prelude Absl Sds IoBuf RaftTypes LogStorage StateMachine CommandEncoder Aof DbSlice ReplyBuilder ConnContext KvStateMachine ServerSnapshot DebugCmd Registry RaftNode Replication Engine.

(** ** State *)

(** [sv_pool_size]: the threads of the proactor pool; [sv_write_count]: the
    counter of [SnapshotFiber]; [sv_snapshot_bin]: the file snapshot.bin. *)
Record Service {L : Type} : Type := mkService {
  sv_node : RaftNode L KvStateMachine;
  sv_registry : CommandRegistry;
  sv_aof : AofWriter;
  sv_snapshot_bin : option bytes;
  sv_replay_mode : bool;
  sv_raft_persistence : bool;
  sv_linearizable_read : bool;
  sv_commands_processed : Z;
  sv_keyspace_hits : Z;
  sv_keyspace_misses : Z;
  sv_write_count : Z;
  sv_pool_size : nat
}.
Arguments Service : clear implicits.
Arguments mkService {L}.
#[export] Instance Service_eta L : Eta (Service L) := fun s =>
  mkService (sv_node s) (sv_registry s) (sv_aof s) (sv_snapshot_bin s) (sv_replay_mode s) (sv_raft_persistence s)
    (sv_linearizable_read s) (sv_commands_processed s) (sv_keyspace_hits s) (sv_keyspace_misses s)
    (sv_write_count s) (sv_pool_size s).

(** What INFO reports of the process. *)
Record InfoEnv : Type := mkInfoEnv {
  info_port : Z;
  info_pid : Z;
  info_connections : Z
}.

Definition WrongNumArgsError (cmd : bytes) : bytes :=
  str "wrong number of arguments for '" ++ cmd ++ str "' command".

Definition kReadOnlyErr : bytes := str "READONLY You can't write against a non-leader".

(** The tokens of a fully parsed command; the [i]-th of them. *)
Definition cmd_args (cmd : ParsedCommand) : list bytes := default [] <$> tokens cmd.
Definition token (cmd : ParsedCommand) (i : nat) : bytes := nth i (cmd_args cmd) [].

Section service.
Context {lib : KvLib} {L : Type} `{!LogStorage L}.
Implicit Types (s : Service L) (cc : ConnectionContext) (cmd : ParsedCommand).

(** A reply through [reply_builder_]. *)
Definition reply cc (f : ReplyBuilder → ReplyBuilder) : ConnectionContext := cc <| reply_builder_ ::= f |>.

(** [f] on the command at [to_execute]. *)
Definition on_command cc (f : ParsedCommand → ParsedCommand) : ConnectionContext :=
  cc <| parsed ::= alter f (to_execute cc) |>.

(** ** Handlers *)

Definition Ping s cc cmd : Service L * ConnectionContext :=
  (s, if 2 <? argc cmd then reply cc (λ rb, SendError rb (str "wrong number of arguments for 'ping' command"))
      else if argc cmd =? 1 then reply cc (λ rb, SendSimpleRespString rb (str "PONG"))
      else reply cc (λ rb, SendSimpleRespString rb (token cmd 1))).

(** The AOF record and the count for the snapshot fiber. *)
Definition record_write s cmd : Service L :=
  if negb (sv_replay_mode s) && negb (sv_raft_persistence s)
  then s <| sv_aof ::= λ w, RecordCommand w (cmd_args cmd) |> <| sv_write_count ::= λ c, u32 (c + 1) |>
  else s.

(** [engine_.SubmitCommand] with the tokens of the command. *)
Definition submit net s (cid : CommandId) cmd : Service L * ApplyResult :=
  let '(n, r) := RaftEngine_SubmitCommand net (sv_node s) (ci_name cid) (ci_opt_mask cid) (cmd_args cmd) in
  (s <| sv_node := n |>, r).

Definition is_error (r : ApplyResult) : bool := match ar_op r with ERROR => true | _ => false end.

Definition Service_Set net s cc (cid : CommandId) cmd : Service L * ConnectionContext :=
  let '(s, result) := submit net s cid cmd in
  if is_error result then (s, reply cc (λ rb, SendError rb kReadOnlyErr))
  else (record_write s cmd, reply cc SendStored).

Definition Service_Del net s cc (cid : CommandId) cmd : Service L * ConnectionContext :=
  let '(s, result) := submit net s cid cmd in
  if is_error result then (s, reply cc (λ rb, SendError rb kReadOnlyErr))
  else (record_write s cmd, reply cc (λ rb, SendLong rb (ar_affected_rows result))).

Definition Service_Expire net s cc (cid : CommandId) cmd : Service L * ConnectionContext :=
  let bad := (s, reply cc (λ rb, SendError rb (str "value is not an integer or out of range"))) in
  match atoi64 (token cmd 2) with
  | None => bad
  | Some seconds =>
      if seconds <? 0 then bad
      else
        let '(s, result) := submit net s cid cmd in
        if is_error result then (s, reply cc (λ rb, SendError rb kReadOnlyErr))
        else (s, reply cc (λ rb, SendLong rb (ar_affected_rows result)))
  end.

(** The part of GET that runs on the connection; the callback it schedules on
    the shard of the key is [Get_callback]. *)
Definition Service_Get net s cc : Service L * ConnectionContext :=
  let '(s, refused) :=
    if sv_linearizable_read s then
      let '(n, ri) := ReadIndex net (sv_node s) in (s <| sv_node := n |>, ri =? 0)
    else (s, false) in
  if refused : bool then
    (s, reply cc (λ rb, SendError rb (str "READONLY Cannot serve linearizable read: not leader")))
  else (s, on_command cc (λ cmd, cmd <| execute_async := true |>)).

(** The callback for the [i]-th command of the queue; the flag says that the
    connection is notified. *)
Definition Get_callback s cc (i : nat) : Service L * ConnectionContext * bool :=
  match parsed cc !! i with
  | None => (s, cc, false)
  | Some cmd =>
      let key := token cmd 1 in
      let '(n, res) := on_kv (sv_node s) None (λ kv, kv_Get kv 0 key) in
      let s := s <| sv_node := n |> in
      let '(s, (cmd, notify)) :=
        match res with
        | Some value => (s <| sv_keyspace_hits ::= λ h, u64 (h + 1) |>, cmd_SendGetReply key 0 value cmd)
        | None => (s <| sv_keyspace_misses ::= λ m, u64 (m + 1) |>, cmd_SendGetNotFound cmd)
        end in
      (s, cc <| parsed ::= <[i := cmd]> |>, notify)
  end.

(** Writing snapshot.bin succeeds. *)
Definition Service_Save s cc : Service L * ConnectionContext :=
  match n_state_machine (sv_node s) with
  | Some kv => (s <| sv_snapshot_bin := Some (CreateSnapshot kv) |>, reply cc SendOk)
  | None => (s, reply cc (λ rb, SendError rb (str "ERR Failed to create snapshot")))
  end.

(** [ToUpper(&args[1])] needs two arguments. *)
Definition Service_Debug s cc (args : list bytes) : option (Service L * ConnectionContext) :=
  match args, n_state_machine (sv_node s) with
  | a0 :: a1 :: rest, Some kv =>
      let '(kv, rb) := DebugCmd_Run kv (reply_builder_ cc) (sv_pool_size s) (a0 :: sdstoupper a1 :: rest) in
      Some (s <| sv_node ::= λ n, n <| n_state_machine := Some kv |> |>, cc <| reply_builder_ := rb |>)
  | _, _ => None
  end.

Definition info_line (name value : bytes) : bytes := name ++ str ":" ++ value ++ CRLF.

Definition Info_text (env : InfoEnv) s : bytes :=
  let n := sv_node s in
  str "# Server" ++ CRLF ++ info_line (str "redis_version") (str "7.2.0") ++ info_line (str "os") (str "Linux") ++
  info_line (str "tcp_port") (to_string (info_port env)) ++ info_line (str "arch_bits") (str "64") ++
  info_line (str "multiplexing_api") (str "iouring") ++ info_line (str "process_id") (to_string (info_pid env)) ++ CRLF ++
  str "# Clients" ++ CRLF ++ info_line (str "connected_clients") (to_string (info_connections env)) ++
  info_line (str "blocked_clients") (str "0") ++ CRLF ++
  str "# Memory" ++ CRLF ++ info_line (str "used_memory") (str "0") ++ info_line (str "used_memory_human") (str "0B") ++
  info_line (str "maxmemory") (str "0") ++ info_line (str "maxmemory_policy") (str "noeviction") ++ CRLF ++
  str "# Persistence" ++ CRLF ++ info_line (str "loading") (str "0") ++ info_line (str "rdb_enabled") (str "0") ++
  info_line (str "aof_enabled") (str "1") ++ CRLF ++
  str "# Stats" ++ CRLF ++ info_line (str "total_connections_received") (to_string (info_connections env)) ++
  info_line (str "total_commands_processed") (to_string (sv_commands_processed s)) ++
  info_line (str "instantaneous_ops_per_sec") (str "0") ++
  info_line (str "keyspace_hits") (to_string (sv_keyspace_hits s)) ++
  info_line (str "keyspace_misses") (to_string (sv_keyspace_misses s)) ++ CRLF ++
  str "# Replication" ++ CRLF ++
  info_line (str "role") (if bool_decide (n_role n = Leader) then str "master" else str "follower") ++
  info_line (str "connected_slaves") (str "0") ++ CRLF ++
  str "# Raft" ++ CRLF ++ info_line (str "raft_term") (to_string (n_term n)) ++
  info_line (str "raft_voted_for") (n_voted_for n) ++
  info_line (str "raft_commit_index") (to_string (n_commit_index n)) ++
  info_line (str "raft_last_applied") (to_string (n_last_applied n)) ++
  info_line (str "raft_last_log_index") (to_string (log_last_index n)) ++
  info_line (str "raft_last_snapshot_index") (to_string (n_last_snapshot_index n)) ++ CRLF ++
  str "# CPU" ++ CRLF ++ info_line (str "used_cpu_sys") (str "0.000000") ++
  info_line (str "used_cpu_user") (str "0.000000") ++ CRLF ++
  str "# Keyspace" ++ CRLF ++
  str "db0:keys=" ++ to_string (RaftEngine_DbSize n) ++ str ",expires=0,avg_ttl=0" ++ CRLF.

Definition Service_Info (env : InfoEnv) s cc : Service L * ConnectionContext :=
  let info := Info_text env s in
  (s, reply cc (λ rb, SendRespBlob rb (str "$" ++ to_string (zlen info) ++ CRLF ++ info ++ CRLF))).

Definition Service_Command s cc cmd : Service L * ConnectionContext :=
  (s, match Command (sv_registry s) (cmd_args cmd) with
      | inl err => reply cc (λ rb, SendError rb err)
      | inr blob => reply cc (λ rb, SendRespBlob rb blob)
      end).

(** ** Dispatch *)

Definition Invoke (env : InfoEnv) net s cc (cid : CommandId) cmd (args : list bytes)
    : option (Service L * ConnectionContext) :=
  match ci_handler cid with
  | HCommand => Some (Service_Command s cc cmd)
  | HPing => Some (Ping s cc cmd)
  | HSet => Some (Service_Set net s cc cid cmd)
  | HGet => Some (Service_Get net s cc)
  | HDel => Some (Service_Del net s cc cid cmd)
  | HExpire => Some (Service_Expire net s cc cid cmd)
  | HSave => Some (Service_Save s cc)
  | HDebug => Service_Debug s cc args
  | HInfo => Some (Service_Info env s cc)
  end.

(** The arity check fails. *)
Definition bad_arity (arity argc : Z) : bool :=
  ((0 <? arity) && negb (argc =? arity)) || ((arity <? 0) && (argc <? - arity)).

Definition DispatchCommand (env : InfoEnv) net s cc (args : list bytes) : option (Service L * ConnectionContext) :=
  match parsed cc !! to_execute cc with
  | None => None
  | Some cmd =>
      if argc cmd <=? 0 then None
      else
        let cmd_str := sdstoupper (token cmd 0) in
        let cmd := cmd <| tokens ::= <[0%nat := Some cmd_str]> |> in
        let cc := on_command cc (λ _, cmd) in
        match Find (sv_registry s) cmd_str with
        | None => Some (s, reply cc (λ rb, SendError rb (str "unknown command `" ++ cmd_str ++ str "`")))
        | Some cid =>
            if bad_arity (ci_arity cid) (argc cmd)
            then Some (s, reply cc (λ rb, SendError rb (WrongNumArgsError cmd_str)))
            else
              let cmd := cmd <| dispatched := true |> in
              let cc := on_command cc (λ _, cmd) in
              Invoke env net (s <| sv_commands_processed ::= λ c, u64 (c + 1) |>) cc cid cmd args
        end
  end.

(** [while (cc_->to_execute)] of [InputLoop]; every turn advances [to_execute]. *)
Fixpoint dispatch_loop (fuel : nat) (env : InfoEnv) net s cc : option (Service L * ConnectionContext) :=
  match fuel, parsed cc !! to_execute cc with
  | S fuel, Some cmd =>
      if negb (parse_complete cmd) then Some (s, cc)
      else
        let batch_mode := match parsed cc !! S (to_execute cc) with
                          | Some next => parse_complete next && (CheckIfCanReply next true).2
                          | None => false
                          end in
        let cc := reply cc (λ rb, SetBatchMode rb batch_mode) in
        '(s, cc) ← DispatchCommand env net s cc [];
        dispatch_loop fuel env net s (cc <| to_execute ::= S |>)
  | _, _ => Some (s, cc)
  end.

Definition dispatch_all (env : InfoEnv) net s cc : option (Service L * ConnectionContext) :=
  dispatch_loop (length (parsed cc)) env net s cc.

(** The callback of this command has not run yet. *)
Definition pending cmd : bool := dispatched cmd && execute_async cmd && negb (EXECUTE_DONE cmd).

(** All scheduled callbacks, in the order of the queue. *)
Definition run_callbacks s cc : Service L * ConnectionContext :=
  fold_left (λ '(s, cc) i,
    match parsed cc !! i with
    | Some cmd => if pending cmd then (Get_callback s cc i).1 else (s, cc)
    | None => (s, cc)
    end) (seq 0 (length (parsed cc))) (s, cc).

(** One turn of [InputLoop] after parsing, when the callbacks run before
    [ReplyReadyCommands]. *)
Definition serve_turn (env : InfoEnv) net s cc : option (Service L * ConnectionContext) :=
  '(s, cc) ← dispatch_all env net s cc;
  let '(s, cc) := run_callbacks s cc in
  Some (s, ReplyReadyCommands cc).

(** ** Replay of the append-only file *)

(** One command of the file, on the connection with a null sink. *)
Definition replay_command (env : InfoEnv) net (acc : option (Service L * ConnectionContext)) (args : list bytes)
    : option (Service L * ConnectionContext) :=
  '(s, cc) ← acc;
  let cmd := mkParsedCommand (Some <$> args) (zlen args) true false false Monostate false false in
  DispatchCommand env net s (cc <| parsed := [cmd] |> <| to_execute := 0%nat |>) args.

(** The arguments that the replay passes to [DispatchCommand] are only looked at
    by DEBUG, which is never recorded. *)
Definition ReplayAof (env : InfoEnv) net s : option (Service L) :=
  match AofLoad (Some (aw_file (sv_aof s))) with
  | None => Some s
  | Some content =>
      let r := ParseRespCommands content in
      if negb (apr_ok r) && bool_decide (apr_commands r = []) then Some s
      else
        let s := s <| sv_replay_mode := true |> in
        let cc := ConnectionContext_new REDIS (mkSink [] []) in
        '(s, _) ← fold_left (replay_command env net) (apr_commands r) (Some (s, cc));
        Some (s <| sv_replay_mode := false |>)
  end.
End service.
