(* ===== verification/SnapshotFiber.v ===== *)
(** * The snapshot fiber (src/server/service/snapshot_fiber.cc)

    The loop that takes a snapshot when enough time has passed or enough commands
    were written, against the threads that write.  [Run] is cut where other threads
    can run: at its sleep, and inside of [CreateSnapshot], which reads the data at
    some moment between its call and its return.  A writer changes the data and then
    calls [NotifyWrite].  How many writes are in no snapshot, how many writers are
    between the two, and how many of these were when the last snapshot read the data
    are ghosts of the model. *)

From stdpp Require Import relations.
From S2P Require Import Prelude.

(** Where [Run] is. *)
Inductive RunPhase : Type :=
  | NotStarted
  | Asleep
  | Snapshotting   (* inside of [CreateSnapshot], before it reads the data *)
  | Captured       (* inside of [CreateSnapshot], the data has been read *)
  | Returned.

Record SnapshotFiber : Type := mkSnapshotFiber {
  sf_shutdown : bool;
  sf_write_count : Z;
  sf_time_threshold_sec : Z;
  sf_cmd_threshold : Z;
  sf_last_snapshot_time_ms : Z;
  sf_phase : RunPhase;
  sf_unsaved : Z;     (* writes that are in no snapshot *)
  sf_inflight : Z;    (* writers that have yet to call [NotifyWrite] *)
  sf_lagging : Z;     (* those of them whose write is in the last snapshot *)
  sf_late : Z         (* writers that had yet to call it when the last snapshot read the data *)
}.
#[export] Instance SnapshotFiber_eta : Eta SnapshotFiber := fun f =>
  mkSnapshotFiber (sf_shutdown f) (sf_write_count f) (sf_time_threshold_sec f) (sf_cmd_threshold f)
    (sf_last_snapshot_time_ms f) (sf_phase f) (sf_unsaved f) (sf_inflight f) (sf_lagging f) (sf_late f).

Definition SnapshotFiber_new : SnapshotFiber := mkSnapshotFiber false 0 0 0 0 NotStarted 0 0 0 0.

Definition Start (f : SnapshotFiber) (now time_threshold_sec cmd_threshold : Z) : SnapshotFiber :=
  let f := f <| sf_time_threshold_sec := time_threshold_sec |> <| sf_cmd_threshold := cmd_threshold |> in
  if (time_threshold_sec =? 0) && (cmd_threshold =? 0) then f
  else f <| sf_last_snapshot_time_ms := now |> <| sf_phase := Asleep |>.

Definition Stop (f : SnapshotFiber) : SnapshotFiber := f <| sf_shutdown := true |>.

(** A write to the database. *)
Definition write_data (f : SnapshotFiber) : SnapshotFiber :=
  f <| sf_unsaved ::= Z.add 1 |> <| sf_inflight ::= Z.add 1 |>.

(** The [NotifyWrite] of a write; [lagging] says whether the write is in the last
    snapshot. *)
Definition NotifyWrite (f : SnapshotFiber) (lagging : bool) : SnapshotFiber :=
  f <| sf_write_count := u32 (sf_write_count f + 1) |>
    <| sf_inflight := sf_inflight f - 1 |>
    <| sf_lagging := sf_lagging f - (if lagging then 1 else 0) |>.

Definition time_trigger (f : SnapshotFiber) (now : Z) : bool :=
  (0 <? sf_time_threshold_sec f) &&
  (u64 (sf_time_threshold_sec f * 1000) <=? u64 (now - sf_last_snapshot_time_ms f)).

Definition cmd_trigger (f : SnapshotFiber) : bool :=
  (0 <? sf_cmd_threshold f) && (sf_cmd_threshold f <=? sf_write_count f).

(** The turn of the loop after a sleep, up to the call of [CreateSnapshot]. *)
Definition Run_wake (f : SnapshotFiber) (now : Z) : SnapshotFiber :=
  if sf_shutdown f then f <| sf_phase := Returned |>
  else if time_trigger f now || cmd_trigger f then f <| sf_phase := Snapshotting |>
  else f.

(** The data is read: every write so far is in the snapshot. *)
Definition Run_capture (f : SnapshotFiber) : SnapshotFiber :=
  f <| sf_phase := Captured |> <| sf_unsaved := 0 |>
    <| sf_lagging := sf_inflight f |> <| sf_late := sf_inflight f |>.

(** The return of [CreateSnapshot] and what follows it, to the next sleep. *)
Definition Run_finish (f : SnapshotFiber) (now : Z) : SnapshotFiber :=
  f <| sf_last_snapshot_time_ms := now |> <| sf_write_count := 0 |> <| sf_phase := Asleep |>.

Inductive fiber_step : SnapshotFiber → SnapshotFiber → Prop :=
  | fs_write f : fiber_step f (write_data f)
  | fs_notify f lagging :
      (if (lagging : bool) then 0 < sf_lagging f else sf_lagging f < sf_inflight f) → fiber_step f (NotifyWrite f lagging)
  | fs_stop f : fiber_step f (Stop f)
  | fs_wake f now : sf_phase f = Asleep → fiber_step f (Run_wake f now)
  | fs_capture f : sf_phase f = Snapshotting → fiber_step f (Run_capture f)
  | fs_finish f now : sf_phase f = Captured → fiber_step f (Run_finish f now).

(** ** The counter *)

(** Outside of the last part of a snapshot the counter is at most the number of
    writes that are in no snapshot and of those that were under way when the last
    one read the data. *)
Record count_ok (f : SnapshotFiber) : Prop := {
  co_count : 0 ≤ sf_write_count f;
  co_lagging : 0 ≤ sf_lagging f ≤ sf_inflight f ∧ sf_lagging f ≤ sf_late f;
  co_fresh : sf_inflight f - sf_lagging f ≤ sf_unsaved f;
  co_bound : sf_phase f ≠ Captured → sf_write_count f + sf_inflight f ≤ sf_unsaved f + sf_late f
}.

Lemma u32_le z : 0 ≤ z → 0 ≤ u32 z ≤ z.
Proof. intros Hz. unfold u32. split; [by apply Z.mod_pos_bound|by apply Z.mod_le]. Qed.

Lemma count_ok_step f f' : count_ok f → fiber_step f f' → count_ok f'.
Proof.
  intros H Hs. destruct Hs as [f0|f0 lag Hlag|f0|f0 now Hp|f0 Hp|f0 now Hp]; destruct H as [Hw Hl Hf Hb].
  - split; cbn; try lia. intros Hp. specialize (Hb Hp). lia.
  - pose proof (u32_le (sf_write_count f0 + 1) ltac:(lia)).
    destruct lag; (split; cbn; try lia; intros Hp; specialize (Hb Hp); lia).
  - by split.
  - specialize (Hb ltac:(by rewrite Hp)). unfold Run_wake.
    destruct (sf_shutdown f0); [by split|]. destruct (_ || _); by split.
  - split; cbn; [lia|lia|lia|]. by intros [].
  - split; cbn; [lia|lia|lia|]. intros _. lia.
Qed.

Lemma count_ok_start now t c : count_ok (Start SnapshotFiber_new now t c).
Proof. unfold Start. destruct (_ && _); by split. Qed.

Lemma count_ok_reachable now t c f : rtc fiber_step (Start SnapshotFiber_new now t c) f → count_ok f.
Proof.
  generalize (count_ok_start now t c). generalize (Start SnapshotFiber_new now t c).
  intros f0 H0 Hrun. induction Hrun as [|x y z Hxy _ IH]; eauto using count_ok_step.
Qed.

(** However the writers run, a snapshot that the number of commands triggers is
    not spurious: when the loop decides for it, the writes that are in no snapshot,
    and those that were under way when the last snapshot read the data, reach the
    threshold. *)
Theorem cmd_trigger_justified now t c f :
  rtc fiber_step (Start SnapshotFiber_new now t c) f → sf_phase f = Asleep → cmd_trigger f = true →
  sf_cmd_threshold f ≤ sf_unsaved f + sf_late f.
Proof.
  intros Hrun%count_ok_reachable Hp Hc. destruct Hrun as [_ Hl _ Hb]. specialize (Hb ltac:(by rewrite Hp)).
  unfold cmd_trigger in Hc. apply andb_prop in Hc as [_ Hc]. apply Z.leb_le in Hc. lia.
Qed.

(** One write with a threshold of one. *)
Lemma cmd_trigger_justified_witness :
  let f := NotifyWrite (write_data (Start SnapshotFiber_new 0 0 1)) false in
  cmd_trigger f = true ∧ sf_cmd_threshold f ≤ sf_unsaved f + sf_late f.
Proof.
  split; [reflexivity|].
  apply (cmd_trigger_justified 0 0 1); [|reflexivity|reflexivity].
  eapply rtc_l; [apply fs_write|]. eapply rtc_l; [by apply (fs_notify _ false)|]. apply rtc_refl.
Defined.

(** ** Writes that are forgotten *)

Lemma writes_step n : ∀ f, sf_lagging f = 0 → 0 ≤ sf_inflight f →
  ∃ f', rtc fiber_step f f' ∧ sf_phase f' = sf_phase f ∧ sf_unsaved f' = sf_unsaved f + Z.of_nat n ∧
    sf_cmd_threshold f' = sf_cmd_threshold f ∧ sf_inflight f' = sf_inflight f ∧ sf_lagging f' = 0.
Proof.
  induction n as [|n IH]; intros f Hl Hi; [exists f; split_and!; [done|done|lia|done..]|].
  destruct (IH (NotifyWrite (write_data f) false)) as (f' & Hrun & Hp & Hu & Hc & Hf & Hl'); cbn in *; [lia|lia|].
  exists f'. split_and!; [|done|lia|done|lia|done].
  eapply rtc_l; [apply fs_write|]. eapply rtc_l; [|done]. apply fs_notify. cbn. lia.
Qed.

(** Writes that arrive after a snapshot has read the data, and before it is done,
    are forgotten: the counter is cleared afterwards.  Any number of writes may be in
    no snapshot, with all writers done and the counter at zero. *)
Theorem writes_during_snapshot_forgotten (n : nat) :
  ∃ f, rtc fiber_step (Start SnapshotFiber_new 0 0 1) f ∧
    sf_phase f = Asleep ∧ sf_write_count f = 0 ∧ sf_inflight f = 0 ∧ sf_unsaved f = Z.of_nat n ∧
    sf_cmd_threshold f = 1.
Proof.
  set (f0 := NotifyWrite (write_data (Start SnapshotFiber_new 0 0 1)) false).
  set (f1 := Run_capture (Run_wake f0 0)).
  destruct (writes_step n f1) as (f2 & Hrun & Hp & Hu & Hc & Hi & _); [done|done|].
  exists (Run_finish f2 0). cbn. split_and!; [|done|done|by rewrite Hi|by rewrite Hu|by rewrite Hc].
  eapply rtc_l; [apply fs_write|]. eapply rtc_l; [by apply (fs_notify _ false)|].
  eapply rtc_l; [by apply (fs_wake f0 0)|]. eapply rtc_l; [by apply fs_capture|].
  eapply rtc_r; [exact Hrun|]. by apply fs_finish.
Qed.
