(* ===== verification/Startup.v ===== *)
(** * Start-up (src/server/service/main_service.cc)

    [Service::Init] and [InitRaftCluster]: the peers given on the command line,
    the order in which storage, replay, peers and bootstrap happen, and the
    classic mode, which loads snapshot.bin and replays the append-only file. *)

From S2P Require Import Prelude Absl Sds RaftTypes LogStorage StateMachine RaftStorage ApplyProgress ElectionTimer CommandEncoder CommandLog Aof DbSlice ReplyBuilder ConnContext KvStateMachine ServerSnapshot DebugCmd Registry RaftNode Replication Recovery FollowerLog SoloLeader Convergence Engine Service.

(** ** --raft_peers *)

(** [absl::StrSplit(s, c)]. *)
Fixpoint str_split (c : Z) (s : bytes) : list bytes :=
  match s with
  | [] => [[]]
  | x :: s =>
      if x =? c then [] :: str_split c s
      else match str_split c s with
           | w :: ws => (x :: w) :: ws
           | [] => [[x]]
           end
  end.

(** [s.rfind(c)]. *)
Definition rfind (c : Z) (s : bytes) : option Z :=
  (λ i, zlen s - 1 - Z.of_nat i) <$> find_nat [c] (reverse s).

Record TcpPeer : Type := mkTcpPeer {
  peer_host : bytes;
  peer_port : Z
}.

Section peers.
Context {absl : Absl}.

(** One entry "id:host:port"; [None] is a malformed one. *)
Definition parse_peer (entry : bytes) : option (NodeId * TcpPeer) :=
  first ← find_from [58] entry 0;
  last ← rfind 58 entry;
  if (first =? last) || (zlen entry <=? last + 1) then None
  else
    port ← atou32 (substr entry (last + 1) (zlen entry - (last + 1)));
    if (port =? 0) || (65535 <? port) then None
    else Some (substr entry 0 first, mkTcpPeer (substr entry (first + 1) (last - first - 1)) port).

(** [emplace] keeps the first entry of an id. *)
Definition add_peer (peers : option (gmap NodeId TcpPeer)) (entry : bytes) : option (gmap NodeId TcpPeer) :=
  peers ← peers;
  if bool_decide (entry = []) then Some peers
  else
    '(id, peer) ← parse_peer entry;
    Some (match peers !! id with Some _ => peers | None => <[id := peer]> peers end).

Definition parse_peers (flag : bytes) : option (gmap NodeId TcpPeer) :=
  fold_left add_peer (str_split 44 flag) (Some ∅).

(** ** InitRaftCluster *)

Context {L SM : Type} `{!LogStorage L, !StateMachine SM}.
Implicit Types n : RaftNode L SM.

(** The node once the peers are known; the endpoints of the transport are not
    part of it. *)
Definition wire_peers n (node_id : NodeId) (ids : list NodeId) : RaftNode L SM :=
  let n := fold_left AddPeer (filter (λ id, id ≠ node_id) ids) n in
  let n := n <| n_node_id := node_id |> <| n_transport := true |> in
  BecomeFollowerLocked n (n_term n).

(** [InitRaftCluster]; the flag is its result.  Binding the RPC listener
    succeeds. *)
Definition InitRaftCluster n (peers_flag : bytes) (node_id : NodeId) (raft_port : Z) : RaftNode L SM * bool :=
  if bool_decide (peers_flag = []) then (n, true)
  else if bool_decide (node_id = []) || (raft_port =? 0) then (n, false)
  else match parse_peers peers_flag with
  | None => (n, false)
  | Some peers =>
      match peers !! node_id with
      | None => (n, false)
      | Some _ => (wire_peers n node_id (map_to_list peers).*1, true)
      end
  end.

(** ** Init with --raft_dir *)

(** The part of [Init] after [InitRaftStorage] has opened the log and loaded the
    metadata: replay, then peers, then bootstrap. *)
Definition Init_consensus n (now interval_ms : Z) (peers_flag : bytes) (node_id : NodeId) (raft_port : Z)
    : RaftNode L SM :=
  let n := if n_last_snapshot_index n =? 0 then ResetApplyProgress n 0 else n in
  let n := n <| n_apply_meta_flush_interval_ms := interval_ms |> in
  let n := ReplayUnappliedLogs n now in
  let n := (InitRaftCluster n peers_flag node_id raft_port).1 in
  (BootstrapSingleNode n now).1.
End peers.

(** ** Init without --raft_dir *)

Section classic.
Context {lib : KvLib}.

(** The service as [Service(pp)] makes it, on the given files. *)
Definition Service_new (kv : KvStateMachine) (aof : bytes) (snapshot_bin : option bytes) (linearizable : bool)
    (pool_size : nat) : Service CommandLog :=
  mkService (RaftEngine_new kv) (RegisterCommands CommandRegistry_new) (AofWriter_Open aof) snapshot_bin
    false false linearizable 0 0 0 0 pool_size.

(** snapshot.bin, the append-only file, the peers, the bootstrap, the replay. *)
Definition Init_classic (env : InfoEnv) (net : Net) (now : Z) (pool_size : nat) (aof : bytes)
    (snapshot_bin : option bytes) (linearizable : bool) (peers_flag : bytes) (node_id : NodeId) (raft_port : Z)
    : option (Service CommandLog) :=
  let shard_num := if (1 <? pool_size)%nat then pred pool_size else pool_size in
  let kv := Service_LoadSnapshot (KvStateMachine_new now shard_num) snapshot_bin in
  let s := Service_new kv aof snapshot_bin linearizable pool_size in
  let s := s <| sv_node ::= λ n, (InitRaftCluster n peers_flag node_id raft_port).1 |> in
  let s := s <| sv_node ::= λ n, (BootstrapSingleNode n (net_now net)).1 |> in
  ReplayAof env net s.
End classic.

(** ** Reading the peers back *)

Definition peer_text (p : NodeId * TcpPeer) : bytes :=
  p.1 ++ str ":" ++ peer_host p.2 ++ str ":" ++ to_string (peer_port p.2).

Fixpoint peers_text (ps : list (NodeId * TcpPeer)) : bytes :=
  match ps with
  | [] => []
  | [p] => peer_text p
  | p :: ps => peer_text p ++ str "," ++ peers_text ps
  end.

(** An id without separators, a host without a comma (it may contain colons),
    and a port. *)
Definition peer_ok (p : NodeId * TcpPeer) : Prop :=
  Forall (λ c, c ≠ 58 ∧ c ≠ 44) p.1 ∧ Forall (λ c, c ≠ 44) (peer_host p.2) ∧ 1 ≤ peer_port p.2 ≤ 65535.

Section roundtrip.
Context {absl : Absl} `{!AbslSpec absl}.

Lemma str_split_app c w s :
  Forall (λ x, x ≠ c) w → str_split c (w ++ c :: s) = w :: str_split c s.
Proof.
  induction 1 as [|x w Hx _ IH]; simpl; [by rewrite Z.eqb_refl|].
  by rewrite (proj2 (Z.eqb_neq x c) Hx), IH.
Qed.

Lemma str_split_none c w : Forall (λ x, x ≠ c) w → str_split c w = [w].
Proof.
  induction 1 as [|x w Hx _ IH]; simpl; [done|]. by rewrite (proj2 (Z.eqb_neq x c) Hx), IH.
Qed.

Lemma peer_text_no_comma p : peer_ok p → Forall (λ c, c ≠ 44) (peer_text p).
Proof.
  intros (Hi & Hh & Hp). unfold peer_text. rewrite !Forall_app. split_and!.
  - eapply Forall_impl; [exact Hi|]. by intros c [_ ?].
  - by repeat constructor.
  - done.
  - by repeat constructor.
  - apply to_string_ne; lia.
Qed.

Lemma parse_peer_text p : peer_ok p → parse_peer (peer_text p) = Some p.
Proof.
  destruct p as [id [host port]]. intros (Hi & Hh & Hp). cbn [fst snd peer_host peer_port] in *.
  set (t := to_string port). set (e := id ++ str ":" ++ host ++ str ":" ++ t).
  pose proof (zlen_nonneg id). pose proof (zlen_nonneg host).
  assert (1 ≤ zlen t) as Ht by (unfold t; destruct (to_string_cons port) as (c & r & ->); rewrite zlen_cons; pose proof (zlen_nonneg r); lia).
  assert (zlen e = zlen id + 1 + zlen host + 1 + zlen t) as El.
  { unfold e. rewrite !zlen_app. change (zlen (str ":")) with 1. lia. }
  assert (find_from [58] e 0 = Some (zlen id)) as F1.
  { apply (find_from_first 58 [] [] id (host ++ str ":" ++ t)).
    eapply Forall_impl; [exact Hi|]. by intros c [? _]. }
  assert (rfind 58 e = Some (zlen id + 1 + zlen host)) as F2.
  { unfold rfind, e. rewrite !reverse_app, <-!app_assoc. change (reverse (str ":")) with [58].
    rewrite (find_nat_first 58 [] (reverse t) (reverse host ++ [58] ++ reverse id)).
    - cbn [fmap option_fmap option_map]. f_equal. fold e. rewrite El, length_reverse. unfold zlen. lia.
    - rewrite Forall_reverse. apply to_string_ne; lia. }
  unfold parse_peer. change (peer_text (id, mkTcpPeer host port)) with e. rewrite F1, F2. cbn [mbind option_bind].
  rewrite (proj2 (Z.eqb_neq (zlen id) _)), (proj2 (Z.leb_gt (zlen e) _)) by lia. cbn [orb].
  assert (substr e (zlen id + 1 + zlen host + 1) (zlen e - (zlen id + 1 + zlen host + 1)) = t) as S1.
  { replace (zlen e - (zlen id + 1 + zlen host + 1)) with (zlen t) by lia.
    replace (zlen id + 1 + zlen host + 1) with (zlen (id ++ str ":" ++ host ++ str ":"))
      by (rewrite !zlen_app; change (zlen (str ":")) with 1; lia).
    pose proof (substr_app (id ++ str ":" ++ host ++ str ":") t []) as E. rewrite app_nil_r, <-!app_assoc in E. exact E. }
  assert (substr e 0 (zlen id) = id) as S2 by apply substr_0_app.
  assert (substr e (zlen id + 1) (zlen id + 1 + zlen host - zlen id - 1) = host) as S3.
  { replace (zlen id + 1 + zlen host - zlen id - 1) with (zlen host) by lia.
    replace (zlen id + 1) with (zlen (id ++ str ":")) by (rewrite zlen_app; done).
    pose proof (substr_app (id ++ str ":") host (str ":" ++ t)) as E. rewrite <-!app_assoc in E. exact E. }
  rewrite S1. unfold t. rewrite (atoi_to_string 0 U32_MAX port) by (unfold U64_MAX, U32_MAX; lia). cbn [mbind option_bind].
  rewrite (proj2 (Z.eqb_neq port 0)), (proj2 (Z.ltb_ge 65535 port)) by lia. cbn [orb]. by rewrite S2, S3.
Qed.

Lemma add_peer_text m p :
  peer_ok p → m !! p.1 = None → add_peer (Some m) (peer_text p) = Some (<[p.1 := p.2]> m).
Proof.
  intros Hp Hm. unfold add_peer. cbn [mbind option_bind]. rewrite bool_decide_false.
  - rewrite parse_peer_text by done. cbn [mbind option_bind]. destruct p as [id peer]. cbn [fst snd] in *. by rewrite Hm.
  - unfold peer_text. intros E%app_nil. destruct E as [_ E]. done.
Qed.

Lemma parse_peers_from ps : ∀ m,
  Forall peer_ok ps → NoDup ps.*1 → (∀ id, id ∈ ps.*1 → m !! id = None) → ps ≠ [] →
  fold_left add_peer (str_split 44 (peers_text ps)) (Some m) = Some (list_to_map ps ∪ m).
Proof.
  induction ps as [|p ps IH]; intros m Hok Hnd Hm Hne; [done|].
  apply Forall_cons in Hok as [Hp Hok]. apply NoDup_cons in Hnd as [Hp1 Hnd].
  assert (m !! p.1 = None) as Hmp by (apply Hm; by left).
  assert (∀ m' : gmap NodeId TcpPeer, list_to_map (p :: ps) ∪ m' = <[p.1 := p.2]> (list_to_map ps ∪ m')) as Hl.
  { intros m'. destruct p as [id peer]. cbn [list_to_map fst snd]. by rewrite insert_union_l. }
  rewrite Hl. destruct ps as [|p' ps].
  - cbn [peers_text]. rewrite str_split_none by (by apply peer_text_no_comma). cbn [fold_left].
    rewrite add_peer_text by done. by rewrite list_to_map_nil, (left_id_L ∅ (∪)).
  - change (peers_text (p :: p' :: ps)) with (peer_text p ++ 44 :: peers_text (p' :: ps)).
    rewrite str_split_app by (by apply peer_text_no_comma). cbn [fold_left]. rewrite add_peer_text by done.
    rewrite IH; [|done|done| |done].
    + f_equal. rewrite <-insert_union_r; [done|]. by apply not_elem_of_list_to_map.
    + intros id Hid. rewrite lookup_insert_ne; [apply Hm; by right|]. intros <-. done.
Qed.

(** The --raft_peers flag is read back exactly: the text made from any list
    of peers with distinct ids gives the map from these ids to their hosts and
    ports; hosts may contain colons. *)
Theorem peers_roundtrip ps :
  Forall peer_ok ps → NoDup ps.*1 → parse_peers (peers_text ps) = Some (list_to_map ps).
Proof.
  intros Hok Hnd. destruct ps as [|p ps]; [done|]. unfold parse_peers.
  rewrite parse_peers_from; [by rewrite (right_id_L ∅ (∪))|done|done| |done]. intros. apply lookup_empty.
Qed.
End roundtrip.

(** ** The order of replay and peers *)

Section restart.
Context {absl : Absl} {L SM : Type} `{!LogStorage L, !StateMachine SM, !LogStorageSpec L}.
Implicit Types n : RaftNode L SM.

(** The fields that wiring the peers leaves alone. *)
Definition same_state n n' : Prop :=
  n_log_storage n' = n_log_storage n ∧ n_state_machine n' = n_state_machine n ∧
  n_commit_index n' = n_commit_index n ∧ n_last_applied n' = n_last_applied n ∧
  n_config_state n' = n_config_state n.

Lemma same_state_trans n1 n2 n3 : same_state n1 n2 → same_state n2 n3 → same_state n1 n3.
Proof. unfold same_state. intros (-> & -> & -> & -> & ->). done. Qed.

Lemma AddPeers_state ids : ∀ n, same_state n (fold_left AddPeer ids n) ∧
  cc_voters (n_cluster_config (fold_left AddPeer ids n)) = list_to_set ids ∪ cc_voters (n_cluster_config n).
Proof.
  induction ids as [|id ids IH]; intros n; cbn [fold_left].
  - split; [by unfold same_state|]. simpl. set_solver.
  - destruct (IH (AddPeer n id)) as [H1 H2]. split; [exact H1|]. rewrite H2. simpl. set_solver.
Qed.

Lemma BecomeFollowerLocked_state n t :
  same_state n (BecomeFollowerLocked n t) ∧ n_role (BecomeFollowerLocked n t) = Follower ∧
  n_cluster_config (BecomeFollowerLocked n t) = n_cluster_config n ∧
  n_node_id (BecomeFollowerLocked n t) = n_node_id n.
Proof.
  unfold same_state, BecomeFollowerLocked, SetRoleLocked, CancelTransferLocked, StopHeartbeat. cbv zeta.
  repeat match goal with |- context [if ?b then _ else _] => destruct b end; split_and!; reflexivity.
Qed.

Lemma wire_peers_state n node_id ids other :
  n_config_state n = kStable → other ∈ ids → other ≠ node_id →
  let n' := wire_peers n node_id ids in
  same_state n n' ∧ n_role n' = Follower ∧ other ∈ GetPeerIdsLocked n'.
Proof.
  intros Hs Ho Hne. unfold wire_peers. cbv zeta.
  destruct (AddPeers_state (filter (λ id, id ≠ node_id) ids) n) as [H1 H2].
  generalize dependent (fold_left AddPeer (filter (λ id, id ≠ node_id) ids) n). intros n1 H1 H2.
  set (n2 := n1 <| n_node_id := node_id |> <| n_transport := true |>).
  destruct (BecomeFollowerLocked_state n2 (n_term n2)) as (S1 & S2 & S3 & S4).
  assert (same_state n n2) as H3 by exact H1.
  split; [exact (same_state_trans _ _ _ H3 S1)|]. split; [done|].
  unfold GetPeerIdsLocked. destruct (same_state_trans _ _ _ H3 S1) as (_ & _ & _ & _ & ->). rewrite Hs, S3, S4.
  apply list_elem_of_filter. split; [exact Hne|]. apply elem_of_elements.
  change (n_cluster_config n2) with (n_cluster_config n1). rewrite H2. apply elem_of_union_l, elem_of_list_to_set.
  by apply list_elem_of_filter.
Qed.

(** Without peers, everything in the log is taken for committed. *)
Lemma ReplayUnappliedLogs_alone n now l a sm :
  n_log_storage n = Some l → log_rep l a → n_state_machine n = Some sm → n_aborted n = false →
  GetPeerIdsLocked n = [] → al_base a ≤ n_last_applied n < al_last a →
  Forall (λ e, is_config e = false) (al_slice a (n_last_applied n) (al_last a)) →
  let n' := ReplayUnappliedLogs n now in
  n_commit_index n' = al_last a ∧ n_last_applied n' = al_last a ∧
  n_state_machine n' = Some (fold_left (λ sm e, (ApplyLogEntry sm e).1) (al_slice a (n_last_applied n) (al_last a)) sm).
Proof.
  intros Hl Hr Hsm Hab Hp Hla Hcf. unfold ReplayUnappliedLogs. rewrite Hl, Hsm, (rep_LastIndex l a Hr). cbv zeta.
  rewrite (proj2 (Z.leb_gt _ _)) by lia. rewrite Hp, (bool_decide_true ([] = [])), andb_false_r by done.
  set (n1 := n <| n_commit_index := al_last a |>).
  pose proof (al_last_bound a (rep_wf l a Hr)).
  assert (apply_target n1 a = al_last a) as Et.
  { unfold apply_target. change (n_last_applied n1) with (n_last_applied n). change (n_commit_index n1) with (al_last a). lia. }
  assert (∀ es sm0, Forall (λ e, is_config e = false) es →
    fold_left sm_step es sm0 = fold_left (λ sm e, (ApplyLogEntry sm e).1) es sm0) as Hstep.
  { intros es sm0 He. revert sm0. induction He as [|e es He _ IH]; intros sm0; [done|]. cbn [fold_left].
    rewrite IH. unfold sm_step at 1. by rewrite He. }
  unfold ApplyCommittedLogsLocked. change (n_state_machine n1) with (n_state_machine n). rewrite Hsm.
  change (n_log_storage n1) with (n_log_storage n). rewrite Hl.
  destruct (apply_loop_spec (S (Z.to_nat (n_commit_index n1 - n_last_applied n1))) n1 sm now default_ApplyResult l a)
    as (n2 & r2 & l2 & E & H1 & H2 & H3 & H4 & H5); try done.
  - change (n_last_applied n1) with (n_last_applied n). lia.
  - rewrite Et. change (n_last_applied n1) with (n_last_applied n). eapply Forall_impl; [exact Hcf|].
    intros e He. unfold config_parses. by rewrite He.
  - lia.
  - rewrite E. cbn [fst]. split; [exact H2|]. split; [etransitivity; [exact H1|exact Et]|].
    change (Some (fold_left sm_step (al_slice a (n_last_applied n1) (apply_target n1 a)) sm) = Some (fold_left (λ sm e, (ApplyLogEntry sm e).1) (al_slice a (n_last_applied n) (al_last a)) sm)).
    rewrite Et. change (n_last_applied n1) with (n_last_applied n). by rewrite Hstep.
Qed.

(** Ordinary entries do not change the configuration. *)
Lemma Replay_stable n now l a :
  n_config_state n = kStable → n_log_storage n = Some l → log_rep l a →
  Forall (λ e, is_config e = false) (al_entries a) → al_base a = 0 → 0 ≤ n_last_applied n →
  n_config_state (ReplayUnappliedLogs n now) = kStable.
Proof.
  intros Hs Hl Hr Hcf Hb Hla. unfold ReplayUnappliedLogs. rewrite Hl. destruct (n_state_machine n) as [sm|] eqn:Hsm; [|done].
  cbv zeta. rewrite (rep_LastIndex l a Hr). case_match; [done|]. case_match; [done|].
  set (n1 := n <| n_commit_index := al_last a |>).
  destruct (ApplyCommitted_frame n1 now l a Hl Hr) as [(_ & -> & _) _]; [by rewrite Hb|apply (al_last_bound a (rep_wf l a Hr))|done|exact Hs].
Qed.

(** C38. A member of a cluster that restarts commits its whole log by itself.
    [Init] replays the log before it reads --raft_peers, so that the node still
    believes it is alone; every entry of its log, also one that was never
    committed and that the cluster may have replaced, is applied to the state
    machine, although the node then joins the cluster as a follower with
    peers. *)
Theorem restart_applies_uncommitted n now interval l a sm flag (node_id other : NodeId) port peers peer :
  n_config_state n = kStable → cc_voters (n_cluster_config n) = ∅ → n_aborted n = false →
  n_log_storage n = Some l → log_rep l a → n_state_machine n = Some sm →
  n_last_snapshot_index n = 0 → al_base a = 0 → al_entries a ≠ [] →
  Forall (λ e, is_config e = false) (al_entries a) →
  flag ≠ [] → node_id ≠ [] → port ≠ 0 → parse_peers flag = Some peers → is_Some (peers !! node_id) →
  peers !! other = Some peer → other ≠ node_id →
  let n' := Init_consensus n now interval flag node_id port in
  n_role n' = Follower ∧ other ∈ GetPeerIdsLocked n' ∧
  n_commit_index n' = al_last a ∧ n_last_applied n' = al_last a ∧
  n_state_machine n' = Some (fold_left (λ sm e, (ApplyLogEntry sm e).1) (al_entries a) sm).
Proof.
  intros Hst Hv Hab Hl Hr Hsm Hsn Hb Hne Hcf Hfl Hid Hpt Hps [self Hself] Hot Hdiff.
  unfold Init_consensus. rewrite Hsn. cbn [Z.eqb]. cbv zeta.
  set (n1 := (ResetApplyProgress n 0) <| n_apply_meta_flush_interval_ms := interval |>).
  assert (al_slice a 0 (al_last a) = al_entries a) as Es.
  { unfold al_slice, al_last. rewrite Hb. cbn [Z.sub Z.to_nat drop]. rewrite Z.add_0_l, Z.sub_0_r, to_nat_zlen. apply firstn_all. }
  assert (0 < al_last a) as Hpos.
  { unfold al_last. rewrite Hb. destruct (al_entries a) as [|e0 es0]; [done|]. rewrite zlen_cons. pose proof (zlen_nonneg es0). lia. }
  destruct (ReplayUnappliedLogs_alone n1 now l a sm) as (R1 & R2 & R3); try done.
  { unfold GetPeerIdsLocked. change (n_config_state n1) with (n_config_state n).
    change (n_cluster_config n1) with (n_cluster_config n). by rewrite Hst, Hv, elements_empty. }
  { change (n_last_applied n1) with 0. lia. }
  { change (n_last_applied n1) with 0. by rewrite Es. }
  change (n_last_applied n1) with 0 in R3. rewrite Es in R3.
  assert (n_config_state (ReplayUnappliedLogs n1 now) = kStable) as Hst2 by (apply (Replay_stable n1 now l a); [exact Hst|exact Hl|done|done|done|done]).
  generalize dependent (ReplayUnappliedLogs n1 now). intros n2 R1 R2 R3 Hst2.
  unfold InitRaftCluster. rewrite !bool_decide_false, (proj2 (Z.eqb_neq _ _) Hpt) by done. cbn [orb]. rewrite Hps, Hself. cbn [fst].
  destruct (wire_peers_state n2 node_id (map_to_list peers).*1 other Hst2) as ((_ & W2 & W3 & W4 & _) & Wr & Wp);
    [apply list_elem_of_fmap; exists (other, peer); split; [done|by apply elem_of_map_to_list]|done|].
  generalize dependent (wire_peers n2 node_id (map_to_list peers).*1). intros n3 W2 W3 W4 Wr Wp.
  unfold BootstrapSingleNode. rewrite bool_decide_false by congruence.
  rewrite (bool_decide_false (GetPeerIdsLocked n3 = [])) by (intros E; rewrite E in Wp; by apply not_elem_of_nil in Wp).
  cbn [negb fst]. split_and!; [done|done|congruence..].
Qed.
End restart.

(** ** Examples *)

Section examples.
#[local] Existing Instance example_lib.

Definition example_peers : list (NodeId * TcpPeer) :=
  [(str "n1", mkTcpPeer (str "10.0.0.1") 7001); (str "n2", mkTcpPeer (str "::1") 7002)].

Lemma peers_roundtrip_witness :
  parse_peers (str "n1:10.0.0.1:7001,n2:::1:7002") = Some (list_to_map example_peers).
Proof.
  apply (peers_roundtrip example_peers).
  - unfold peer_ok. by_decide.
  - by_decide.
Defined.

(** The log of a node that stopped before its last entry was committed. *)
Definition uncommitted_alog : alog :=
  al_append alog_empty (mkLogEntry 1 1 (EncodeRespArray [str "SET"; str "a"; str "1"])).

Definition uncommitted_log : CommandLog :=
  (Append CommandLog_new (mkLogEntry 1 1 (EncodeRespArray [str "SET"; str "a"; str "1"])) false).1.

Lemma restart_applies_uncommitted_witness :
  let n := example_node (KvStateMachine_new 0 2) uncommitted_log in
  let n' := Init_consensus n 5 0 (str "n1:10.0.0.1:7001,n2:::1:7002") (str "n1") 7001 in
  n_role n' = Follower ∧ str "n2" ∈ GetPeerIdsLocked n' ∧ n_last_applied n' = 1.
Proof.
  destruct (restart_applies_uncommitted (example_node (KvStateMachine_new 0 2) uncommitted_log) 5 0 uncommitted_log
    uncommitted_alog (KvStateMachine_new 0 2) (str "n1:10.0.0.1:7001,n2:::1:7002") (str "n1") (str "n2") 7001
    (list_to_map example_peers) (mkTcpPeer (str "::1") 7002)) as (H1 & H2 & _ & H3 & _);
    [reflexivity|reflexivity|reflexivity|reflexivity|apply rep_Append; [apply CommandLog_new_rep|by_decide]|reflexivity|reflexivity|reflexivity|by_decide|by_decide|by_decide|by_decide
    |by_decide|by_compute|by_decide|by_compute|by_decide|exact (conj H1 (conj H2 H3))].
Defined.
End examples.
