(* ===== verification/Serving.v ===== *)
(** * What clients see

    The service as a whole, one request at a time: the command queue, dispatch,
    the command table, the engine with its log, commit and state machine, the
    shards, the callbacks of GET and the reply builder together behave like one
    map with expiry times ([FlatStore]).  The reference is [spec_reply]. *)

From S2P Require Import Prelude Absl Sds IoBuf RaftTypes LogStorage StateMachine CommandEncoder CommandLog Aof DbSlice ReplyBuilder ConnContext Connection CommandStream KvStateMachine ServerSnapshot DebugCmd Registry RaftNode Replication FollowerLog SoloLeader Engine Service Startup.

(** ** The reference *)

Section spec.
Context {lib : KvLib}.
Implicit Types (f : FlatStore) (args : list bytes).

Definition ok_line : bytes := str "+OK" ++ CRLF.
Definition one_line : bytes := str ":1" ++ CRLF.
Definition error_line (msg : bytes) : bytes := str "-ERR " ++ msg ++ CRLF.

Definition get_line (v : option bytes) : bytes :=
  response_bytes match v with Some v => BulkString v | None => Null end.

(** The new state and the reply, for the commands on keys and PING; [None] for
    the others (COMMAND, SAVE, DEBUG, INFO).  A write is always acknowledged in
    the same way, whatever it did. *)
Definition spec_reply f args : option (FlatStore * bytes) :=
  match args with
  | [] => None
  | name :: rest =>
      let name := sdstoupper name in
      let wrong := Some (f, error_line (WrongNumArgsError name)) in
      if bool_decide (name = str "SET") then
        if (length rest <? 2)%nat then wrong else Some ((apply_args f (name :: rest)).1, ok_line)
      else if bool_decide (name = str "DEL") then
        if (length rest <? 1)%nat then wrong else Some ((apply_args f (name :: rest)).1, one_line)
      else if bool_decide (name = str "EXPIRE") then
        if negb (length rest =? 2)%nat then wrong
        else match atoi64 (nth 1 rest []) with
        | Some seconds => if seconds <? 0 then Some (f, error_line (str "value is not an integer or out of range"))
                          else Some ((apply_args f (name :: rest)).1, one_line)
        | None => Some (f, error_line (str "value is not an integer or out of range"))
        end
      else if bool_decide (name = str "GET") then
        if negb (length rest =? 1)%nat then wrong
        else let '(f, v) := fl_cell f (nth 0 rest []) (cell_get (fl_now f)) in Some (f, get_line v)
      else if bool_decide (name = str "PING") then
        match rest with
        | [] => Some (f, str "+PONG" ++ CRLF)
        | [arg] => Some (f, str "+" ++ arg ++ CRLF)
        | _ => Some (f, error_line (str "wrong number of arguments for 'ping' command"))
        end
      else if bool_decide (name ∈ [str "COMMAND"; str "SAVE"; str "DEBUG"; str "INFO"]) then None
      else Some (f, error_line (str "unknown command `" ++ name ++ str "`"))
  end.
End spec.

(** ** The connection between two requests *)

Record conn_idle (cc : ConnectionContext) : Prop := {
  ci_parsed : parsed cc = [];
  ci_to_execute : to_execute cc = 0%nat;
  ci_redis : redis_ok cc;
  ci_flushed : cc_batch cc = []
}.

(** A parsed request arrives. *)
Definition receive (cc : ConnectionContext) (args : list bytes) : ConnectionContext :=
  AddParsedCommand cc (Some <$> args) (zlen args) true.

Section serving.
Context {lib : KvLib} {L : Type} `{!LogStorage L, !LogStorageSpec L}.
Implicit Types (s : Service L) (cc : ConnectionContext) (f : FlatStore) (args : list bytes) (net : Net) (env : InfoEnv).

(** The service leads alone with [len] log entries and holds the map [f]. *)
Record serving s (len : Z) f : Prop := {
  sg_registry : sv_registry s = RegisterCommands CommandRegistry_new;
  sg_node : ∃ sm, leads_with (sv_node s) len sm ∧ kv_rep sm f;
  sg_readable : sv_linearizable_read s = true → 0 < len
}.

(** The reply builder has sent [out], all of it. *)
Definition sent (rb : ReplyBuilder) (out : bytes) (rb' : ReplyBuilder) : Prop :=
  protocol_ rb' = REDIS ∧ sink_ok (serializer_ rb') ∧ batch_ (serializer_ rb') = [] ∧
  stream (serializer_ rb') = stream (serializer_ rb) ++ out.

(** A send of one piece on a connection that does not batch. *)
Lemma sent_pieces rb v :
  protocol_ rb = REDIS → sink_ok (serializer_ rb) → should_batch_ (serializer_ rb) = false →
  sent rb (concat v) (rb <| serializer_ ::= λ b, Send b v |>).
Proof.
  intros Hp Hok Hb. destruct (Send_stream (serializer_ rb) v Hok) as (H1 & H2 & _ & _ & H5).
  split; [exact Hp|]. split; [exact H2|]. split; [exact (H5 Hb)|exact H1].
Qed.

Lemma sent_error rb msg :
  protocol_ rb = REDIS → sink_ok (serializer_ rb) → should_batch_ (serializer_ rb) = false →
  byte_at msg 0 ≠ 45 → sent rb (error_line msg) (SendError rb msg).
Proof.
  intros Hp Hok Hb Hm. unfold SendError. rewrite (proj2 (Z.eqb_neq _ _) Hm).
  pose proof (sent_pieces rb [str "-ERR "; msg; CRLF] Hp Hok Hb) as H. cbn [concat] in H.
  by rewrite app_nil_r in H.
Qed.

(** ** Commands that reply at once *)

(** The queue with one command, whose reply is on the way. *)
Definition replied cc cmd : Prop := parsed cc = [cmd] ∧ to_execute cc = 0%nat ∧ replied_directly cmd.

Lemma dispatch_single env net s cc cmd :
  parsed cc = [cmd] → to_execute cc = 0%nat → parse_complete cmd = true →
  dispatch_all env net s cc =
    ('(s, cc) ← DispatchCommand env net s (reply cc (λ rb, SetBatchMode rb false)) [];
     Some (s, cc <| to_execute ::= S |>)).
Proof.
  intros Hp Ht Hc. destruct cc as [l te cl rb]. cbn [parsed to_execute] in Hp, Ht. subst l te.
  unfold dispatch_all. cbn [parsed length]. cbn [dispatch_loop parsed to_execute lookup list_lookup].
  rewrite Hc. cbn [negb]. cbv zeta. destruct (DispatchCommand env net s _ []) as [[s' cc']|]; done.
Qed.

(** After a command has replied, the turn only takes it off the queue. *)
Lemma finish_direct s cc cmd :
  replied cc cmd → redis_ok cc → cc_batch cc = [] →
  let '(s', cc') := run_callbacks s (cc <| to_execute ::= S |>) in
  s' = s ∧ conn_idle (ReplyReadyCommands cc') ∧ cc_stream (ReplyReadyCommands cc') = cc_stream cc.
Proof.
  intros (Hp & Ht & Hpc & Hea & Hr) Hok Hb.
  destruct cc as [l te cl rb0]. cbn [parsed to_execute reply_builder_] in Hp, Ht, Hb. subst l te.
  unfold run_callbacks. cbn. unfold pending. rewrite Hea, andb_false_r. cbn [andb]. split; [done|].
  unfold ReplyReadyCommands. cbn. unfold CheckIfCanReply. rewrite Hpc, Hea. cbn. rewrite Hr. cbn. split; [|done].
  destruct Hok as [Hp0 Hs0]. split; [done|done|by split|exact Hb].
Qed.

(** The command of a request, with its flag [dispatched]; the connection while it
    is dispatched. *)
Definition request args (d : bool) : ParsedCommand :=
  mkParsedCommand (Some <$> args) (zlen args) true d false Monostate false false.

Definition queued cc (cmd : ParsedCommand) : ConnectionContext :=
  mkConnectionContext [cmd] 0 (CONN_CLOSING cc) (SetBatchMode (reply_builder_ cc) false).

Lemma cmd_args_request args d : cmd_args (request args d) = args.
Proof. unfold cmd_args, request. cbn [tokens]. rewrite <-list_fmap_compose. apply list_fmap_id. Qed.

Lemma receive_queued cc args :
  conn_idle cc → reply (receive cc args) (λ rb, SetBatchMode rb false) = queued cc (request args false).
Proof.
  intros [Hp Ht _ _]. destruct cc as [l te cl rb]. cbn [parsed to_execute] in Hp, Ht. by subst.
Qed.

(** [DispatchCommand] on a request. *)
Lemma Dispatch_request env net s cc name rest :
  let cmd_str := sdstoupper name in
  let args := cmd_str :: rest in
  DispatchCommand env net s (queued cc (request (name :: rest) false)) [] =
  match Find (sv_registry s) cmd_str with
  | None => Some (s, reply (queued cc (request args false)) (λ rb, SendError rb (str "unknown command `" ++ cmd_str ++ str "`")))
  | Some cid =>
      if bad_arity (ci_arity cid) (zlen args)
      then Some (s, reply (queued cc (request args false)) (λ rb, SendError rb (WrongNumArgsError cmd_str)))
      else Invoke env net (s <| sv_commands_processed ::= λ c, u64 (c + 1) |>) (queued cc (request args true)) cid
             (request args true) []
  end.
Proof.
  intros cmd_str args. unfold DispatchCommand. cbn [queued parsed to_execute lookup list_lookup].
  change (argc (request (name :: rest) false)) with (zlen (name :: rest)). rewrite zlen_cons.
  pose proof (zlen_nonneg rest). rewrite (proj2 (Z.leb_gt (1 + zlen rest) 0)) by lia.
  reflexivity.
Qed.

Lemma serve_direct env net s cc args s' cc1 cmd out :
  conn_idle cc →
  DispatchCommand env net s (queued cc (request args false)) [] = Some (s', cc1) →
  replied cc1 cmd → sent (reply_builder_ cc) out (reply_builder_ cc1) →
  ∃ cc', serve_turn env net s (receive cc args) = Some (s', cc') ∧ conn_idle cc' ∧
    cc_stream cc' = cc_stream cc ++ out.
Proof.
  intros Hi Hd Hr (S1 & S2 & S3 & S4). unfold serve_turn.
  rewrite (dispatch_single env net s _ (request args false)).
  - rewrite (receive_queued cc args Hi), Hd. cbn [mbind option_bind].
    pose proof (finish_direct s' cc1 cmd Hr ltac:(by split) S3) as H.
    destruct (run_callbacks s' (cc1 <| to_execute ::= S |>)) as [s2 cc2]. destruct H as (-> & H1 & H2).
    eexists. split; [reflexivity|]. split; [done|]. rewrite H2. exact S4.
  - unfold receive, AddParsedCommand. cbn. by rewrite (ci_parsed _ Hi).
  - apply Hi.
  - done.
Qed.

(** The reply builder of an idle connection, when a request is dispatched. *)
Lemma queued_ready cc cmd :
  conn_idle cc → let rb := reply_builder_ (queued cc cmd) in
  protocol_ rb = REDIS ∧ sink_ok (serializer_ rb) ∧ should_batch_ (serializer_ rb) = false ∧
  stream (serializer_ rb) = cc_stream cc.
Proof. intros [_ _ [Hp Hs] _]. by split_and!. Qed.

Lemma sent_queued cc cmd out rb :
  conn_idle cc → sent (reply_builder_ (queued cc cmd)) out rb → sent (reply_builder_ cc) out rb.
Proof. intros Hi (H1 & H2 & H3 & H4). by split_and!. Qed.

(** An error reply, and a reply in pieces. *)
Lemma serve_pieces env net s cc args args' d s' v :
  conn_idle cc →
  DispatchCommand env net s (queued cc (request args false)) [] =
    Some (s', reply (queued cc (request args' d)) (λ rb, rb <| serializer_ ::= λ b, Send b v |>)) →
  ∃ cc', serve_turn env net s (receive cc args) = Some (s', cc') ∧ conn_idle cc' ∧
    cc_stream cc' = cc_stream cc ++ concat v.
Proof.
  intros Hi Hd. destruct (queued_ready cc (request args' d) Hi) as (Q1 & Q2 & Q3 & _).
  apply (serve_direct env net s cc args s' _ (request args' d) (concat v) Hi Hd); [done|].
  apply (sent_queued cc (request args' d)); [done|]. by apply sent_pieces.
Qed.

Lemma serve_error env net s cc args args' d s' msg :
  conn_idle cc → byte_at msg 0 ≠ 45 →
  DispatchCommand env net s (queued cc (request args false)) [] =
    Some (s', reply (queued cc (request args' d)) (λ rb, SendError rb msg)) →
  ∃ cc', serve_turn env net s (receive cc args) = Some (s', cc') ∧ conn_idle cc' ∧
    cc_stream cc' = cc_stream cc ++ error_line msg.
Proof.
  intros Hi Hm Hd. destruct (serve_pieces env net s cc args args' d s' [str "-ERR "; msg; CRLF] Hi) as (cc' & H1 & H2 & H3).
  - rewrite Hd. unfold SendError. by rewrite (proj2 (Z.eqb_neq _ _) Hm).
  - exists cc'. split; [done|]. split; [done|]. rewrite H3. cbn [concat]. by rewrite app_nil_r.
Qed.

(** ** Writes *)

Lemma serving_frame s s' len f :
  serving s len f → sv_registry s' = sv_registry s → sv_node s' = sv_node s →
  sv_linearizable_read s' = sv_linearizable_read s → serving s' len f.
Proof. intros [H1 H2 H3] E1 E2 E3. split; [congruence|by rewrite E2|by rewrite E3]. Qed.

(** What the append-only file depends on. *)
Definition journal s : AofWriter * bool * bool := (sv_aof s, sv_replay_mode s, sv_raft_persistence s).

Definition journal_write (j : AofWriter * bool * bool) args : AofWriter * bool * bool :=
  let '(w, replay, raft) := j in
  if negb replay && negb raft then (RecordCommand w args, replay, raft) else j.

Lemma record_write_journal s args d : journal (record_write s (request args d)) = journal_write (journal s) args.
Proof.
  unfold record_write, journal_write, journal. rewrite cmd_args_request.
  destruct (negb (sv_replay_mode s) && negb (sv_raft_persistence s)); reflexivity.
Qed.

Lemma submit_journal net s cid cmd s' r : submit net s cid cmd = (s', r) → journal s' = journal s.
Proof. unfold submit. destruct (RaftEngine_SubmitCommand _ _ _ _ _). by intros [= <- <-]. Qed.

Lemma record_write_serving s cmd len f : serving s len f → serving (record_write s cmd) len f.
Proof. intros H. unfold record_write. case_match; [|done]. apply (serving_frame s); [done|reflexivity..]. Qed.

Definition server_table : CommandRegistry := Eval vm_compute in RegisterCommands CommandRegistry_new.

Lemma submit_serving net s len f cid args :
  serving s len f → is_write (ci_name cid) → Z.land (ci_opt_mask cid) CO_WRITE ≠ 0 → args ≠ [] →
  zlen (EncodeRespArray args) < U64_MAX → len + 1 < U64_MAX →
  ∃ s', submit net s cid (request args true) = (s', mkApplyResult OK 1) ∧
    serving s' (len + 1) (apply_args f args).1.
Proof.
  intros [H1 (sm & Hl & Hr) H3] Hw Hm Ha Hsz Hlen. unfold submit. rewrite cmd_args_request.
  pose proof (SubmitCommand_alone net (sv_node s) len sm _ _ args Hl Hw Hm Ha Hsz Hlen) as H.
  destruct (RaftEngine_SubmitCommand _ _ _ _ _) as [n' r]. destruct H as [-> Hl'].
  eexists. split; [reflexivity|]. split; [exact H1| |cbn; intros Hx; specialize (H3 Hx); lia].
  exists (apply_args sm args).1. split; [exact Hl'|]. by apply apply_args_rep.
Qed.

(** ** Reads *)

(** The node after a local read. *)
Lemma on_kv_get s len f key :
  serving s len f →
  ∃ n', on_kv (sv_node s) None (λ kv, kv_Get kv 0 key) = (n', (cell_get (fl_now f) (fl_map f !! key)).2) ∧
    serving (s <| sv_node := n' |>) len (fl_cell f key (cell_get (fl_now f))).1.
Proof.
  intros [H1 (sm & (a & Hc & <-) & Hr) H3]. unfold on_kv. rewrite (cu_sm _ _ _ Hc).
  destruct (Await_rep sm f key None _ _ Hr (get_implements (kv_now sm) key)) as [Hr' Hv].
  rewrite (kr_now _ _ Hr) in Hr', Hv. unfold kv_Get. rewrite (kr_now _ _ Hr).
  destruct (Await sm key None _) as [sm' v]. cbn [fst snd] in *. rewrite Hv. eexists. split; [reflexivity|].
  split; [exact H1| |exact H3]. exists sm'. split; [|exact Hr'].
  exists a. split; [|done]. apply (caught_up_frame (sv_node s) _ a sm); [done| |reflexivity..].
  unfold same_role. split_and!; reflexivity.
Qed.

(** GET is not refused. *)
Lemma Get_accepted net s cc len f :
  serving s len f →
  ∃ s', Service_Get net s cc = (s', on_command cc (λ cmd, cmd <| execute_async := true |>)) ∧ serving s' len f ∧
    journal s' = journal s.
Proof.
  intros Hs. pose proof Hs as [H1 (sm & (a & Hc & <-) & Hr) H3]. unfold Service_Get.
  destruct (sv_linearizable_read s) eqn:El; [|by exists s].
  destruct (ReadIndex_alone net (sv_node s) a sm Hc) as (n' & E & Hc'). rewrite E.
  rewrite (proj2 (Z.eqb_neq _ 0)) by (specialize (H3 eq_refl); lia).
  eexists. split; [reflexivity|]. split; [|reflexivity]. split; [exact H1| |exact (λ _, H3 eq_refl)].
  exists sm. split; [|done]. by exists a.
Qed.

Lemma serve_get env net s cc len f name key :
  serving s len f → conn_idle cc → sdstoupper name = str "GET" →
  ∃ s' cc', serve_turn env net s (receive cc [name; key]) = Some (s', cc') ∧ conn_idle cc' ∧
    serving s' len (fl_cell f key (cell_get (fl_now f))).1 ∧ journal s' = journal s ∧
    cc_stream cc' = cc_stream cc ++ get_line (cell_get (fl_now f) (fl_map f !! key)).2.
Proof.
  intros Hs Hi Hn. unfold serve_turn. rewrite (dispatch_single env net s _ (request [name; key] false));
    [|unfold receive, AddParsedCommand; cbn; by rewrite (ci_parsed _ Hi)|apply Hi|done].
  rewrite (receive_queued cc _ Hi), Dispatch_request, Hn, (sg_registry _ _ _ Hs).
  change (RegisterCommands CommandRegistry_new) with server_table.
  set (s0 := s <| sv_commands_processed ::= λ c, u64 (c + 1) |>).
  assert (serving s0 len f) as Hs0 by (apply (serving_frame s); [done|reflexivity..]).
  set (cmd := request [str "GET"; key] true).
  change (Find server_table (str "GET")) with (Some (mkCommandId (str "GET") 3 2 1 1 1 HGet)).
  cbn [ci_arity Invoke ci_handler]. change (bad_arity 2 (zlen [str "GET"; key])) with false. cbv iota.
  destruct (Get_accepted net s0 (queued cc cmd) len f Hs0) as (s1 & -> & Hs1 & Hj1). cbn [mbind option_bind].
  set (cmd1 := cmd <| execute_async := true |>).
  assert ((on_command (queued cc cmd) (λ cmd, cmd <| execute_async := true |>)) <| to_execute ::= S |> =
    mkConnectionContext [cmd1] 1 (CONN_CLOSING cc) (SetBatchMode (reply_builder_ cc) false)) as -> by done.
  unfold run_callbacks. cbn [parsed length seq fold_left lookup list_lookup]. change (pending cmd1) with true. cbv iota.
  unfold Get_callback. cbn [parsed lookup list_lookup]. change (token cmd1 1) with key.
  destruct (on_kv_get s1 len f key Hs1) as (n' & -> & Hs2).
  set (v := (cell_get (fl_now f) (fl_map f !! key)).2) in *.
  set (r := match v with Some value => BulkString value | None => Null end).
  set (cmd2 := cmd1 <| resp := r |> <| EXECUTE_DONE := true |>).
  assert (∃ s2, serving s2 len (fl_cell f key (cell_get (fl_now f))).1 ∧ journal s2 = journal s1 ∧
    (let '(s, (cmd, notify)) := match v with
        | Some value => ((s1 <| sv_node := n' |>) <| sv_keyspace_hits ::= λ h, u64 (h + 1) |>, cmd_SendGetReply key 0 value cmd1)
        | None => ((s1 <| sv_node := n' |>) <| sv_keyspace_misses ::= λ m, u64 (m + 1) |>, cmd_SendGetNotFound cmd1)
        end in
      (s, (mkConnectionContext [cmd1] 1 (CONN_CLOSING cc) (SetBatchMode (reply_builder_ cc) false))
             <| parsed ::= <[0%nat := cmd]> |>, notify)).1 =
      (s2, mkConnectionContext [cmd2] 1 (CONN_CLOSING cc) (SetBatchMode (reply_builder_ cc) false))) as (s2 & Hs3 & Hj2 & ->).
  { unfold cmd2, r. destruct v as [value|]; cbn; (eexists; split; [|split; [|reflexivity]]);
      first [reflexivity|apply (serving_frame (s1 <| sv_node := n' |>)); [done|reflexivity..]]. }
  set (cc2 := mkConnectionContext [cmd2] 1 (CONN_CLOSING cc) (SetBatchMode (reply_builder_ cc) false)).
  destruct (reply_ready_stream [cmd2] [] 0 cc2) as (R1 & R2 & R3 & R4 & R5).
  - by destruct Hi as [_ _ [? ?] _].
  - by repeat constructor.
  - done.
  - done.
  - by left.
  - exists s2, (ReplyReadyCommands cc2). split; [done|].
    change (ReplyReadyCommands cc2) with (reply_ready (length [cmd2] + 0) cc2).
    split; [split; [done|done|done|]|].
    + apply (R5 cmd2); [done| |done]. cbn. unfold r. by destruct v.
    + split; [done|]. split; [by rewrite Hj2, Hj1|]. rewrite R2. cbn [fmap list_fmap concat]. by rewrite app_nil_r.
Qed.

(** ** One request *)

Lemma zlen_upper name rest :
  zlen (EncodeRespArray (sdstoupper name :: rest)) = zlen (EncodeRespArray (name :: rest)).
Proof.
  assert (zlen (sdstoupper name) = zlen name) as E by (unfold zlen, sdstoupper; by rewrite length_fmap).
  unfold EncodeRespArray. cbn [map concat]. rewrite !zlen_cons. unfold EncodeBulk. rewrite E, !zlen_app, E. done.
Qed.

Lemma Find_known name :
  Find server_table name = None ∨
  ∃ cid, cid ∈ server_table ∧ ci_name cid = name ∧ Find server_table name = Some cid.
Proof.
  destruct (Find server_table name) as [cid|] eqn:E; [right|by left]. exists cid.
  unfold Find in E. apply find_some in E as [H1%list_elem_of_In H2%bool_decide_eq_true]. by split_and!.
Qed.

Lemma Find_other name :
  name ∉ ci_name <$> server_table → Find server_table name = None.
Proof.
  intros Hn. destruct (Find_known name) as [|(cid & Hin & <- & _)]; [done|]. destruct Hn.
  apply list_elem_of_fmap. by exists cid.
Qed.

(** A request for a registered command with the right number of arguments, and
    with the wrong one. *)
Lemma Dispatch_registered env net s cc name rest cid len f :
  serving s len f → Find server_table (sdstoupper name) = Some cid →
  DispatchCommand env net s (queued cc (request (name :: rest) false)) [] =
    if bad_arity (ci_arity cid) (1 + zlen rest)
    then Some (s, reply (queued cc (request (sdstoupper name :: rest) false))
                    (λ rb, SendError rb (WrongNumArgsError (sdstoupper name))))
    else Invoke env net (s <| sv_commands_processed ::= λ c, u64 (c + 1) |>)
           (queued cc (request (sdstoupper name :: rest) true)) cid (request (sdstoupper name :: rest) true) [].
Proof.
  intros Hs Hf. rewrite Dispatch_request, (sg_registry _ _ _ Hs).
  change (RegisterCommands CommandRegistry_new) with server_table. by rewrite Hf, zlen_cons.
Qed.

(** The result of a turn: the reply of the reference, the new map and the journal. *)
Definition turn_ok env net s cc args len f' (j' : AofWriter * bool * bool) out : Prop :=
  ∃ s' cc' len', serve_turn env net s (receive cc args) = Some (s', cc') ∧ conn_idle cc' ∧
    serving s' len' f' ∧ journal s' = j' ∧ len ≤ len' ≤ len + 1 ∧ cc_stream cc' = cc_stream cc ++ out.

Lemma serve_wrong env net s cc name rest cid len f :
  serving s len f → conn_idle cc → Find server_table (sdstoupper name) = Some cid →
  bad_arity (ci_arity cid) (1 + zlen rest) = true →
  turn_ok env net s cc (name :: rest) len f (journal s) (error_line (WrongNumArgsError (sdstoupper name))).
Proof.
  intros Hs Hi Hf Hb.
  destruct (serve_error env net s cc (name :: rest) (sdstoupper name :: rest) false s (WrongNumArgsError (sdstoupper name)) Hi)
    as (cc' & H1 & H2 & H3).
  - done.
  - by rewrite (Dispatch_registered env net s cc name rest cid len f Hs Hf), Hb.
  - exists s, cc', len. split_and!; try done; lia.
Qed.

(** A write that is accepted, with its reply. *)
Lemma serve_write env net s cc name rest cid len f j v :
  serving s len f → conn_idle cc → Find server_table (sdstoupper name) = Some cid →
  is_write (ci_name cid) → Z.land (ci_opt_mask cid) CO_WRITE ≠ 0 →
  bad_arity (ci_arity cid) (1 + zlen rest) = false →
  zlen (EncodeRespArray (name :: rest)) < U64_MAX → len + 1 < U64_MAX →
  (∀ s0 s1, let cmd := request (sdstoupper name :: rest) true in
     submit net s0 cid cmd = (s1, mkApplyResult OK 1) →
     ∃ s2, Invoke env net s0 (queued cc cmd) cid cmd [] =
             Some (s2, reply (queued cc cmd) (λ rb, rb <| serializer_ ::= λ b, Send b v |>)) ∧
           (∀ len f, serving s1 len f → serving s2 len f) ∧ (journal s1 = journal s → journal s2 = j)) →
  turn_ok env net s cc (name :: rest) len (apply_args f (sdstoupper name :: rest)).1 j (concat v).
Proof.
  intros Hs Hi Hf Hw Hm Hb Hsz Hlen Hinv.
  set (s0 := s <| sv_commands_processed ::= λ c, u64 (c + 1) |>).
  assert (serving s0 len f) as Hs0 by (apply (serving_frame s); [done|reflexivity..]).
  destruct (submit_serving net s0 len f cid (sdstoupper name :: rest) Hs0 Hw Hm) as (s1 & E1 & Hs1);
    [done|by rewrite zlen_upper|done|].
  destruct (Hinv s0 s1 E1) as (s2 & E2 & Hfr & Hj).
  destruct (serve_pieces env net s cc (name :: rest) (sdstoupper name :: rest) true s2 v Hi) as (cc' & H1 & H2 & H3).
  - rewrite (Dispatch_registered env net s cc name rest cid len f Hs Hf), Hb. exact E2.
  - exists s2, cc', (len + 1). split_and!; try done; [by apply Hfr|by apply Hj; rewrite (submit_journal _ _ _ _ _ _ E1)|lia].
Qed.

Lemma serve_turn_set env net s cc name rest len f :
  serving s len f → conn_idle cc → sdstoupper name = str "SET" → (2 ≤ length rest)%nat →
  zlen (EncodeRespArray (name :: rest)) < U64_MAX → len + 1 < U64_MAX →
  turn_ok env net s cc (name :: rest) len (apply_args f (str "SET" :: rest)).1
    (journal_write (journal s) (str "SET" :: rest)) ok_line.
Proof.
  intros Hs Hi Hn Hr Hsz Hlen. pose proof Hi as [_ _ [Hp _] _]. rewrite <-Hn.
  apply (serve_write env net s cc name rest (mkCommandId (str "SET") 20 (-3) 1 1 1 HSet) len f _
    [str "+"; str "OK"; CRLF] Hs Hi); try done.
  - by rewrite Hn.
  - by left.
  - unfold bad_arity. cbn [ci_arity]. unfold zlen. apply orb_false_iff. split; [done|]. apply andb_false_iff. right.
    apply Z.ltb_ge. lia.
  - intros s0 s1 cmd E. cbn [Invoke ci_handler]. unfold Service_Set. rewrite E. cbn [is_error ar_op].
    eexists. split; [|split; [intros; by apply record_write_serving|intros Hj; unfold cmd; by rewrite record_write_journal, Hj]].
    unfold reply, SendStored. cbn. by rewrite Hp.
Qed.

Lemma serve_turn_del env net s cc name rest len f :
  serving s len f → conn_idle cc → sdstoupper name = str "DEL" → (1 ≤ length rest)%nat →
  zlen (EncodeRespArray (name :: rest)) < U64_MAX → len + 1 < U64_MAX →
  turn_ok env net s cc (name :: rest) len (apply_args f (str "DEL" :: rest)).1
    (journal_write (journal s) (str "DEL" :: rest)) one_line.
Proof.
  intros Hs Hi Hn Hr Hsz Hlen. rewrite <-Hn.
  apply (serve_write env net s cc name rest (mkCommandId (str "DEL") 4 (-2) 1 1 1 HDel) len f _
    [str ":" ++ FastIntToBuffer 1 ++ CRLF] Hs Hi); try done.
  - by rewrite Hn.
  - by right; left.
  - unfold bad_arity. cbn [ci_arity]. unfold zlen. apply orb_false_iff. split; [done|]. apply andb_false_iff. right.
    apply Z.ltb_ge. lia.
  - intros s0 s1 cmd E. cbn [Invoke ci_handler]. unfold Service_Del. rewrite E. cbn [is_error ar_op].
    eexists. split; [reflexivity|]. split; [intros; by apply record_write_serving|].
    intros Hj. unfold cmd. by rewrite record_write_journal, Hj.
Qed.

Lemma serve_turn_expire env net s cc name rest len f seconds :
  serving s len f → conn_idle cc → sdstoupper name = str "EXPIRE" → length rest = 2%nat →
  atoi64 (nth 1 rest []) = Some seconds → (seconds <? 0) = false →
  zlen (EncodeRespArray (name :: rest)) < U64_MAX → len + 1 < U64_MAX →
  turn_ok env net s cc (name :: rest) len (apply_args f (str "EXPIRE" :: rest)).1 (journal s) one_line.
Proof.
  intros Hs Hi Hn Hr Ha Hsec Hsz Hlen. rewrite <-Hn.
  apply (serve_write env net s cc name rest (mkCommandId (str "EXPIRE") 4 3 1 1 1 HExpire) len f _
    [str ":" ++ FastIntToBuffer 1 ++ CRLF] Hs Hi); try done.
  - by rewrite Hn.
  - by right; right.
  - unfold zlen. by rewrite Hr.
  - intros s0 s1 cmd E. cbn [Invoke ci_handler]. unfold Service_Expire.
    assert (token cmd 2 = nth 1 rest []) as -> by (unfold token, cmd; by rewrite cmd_args_request).
    rewrite Ha, Hsec, E. cbn [is_error ar_op]. eexists. split; [reflexivity|]. split; [done|]. by intros ->.
Qed.

Lemma serve_turn_bad_expire env net s cc name rest len f :
  serving s len f → conn_idle cc → sdstoupper name = str "EXPIRE" → length rest = 2%nat →
  (∀ seconds, atoi64 (nth 1 rest []) = Some seconds → (seconds <? 0) = true) →
  turn_ok env net s cc (name :: rest) len f (journal s) (error_line (str "value is not an integer or out of range")).
Proof.
  intros Hs Hi Hn Hr Ha. set (s0 := s <| sv_commands_processed ::= λ c, u64 (c + 1) |>).
  destruct (serve_error env net s cc (name :: rest) (sdstoupper name :: rest) true s0
    (str "value is not an integer or out of range") Hi) as (cc' & H1 & H2 & H3).
  - done.
  - rewrite (Dispatch_registered env net s cc name rest (mkCommandId (str "EXPIRE") 4 3 1 1 1 HExpire) len f Hs) by (by rewrite Hn).
    unfold zlen. rewrite Hr. change (bad_arity _ _) with false. cbn [Invoke ci_handler]. unfold Service_Expire.
    assert (token (request (sdstoupper name :: rest) true) 2 = nth 1 rest []) as ->
      by (unfold token; by rewrite cmd_args_request).
    destruct (atoi64 (nth 1 rest [])) as [sec|] eqn:E; [|done]. by rewrite (Ha sec eq_refl).
  - exists s0, cc', len. split_and!; try done; [|lia]. apply (serving_frame s); [done|reflexivity..].
Qed.

Lemma serve_turn_ping env net s cc name rest len f :
  serving s len f → conn_idle cc → sdstoupper name = str "PING" →
  turn_ok env net s cc (name :: rest) len f (journal s)
    match rest with
    | [] => str "+PONG" ++ CRLF
    | [arg] => str "+" ++ arg ++ CRLF
    | _ => error_line (str "wrong number of arguments for 'ping' command")
    end.
Proof.
  intros Hs Hi Hn. set (s0 := s <| sv_commands_processed ::= λ c, u64 (c + 1) |>).
  assert (serving s0 len f) as Hs0 by (apply (serving_frame s); [done|reflexivity..]).
  assert (DispatchCommand env net s (queued cc (request (name :: rest) false)) [] =
    Some (Ping s0 (queued cc (request (sdstoupper name :: rest) true)) (request (sdstoupper name :: rest) true))) as Hd.
  { rewrite (Dispatch_registered env net s cc name rest (mkCommandId (str "PING") 34 (-1) 0 0 0 HPing) len f Hs) by (by rewrite Hn).
    replace (bad_arity _ _) with false; [done|]. unfold bad_arity, zlen. symmetry. apply orb_false_iff. split; [done|].
    apply andb_false_iff. right. apply Z.ltb_ge. simpl. lia. }
  assert (∀ cc', serve_turn env net s (receive cc (name :: rest)) = Some (s0, cc') → conn_idle cc' →
            ∀ out, cc_stream cc' = cc_stream cc ++ out → turn_ok env net s cc (name :: rest) len f (journal s) out) as Hfin.
  { intros cc' H1 H2 out H3. exists s0, cc', len. split_and!; try done. lia. }
  unfold Ping in Hd. change (argc (request (sdstoupper name :: rest) true)) with (zlen (sdstoupper name :: rest)) in Hd.
  unfold token in Hd. rewrite cmd_args_request in Hd. destruct rest as [|arg [|arg2 rest]].
  - destruct (serve_pieces env net s cc [name] [sdstoupper name] true s0 [str "+"; str "PONG"; CRLF] Hi Hd) as (cc' & H1 & H2 & H3).
    by apply (Hfin cc').
  - destruct (serve_pieces env net s cc [name; arg] [sdstoupper name; arg] true s0 [str "+"; arg; CRLF] Hi Hd) as (cc' & H1 & H2 & H3).
    apply (Hfin cc'); [done..|]. rewrite H3. cbn [concat]. by rewrite app_nil_r.
  - rewrite (proj2 (Z.ltb_lt 2 _)) in Hd by (unfold zlen; simpl; lia).
    destruct (serve_error env net s cc _ (sdstoupper name :: arg :: arg2 :: rest) true s0
      (str "wrong number of arguments for 'ping' command") Hi ltac:(done) Hd) as (cc' & H1 & H2 & H3).
    by apply (Hfin cc').
Qed.

Lemma serve_turn_unknown env net s cc name rest len f :
  serving s len f → conn_idle cc → sdstoupper name ∉ ci_name <$> server_table →
  turn_ok env net s cc (name :: rest) len f (journal s) (error_line (str "unknown command `" ++ sdstoupper name ++ str "`")).
Proof.
  intros Hs Hi Hn.
  destruct (serve_error env net s cc (name :: rest) (sdstoupper name :: rest) false s
    (str "unknown command `" ++ sdstoupper name ++ str "`") Hi) as (cc' & H1 & H2 & H3).
  - done.
  - rewrite Dispatch_request, (sg_registry _ _ _ Hs). change (RegisterCommands CommandRegistry_new) with server_table.
    by rewrite Find_other.
  - exists s, cc', len. split_and!; try done. lia.
Qed.

(** What a request adds to the append-only file: SET and DEL are recorded. *)
Definition recorded args : option (list bytes) :=
  match args with
  | [] => None
  | name :: rest =>
      let name := sdstoupper name in
      if bool_decide (name = str "SET") && negb (length rest <? 2)%nat then Some (name :: rest)
      else if bool_decide (name = str "DEL") && negb (length rest <? 1)%nat then Some (name :: rest)
      else None
  end.

Definition journal_request (j : AofWriter * bool * bool) args : AofWriter * bool * bool :=
  match recorded args with Some a => journal_write j a | None => j end.

Lemma not_recorded j args : recorded args = None → journal_request j args = j.
Proof. unfold journal_request. by intros ->. Qed.

Lemma is_recorded j args a : recorded args = Some a → journal_request j args = journal_write j a.
Proof. unfold journal_request. by intros ->. Qed.

(** Evaluates [recorded] for a known command name. *)
#[local] Ltac journal_case E :=
  unfold recorded; cbv zeta; rewrite E;
  repeat first [rewrite bool_decide_true by done | rewrite bool_decide_false by done]; cbn [andb].

(** Every request the reference covers. *)
Lemma serve_request env net s cc args len f f' out :
  serving s len f → conn_idle cc → spec_reply f args = Some (f', out) →
  zlen (EncodeRespArray args) < U64_MAX → len + 1 < U64_MAX →
  turn_ok env net s cc args len f' (journal_request (journal s) args) out.
Proof.
  intros Hs Hi Hspec Hsz Hlen. destruct args as [|name rest]; [done|]. cbn [spec_reply] in Hspec. cbv zeta in Hspec.
  case_bool_decide as E1; [|case_bool_decide as E2; [|case_bool_decide as E3; [|case_bool_decide as E4; [|case_bool_decide as E5; [|]]]]].
  - destruct (Nat.ltb_spec (length rest) 2); injection Hspec as <- <-.
    + rewrite (not_recorded _ (name :: rest)) by (journal_case E1; rewrite (proj2 (Nat.ltb_lt _ 2)) by done; done).
      apply (serve_wrong env net s cc name rest (mkCommandId (str "SET") 20 (-3) 1 1 1 HSet)); [done..|by rewrite E1|].
      unfold bad_arity, zlen. simpl. apply Z.ltb_lt. lia.
    + rewrite (is_recorded _ (name :: rest) (str "SET" :: rest))
        by (journal_case E1; rewrite (proj2 (Nat.ltb_ge _ 2)) by done; done).
      rewrite E1. by apply serve_turn_set.
  - destruct (Nat.ltb_spec (length rest) 1); injection Hspec as <- <-.
    + rewrite (not_recorded _ (name :: rest)) by (journal_case E2; rewrite (proj2 (Nat.ltb_lt _ 1)) by done; done).
      apply (serve_wrong env net s cc name rest (mkCommandId (str "DEL") 4 (-2) 1 1 1 HDel)); [done..|by rewrite E2|].
      unfold bad_arity, zlen. simpl. apply Z.ltb_lt. lia.
    + rewrite (is_recorded _ (name :: rest) (str "DEL" :: rest))
        by (journal_case E2; rewrite (proj2 (Nat.ltb_ge _ 1)) by done; done).
      rewrite E2. by apply serve_turn_del.
  - rewrite (not_recorded _ (name :: rest)) by (by journal_case E3).
    destruct (Nat.eqb_spec (length rest) 2) as [Er|Er]; cbn [negb] in Hspec.
    + destruct (atoi64 (nth 1 rest [])) as [sec|] eqn:Ea; [destruct (sec <? 0) eqn:Es|]; injection Hspec as <- <-.
      * apply serve_turn_bad_expire; [done..|]. intros ? [= <-]%(eq_trans (eq_sym Ea)). done.
      * rewrite E3. by eapply serve_turn_expire.
      * apply serve_turn_bad_expire; [done..|]. intros ? H. congruence.
    + injection Hspec as <- <-.
      apply (serve_wrong env net s cc name rest (mkCommandId (str "EXPIRE") 4 3 1 1 1 HExpire)); [done..|by rewrite E3|].
      unfold bad_arity, zlen. simpl. rewrite orb_false_r. apply negb_true_iff, Z.eqb_neq. lia.
  - rewrite (not_recorded _ (name :: rest)) by (by journal_case E4).
    destruct (Nat.eqb_spec (length rest) 1) as [Er|Er]; cbn [negb] in Hspec.
    + destruct rest as [|key [|? ?]]; [done| |done]. injection Hspec as <- <-.
      destruct (serve_get env net s cc len f name key Hs Hi E4) as (s' & cc' & H1 & H2 & H3 & Hj & H4).
      exists s', cc', len. split_and!; try done. lia.
    + injection Hspec as <- <-.
      apply (serve_wrong env net s cc name rest (mkCommandId (str "GET") 3 2 1 1 1 HGet)); [done..|by rewrite E4|].
      unfold bad_arity, zlen. simpl. rewrite orb_false_r. apply negb_true_iff, Z.eqb_neq. lia.
  - rewrite (not_recorded _ (name :: rest)) by (by journal_case E5).
    pose proof (serve_turn_ping env net s cc name rest len f Hs Hi E5) as H.
    destruct rest as [|arg [|arg2 rest]]; injection Hspec as <- <-; exact H.
  - rewrite (not_recorded _ (name :: rest)) by (unfold recorded; by rewrite !bool_decide_false by done).
    case_bool_decide as E6; [done|]. injection Hspec as <- <-. apply serve_turn_unknown; [done..|].
    revert E1 E2 E3 E4 E5 E6. clear. generalize (sdstoupper name). intros x. set_solver.
Qed.

(** ** Sessions *)

(** The clock of the shards. *)
Definition at_time s (now : Z) : Service L :=
  s <| sv_node ::= λ n, n <| n_state_machine ::= fmap (λ kv, store_tick kv now) |> |>.

Lemma serving_at_time s len f now :
  serving s len f → serving (at_time s now) len (store_tick f now).
Proof.
  intros [H1 (sm & (a & Hc & <-) & Hr) H3]. split; [exact H1| |exact H3].
  exists (store_tick sm now). split; [|by apply tick_rep]. exists a. split; [|done].
  apply (caught_up_frame (sv_node s) _ a sm); [done|unfold same_role; split_and!; reflexivity|reflexivity| |reflexivity..].
  change (fmap (M := option) (λ kv, store_tick kv now) (n_state_machine (sv_node s)) = Some (store_tick sm now)).
  by rewrite (cu_sm _ _ _ Hc).
Qed.

(** One turn of [InputLoop] on some input: parse, dispatch, reply.  [None]: a
    protocol error, which ends the loop, or the end of the process. *)
Definition wire_turn env net s (c : Connection) (input : bytes) : option (Service L * Connection) :=
  '(c, _, status) ← ParseRedis c input;
  if bool_decide (status = ParserERROR) then None
  else '(s, cc) ← serve_turn env net s (cc_ c); Some (s, c <| cc_ := cc |>).

(** Requests one after the other, each at its own time. *)
Fixpoint serve_session env net s (c : Connection) (reqs : list (Z * list bytes)) : option (Service L * Connection) :=
  match reqs with
  | [] => Some (s, c)
  | (now, args) :: reqs =>
      '(s, c) ← wire_turn env net (at_time s now) c (EncodeRespArray args);
      serve_session env net s c reqs
  end.

Fixpoint spec_session f (reqs : list (Z * list bytes)) : option (FlatStore * bytes) :=
  match reqs with
  | [] => Some (f, [])
  | (now, args) :: reqs =>
      '(f, out) ← spec_reply (store_tick f now) args;
      '(f, outs) ← spec_session f reqs;
      Some (f, out ++ outs)
  end.

(** What the client has received. *)
Definition received (c : Connection) : bytes := sk_written (sink_ (serializer_ (reply_builder_ (cc_ c)))).

(** Between two requests. *)
Definition session_idle (c : Connection) : Prop := ready c ∧ conn_idle (cc_ c).

Definition request_ok args : Prop := command_ok args ∧ zlen (EncodeRespArray args) < U64_MAX.

Lemma wire_request `{!AbslSpec kv_absl} env net s c args len f f' out :
  serving s len f → session_idle c → spec_reply f args = Some (f', out) → request_ok args → len + 1 < U64_MAX →
  ∃ s' c' len', wire_turn env net s c (EncodeRespArray args) = Some (s', c') ∧ session_idle c' ∧
    serving s' len' f' ∧ journal s' = journal_request (journal s) args ∧ len ≤ len' ≤ len + 1 ∧
    cc_stream (cc_ c') = cc_stream (cc_ c) ++ out.
Proof.
  intros Hs [Hc Hi] Hspec [Hok Hsz] Hlen.
  destruct (serve_request env net s (cc_ c) args len f f' out Hs Hi Hspec Hsz Hlen) as (s' & cc' & len' & H1 & H2 & H3 & Hj & H4 & H5).
  assert (ParseRedis c (EncodeRespArray args) = Some (enqueue c [args], [], ParserOK)) as Hp.
  { pose proof (ParseRedis_commands c [args] [] Hc) as E. unfold encode_all in E. cbn [fmap list_fmap concat] in E.
    rewrite !app_nil_r in E. rewrite E by (constructor; [done|constructor]). done. }
  unfold wire_turn. rewrite Hp. cbn [mbind option_bind]. rewrite bool_decide_false by done.
  change (cc_ (enqueue c [args])) with (receive (cc_ c) args). rewrite H1. cbn [mbind option_bind].
  eexists s', _, len'. split; [reflexivity|]. split; [split; [exact Hc|exact H2]|]. split_and!; [done|done|lia|lia|exact H5].
Qed.

Lemma session_run `{!AbslSpec kv_absl} env net reqs : ∀ s c len f f' out,
  serving s len f → session_idle c → spec_session f reqs = Some (f', out) →
  Forall (λ r, request_ok r.2) reqs → len + zlen reqs < U64_MAX →
  ∃ s' c' len', serve_session env net s c reqs = Some (s', c') ∧ session_idle c' ∧ serving s' len' f' ∧
    journal s' = fold_left journal_request reqs.*2 (journal s) ∧ cc_stream (cc_ c') = cc_stream (cc_ c) ++ out.
Proof.
  induction reqs as [|[now args] reqs IH]; intros s c len f f' out Hs Hi Hspec Hsz Hlen.
  - injection Hspec as <- <-. exists s, c, len. by rewrite app_nil_r.
  - apply Forall_cons in Hsz as [Ha Hsz]. cbn [spec_session serve_session] in *. rewrite zlen_cons in Hlen.
    pose proof (zlen_nonneg reqs).
    destruct (spec_reply (store_tick f now) args) as [[f1 out1]|] eqn:E1; [|done]. cbn [mbind option_bind] in Hspec.
    destruct (spec_session f1 reqs) as [[f2 out2]|] eqn:E2; [|done]. cbn [mbind option_bind] in Hspec.
    injection Hspec as <- <-.
    destruct (wire_request env net (at_time s now) c args len (store_tick f now) f1 out1) as
      (s1 & c1 & len1 & -> & Hi1 & Hs1 & Hj1 & Hl1 & Hc1); [by apply serving_at_time|done|done|done|lia|].
    cbn [mbind option_bind].
    destruct (IH s1 c1 len1 f1 f2 out2 Hs1 Hi1 E2 Hsz) as (s' & c' & len' & H1 & H2 & H3 & H4 & H5); [lia|].
    exists s', c', len'. split; [done|]. split; [done|]. split; [done|]. split.
    + rewrite H4, Hj1. done.
    + rewrite H5, Hc1. by rewrite app_assoc.
Qed.

End serving.

(** ** The server after its start *)

Section started.
Context {lib : KvLib}.

(** Without files the bootstrap leaves a server that holds the empty map. *)
Lemma bootstrapped_serving now shards aof snapshot pool t :
  (0 < shards)%nat →
  serving ((Service_new (KvStateMachine_new now shards) aof snapshot false pool)
             <| sv_node ::= λ n, (BootstrapSingleNode n t).1 |>) 0 (mkFlatStore now ∅).
Proof.
  intros Hs. set (kv := KvStateMachine_new now shards).
  destruct (bootstrap_caught_up (RaftEngine_new kv) alog_empty kv t) as (n' & E & Hc).
  { split; try reflexivity. exists CommandLog_new. split; [reflexivity|apply CommandLog_new_rep]. }
  split; [reflexivity| |done]. exists kv. split; [|by apply kv_rep_new]. exists alog_empty. split; [|done].
  change (caught_up (BootstrapSingleNode (RaftEngine_new kv) t).1 alog_empty kv). by rewrite E.
Qed.
End started.

(** ** Examples *)

Section examples.
#[local] Existing Instance example_lib.

Definition example_env : InfoEnv := mkInfoEnv 6379 4711 1.

Definition example_service : Service CommandLog :=
  (Service_new (KvStateMachine_new 0 3) [] None false 4) <| sv_node ::= λ n, (BootstrapSingleNode n 1).1 |>.

Definition example_requests : list (Z * list bytes) :=
  [(1, [str "set"; str "a"; str "1"; str "PX"; str "10"]); (5, [str "GET"; str "a"]); (20, [str "GET"; str "a"]);
   (21, [str "EXPIRE"; str "a"]); (22, [str "PING"])].

Lemma example_connection_idle : session_idle example_connection.
Proof. split; [done|]. split; [done|done|split; [done|constructor]|done]. Qed.

End examples.
