(* ===== verification/Durability.v ===== *)
(** * Restart from the append-only file

    The durability of the classic mode (no --raft_dir), end to end: a session of
    a client (Serving.v), the records it leaves in appendonly.aof (Aof.v), a crash
    that cuts the file anywhere, and the next start ([Init] and [ReplayAof] of
    src/server/service/main_service.cc). *)

From S2P Require Import Prelude Absl Sds IoBuf RaftTypes LogStorage StateMachine CommandEncoder CommandLog Aof DbSlice ReplyBuilder ConnContext Connection CommandStream KvStateMachine ServerSnapshot DebugCmd Registry RaftNode Replication FollowerLog SoloLeader Engine Service Startup Serving.

(** ** Requests without a time *)

Section timeless.
Context {lib : KvLib}.
Implicit Types (f : FlatStore) (args : list bytes) (m : MainTable).

(** No key expires. *)
Definition permanent m : Prop := map_Forall (λ _ v, pv_expire_ms v = 0) m.

(** The request sets no expiry time: it is not EXPIRE, and SET without EX and PX. *)
Definition timeless args : Prop :=
  match args with
  | [] => True
  | name :: rest =>
      sdstoupper name ≠ str "EXPIRE" ∧
      (sdstoupper name = str "SET" → Forall (λ o, o ≠ str "EX" ∧ o ≠ str "PX") (drop 2 rest))
  end.

(** What a recorded command does to the table. *)
Definition replay_step m args : MainTable := fl_map (apply_args (mkFlatStore 0 m) args).1.

Lemma set_options_timeless opts : ∀ nx0 xx0,
  Forall (λ o, o ≠ str "EX" ∧ o ≠ str "PX") opts →
  ∃ nx xx, ∀ now, set_options now opts (nx0, xx0, 0) = Some (nx, xx, 0).
Proof.
  induction opts as [|o opts IH]; intros nx0 xx0 Ho; [by exists nx0, xx0|].
  apply Forall_cons in Ho as [[H1 H2] Ho]. cbn [set_options].
  rewrite (bool_decide_false (o = str "EX")), (bool_decide_false (o = str "PX")) by done. cbn [orb].
  repeat case_bool_decide; by apply IH.
Qed.

Lemma permanent_set m now val nx xx key :
  permanent m →
  let c := cell_set now val nx xx 0 in
  partial_alter (λ e, (c e).1) key m = partial_alter (λ e, (cell_set 0 val nx xx 0 e).1) key m ∧
  permanent (partial_alter (λ e, (c e).1) key m).
Proof.
  intros Hm c.
  assert (∀ now', partial_alter (λ e, (cell_set now' val nx xx 0 e).1) key m =
    partial_alter (λ e, Some (if (nx && bool_decide (is_Some e)) || (xx && negb (bool_decide (is_Some e)))
      then default (mkPrimeValue [] 0) e else mkPrimeValue val 0)) key m) as E.
  { intros now'. apply partial_alter_ext. intros e He. unfold cell_set, cell_add. destruct e as [v|].
    - assert (pv_expire_ms v = 0) as Hv by (by apply (Hm key)). unfold is_expired. rewrite Hv. cbn.
      destruct nx, xx; cbn; by rewrite ?Hv.
    - destruct nx, xx; reflexivity. }
  unfold c. rewrite !E. split; [done|]. intros k v. rewrite lookup_partial_alter. case_decide; [|apply Hm]. subst k.
  intros [= <-]. destruct (m !! key) as [v|] eqn:Ek; [|by case_match]. case_match; [by apply (Hm key)|done].
Qed.

Lemma del_all_map keys : ∀ f d,
  let del := fold_left (λ '(st, deleted) key,
    let '(st, ok) := store_Del st key in (st, if ok : bool then u32 (deleted + 1) else deleted)) keys in
  fl_map (del (f, d)).1 = fold_left (λ m key, delete key m) keys (fl_map f).
Proof.
  induction keys as [|key keys IH]; intros f d; [done|]. cbn [fold_left]. cbn zeta in IH. cbn [store_Del flat_store fl_cell].
  by rewrite IH.
Qed.

Lemma permanent_del keys : ∀ m, permanent m → permanent (fold_left (λ m key, delete key m) keys m).
Proof. induction keys as [|key keys IH]; intros m Hm; [done|]. apply IH. by apply map_Forall_delete. Qed.

(** Commands do not change the time. *)
Lemma apply_args_now f args : fl_now (apply_args f args).1 = fl_now f.
Proof.
  unfold apply_args. destruct args as [|name args]; [done|].
  case_bool_decide; [|case_bool_decide; [|case_bool_decide; [|done]]].
  - destruct args as [|key [|val opts]]; [done..|]. by destruct (set_options _ _ _) as [[[nx xx] ex]|].
  - destruct args as [|key keys]; [done|]. unfold del_all.
    assert (∀ l f d, fl_now (fold_left (λ '(st, deleted) key,
      let '(st, ok) := store_Del st key in (st, if ok : bool then u32 (deleted + 1) else deleted)) l (f, d)).1 = fl_now f) as E.
    { induction l as [|k l IH]; intros f0 d; [done|]. cbn [fold_left store_Del flat_store fl_cell]. by rewrite IH. }
    pose proof (E (key :: keys) f 0) as E1.
    destruct (fold_left _ (key :: keys) (f, 0)) as [st deleted]. exact E1.
  - destruct args as [|key [|secs rest]]; [done..|]. destruct (atoi64 secs) as [sec|]; [|done]. by destruct (sec <? 0).
Qed.

(** A timeless write does the same at every time. *)
Lemma apply_timeless f name rest :
  name = str "SET" ∨ name = str "DEL" → timeless (name :: rest) → permanent (fl_map f) →
  fl_map (apply_args f (name :: rest)).1 = replay_step (fl_map f) (name :: rest) ∧
  permanent (replay_step (fl_map f) (name :: rest)).
Proof.
  intros Hn [_ Ht] Hp. unfold replay_step. destruct Hn as [-> | ->].
  - specialize (Ht eq_refl). destruct rest as [|key [|val opts]]; [done..|]. cbn [drop] in Ht.
    destruct (set_options_timeless opts false false Ht) as (nx & xx & E). unfold apply_args.
    rewrite bool_decide_true, !E by done. cbn [store_ApplySet flat_store fl_cell].
    destruct (permanent_set (fl_map f) (fl_now f) val nx xx key Hp) as [E1 _].
    destruct (permanent_set (fl_map f) 0 val nx xx key Hp) as [_ E2]. split; [exact E1|exact E2].
  - destruct rest as [|key keys]; [done|]. unfold apply_args.
    rewrite (bool_decide_false (str "DEL" = str "SET")), (bool_decide_true (str "DEL" = str "DEL")) by done.
    unfold del_all. pose proof (del_all_map (key :: keys) f 0) as E1.
    pose proof (del_all_map (key :: keys) (mkFlatStore 0 (fl_map f)) 0) as E2. cbv zeta in E1, E2.
    repeat match goal with |- context [fold_left ?g ?l ?x] => destruct (fold_left g l x) as [? ?] end.
    cbn [fst] in *. rewrite E1, E2. split; [done|]. by apply (permanent_del (key :: keys)).
Qed.

(** A recorded command is SET or DEL, with its name in upper case. *)
Lemma recorded_write args a :
  recorded args = Some a →
  ∃ name rest, args = name :: rest ∧ a = sdstoupper name :: rest ∧
    (sdstoupper name = str "SET" ∧ (2 ≤ length rest)%nat ∨ sdstoupper name = str "DEL" ∧ (1 ≤ length rest)%nat).
Proof.
  destruct args as [|name rest]; [done|]. unfold recorded. cbv zeta. intros H. exists name, rest.
  destruct (bool_decide (sdstoupper name = str "SET") && negb (length rest <? 2)%nat) eqn:E1.
  - injection H as <-. apply andb_true_iff in E1 as [E1%bool_decide_eq_true E2%negb_true_iff%Nat.ltb_ge]. tauto.
  - destruct (bool_decide (sdstoupper name = str "DEL") && negb (length rest <? 1)%nat) eqn:E2; [|done].
    injection H as <-. apply andb_true_iff in E2 as [E2%bool_decide_eq_true E3%negb_true_iff%Nat.ltb_ge]. tauto.
Qed.

(** The effect of a timeless request on the table is that of its record. *)
Definition request_step m args : MainTable :=
  match recorded args with Some a => replay_step m a | None => m end.

Lemma get_permanent f key :
  permanent (fl_map f) → fl_map (fl_cell f key (cell_get (fl_now f))).1 = fl_map f.
Proof.
  intros Hp. cbn [fl_cell fst]. change (partial_alter (λ e, (cell_get (fl_now f) e).1) key (fl_map f) = fl_map f).
  rewrite <-(partial_alter_self (fl_map f) key) at 2. apply partial_alter_ext. intros e He.
  unfold cell_get. destruct e as [v|]; [|done]. unfold is_expired. by rewrite (Hp key v He).
Qed.

Lemma spec_timeless f args f' out :
  spec_reply f args = Some (f', out) → timeless args → permanent (fl_map f) →
  fl_map f' = request_step (fl_map f) args ∧ permanent (fl_map f').
Proof.
  intros H Ht Hp. unfold request_step. destruct args as [|name rest]; [done|]. cbn [spec_reply] in H. cbv zeta in H.
  pose proof Ht as [Hne Hset]. unfold recorded. cbv zeta.
  assert (∀ w, sdstoupper name = w → w = str "SET" ∨ w = str "DEL" →
    fl_map (apply_args f (w :: rest)).1 = replay_step (fl_map f) (w :: rest) ∧ permanent (replay_step (fl_map f) (w :: rest))) as Hw.
  { intros w Ew Hw. apply apply_timeless; [done| |done]. subst w. split; destruct Hw as [E|E]; rewrite E in *; [done..|exact Hset|done]. }
  case_bool_decide as E1; [|case_bool_decide as E2; [|case_bool_decide as E3; [done|case_bool_decide as E4; [|case_bool_decide as E5; [|]]]]].
  - rewrite (bool_decide_false (sdstoupper name = str "DEL")) by (by rewrite E1). cbn [andb].
    destruct (length rest <? 2)%nat; cbn [negb]; injection H as <- <-; [done|].
    destruct (Hw _ eq_refl (or_introl E1)) as [Ew Hperm]. split; [exact Ew|]. rewrite <-Ew in Hperm. exact Hperm.
  - cbn [andb]. destruct (length rest <? 1)%nat; cbn [negb]; injection H as <- <-; [done|].
    destruct (Hw _ eq_refl (or_intror E2)) as [Ew Hperm]. split; [exact Ew|]. rewrite <-Ew in Hperm. exact Hperm.
  - cbn [andb]. destruct (length rest =? 1)%nat; cbn [negb] in H; injection H as <- <-; [|done].
    pose proof (get_permanent f (nth 0 rest []) Hp) as E. split; [exact E|]. rewrite <-E in Hp. exact Hp.
  - cbn [andb]. destruct rest as [|arg [|arg2 rest]]; injection H as <- <-; done.
  - cbn [andb]. case_bool_decide; [done|]. by injection H as <- <-.
Qed.

(** The table after a session of timeless requests. *)
Lemma session_timeless reqs : ∀ f f' out,
  spec_session f reqs = Some (f', out) → Forall timeless reqs.*2 → permanent (fl_map f) →
  fl_map f' = fold_left request_step reqs.*2 (fl_map f) ∧ permanent (fl_map f').
Proof.
  induction reqs as [|[now args] reqs IH]; intros f f' out H Ht Hp; [by injection H as <- <-|].
  cbn [spec_session] in H. apply Forall_cons in Ht as [Ha Ht].
  destruct (spec_reply (store_tick f now) args) as [[f1 out1]|] eqn:E1; [|done]. cbn [mbind option_bind] in H.
  destruct (spec_session f1 reqs) as [[f2 out2]|] eqn:E2; [|done]. cbn [mbind option_bind] in H. injection H as <- <-.
  destruct (spec_timeless _ _ _ _ E1 Ha Hp) as [Em Hp1]. destruct (IH _ _ _ E2 Ht Hp1) as [Em2 Hp2].
  split; [|done]. cbn [fmap list_fmap fold_left]. by rewrite Em2, Em.
Qed.

(** Every beginning of a session is a session. *)
Lemma session_prefix reqs : ∀ j f f' out,
  spec_session f reqs = Some (f', out) → ∃ fj outj, spec_session f (take j reqs) = Some (fj, outj).
Proof.
  induction reqs as [|[now args] reqs IH]; intros j f f' out H; [destruct j; eauto|].
  destruct j as [|j]; [by eexists _, _|]. cbn [take spec_session] in *.
  destruct (spec_reply (store_tick f now) args) as [[f1 out1]|]; [|done]. cbn [mbind option_bind] in *.
  destruct (spec_session f1 reqs) as [[f2 out2]|] eqn:E2; [|done].
  destruct (IH j f1 f2 out2 E2) as (fj & outj & ->). by eexists _, _.
Qed.

(** The table in terms of the records. *)
Lemma request_steps reqs : ∀ m, fold_left request_step reqs m = fold_left replay_step (omap recorded reqs) m.
Proof.
  induction reqs as [|args reqs IH]; intros m; [done|]. cbn [fold_left omap list_omap].
  rewrite IH. unfold request_step. by destruct (recorded args).
Qed.

Lemma length_omap_le {A B} (g : A → option B) (l : list A) : (length (omap g l) ≤ length l)%nat.
Proof. induction l as [|x l IH]; [done|]. cbn [omap list_omap]. case_match; simpl in *; lia. Qed.

Lemma omap_prefix {A B} (g : A → option B) (l : list A) : ∀ i, ∃ j, omap g (take j l) = take i (omap g l).
Proof.
  induction l as [|x l IH]; intros i; [exists 0%nat; by destruct i|].
  destruct i as [|i]; [by exists 0%nat|]. destruct (g x) as [y|] eqn:E.
  - destruct (IH i) as [j Hj]. exists (S j). cbn [take omap list_omap]. rewrite E. cbn [take]. by rewrite Hj.
  - destruct (IH (S i)) as [j Hj]. exists (S j). cbn [take omap list_omap]. by rewrite E.
Qed.
End timeless.

(** ** The file *)

Lemma journal_session reqs : ∀ file,
  fold_left journal_request reqs (AofWriter_Open file, false, false) =
    (AofWriter_Open (file ++ records (omap recorded reqs)), false, false).
Proof.
  induction reqs as [|args reqs IH]; intros file; [by rewrite app_nil_r|].
  cbn [fold_left omap list_omap]. unfold journal_request at 2. destruct (recorded args) as [a|].
  - cbn [journal_write negb andb]. rewrite RecordCommand_file by done.
    change ((AofWriter_Open file) <| aw_file ::= λ f, f ++ CommandSerializer_Serialize a |>)
      with (AofWriter_Open (file ++ CommandSerializer_Serialize a)).
    rewrite IH. unfold records. cbn [map concat]. by rewrite app_assoc.
  - apply IH.
Qed.

(** ** The replay *)

Section replay.
Context {lib : KvLib} {L : Type} `{!LogStorage L, !LogStorageSpec L}.
Implicit Types (s : Service L) (f : FlatStore) (args : list bytes) (env : InfoEnv) (net : Net).

(** [cmd] alone on a connection. *)
Definition alone cc (cmd : ParsedCommand) : ConnectionContext :=
  mkConnectionContext [cmd] 0 (CONN_CLOSING cc) (reply_builder_ cc).

Lemma replay_dispatch env net s cc name rest len f cid :
  serving s len f → Find server_table name = Some cid → sdstoupper name = name →
  bad_arity (ci_arity cid) (1 + zlen rest) = false →
  replay_command env net (Some (s, cc)) (name :: rest) =
    Invoke env net (s <| sv_commands_processed ::= λ c, u64 (c + 1) |>) (alone cc (request (name :: rest) true)) cid
      (request (name :: rest) true) (name :: rest).
Proof.
  intros Hs Hf Hn Hb. unfold replay_command. cbn [mbind option_bind].
  change (mkParsedCommand _ _ _ _ _ _ _ _) with (request (name :: rest) false).
  change (cc <| parsed := [request (name :: rest) false] |> <| to_execute := 0%nat |>)
    with (alone cc (request (name :: rest) false)).
  unfold DispatchCommand. cbn [alone parsed to_execute lookup list_lookup].
  change (argc (request (name :: rest) false)) with (zlen (name :: rest)). rewrite zlen_cons.
  pose proof (zlen_nonneg rest). rewrite (proj2 (Z.leb_gt (1 + zlen rest) 0)) by lia.
  change (token _ 0) with name. rewrite Hn, (sg_registry _ _ _ Hs).
  change (RegisterCommands CommandRegistry_new) with server_table. rewrite Hf.
  change (bad_arity (ci_arity cid) _) with (bad_arity (ci_arity cid) (zlen (name :: rest))).
  rewrite zlen_cons, Hb. reflexivity.
Qed.

(** One record: the same write again, and nothing is recorded. *)
Lemma replay_record env net s cc len f args0 args :
  serving s len f → recorded args0 = Some args → sv_replay_mode s = true →
  zlen (EncodeRespArray args) < U64_MAX → len + 1 < U64_MAX →
  ∃ s' cc', replay_command env net (Some (s, cc)) args = Some (s', cc') ∧
    serving s' (len + 1) (apply_args f args).1 ∧ journal s' = journal s.
Proof.
  intros Hs Hr Hm Hsz Hlen. apply recorded_write in Hr as (name & rest & _ & -> & Hw).
  set (s0 := s <| sv_commands_processed ::= λ c, u64 (c + 1) |>).
  assert (serving s0 len f) as Hs0 by (apply (serving_frame s); [done|reflexivity..]).
  assert (∀ s1 cmd, journal s1 = journal s0 → record_write s1 cmd = s1) as Hrec.
  { intros s1 cmd [= _ E _]. unfold record_write. rewrite E, Hm. done. }
  destruct Hw as [[En Hl]|[En Hl]]; rewrite En in *.
  - set (cid := mkCommandId (str "SET") 20 (-3) 1 1 1 HSet).
    rewrite (replay_dispatch env net s cc (str "SET") rest len f cid Hs) by (done || (unfold bad_arity, zlen; simpl; apply Z.ltb_ge; lia)).
    unfold Invoke. change (ci_handler cid) with HSet. cbv iota. unfold Service_Set.
    assert (is_write (ci_name cid)) as Hw by (by left).
    assert (Z.land (ci_opt_mask cid) CO_WRITE ≠ 0) as Ho by done.
    assert (str "SET" :: rest ≠ []) as Hne by done.
    destruct (submit_serving net s0 len f cid _ Hs0 Hw Ho Hne Hsz Hlen) as (s1 & E1 & Hs1).
    fold s0. rewrite E1. cbn [is_error ar_op]. pose proof (submit_journal _ _ _ _ _ _ E1) as Hj.
    rewrite (Hrec s1 _ Hj). by eexists _, _.
  - set (cid := mkCommandId (str "DEL") 4 (-2) 1 1 1 HDel).
    rewrite (replay_dispatch env net s cc (str "DEL") rest len f cid Hs) by (done || (unfold bad_arity, zlen; simpl; apply Z.ltb_ge; lia)).
    unfold Invoke. change (ci_handler cid) with HDel. cbv iota. unfold Service_Del.
    assert (is_write (ci_name cid)) as Hw by (by right; left).
    assert (Z.land (ci_opt_mask cid) CO_WRITE ≠ 0) as Ho by done.
    assert (str "DEL" :: rest ≠ []) as Hne by done.
    destruct (submit_serving net s0 len f cid _ Hs0 Hw Ho Hne Hsz Hlen) as (s1 & E1 & Hs1).
    fold s0. rewrite E1. cbn [is_error ar_op]. pose proof (submit_journal _ _ _ _ _ _ E1) as Hj.
    rewrite (Hrec s1 _ Hj). by eexists _, _.
Qed.

(** All records, in order. *)
Lemma replay_records env net cmds : ∀ s cc len f,
  serving s len f → sv_replay_mode s = true → Forall (λ a, ∃ a0, recorded a0 = Some a ∧ timeless a) cmds →
  Forall (λ a, zlen (EncodeRespArray a) < U64_MAX) cmds → len + zlen cmds < U64_MAX → permanent (fl_map f) →
  ∃ s' cc' f', fold_left (replay_command env net) cmds (Some (s, cc)) = Some (s', cc') ∧
    serving s' (len + zlen cmds) f' ∧ journal s' = journal s ∧ fl_now f' = fl_now f ∧
    fl_map f' = fold_left replay_step cmds (fl_map f).
Proof.
  induction cmds as [|a cmds IH]; intros s cc len f Hs Hm Hr Hsz Hlen Hp.
  - exists s, cc, f. change (zlen (@nil (list bytes))) with 0. by rewrite Z.add_0_r.
  - apply Forall_cons in Hr as [(a0 & Ha0 & Ht) Hr]. apply Forall_cons in Hsz as [Ha Hsz].
    rewrite zlen_cons in Hlen. pose proof (zlen_nonneg cmds). cbn [fold_left].
    destruct (replay_record env net s cc len f a0 a Hs Ha0 Hm Ha) as (s1 & cc1 & -> & Hs1 & Hj1); [lia|].
    apply recorded_write in Ha0 as (name & rest & _ & -> & Hw).
    destruct (apply_timeless f (sdstoupper name) rest) as [Em Hp1]; [tauto|done..|].
    rewrite <-Em in Hp1.
    destruct (IH s1 cc1 (len + 1) _ Hs1) as (s' & cc' & f' & -> & Hs' & Hj' & Hn' & Em'); [|done|done|lia|done|].
    { injection Hj1 as _ E _. by rewrite E. }
    exists s', cc', f'. split; [done|]. rewrite zlen_cons, Z.add_assoc. split; [done|]. split; [congruence|].
    split; [|by rewrite Em', Em]. rewrite Hn'. apply apply_args_now.
Qed.
End replay.

(** ** From the session to the restart *)

Section restart.
Context {lib : KvLib} `{!AbslSpec kv_absl}.
Implicit Types (env : InfoEnv) (net : Net) (reqs : list (Z * list bytes)).

Definition durable_request (args : list bytes) : Prop :=
  request_ok args ∧ timeless args ∧ Forall (λ a, zlen a ≤ INT32_MAX) args.

(** What the record of such a request satisfies. *)
Lemma durable_record args a :
  durable_request args → recorded args = Some a →
  timeless a ∧ loggable a ∧ zlen (EncodeRespArray a) < U64_MAX.
Proof.
  intros ([(_ & Hc & _) Hsz] & Ht & Hl) Hr. destruct (recorded_write args a Hr) as (name & rest & -> & -> & Hw).
  assert (sdstoupper (sdstoupper name) = sdstoupper name) as E by (destruct Hw as [[-> _]|[-> _]]; reflexivity).
  split; [|split; [|by rewrite zlen_upper]].
  - destruct Ht as [H1 H2]. split; by rewrite E.
  - apply Forall_cons in Hl as [Hn Hl]. split; [done|exact Hc|]. constructor; [|done].
    unfold zlen, sdstoupper in *. by rewrite length_fmap.
Qed.

Lemma durable_records (l : list (list bytes)) :
  Forall durable_request l →
  Forall (λ a, (∃ a0, recorded a0 = Some a ∧ timeless a) ∧ loggable a ∧ zlen (EncodeRespArray a) < U64_MAX)
    (omap recorded l).
Proof.
  intros Hd. apply Forall_forall. intros a (args & Hin & Hr)%list_elem_of_omap.
  destruct (durable_record args a) as (H1 & H2 & H3); [by apply (proj1 (Forall_forall _ _) Hd)|done|].
  split; [by exists args|]. by split.
Qed.

(** The start with a file that holds the beginning of these records. *)
Lemma start_with_records env net now pool cmds k :
  (0 < pool)%nat → zlen cmds < U64_MAX →
  Forall (λ a, (∃ a0, recorded a0 = Some a ∧ timeless a) ∧ loggable a ∧ zlen (EncodeRespArray a) < U64_MAX) cmds →
  ∃ s j len, Init_classic env net now pool (take k (records cmds)) None false [] [] 0 = Some s ∧
    serving s len (mkFlatStore now (fold_left replay_step (take j cmds) ∅)) ∧ len ≤ zlen cmds ∧
    journal s = (AofWriter_Open (take k (records cmds)), false, false) ∧
    ((length (records cmds) ≤ k)%nat → take j cmds = cmds).
Proof.
  intros Hpool Hlen Hall. apply Forall_and in Hall as [Hrec [Hlog Hsz]%Forall_and].
  destruct (ParseRespCommands_prefix cmds k Hlog) as (j & Hc & _ & Hmax & _).
  set (shards := if (1 <? pool)%nat then pred pool else pool).
  assert (0 < shards)%nat as Hsh by (unfold shards; destruct (Nat.ltb_spec 1 pool); lia).
  pose proof (bootstrapped_serving now shards (take k (records cmds)) None pool (net_now net) Hsh) as Hs0.
  assert ((length (records cmds) ≤ k)%nat → take j cmds = cmds) as Hfull.
  { intros Hk. destruct (decide (j < length cmds)%nat) as [Hj|]; [|apply take_ge; lia]. destruct (Hmax Hj).
    rewrite (take_ge _ k) by done. exists (records (drop (S j) cmds)). unfold records. by rewrite <-concat_app, <-map_app, take_drop. }
  set (s0 := (Service_new _ _ _ _ _) <| sv_node ::= _ |>) in Hs0.
  assert (Init_classic env net now pool (take k (records cmds)) None false [] [] 0 = ReplayAof env net s0) as -> by reflexivity.
  assert (journal s0 = (AofWriter_Open (take k (records cmds)), false, false)) as Hj0 by reflexivity.
  pose proof (zlen_nonneg cmds) as Hnn.
  assert (apr_commands (ParseRespCommands (take k (records cmds))) = [] →
    ∃ len, serving s0 len (mkFlatStore now (fold_left replay_step (take j cmds) ∅)) ∧ len ≤ zlen cmds) as Hnone.
  { intros E. rewrite Hc in E. rewrite E. by exists 0. }
  unfold ReplayAof, AofLoad. change (aw_file (sv_aof s0)) with (take k (records cmds)).
  destruct (Z.leb_spec (zlen (take k (records cmds))) 0) as [Hz|_].
  { destruct Hnone as (len & H1 & H2).
    - destruct (take k (records cmds)) as [|x t] eqn:E; [done|]. rewrite zlen_cons in Hz. pose proof (zlen_nonneg t). lia.
    - exists s0, j, len. by split_and!. }
  case_match eqn:Eok.
  { apply andb_true_iff in Eok as [_ E%bool_decide_eq_true]. destruct (Hnone E) as (len & H1 & H2).
    exists s0, j, len. by split_and!. }
  rewrite Hc. set (s1 := s0 <| sv_replay_mode := true |>).
  destruct (replay_records env net (take j cmds) s1 (ConnectionContext_new REDIS (mkSink [] [])) 0 (mkFlatStore now ∅))
    as (s2 & cc2 & f2 & -> & Hs2 & Hj2 & Hn2 & Hm2); try done; [apply (serving_frame s0); [done|reflexivity..]|by apply Forall_take..| |].
  { unfold zlen in *. rewrite length_take. lia. }
  cbn [mbind option_bind]. eexists _, j, _. split; [reflexivity|]. split; [|split; [|split; [|done]]].
  - apply (serving_frame s2); [|reflexivity..]. destruct f2 as [now2 m2]. cbn [fl_now fl_map] in *. subst. exact Hs2.
  - unfold zlen. rewrite length_take. lia.
  - injection Hj2 as E1 _ E3. unfold journal. cbn. by rewrite E1, E3.
Qed.

End restart.

(** ** Examples *)

Section examples.
#[local] Existing Instance example_lib.

Definition durable_requests : list (Z * list bytes) :=
  [(1, [str "SET"; str "a"; str "1"]); (2, [str "del"; str "b"]); (3, [str "GET"; str "a"]);
   (4, [str "SET"; str "a"; str "2"; str "NX"])].

End examples.
