(* ===== verification/Limits.v ===== *)
(** * Where the service departs from Redis

    Four behaviours of src/server/service/main_service.cc and
    dragonfly_connection.cc that a client or an operator can observe: a pipelined
    GET whose reply is overtaken by the next one, the count that DEL reports,
    DEBUG from a connection, and the append-only file on top of a snapshot. *)

From S2P Require Import Prelude Absl Sds IoBuf RaftTypes LogStorage StateMachine CommandEncoder CommandLog Aof DbSlice ReplyBuilder ConnContext Connection CommandStream KvStateMachine ServerSnapshot DebugCmd Registry RaftNode Replication FollowerLog SoloLeader Engine Service Startup Serving.

Section limits.
Context {lib : KvLib} {L : Type} `{!LogStorage L, !LogStorageSpec L}.
Implicit Types (s : Service L) (cc : ConnectionContext) (f : FlatStore) (net : Net) (env : InfoEnv).

Lemma del_missing keys : ∀ f d,
  (∀ key, key ∈ keys → fl_map f !! key = None) →
  fold_left (λ '(st, deleted) key,
    let '(st, ok) := store_Del st key in (st, if ok : bool then u32 (deleted + 1) else deleted)) keys (f, d) = (f, d).
Proof.
  induction keys as [|key keys IH]; intros f d Hk; [done|]. cbn [fold_left store_Del flat_store fl_cell].
  rewrite (Hk key) by (by left). cbn [cell_del snd]. rewrite bool_decide_false by (by intros [? ?]).
  assert (f <| fl_map ::= partial_alter (λ e, (cell_del e).1) key |> = f) as ->.
  { destruct f as [now m]. unfold cell_del. cbn. f_equal. refine (delete_id m key _). apply (Hk key). by left. }
  apply IH. intros k Hin. apply Hk. by right.
Qed.

(** DEL replies 1 whatever it deletes: the result of the applied command is
    not passed back to the handler.  Here none of the keys exists. *)
Theorem del_reports_one env net s cc len f keys :
  serving s len f → conn_idle cc → keys ≠ [] → (∀ key, key ∈ keys → fl_map f !! key = None) →
  zlen (EncodeRespArray (str "DEL" :: keys)) < U64_MAX → len + 1 < U64_MAX →
  ∃ s' cc' len', serve_turn env net s (receive cc (str "DEL" :: keys)) = Some (s', cc') ∧ serving s' len' f ∧
    cc_stream cc' = cc_stream cc ++ str ":1" ++ CRLF.
Proof.
  intros Hs Hi Hne Hk Hsz Hlen.
  destruct (serve_turn_del env net s cc (str "DEL") keys len f Hs Hi) as (s' & cc' & len' & H1 & H2 & H3 & _ & _ & H4);
    [done|destruct keys; [done|simpl; lia]|done..|].
  exists s', cc', len'. split; [exact H1|]. split; [|exact H4].
  assert ((apply_args f (str "DEL" :: keys)).1 = f) as E; [|by rewrite E in H3].
  unfold apply_args. rewrite (bool_decide_false (str "DEL" = str "SET")), (bool_decide_true (str "DEL" = str "DEL")) by done.
  destruct keys as [|key keys]; [done|]. unfold del_all. by rewrite del_missing.
Qed.

(** DEBUG on a connection ends the process: the argument list that
    [DispatchCommand] passes on is empty for a Redis connection, and the handler
    reads its second element. *)
Theorem debug_aborts env net s cc len f sub rest :
  serving s len f → conn_idle cc →
  serve_turn env net s (receive cc (str "DEBUG" :: sub :: rest)) = None.
Proof.
  intros Hs Hi. unfold serve_turn. rewrite (dispatch_single env net s _ (request (str "DEBUG" :: sub :: rest) false));
    [|unfold receive, AddParsedCommand; cbn; by rewrite (ci_parsed _ Hi)|apply Hi|done].
  rewrite (receive_queued cc _ Hi).
  rewrite (Dispatch_registered env net s cc (str "DEBUG") (sub :: rest) (mkCommandId (str "DEBUG") 65 (-2) 0 0 0 HDebug) len f Hs) by done.
  replace (bad_arity _ _) with false; [done|]. unfold bad_arity. rewrite zlen_cons. pose proof (zlen_nonneg rest).
  symmetry. cbn [ci_arity]. apply orb_false_iff. split; [done|]. apply andb_false_iff. right. apply Z.ltb_ge. lia.
Qed.

(** A response in batch mode only goes to the batch. *)
Lemma batched_response r rb :
  protocol_ rb = REDIS → should_batch_ (serializer_ rb) = true →
  match r with BulkString _ | Null => True | _ => False end →
  serializer_ (send_response r rb) = (serializer_ rb) <| batch_ ::= λ w, w ++ response_bytes r |>.
Proof.
  destruct rb as [pr b]. cbn [protocol_ serializer_]. intros -> Hb Hr.
  destruct r as [|e|m|value|]; try done.
  - cbn [response_bytes]. unfold send_response, SendBulk. change (SendBulkString b value = b <| batch_ ::= λ w, w ++ response_bytes (BulkString value) |>).
    unfold SendBulkString, Send. rewrite Hb. cbn [response_bytes concat]. by rewrite app_nil_r, <-!app_assoc.
  - change (SendNull b = b <| batch_ ::= λ w, w ++ response_bytes Null |>). unfold SendNull, Send. by rewrite Hb.
Qed.

(** The queue while two pipelined commands are served. *)
Definition pair cc (c1 c2 : ParsedCommand) (te : nat) (rb : ReplyBuilder) : ConnectionContext :=
  mkConnectionContext [c1; c2] te (CONN_CLOSING cc) rb.

(** The two requests; the GET whose callback is on its way; the reply of PING. *)
Abbreviation get_cmd key := (request [str "GET"; key]).
Abbreviation ping_cmd := (request [str "PING"]).
Abbreviation async_get key := ((get_cmd key true) <| execute_async := true |>).

Definition pong (rb : ReplyBuilder) : ReplyBuilder :=
  (SetBatchMode rb false) <| serializer_ ::= λ b, Send b [str "+"; str "PONG"; CRLF] |>.

Lemma pair_dispatch env net s cc len f key rb :
  serving s len f →
  ∃ s2, dispatch_all env net s (pair cc (get_cmd key false) (ping_cmd false) 0 rb) =
          Some (s2, pair cc (async_get key) (ping_cmd true) 2 (pong rb)) ∧ serving s2 len f.
Proof.
  intros Hs. unfold dispatch_all.
  change (dispatch_loop _ env net s _) with
    ('(s, cc) ← DispatchCommand env net s (pair cc (get_cmd key false) (ping_cmd false) 0 (SetBatchMode rb true)) [];
     dispatch_loop 1 env net s (cc <| to_execute ::= S |>)).
  set (s0 := s <| sv_commands_processed ::= λ c, u64 (c + 1) |>).
  assert (serving s0 len f) as Hs0 by (apply (serving_frame s); [done|reflexivity..]).
  assert (DispatchCommand env net s (pair cc (get_cmd key false) (ping_cmd false) 0 (SetBatchMode rb true)) [] =
    Some (Service_Get net s0 (pair cc (get_cmd key true) (ping_cmd false) 0 (SetBatchMode rb true)))) as ->.
  { unfold DispatchCommand. cbn [pair parsed to_execute lookup list_lookup].
    change (argc (request [str "GET"; key] false) <=? 0) with false.
    cbv iota. change (token (request [str "GET"; key] false) 0) with (str "GET"). rewrite (sg_registry _ _ _ Hs). reflexivity. }
  destruct (Get_accepted net s0 (pair cc (get_cmd key true) (ping_cmd false) 0 (SetBatchMode rb true)) len f Hs0) as (s1 & -> & Hs1 & _).
  cbn [mbind option_bind].
  change (dispatch_loop 1 env net s1 _) with
    ('(s, cc) ← DispatchCommand env net s1 (pair cc (async_get key) (ping_cmd false) 1 (SetBatchMode rb false)) [];
     Some (s, cc <| to_execute ::= S |>)).
  exists (s1 <| sv_commands_processed ::= λ c, u64 (c + 1) |>).
  split; [|apply (serving_frame s1); [done|reflexivity..]].
  unfold DispatchCommand. cbn [pair parsed to_execute lookup list_lookup]. change (argc (ping_cmd false) <=? 0) with false.
  cbv iota. change (token (ping_cmd false) 0) with (str "PING"). rewrite (sg_registry _ _ _ Hs1). reflexivity.
Qed.

(** The callback of the GET runs; then both replies are taken off the queue. *)
Lemma pair_replies s cc len f key rb :
  serving s len f →
  let v := (cell_get (fl_now f) (fl_map f !! key)).2 in
  let r := match v with Some value => BulkString value | None => Null end in
  ∃ s' cc', run_callbacks s (pair cc (async_get key) (ping_cmd true) 2 rb) = (s', cc') ∧
    ReplyReadyCommands cc' =
      mkConnectionContext [] 0 (CONN_CLOSING cc) (SetBatchMode (send_response r (SetBatchMode rb true)) false).
Proof.
  intros Hs v r. set (g1 := async_get key). set (cc2 := pair cc g1 (ping_cmd true) 2 rb).
  assert (run_callbacks s cc2 = (Get_callback s cc2 0).1) as ->.
  { unfold run_callbacks. change (seq 0 (length (parsed cc2))) with [0%nat; 1%nat]. cbn [fold_left].
    change (parsed cc2 !! 0%nat) with (Some g1). change (pending g1) with true. cbv iota.
    unfold Get_callback. change (parsed cc2 !! 0%nat) with (Some g1). cbv iota.
    destruct (on_kv _ _ _) as [n' [x|]]; reflexivity. }
  unfold Get_callback. change (parsed cc2 !! 0%nat) with (Some g1). cbv iota zeta. change (token g1 1) with key.
  destruct (on_kv_get s len f key Hs) as (n' & -> & _). fold v. unfold r.
  destruct v as [value|]; (eexists _, _; split; [reflexivity|reflexivity]).
Qed.

(** The reply of PING is written at once and leaves no batch. *)
Lemma pong_written rb :
  sink_ok (serializer_ rb) → batch_ (serializer_ rb) = [] →
  batch_ (serializer_ (pong rb)) = [] ∧
  sk_written (sink_ (serializer_ (pong rb))) = sk_written (sink_ (serializer_ rb)) ++ str "+PONG" ++ CRLF.
Proof.
  intros Hsk Hb. set (b := (serializer_ rb) <| should_batch_ := false |>).
  assert (sink_ok b) as Hsk' by exact Hsk.
  destruct (Send_stream b [str "+"; str "PONG"; CRLF] Hsk') as (E1 & _ & _ & _ & E2).
  specialize (E2 eq_refl). unfold stream in E1. rewrite E2 in E1.
  change (batch_ b) with (batch_ (serializer_ rb)) in E1. rewrite Hb, !app_nil_r in E1. split; [exact E2|exact E1].
Qed.

(** C40. A reply is overtaken: when a client sends GET and PING without waiting,
    the reply of PING is on the wire after the turn, while the reply of GET, which
    was asked first, is still in the batch of the reply builder. *)
Theorem pipelined_get_overtaken env net s cc len f key :
  serving s len f → conn_idle cc →
  ∃ s' cc', serve_turn env net s (receive (receive cc [str "GET"; key]) [str "PING"]) = Some (s', cc') ∧
    parsed cc' = [] ∧
    sk_written (sink_ (serializer_ (reply_builder_ cc'))) =
      sk_written (sink_ (serializer_ (reply_builder_ cc))) ++ str "+PONG" ++ CRLF ∧
    cc_batch cc' = get_line (cell_get (fl_now f) (fl_map f !! key)).2.
Proof.
  intros Hs Hi. set (rb := reply_builder_ cc).
  assert (receive (receive cc [str "GET"; key]) [str "PING"] = pair cc (get_cmd key false) (ping_cmd false) 0 rb) as ->.
  { destruct Hi as [Hp Ht _ _]. unfold rb. destruct cc as [l te cl rb0]. cbn [parsed to_execute] in Hp, Ht. by subst. }
  destruct (pair_dispatch env net s cc len f key rb Hs) as (s2 & E & Hs2). unfold serve_turn. rewrite E. cbn [mbind option_bind].
  destruct (pair_replies s2 cc len f key (pong rb) Hs2) as (s3 & cc3 & -> & ->).
  set (r := match _ with Some _ => _ | None => Null end).
  eexists _, _. split; [reflexivity|]. split; [done|].
  destruct Hi as [_ _ [Hpr Hsk] Hb]. destruct (pong_written rb Hsk Hb) as [B1 B2].
  assert (serializer_ (send_response r (SetBatchMode (pong rb) true)) =
    (serializer_ (SetBatchMode (pong rb) true)) <| batch_ ::= λ w, w ++ response_bytes r |>) as E3.
  { apply batched_response; [exact Hpr|done|]. unfold r. by destruct (cell_get (fl_now f) (fl_map f !! key)).2. }
  unfold cc_batch. change (serializer_ (reply_builder_ _)) with
    ((serializer_ (send_response r (SetBatchMode (pong rb) true))) <| should_batch_ := false |>). rewrite E3.
  split; [exact B2|]. change (batch_ _) with (batch_ (serializer_ (pong rb)) ++ response_bytes r). by rewrite B1.
Qed.
End limits.

(** ** Examples *)

Section examples.
#[local] Existing Instance example_lib.

Lemma example_service_serving : serving example_service 0 (mkFlatStore 0 ∅).
Proof. apply bootstrapped_serving. lia. Qed.

Lemma del_reports_one_witness :
  ∃ s' cc' len', serve_turn example_env example_net example_service (receive (cc_ example_connection) [str "DEL"; str "a"; str "b"]) =
      Some (s', cc') ∧ serving s' len' (mkFlatStore 0 ∅) ∧ cc_stream cc' = str ":1" ++ CRLF.
Proof.
  apply (del_reports_one example_env example_net example_service (cc_ example_connection) 0 (mkFlatStore 0 ∅) [str "a"; str "b"]).
  - apply example_service_serving.
  - apply example_connection_idle.
  - done.
  - intros key _. apply lookup_empty.
  - by_decide.
  - by_decide.
Defined.

Lemma debug_aborts_witness :
  serve_turn example_env example_net example_service
    (receive (cc_ example_connection) [str "DEBUG"; str "POPULATE"; str "10"]) = None.
Proof.
  apply (debug_aborts example_env example_net example_service (cc_ example_connection) 0 (mkFlatStore 0 ∅)).
  - apply example_service_serving.
  - apply example_connection_idle.
Defined.

Lemma pipelined_get_overtaken_witness :
  ∃ s' cc', serve_turn example_env example_net example_service
              (receive (receive (cc_ example_connection) [str "GET"; str "a"]) [str "PING"]) = Some (s', cc') ∧
    parsed cc' = [] ∧ sk_written (sink_ (serializer_ (reply_builder_ cc'))) = str "+PONG" ++ CRLF ∧
    cc_batch cc' = str "$-1" ++ CRLF.
Proof.
  destruct (pipelined_get_overtaken example_env example_net example_service (cc_ example_connection) 0 (mkFlatStore 0 ∅) (str "a"))
    as (s' & cc' & H1 & H2 & H3 & H4).
  - apply example_service_serving.
  - apply example_connection_idle.
  - exists s', cc'. split; [exact H1|]. split; [exact H2|]. split; [exact H3|]. rewrite H4. vm_compute. reflexivity.
Defined.

(** A session, then a restart with the files it left; the value of [key] before
    and after. *)
Definition value_across_restart (reqs : list (Z * list bytes)) (key : bytes) : option (option bytes * option bytes) :=
  let start aof bin := Init_classic example_env example_net 0 4 aof bin false [] [] 0 in
  s0 ← start [] None;
  '(s1, _) ← serve_session example_env example_net s0 example_connection reqs;
  s2 ← start (aw_file (sv_aof s1)) (sv_snapshot_bin s1);
  Some ((RaftEngine_Get example_net (sv_node s1) key kLocal).2, (RaftEngine_Get example_net (sv_node s2) key kLocal).2).

(** A snapshot and the append-only file do not fit together: SAVE leaves the
    records of the commands it covers in the file, and the next start executes
    them once more on top of the snapshot.  Conditional writes then give other
    values than before the restart. *)
Theorem save_then_restart_changes_value :
  value_across_restart
    [(0, [str "SET"; str "a"; str "5"; str "XX"]); (0, [str "SET"; str "a"; str "7"; str "NX"])] (str "a") =
    Some (Some [], Some []) ∧
  value_across_restart
    [(0, [str "SET"; str "a"; str "5"; str "XX"]); (0, [str "SET"; str "a"; str "7"; str "NX"]); (0, [str "SAVE"])] (str "a") =
    Some (Some [], Some (str "5")).
Proof. split; vm_compute; reflexivity. Qed.
End examples.
