(* ===== verification/Memcache.v ===== *)
(** * The memcached side of a connection

    [ParseMemcache] of src/server/service/dragonfly_connection.cc and
    [DispatchMC] of main_service.cc.  The input buffer is its unread bytes.
    [ASYNC_DISPATCH] is never set and [dispatch_q_] is never filled in this
    code path, so the dispatch is synchronous.  Theorems: what the code does with
    store commands and with retrievals. *)

From S2P Require Import Prelude Absl Sds MemcacheParser RaftTypes LogStorage CommandLog StateMachine DbSlice ReplyBuilder ConnContext Connection KvStateMachine Registry RaftNode Engine Service Startup Serving.

Section memcache.
Context {lib : KvLib} {L : Type} `{!LogStorage L}.
Implicit Types (s : Service L) (cc : ConnectionContext) (cmd : MCCommand) (input value : bytes).

(** The arguments that [DispatchMC] makes; [None] for a type it does not know. *)
Definition mc_args cmd value : option (list bytes) :=
  let build (name opt : bytes) :=
    name :: mc_key cmd :: (if IsStoreCmd (mc_type cmd) then value :: (if bool_decide (opt = []) then [] else [opt]) else []) in
  match mc_type cmd with
  | MC_REPLACE => Some (build (str "SET") (str "XX"))
  | MC_SET => Some (build (str "SET") [])
  | MC_ADD => Some (build (str "SET") (str "NX"))
  | MC_GET => Some (build (str "GET") [])
  | _ => None
  end.

Definition DispatchMC env net s cc cmd value : option (Service L * ConnectionContext) :=
  match mc_args cmd value with
  | None => Some (s, reply cc (λ rb, SendMCClientError rb (str "bad command line format")))
  | Some args => DispatchCommand env net s cc args
  end.

(** What one call of [ParseMemcache] leaves: the unread input, the local variable
    [cmd], the result of the last [Parse] and the status. *)
Record MCParse : Type := mkMCParse {
  mp_service : Service L;
  mp_cc : ConnectionContext;
  mp_input : bytes;
  mp_cmd : MCCommand;
  mp_status : ParserStatus
}.

Definition mc_status (r : MCResult) : ParserStatus :=
  match r with MC_OK => ParserOK | INPUT_PENDING => NEED_MORE | _ => ParserERROR end.

(** The loop; every turn that goes on consumes a line. *)
Fixpoint parse_memcache (fuel : nat) env net s cc input cmd value : option MCParse :=
  match fuel with
  | O => Some (mkMCParse s cc input cmd ParserOK)
  | S fuel =>
      let '(result, consumed, cmd) := MemcacheParser_Parse input cmd in
      match result with
      | MC_OK =>
          let total_len := if IsStoreCmd (mc_type cmd) then consumed + u32 (bytes_len cmd + 2) else consumed in
          if IsStoreCmd (mc_type cmd) && (zlen input <? total_len)
          then Some (mkMCParse s cc input cmd NEED_MORE)
          else
            let value := if IsStoreCmd (mc_type cmd) then substr input consumed (bytes_len cmd) else value in
            '(s, cc) ← (if zlen input <=? consumed then DispatchMC env net s cc cmd value else Some (s, cc));
            let input := drop (Z.to_nat consumed) input in
            if cc_ec cc then Some (mkMCParse s cc input cmd ParserOK)
            else parse_memcache fuel env net s cc input cmd value
      | _ => Some (mkMCParse s cc (drop (Z.to_nat consumed) input) cmd (mc_status result))
      end
  end.

Definition ParseMemcache env net s cc input : option MCParse :=
  parse_memcache (S (length input)) env net s cc input MCCommand_new [].

(** ** What becomes of the commands *)

(** A store command has no effect.  With its value in the buffer, the
    condition for a dispatch ([consumed >= InputLen], where [consumed] is the
    length of the command line alone) cannot hold; only the line is consumed,
    and the bytes of the value are then parsed as the next command lines. *)
Theorem store_value_is_parsed_as_command `{!AbslSpec kv_absl} fuel env net s cc m value :
  command_wf m → IsStoreCmd (mc_type m) = true → bytes_len m = zlen value → zlen value + 2 ≤ U32_MAX →
  cc_ec cc = false →
  parse_memcache (S fuel) env net s cc (command_line m ++ value ++ CRLF) MCCommand_new [] =
    parse_memcache fuel env net s cc (value ++ CRLF) m value.
Proof.
  intros Hwf Hst Hlen Hmax Hec. pose proof (zlen_nonneg value). cbn [parse_memcache].
  rewrite (Parse_command_line m (value ++ CRLF) Hwf). cbv zeta. rewrite Hst. cbn [andb].
  rewrite zlen_app, zlen_app, Hlen. change (zlen CRLF) with 2. rewrite u32_small by lia.
  rewrite (proj2 (Z.ltb_ge _ _)) by lia. rewrite (proj2 (Z.leb_gt _ (zlen (command_line m)))) by lia.
  cbn [mbind option_bind]. rewrite Hec, drop_zlen_app, substr_app. done.
Qed.

(** A retrieval command ends the process: [DispatchMC] hands it to
    [DispatchCommand], which insists on a command at [to_execute], and a
    memcached connection never puts one there. *)
Theorem mc_get_aborts `{!AbslSpec kv_absl} env net s cc m :
  command_wf m → mc_type m = MC_GET → parsed cc = [] →
  ParseMemcache env net s cc (command_line m) = None.
Proof.
  intros Hwf Ht Hp. unfold ParseMemcache. cbn [parse_memcache].
  pose proof (Parse_command_line m [] Hwf) as E. rewrite app_nil_r in E. rewrite E. cbv zeta. rewrite Ht.
  cbn [IsStoreCmd andb]. rewrite Z.leb_refl. unfold DispatchMC, mc_args. rewrite Ht. unfold DispatchCommand. by rewrite Hp.
Qed.
End memcache.

(** ** Examples *)

Section examples.
#[local] Existing Instance example_lib.

Definition mc_context : ConnectionContext := ConnectionContext_new MEMCACHE (mkSink [] []).

Lemma store_value_is_parsed_as_command_witness :
  let m := mkMCCommand MC_SET (str "k") [] 0 0 9 0 false in
  parse_memcache 3 example_env example_net example_service mc_context (command_line m ++ str "flush_all" ++ CRLF) MCCommand_new [] =
    parse_memcache 2 example_env example_net example_service mc_context (str "flush_all" ++ CRLF) m (str "flush_all").
Proof.
  apply (store_value_is_parsed_as_command 2 example_env example_net example_service mc_context
    (mkMCCommand MC_SET (str "k") [] 0 0 9 0 false) (str "flush_all")).
  - unfold command_wf, word_ok. by_decide.
  - done.
  - done.
  - by_decide.
  - done.
Defined.

Lemma mc_get_aborts_witness :
  ParseMemcache example_env example_net example_service mc_context (str "get k" ++ CRLF) = None.
Proof.
  apply (mc_get_aborts example_env example_net example_service mc_context (mkMCCommand MC_GET (str "k") [] 0 0 0 0 false)).
  - unfold command_wf, word_ok. by_decide.
  - done.
  - done.
Defined.
End examples.
